(* ===== verification/_CoqProject ===== *)
-Q . S2P
Prelude.v
CString.v
Common.v
IbvLoader.v
Addr.v
Catalog.v
Rdma.v
SharedBuffers.v
RdmaHandshake.v
Dmem.v
Coherence.v
Network.v
Allreduce.v
Collectives.v
ListCollectives.v
PointToPoint.v
PeerMesh.v
MemoryPool.v
Progress.v
EventSync.v
ProgressEngine.v
Metrics.v
LogOutput.v
Agent.v
Rendezvous.v
MeshSetup.v
Scheduler.v
ClusterManager.v
Heartbeat.v
ClusterThreads.v
ClusterConfig.v
Runtime.v
AgentSockets.v
Session.v
ProcessGroup.v
GroupSession.v
Kernels.v
Staging.v
Dispatch.v
KernelInit.v
