(* ===== verification/Prelude.v ===== *)
(** * mccl: a verification development

    mccl is a collective-communication backend for PyTorch on clusters of Macs,
    with a distributed-memory and cluster runtime beside it.  This library
    models the C++ of src/csrc and proves what its parts do.

    ** The program and the files that model it

    - Collectives (csrc/backend).  A process group runs one process per rank.
      [ProcessGroupMCCL.cpp] implements the collectives over [PeerMesh.cpp], a
      full mesh of TCP sockets, with the allreduce algorithms of
      [AllreduceAlgos.cpp]; most collectives are handed as tasks to the thread of
      [Progress.cpp], which settles a [WorkMCCL.cpp] object.
        - [Network]: processes that fork threads, send and receive on one
          stream per ordered pair of ranks, and join; all interleavings as a step
          relation.  [PeerMesh::send] and [recv] are the actions [Snd] and [Rcv].
        - [Allreduce]: chunkize, ring, tree and butterfly.
        - [Collectives]: allreduce with the choice of the algorithm, broadcast,
          allgather, reduce-scatter, all-to-all, with their argument checks;
          [ListCollectives]: their variants on lists of tensors and with split
          sizes, with the memory around the buffers where sizes are unchecked.
        - [Session]: the calling thread and the engine thread of every rank over
          the shared streams, as a step relation; its specification is the bodies
          one after the other.  [ProcessGroup]: the object with its construction
          (also through [Registration.cpp]) and the entry of every method.
          [GroupSession]: programs of calls on it, against the meaning of each
          collective on the tensors of all ranks.
        - [Kernels] ([MetalKernels.mm], [shaders.metal]): the threads of the
          element-wise kernels, the choice of the pipeline, command buffers and
          batches.  [KernelInit]: where the shader library comes from and which
          pipelines are made of it.  [Staging] ([MPSInterop.mm]): the staging pool
          and the blits between it and tensors in private storage.
        - [EventSync] ([EventSync.mm] and its callers): the events that make the
          engine thread wait for the stream of PyTorch, with calling threads,
          engine and stream as a step relation over [Progress].
        - [Dispatch] ([MPSFallback.cpp]): the operators registered for MPS.
        - [PointToPoint]: [send] and [recv] with their header, over bytes.
        - [PeerMesh]: interface priorities, endpoint strings, the candidates a
          rank connects to, the connect loop, the acceptor, and the loops that
          move whole buffers through partial socket calls.
        - [Progress]: the engine thread, its submitters and its shutdown as a
          step relation with the condition variable split into its steps; the
          work objects and the task of [async_submit_].
        - [Rendezvous] ([Rendezvous.cpp]): the endpoint exchange and the barrier
          of the process group over the store of PyTorch, all ranks at once.
        - [MeshSetup] ([PeerMesh.cpp]): the constructor of the mesh run by all
          ranks at once, over [PeerMesh] and [Rendezvous], with time-outs.
        - [MemoryPool] ([MemoryPool.cpp]): the staging buffers and their guards.
    - Distributed memory (csrc/dmem, csrc/transport/rdma, csrc/coherence).  Each
      node registers memory regions, publishes them in a catalog and reads and
      writes remote memory with RDMA verbs; the coherence protocol keeps a page
      directory on top of it.
        - [Addr] ([GlobalAddress.hpp]), [Catalog] ([MemoryCatalog]), [Rdma]
          ([RdmaConnection], [SharedBuffer] over the verbs of [IbvWrapper.hpp]),
          [SharedBuffers] (the life cycle of such buffers: moves, registrations
          and blocks), [RdmaHandshake] (two nodes bringing up their queue pairs
          through exchanged destinations),
          [IbvLoader] ([IbvWrapper.cpp], which loads them once), [Dmem] ([DistributedMemoryManager]), [Coherence]
          ([CoherenceMessage/Directory/Protocol]).
    - Cluster runtime (csrc/runtime, csrc/agent).  The head node tracks
      membership, elects a leader, schedules jobs and sends shader work to agent
      processes on the other nodes.
        - [Agent] ([Protocol.hpp], [Agent.cpp]): the control protocol in bytes,
          the handler of a connection and the accept loop.
        - [Scheduler] ([Scheduler.cpp]), [ClusterManager] and [Heartbeat] (both
          [ClusterManager.cpp]: the first has the membership operations, which
          call the catalog and the scheduler, the second the passes of the loops,
          where the sender talks to [Agent]); [ClusterThreads]: the same loops with
          start and shutdown in steps, interleaved with each other and with calls
          from outside; [ClusterConfig]: their configurations with the defaults.
        - [Runtime] ([DistributedMetalRuntime.cpp], [ShaderDispatch.hpp]): the
          partition of a dispatch, the data-parallel and pipeline dispatch over
          [Coherence], the memory manager and the agents' sockets.
          [AgentSockets]: how those sockets are opened, and [send_all].
        - [ProgressEngine] ([ProgressEngine.cpp]): the bounded engine with its
          submitters, worker and controller as a step relation.
        - [Metrics] ([Metrics.cpp]): operation records and their summary.
    - Shared code: [CString] (the string functions of the standard library that
      the code calls), [Common] (csrc/common: exception texts, tensor checks, log
      level), [LogOutput] (log lines of several threads on one stream, the
      printed metrics).
    - [Prelude] (this file): machine integers, bytes and buffers, the error
      monad with its frame and invariant rules, the sort parameter, tactics.

    ** Conventions

    A [w]-bit unsigned integer is a [Z] in [[0, 2^w)] with [uwrap] after the
    operations that can leave the range; counts and indices that the code bounds
    are [nat].  Structs are records with the fields' names, enums are inductive
    types.  A member function of an object is a computation in [M S] (it returns
    or throws and keeps the state as the executed statements left it) or a
    function from state to state; an exception carries the class and the literal
    part of its text; logging is left out but for [LogOutput].  Loops that are not structural take
    fuel: [chunk_fuel] in [Dmem] (one iteration per staging buffer), the number
    of polls that stands for a timeout, two rounds for [drain_pending], the
    number of ranks for the loops of the tree, the length of the string or buffer
    in [PeerMesh], [AgentSockets] and [Staging], the length of the stream in
    [Agent], as many sleeps as fit into the time-out in [EventSync]; the theorems show that the fuel is enough, as totality or as the
    result itself.

    Code outside of src is a parameter with its documented behaviour as a class
    of laws, with an instance that satisfies it: the verbs library ([Ibv],
    [IbvLaws], [QpLaws] for the queue pair states), the socket calls ([SocketLaws]), [std::sort] ([StdSort],
    [StdSortLaws]), the C allocator ([Malloc]), the dynamic linker ([Dl]), the
    key-value store of PyTorch ([Store], [StoreLaws]), double arithmetic in the
    metrics ([Doubles]), the connections of the heartbeat sender, the iteration
    order of a hash map, the clock, the tensor operations of PyTorch, its MPS
    stream with the events ([Mps], [MpsLaws]) and its dispatcher
    ([DispatchLaws]), the files and the compiler of Metal ([surroundings]).  The
    element operations of the Metal kernels are the parameters [redop] and
    [scale], [arith] in [Kernels].
    The coherence protocol is proved against the interface [DmemIf], with the
    memory manager of this repository and an accepting network as instances;
    the agent against [AgentDmem] and the runtime against [RtDmem], of which the
    memory manager is an instance too.

    ** What the theorems show

    - Every collective, in every interleaving of all threads of all ranks:
      executions are finite, none gets stuck, and all end with the result the
      collective promises ([inevitable]); the three allreduce algorithms agree.
      The argument is that the network is deterministic ([run_decides]), so one
      complete execution, composed of rounds whose sends and receives match
      ([runs_round]), decides them all.
    - Programs: a sequence of collective calls on every rank, most of them
      executed by the engine thread, refines the meanings of the calls one after
      the other, as long as the program waits for its works before an
      allreduce; an execution shows what happens when it does not.  Unchecked
      sizes in reduce_scatter and alltoall_base read and write beyond buffers.
    - Kernels and staging: the threads of a kernel compute the element-wise
      operation in any order, a batch of reductions ends in the sequential
      reduction, what is staged can be unstaged from and to either kind of
      storage; an operation without a kernel leaves the batch open, tensors in
      private storage share the one pool.  After a successful load every required
      pipeline is there and stays; a bad library stays too.
    - Streams: no body of a collective starts before the device has finished what
      had been issued when the collective was called, and no event is left over.
    - Point-to-point messages arrive; a refused one poisons its stream.
    - The engine runs tasks in submission order and settles each work object with
      the outcome of its own task; no task is forgotten; a shutdown can be lost.
    - The mesh: whole buffers over partial calls, endpoint round trip, exactly
      the allowed candidates, when the acceptor completes; the constructors of
      all ranks end with one connection per pair, and both ends of a pair hold
      the same one whatever failed on the way.
    - Memory: registration and resolution agree, remote puts tile their target,
      the catalog survives the wire, opening a connection leaks nothing, a
      registered buffer has one owner through all moves, the handshake of two
      nodes ends with connected queue pairs;
      chunked puts overwrite their staging buffer, no connection is ever opened.
    - Coherence: what each request does to directory and messages; the owner of an
      exclusive page is lost, the cache stays empty, the head's barrier hangs.
    - Runtime: jobs are neither lost nor duplicated, a tick is greedy and never
      overcommits, preemption starts nothing, and neither does the default
      configuration; leaders are the lowest online
      nodes after joins and leaves but not after failures; the online counter
      drifts by an exact amount; a heartbeat round fails exactly the nodes that
      were silent for longer than the timeout, and their jobs are requeued.  The
      loops in steps do the same when undisturbed; a shutdown ends within 127
      steps of the manager's threads; a tick on an old list of nodes starts a job
      on a failed node, a late answer brings back a node that has left.
    - Agent: it serves every sequence of requests, however the stream is cut, and
      whatever a client sends its output stays a sequence of responses; the
      message of the head for a shader run puts the stream out of step.
    - Pool, engine, metrics, rendezvous: guards are memory safe and sizes are
      bounded; the bounded queue is first-in first-out and every execution
      settles; the history keeps the latest operations; endpoints reach all
      ranks, and the barrier of the process group holds until all have arrived;
      log lines of several threads are never mixed.
    - Dispatch: the parts of a grid tile it; on a head with agents a dispatch
      stays in the barrier and sends nothing.

    ** What is not modelled

    The Python bindings, the device mutex (which nothing locks), the commit
    trace, the accessors of the Metal device and queue, the wrapping of CPU
    tensors: foreign interfaces without logic of their own.  Streams in [Network] are unbounded (a send does
    not wait for the receiver) and, except in [PointToPoint], in units of
    elements.  The tensors of [Collectives] lie in shared storage, their split
    sizes are not negative; a body in [Session] reads its tensors when it
    starts and writes them when it ends.  The composition of [Staging] with the
    collectives is stated for [_reduce_scatter_base], [alltoall] and
    [reduce_scatter] only, where it fails.  A failure reported to the cluster
    manager from outside is one step in [ClusterThreads]; the ticks of its
    scheduler are atomic there, as they are under the scheduler's own mutex. *)
From Stdlib Require Export ZArith Lia.
From stdpp Require Export base list numbers gmap strings fin_maps sorting.

Declare Scope mccl_scope.
Delimit Scope mccl_scope with mccl.

(** ** Machine integers

    An unsigned integer of width [w] is the integer in [[0, 2^w)] that it
    denotes; the operations of the source that can leave the range are
    followed by the wrap-around that C++ specifies for unsigned types. *)

Definition uwrap (w z : Z) : Z := z mod 2 ^ w.
Definition u8 (z : Z) : Z := uwrap 8 z.
Definition u16 (z : Z) : Z := uwrap 16 z.
Definition u32 (z : Z) : Z := uwrap 32 z.
Definition u64 (z : Z) : Z := uwrap 64 z.

(** A signed 32-bit conversion ([static_cast<int>] of an in-range or
    out-of-range value, two's complement). *)
Definition s32 (z : Z) : Z := (z + 2 ^ 31) mod 2 ^ 32 - 2 ^ 31.

Definition in_width (w z : Z) : Prop := (0 <= z < 2 ^ w)%Z.

Lemma uwrap_range w z : (0 <= w)%Z -> in_width w (uwrap w z).
Proof. intros Hw. unfold in_width, uwrap. apply Z.mod_pos_bound. lia. Qed.

Lemma uwrap_small w z : in_width w z -> uwrap w z = z.
Proof. intros H. unfold uwrap. by apply Z.mod_small. Qed.

Lemma uwrap_idemp w z : (0 <= w)%Z -> uwrap w (uwrap w z) = uwrap w z.
Proof. intros Hw. apply uwrap_small. by apply uwrap_range. Qed.

Lemma u64_small z : (0 <= z < 2 ^ 64)%Z -> u64 z = z.
Proof. apply uwrap_small. Qed.
Lemma u32_small z : (0 <= z < 2 ^ 32)%Z -> u32 z = z.
Proof. apply uwrap_small. Qed.
Lemma u16_small z : (0 <= z < 2 ^ 16)%Z -> u16 z = z.
Proof. apply uwrap_small. Qed.
Lemma u8_small z : (0 <= z < 2 ^ 8)%Z -> u8 z = z.
Proof. apply uwrap_small. Qed.

Create HintDb width discriminated.
#[export] Hint Resolve uwrap_range : width.
#[export] Hint Unfold in_width : width.

(** Joining two disjoint bit fields with [|] is addition. *)
Lemma lor_field a b n :
  (0 <= n)%Z -> (0 <= b < 2 ^ n)%Z ->
  Z.lor (Z.shiftl a n) b = (a * 2 ^ n + b)%Z.
Proof.
  intros Hn Hb. rewrite <- Z.shiftl_mul_pow2 by done.
  assert (Z.land (Z.shiftl a n) b = 0%Z) as Hz.
  { apply Z.bits_inj'. intros i Hi. rewrite Z.land_spec, Z.bits_0.
    destruct (Z.ltb_spec i n).
    - by rewrite Z.shiftl_spec_low.
    - rewrite (proj2 (Z.testbit_false b i Hi)); [by rewrite andb_false_r|].
      assert (2 ^ n <= 2 ^ i)%Z by (apply Z.pow_le_mono_r; lia).
      rewrite Z.div_small by lia. done. }
  rewrite <- Z.lxor_lor by done. symmetry. by apply Z.add_nocarry_lxor.
Qed.

(** Masking with the complement of [2^n - 1] in a [w]-bit word rounds down to
    a multiple of [2^n]. *)
Lemma land_ones_compl x n w :
  (0 <= n <= w)%Z -> (0 <= x < 2 ^ w)%Z ->
  Z.land x (2 ^ w - 2 ^ n) = (x - x mod 2 ^ n)%Z.
Proof.
  intros Hn Hx.
  assert (2 ^ w - 2 ^ n = Z.shiftl (Z.ones (w - n)) n)%Z as ->.
  { rewrite Z.shiftl_mul_pow2, Z.ones_equiv by lia.
    replace (2 ^ w)%Z with (2 ^ (w - n) * 2 ^ n)%Z
      by (rewrite <- Z.pow_add_r by lia; f_equal; lia).
    rewrite Z.mul_pred_l. lia. }
  assert (x - x mod 2 ^ n = Z.shiftl (Z.shiftr x n) n)%Z as ->.
  { rewrite Z.shiftl_mul_pow2, Z.shiftr_div_pow2 by lia.
    pose proof (Z.div_mod x (2 ^ n)). assert (0 < 2 ^ n)%Z by (apply Z.pow_pos_nonneg; lia). lia. }
  apply Z.bits_inj'. intros i Hi. rewrite Z.land_spec.
  destruct (Z.ltb_spec i n) as [Hin|Hin].
  { rewrite !Z.shiftl_spec_low by lia. by rewrite andb_false_r. }
  rewrite !Z.shiftl_spec_high by lia. rewrite Z.shiftr_spec by lia.
  replace (i - n + n)%Z with i by lia.
  destruct (Z.ltb_spec (i - n) (w - n)) as [Hiw|Hiw].
  - rewrite Z.ones_spec_low by lia. by rewrite andb_true_r.
  - rewrite Z.ones_spec_high by lia. rewrite andb_false_r. symmetry.
    rewrite (proj2 (Z.testbit_false x i Hi)); [done|].
    assert (2 ^ w <= 2 ^ i)%Z by (apply Z.pow_le_mono_r; lia).
    rewrite Z.div_small by lia. done.
Qed.

(** ** Bytes and little-endian encoding

    A byte is an integer in [[0, 256)].  [memcpy] of a fixed-width integer
    to or from a byte buffer on the little-endian target is [le_bytes] and
    [le_val]. *)

Definition is_byte (b : Z) : Prop := (0 <= b < 256)%Z.

#[export] Instance is_byte_dec b : Decision (is_byte b).
Proof. unfold is_byte. apply _. Defined.

Fixpoint le_bytes (n : nat) (z : Z) : list Z :=
  match n with
  | O => []
  | S n' => (z mod 256)%Z :: le_bytes n' (z / 256)%Z
  end.

Fixpoint le_val (bs : list Z) : Z :=
  match bs with
  | [] => 0%Z
  | b :: bs' => (b + 256 * le_val bs')%Z
  end.

Lemma length_le_bytes n z : length (le_bytes n z) = n.
Proof. revert z; induction n; intros; simpl; auto. Qed.

Lemma le_bytes_is_byte n z : Forall is_byte (le_bytes n z).
Proof.
  revert z; induction n; intros; simpl; constructor; auto.
  apply Z.mod_pos_bound; lia.
Qed.

Lemma le_val_bytes n z : le_val (le_bytes n z) = (z mod 2 ^ (8 * Z.of_nat n))%Z.
Proof.
  revert z; induction n as [|n IH]; intros z; cbn [le_bytes le_val].
  - by rewrite Z.mod_1_r.
  - rewrite IH.
    replace (8 * Z.of_nat (S n))%Z with (8 + 8 * Z.of_nat n)%Z by lia.
    rewrite Z.pow_add_r by lia. change (2 ^ 8)%Z with 256%Z.
    rewrite Z.rem_mul_r; [lia|lia|]. apply Z.pow_pos_nonneg; lia.
Qed.

Lemma le_val_bytes_small n z :
  (0 <= z < 2 ^ (8 * Z.of_nat n))%Z -> le_val (le_bytes n z) = z.
Proof. intros H. rewrite le_val_bytes. by apply Z.mod_small. Qed.

Lemma le_val_range bs :
  Forall is_byte bs -> (0 <= le_val bs < 2 ^ (8 * Z.of_nat (length bs)))%Z.
Proof.
  induction 1 as [|b bs Hb _ IH]; cbn [le_val length]; [simpl; lia|].
  replace (8 * Z.of_nat (S (length bs)))%Z with (8 + 8 * Z.of_nat (length bs))%Z by lia.
  rewrite Z.pow_add_r by lia. change (2 ^ 8)%Z with 256%Z. unfold is_byte in Hb. nia.
Qed.

Lemma le_bytes_val bs :
  Forall is_byte bs -> le_bytes (length bs) (le_val bs) = bs.
Proof.
  induction 1 as [|b bs Hb _ IH]; cbn [le_val length le_bytes]; [done|].
  unfold is_byte in Hb. f_equal.
  - rewrite Z.mul_comm, Z.mod_add by lia. apply Z.mod_small; lia.
  - rewrite Z.mul_comm, Z.div_add by lia. rewrite Z.div_small by lia. by rewrite Z.add_0_l.
Qed.

(** ** Buffers: reading and writing a range

    [slice off len l] is what a read of [len] cells at [off] sees;
    [list_inserts off d l] (stdpp) is the buffer after [memcpy(l+off, d, |d|)].
    Cells outside the buffer do not exist, so every theorem that relies on a
    write landing carries the bounds that the source establishes. *)

Definition slice {A} (off len : nat) (l : list A) : list A := take len (drop off l).

Section Slices.
Context {A : Type}.
Implicit Types l d : list A.

Lemma length_slice off len l :
  off + len <= length l -> length (slice off len l) = len.
Proof. intros. unfold slice. rewrite length_take, length_drop. lia. Qed.

Lemma length_slice_le off len l : length (slice off len l) <= len.
Proof. unfold slice. rewrite length_take. lia. Qed.

Lemma lookup_slice off len l i :
  i < len -> slice off len l !! i = l !! (off + i).
Proof. intros. unfold slice. rewrite lookup_take_lt by lia. apply lookup_drop. Qed.

Lemma slice_app_l off len l l' : off + len <= length l -> slice off len (l ++ l') = slice off len l.
Proof. intros H. unfold slice. rewrite drop_app_le, take_app_le; [done|rewrite length_drop; lia|lia]. Qed.

Lemma slice_app_exact l d : slice 0 (length d) (d ++ l) = d.
Proof. unfold slice. rewrite drop_0. apply take_app_length. Qed.

Lemma slice_all l : slice 0 (length l) l = l.
Proof. unfold slice. rewrite drop_0. by apply take_ge. Qed.

(** Two lists of the same length are equal when they agree index by index
    below that length. *)
Lemma list_eq_lt l d n :
  length l = n -> length d = n -> (forall i, i < n -> l !! i = d !! i) -> l = d.
Proof.
  intros Hl Hd H. apply list_eq. intros i.
  destruct (decide (i < n)) as [Hi|Hi]; [by apply H|].
  rewrite !lookup_ge_None_2 by lia. done.
Qed.

Lemma slice_inserts_same off d l :
  off + length d <= length l ->
  slice off (length d) (list_inserts off d l) = d.
Proof.
  intros H. apply (list_eq_lt _ _ (length d)); [|done|].
  - apply length_slice. by rewrite length_inserts.
  - intros i Hi. rewrite lookup_slice by done.
    rewrite list_lookup_inserts by lia. f_equal; lia.
Qed.

Lemma slice_inserts_disjoint off len off' d l :
  off + len <= off' \/ off' + length d <= off ->
  off + len <= length l ->
  slice off len (list_inserts off' d l) = slice off len l.
Proof.
  intros Hdis Hlen. apply (list_eq_lt _ _ len);
    [apply length_slice; rewrite length_inserts; lia|by apply length_slice|].
  intros i Hi. rewrite !lookup_slice by done.
  destruct Hdis as [Hd|Hd].
  - by rewrite list_lookup_inserts_lt by lia.
  - by rewrite list_lookup_inserts_ge by lia.
Qed.

Lemma slice_slice off len off' len' l :
  off' + len' <= len -> slice off' len' (slice off len l) = slice (off + off') len' l.
Proof.
  intros H. unfold slice. rewrite skipn_firstn_comm, take_take, drop_drop. f_equal; lia.
Qed.
End Slices.

(** A fixed-width integer written by [memcpy] is read back by [memcpy]. *)
Lemma le_val_written n v b o :
  o + n <= length b -> (0 <= v < 2 ^ (8 * Z.of_nat n))%Z ->
  le_val (slice o n (list_inserts o (le_bytes n v) b)) = v.
Proof.
  intros Hn Hv. rewrite <- (length_le_bytes n v) at 1.
  rewrite slice_inserts_same by (rewrite length_le_bytes; lia).
  by apply le_val_bytes_small.
Qed.

(** ** Errors and effects

    A C++ function that throws leaves the object as the statements executed
    so far have made it: the state is kept next to the exception, never
    rolled back.  [M S A] is a computation on an object of type [S] that
    returns an [A] or throws. *)

(** The exception classes of [common/Errors.hpp]; the text is the literal
    part of the message. *)
Inductive error : Type :=
  | MCCLError (msg : string)
  | TransportError (msg : string)
  | MetalError (msg : string)
  | TensorError (msg : string)
  | TimeoutError (msg : string)
  | ProtocolError (msg : string).

#[export] Instance error_eq_dec : EqDecision error.
Proof. solve_decision. Defined.

Inductive result (A : Type) : Type :=
  | Ok (a : A)
  | Throw (e : error).
Arguments Ok {A} a.
Arguments Throw {A} e.

Definition is_ok {A} (r : result A) : bool :=
  match r with Ok _ => true | Throw _ => false end.

Definition M (S A : Type) : Type := S -> result A * S.

#[export] Instance M_ret S : MRet (M S) := fun A a s => (Ok a, s).
#[export] Instance M_bind S : MBind (M S) := fun A B f m s =>
  match m s with
  | (Ok a, s') => f a s'
  | (Throw e, s') => (Throw e, s')
  end.

Definition throw {S A} (e : error) : M S A := fun s => (Throw e, s).
Definition getS {S} : M S S := fun s => (Ok s, s).
Definition modS {S} (f : S -> S) : M S unit := fun s => (Ok tt, f s).
Definition askS {S A} (f : S -> A) : M S A := fun s => (Ok (f s), s).
Definition liftR {S A} (r : result A) : M S A := fun s => (r, s).

(** [DISTRO_CHECK(cond, msg)]: throw [MCCLError] when the condition fails. *)
Definition DISTRO_CHECK {S} (c : bool) (msg : string) : M S unit :=
  if c then mret tt else throw (MCCLError msg).

(** A [for] loop over the values of a list, in order. *)
Fixpoint forM {S A} (l : list A) (f : A -> M S unit) : M S unit :=
  match l with
  | [] => mret tt
  | x :: l' => f x ;; forM l' f
  end.

Section MonadLemmas.
Context {S A B : Type}.

Lemma bind_ok (m : M S A) (f : A -> M S B) s a s' :
  m s = (Ok a, s') -> (m ≫= f) s = f a s'.
Proof. intros H. unfold mbind, M_bind. by rewrite H. Qed.

Lemma bind_throw (m : M S A) (f : A -> M S B) s e s' :
  m s = (Throw e, s') -> (m ≫= f) s = (Throw e, s').
Proof. intros H. unfold mbind, M_bind. by rewrite H. Qed.

(** A computation that succeeds went through its first part. *)
Lemma bind_ok_inv (m : M S A) (f : A -> M S B) s b s'' :
  (m ≫= f) s = (Ok b, s'') ->
  exists a s', m s = (Ok a, s') /\ f a s' = (Ok b, s'').
Proof.
  unfold mbind, M_bind. destruct (m s) as [[a|e] s'] eqn:E; intros H; [eauto|congruence].
Qed.
End MonadLemmas.

Lemma forM_app {S A} (l1 l2 : list A) (f : A -> M S unit) s s' :
  forM l1 f s = (Ok tt, s') -> forM (l1 ++ l2) f s = forM l2 f s'.
Proof.
  revert s; induction l1 as [|x l1 IH]; intros s; simpl.
  - intros H. by inversion H.
  - intros H. apply bind_ok_inv in H as (a & s1 & H1 & H2). destruct a.
    erewrite bind_ok by exact H1. by apply IH.
Qed.

(** An invariant of the object kept by every iteration is kept by the loop,
    whether it ends or throws. *)
Lemma forM_inv {S A} (I : S -> Prop) (l : list A) (f : A -> M S unit) s :
  (forall x s, I s -> I (f x s).2) -> I s -> I (forM l f s).2.
Proof.
  intros Hf. revert s; induction l as [|x l IH]; intros s HI; simpl; [done|].
  specialize (Hf x s HI). unfold mbind, M_bind.
  destruct (f x s) as [[[]|e] s']; simpl in *; auto.
Qed.

(** ** [std::sort]

    The order it leaves equal elements in is not specified: the sort is a
    parameter of the code that calls it, with its documented contract for a
    comparator that is a strict weak order. *)

Definition strict_weak {A} (lt : A -> A -> bool) : Prop :=
  (forall a b, lt a b = true -> lt b a = false) /\
  (forall a b c, lt b a = false -> lt c b = false -> lt c a = false).

Class StdSort := std_sort : forall A : Type, (A -> A -> bool) -> list A -> list A.
Arguments std_sort {_ A} lt l.
Class StdSortLaws `{StdSort} : Prop := {
  std_sort_perm {A} (lt : A -> A -> bool) l : std_sort lt l ≡ₚ l;
  std_sort_sorted {A} (lt : A -> A -> bool) l :
    strict_weak lt -> StronglySorted (fun a b => lt b a = false) (std_sort lt l);
}.

Lemma alter_insert {A} (f : A -> A) (i : nat) (l : list A) x : l !! i = Some x -> alter f i l = <[i := f x]> l.
Proof.
  revert i; induction l as [|y l IH]; intros [|i]; simpl; try done; [by intros [= ->]|].
  intros H. by rewrite <- (IH i H).
Qed.

Lemma StronglySorted_weaken {A} (R Q : A -> A -> Prop) l :
  (forall a b, R a b -> Q a b) -> StronglySorted R l -> StronglySorted Q l.
Proof.
  intros HRQ. induction 1 as [|a l _ IH Ha]; constructor; [done|].
  eapply Forall_impl; [exact Ha|]. eauto.
Qed.

(** Merge sort meets the contract. *)
Definition merge_sort_std : StdSort := fun A lt l =>
  @merge_sort A (fun a b => lt b a = false) (fun a b => decide (lt b a = false)) l.

Lemma merge_sort_laws : @StdSortLaws merge_sort_std.
Proof.
  split.
  - intros A lt l. apply merge_sort_Permutation.
  - intros A lt l [Hasym Htrans].
    assert (Transitive (fun a b => lt b a = false)) by (intros a b c; apply Htrans).
    assert (Total (fun a b => lt b a = false)).
    { intros a b. destruct (lt b a) eqn:E; [right; by apply Hasym|by left]. }
    apply StronglySorted_merge_sort; apply _.
Qed.

(** *** Frames: what a computation leaves alone

    [keeps f m]: running [m] does not change the observation [f] of the
    object, whether it returns or throws. *)
Definition keeps {S A X} (f : S -> X) (m : M S A) : Prop := forall s, f (m s).2 = f s.

Create HintDb frame discriminated.

Section Frames.
Context {S X : Type} (f : S -> X).

Lemma keeps_ret {A} (a : A) : keeps f (mret a).
Proof. done. Qed.
Lemma keeps_throw {A} e : keeps f (throw (A := A) e).
Proof. done. Qed.
Lemma keeps_get : keeps f getS.
Proof. done. Qed.
Lemma keeps_ask {A} (g : S -> A) : keeps f (askS g).
Proof. done. Qed.
Lemma keeps_lift {A} (r : result A) : keeps f (liftR r).
Proof. done. Qed.
Lemma keeps_mod g : (forall s, f (g s) = f s) -> keeps f (modS g).
Proof. intros H s. apply H. Qed.
Lemma keeps_check c msg : keeps f (DISTRO_CHECK c msg).
Proof. by destruct c. Qed.
Lemma keeps_bind {A B} (m : M S A) (k : A -> M S B) :
  keeps f m -> (forall a, keeps f (k a)) -> keeps f (m ≫= k).
Proof.
  intros Hm Hk s. unfold mbind, M_bind. specialize (Hm s).
  destruct (m s) as [[a|e] s']; simpl in *; [|done]. by rewrite Hk.
Qed.
Lemma keeps_forM {A} (l : list A) (g : A -> M S unit) :
  (forall x, keeps f (g x)) -> keeps f (forM l g).
Proof.
  intros Hg. induction l as [|x l IH]; [apply keeps_ret|]. simpl. by apply keeps_bind.
Qed.
End Frames.

#[export] Hint Resolve keeps_ret keeps_throw keeps_get keeps_ask keeps_lift keeps_check : frame.

(** [preserves I m]: [m] keeps the invariant [I], whether it returns or
    throws. *)
Definition preserves {S A} (I : S -> Prop) (m : M S A) : Prop := forall s, I s -> I (m s).2.

Create HintDb inv discriminated.

Section Preserves.
Context {S : Type} (I : S -> Prop).

Lemma preserves_ret {A} (a : A) : preserves I (mret a).
Proof. by intros s. Qed.
Lemma preserves_throw {A} e : preserves I (throw (A := A) e).
Proof. by intros s. Qed.
Lemma preserves_get : preserves I getS.
Proof. by intros s. Qed.
Lemma preserves_ask {A} (g : S -> A) : preserves I (askS g).
Proof. by intros s. Qed.
Lemma preserves_lift {A} (r : result A) : preserves I (liftR r).
Proof. by intros s. Qed.
Lemma preserves_check c msg : preserves I (DISTRO_CHECK c msg).
Proof. by destruct c; intros s. Qed.
Lemma preserves_mod g : (forall s, I s -> I (g s)) -> preserves I (modS g).
Proof. intros H s. apply H. Qed.
Lemma preserves_bind {A B} (m : M S A) (k : A -> M S B) :
  preserves I m -> (forall a, preserves I (k a)) -> preserves I (m ≫= k).
Proof.
  intros Hm Hk s HI. unfold mbind, M_bind. specialize (Hm s HI).
  destruct (m s) as [[a|e] s']; simpl in *; [by apply Hk|done].
Qed.
(** A program that reads the state first may use the invariant there. *)
Lemma preserves_bind_get {B} (k : S -> M S B) :
  (forall s, I s -> I (k s s).2) -> preserves I (getS ≫= k).
Proof. intros Hk s HI. by apply Hk. Qed.
Lemma preserves_forM {A} (l : list A) (g : A -> M S unit) :
  (forall x, preserves I (g x)) -> preserves I (forM l g).
Proof.
  intros Hg. induction l as [|x l IH]; [apply preserves_ret|]. simpl. by apply preserves_bind.
Qed.
Lemma preserves_keeps {A X} (f : S -> X) (J : X -> Prop) (m : M S A) :
  keeps f m -> preserves (fun s => J (f s)) m.
Proof. intros Hk s HJ. by rewrite Hk. Qed.
End Preserves.

#[export] Hint Resolve preserves_ret preserves_throw preserves_get preserves_ask
  preserves_lift preserves_check : inv.

(** ** Tactics *)

(** Prove a frame by following the program; facts about the calls come from
    the [frame] database. *)
Ltac keeps_tac :=
  repeat first
    [ solve [eauto with frame]
    | apply keeps_bind; [|intros ?]
    | apply keeps_forM; intros ?
    | apply keeps_mod; intros ?; reflexivity
    | case_match ].

(** The same for an invariant, with the [inv] database. *)
Ltac preserves_tac :=
  repeat first
    [ solve [eauto with inv]
    | apply preserves_bind; [|intros ?]
    | apply preserves_forM; intros ?
    | case_match ].

(** Unfold the effect combinators and run the computation as far as its
    guards are known. *)
Ltac mrun :=
  repeat (unfold mbind, M_bind, mret, M_ret, throw, getS, modS, askS, liftR,
    DISTRO_CHECK in *; cbn [fst snd] in *).

(** Case analysis on the innermost boolean test in the goal, with its
    arithmetic reading. *)
Ltac case_bool :=
  match goal with
  | |- context [Z.eqb ?a ?b] => destruct (Z.eqb_spec a b)
  | |- context [Z.ltb ?a ?b] => destruct (Z.ltb_spec a b)
  | |- context [Z.leb ?a ?b] => destruct (Z.leb_spec a b)
  | |- context [Nat.eqb ?a ?b] => destruct (Nat.eqb_spec a b)
  | |- context [Nat.ltb ?a ?b] => destruct (Nat.ltb_spec a b)
  | |- context [Nat.leb ?a ?b] => destruct (Nat.leb_spec a b)
  end.

(** The booleans of a hypothesis, read as propositions. *)
Ltac bool_to_prop :=
  repeat match goal with
  | H : Z.eqb _ _ = true |- _ => apply Z.eqb_eq in H
  | H : Z.eqb _ _ = false |- _ => apply Z.eqb_neq in H
  | H : Z.ltb _ _ = true |- _ => apply Z.ltb_lt in H
  | H : Z.ltb _ _ = false |- _ => apply Z.ltb_ge in H
  | H : Z.leb _ _ = true |- _ => apply Z.leb_le in H
  | H : Z.leb _ _ = false |- _ => apply Z.leb_gt in H
  | H : andb _ _ = true |- _ => apply andb_true_iff in H as [? ?]
  | H : orb _ _ = false |- _ => apply orb_false_iff in H as [? ?]
  | H : negb _ = true |- _ => apply negb_true_iff in H
  | H : negb _ = false |- _ => apply negb_false_iff in H
  end.

(** Look through the writes of the other fields of a wire structure. *)
Ltac skip_fields :=
  repeat (rewrite slice_inserts_disjoint by
    (rewrite ?length_inserts, ?length_le_bytes; lia)).

(** Unfold the fixed widths so that [lia] sees the bounds. *)
Ltac widths :=
  unfold u8, u16, u32, u64, uwrap, in_width, is_byte in *.
