(* ===== verification/CString.v ===== *)
(** What the sources use of [std::string] and the number conversions of the
    standard library: searching, [std::to_string], [std::atoi], [std::stoi]. *)
From Stdlib Require Import Ascii.
From S2P Require Import Prelude.

(** Strings as the lists of their characters. *)
Abbreviation str := (list ascii).
Definition lit (s : string) : str := String.list_ascii_of_string s.
Definition comma : ascii := ","%char.
Definition colon_char : ascii := ":"%char.
Definition dot : ascii := "."%char.

(** ** std::string *)

Fixpoint index_of (c : ascii) (s : str) : option nat :=
  match s with
  | [] => None
  | x :: s => if Ascii.eqb x c then Some 0 else S <$> index_of c s
  end.

(** [s.find(c, i)] *)
Definition find (c : ascii) (i : nat) (s : str) : option nat :=
  Nat.add i <$> index_of c (drop i s).

(** [s.rfind(c)] *)
Fixpoint rfind (c : ascii) (s : str) : option nat :=
  match s with
  | [] => None
  | x :: s => match rfind c s with
              | Some k => Some (S k)
              | None => if Ascii.eqb x c then Some 0 else None
              end
  end.

(** [s.rfind(p, 0) == 0] *)
Fixpoint starts_with (p s : str) : bool :=
  match p, s with
  | [], _ => true
  | a :: p, b :: s => Ascii.eqb a b && starts_with p s
  | _, [] => false
  end.

Definition str_eqb (a b : str) : bool := (length a =? length b) && starts_with a b.

Definition digit (n : nat) : ascii := ascii_of_nat (48 + n).
Definition digit_val (c : ascii) : option nat :=
  let k := nat_of_ascii c in if (48 <=? k) && (k <=? 57) then Some (k - 48) else None.

(** [os << port]: decimal digits; [n] digits are always enough. *)
Fixpoint decimal (fuel n : nat) : str :=
  match fuel with
  | 0 => []
  | S fuel => (if n <? 10 then [] else decimal fuel (n / 10)) ++ [digit (n mod 10)]
  end.
Definition to_string (n : nat) : str := decimal (S n) n.

(** [std::atoi]: white space, a sign, digits up to the first other character. *)
Definition is_space (c : ascii) : bool :=
  let k := nat_of_ascii c in (k =? 32) || ((9 <=? k) && (k <=? 13)).
Fixpoint atoi_digits (acc : Z) (s : str) : Z :=
  match s with
  | [] => acc
  | c :: s => match digit_val c with
              | Some d => atoi_digits (10 * acc + Z.of_nat d) s
              | None => acc
              end
  end.
Fixpoint atoi (s : str) : Z :=
  match s with
  | c :: s' =>
    if is_space c then atoi s'
    else if Ascii.eqb c "-"%char then (- atoi_digits 0 s')%Z
    else if Ascii.eqb c "+"%char then atoi_digits 0 s'
    else atoi_digits 0 s
  | [] => 0%Z
  end.

(** [std::stoi]: like [atoi], but [None] (an exception) without a digit or
    outside of [int]. *)
Definition int_range (z : Z) : option Z :=
  if (- 2 ^ 31 <=? z)%Z && (z <? 2 ^ 31)%Z then Some z else None.
Definition starts_digit (s : str) : bool :=
  match s with c :: _ => bool_decide (is_Some (digit_val c)) | [] => false end.
Fixpoint stoi (s : str) : option Z :=
  match s with
  | c :: s' =>
    if is_space c then stoi s'
    else if Ascii.eqb c "-"%char || Ascii.eqb c "+"%char then
      if starts_digit s' then int_range (atoi s) else None
    else if starts_digit s then int_range (atoi s) else None
  | [] => None
  end.

(** ** Lemmas: numbers and positions *)

Lemma digit_val_digit n : n < 10 -> digit_val (digit n) = Some n.
Proof. intros H. do 10 (destruct n as [|n]; [reflexivity|]). lia. Qed.

Lemma decimal_atoi fuel n acc rest : n < fuel ->
  exists k, (10 ^ k > n)%nat /\
    atoi_digits acc (decimal fuel n ++ rest) = atoi_digits (acc * 10 ^ Z.of_nat k + Z.of_nat n) rest.
Proof.
  revert n acc rest; induction fuel as [|fuel IH]; intros n acc rest Hf; [lia|].
  cbn [decimal]. rewrite <- app_assoc.
  pose proof (Nat.mod_upper_bound n 10 ltac:(lia)) as Hm. pose proof (Nat.div_mod_eq n 10) as Hdm.
  destruct (Nat.ltb_spec n 10) as [Hlt|Hge].
  - exists 1. split; [rewrite Nat.pow_1_r; lia|]. cbn [app atoi_digits]. rewrite digit_val_digit by done.
    f_equal. rewrite Nat.mod_small by done. lia.
  - destruct (IH (n / 10) acc ([digit (n mod 10)] ++ rest)) as (k & Hk & ->).
    { apply Nat.Div0.div_lt_upper_bound. lia. }
    exists (S k). split; [rewrite Nat.pow_succ_r'; lia|]. cbn [app atoi_digits]. rewrite digit_val_digit by done.
    f_equal. rewrite Nat2Z.inj_succ, Z.pow_succ_r by lia. nia.
Qed.

Lemma digit_head n rest : n < 10 ->
  atoi (digit n :: rest) = atoi_digits 0 (digit n :: rest) /\
  digit n <> comma /\ digit n <> colon_char.
Proof. intros H. do 10 (destruct n as [|n]; [by repeat split|]). lia. Qed.

Lemma decimal_chars fuel n c : c ∈ decimal fuel n -> exists d, d < 10 /\ c = digit d.
Proof.
  revert n; induction fuel as [|fuel IH]; intros n; simpl; [by intros ?%elem_of_nil|].
  rewrite elem_of_app. intros [Hc|Hc].
  - destruct (n <? 10); [by apply elem_of_nil in Hc|by eapply IH].
  - apply list_elem_of_singleton in Hc as ->. exists (n mod 10). split; [|done].
    apply Nat.mod_upper_bound. lia.
Qed.

Lemma atoi_to_string n : atoi (to_string n) = Z.of_nat n.
Proof.
  assert (atoi (to_string n) = atoi_digits 0 (to_string n)) as ->.
  { destruct (to_string n) as [|c s] eqn:E; [reflexivity|].
    destruct (decimal_chars (S n) n c) as (d & Hd & ->); [fold (to_string n); rewrite E; left|].
    by apply digit_head. }
  destruct (decimal_atoi (S n) n 0 [] ltac:(lia)) as (k & _ & H). rewrite app_nil_r in H.
  unfold to_string. rewrite H. reflexivity.
Qed.

Lemma to_string_no_colon n : colon_char ∉ to_string n.
Proof.
  intros (d & Hd & Heq)%decimal_chars. by destruct (digit_head d [] Hd) as (_ & _ & []).
Qed.

Lemma index_of_app c s rest : c ∉ s -> index_of c (s ++ c :: rest) = Some (length s).
Proof.
  induction s as [|x s IH]; intros Hn; simpl.
  - by rewrite Ascii.eqb_refl.
  - destruct (Ascii.eqb_spec x c) as [->|_]; [set_solver|]. rewrite IH by set_solver. done.
Qed.

Lemma rfind_none c s : c ∉ s -> rfind c s = None.
Proof.
  induction s as [|x s IH]; intros Hn; simpl; [done|]. rewrite IH by set_solver.
  destruct (Ascii.eqb_spec x c) as [->|_]; [set_solver|done].
Qed.

Lemma rfind_app c s rest : c ∉ rest -> rfind c (s ++ c :: rest) = Some (length s).
Proof.
  intros Hn. induction s as [|x s IH]; simpl.
  - by rewrite rfind_none, Ascii.eqb_refl.
  - by rewrite IH.
Qed.

Lemma find_none_before c i s j : find c i s = Some j -> i <= j.
Proof. unfold find. destruct (index_of c (drop i s)); simpl; intros; simplify_eq. lia. Qed.

Lemma to_string_inj n m : to_string n = to_string m -> n = m.
Proof. intros E. apply Nat2Z.inj. by rewrite <- !atoi_to_string, E. Qed.

Lemma stoi_to_string n : (Z.of_nat n < 2 ^ 31)%Z -> stoi (to_string n) = Some (Z.of_nat n).
Proof.
  intros Hn. pose proof (atoi_to_string n) as Ha. destruct (to_string n) as [|c s] eqn:E.
  { destruct n; [discriminate E|]. simpl in Ha. lia. }
  destruct (decimal_chars (S n) n c) as (d & Hd & ->); [fold (to_string n); rewrite E; left|].
  assert (is_space (digit d) = false /\ Ascii.eqb (digit d) "-"%char = false /\
    Ascii.eqb (digit d) "+"%char = false) as (E1 & E2 & E3)
    by (do 10 (destruct d as [|d]; [by repeat split|]); lia).
  cbn [stoi]. rewrite E1, E2, E3. cbn [orb starts_digit]. rewrite digit_val_digit by done.
  rewrite bool_decide_true by eauto. unfold int_range. rewrite Ha.
  rewrite (proj2 (Z.leb_le _ _)), (proj2 (Z.ltb_lt _ _)) by lia. done.
Qed.

