(* ===== verification/Common.v ===== *)
(** src/csrc/common: the texts of the exception classes (Errors.hpp), the
    argument checks on tensors (TensorChecks.hpp) and the log level
    (Logging.hpp). *)
From Stdlib Require Import Ascii.
From S2P Require Import Prelude CString.

(** ** Errors.hpp *)

(** [what()] of the exception classes: the base class puts its tag in front of
    the tag of the derived class. *)
Definition what (e : error) : str :=
  match e with
  | MCCLError m => lit "[MCCL] " ++ lit m
  | TransportError m => lit "[MCCL] " ++ lit "Transport: " ++ lit m
  | MetalError m => lit "[MCCL] " ++ lit "Metal: " ++ lit m
  | TensorError m => lit "[MCCL] " ++ lit "Tensor: " ++ lit m
  | TimeoutError m => lit "[MCCL] " ++ lit "Timeout: " ++ lit m
  | ProtocolError m => lit "[MCCL] " ++ lit "Protocol: " ++ lit m
  end.

(** ** TensorChecks.hpp *)

(** The scalar types of the library that the checks name, and the others. *)
Inductive ScalarType := kFloat | kHalf | kBFloat16 | kDouble | kLong | kInt | kShort | kChar
  | kByte | kBool | kOtherType.
#[export] Instance ScalarType_eq_dec : EqDecision ScalarType.
Proof. solve_decision. Defined.

Inductive Device := CPU | MPS | OtherDevice.
#[export] Instance Device_eq_dec : EqDecision Device.
Proof. solve_decision. Defined.

(** What the checks look at of an [at::Tensor]. *)
Record at_Tensor := mkAt {
  at_device : Device; at_is_contiguous : bool; at_scalar_type : ScalarType; at_sizes : list Z;
  at_element_size : Z;
}.

Definition at_numel (t : at_Tensor) : Z := foldr Z.mul 1%Z (at_sizes t).

Definition DISTRO_CHECK_TENSOR (c : bool) (msg : string) : result unit :=
  if c then Ok tt else Throw (TensorError msg).

Definition and_then (a b : result unit) : result unit :=
  match a with Ok _ => b | Throw e => Throw e end.

Definition supported_dtype (d : ScalarType) : bool :=
  match d with
  | kFloat | kHalf | kBFloat16 | kDouble | kLong | kInt | kShort | kChar | kByte | kBool => true
  | kOtherType => false
  end.

Definition check_single_tensor (t : at_Tensor) : result unit :=
  and_then (DISTRO_CHECK_TENSOR (bool_decide (at_device t = MPS) || bool_decide (at_device t = CPU))
    "MCCL requires MPS or CPU tensors (unified memory), got device: ")
  (and_then (DISTRO_CHECK_TENSOR (at_is_contiguous t)
    "MCCL v1 requires contiguous tensors. Call .contiguous() before passing to collective.")
  (and_then (DISTRO_CHECK_TENSOR (supported_dtype (at_scalar_type t)) "MCCL: unsupported dtype ")
  (DISTRO_CHECK_TENSOR (0 <? at_numel t)%Z "MCCL does not accept empty tensors"))).

Definition check_tensor_list (ts : list at_Tensor) : result unit :=
  match ts with
  | [t] => check_single_tensor t
  | _ => Throw (TensorError "MCCL collectives expect exactly one tensor per rank per call")
  end.

Definition check_same_shape_dtype (a b : at_Tensor) : result unit :=
  and_then (DISTRO_CHECK_TENSOR (bool_decide (at_sizes a = at_sizes b)) "Shape mismatch in collective")
  (DISTRO_CHECK_TENSOR (bool_decide (at_scalar_type a = at_scalar_type b)) "Dtype mismatch in collective").

(** The product is taken in [size_t]. *)
Definition tensor_nbytes (t : at_Tensor) : Z := u64 (u64 (at_numel t) * at_element_size t).

(** ** Logging.hpp *)

Inductive LogLevel := L_TRACE | L_DEBUG | L_INFO | L_WARN | L_ERROR | L_FATAL | L_OFF.

Definition level_int (l : LogLevel) : nat :=
  match l with
  | L_TRACE => 0 | L_DEBUG => 1 | L_INFO => 2 | L_WARN => 3 | L_ERROR => 4 | L_FATAL => 5 | L_OFF => 6
  end.

Definition level_names (l : LogLevel) : list str :=
  match l with
  | L_TRACE => [lit "TRACE"; lit "trace"; lit "0"]
  | L_DEBUG => [lit "DEBUG"; lit "debug"; lit "1"]
  | L_INFO => [lit "INFO"; lit "info"; lit "2"]
  | L_WARN => [lit "WARN"; lit "warn"; lit "3"]
  | L_ERROR => [lit "ERROR"; lit "error"; lit "4"]
  | L_FATAL => [lit "FATAL"; lit "fatal"; lit "5"]
  | L_OFF => [lit "OFF"; lit "off"; lit "6"]
  end.

(** The chain of comparisons, in its order. *)
Fixpoint first_level (s : str) (ls : list LogLevel) : LogLevel :=
  match ls with
  | [] => L_WARN
  | l :: ls' => if existsb (fun n => bool_decide (s = n)) (level_names l) then l else first_level s ls'
  end.

(** [env] is what [getenv("DISTRO_LOG_LEVEL")] returns. *)
Definition log_level_from_env (env : option str) : LogLevel :=
  match env with
  | None => L_WARN
  | Some s => first_level s [L_TRACE; L_DEBUG; L_INFO; L_WARN; L_ERROR; L_FATAL; L_OFF]
  end.

Definition level_str (l : LogLevel) : str :=
  match l with
  | L_TRACE => lit "TRACE" | L_DEBUG => lit "DEBUG" | L_INFO => lit "INFO " | L_WARN => lit "WARN "
  | L_ERROR => lit "ERROR" | L_FATAL => lit "FATAL" | L_OFF => lit "?????"
  end.

(** Whether [log_impl] writes: it returns when the message is below the
    level. *)
Definition log_writes (level threshold : LogLevel) : bool :=
  Nat.leb (level_int threshold) (level_int level).

(** The threshold of the process, once there is one: the environment is read
    by the first message and by [refresh_log_level]. *)
Definition global_log_level (env : option str) (cur : option LogLevel) : LogLevel * option LogLevel :=
  let l := match cur with Some l => l | None => log_level_from_env env end in (l, Some l).

(** It goes through [global_log_level()], which a first call initialises. *)
Definition refresh_log_level (env : option str) (cur : option LogLevel) : option LogLevel :=
  let '(_, _) := global_log_level env cur in Some (log_level_from_env env).

(** Messages with the environment each of them meets: which are written. *)
Fixpoint log_messages (msgs : list (LogLevel * option str)) (cur : option LogLevel) : list bool :=
  match msgs with
  | [] => []
  | (level, env) :: msgs =>
    let '(threshold, cur) := global_log_level env cur in log_writes level threshold :: log_messages msgs cur
  end.

(** ** Properties *)

Lemma and_then_ok a b : and_then a b = Ok tt <-> a = Ok tt /\ b = Ok tt.
Proof. destruct a as [[]|e]; simpl; naive_solver. Qed.

Lemma check_ok c msg : DISTRO_CHECK_TENSOR c msg = Ok tt <-> c = true.
Proof. unfold DISTRO_CHECK_TENSOR. destruct c; naive_solver. Qed.

(** The argument check of a collective accepts exactly the lists of one
    contiguous, non-empty tensor of a supported type on the CPU or the GPU, and
    refuses every other list with a tensor error. *)
Theorem check_tensor_list_spec ts :
  (check_tensor_list ts = Ok tt <->
    exists t, ts = [t] /\ (at_device t = MPS \/ at_device t = CPU) /\ at_is_contiguous t = true /\
      at_scalar_type t <> kOtherType /\ (0 < at_numel t)%Z) /\
  (check_tensor_list ts <> Ok tt -> exists msg, check_tensor_list ts = Throw (TensorError msg)).
Proof.
  assert (forall t, check_single_tensor t = Ok tt <->
    (at_device t = MPS \/ at_device t = CPU) /\ at_is_contiguous t = true /\
    at_scalar_type t <> kOtherType /\ (0 < at_numel t)%Z) as Hone.
  { intros t. unfold check_single_tensor. rewrite !and_then_ok, !check_ok.
    rewrite orb_true_iff, !bool_decide_eq_true, Z.ltb_lt.
    assert (supported_dtype (at_scalar_type t) = true <-> at_scalar_type t <> kOtherType) as ->
      by (by destruct (at_scalar_type t)). done. }
  split.
  - destruct ts as [|t [|t' ts]]; simpl.
    + split; [done|]. by intros (? & ? & _).
    + rewrite Hone. split; [by exists t|]. intros (t0 & [= <-] & H). done.
    + split; [done|]. by intros (? & ? & _).
  - destruct ts as [|t [|t' ts]]; simpl; [by eexists| |by eexists].
    unfold check_single_tensor, and_then, DISTRO_CHECK_TENSOR. intros H.
    repeat case_match; simplify_eq; eauto; done.
Qed.

(** Every spelling of a level selects that level, everything else (and no
    setting) selects WARN; a threshold lets through exactly the levels from it
    on, and OFF lets nothing through. *)
Theorem log_level_spec :
  (forall l n, n ∈ level_names l -> log_level_from_env (Some n) = l) /\
  (forall s, (forall l, s ∉ level_names l) -> log_level_from_env (Some s) = L_WARN) /\
  (forall l, l <> L_OFF -> log_writes l L_OFF = false) /\
  (forall l t t', level_int t <= level_int t' -> log_writes l t' = true -> log_writes l t = true).
Proof.
  split_and!.
  - intros l n Hn. destruct l; simpl in Hn;
      repeat (apply elem_of_cons in Hn as [->|Hn]; [reflexivity|]); by apply elem_of_nil in Hn.
  - intros s Hs. unfold log_level_from_env.
    assert (forall l, existsb (fun n => bool_decide (s = n)) (level_names l) = false) as Hno.
    { intros l. apply not_true_iff_false. rewrite existsb_exists. intros (n & Hin & Hb).
      apply bool_decide_eq_true in Hb as ->. apply (Hs l). by apply list_elem_of_In. }
    unfold first_level. by rewrite !Hno.
  - by intros [].
  - intros l t t' Ht. unfold log_writes. rewrite !Nat.leb_le. lia.
Qed.

(** The environment is read once: whatever it says later, the messages of a
    process are filtered by what the first of them found, and after a refresh
    by what the refresh found. *)
Theorem log_level_read_once :
  (forall level env msgs, log_messages ((level, env) :: msgs) None =
     (fun m => log_writes m.1 (log_level_from_env env)) <$> ((level, env) :: msgs)) /\
  (forall env cur msgs, log_messages msgs (refresh_log_level env cur) =
     (fun m => log_writes m.1 (log_level_from_env env)) <$> msgs).
Proof.
  assert (forall msgs l, log_messages msgs (Some l) = (fun m => log_writes m.1 l) <$> msgs) as Hset.
  { intros msgs l. induction msgs as [|[level env] msgs IH]; [done|]. cbn. by rewrite IH. }
  split; [intros; cbn; by rewrite Hset|intros; apply Hset].
Qed.
