(* ===== verification/IbvLoader.v ===== *)
(** The loader of the verbs library, src/csrc/transport/rdma/IbvWrapper.cpp:
    [dlopen], the function table, the device probe, and the once-only state
    behind [ibv()].  The dynamic linker and the library are the class [Dl];
    the handles it holds open are what the theorem observes.  [Rdma] uses the
    result as [ibv_load]. *)
From S2P Require Import Prelude.
Open Scope Z_scope.

Class Dl (W : Type) := {
  dl_open : string -> W -> Z * W;                 (* 0: failed *)
  dl_sym : Z -> string -> W -> Z;                 (* 0: no such symbol *)
  dl_close : Z -> W -> W;
  probe_devices : W -> Z * Z * W;                 (* get_device_list: list, count *)
  free_devices : Z -> W -> W;
  dl_handles : W -> list Z;
}.

Class DlLaws (W : Type) `{!Dl W} : Prop := {
  dl_open_handles n w h w' : dl_open n w = (h, w') ->
    dl_handles w' = if h =? 0 then dl_handles w else h :: dl_handles w;
  dl_close_handles h w l : dl_handles w = h :: l -> dl_handles (dl_close h w) = l;
  probe_handles w x w' : probe_devices w = (x, w') -> dl_handles w' = dl_handles w;
  free_handles p w : dl_handles (free_devices p w) = dl_handles w;
}.

(** The entries of [IbvFunctions] in the order in which they are loaded. *)
Definition ibv_symbols : list string :=
  ["ibv_get_device_list"; "ibv_free_device_list"; "ibv_open_device"; "ibv_close_device";
   "ibv_alloc_pd"; "ibv_dealloc_pd"; "ibv_create_cq"; "ibv_destroy_cq"; "ibv_create_qp";
   "ibv_destroy_qp"; "ibv_modify_qp"; "ibv_reg_mr"; "ibv_dereg_mr"; "ibv_post_send";
   "ibv_post_recv"; "ibv_poll_cq"; "ibv_query_port"; "ibv_query_gid"]%string.

Record IbvState := mkIbv {
  ibv_attempted : bool; ibv_available : bool; ibv_lib_handle : Z; ibv_fns : list Z }.

Definition ibv_initial : IbvState := mkIbv false false 0 (replicate (length ibv_symbols) 0).

Section Loader.
Context {W : Type} `{!Dl W}.

(** The chain [ok = ok && load_sym(...)]: from the first missing symbol on
    nothing is stored. *)
Fixpoint load_syms (h : Z) (names : list string) (fns : list Z) (w : W) : bool * list Z :=
  match names, fns with
  | n :: names', _ :: fns' =>
      let p := dl_sym h n w in
      if p =? 0 then (false, p :: fns')
      else let '(ok, rest) := load_syms h names' fns' w in (ok, p :: rest)
  | _, _ => (true, fns)
  end.

Definition try_load (st : IbvState) (w : W) : bool * IbvState * W :=
  let '(h, w) := dl_open "librdma.dylib" w in
  if h =? 0 then (false, mkIbv (ibv_attempted st) (ibv_available st) 0 (ibv_fns st), w) else
  let '(ok, fns) := load_syms h ibv_symbols (ibv_fns st) w in
  let closed := mkIbv (ibv_attempted st) (ibv_available st) 0 fns in
  if negb ok then (false, closed, dl_close h w) else
  let '(list, count, w) := probe_devices w in
  if (list =? 0) || (count =? 0) then
    (false, closed, dl_close h (if list =? 0 then w else free_devices list w))
  else (true, mkIbv (ibv_attempted st) (ibv_available st) h fns, free_devices list w).

(** [ibv()]: the table, or null. *)
Definition ibv (st : IbvState) (w : W) : option (list Z) * IbvState * W :=
  let '(st, w) :=
    if ibv_attempted st then (st, w)
    else
      let '(ok, st', w') := try_load (mkIbv true (ibv_available st) (ibv_lib_handle st) (ibv_fns st)) w in
      (mkIbv (ibv_attempted st') ok (ibv_lib_handle st') (ibv_fns st'), w') in
  (if ibv_available st then Some (ibv_fns st) else None, st, w).

Definition ibv_is_available (st : IbvState) (w : W) : bool * IbvState * W :=
  let '(r, st, w) := ibv st w in (bool_decide (r <> None), st, w).

Lemma load_syms_ok h names fns w ok fns' :
  load_syms h names fns w = (ok, fns') -> length fns = length names ->
  length fns' = length names /\ (ok = true -> Forall (fun p => p <> 0) fns').
Proof.
  revert fns ok fns'; induction names as [|n names IH]; intros [|f fns] ok fns' E Hl; simplify_eq/=.
  - by repeat constructor.
  - destruct (Z.eqb_spec (dl_sym h n w) 0) as [H0|H0].
    + injection E as <- <-. simpl. split; [congruence|done].
    + destruct (load_syms h names fns w) as [ok' rest] eqn:E'. injection E as <- <-.
      destruct (IH fns ok' rest E' ltac:(lia)) as [Hl' Hok]. simpl. split; [congruence|].
      intros Htrue. constructor; auto.
Qed.

Context `{!DlLaws W}.

Lemma try_load_spec st w ok st' w' :
  length (ibv_fns st) = length ibv_symbols -> try_load st w = (ok, st', w') ->
  ibv_attempted st' = ibv_attempted st /\
  if ok : bool
  then Forall (fun p => p <> 0) (ibv_fns st') /\ length (ibv_fns st') = length ibv_symbols /\
       ibv_lib_handle st' <> 0 /\ dl_handles w' = ibv_lib_handle st' :: dl_handles w
  else ibv_lib_handle st' = 0 /\ dl_handles w' = dl_handles w.
Proof.
  intros Hlen. unfold try_load. destruct (dl_open "librdma.dylib" w) as [h w1] eqn:Eo.
  pose proof (dl_open_handles _ _ _ _ Eo) as Hh. destruct (Z.eqb_spec h 0) as [->|Hh0].
  { intros [= <- <- <-]. done. }
  destruct (load_syms h ibv_symbols (ibv_fns st) w1) as [ok1 fns] eqn:Es.
  destruct (load_syms_ok _ _ _ _ _ _ Es Hlen) as [Hl Hnz].
  destruct ok1; cbn [negb]; [|intros [= <- <- <-]; simpl; split_and!; try done; by apply dl_close_handles].
  destruct (probe_devices w1) as [[lst cnt] w2] eqn:Ep. pose proof (probe_handles _ _ _ Ep) as Hp.
  destruct ((lst =? 0) || (cnt =? 0)).
  - intros [= <- <- <-]. simpl. split_and!; try done. apply dl_close_handles.
    destruct (lst =? 0); rewrite ?free_handles; congruence.
  - intros [= <- <- <-]. simpl. rewrite free_handles. split_and!; try done; [by apply Hnz|congruence].
Qed.

(** [ibv()] decides once: the first call loads the library or not, every later
    call, whatever has happened to the system in between, returns the same
    table and touches nothing.  A table that is returned is complete (no null
    entry), with the library open exactly once; when null is returned, no
    handle is left open. *)
Theorem ibv_loads_once w :
  let '(r, st, w1) := ibv ibv_initial w in
  (forall w', ibv st w' = (r, st, w')) /\
  match r with
  | Some fns => Forall (fun p => p <> 0) fns /\ length fns = length ibv_symbols /\
      exists h, h <> 0 /\ dl_handles w1 = h :: dl_handles w
  | None => dl_handles w1 = dl_handles w
  end.
Proof.
  unfold ibv at 1. cbn [ibv_attempted ibv_initial].
  destruct (try_load _ w) as [[ok st] w1] eqn:E.
  edestruct (fun Hl => try_load_spec _ _ _ _ _ Hl E) as [Ha Hs]; [reflexivity|]. cbn in Ha.
  cbn [ibv_available]. split.
  - intros w'. unfold ibv. cbn [ibv_attempted ibv_available ibv_fns]. by rewrite Ha.
  - destruct ok; [|by destruct Hs]. destruct Hs as (H1 & H2 & H3 & H4). split_and!; [done..|eauto].
Qed.
End Loader.

(** ** A linker: one library whose symbols are all there *)

Record SimDl := mkSimDl { sd_open : list Z; sd_devices : Z }.

#[local] Instance sim_dl : Dl SimDl := {|
  dl_open _ w := (7, mkSimDl (7 :: sd_open w) (sd_devices w));
  dl_sym h n w := 100;
  dl_close h w := mkSimDl (tail (sd_open w)) (sd_devices w);
  probe_devices w := (5, sd_devices w, w);
  free_devices _ w := w;
  dl_handles := sd_open;
|}.

#[local] Instance sim_dl_laws : DlLaws SimDl.
Proof.
  split; simpl.
  - intros n w h w' [= <- <-]. done.
  - intros h w l E. by rewrite E.
  - intros w x w' [= _ <-]. done.
  - done.
Qed.

Lemma ibv_loads_once_witness :
  let '(r, st, w1) := ibv ibv_initial (mkSimDl [] 0) in
  r = None /\ dl_handles w1 = [] /\ ibv st w1 = (None, st, w1).
Proof.
  pose proof (ibv_loads_once (mkSimDl [] 0)) as H.
  destruct (ibv ibv_initial (mkSimDl [] 0)) as [[r st] w1] eqn:E.
  assert (r = None) as -> by (vm_compute in E; injection E; congruence).
  destruct H as [H1 H2]. split; [reflexivity|]. split; [exact H2|apply H1].
Defined.
