(* ===== verification/Addr.v ===== *)
(** * Global addresses and memory regions ([csrc/dmem/GlobalAddress.hpp])

    The 14-byte wire format of a [GlobalAddress], the 64-bit hash key that
    the catalog and the page cache use, and the descriptors of a registered
    region and of a resolved address. *)
From S2P Require Import Prelude.
Open Scope Z_scope.

Record GlobalAddress := mkGA {
  ga_node_id : Z;    (* uint16_t *)
  ga_region_id : Z;  (* uint32_t *)
  ga_offset : Z      (* uint64_t *)
}.

#[export] Instance GlobalAddress_eq_dec : EqDecision GlobalAddress.
Proof. solve_decision. Defined.

(** The fields are in the range of their C++ types. *)
Definition wf_ga (a : GlobalAddress) : Prop :=
  in_width 16 (ga_node_id a) /\ in_width 32 (ga_region_id a) /\ in_width 64 (ga_offset a).

Definition GA_WIRE_SIZE : nat := 2 + 4 + 8.

(** [memcpy] of the three fields into [buf], in program order. *)
Definition ga_serialize (a : GlobalAddress) (buf : list Z) : list Z :=
  let buf := list_inserts 0 (le_bytes 2 (ga_node_id a)) buf in
  let buf := list_inserts 2 (le_bytes 4 (ga_region_id a)) buf in
  list_inserts 6 (le_bytes 8 (ga_offset a)) buf.

Definition ga_deserialize (buf : list Z) : GlobalAddress :=
  mkGA (le_val (slice 0 2 buf)) (le_val (slice 2 4 buf)) (le_val (slice 6 8 buf)).

(** [GlobalAddress::pack]: node id and region id, the offset left out. *)
Definition ga_pack (a : GlobalAddress) : Z :=
  Z.lor (u64 (Z.shiftl (ga_node_id a) 48)) (u64 (Z.shiftl (ga_region_id a) 16)).

(** [operator==] and [operator!=]. *)
Definition ga_eqb (a b : GlobalAddress) : bool :=
  (ga_node_id a =? ga_node_id b) && (ga_region_id a =? ga_region_id b)
  && (ga_offset a =? ga_offset b).
Definition ga_neqb (a b : GlobalAddress) : bool := negb (ga_eqb a b).

(** [MemoryRegion::Flags]. *)
Definition READABLE : Z := 0x01.
Definition WRITABLE : Z := 0x02.
Definition SHARED_FLAG : Z := 0x04.
Definition PRIVATE : Z := 0x08.

Record MemoryRegion := mkRegion {
  rg_gaddr : GlobalAddress;
  rg_local_addr : Z;  (* uint64_t *)
  rg_length : Z;      (* uint64_t *)
  rg_rkey : Z;        (* uint32_t *)
  rg_lkey : Z;        (* uint32_t *)
  rg_flags : Z        (* uint8_t *)
}.

Definition is_remote_readable (r : MemoryRegion) : bool :=
  negb (Z.land (rg_flags r) READABLE =? 0).
Definition is_remote_writable (r : MemoryRegion) : bool :=
  negb (Z.land (rg_flags r) WRITABLE =? 0).

(** [MemoryRegion{}]: every field zero. *)
Definition zero_region : MemoryRegion := mkRegion (mkGA 0 0 0) 0 0 0 0 0.

Record AddrResolution := mkRes {
  ar_is_local : bool;
  ar_local_ptr : Z;     (* void*, 0 = nullptr *)
  ar_remote_addr : Z;
  ar_remote_rkey : Z;
  ar_local_lkey : Z;
  ar_length : Z
}.

(** [AddrResolution{}]. *)
Definition zero_resolution : AddrResolution := mkRes false 0 0 0 0 0.

(** ** Lemmas *)

Lemma length_ga_serialize a buf : length (ga_serialize a buf) = length buf.
Proof. unfold ga_serialize. by rewrite !length_inserts. Qed.

Lemma ga_serialize_fields a buf :
  (GA_WIRE_SIZE <= length buf)%nat ->
  slice 0 2 (ga_serialize a buf) = le_bytes 2 (ga_node_id a) /\
  slice 2 4 (ga_serialize a buf) = le_bytes 4 (ga_region_id a) /\
  slice 6 8 (ga_serialize a buf) = le_bytes 8 (ga_offset a).
Proof.
  intros H. unfold GA_WIRE_SIZE in H. unfold ga_serialize.
  repeat split;
    skip_fields;
    (eapply eq_trans; [|apply slice_inserts_same];
      [by rewrite length_le_bytes | rewrite ?length_inserts, length_le_bytes; lia]).
Qed.

Lemma ga_pack_value a :
  wf_ga a -> ga_pack a = ga_node_id a * 2 ^ 48 + ga_region_id a * 2 ^ 16.
Proof.
  intros (Hn & Hr & _). unfold in_width in *. unfold ga_pack.
  rewrite !u64_small by (rewrite Z.shiftl_mul_pow2 by lia; lia).
  rewrite lor_field by (rewrite ?Z.shiftl_mul_pow2 by lia; lia).
  by rewrite Z.shiftl_mul_pow2 by lia.
Qed.

Lemma ga_eqb_spec a b : reflect (a = b) (ga_eqb a b).
Proof.
  unfold ga_eqb. destruct a, b; simpl.
  repeat case_bool; simpl; constructor; congruence.
Qed.

(** ** Properties *)

(** A [GlobalAddress] written with [serialize] into any buffer of at least
    [WIRE_SIZE] bytes is read back unchanged by [deserialize], and the bytes
    of the buffer after the 14 written ones are left as they were. *)
Theorem ga_roundtrip a buf :
  wf_ga a -> (GA_WIRE_SIZE <= length buf)%nat ->
  ga_deserialize (ga_serialize a buf) = a /\
  drop GA_WIRE_SIZE (ga_serialize a buf) = drop GA_WIRE_SIZE buf.
Proof.
  intros (Hn & Hr & Ho) Hl. split.
  - unfold ga_deserialize. destruct (ga_serialize_fields a buf Hl) as (-> & -> & ->).
    unfold in_width in *. rewrite !le_val_bytes_small by done. by destruct a.
  - unfold GA_WIRE_SIZE in *. apply list_eq. intros i. rewrite !lookup_drop.
    unfold ga_serialize.
    by rewrite !list_lookup_inserts_ge by (rewrite length_le_bytes; lia).
Qed.

Lemma ga_roundtrip_witness :
  let a := mkGA 7 0x01020304 0x1122334455667788 in
  let buf := replicate 16 0xAA in
  ga_deserialize (ga_serialize a buf) = a /\
  drop GA_WIRE_SIZE (ga_serialize a buf) = drop GA_WIRE_SIZE buf.
Proof.
  apply ga_roundtrip; [|vm_compute; lia].
  unfold wf_ga, in_width; simpl; lia.
Defined.

(** [pack] is injective on the (node, region) pair and blind to the offset:
    two addresses have the same 64-bit key exactly when they are in the same
    region of the same node.  It is a key of regions, never of pages. *)
Theorem ga_pack_key a b :
  wf_ga a -> wf_ga b ->
  ga_pack a = ga_pack b <->
  ga_node_id a = ga_node_id b /\ ga_region_id a = ga_region_id b.
Proof.
  intros Ha Hb. rewrite !ga_pack_value by done.
  destruct Ha as (? & ? & _), Hb as (? & ? & _). unfold in_width in *.
  split; [intros Heq|intros [-> ->]; done].
  split; nia.
Qed.

Lemma ga_pack_key_witness :
  ga_pack (mkGA 3 5 0) = ga_pack (mkGA 3 5 65536) <->
  ga_node_id (mkGA 3 5 0) = ga_node_id (mkGA 3 5 65536) /\
  ga_region_id (mkGA 3 5 0) = ga_region_id (mkGA 3 5 65536).
Proof. apply ga_pack_key; unfold wf_ga, in_width; simpl; lia. Defined.
