(* ===== verification/Catalog.v ===== *)
(** * The memory catalog ([csrc/dmem/MemoryCatalog.hpp], [MemoryCatalog.cpp])

    The directory of registered regions: entries of this node under node id 0
    of the key, cached entries of the peers under their own id.  The hash map
    is a [gmap] on the 64-bit key; where the result of a loop over the map
    depends on the iteration order of [std::unordered_map], the order is an
    argument and the theorems hold for every order. *)
From S2P Require Import Prelude Addr.
Open Scope Z_scope.

Record RegionDirectoryEntry := mkEntry {
  e_local_addr : Z;  (* uint64_t *)
  e_length : Z;      (* uint64_t *)
  e_rkey : Z;        (* uint32_t *)
  e_flags : Z;       (* uint32_t *)
  e_epoch : Z        (* uint64_t *)
}.

#[export] Instance RegionDirectoryEntry_eq_dec : EqDecision RegionDirectoryEntry.
Proof. solve_decision. Defined.

Definition wf_entry (e : RegionDirectoryEntry) : Prop :=
  in_width 64 (e_local_addr e) /\ in_width 64 (e_length e) /\
  in_width 32 (e_rkey e) /\ in_width 32 (e_flags e) /\ in_width 64 (e_epoch e).

Definition zero_entry : RegionDirectoryEntry := mkEntry 0 0 0 0 0.

Definition ENTRY_WIRE_SIZE : nat := 8 + 8 + 4 + 4 + 8.

(** [RegionDirectoryEntry::serialize] at [buf + off]. *)
Definition entry_serialize (e : RegionDirectoryEntry) (off : nat) (buf : list Z) : list Z :=
  let buf := list_inserts (off + 0) (le_bytes 8 (e_local_addr e)) buf in
  let buf := list_inserts (off + 8) (le_bytes 8 (e_length e)) buf in
  let buf := list_inserts (off + 16) (le_bytes 4 (e_rkey e)) buf in
  let buf := list_inserts (off + 20) (le_bytes 4 (e_flags e)) buf in
  list_inserts (off + 24) (le_bytes 8 (e_epoch e)) buf.

(** [RegionDirectoryEntry::deserialize] at [buf + off]. *)
Definition entry_deserialize (off : nat) (buf : list Z) : RegionDirectoryEntry :=
  mkEntry (le_val (slice (off + 0) 8 buf)) (le_val (slice (off + 8) 8 buf))
          (le_val (slice (off + 16) 4 buf)) (le_val (slice (off + 20) 4 buf))
          (le_val (slice (off + 24) 8 buf)).

Definition MAX_REGIONS_PER_NODE : Z := 256.
Definition CATALOG_BUF_SIZE : Z := MAX_REGIONS_PER_NODE * Z.of_nat ENTRY_WIRE_SIZE.
Definition CATALOG_REGION_ID : Z := 0.

Definition catalog_key (node_id region_id : Z) : Z :=
  Z.lor (u64 (Z.shiftl node_id 48)) (u64 (Z.shiftl region_id 16)).

Record MemoryCatalog := mkCatalog {
  cat_entries : gmap Z RegionDirectoryEntry;
  cat_version : Z    (* std::atomic<uint64_t> *)
}.

Definition empty_catalog : MemoryCatalog := mkCatalog ∅ 0.

Definition bump (v : Z) : Z := u64 (v + 1).

(** Entries of this node are keyed with node id 0. *)
Definition cat_upsert (region_id : Z) (entry : RegionDirectoryEntry) (c : MemoryCatalog) : MemoryCatalog :=
  mkCatalog (<[catalog_key 0 region_id := entry]> (cat_entries c)) (bump (cat_version c)).

Definition cat_remove (region_id : Z) (c : MemoryCatalog) : MemoryCatalog :=
  mkCatalog (delete (catalog_key 0 region_id) (cat_entries c)) (bump (cat_version c)).

Definition NODE_MASK : Z := 0xFFFFFFFFFFFF0000.

(** Erase every entry whose masked key is the prefix of the node. *)
Definition cat_remove_node (node_id : Z) (c : MemoryCatalog) : MemoryCatalog :=
  let prefix := Z.land (catalog_key node_id 0) NODE_MASK in
  mkCatalog (filter (fun kv => Z.land kv.1 NODE_MASK <> prefix) (cat_entries c))
            (bump (cat_version c)).

Definition cat_lookup (node_id region_id : Z) (c : MemoryCatalog) : option RegionDirectoryEntry :=
  cat_entries c !! catalog_key node_id region_id.

(** The loop of [deserialize_from]: entry [i] of the buffer is region [i] of
    [source_node]. *)
Fixpoint deserialize_loop (n : nat) (i : nat) (buf : list Z) (source_node : Z)
    (m : gmap Z RegionDirectoryEntry) : gmap Z RegionDirectoryEntry :=
  match n with
  | O => m
  | S n' =>
      let entry := entry_deserialize (i * ENTRY_WIRE_SIZE) buf in
      let key := catalog_key source_node (u32 (Z.of_nat i)) in
      deserialize_loop n' (S i) buf source_node (<[key := entry]> m)
  end.

Definition cat_deserialize_from (buf : list Z) (len : nat) (source_node : Z)
    (c : MemoryCatalog) : MemoryCatalog :=
  let count := (len / ENTRY_WIRE_SIZE)%nat in
  mkCatalog (deserialize_loop count 0 buf source_node (cat_entries c)) (bump (cat_version c)).

(** One pass of [serialize_into] over the entries in iteration order [it]:
    skip other nodes and out-of-table regions, stop at the first entry that
    does not fit. *)
Fixpoint serialize_loop (it : list (Z * RegionDirectoryEntry)) (buf : list Z)
    (max_len written : nat) : list Z * nat :=
  match it with
  | [] => (buf, written)
  | (key, entry) :: it' =>
      let node := u16 (Z.shiftr key 48) in
      if negb (node =? 0) then serialize_loop it' buf max_len written else
      let region_id := u32 (Z.land (Z.shiftr key 16) 0xFFFFFFFF) in
      if MAX_REGIONS_PER_NODE <=? region_id then serialize_loop it' buf max_len written else
      let offset := (Z.to_nat region_id * ENTRY_WIRE_SIZE)%nat in
      if (max_len <? offset + ENTRY_WIRE_SIZE)%nat then (buf, written) else
      serialize_loop it' (entry_serialize entry offset buf) max_len
        (Nat.max written (offset + ENTRY_WIRE_SIZE))
  end.

(** [it] is the iteration order of the hash map. *)
Definition cat_serialize_into (it : list (Z * RegionDirectoryEntry)) (buf : list Z)
    (max_len : nat) : list Z * nat :=
  serialize_loop it buf max_len 0.

Definition cat_local_entry_count (c : MemoryCatalog) : nat :=
  length (base.filter (fun kv => u16 (Z.shiftr kv.1 48) = 0) (map_to_list (cat_entries c))).

(** ** Keys *)

Definition wf_key (node region : Z) : Prop := in_width 16 node /\ in_width 32 region.

Lemma catalog_key_value node region :
  wf_key node region -> catalog_key node region = node * 2 ^ 48 + region * 2 ^ 16.
Proof.
  intros [Hn Hr]. unfold in_width in *.
  apply (ga_pack_value (mkGA node region 0)).
  unfold wf_ga, in_width; simpl; lia.
Qed.

Lemma catalog_key_inj n1 r1 n2 r2 :
  wf_key n1 r1 -> wf_key n2 r2 ->
  catalog_key n1 r1 = catalog_key n2 r2 -> n1 = n2 /\ r1 = r2.
Proof.
  intros H1 H2. rewrite !catalog_key_value by done.
  destruct H1, H2; unfold in_width in *. intros. split; nia.
Qed.

Lemma catalog_key_ne n1 r1 n2 r2 :
  wf_key n1 r1 -> wf_key n2 r2 -> n1 <> n2 \/ r1 <> r2 ->
  catalog_key n1 r1 <> catalog_key n2 r2.
Proof. intros H1 H2 Hne Heq. destruct (catalog_key_inj n1 r1 n2 r2); naive_solver. Qed.

(** What [serialize_into] reads back from a key. *)
Lemma catalog_key_node node region :
  wf_key node region -> u16 (Z.shiftr (catalog_key node region) 48) = node.
Proof.
  intros H. rewrite catalog_key_value by done. destruct H as [? ?]; unfold in_width in *.
  rewrite Z.shiftr_div_pow2 by lia. rewrite u16_small.
  - rewrite Z.div_add_l by lia. rewrite Z.div_small by lia. lia.
  - rewrite Z.div_add_l by lia. rewrite Z.div_small by lia. lia.
Qed.

Lemma catalog_key_region node region :
  wf_key node region ->
  u32 (Z.land (Z.shiftr (catalog_key node region) 16) 0xFFFFFFFF) = region.
Proof.
  intros H. rewrite catalog_key_value by done. destruct H as [? ?]; unfold in_width in *.
  change 0xFFFFFFFF with (Z.ones 32). rewrite Z.land_ones by lia.
  rewrite Z.shiftr_div_pow2 by lia.
  replace (node * 2 ^ 48 + region * 2 ^ 16) with ((node * 2 ^ 32 + region) * 2 ^ 16) by lia.
  rewrite Z.div_mul by lia. rewrite Z.add_comm, Z.mod_add by lia.
  rewrite Z.mod_small by lia. apply u32_small; lia.
Qed.

Lemma catalog_key_masked node region :
  wf_key node region -> Z.land (catalog_key node region) NODE_MASK = catalog_key node region.
Proof.
  intros H. rewrite catalog_key_value by done. destruct H as [? ?]; unfold in_width in *.
  change NODE_MASK with (2 ^ 64 - 2 ^ 16). rewrite land_ones_compl by lia.
  replace (node * 2 ^ 48 + region * 2 ^ 16) with ((node * 2 ^ 32 + region) * 2 ^ 16) by lia.
  rewrite Z.mod_mul by lia. lia.
Qed.

(** ** Entries on the wire *)

Lemma length_entry_serialize e off buf : length (entry_serialize e off buf) = length buf.
Proof. unfold entry_serialize. by rewrite !length_inserts. Qed.

Lemma entry_roundtrip e off buf :
  wf_entry e -> (off + ENTRY_WIRE_SIZE <= length buf)%nat ->
  entry_deserialize off (entry_serialize e off buf) = e.
Proof.
  intros (Ha & Hl & Hr & Hf & He) Hb. unfold ENTRY_WIRE_SIZE in Hb. unfold in_width in *.
  unfold entry_deserialize, entry_serialize.
  destruct e as [a l r f ep].
  cbn [e_local_addr e_length e_rkey e_flags e_epoch] in *. f_equal;
    skip_fields; apply le_val_written; rewrite ?length_inserts; (done || lia).
Qed.

(** A write of one slot leaves every disjoint slot alone. *)
Lemma entry_serialize_frame e off off' buf :
  (off + ENTRY_WIRE_SIZE <= off' \/ off' + ENTRY_WIRE_SIZE <= off)%nat ->
  (off' + ENTRY_WIRE_SIZE <= length buf)%nat ->
  entry_deserialize off' (entry_serialize e off buf) = entry_deserialize off' buf.
Proof.
  intros Hd Hb. unfold ENTRY_WIRE_SIZE in *. unfold entry_deserialize, entry_serialize.
  f_equal; f_equal; skip_fields; done.
Qed.

Lemma entry_deserialize_zero off n : entry_deserialize off (replicate n 0) = zero_entry.
Proof.
  assert (forall o k, le_val (slice o k (replicate n 0)) = 0) as Hz.
  { intros o k. unfold slice. rewrite drop_replicate, take_replicate.
    induction (k `min` (n - o))%nat as [|m IH]; simpl; lia. }
  unfold entry_deserialize. by rewrite !Hz.
Qed.

(** ** The loops *)

Lemma deserialize_loop_lookup n i buf src m k :
  in_width 16 src -> Z.of_nat (i + n) <= 2 ^ 32 ->
  deserialize_loop n i buf src m !! k =
  match list_find (fun j => catalog_key src (u32 (Z.of_nat j)) = k) (seq i n) with
  | Some (_, j) => Some (entry_deserialize (j * ENTRY_WIRE_SIZE) buf)
  | None => m !! k
  end.
Proof.
  intros Hsrc. revert i m. induction n as [|n IH]; intros i m Hn; [done|].
  cbn [deserialize_loop seq]. rewrite IH by lia. simpl.
  destruct (list_find _ (seq (S i) n)) as [[x j]|] eqn:E.
  - case_decide as Hk; [|done]. exfalso.
    apply list_find_Some in E as (Hj & Heq & _). apply lookup_seq in Hj as [-> Hx].
    rewrite <- Hk, !u32_small in Heq by lia.
    apply catalog_key_inj in Heq; [lia|..]; split; unfold in_width in *; lia.
  - case_decide as Hk; simpl.
    + subst k. by rewrite lookup_insert_eq.
    + by rewrite lookup_insert_ne.
Qed.

Lemma deserialize_loop_region n buf src m r :
  in_width 16 src -> Z.of_nat n <= 2 ^ 32 -> (r < n)%nat ->
  deserialize_loop n 0 buf src m !! catalog_key src (Z.of_nat r) =
  Some (entry_deserialize (r * ENTRY_WIRE_SIZE) buf).
Proof.
  intros Hsrc Hn Hr. rewrite deserialize_loop_lookup by (done || lia).
  destruct (list_find _ (seq 0 n)) as [[x j]|] eqn:E.
  - apply list_find_Some in E as (Hj & Heq & _). apply lookup_seq in Hj as [-> Hx].
    rewrite u32_small in Heq by lia.
    apply catalog_key_inj in Heq as [_ ?]; [|split; unfold in_width in *; lia..].
    do 2 f_equal. lia.
  - exfalso. apply list_find_None in E. rewrite Forall_forall in E.
    apply (E r); [apply elem_of_seq; lia|]. rewrite u32_small by lia. done.
Qed.

(** The iteration [it] lists local entries of the table and foreign entries,
    each key once. *)
Definition wf_iteration (it : list (Z * RegionDirectoryEntry)) : Prop :=
  NoDup it.*1 /\
  Forall (fun kv => exists n r, kv.1 = catalog_key n r /\ wf_key n r /\ wf_entry kv.2) it.

Lemma wf_iteration_cons kv it :
  wf_iteration (kv :: it) ->
  wf_iteration it /\ kv.1 ∉ it.*1 /\
  exists n r, kv.1 = catalog_key n r /\ wf_key n r /\ wf_entry kv.2.
Proof.
  intros [Hnd Hf]. rewrite fmap_cons in Hnd. apply NoDup_cons in Hnd as [? ?].
  apply Forall_cons in Hf as [? ?]. by split_and!.
Qed.

(** After the loop, slot [r] holds the local entry of region [r] if the
    iteration has one, and what the buffer held before otherwise. *)
Lemma serialize_loop_slot it buf max_len written r :
  wf_iteration it ->
  CATALOG_BUF_SIZE <= Z.of_nat max_len -> CATALOG_BUF_SIZE <= Z.of_nat (length buf) ->
  0 <= r < MAX_REGIONS_PER_NODE ->
  entry_deserialize (Z.to_nat r * ENTRY_WIRE_SIZE)
    (serialize_loop it buf max_len written).1 =
  match ((list_to_map it : gmap Z RegionDirectoryEntry) !! catalog_key 0 r) with
  | Some e => e
  | None => entry_deserialize (Z.to_nat r * ENTRY_WIRE_SIZE) buf
  end.
Proof.
  change CATALOG_BUF_SIZE with 8192. unfold MAX_REGIONS_PER_NODE.
  intros Hwf Hmax Hbuf Hr. revert buf written Hbuf.
  induction it as [|[k e] it IH]; intros buf written Hbuf; [done|].
  apply wf_iteration_cons in Hwf as (Hwf & Hnin & n & r' & Hk & Hkey & He).
  cbn [fst snd] in *. subst k. cbn [serialize_loop list_to_map].
  rewrite catalog_key_node, catalog_key_region by done.
  assert (wf_key 0 r) as Hr0 by (split; unfold in_width; lia).
  destruct (Z.eqb_spec n 0) as [->|Hn]; cbn [negb].
  2: { rewrite IH by done. rewrite list_to_map_cons, lookup_insert_ne; [done|].
       apply catalog_key_ne; auto. }
  destruct (Z.leb_spec MAX_REGIONS_PER_NODE r') as [Hr'|Hr']; unfold MAX_REGIONS_PER_NODE in *.
  { rewrite IH by done. rewrite list_to_map_cons, lookup_insert_ne; [done|].
    apply catalog_key_ne; auto. right; lia. }
  change ENTRY_WIRE_SIZE with 32%nat in *. destruct Hkey as [_ Hrr]. unfold in_width in Hrr.
  destruct (Nat.ltb_spec max_len (Z.to_nat r' * 32 + 32)%nat); [lia|].
  rewrite IH by (rewrite ?length_entry_serialize; done).
  rewrite list_to_map_cons. destruct (decide (r' = r)) as [->|Hne].
  - rewrite lookup_insert_eq. rewrite not_elem_of_list_to_map_1 by done.
    apply (entry_roundtrip e (Z.to_nat r * 32)); [done|].
    change ENTRY_WIRE_SIZE with 32%nat. lia.
  - rewrite lookup_insert_ne by (apply catalog_key_ne; auto; unfold wf_key, in_width; lia).
    destruct (_ !! _); [done|].
    apply entry_serialize_frame; change ENTRY_WIRE_SIZE with 32%nat; lia.
Qed.

(** Every key of the catalog packs a node and a region id, every entry is in
    range: what the operations establish. *)
Definition wf_catalog (c : MemoryCatalog) : Prop :=
  map_Forall (fun k e => exists n r, k = catalog_key n r /\ wf_key n r /\ wf_entry e)
    (cat_entries c).

Lemma wf_catalog_iteration c it :
  wf_catalog c -> it ≡ₚ map_to_list (cat_entries c) ->
  wf_iteration it /\ (list_to_map it : gmap Z RegionDirectoryEntry) = cat_entries c.
Proof.
  intros Hwf Hp.
  assert (NoDup it.*1) as Hnd by (rewrite Hp; apply NoDup_fst_map_to_list).
  split; [split; [done|]|].
  - apply Forall_forall. intros [k e] Hin. rewrite Hp in Hin.
    apply elem_of_map_to_list in Hin. by apply Hwf.
  - rewrite <- (list_to_map_to_list (cat_entries c)). by apply list_to_map_proper.
Qed.

Lemma wf_catalog_upsert rid e c :
  in_width 32 rid -> wf_entry e -> wf_catalog c -> wf_catalog (cat_upsert rid e c).
Proof.
  intros. apply map_Forall_insert_2; [|done]. exists 0, rid.
  split_and!; [done| |done]. split; [unfold in_width; lia|done].
Qed.

Lemma wf_catalog_remove rid c : wf_catalog c -> wf_catalog (cat_remove rid c).
Proof. intros. by apply map_Forall_delete. Qed.

Lemma wf_catalog_remove_node n c : wf_catalog c -> wf_catalog (cat_remove_node n c).
Proof. intros H k e Hk. apply map_lookup_filter_Some in Hk as [Hk _]. by apply H. Qed.

(** ** Properties *)

(** C29: The catalog survives the trip over the wire: a node's local entries,
    serialized in any iteration order of the hash map into its zeroed
    catalog buffer and deserialized at a peer as node [src], are found by the
    peer's lookup under [src], for every region of the table; a region id with
    no local entry is found as the all-zero entry (never as absent), and the
    peer's entries of every other node are untouched. *)
Theorem catalog_wire_roundtrip c it d src r :
  wf_catalog c -> it ≡ₚ map_to_list (cat_entries c) -> in_width 16 src ->
  0 <= r < MAX_REGIONS_PER_NODE ->
  let n := Z.to_nat CATALOG_BUF_SIZE in
  let '(buf, _) := cat_serialize_into it (replicate n 0) n in
  let d' := cat_deserialize_from buf n src d in
  cat_lookup src r d' = Some (default zero_entry (cat_lookup 0 r c)) /\
  (forall src' r', wf_key src' r' -> src' <> src ->
     cat_lookup src' r' d' = cat_lookup src' r' d).
Proof.
  intros Hwf Hp Hsrc Hr n. destruct (cat_serialize_into _ _ _) as [buf w] eqn:E.
  destruct (wf_catalog_iteration c it Hwf Hp) as [Hit Hmap].
  assert (n / ENTRY_WIRE_SIZE = 256)%nat as Hn.
  { change n with (Z.to_nat (256 * 32)). rewrite Z2Nat.inj_mul by lia.
    change ENTRY_WIRE_SIZE with 32%nat. change (Z.to_nat 256) with 256%nat.
    change (Z.to_nat 32) with 32%nat. by apply Nat.div_mul. }
  unfold cat_lookup, cat_deserialize_from. rewrite Hn. cbn [cat_entries].
  unfold MAX_REGIONS_PER_NODE in *. split.
  - rewrite <- (Z2Nat.id r) at 1 by lia.
    rewrite deserialize_loop_region by (done || lia).
    f_equal. change buf with (buf, w).1. rewrite <- E. unfold cat_serialize_into.
    rewrite serialize_loop_slot; [|done|..]; rewrite ?length_replicate;
      unfold n, MAX_REGIONS_PER_NODE; try (rewrite Z2Nat.id; [lia|done]); [|lia].
    rewrite Hmap. destruct (cat_entries c !! _); [done|]. apply entry_deserialize_zero.
  - intros src' r' Hk Hne. rewrite deserialize_loop_lookup by (done || lia).
    destruct (list_find _ _) as [[x j]|] eqn:Ef; [|done]. exfalso.
    apply list_find_Some in Ef as (Hj & Heq & _). apply lookup_seq in Hj as [-> Hx].
    symmetry in Heq. revert Heq. apply catalog_key_ne; [done| |by left].
    split; [done|]. rewrite u32_small; unfold in_width; lia.
Qed.

Lemma catalog_wire_roundtrip_witness :
  let e := mkEntry 4096 65536 17 3 1 in
  let c := cat_upsert 2 e empty_catalog in
  let it := [(catalog_key 0 2, e)] in
  let n := Z.to_nat CATALOG_BUF_SIZE in
  let '(buf, _) := cat_serialize_into it (replicate n 0) n in
  let d' := cat_deserialize_from buf n 5 empty_catalog in
  cat_lookup 5 2 d' = Some (default zero_entry (cat_lookup 0 2 c)) /\
  (forall src' r', wf_key src' r' -> src' <> 5 ->
     cat_lookup src' r' d' = cat_lookup src' r' empty_catalog).
Proof.
  intros e c it. apply (catalog_wire_roundtrip c it empty_catalog 5 2).
  - apply wf_catalog_upsert; [unfold in_width; lia| |apply map_Forall_empty].
    unfold wf_entry, in_width; simpl; lia.
  - unfold c, it, cat_upsert, empty_catalog. cbn [cat_entries].
    by rewrite insert_empty, map_to_list_singleton.
  - unfold in_width; lia.
  - unfold MAX_REGIONS_PER_NODE; lia.
Defined.

(** [remove_node n] erases exactly the entry of region 0 of node [n]: the
    mask keeps the region bits, so every other region of the node that is
    meant to be dropped is still found afterwards. *)
Theorem remove_node_erases_region_zero_only n c n' r' :
  in_width 16 n -> wf_key n' r' ->
  cat_lookup n' r' (cat_remove_node n c) =
  if decide (n' = n /\ r' = 0) then None else cat_lookup n' r' c.
Proof.
  intros Hn Hk. unfold cat_lookup, cat_remove_node. cbn [cat_entries].
  assert (wf_key n 0) as Hn0 by (split; [done|unfold in_width; lia]).
  rewrite map_lookup_filter.
  destruct (cat_entries c !! catalog_key n' r') as [e|] eqn:E; simpl;
    [|by case_decide].
  rewrite !catalog_key_masked by done.
  destruct (decide (n' = n /\ r' = 0)) as [[-> ->]|Hne].
  - by rewrite option_guard_False by (intros H; by apply H).
  - rewrite option_guard_True; [done|]. apply catalog_key_ne; [done..|]. lia.
Qed.

Lemma remove_node_erases_region_zero_only_witness :
  let e := mkEntry 4096 65536 17 3 1 in
  let c := mkCatalog {[ catalog_key 2 1 := e ]} 0 in
  cat_lookup 2 1 (cat_remove_node 2 c) =
  if decide (2 = 2 /\ 1 = 0) then None else cat_lookup 2 1 c.
Proof.
  intros e c. apply (remove_node_erases_region_zero_only 2 c 2 1);
    unfold wf_key, in_width; lia.
Defined.
