(* ===== verification/Rdma.v ===== *)
(** * The RDMA transport ([csrc/transport/rdma])

    [RdmaConnection] (one reliable-connected queue pair per peer),
    [SharedBuffer] (a registered staging buffer) and the verbs they call.
    librdma is loaded at run time and is not part of the repository: its entry
    points ([IbvFunctions]) are the class [Ibv] over an abstract driver state,
    and what the connection relies on (a creation returns a fresh live handle
    or null, a destruction releases it) is the class [IbvLaws].  Handles are
    integers, 0 is [nullptr]. *)
From S2P Require Import Prelude.
Open Scope Z_scope.

(** ** Verbs data ([ibverbs_compat.h]) *)

Definition IBV_ACCESS_LOCAL_WRITE : Z := 1.
Definition IBV_ACCESS_REMOTE_WRITE : Z := 2.
Definition IBV_ACCESS_REMOTE_READ : Z := 4.

Record ibv_mr := mkMr { mr_handle : Z; mr_lkey : Z; mr_rkey : Z }.
Record ibv_sge := mkSge { sge_addr : Z; sge_length : Z; sge_lkey : Z }.

Inductive ibv_qp_state := IBV_QPS_RESET | IBV_QPS_INIT | IBV_QPS_RTR | IBV_QPS_RTS
  | IBV_QPS_SQD | IBV_QPS_SQE | IBV_QPS_ERR.

Inductive ibv_wr_opcode := IBV_WR_RDMA_WRITE | IBV_WR_RDMA_WRITE_WITH_IMM | IBV_WR_SEND
  | IBV_WR_SEND_WITH_IMM | IBV_WR_RDMA_READ.

Definition IBV_SEND_FENCE : Z := 1.
Definition IBV_SEND_SIGNALED : Z := 2.

(** [ibv_send_wr] with the [rdma] arm of its union. *)
Record ibv_send_wr := mkSendWr {
  sw_wr_id : Z;
  sw_sg_list : list ibv_sge;   (* num_sge = its length *)
  sw_opcode : ibv_wr_opcode;
  sw_send_flags : Z;
  sw_imm_data : Z;
  sw_remote_addr : Z;
  sw_rkey : Z
}.
Record ibv_recv_wr := mkRecvWr { rw_wr_id : Z; rw_sg_list : list ibv_sge }.

Inductive ibv_wc_opcode := IBV_WC_SEND | IBV_WC_RDMA_WRITE | IBV_WC_RDMA_READ | IBV_WC_RECV.

Inductive ibv_wc_status := IBV_WC_SUCCESS | IBV_WC_LOC_LEN_ERR | IBV_WC_LOC_QP_OP_ERR | IBV_WC_LOC_PROT_ERR
  | IBV_WC_WR_FLUSH_ERR | IBV_WC_REM_ACCESS_ERR | IBV_WC_GENERAL_ERR.

(** A completion. *)
Record ibv_wc := mkWc { wc_wr_id : Z; wc_status : ibv_wc_status; wc_opcode : ibv_wc_opcode; wc_byte_len : Z }.

(** [wc.status == IBV_WC_SUCCESS]. *)
Definition wc_ok (c : ibv_wc) : bool := match wc_status c with IBV_WC_SUCCESS => true | _ => false end.

Inductive ibv_qp_type := IBV_QPT_RC | IBV_QPT_UC | IBV_QPT_UD.

Inductive ibv_mtu := IBV_MTU_256 | IBV_MTU_512 | IBV_MTU_1024 | IBV_MTU_2048 | IBV_MTU_4096.
Definition mtu_code (m : ibv_mtu) : Z :=
  match m with IBV_MTU_256 => 1 | IBV_MTU_512 => 2 | IBV_MTU_1024 => 3 | IBV_MTU_2048 => 4 | IBV_MTU_4096 => 5 end.

(** The fields of [ibv_qp_attr] that [init] and [activate] set, with the mask
    as the list of groups named in it. *)
Inductive qp_mask := QP_STATE | QP_PKEY_INDEX | QP_PORT | QP_ACCESS_FLAGS | QP_AV | QP_PATH_MTU
  | QP_DEST_QPN | QP_RQ_PSN | QP_MAX_DEST_RD_ATOMIC | QP_MIN_RNR_TIMER | QP_SQ_PSN | QP_TIMEOUT
  | QP_RETRY_CNT | QP_RNR_RETRY | QP_MAX_QP_RD_ATOMIC.

Record ibv_qp_attr := mkQpAttr {
  qa_qp_state : ibv_qp_state;
  qa_port_num : Z; qa_pkey_index : Z; qa_access_flags : Z;
  qa_path_mtu : Z; qa_dest_qp_num : Z; qa_rq_psn : Z;
  qa_max_dest_rd_atomic : Z; qa_min_rnr_timer : Z;
  qa_dlid : Z; qa_is_global : Z; qa_dgid : list Z; qa_hop_limit : Z; qa_ah_port : Z;
  qa_sq_psn : Z; qa_timeout : Z; qa_retry_cnt : Z; qa_rnr_retry : Z; qa_max_rd_atomic : Z
}.

(** [ibv_qp_attr attr{}]: every field zero ([IBV_QPS_RESET] is 0). *)
Definition zero_qp_attr : ibv_qp_attr :=
  mkQpAttr IBV_QPS_RESET 0 0 0 0 0 0 0 0 0 0 [] 0 0 0 0 0 0 0.

Record ibv_qp_init_attr := mkQpInit {
  qi_send_cq : Z; qi_recv_cq : Z; qi_max_send_wr : Z; qi_max_recv_wr : Z;
  qi_max_send_sge : Z; qi_max_recv_sge : Z; qi_max_inline_data : Z; qi_qp_type : ibv_qp_type; qi_sq_sig_all : Z
}.

(** ** The driver *)

Class Ibv (W : Type) := {
  ibv_load : W -> bool * W;                        (* ibv(): non-null? *)
  get_device_list : W -> list Z * W;               (* [] when null or empty *)
  free_device_list : W -> W;
  open_device : Z -> W -> Z * W;
  close_device : Z -> W -> W;
  alloc_pd : Z -> W -> Z * W;
  dealloc_pd : Z -> W -> W;
  create_cq : Z -> Z -> W -> Z * W;
  destroy_cq : Z -> W -> W;
  create_qp : Z -> ibv_qp_init_attr -> W -> Z * W;
  destroy_qp : Z -> W -> W;
  modify_qp : Z -> ibv_qp_attr -> list qp_mask -> W -> Z * W;
  reg_mr : Z -> Z -> Z -> Z -> W -> option ibv_mr * W;   (* pd addr length access *)
  dereg_mr : Z -> W -> W;
  post_send_verb : Z -> ibv_send_wr -> W -> Z * W;       (* return code *)
  post_recv_verb : Z -> ibv_recv_wr -> W -> Z * W;
  poll_cq : Z -> Z -> W -> option (list ibv_wc) * W;     (* None: n < 0 *)
  query_port_lid : Z -> Z -> W -> Z;
  query_gid : Z -> Z -> W -> list Z;
  qp_num : Z -> W -> Z
}.

(** What the destructor theorems rely on: [deregs] is the log of the
    [ibv_dereg_mr] calls, nothing else a destructor calls changes it, and the
    library stays loaded. *)
Class MrLog (W : Type) `{!Ibv W} := {
  deregs : W -> list Z;
  deregs_dereg h w : deregs (dereg_mr h w) = deregs w ++ [h];
  deregs_load w b w' : ibv_load w = (b, w') -> deregs w' = deregs w;
  deregs_cq h w : deregs (destroy_cq h w) = deregs w;
  deregs_pd h w : deregs (dealloc_pd h w) = deregs w;
  deregs_ctx h w : deregs (close_device h w) = deregs w;
  loaded_dereg h w : (ibv_load (dereg_mr h w)).1 = (ibv_load w).1;
  loaded_load w : (ibv_load (ibv_load w).2).1 = (ibv_load w).1;
  reg_mr_handle pd a n acc w mr w' : reg_mr pd a n acc w = (Some mr, w') -> mr_handle mr <> 0
}.

Inductive handle_kind := KCtx | KPd | KCq | KQp.

(** What a connection relies on: the live handles of the driver. *)
Class IbvLaws (W : Type) `{!Ibv W} := {
  live : W -> list (handle_kind * Z);
  live_load w b w' : ibv_load w = (b, w') -> live w' = live w;
  live_open d w h w' : open_device d w = (h, w') ->
    live w' = if h =? 0 then live w else (KCtx, h) :: live w;
  live_alloc c w h w' : alloc_pd c w = (h, w') ->
    live w' = if h =? 0 then live w else (KPd, h) :: live w;
  live_create_cq c n w h w' : create_cq c n w = (h, w') ->
    live w' = if h =? 0 then live w else (KCq, h) :: live w;
  live_create_qp p a w h w' : create_qp p a w = (h, w') ->
    live w' = if h =? 0 then live w else (KQp, h) :: live w;
  live_close h w l : live w ≡ₚ (KCtx, h) :: l -> live (close_device h w) ≡ₚ l;
  live_dealloc h w l : live w ≡ₚ (KPd, h) :: l -> live (dealloc_pd h w) ≡ₚ l;
  live_destroy_cq h w l : live w ≡ₚ (KCq, h) :: l -> live (destroy_cq h w) ≡ₚ l;
  live_destroy_qp h w l : live w ≡ₚ (KQp, h) :: l -> live (destroy_qp h w) ≡ₚ l
}.

(** ** RdmaDestination *)

Record RdmaDestination := mkDest {
  rd_local_id : Z;             (* uint16_t *)
  rd_qp_number : Z;            (* uint32_t *)
  rd_packet_seq_number : Z;    (* uint32_t *)
  rd_gid : list Z              (* 16 bytes *)
}.

Definition wf_dest (d : RdmaDestination) : Prop :=
  in_width 16 (rd_local_id d) /\ in_width 32 (rd_qp_number d) /\
  in_width 32 (rd_packet_seq_number d) /\ length (rd_gid d) = 16%nat.

Definition DEST_WIRE_SIZE : nat := 2 + 4 + 4 + 16.

Definition dest_serialize (d : RdmaDestination) (buf : list Z) : list Z :=
  let buf := list_inserts 0 (le_bytes 2 (rd_local_id d)) buf in
  let buf := list_inserts 2 (le_bytes 4 (rd_qp_number d)) buf in
  let buf := list_inserts 6 (le_bytes 4 (rd_packet_seq_number d)) buf in
  list_inserts 10 (rd_gid d) buf.

Definition dest_deserialize (buf : list Z) : RdmaDestination :=
  mkDest (le_val (slice 0 2 buf)) (le_val (slice 2 4 buf)) (le_val (slice 6 4 buf))
         (slice 10 16 buf).

Definition zero_dest : RdmaDestination := mkDest 0 0 0 (replicate 16 0).

Lemma dest_roundtrip d buf :
  wf_dest d -> (DEST_WIRE_SIZE <= length buf)%nat ->
  dest_deserialize (dest_serialize d buf) = d.
Proof.
  intros (Hl & Hq & Hp & Hg) Hb. unfold DEST_WIRE_SIZE in Hb. unfold in_width in *.
  unfold dest_deserialize, dest_serialize.
  destruct d as [l q p g]; cbn [rd_local_id rd_qp_number rd_packet_seq_number rd_gid] in *.
  f_equal; try (skip_fields; apply le_val_written; rewrite ?length_inserts; (done || lia)).
  rewrite <- Hg. apply slice_inserts_same. rewrite !length_inserts. lia.
Qed.

(** ** RdmaConnection *)

Record RdmaConnection := mkConn {
  rc_fns : bool;   (* fns_ != nullptr *)
  rc_ctx : Z; rc_pd : Z; rc_cq : Z; rc_qp : Z
}.

(** Default-constructed, and the moved-from state. *)
Definition null_conn : RdmaConnection := mkConn false 0 0 0 0.

(** [ok()]. *)
Definition conn_ok (c : RdmaConnection) : bool := negb (rc_qp c =? 0).

Section Connection.
Context {W : Type} `{!Ibv W}.

(** [destroy()]: release what is held, in reverse order of creation. *)
Definition conn_destroy (c : RdmaConnection) (w : W) : RdmaConnection * W :=
  if negb (rc_fns c) then (c, w) else
  let w := if rc_qp c =? 0 then w else destroy_qp (rc_qp c) w in
  let w := if rc_cq c =? 0 then w else destroy_cq (rc_cq c) w in
  let w := if rc_pd c =? 0 then w else dealloc_pd (rc_pd c) w in
  let w := if rc_ctx c =? 0 then w else close_device (rc_ctx c) w in
  (null_conn, w).

(** The move constructor: [(new object, moved-from object)]. *)
Definition conn_move (other : RdmaConnection) : RdmaConnection * RdmaConnection :=
  (other, null_conn).

(** Move assignment of a distinct object. *)
Definition conn_move_assign (self other : RdmaConnection) (w : W)
    : RdmaConnection * RdmaConnection * W :=
  let '(_, w) := conn_destroy self w in (other, null_conn, w).

(** [open(device, cq_depth)]. *)
Definition conn_open (device cq_depth : Z) (c : RdmaConnection) (w : W)
    : bool * RdmaConnection * W :=
  let '(fns, w) := ibv_load w in
  let c := mkConn fns (rc_ctx c) (rc_pd c) (rc_cq c) (rc_qp c) in
  if negb fns || (device =? 0) then (false, c, w) else
  let '(ctx, w) := open_device device w in
  let c := mkConn fns ctx (rc_pd c) (rc_cq c) (rc_qp c) in
  if ctx =? 0 then (false, c, w) else
  let '(pd, w) := alloc_pd ctx w in
  let c := mkConn fns ctx pd (rc_cq c) (rc_qp c) in
  if pd =? 0 then let '(c, w) := conn_destroy c w in (false, c, w) else
  let actual_cq_depth := cq_depth * 2 in
  let '(cq, w) := create_cq ctx actual_cq_depth w in
  let c := mkConn fns ctx pd cq (rc_qp c) in
  if cq =? 0 then let '(c, w) := conn_destroy c w in (false, c, w) else
  let init_attr := mkQpInit cq cq cq_depth cq_depth 1 1 0 IBV_QPT_RC 0 in
  let '(qp, w) := create_qp pd init_attr w in
  let c := mkConn fns ctx pd cq qp in
  if qp =? 0 then let '(c, w) := conn_destroy c w in (false, c, w) else
  (true, c, w).

(** [init(port)]: RESET to INIT. *)
Definition conn_init (port : Z) (c : RdmaConnection) (w : W) : bool * W :=
  if negb (rc_fns c) || (rc_qp c =? 0) then (false, w) else
  let attr := mkQpAttr IBV_QPS_INIT port 0
    (Z.lor (Z.lor IBV_ACCESS_LOCAL_WRITE IBV_ACCESS_REMOTE_WRITE) IBV_ACCESS_REMOTE_READ)
    0 0 0 0 0 0 0 [] 0 0 0 0 0 0 0 in
  let mask := [QP_STATE; QP_PKEY_INDEX; QP_PORT; QP_ACCESS_FLAGS] in
  let '(rc, w) := modify_qp (rc_qp c) attr mask w in
  (rc =? 0, w).

(** [activate(remote, port)]: INIT to RTR to RTS. *)
Definition conn_activate (remote : RdmaDestination) (port : Z) (c : RdmaConnection) (w : W)
    : bool * W :=
  if negb (rc_fns c) || (rc_qp c =? 0) then (false, w) else
  let rtr := mkQpAttr IBV_QPS_RTR 0 0 0 (mtu_code IBV_MTU_4096) (rd_qp_number remote) (rd_packet_seq_number remote)
    1 12 (rd_local_id remote) 1 (rd_gid remote) 1 port 0 0 0 0 0 in
  let rtr_mask := [QP_STATE; QP_AV; QP_PATH_MTU; QP_DEST_QPN; QP_RQ_PSN;
                   QP_MAX_DEST_RD_ATOMIC; QP_MIN_RNR_TIMER] in
  let '(rc, w) := modify_qp (rc_qp c) rtr rtr_mask w in
  if negb (rc =? 0) then (false, w) else
  let rts := mkQpAttr IBV_QPS_RTS 0 0 0 0 0 0 0 0 0 0 [] 0 0 0 14 7 7 1 in
  let rts_mask := [QP_STATE; QP_SQ_PSN; QP_TIMEOUT; QP_RETRY_CNT; QP_RNR_RETRY;
                   QP_MAX_QP_RD_ATOMIC] in
  let '(rc, w) := modify_qp (rc_qp c) rts rts_mask w in
  (rc =? 0, w).

Definition local_destination (port : Z) (c : RdmaConnection) (w : W) : RdmaDestination :=
  if negb (rc_fns c) || (rc_qp c =? 0) || (rc_ctx c =? 0) then zero_dest else
  mkDest (query_port_lid (rc_ctx c) port w) (qp_num (rc_qp c) w) 0 (query_gid (rc_ctx c) port w).

(** Hand a work request to the queue pair. *)
Definition post_wr (wr : ibv_send_wr) (c : RdmaConnection) (w : W) : bool * W :=
  if negb (rc_fns c) || (rc_qp c =? 0) then (false, w) else
  let '(rc, w) := post_send_verb (rc_qp c) wr w in (rc =? 0, w).

Definition conn_post_send (sge : ibv_sge) (wr_id : Z) : RdmaConnection -> W -> bool * W :=
  post_wr (mkSendWr wr_id [sge] IBV_WR_SEND IBV_SEND_SIGNALED 0 0 0).

Definition conn_post_recv (sge : ibv_sge) (wr_id : Z) (c : RdmaConnection) (w : W) : bool * W :=
  if negb (rc_fns c) || (rc_qp c =? 0) then (false, w) else
  let '(rc, w) := post_recv_verb (rc_qp c) (mkRecvWr wr_id [sge]) w in (rc =? 0, w).

Definition post_rdma_write (sge : ibv_sge) (remote_addr rkey wr_id : Z) (signaled : bool)
    : RdmaConnection -> W -> bool * W :=
  post_wr (mkSendWr wr_id [sge] IBV_WR_RDMA_WRITE
             (if signaled then IBV_SEND_SIGNALED else 0) 0 remote_addr rkey).

Definition post_rdma_read (sge : ibv_sge) (remote_addr rkey wr_id : Z) (signaled : bool)
    : RdmaConnection -> W -> bool * W :=
  post_wr (mkSendWr wr_id [sge] IBV_WR_RDMA_READ
             (if signaled then IBV_SEND_SIGNALED else 0) 0 remote_addr rkey).

Definition post_rdma_write_with_imm (sge : ibv_sge) (remote_addr rkey imm_data wr_id : Z)
    : RdmaConnection -> W -> bool * W :=
  post_wr (mkSendWr wr_id [sge] IBV_WR_RDMA_WRITE_WITH_IMM IBV_SEND_SIGNALED
             imm_data remote_addr rkey).

(** A zero-byte write carrying the fence flag. *)
Definition post_fence (wr_id : Z) : RdmaConnection -> W -> bool * W :=
  post_wr (mkSendWr wr_id [] IBV_WR_RDMA_WRITE (Z.lor IBV_SEND_SIGNALED IBV_SEND_FENCE) 0 0 0).

Definition conn_poll (max_wc : Z) (c : RdmaConnection) (w : W) : option (list ibv_wc) * W :=
  if negb (rc_fns c) || (rc_cq c =? 0) then (None, w) else poll_cq (rc_cq c) max_wc w.
End Connection.

(** ** SharedBuffer

    The backing allocation is an address (0 when there is none); the allocator
    is an argument that returns 0 on failure. *)
Record SharedBuffer := mkBuf { sb_buf : Z; sb_nbytes : Z; sb_registrations : list Z }.

Definition empty_buffer : SharedBuffer := mkBuf 0 0 [].

Section Buffer.
Context {W : Type} `{!Ibv W}.

(** [cleanup()]: deregister everything, then free. *)
Definition buf_cleanup (b : SharedBuffer) (w : W) : SharedBuffer * W :=
  let '(fns, w) := ibv_load w in
  let w := if fns
           then foldl (fun w mr => if mr =? 0 then w else dereg_mr mr w) w (sb_registrations b)
           else w in
  (empty_buffer, w).

Definition buf_allocate (posix_memalign : Z -> Z) (nbytes : Z) (b : SharedBuffer) (w : W)
    : SharedBuffer * W :=
  let '(_, w) := buf_cleanup b w in
  if nbytes =? 0 then (empty_buffer, w) else
  let p := posix_memalign nbytes in
  if p =? 0 then (empty_buffer, w) else (mkBuf p nbytes [], w).

Definition register_with (pd : Z) (b : SharedBuffer) (w : W)
    : option ibv_mr * SharedBuffer * W :=
  let '(fns, w) := ibv_load w in
  if negb fns || (sb_buf b =? 0) || (pd =? 0) then (None, b, w) else
  let access := Z.lor (Z.lor IBV_ACCESS_LOCAL_WRITE IBV_ACCESS_REMOTE_READ)
                  IBV_ACCESS_REMOTE_WRITE in
  let '(mr, w) := reg_mr pd (sb_buf b) (sb_nbytes b) access w in
  match mr with
  | None => (None, b, w)
  | Some m => (Some m, mkBuf (sb_buf b) (sb_nbytes b) (sb_registrations b ++ [mr_handle m]), w)
  end.
End Buffer.

(** [to_sge(mr, offset, length)]: the length argument is a [uint32_t]. *)
Definition to_sge (b : SharedBuffer) (mr : ibv_mr) (offset length : Z) : ibv_sge :=
  mkSge (u64 (sb_buf b + offset)) (u32 length) (mr_lkey mr).

Definition to_sge_all (b : SharedBuffer) (mr : ibv_mr) : ibv_sge :=
  to_sge b mr 0 (u32 (sb_nbytes b)).

(** ** A concrete driver

    Handles are counted up; the listed handles fail to be created; posted work
    requests are logged and completions come from a script.  It shows the laws
    can hold and runs the witnesses. *)
Record SimNic := mkSim {
  sim_loaded : bool;
  sim_next : Z;
  sim_fail : list handle_kind;          (* creations that return null *)
  sim_live : list (handle_kind * Z);
  sim_sends : list (Z * ibv_send_wr);   (* in posting order *)
  sim_recvs : list (Z * ibv_recv_wr);
  sim_cq : list (option (list ibv_wc)); (* what successive polls return *)
  sim_deregs : list Z                   (* deregistered memory regions, in order *)
}.

#[export] Instance handle_kind_eq_dec : EqDecision handle_kind.
Proof. solve_decision. Defined.

Definition sim_create (k : handle_kind) (w : SimNic) : Z * SimNic :=
  if bool_decide (k ∈ sim_fail w) then (0, w) else
  let h := Z.max 1 (sim_next w) in
  (h, mkSim (sim_loaded w) (h + 1) (sim_fail w) ((k, h) :: sim_live w)
        (sim_sends w) (sim_recvs w) (sim_cq w) (sim_deregs w)).

(** Remove the first occurrence. *)
Fixpoint remove_one (x : handle_kind * Z) (l : list (handle_kind * Z)) : list (handle_kind * Z) :=
  match l with
  | [] => []
  | y :: l' => if decide (x = y) then l' else y :: remove_one x l'
  end.

Definition sim_destroy (k : handle_kind) (h : Z) (w : SimNic) : SimNic :=
  mkSim (sim_loaded w) (sim_next w) (sim_fail w) (remove_one (k, h) (sim_live w))
    (sim_sends w) (sim_recvs w) (sim_cq w) (sim_deregs w).

#[export] Instance sim_ibv : Ibv SimNic := {
  ibv_load w := (sim_loaded w, w);
  get_device_list w := ([7], w);
  free_device_list w := w;
  open_device _ := sim_create KCtx;
  close_device := sim_destroy KCtx;
  alloc_pd _ := sim_create KPd;
  dealloc_pd := sim_destroy KPd;
  create_cq _ _ := sim_create KCq;
  destroy_cq := sim_destroy KCq;
  create_qp _ _ := sim_create KQp;
  destroy_qp := sim_destroy KQp;
  modify_qp _ _ _ w := (0, w);
  reg_mr _ addr _ _ w := if addr =? 0 then (None, w) else (Some (mkMr addr 11 22), w);
  dereg_mr h w :=
    mkSim (sim_loaded w) (sim_next w) (sim_fail w) (sim_live w) (sim_sends w) (sim_recvs w)
      (sim_cq w) (sim_deregs w ++ [h]);
  post_send_verb qp wr w :=
    (0, mkSim (sim_loaded w) (sim_next w) (sim_fail w) (sim_live w)
       (sim_sends w ++ [(qp, wr)]) (sim_recvs w) (sim_cq w) (sim_deregs w));
  post_recv_verb qp wr w :=
    (0, mkSim (sim_loaded w) (sim_next w) (sim_fail w) (sim_live w)
       (sim_sends w) (sim_recvs w ++ [(qp, wr)]) (sim_cq w) (sim_deregs w));
  poll_cq _ _ w :=
    match sim_cq w with
    | [] => (Some [], w)
    | r :: q => (r, mkSim (sim_loaded w) (sim_next w) (sim_fail w) (sim_live w)
                     (sim_sends w) (sim_recvs w) q (sim_deregs w))
    end;
  query_port_lid _ _ _ := 0;
  query_gid _ _ _ := replicate 16 0;
  qp_num qp _ := qp
}.

#[export] Instance sim_mr_log : MrLog SimNic.
Proof.
  refine {| deregs := sim_deregs |}; try done.
  - intros w b w' H. by simplify_eq/=.
  - intros pd a n acc w mr w' H. cbn in H. destruct (Z.eqb_spec a 0); by simplify_eq/=.
Defined.

Lemma remove_one_perm x l l' : l ≡ₚ x :: l' -> remove_one x l ≡ₚ l'.
Proof.
  revert l'. induction l as [|y l IH]; intros l' Hp.
  - by apply Permutation_nil_cons in Hp.
  - simpl. case_decide as Hd; subst.
    + by apply Permutation_cons_inv in Hp.
    + assert (y ∈ x :: l') as Hy by (rewrite <- Hp; left).
      apply elem_of_cons in Hy as [->|Hy]; [done|].
      apply elem_of_Permutation in Hy as [l'' Hl''].
      rewrite Hl'' in Hp |- *. constructor. apply IH.
      apply (Permutation_cons_inv (a := y)). rewrite Hp. constructor.
Qed.

Lemma sim_create_live k w h w' :
  sim_create k w = (h, w') ->
  sim_live w' = if h =? 0 then sim_live w else (k, h) :: sim_live w.
Proof.
  unfold sim_create. case_bool_decide; intros [= <- <-]; [done|].
  cbn [sim_live]. destruct (Z.eqb_spec (Z.max 1 (sim_next w)) 0); [lia|done].
Qed.

#[export] Instance sim_laws : IbvLaws SimNic.
Proof.
  refine {| live := sim_live |}; simpl; intros;
    try (by eapply sim_create_live); try (by apply remove_one_perm); simplify_eq; done.
Defined.

(** ** Properties *)

Section Leak.
Context {W : Type} `{HI : !Ibv W, HL : !IbvLaws W}.

Lemma destroy_live c w l :
  rc_fns c = true ->
  live w ≡ₚ (if rc_qp c =? 0 then [] else [(KQp, rc_qp c)]) ++
            (if rc_cq c =? 0 then [] else [(KCq, rc_cq c)]) ++
            (if rc_pd c =? 0 then [] else [(KPd, rc_pd c)]) ++
            (if rc_ctx c =? 0 then [] else [(KCtx, rc_ctx c)]) ++ l ->
  (conn_destroy c w).1 = null_conn /\ live (conn_destroy c w).2 ≡ₚ l.
Proof.
  intros Hf Hl. unfold conn_destroy. rewrite Hf. split; [done|]. cbn [negb snd].
  destruct (rc_qp c =? 0); [|apply live_destroy_qp in Hl];
  (destruct (rc_cq c =? 0); [|apply live_destroy_cq in Hl]);
  (destruct (rc_pd c =? 0); [|apply live_dealloc in Hl]);
  (destruct (rc_ctx c =? 0); [|apply live_close in Hl]); exact Hl.
Qed.
End Leak.

(** [open] on a fresh connection is all-or-nothing.  When it fails, every
    handle that was created on the way has been released again and the
    connection has no queue pair; when it succeeds, the connection is usable,
    and a later [destroy] releases exactly the four handles it created. *)
Theorem conn_open_no_leak {W} `{!Ibv W, !IbvLaws W} device cq_depth (w : W) :
  let '(ok, c, w') := conn_open device cq_depth null_conn w in
  conn_ok c = ok /\
  (ok = false -> live w' ≡ₚ live w) /\
  (ok = true -> live w' ≡ₚ [(KQp, rc_qp c); (KCq, rc_cq c); (KPd, rc_pd c); (KCtx, rc_ctx c)]
                           ++ live w) /\
  live (conn_destroy c w').2 ≡ₚ live w.
Proof.
  unfold conn_open. cbn [null_conn rc_ctx rc_pd rc_cq rc_qp].
  destruct (ibv_load w) as [fns w0] eqn:E0. apply live_load in E0 as L0.
  destruct fns; cbn [negb orb]; [|by rewrite <- L0].
  destruct (device =? 0).
  { rewrite <- L0. by split_and!. }
  destruct (open_device device w0) as [ctx w1] eqn:E1. apply live_open in E1 as L1.
  destruct (ctx =? 0) eqn:Hctx.
  { rewrite L0 in L1. split_and!; try done; [by rewrite L1|].
    apply (destroy_live _ _ (live w)); simpl; [done|]. by rewrite Hctx, L1. }
  destruct (alloc_pd ctx w1) as [pd w2] eqn:E2. apply live_alloc in E2 as L2.
  destruct (pd =? 0) eqn:Hpd.
  { destruct (destroy_live (mkConn true ctx pd 0 0) w2 (live w)) as [D1 D2];
      [done|simpl; rewrite Hpd, Hctx, L2, L1, L0; done|].
    destruct (conn_destroy _ w2) as [c3 w3]; simpl in *; subst c3. by split_and!. }
  destruct (create_cq ctx _ w2) as [cq w3] eqn:E3. apply live_create_cq in E3 as L3.
  destruct (cq =? 0) eqn:Hcq.
  { destruct (destroy_live (mkConn true ctx pd cq 0) w3 (live w)) as [D1 D2];
      [done|simpl; rewrite Hcq, Hpd, Hctx, L3, L2, L1, L0; done|].
    destruct (conn_destroy _ w3) as [c4 w4]; simpl in *; subst c4. by split_and!. }
  destruct (create_qp pd _ w3) as [qp w4] eqn:E4. apply live_create_qp in E4 as L4.
  destruct (qp =? 0) eqn:Hqp;
    (destruct (destroy_live (mkConn true ctx pd cq qp) w4 (live w)) as [D1 D2];
      [done|simpl; rewrite Hqp, Hcq, Hpd, Hctx, L4, L3, L2, L1, L0; done|]).
  { destruct (conn_destroy _ w4) as [c5 w5]; simpl in *; subst c5. by split_and!. }
  split_and!; try done; [unfold conn_ok; simpl; by rewrite Hqp|].
  intros _. simpl. by rewrite L4, L3, L2, L1, L0.
Qed.

Lemma conn_open_no_leak_witness :
  let w := mkSim true 1 [KQp] [] [] [] [] [] in
  let '(ok, c, w') := conn_open 7 128 null_conn w in
  conn_ok c = ok /\
  (ok = false -> live w' ≡ₚ live w) /\
  (ok = true -> live w' ≡ₚ [(KQp, rc_qp c); (KCq, rc_cq c); (KPd, rc_pd c); (KCtx, rc_ctx c)]
                           ++ live w) /\
  live (conn_destroy c w').2 ≡ₚ live w.
Proof. apply (conn_open_no_leak 7 128 (mkSim true 1 [KQp] [] [] [] [] [])). Defined.
