(* ===== verification/SharedBuffers.v ===== *)
(** Ownership of registered buffers: the life cycle of [SharedBuffer] objects
    (src/csrc/transport/rdma/SharedBuffer.hpp, SharedBuffer.cpp).

    The objects of a program are a list, with [None] for a destroyed one; next to
    them are the driver, the blocks that [posix_memalign] has handed out and
    [free] has not taken back, and the log of the registrations made.  An
    operation has no result where the code would free a block that is not
    allocated. *)

From stdpp Require Import list list_numbers.
From S2P Require Import Prelude Rdma.
Local Open Scope Z_scope.

(** What registering does to the log of deregistrations. *)
Class MrRegs (W : Type) `{!Ibv W, !MrLog W} := {
  deregs_reg pd a n acc w mr w' : reg_mr pd a n acc w = (mr, w') -> deregs w' = deregs w;
  loaded_reg pd a n acc w mr w' : reg_mr pd a n acc w = (mr, w') -> (ibv_load w').1 = (ibv_load w).1
}.

#[export] Instance sim_mr_regs : MrRegs SimNic.
Proof. split; intros pd a n acc w mr w' H; cbn in H; by destruct (a =? 0); simplify_eq. Qed.

Section Lifecycle.
Context {W : Type} `{HI : !Ibv W}.
(** [posix_memalign], given the allocated blocks and the size; 0 when it fails. *)
Context (malloc : list Z -> Z -> Z).

Record bufworld := mkBufs {
  bw_objs : list (option SharedBuffer);
  bw_nic : W;
  bw_live : list Z;
  bw_regs : list Z                       (* handles of all registrations made *)
}.

(** [if (buf_) free(buf_)], with the deregistrations around it in [buf_cleanup]. *)
Definition buf_free (b : SharedBuffer) (live : list Z) : option (list Z) :=
  if sb_buf b =? 0 then Some live else
  if bool_decide (sb_buf b ∈ live) then Some (list_difference live [sb_buf b]) else None.

(** [cleanup()] and [allocate(nbytes)] with their effect on the blocks. *)
Definition drop_buffer (b : SharedBuffer) (w : W) (live : list Z) : option (W * list Z) :=
  live ← buf_free b live; Some ((buf_cleanup b w).2, live).

Definition new_block (n : Z) (b : SharedBuffer) (w : W) (live : list Z) : option (SharedBuffer * W * list Z) :=
  live ← buf_free b live;
  let '(b', w) := buf_allocate (malloc live) n b w in
  Some (b', w, if sb_buf b' =? 0 then live else sb_buf b' :: live).

Inductive buf_op :=
| BNew (n : Z)                          (* SharedBuffer(n) *)
| BAllocate (i : nat) (n : Z)           (* allocate *)
| BRegister (i : nat) (pd : Z)          (* register_with *)
| BMoveNew (i : nat)                    (* SharedBuffer(std::move(b_i)) *)
| BMoveAssign (i j : nat)               (* b_i = std::move(b_j) *)
| BDestroy (i : nat).                   (* ~SharedBuffer *)

Definition buf_new (n : Z) (s : bufworld) : option bufworld :=
  '(b, w, live) ← new_block n empty_buffer (bw_nic s) (bw_live s);
  Some (mkBufs (bw_objs s ++ [Some b]) w live (bw_regs s)).

Definition buf_reallocate (i : nat) (n : Z) (b : SharedBuffer) (s : bufworld) : option bufworld :=
  '(b, w, live) ← new_block n b (bw_nic s) (bw_live s);
  Some (mkBufs (<[i := Some b]> (bw_objs s)) w live (bw_regs s)).

Definition buf_register (i : nat) (pd : Z) (b : SharedBuffer) (s : bufworld) : bufworld :=
  let '(mr, b, w) := register_with pd b (bw_nic s) in
  mkBufs (<[i := Some b]> (bw_objs s)) w (bw_live s)
    (bw_regs s ++ match mr with Some m => [mr_handle m] | None => [] end).

Definition buf_move_new (i : nat) (b : SharedBuffer) (s : bufworld) : bufworld :=
  mkBufs (<[i := Some empty_buffer]> (bw_objs s) ++ [Some b]) (bw_nic s) (bw_live s) (bw_regs s).

Definition buf_move_assign (i j : nat) (b c : SharedBuffer) (s : bufworld) : option bufworld :=
  if bool_decide (i = j) then Some s else
  '(w, live) ← drop_buffer b (bw_nic s) (bw_live s);
  Some (mkBufs (<[i := Some c]> (<[j := Some empty_buffer]> (bw_objs s))) w live (bw_regs s)).

Definition buf_destroy (i : nat) (b : SharedBuffer) (s : bufworld) : option bufworld :=
  '(w, live) ← drop_buffer b (bw_nic s) (bw_live s);
  Some (mkBufs (<[i := None]> (bw_objs s)) w live (bw_regs s)).

(** An operation on an object that does not exist is not part of a program. *)
Definition buf_obj (i : nat) (s : bufworld) : option SharedBuffer := mjoin (bw_objs s !! i).

Definition buf_step (op : buf_op) (s : bufworld) : option bufworld :=
  match op with
  | BNew n => buf_new n s
  | BAllocate i n => match buf_obj i s with Some b => buf_reallocate i n b s | None => Some s end
  | BRegister i pd => match buf_obj i s with Some b => Some (buf_register i pd b s) | None => Some s end
  | BMoveNew i => match buf_obj i s with Some b => Some (buf_move_new i b s) | None => Some s end
  | BMoveAssign i j =>
    match buf_obj i s, buf_obj j s with Some b, Some c => buf_move_assign i j b c s | _, _ => Some s end
  | BDestroy i => match buf_obj i s with Some b => buf_destroy i b s | None => Some s end
  end.

Fixpoint buf_run (ops : list buf_op) (s : bufworld) : option bufworld :=
  match ops with [] => Some s | op :: ops => s ← buf_step op s; buf_run ops s end.
End Lifecycle.

Arguments bufworld : clear implicits.

(** ** The invariant *)

Definition block_of (o : option SharedBuffer) : list Z :=
  match o with Some b => if sb_buf b =? 0 then [] else [sb_buf b] | None => [] end.
Definition regs_of (o : option SharedBuffer) : list Z :=
  match o with Some b => sb_registrations b | None => [] end.
Definition held (f : option SharedBuffer -> list Z) (objs : list (option SharedBuffer)) : list Z :=
  mjoin (f <$> objs).

Section Held.
Context (f : option SharedBuffer -> list Z).

Lemma held_app l k : held f (l ++ k) = held f l ++ held f k.
Proof. unfold held. by rewrite fmap_app, join_app. Qed.

Lemma held_in l i o : f None = [] -> (i < length l)%nat -> held f (<[i := o]> l) ≡ₚ f o ++ held f (<[i := None]> l).
Proof.
  intros Hf Hi. rewrite !(insert_take_drop l i) by done. rewrite !held_app.
  change (held f (?o :: ?k)) with (f o ++ held f k). rewrite Hf. solve_Permutation.
Qed.

Lemma held_out l i o : f None = [] -> l !! i = Some o -> held f l ≡ₚ f o ++ held f (<[i := None]> l).
Proof.
  intros Hf Hi. rewrite <- held_in by (by eauto using lookup_lt_Some). by rewrite list_insert_id.
Qed.

Lemma held_single o : held f [o] = f o.
Proof. unfold held. cbn. by rewrite app_nil_r. Qed.
End Held.

Section Invariant.
Context {W : Type} `{HI : !Ibv W, HM : !MrLog W, HR : !MrRegs W}.
Context (malloc : list Z -> Z -> Z) (Hfresh : forall l n, malloc l n = 0 \/ malloc l n ∉ l).
Context (w0 : W).
Implicit Types (s : bufworld W) (b : SharedBuffer).

(** Registrations are for allocated memory and for a loaded library. *)
Definition buf_ok (w : W) (o : option SharedBuffer) : Prop :=
  match o with
  | Some b => Forall (fun h => h <> 0) (sb_registrations b) /\
      (sb_registrations b <> [] -> sb_buf b <> 0 /\ (ibv_load w).1 = true)
  | None => True
  end.

Record buf_inv s : Prop := {
  bi_blocks : bw_live s ≡ₚ held block_of (bw_objs s);
  bi_nodup : NoDup (bw_live s);
  bi_regs : deregs (bw_nic s) ++ held regs_of (bw_objs s) ≡ₚ deregs w0 ++ bw_regs s;
  bi_ok : Forall (buf_ok (bw_nic s)) (bw_objs s)
}.

Lemma buf_ok_loaded w w' o : (ibv_load w').1 = (ibv_load w).1 -> buf_ok w o -> buf_ok w' o.
Proof. intros Hl. destruct o; cbn; [|done]. by rewrite Hl. Qed.

Lemma dereg_all l (w : W) :
  Forall (fun h => h <> 0) l ->
  let w' := foldl (fun w mr => if mr =? 0 then w else dereg_mr mr w) w l in
  deregs w' = deregs w ++ l /\ (ibv_load w').1 = (ibv_load w).1.
Proof.
  intros Hl. revert w. induction Hl as [|h l Hh _ IH]; intros w; cbn [foldl].
  { by rewrite app_nil_r. }
  rewrite (proj2 (Z.eqb_neq h 0)) by done. destruct (IH (dereg_mr h w)) as [-> ->].
  by rewrite deregs_dereg, loaded_dereg, <- app_assoc.
Qed.

Lemma cleanup_spec b w :
  buf_ok w (Some b) ->
  deregs (buf_cleanup b w).2 = deregs w ++ sb_registrations b /\
  (ibv_load (buf_cleanup b w).2).1 = (ibv_load w).1.
Proof.
  intros [Hnz Hld]. unfold buf_cleanup. pose proof (loaded_load w) as Hll.
  destruct (ibv_load w) as [fns w1] eqn:Hw. cbn [fst snd] in *. destruct fns.
  - destruct (dereg_all (sb_registrations b) w1 Hnz) as [-> ->]. by rewrite (deregs_load _ _ _ Hw).
  - assert (sb_registrations b = []) as ->.
    { destruct (sb_registrations b); [done|]. by destruct Hld. }
    by rewrite app_nil_r, (deregs_load _ _ _ Hw).
Qed.

Lemma free_spec b live rest :
  live ≡ₚ block_of (Some b) ++ rest -> NoDup live ->
  exists live', buf_free b live = Some live' /\ live' ≡ₚ rest /\ NoDup live'.
Proof.
  intros Hp Hnd. unfold buf_free, block_of in *. destruct (sb_buf b =? 0); [by exists live|].
  cbn in Hp. rewrite bool_decide_true by (rewrite Hp; left).
  eexists. split; [done|]. assert (NoDup (sb_buf b :: rest)) as Hr by (by rewrite <- Hp).
  apply NoDup_cons in Hr as [Hn Hr]. split; [|by apply NoDup_list_difference].
  apply NoDup_Permutation; [by apply NoDup_list_difference|done|]. intros x.
  rewrite list_elem_of_difference, Hp. set_solver.
Qed.

Lemma drop_spec b w live rest :
  buf_ok w (Some b) -> live ≡ₚ block_of (Some b) ++ rest -> NoDup live ->
  exists w' live', drop_buffer b w live = Some (w', live') /\ live' ≡ₚ rest /\ NoDup live' /\
    deregs w' = deregs w ++ sb_registrations b /\ (ibv_load w').1 = (ibv_load w).1.
Proof.
  intros Hok Hp Hnd. destruct (free_spec b live rest Hp Hnd) as (live' & Hf & Hp' & Hnd').
  destruct (cleanup_spec b w Hok). unfold drop_buffer. rewrite Hf. by eexists _, live'.
Qed.

Lemma new_block_spec n b w live rest :
  buf_ok w (Some b) -> live ≡ₚ block_of (Some b) ++ rest -> NoDup live ->
  exists b' w' live', new_block malloc n b w live = Some (b', w', live') /\
    live' ≡ₚ block_of (Some b') ++ rest /\ NoDup live' /\ sb_registrations b' = [] /\
    deregs w' = deregs w ++ sb_registrations b /\ (ibv_load w').1 = (ibv_load w).1.
Proof.
  intros Hok Hp Hnd. destruct (free_spec b live rest Hp Hnd) as (live' & Hf & Hp' & Hnd').
  destruct (cleanup_spec b w Hok) as [Hd Hl]. unfold new_block. rewrite Hf. cbn [mbind option_bind].
  unfold buf_allocate. destruct (buf_cleanup b w) as [b0 w']. cbn [snd] in *.
  destruct (n =? 0); [by eexists _, _, _|].
  destruct (Z.eqb_spec (malloc live' n) 0) as [|Hz]; [by eexists _, _, _|].
  eexists _, _, _. split; [done|]. cbn [block_of sb_buf]. rewrite (proj2 (Z.eqb_neq _ 0)) by done.
  destruct (Hfresh live' n) as [|Hni]; [done|]. split_and!; [by constructor|by apply NoDup_cons|done..].
Qed.

Lemma obj_lookup i s b : buf_obj i s = Some b -> bw_objs s !! i = Some (Some b).
Proof. unfold buf_obj. by destruct (bw_objs s !! i) as [[]|]; intros; simplify_eq/=. Qed.

(** Object [i], a [b] so far, is replaced and with it its block and its
    registrations, some of which were deregistered. *)
Lemma inv_replace s i b o w live regs gone :
  buf_inv s -> bw_objs s !! i = Some (Some b) ->
  live ≡ₚ block_of o ++ held block_of (<[i := None]> (bw_objs s)) -> NoDup live ->
  deregs w = deregs (bw_nic s) ++ gone -> (ibv_load w).1 = (ibv_load (bw_nic s)).1 ->
  gone ++ regs_of o ≡ₚ sb_registrations b ++ regs -> buf_ok w o ->
  buf_inv (mkBufs (<[i := o]> (bw_objs s)) w live (bw_regs s ++ regs)).
Proof.
  intros Hs Hi Hp Hnd Hd Hl Hr Hok.
  assert ((i < length (bw_objs s))%nat) as Hlt by (by eapply lookup_lt_Some).
  split; cbn [bw_objs bw_nic bw_live bw_regs].
  - by rewrite held_in.
  - done.
  - rewrite held_in by done. rewrite Hd, (app_assoc (deregs w0)), <- (bi_regs s Hs).
    rewrite (held_out regs_of (bw_objs s) i (Some b)) by done. cbn [regs_of].
    rewrite <- !app_assoc. apply Permutation_app_head. rewrite (app_assoc gone), Hr. solve_Permutation.
  - apply Forall_insert; [|done]. eapply Forall_impl; [apply (bi_ok s Hs)|]. intros o'. by apply buf_ok_loaded.
Qed.

(** A new object. *)
Lemma inv_append s b w live :
  buf_inv s -> live ≡ₚ block_of (Some b) ++ held block_of (bw_objs s) -> NoDup live ->
  deregs w = deregs (bw_nic s) -> (ibv_load w).1 = (ibv_load (bw_nic s)).1 -> sb_registrations b = [] ->
  buf_inv (mkBufs (bw_objs s ++ [Some b]) w live (bw_regs s)).
Proof.
  intros Hs Hp Hnd Hd Hl Hr. split; cbn [bw_objs bw_nic bw_live bw_regs].
  - rewrite Hp, held_app, held_single. solve_Permutation.
  - done.
  - rewrite held_app, held_single, Hd. cbn. by rewrite Hr, app_nil_r, (bi_regs s Hs).
  - apply Forall_app_2; [|constructor; [|constructor]].
    + eapply Forall_impl; [apply (bi_ok s Hs)|]. intros o'. by apply buf_ok_loaded.
    + cbn. by rewrite Hr.
Qed.

Lemma obj_ok s i b : buf_inv s -> bw_objs s !! i = Some (Some b) -> buf_ok (bw_nic s) (Some b).
Proof. intros Hs Hi. exact (proj1 (Forall_lookup _ _) (bi_ok s Hs) i _ Hi). Qed.

Lemma obj_block s i b : buf_inv s -> bw_objs s !! i = Some (Some b) ->
  bw_live s ≡ₚ block_of (Some b) ++ held block_of (<[i := None]> (bw_objs s)).
Proof. intros Hs Hi. rewrite (bi_blocks s Hs). by apply held_out. Qed.

(** A move changes who holds a block and its registrations, nothing else. *)
Lemma inv_moved s objs :
  buf_inv s -> (forall f, f None = [] -> f (Some empty_buffer) = [] -> held f objs ≡ₚ held f (bw_objs s)) ->
  Forall (buf_ok (bw_nic s)) objs -> buf_inv (mkBufs objs (bw_nic s) (bw_live s) (bw_regs s)).
Proof.
  intros Hs Hf Hok. split; cbn [bw_objs bw_nic bw_live bw_regs]; [|apply Hs| |done]; rewrite Hf by done; apply Hs.
Qed.

Lemma empty_ok w : buf_ok w (Some empty_buffer).
Proof. split; [constructor|done]. Qed.

Lemma move_new_inv s i b :
  buf_inv s -> bw_objs s !! i = Some (Some b) -> buf_inv (buf_move_new i b s).
Proof.
  intros Hs Hi. apply inv_moved; [done| |].
  - intros f Hn He. rewrite held_app, held_single, held_in by eauto using lookup_lt_Some.
    rewrite (held_out f _ i _ Hn Hi), He. solve_Permutation.
  - apply Forall_app_2; [apply Forall_insert; [apply Hs|apply empty_ok]|].
    constructor; [by eapply obj_ok|constructor].
Qed.

(** [c] moves from [j] into the emptied object [i]. *)
Lemma move_into_empty s i j c :
  buf_inv s -> i <> j -> bw_objs s !! i = Some (Some empty_buffer) -> bw_objs s !! j = Some (Some c) ->
  buf_inv (mkBufs (<[i := Some c]> (<[j := Some empty_buffer]> (bw_objs s))) (bw_nic s) (bw_live s) (bw_regs s)).
Proof.
  intros Hs Hij Hi Hj. apply inv_moved; [done| |].
  - intros f Hn He. rewrite held_in by (rewrite ?length_insert; eauto using lookup_lt_Some).
    rewrite list_insert_insert_ne by done.
    rewrite held_in by (rewrite ?length_insert; eauto using lookup_lt_Some).
    rewrite (held_out f _ j _ Hn Hj).
    rewrite (held_out f (<[j := None]> (bw_objs s)) i (Some empty_buffer) Hn) by (by rewrite list_lookup_insert_ne).
    by rewrite He, list_insert_insert_ne by done.
  - apply Forall_insert; [apply Forall_insert; [apply Hs|apply empty_ok]|by eapply obj_ok].
Qed.

Lemma register_inv s i pd b :
  buf_inv s -> bw_objs s !! i = Some (Some b) -> buf_inv (buf_register i pd b s).
Proof.
  intros Hs Hi. pose proof (obj_ok s i b Hs Hi) as Hok. pose proof (obj_block s i b Hs Hi) as Hb.
  pose proof (bi_nodup s Hs) as Hnd.
  unfold buf_register, register_with. pose proof (loaded_load (bw_nic s)) as Hll.
  destruct (ibv_load (bw_nic s)) as [fns w] eqn:Hw. cbn [fst snd] in Hll. pose proof (deregs_load _ _ _ Hw) as Hd.
  assert ((ibv_load w).1 = (ibv_load (bw_nic s)).1) as Hl by (by rewrite Hw).
  destruct (negb fns || (sb_buf b =? 0) || (pd =? 0)) eqn:Hc.
  { apply (inv_replace s i b (Some b) w _ [] []); rewrite ?app_nil_r; try done. by eapply buf_ok_loaded. }
  apply orb_false_iff in Hc as [[Hf Hz]%orb_false_iff _]. apply negb_false_iff in Hf. apply Z.eqb_neq in Hz. subst fns.
  destruct (reg_mr _ _ _ _ w) as [[m|] w'] eqn:Hreg.
  - apply (inv_replace s i b _ w' _ [mr_handle m] []); rewrite ?app_nil_r; try done.
    + by rewrite (deregs_reg _ _ _ _ _ _ _ Hreg).
    + by rewrite (loaded_reg _ _ _ _ _ _ _ Hreg).
    + destruct Hok as [Hnz _]. split; cbn.
      * apply Forall_app_2; [done|]. constructor; [|constructor]. by eapply reg_mr_handle.
      * intros _. by rewrite (loaded_reg _ _ _ _ _ _ _ Hreg).
  - apply (inv_replace s i b (Some b) w' _ [] []); rewrite ?app_nil_r; try done.
    + by rewrite (deregs_reg _ _ _ _ _ _ _ Hreg).
    + by rewrite (loaded_reg _ _ _ _ _ _ _ Hreg).
    + eapply buf_ok_loaded; [|exact Hok]. by rewrite (loaded_reg _ _ _ _ _ _ _ Hreg).
Qed.

Lemma buf_step_inv op s : buf_inv s -> exists s', buf_step malloc op s = Some s' /\ buf_inv s'.
Proof.
  intros Hs. pose proof (bi_nodup s Hs) as Hnd. destruct op as [n|i n|i pd|i|i j|i]; cbn [buf_step];
    try (destruct (buf_obj i s) as [b|] eqn:Ho; [apply obj_lookup in Ho|by exists s]).
  - destruct (new_block_spec n empty_buffer (bw_nic s) (bw_live s) (held block_of (bw_objs s)))
      as (b & w & live & Hb & Hp & Hnd' & Hr & Hd & Hl); [apply empty_ok|apply Hs|done|].
    unfold buf_new. rewrite Hb. eexists. split; [done|]. apply inv_append; try done.
    by rewrite Hd, app_nil_r.
  - destruct (new_block_spec n b (bw_nic s) (bw_live s) _ (obj_ok s i b Hs Ho) (obj_block s i b Hs Ho) Hnd)
      as (b' & w & live & Hb & Hp & Hnd' & Hr & Hd & Hl).
    unfold buf_reallocate. rewrite Hb. eexists. split; [done|]. rewrite <- (app_nil_r (bw_regs s)).
    eapply inv_replace; try done; cbn; by rewrite ?Hr.
  - eexists. split; [done|]. by apply register_inv.
  - eexists. split; [done|]. by apply move_new_inv.
  - destruct (buf_obj j s) as [c|] eqn:Hj; [apply obj_lookup in Hj|by exists s].
    unfold buf_move_assign. case_bool_decide as Hij; [by exists s|].
    destruct (drop_spec b (bw_nic s) (bw_live s) _ (obj_ok s i b Hs Ho) (obj_block s i b Hs Ho) Hnd)
      as (w & live & Hb & Hp & Hnd' & Hd & Hl). rewrite Hb. eexists. split; [done|].
    assert (buf_inv (mkBufs (<[i := Some empty_buffer]> (bw_objs s)) w live (bw_regs s))) as H1.
    { rewrite <- (app_nil_r (bw_regs s)). eapply inv_replace; try done. }
    pose proof (move_into_empty _ i j c H1 Hij) as H2. cbn [bw_objs bw_nic bw_live bw_regs] in H2.
    rewrite (list_insert_insert_ne _ j i) in H2 by done. rewrite list_insert_insert_eq in H2.
    apply H2; [|by rewrite list_lookup_insert_ne by done].
    apply list_lookup_insert_eq. by eapply lookup_lt_Some.
  - destruct (drop_spec b (bw_nic s) (bw_live s) _ (obj_ok s i b Hs Ho) (obj_block s i b Hs Ho) Hnd)
      as (w & live & Hb & Hp & Hnd' & Hd & Hl). unfold buf_destroy. rewrite Hb. eexists. split; [done|].
    rewrite <- (app_nil_r (bw_regs s)). eapply inv_replace; done.
Qed.

Lemma buf_run_inv ops s : buf_inv s -> exists s', buf_run malloc ops s = Some s' /\ buf_inv s'.
Proof.
  revert s. induction ops as [|op ops IH]; intros s Hs; [by exists s|].
  destruct (buf_step_inv op s Hs) as (s1 & H1 & Hs1). cbn. rewrite H1. by apply IH.
Qed.
End Invariant.

(** C21: Registered buffers are owned once.  For any allocator that does not hand
    out an allocated block, every sequence of constructions, allocations,
    registrations, moves, move assignments and destructions of [SharedBuffer]
    objects frees only allocated blocks, and at its end the allocated blocks are
    exactly those of the objects, each held once, and every registration made
    has either been deregistered once or is in the list of exactly one object,
    whose memory is still allocated.  When all objects are destroyed, no block is
    left and every registration has been deregistered exactly once. *)
Theorem shared_buffers_owned {W} `{!Ibv W, !MrLog W, !MrRegs W} (malloc : list Z -> Z -> Z) (w : W) ops :
  (forall l n, malloc l n = 0 \/ malloc l n ∉ l) ->
  exists s, buf_run malloc ops (mkBufs [] w [] []) = Some s /\
    NoDup (bw_live s) /\ bw_live s ≡ₚ held block_of (bw_objs s) /\
    deregs (bw_nic s) ++ held regs_of (bw_objs s) ≡ₚ deregs w ++ bw_regs s /\
    (forall i b, bw_objs s !! i = Some (Some b) -> sb_registrations b <> [] -> sb_buf b ∈ bw_live s) /\
    (Forall (fun o => o = None) (bw_objs s) -> bw_live s = [] /\ deregs (bw_nic s) ≡ₚ deregs w ++ bw_regs s).
Proof.
  intros Hm. destruct (buf_run_inv malloc Hm w ops (mkBufs [] w [] [])) as (s & Hrun & Hs).
  { split; cbn; [done|constructor|done|constructor]. }
  exists s. split; [done|]. pose proof (bi_blocks w s Hs) as Hp. pose proof (bi_regs w s Hs) as Hr.
  split_and!; [apply Hs|done|done| |].
  - intros i b Hi Hne. destruct (obj_ok w s i b Hs Hi) as [_ H]. destruct (H Hne) as [Hz _].
    rewrite (obj_block w s i b Hs Hi). cbn. rewrite (proj2 (Z.eqb_neq _ 0)) by done. left.
  - intros Hnone.
    assert (forall f, f None = [] -> held f (bw_objs s) = []) as Hnil.
    { intros f Hf. induction Hnone as [|o l -> _ IH]; [done|]. change (held f (None :: l)) with (f None ++ held f l). by rewrite Hf, IH. }
    rewrite Hnil in Hp, Hr by done. rewrite app_nil_r in Hr. split; [|done]. by apply Permutation_nil_r.
Qed.

(** Two buffers, one of them registered, assigned and destroyed. *)
Definition demo_malloc (l : list Z) (n : Z) : Z := 4096 + foldr Z.max 0 l.
Definition demo_buf_ops : list buf_op :=
  [BNew 100; BRegister 0 5; BNew 200; BRegister 1 5; BMoveNew 0; BMoveAssign 1 2; BDestroy 0; BDestroy 1; BDestroy 2].

Lemma demo_malloc_fresh l n : demo_malloc l n = 0 \/ demo_malloc l n ∉ l.
Proof.
  right. intros H. assert (forall x, x ∈ l -> x <= foldr Z.max 0 l) as Hle.
  { clear. induction l as [|y l IH]; intros x Hx; [by apply elem_of_nil in Hx|].
    apply elem_of_cons in Hx as [->|Hx]; cbn; [lia|]. specialize (IH x Hx). lia. }
  apply Hle in H. unfold demo_malloc in H. lia.
Qed.

Lemma shared_buffers_owned_witness :
  exists s, buf_run demo_malloc demo_buf_ops (mkBufs [] (mkSim true 10 [] [] [] [] [] []) [] []) = Some s /\
    bw_live s = [] /\ deregs (bw_nic s) ≡ₚ bw_regs s /\ length (bw_regs s) = 2%nat.
Proof.
  destruct (shared_buffers_owned demo_malloc (mkSim true 10 [] [] [] [] [] []) demo_buf_ops demo_malloc_fresh)
    as (s & Hrun & _ & _ & _ & _ & Hend).
  exists s. split; [exact Hrun|].
  assert (s = default (mkBufs [] (mkSim true 10 [] [] [] [] [] []) [] [])
    (buf_run demo_malloc demo_buf_ops (mkBufs [] (mkSim true 10 [] [] [] [] [] []) [] []))) as Hs by (by rewrite Hrun).
  destruct Hend as [H1 H2]; [rewrite Hs; vm_compute; by repeat constructor|].
  split; [exact H1|]. split; [exact H2|]. rewrite Hs. vm_compute. reflexivity.
Defined.
