(* ===== verification/RdmaHandshake.v ===== *)
(** Bringing up a pair of queue pairs: [open], [local_destination], the exchange
    of the destinations, [init] and [activate] of
    src/csrc/transport/rdma/RdmaConnection.cpp on both nodes, against a driver
    that moves queue pairs through the states the verbs document. *)

From S2P Require Import Prelude Rdma.
#[local] Open Scope Z_scope.

#[export] Instance qp_mask_eq_dec : EqDecision qp_mask.
Proof. solve_decision. Defined.

(** ** Queue pairs as the verbs describe them *)

(** What the driver keeps of a queue pair. *)
Record qp_cfg := mkCfg {
  q_type : ibv_qp_type; q_state : ibv_qp_state;
  q_port : Z; q_access : Z; q_mtu : Z; q_dest_qpn : Z; q_rq_psn : Z; q_dlid : Z; q_dgid : list Z; q_sq_psn : Z
}.

(** [ibv_modify_qp(3)] for a reliable connection: the transitions on the way up
    with the attributes each of them requires. *)
Definition required (from to : ibv_qp_state) : option (list qp_mask) :=
  match from, to with
  | IBV_QPS_RESET, IBV_QPS_INIT => Some [QP_STATE; QP_PKEY_INDEX; QP_PORT; QP_ACCESS_FLAGS]
  | IBV_QPS_INIT, IBV_QPS_RTR =>
      Some [QP_STATE; QP_AV; QP_PATH_MTU; QP_DEST_QPN; QP_RQ_PSN; QP_MAX_DEST_RD_ATOMIC; QP_MIN_RNR_TIMER]
  | IBV_QPS_RTR, IBV_QPS_RTS =>
      Some [QP_STATE; QP_SQ_PSN; QP_MAX_QP_RD_ATOMIC; QP_RETRY_CNT; QP_RNR_RETRY; QP_TIMEOUT]
  | _, _ => None
  end.

(** Steps that would skip a state. *)
Definition skips (from to : ibv_qp_state) : bool :=
  match from, to with
  | IBV_QPS_RESET, (IBV_QPS_RTR | IBV_QPS_RTS) | IBV_QPS_INIT, IBV_QPS_RTS => true
  | _, _ => false
  end.

(** The attributes named in the mask are taken over. *)
Definition take_over (a : ibv_qp_attr) (mask : list qp_mask) (q : qp_cfg) : qp_cfg :=
  let pick {A} (m : qp_mask) (new old : A) := if bool_decide (m ∈ mask) then new else old in
  mkCfg (q_type q) (pick QP_STATE (qa_qp_state a) (q_state q)) (pick QP_PORT (qa_port_num a) (q_port q))
    (pick QP_ACCESS_FLAGS (qa_access_flags a) (q_access q)) (pick QP_PATH_MTU (qa_path_mtu a) (q_mtu q))
    (pick QP_DEST_QPN (qa_dest_qp_num a) (q_dest_qpn q)) (pick QP_RQ_PSN (qa_rq_psn a) (q_rq_psn q))
    (pick QP_AV (qa_dlid a) (q_dlid q)) (pick QP_AV (qa_dgid a) (q_dgid q))
    (pick QP_SQ_PSN (qa_sq_psn a) (q_sq_psn q)).

Class QpLaws (W : Type) `{!Ibv W} := {
  qp_of : Z -> W -> qp_cfg;
  created pd a w h w' : create_qp pd a w = (h, w') -> h <> 0 ->
    q_type (qp_of h w') = qi_qp_type a /\ q_state (qp_of h w') = IBV_QPS_RESET;
  modified h a mask w rc w' : modify_qp h a mask w = (rc, w') ->
    match required (q_state (qp_of h w)) (qa_qp_state a) with
    | Some l => Forall (fun m => m ∈ mask) l -> rc = 0 /\ qp_of h w' = take_over a mask (qp_of h w)
    | None => skips (q_state (qp_of h w)) (qa_qp_state a) = true -> rc <> 0 /\ qp_of h w' = qp_of h w
    end;
  number_kept h a mask w rc w' : modify_qp h a mask w = (rc, w') -> qp_num h w' = qp_num h w;
  number_width h w : in_width 32 (qp_num h w);
  lid_width ctx port w : in_width 16 (query_port_lid ctx port w);
  gid_length ctx port w : length (query_gid ctx port w) = 16%nat
}.

(** ** One end *)

Section OneEnd.
Context {W : Type} `{HI : !Ibv W, HQ : !QpLaws W}.
Implicit Types (c : RdmaConnection) (w : W).

Lemma open_spec device depth w c w' :
  conn_open device depth null_conn w = (true, c, w') ->
  rc_fns c = true /\ rc_ctx c <> 0 /\ rc_qp c <> 0 /\
  q_type (qp_of (rc_qp c) w') = IBV_QPT_RC /\ q_state (qp_of (rc_qp c) w') = IBV_QPS_RESET.
Proof.
  unfold conn_open. intros H.
  destruct (ibv_load w) as [fns w1]. destruct fns; cbn [negb orb] in H; [|done].
  destruct (device =? 0); [done|].
  destruct (open_device device w1) as [ctx w2]. destruct (Z.eqb_spec ctx 0) as [|Hctx]; [done|].
  destruct (alloc_pd ctx w2) as [pd w3]. destruct (pd =? 0); [by destruct (conn_destroy _ _)|].
  destruct (create_cq ctx (depth * 2) w3) as [cq w4]. destruct (cq =? 0); [by destruct (conn_destroy _ _)|].
  destruct (create_qp pd _ w4) as [qp w5] eqn:Hqp. destruct (Z.eqb_spec qp 0) as [|Hz]; [by destruct (conn_destroy _ _)|].
  injection H as <- <-. destruct (created _ _ _ _ _ Hqp Hz) as [Ht Hs]. done.
Qed.

Lemma accepts h a mask w rc w' l :
  modify_qp h a mask w = (rc, w') -> required (q_state (qp_of h w)) (qa_qp_state a) = Some l ->
  Forall (fun m => m ∈ mask) l -> rc = 0 /\ qp_of h w' = take_over a mask (qp_of h w).
Proof. intros Hm Hr. pose proof (modified _ _ _ _ _ _ Hm) as H. by rewrite Hr in H. Qed.

Lemma init_spec port c w :
  rc_fns c = true -> rc_qp c <> 0 -> q_state (qp_of (rc_qp c) w) = IBV_QPS_RESET ->
  exists w', conn_init port c w = (true, w') /\ q_state (qp_of (rc_qp c) w') = IBV_QPS_INIT /\
    q_type (qp_of (rc_qp c) w') = q_type (qp_of (rc_qp c) w) /\ q_access (qp_of (rc_qp c) w') = 7 /\
    q_port (qp_of (rc_qp c) w') = port /\ qp_num (rc_qp c) w' = qp_num (rc_qp c) w.
Proof.
  intros Hf Hq Hs. unfold conn_init. rewrite Hf, (proj2 (Z.eqb_neq _ _)) by done. cbn [negb orb].
  destruct (modify_qp _ _ _ w) as [rc w'] eqn:Hm. exists w'.
  destruct (accepts _ _ _ _ _ _ [QP_STATE; QP_PKEY_INDEX; QP_PORT; QP_ACCESS_FLAGS] Hm) as [-> Hcfg].
  - by rewrite Hs.
  - by apply (bool_decide_unpack _).
  - rewrite Hcfg, (number_kept _ _ _ _ _ _ Hm). done.
Qed.

Lemma activate_spec remote port c w :
  rc_fns c = true -> rc_qp c <> 0 -> q_state (qp_of (rc_qp c) w) = IBV_QPS_INIT ->
  exists w', conn_activate remote port c w = (true, w') /\
    qp_of (rc_qp c) w' = (let q := qp_of (rc_qp c) w in
      mkCfg (q_type q) IBV_QPS_RTS (q_port q) (q_access q) (mtu_code IBV_MTU_4096) (rd_qp_number remote)
        (rd_packet_seq_number remote) (rd_local_id remote) (rd_gid remote) 0) /\
    qp_num (rc_qp c) w' = qp_num (rc_qp c) w.
Proof.
  intros Hf Hq Hs. unfold conn_activate. rewrite Hf, (proj2 (Z.eqb_neq _ _)) by done. cbn [negb orb].
  destruct (modify_qp _ _ _ w) as [rc w1] eqn:Hm1.
  destruct (accepts _ _ _ _ _ _ [QP_STATE; QP_AV; QP_PATH_MTU; QP_DEST_QPN; QP_RQ_PSN; QP_MAX_DEST_RD_ATOMIC;
    QP_MIN_RNR_TIMER] Hm1) as [-> Hc1]; [by rewrite Hs|by apply (bool_decide_unpack _)|].
  cbn [Z.eqb negb]. destruct (modify_qp _ _ _ w1) as [rc w2] eqn:Hm2.
  destruct (accepts _ _ _ _ _ _ [QP_STATE; QP_SQ_PSN; QP_MAX_QP_RD_ATOMIC; QP_RETRY_CNT; QP_RNR_RETRY; QP_TIMEOUT] Hm2)
    as [-> Hc2]; [by rewrite Hc1|by apply (bool_decide_unpack _)|].
  exists w2. split; [done|]. split; [by rewrite Hc2, Hc1|].
  by rewrite (number_kept _ _ _ _ _ _ Hm2), (number_kept _ _ _ _ _ _ Hm1).
Qed.

Lemma local_destination_wf port c w : wf_dest (local_destination port c w).
Proof.
  unfold local_destination, wf_dest. destruct (_ || _); cbn.
  - unfold in_width. split_and!; done || lia.
  - split_and!; [apply lid_width|apply number_width|done|apply gid_length].
Qed.
End OneEnd.

(** ** Properties *)


(** Without [init] a connection does not come up: [activate] on a fresh queue
    pair returns false and leaves it in RESET. *)
Theorem activate_needs_init {W} `{!Ibv W, !QpLaws W} remote port c (w : W) :
  q_state (qp_of (rc_qp c) w) = IBV_QPS_RESET ->
  exists w', conn_activate remote port c w = (false, w') /\ q_state (qp_of (rc_qp c) w') = IBV_QPS_RESET.
Proof.
  intros Hs. unfold conn_activate. destruct (_ || _); [by exists w|].
  destruct (modify_qp _ _ _ w) as [rc w1] eqn:Hm.
  pose proof (modified _ _ _ _ _ _ Hm) as H. rewrite Hs in H. cbn in H. destruct (H eq_refl) as [Hrc Hq].
  rewrite (proj2 (Z.eqb_neq _ _)) by done. exists w1. by rewrite Hq.
Qed.

(** ** A driver with queue pairs *)

Record QpNic := mkQpNic { qn_nic : SimNic; qn_cfgs : gmap Z qp_cfg }.

Definition fresh_cfg (t : ibv_qp_type) : qp_cfg := mkCfg t IBV_QPS_RESET 0 0 0 0 0 0 [] 0.
Definition cfg_at (h : Z) (w : QpNic) : qp_cfg := default (fresh_cfg IBV_QPT_RC) (qn_cfgs w !! h).
Definition lift {A} (f : SimNic -> A * SimNic) (w : QpNic) : A * QpNic :=
  let '(a, n) := f (qn_nic w) in (a, mkQpNic n (qn_cfgs w)).
Definition lift_ (f : SimNic -> SimNic) (w : QpNic) : QpNic := mkQpNic (f (qn_nic w)) (qn_cfgs w).

Definition qn_create (a : ibv_qp_init_attr) (w : QpNic) : Z * QpNic :=
  let '(h, n) := sim_create KQp (qn_nic w) in (h, mkQpNic n (<[h := fresh_cfg (qi_qp_type a)]> (qn_cfgs w))).

Definition qn_modify (h : Z) (a : ibv_qp_attr) (mask : list qp_mask) (w : QpNic) : Z * QpNic :=
  match required (q_state (cfg_at h w)) (qa_qp_state a) with
  | Some l => if bool_decide (Forall (fun m => m ∈ mask) l)
              then (0, mkQpNic (qn_nic w) (<[h := take_over a mask (cfg_at h w)]> (qn_cfgs w))) else (22, w)
  | None => (22, w)
  end.

#[export] Instance qn_ibv : Ibv QpNic := {
  ibv_load := lift ibv_load; get_device_list := lift get_device_list; free_device_list w := w;
  open_device d := lift (open_device d); close_device h := lift_ (close_device h);
  alloc_pd c := lift (alloc_pd c); dealloc_pd h := lift_ (dealloc_pd h);
  create_cq c n := lift (create_cq c n); destroy_cq h := lift_ (destroy_cq h);
  create_qp _ := qn_create; destroy_qp h := lift_ (destroy_qp h); modify_qp := qn_modify;
  reg_mr p a n f := lift (reg_mr p a n f); dereg_mr h := lift_ (dereg_mr h);
  post_send_verb h wr := lift (post_send_verb h wr); post_recv_verb h wr := lift (post_recv_verb h wr);
  poll_cq h n := lift (poll_cq h n);
  query_port_lid _ port _ := u16 port; query_gid _ _ _ := replicate 16 0; qp_num h _ := u32 h
}.

#[export] Instance qn_laws : QpLaws QpNic.
Proof.
  refine {| qp_of := cfg_at |}; cbn.
  - intros _ a w h w' H _. unfold qn_create in H. destruct (sim_create KQp (qn_nic w)) as [h' n]. injection H as <- <-.
    unfold cfg_at. cbn. by rewrite lookup_insert_eq.
  - intros h a mask w rc w' H. unfold qn_modify in H.
    destruct (required _ _) as [l|]; [|intros _; by simplify_eq].
    intros Hl. rewrite bool_decide_true in H by done. injection H as <- <-. split; [done|].
    unfold cfg_at at 1. cbn. by rewrite lookup_insert_eq.
  - intros h a mask w rc w' _. done.
  - intros h w. apply (uwrap_range 32). lia.
  - intros ctx port w. apply (uwrap_range 16). lia.
  - done.
Defined.

(** Two such drivers, with queue pairs 13 and 23. *)
Definition demo_nic (n : Z) : QpNic := mkQpNic (mkSim true n [] [] [] [] [] []) ∅.
Definition demo_conn (n : Z) : RdmaConnection * QpNic :=
  let '(_, c, w) := conn_open 7 64 null_conn (demo_nic n) in (c, w).

