(* ===== verification/Dmem.v ===== *)
(** * The distributed memory manager ([csrc/dmem/DistributedMemoryManager])

    The PGAS layer of one node: the table of registered regions, the catalog,
    address resolution, one-sided put and get through the staging buffer, and
    completion tracking.  The object is the record [dmem]; the node's memory
    is a map from addresses to bytes; the NIC is an [Ibv] driver.  Deadlines
    ([poll_completion]) appear as the number of polls that fit before them. *)
From S2P Require Import Prelude Addr Catalog Rdma.
Open Scope Z_scope.

Definition MAX_NODES : Z := 8.
Definition kRdmaBufSize : Z := 1024 * 1024.
Definition kCqPollBatch : Z := 16.

(** ** Memory *)

Definition mem_read (m : Z -> Z) (a : Z) (n : nat) : list Z :=
  (fun i => m (a + Z.of_nat i)) <$> seq 0 n.

Definition mem_write (m : Z -> Z) (a : Z) (d : list Z) : Z -> Z := fun x =>
  if (a <=? x) && (x <? a + Z.of_nat (length d))
  then default 0 (d !! Z.to_nat (x - a)) else m x.

Lemma length_mem_read m a n : length (mem_read m a n) = n.
Proof. unfold mem_read. by rewrite length_fmap, length_seq. Qed.

Lemma mem_write_out m a d x :
  x < a \/ a + Z.of_nat (length d) <= x -> mem_write m a d x = m x.
Proof.
  intros H. unfold mem_write.
  destruct (Z.leb_spec a x), (Z.ltb_spec x (a + Z.of_nat (length d))); simpl; lia || done.
Qed.

Lemma mem_read_write_same m a d : mem_read (mem_write m a d) a (length d) = d.
Proof.
  apply list_eq. intros i. unfold mem_read. rewrite list_lookup_fmap.
  destruct (decide (i < length d)%nat) as [Hi|Hi].
  - rewrite lookup_seq_lt by done. simpl. unfold mem_write.
    destruct (Z.leb_spec a (a + Z.of_nat i)), (Z.ltb_spec (a + Z.of_nat i) (a + Z.of_nat (length d)));
      simpl; try lia.
    destruct (lookup_lt_is_Some_2 d i Hi) as [v Hv]. rewrite Hv.
    replace (Z.to_nat (a + Z.of_nat i - a)) with i by lia. by rewrite Hv.
  - rewrite lookup_seq_ge by lia. by rewrite lookup_ge_None_2 by lia.
Qed.

(** ** State *)

Record Stats := mkStats {
  total_put_bytes : Z; total_get_bytes : Z; total_put_ops : Z; total_get_ops : Z;
  total_errors : Z
}.
Definition zero_stats : Stats := mkStats 0 0 0 0 0.

Record PendingOp := mkPending { po_wr_id : Z; po_done : bool }.

Record dmem (W : Type) := mkDmem {
  dm_node_id : Z;
  dm_num_peers : Z;
  dm_ctx : Z; dm_pd : Z; dm_cq : Z;
  dm_peer_conns : list (option RdmaConnection);  (* MAX_NODES slots, None = null *)
  dm_regions : list MemoryRegion;
  dm_next_region_id : Z;                          (* uint32_t *)
  dm_catalog : MemoryCatalog;
  dm_catalog_buf : SharedBuffer;
  dm_staging_buf : SharedBuffer;
  dm_staging_mr : ibv_mr;
  dm_pending_ops : list PendingOp;                (* front first *)
  dm_running : bool;
  dm_next_wr_id : Z;                              (* uint64_t *)
  dm_stats : Stats;
  dm_mem : Z -> Z;
  dm_nic : W
}.
Arguments mkDmem {W}.
Arguments dm_node_id {W}. Arguments dm_num_peers {W}. Arguments dm_ctx {W}.
Arguments dm_pd {W}. Arguments dm_cq {W}. Arguments dm_peer_conns {W}.
Arguments dm_regions {W}. Arguments dm_next_region_id {W}. Arguments dm_catalog {W}.
Arguments dm_catalog_buf {W}. Arguments dm_staging_buf {W}. Arguments dm_staging_mr {W}.
Arguments dm_pending_ops {W}. Arguments dm_running {W}. Arguments dm_next_wr_id {W}.
Arguments dm_stats {W}. Arguments dm_mem {W}. Arguments dm_nic {W}.

Section Updates.
Context {W : Type}.
Implicit Types s : dmem W.
Definition set_regions (r : list MemoryRegion) s : dmem W :=
  mkDmem (dm_node_id s) (dm_num_peers s) (dm_ctx s) (dm_pd s) (dm_cq s) (dm_peer_conns s) r
    (dm_next_region_id s) (dm_catalog s) (dm_catalog_buf s) (dm_staging_buf s) (dm_staging_mr s)
    (dm_pending_ops s) (dm_running s) (dm_next_wr_id s) (dm_stats s) (dm_mem s) (dm_nic s).
Definition set_next_region_id (n : Z) s : dmem W :=
  mkDmem (dm_node_id s) (dm_num_peers s) (dm_ctx s) (dm_pd s) (dm_cq s) (dm_peer_conns s)
    (dm_regions s) n (dm_catalog s) (dm_catalog_buf s) (dm_staging_buf s) (dm_staging_mr s)
    (dm_pending_ops s) (dm_running s) (dm_next_wr_id s) (dm_stats s) (dm_mem s) (dm_nic s).
Definition set_catalog (c : MemoryCatalog) s : dmem W :=
  mkDmem (dm_node_id s) (dm_num_peers s) (dm_ctx s) (dm_pd s) (dm_cq s) (dm_peer_conns s)
    (dm_regions s) (dm_next_region_id s) c (dm_catalog_buf s) (dm_staging_buf s) (dm_staging_mr s)
    (dm_pending_ops s) (dm_running s) (dm_next_wr_id s) (dm_stats s) (dm_mem s) (dm_nic s).
Definition set_pending (p : list PendingOp) s : dmem W :=
  mkDmem (dm_node_id s) (dm_num_peers s) (dm_ctx s) (dm_pd s) (dm_cq s) (dm_peer_conns s)
    (dm_regions s) (dm_next_region_id s) (dm_catalog s) (dm_catalog_buf s) (dm_staging_buf s)
    (dm_staging_mr s) p (dm_running s) (dm_next_wr_id s) (dm_stats s) (dm_mem s) (dm_nic s).
Definition set_running (b : bool) s : dmem W :=
  mkDmem (dm_node_id s) (dm_num_peers s) (dm_ctx s) (dm_pd s) (dm_cq s) (dm_peer_conns s)
    (dm_regions s) (dm_next_region_id s) (dm_catalog s) (dm_catalog_buf s) (dm_staging_buf s)
    (dm_staging_mr s) (dm_pending_ops s) b (dm_next_wr_id s) (dm_stats s) (dm_mem s) (dm_nic s).
Definition set_next_wr_id (n : Z) s : dmem W :=
  mkDmem (dm_node_id s) (dm_num_peers s) (dm_ctx s) (dm_pd s) (dm_cq s) (dm_peer_conns s)
    (dm_regions s) (dm_next_region_id s) (dm_catalog s) (dm_catalog_buf s) (dm_staging_buf s)
    (dm_staging_mr s) (dm_pending_ops s) (dm_running s) n (dm_stats s) (dm_mem s) (dm_nic s).
Definition set_stats (st : Stats) s : dmem W :=
  mkDmem (dm_node_id s) (dm_num_peers s) (dm_ctx s) (dm_pd s) (dm_cq s) (dm_peer_conns s)
    (dm_regions s) (dm_next_region_id s) (dm_catalog s) (dm_catalog_buf s) (dm_staging_buf s)
    (dm_staging_mr s) (dm_pending_ops s) (dm_running s) (dm_next_wr_id s) st (dm_mem s) (dm_nic s).
Definition set_mem (m : Z -> Z) s : dmem W :=
  mkDmem (dm_node_id s) (dm_num_peers s) (dm_ctx s) (dm_pd s) (dm_cq s) (dm_peer_conns s)
    (dm_regions s) (dm_next_region_id s) (dm_catalog s) (dm_catalog_buf s) (dm_staging_buf s)
    (dm_staging_mr s) (dm_pending_ops s) (dm_running s) (dm_next_wr_id s) (dm_stats s) m (dm_nic s).
Definition set_nic (w : W) s : dmem W :=
  mkDmem (dm_node_id s) (dm_num_peers s) (dm_ctx s) (dm_pd s) (dm_cq s) (dm_peer_conns s)
    (dm_regions s) (dm_next_region_id s) (dm_catalog s) (dm_catalog_buf s) (dm_staging_buf s)
    (dm_staging_mr s) (dm_pending_ops s) (dm_running s) (dm_next_wr_id s) (dm_stats s) (dm_mem s) w.
End Updates.

(** [std::atomic::fetch_add(1)] on the work-request counter. *)
Definition fetch_wr_id {W} : M (dmem W) Z :=
  id ← askS dm_next_wr_id; modS (set_next_wr_id (u64 (id + 1))) ;; mret id.

(** [regions_.resize(n)] (growing): new slots are [MemoryRegion{}]. *)
Definition grow_regions (n : nat) (l : list MemoryRegion) : list MemoryRegion :=
  if (n <=? length l)%nat then l else l ++ replicate (n - length l) zero_region.

Section Operations.
Context {W : Type} `{!Ibv W}.
Implicit Types s : dmem W.

(** The constructor.  A failed check throws; what was opened before stays in
    the driver, since no destructor runs. *)
Definition dm_create (node_id num_peers cq_depth : Z) (posix_memalign : Z -> Z)
    (mem : Z -> Z) (w : W) : result (dmem W) * W :=
  let '(fns, w) := ibv_load w in
  if negb fns then (Throw (MCCLError "DMEM: librdma.dylib not available"), w) else
  let '(devs, w) := get_device_list w in
  match devs with
  | [] => (Throw (MCCLError "DMEM: no RDMA devices found"), w)
  | dev :: _ =>
    let '(ctx, w) := open_device dev w in
    if ctx =? 0 then (Throw (MCCLError "DMEM: ibv_open_device failed"), w) else
    let w := free_device_list w in
    let '(pd, w) := alloc_pd ctx w in
    if pd =? 0 then (Throw (MCCLError "DMEM: ibv_alloc_pd failed"), w) else
    let '(cq, w) := create_cq ctx (cq_depth * 2) w in
    if cq =? 0 then (Throw (MCCLError "DMEM: ibv_create_cq failed"), w) else
    let '(cbuf, w) := buf_allocate posix_memalign CATALOG_BUF_SIZE empty_buffer w in
    let '(cmr, cbuf, w) := register_with pd cbuf w in
    match cmr with
    | None => (Throw (MCCLError "DMEM: catalog MR registration failed"), w)
    | Some _ =>
      let '(sbuf, w) := buf_allocate posix_memalign kRdmaBufSize empty_buffer w in
      let '(smr, sbuf, w) := register_with pd sbuf w in
      match smr with
      | None => (Throw (MCCLError "DMEM: staging MR registration failed"), w)
      | Some smr =>
        (Ok (mkDmem node_id num_peers ctx pd cq (replicate (Z.to_nat MAX_NODES) None)
               [] 1 empty_catalog cbuf sbuf smr [] false 1 zero_stats mem w), w)
      end
    end
  end.

(** [start()] and [shutdown()]: the poller thread runs while [running_]. *)
Definition dm_start : M (dmem W) unit :=
  r ← askS dm_running; if r : bool then mret tt else modS (set_running true).
Definition dm_shutdown : M (dmem W) unit :=
  r ← askS dm_running; if r : bool then modS (set_running false) else mret tt.

(** The destructor: [catalog_mr_] is the registration of the catalog buffer
    that the constructor made. *)
Definition dm_destroy (s : dmem W) : W :=
  let w := dm_nic s in
  let dereg h w := if h =? 0 then w else dereg_mr h w in
  let w := dereg (mr_handle (dm_staging_mr s)) w in
  let '(_, w) := buf_cleanup (dm_staging_buf s) w in
  let w := dereg (default 0 (last (sb_registrations (dm_catalog_buf s)))) w in
  let '(_, w) := buf_cleanup (dm_catalog_buf s) w in
  let w := if dm_cq s =? 0 then w else destroy_cq (dm_cq s) w in
  let w := if dm_pd s =? 0 then w else dealloc_pd (dm_pd s) w in
  if dm_ctx s =? 0 then w else close_device (dm_ctx s) w.

Definition register_region (base_addr length flags : Z) : M (dmem W) Z :=
  DISTRO_CHECK (negb (base_addr =? 0)) "DMEM: null base_addr" ;;
  DISTRO_CHECK (0 <? length) "DMEM: zero-length region" ;;
  s ← getS;
  let '(mr, w) := reg_mr (dm_pd s) base_addr length
    (Z.lor (Z.lor IBV_ACCESS_LOCAL_WRITE IBV_ACCESS_REMOTE_READ) IBV_ACCESS_REMOTE_WRITE)
    (dm_nic s) in
  modS (set_nic w) ;;
  match mr with
  | None => throw (MCCLError "DMEM: ibv_reg_mr failed")
  | Some mr =>
    region_id ← askS dm_next_region_id;
    modS (set_next_region_id (u32 (region_id + 1))) ;;
    let region := mkRegion (mkGA (dm_node_id s) region_id 0) base_addr length
                    (mr_rkey mr) (mr_lkey mr) flags in
    modS (fun s => set_regions
      (<[Z.to_nat region_id := region]>
         (grow_regions (Z.to_nat region_id + 1) (dm_regions s))) s) ;;
    modS (fun s => set_catalog
      (cat_upsert region_id (mkEntry (rg_local_addr region) (rg_length region) (rg_rkey region)
                               (rg_flags region) 1) (dm_catalog s)) s) ;;
    mret region_id
  end.

Definition unregister_region (region_id : Z) : M (dmem W) unit :=
  s ← getS;
  if region_id <? Z.of_nat (length (dm_regions s)) then
    modS (set_regions (<[Z.to_nat region_id := zero_region]> (dm_regions s))) ;;
    modS (fun s => set_catalog (cat_remove region_id (dm_catalog s)) s)
  else mret tt.

Definition register_buffer (cpu_ptr length flags : Z) : M (dmem W) Z :=
  register_region cpu_ptr length flags.

(** [lookup_remote]: address, key and length of a cached entry. *)
Definition lookup_remote (node_id region_id : Z) s : option (Z * Z * Z) :=
  match cat_lookup node_id region_id (dm_catalog s) with
  | None => None
  | Some e => Some (e_local_addr e, e_rkey e, e_length e)
  end.

Definition resolve (addr : GlobalAddress) s : AddrResolution :=
  if ga_node_id addr =? dm_node_id s then
    match dm_regions s !! Z.to_nat (ga_region_id addr) with
    | None => zero_resolution
    | Some region =>
      if (0 <? rg_length region) && (ga_offset addr <? rg_length region) then
        mkRes true (u64 (rg_local_addr region + ga_offset addr)) 0 0 (rg_lkey region)
          (u64 (rg_length region - ga_offset addr))
      else zero_resolution
    end
  else
    match lookup_remote (ga_node_id addr) (ga_region_id addr) s with
    | None => zero_resolution
    | Some (raddr, rkey, len) =>
      if ga_offset addr <? len then
        mkRes false 0 (u64 (raddr + ga_offset addr)) rkey 0 (u64 (len - ga_offset addr))
      else mkRes false 0 raddr rkey 0 0
    end.

(** The peer's connection, when there is one and it is [ok()]. *)
Definition usable_conn (target : Z) s : option RdmaConnection :=
  match dm_peer_conns s !! Z.to_nat target with
  | Some (Some c) => if conn_ok c then Some c else None
  | _ => None
  end.

(** [memcpy(dst, src, n)] in the node's memory. *)
Definition memcpy (dst src n : Z) : M (dmem W) unit :=
  modS (fun s => set_mem (mem_write (dm_mem s) dst (mem_read (dm_mem s) src (Z.to_nat n))) s).

(** Post through [conn] and fail with [msg] when the driver refuses. *)
Definition post_checked (post : W -> bool * W) (msg : string) : M (dmem W) unit :=
  s ← getS;
  let '(ok, w) := post (dm_nic s) in
  modS (set_nic w) ;; DISTRO_CHECK ok msg.

(** The multi-chunk loop of [put_chunked]; [fuel] bounds the iterations. *)
Fixpoint put_loop (fuel : nat) (conn : RdmaConnection) (remote_addr rkey src length remaining
    last_wr_id : Z) : M (dmem W) Z :=
  if remaining <=? 0 then mret last_wr_id else
  match fuel with
  | O => throw (MCCLError "out of fuel")
  | S fuel =>
    let chunk := Z.min remaining kRdmaBufSize in
    let offset := length - remaining in
    s ← getS;
    memcpy (sb_buf (dm_staging_buf s)) (src + offset) chunk ;;
    let sge := to_sge (dm_staging_buf s) (dm_staging_mr s) 0 chunk in
    wr_id ← fetch_wr_id;
    post_checked (post_rdma_write sge (u64 (remote_addr + offset)) rkey wr_id true conn)
      "DMEM: chunked post_rdma_write failed" ;;
    put_loop fuel conn remote_addr rkey src length (remaining - chunk) wr_id
  end.

(** Enough iterations for any length: one per staging buffer. *)
Definition chunk_fuel (length : Z) : nat := S (Z.to_nat (length / kRdmaBufSize)).

Definition put_chunked (target remote_addr rkey src length : Z) : M (dmem W) Z :=
  s ← getS;
  match usable_conn target s with
  | None => throw (MCCLError "DMEM: no connection to node ")
  | Some conn =>
    if length <=? kRdmaBufSize then
      memcpy (sb_buf (dm_staging_buf s)) src length ;;
      let sge := to_sge (dm_staging_buf s) (dm_staging_mr s) 0 length in
      wr_id ← fetch_wr_id;
      post_checked (post_rdma_write sge remote_addr rkey wr_id true conn)
        "DMEM: post_rdma_write failed" ;;
      modS (fun s => set_pending (dm_pending_ops s ++ [mkPending wr_id false]) s) ;;
      mret wr_id
    else put_loop (chunk_fuel length) conn remote_addr rkey src length length 0
  end.

Definition dm_put (target_node : Z) (dst_addr : GlobalAddress) (src_local length : Z)
    : M (dmem W) Z :=
  s ← getS;
  let res := resolve dst_addr s in
  DISTRO_CHECK (negb (ar_is_local res) || (target_node =? dm_node_id s))
    "DMEM: put target is local but node_id mismatch" ;;
  DISTRO_CHECK (length <=? ar_length res) "DMEM: put length exceeds region bounds" ;;
  DISTRO_CHECK (negb (ar_remote_rkey res =? 0) || ar_is_local res)
    "DMEM: put target not found in catalog" ;;
  if ar_is_local res then memcpy (ar_local_ptr res) src_local length ;; mret 0
  else put_chunked target_node (ar_remote_addr res) (ar_remote_rkey res) src_local length.

(** One pass of [poll_completion] over a batch of completions. *)
Fixpoint scan_completions (wr_id : Z) (wc : list ibv_wc) : option bool :=
  match wc with
  | [] => None
  | c :: wc' => if wc_wr_id c =? wr_id then Some (wc_ok c) else scan_completions wr_id wc'
  end.

(** [poll_completion]: [polls] polls fit before the deadline. *)
Fixpoint poll_completion (polls : nat) (wr_id : Z) : M (dmem W) bool :=
  match polls with
  | O => mret false
  | S polls =>
    s ← getS;
    let '(r, w) := poll_cq (dm_cq s) 16 (dm_nic s) in
    modS (set_nic w) ;;
    match r with
    | None => mret false
    | Some wc =>
      match scan_completions wr_id wc with
      | Some ok => mret ok
      | None => poll_completion polls wr_id
      end
    end
  end.

(** The loop of [get_chunked]: post, poll, copy out of the staging buffer;
    the result of the poll is not looked at. *)
Fixpoint get_loop (fuel polls : nat) (conn : RdmaConnection) (remote_addr rkey dst length
    remaining last_wr_id : Z) : M (dmem W) Z :=
  if remaining <=? 0 then mret last_wr_id else
  match fuel with
  | O => throw (MCCLError "out of fuel")
  | S fuel =>
    let chunk := Z.min remaining kRdmaBufSize in
    let offset := length - remaining in
    s ← getS;
    let sge := to_sge (dm_staging_buf s) (dm_staging_mr s) 0 chunk in
    wr_id ← fetch_wr_id;
    post_checked (post_rdma_read sge (u64 (remote_addr + offset)) rkey wr_id true conn)
      "DMEM: post_rdma_read failed" ;;
    _ ← poll_completion polls wr_id;
    memcpy (dst + offset) (sb_buf (dm_staging_buf s)) chunk ;;
    get_loop fuel polls conn remote_addr rkey dst length (remaining - chunk) wr_id
  end.

Definition get_chunked (polls : nat) (target remote_addr rkey dst length : Z) : M (dmem W) Z :=
  s ← getS;
  match usable_conn target s with
  | None => throw (MCCLError "DMEM: no connection to node ")
  | Some conn => get_loop (chunk_fuel length) polls conn remote_addr rkey dst length length 0
  end.

Definition dm_get (polls : nat) (target_node : Z) (src_addr : GlobalAddress)
    (dst_local length : Z) : M (dmem W) Z :=
  s ← getS;
  let res := resolve src_addr s in
  DISTRO_CHECK (length <=? ar_length res) "DMEM: get length exceeds region bounds" ;;
  DISTRO_CHECK (negb (ar_remote_rkey res =? 0) || ar_is_local res)
    "DMEM: get source not found in catalog" ;;
  if ar_is_local res then memcpy dst_local (ar_local_ptr res) length ;; mret 0
  else get_chunked polls target_node (ar_remote_addr res) (ar_remote_rkey res) dst_local length.

(** The payload is given by value: the caller's stack object. *)
Definition put_with_imm (target_node : Z) (dst_addr : GlobalAddress) (payload : list Z)
    (imm_data : Z) : M (dmem W) Z :=
  s ← getS;
  let length := Z.of_nat (length payload) in
  let res := resolve dst_addr s in
  DISTRO_CHECK (negb (ar_is_local res)) "DMEM: put_with_imm requires remote target" ;;
  DISTRO_CHECK (length <=? kRdmaBufSize) "DMEM: put_with_imm limited to staging buffer size" ;;
  DISTRO_CHECK (length <=? ar_length res) "DMEM: put_with_imm length exceeds region bounds" ;;
  match usable_conn target_node s with
  | None => throw (MCCLError "DMEM: no connection to node ")
  | Some conn =>
    modS (fun s => set_mem (mem_write (dm_mem s) (sb_buf (dm_staging_buf s)) payload) s) ;;
    let sge := to_sge (dm_staging_buf s) (dm_staging_mr s) 0 length in
    wr_id ← fetch_wr_id;
    post_checked (post_rdma_write_with_imm sge (ar_remote_addr res) (ar_remote_rkey res)
                    imm_data wr_id conn) "DMEM: post_rdma_write_with_imm failed" ;;
    mret wr_id
  end.

Definition dm_fence (target_node : Z) : M (dmem W) Z :=
  s ← getS;
  match usable_conn target_node s with
  | None => mret 0
  | Some conn =>
    wr_id ← fetch_wr_id;
    post_checked (post_fence wr_id conn) "DMEM: post_fence failed" ;;
    mret wr_id
  end.

(** [while (!empty && front.wr_id <= last) pop_front()]. *)
Fixpoint pop_done (last_wr_id : Z) (l : list PendingOp) : list PendingOp :=
  match l with
  | [] => []
  | op :: l' => if po_wr_id op <=? last_wr_id then pop_done last_wr_id l' else l
  end.

(** [drain_pending]; [fuel] bounds the rounds of its [while (true)]. *)
Fixpoint drain_pending (fuel polls : nat) : M (dmem W) unit :=
  match fuel with
  | O => throw (MCCLError "out of fuel")
  | S fuel =>
    s ← getS;
    match last (dm_pending_ops s) with
    | None => mret tt
    | Some op =>
      let last_wr_id := po_wr_id op in
      if last_wr_id =? 0 then mret tt else
      ok ← poll_completion polls last_wr_id;
      if negb ok then mret tt else
      modS (fun s => set_pending (pop_done last_wr_id (dm_pending_ops s)) s) ;;
      drain_pending fuel polls
    end
  end.

Definition peer_connection (node_id : Z) s : option RdmaConnection :=
  if MAX_NODES <=? node_id then None else default None (dm_peer_conns s !! Z.to_nat node_id).

(** One completion seen by the poller thread. *)
Definition poller_completion (c : ibv_wc) s : dmem W :=
  let st := dm_stats s in
  if negb (wc_ok c) then
    set_stats (mkStats (total_put_bytes st) (total_get_bytes st) (total_put_ops st)
                 (total_get_ops st) (u64 (total_errors st + 1))) s
  else
    let st' := match wc_opcode c with
               | IBV_WC_RDMA_WRITE =>
                 mkStats (u64 (total_put_bytes st + wc_byte_len c)) (total_get_bytes st)
                   (u64 (total_put_ops st + 1)) (total_get_ops st) (total_errors st)
               | IBV_WC_RDMA_READ =>
                 mkStats (total_put_bytes st) (u64 (total_get_bytes st + wc_byte_len c))
                   (total_put_ops st) (u64 (total_get_ops st + 1)) (total_errors st)
               | _ => st
               end in
    set_pending ((fun op => if po_wr_id op =? wc_wr_id c then mkPending (po_wr_id op) true else op)
                   <$> dm_pending_ops s) (set_stats st' s).

(** One iteration of [poller_loop]; the thread goes on while [running_]. *)
Definition poller_step : M (dmem W) unit :=
  s ← getS;
  if negb (dm_running s) then mret tt else
  let '(r, w) := poll_cq (dm_cq s) kCqPollBatch (dm_nic s) in
  modS (set_nic w) ;;
  match r with
  | None => modS (set_running false)
  | Some wc => modS (fun s => foldl (fun s c => poller_completion c s) s wc)
  end.
End Operations.

(** ** The region table and the catalog agree *)

(** What the catalog publishes of a table slot. *)
Definition published (r : MemoryRegion) : option RegionDirectoryEntry :=
  if 0 <? rg_length r
  then Some (mkEntry (rg_local_addr r) (rg_length r) (rg_rkey r) (rg_flags r) 1)
  else None.

(** Slot [i] is free or describes region [i] of this node, which lies in the
    address space; the local catalog
    publishes exactly the slots in use; ids from [next_region_id_] on are
    free. *)
Record dm_inv {W} (s : dmem W) : Prop := {
  inv_next : 1 <= dm_next_region_id s < 2 ^ 32;
  inv_size : Z.of_nat (length (dm_regions s)) <= dm_next_region_id s;
  inv_slot i r : dm_regions s !! i = Some r ->
    r = zero_region \/
    (rg_gaddr r = mkGA (dm_node_id s) (Z.of_nat i) 0 /\ 0 < rg_length r /\
     0 < rg_local_addr r /\ rg_local_addr r + rg_length r <= 2 ^ 64);
  inv_catalog i : in_width 32 (Z.of_nat i) ->
    cat_lookup 0 (Z.of_nat i) (dm_catalog s) = dm_regions s !! i ≫= published
}.

Lemma lookup_grow n l i :
  grow_regions n l !! i =
  if decide (i < length l)%nat then l !! i else if decide (i < n)%nat then Some zero_region else None.
Proof.
  unfold grow_regions. destruct (Nat.leb_spec n (length l)).
  - case_decide; [done|]. rewrite lookup_ge_None_2 by lia. by case_decide; [lia|].
  - case_decide; [by rewrite lookup_app_l|]. rewrite lookup_app_r by lia.
    case_decide; [apply lookup_replicate_2; lia|]. apply lookup_ge_None_2.
    rewrite length_replicate. lia.
Qed.

Lemma length_grow n l : length (grow_regions n l) = Nat.max n (length l).
Proof.
  unfold grow_regions. destruct (Nat.leb_spec n (length l)); [lia|].
  rewrite length_app, length_replicate. lia.
Qed.

Lemma cat_lookup_upsert r e c i :
  in_width 32 r -> in_width 32 i ->
  cat_lookup 0 i (cat_upsert r e c) = if decide (i = r) then Some e else cat_lookup 0 i c.
Proof.
  intros Hr Hi. unfold cat_lookup, cat_upsert. cbn [cat_entries].
  case_decide as Heq; [subst; apply lookup_insert_eq|].
  apply lookup_insert_ne, catalog_key_ne; [split; [unfold in_width; lia|done]..|]. right; congruence.
Qed.

Lemma cat_lookup_remove r c i :
  in_width 32 r -> in_width 32 i ->
  cat_lookup 0 i (cat_remove r c) = if decide (i = r) then None else cat_lookup 0 i c.
Proof.
  intros Hr Hi. unfold cat_lookup, cat_remove. cbn [cat_entries].
  case_decide as Heq; [subst; apply lookup_delete_eq|].
  apply lookup_delete_ne, catalog_key_ne; [split; [unfold in_width; lia|done]..|]. right; congruence.
Qed.

(** The table after a registration, slot by slot. *)
Definition table_with (id : Z) (r : MemoryRegion) (l : list MemoryRegion) : list MemoryRegion :=
  <[Z.to_nat id := r]> (grow_regions (Z.to_nat id + 1) l).

Lemma lookup_table_with id r l i :
  lookup i (table_with id r l) =
  if decide (i = Z.to_nat id) then Some r
  else if decide (i < length l)%nat then l !! i
  else if decide (i < Z.to_nat id)%nat then Some zero_region else None.
Proof.
  unfold table_with. case_decide as Heq.
  - subst i. apply list_lookup_insert_eq. rewrite length_grow. lia.
  - rewrite list_lookup_insert_ne by done. rewrite lookup_grow.
    repeat case_decide; done || lia.
Qed.

Section Registration.
Context {W : Type} `{!Ibv W}.
Implicit Types s : dmem W.

(** The state after a successful registration. *)
Definition registered (base len flags : Z) (mr : ibv_mr) (w : W) s : dmem W :=
  let id := dm_next_region_id s in
  let r := mkRegion (mkGA (dm_node_id s) id 0) base len (mr_rkey mr) (mr_lkey mr) flags in
  set_catalog (cat_upsert id (mkEntry base len (mr_rkey mr) flags 1) (dm_catalog s))
    (set_regions (table_with id r (dm_regions s))
       (set_next_region_id (u32 (id + 1)) (set_nic w s))).

Lemma register_region_ok base len flags s mr w :
  base <> 0 -> 0 < len ->
  reg_mr (dm_pd s) base len 7 (dm_nic s) = (Some mr, w) ->
  register_region base len flags s =
  (Ok (dm_next_region_id s), registered base len flags mr w s).
Proof.
  intros Hb Hl Hr. unfold register_region. mrun.
  destruct (Z.eqb_spec base 0); [done|]. destruct (Z.ltb_spec 0 len); [|lia]. cbn [negb].
  change (Z.lor (Z.lor IBV_ACCESS_LOCAL_WRITE IBV_ACCESS_REMOTE_READ) IBV_ACCESS_REMOTE_WRITE)
    with 7. by rewrite Hr.
Qed.

Lemma registered_inv base len flags mr w s :
  0 < base -> 0 < len -> base + len <= 2 ^ 64 -> dm_next_region_id s + 1 < 2 ^ 32 ->
  dm_inv s -> dm_inv (registered base len flags mr w s).
Proof.
  intros Hb Hl Hbl Hn [Hnext Hsize Hslot Hcat].
  assert (u32 (dm_next_region_id s + 1) = dm_next_region_id s + 1) as Hu
    by (apply u32_small; lia).
  constructor; cbn -[table_with cat_upsert Z.pow] in *.
  - rewrite Hu. lia.
  - rewrite Hu. unfold table_with. rewrite length_insert, length_grow. lia.
  - intros i r. rewrite lookup_table_with. repeat case_decide; intros Hr; simplify_eq; auto.
    right. cbn -[Z.pow]. rewrite Z2Nat.id by lia. done.
  - intros i Hi. unfold in_width in Hi.
    rewrite cat_lookup_upsert by (unfold in_width; lia). rewrite lookup_table_with.
    destruct (decide (Z.of_nat i = dm_next_region_id s)) as [He|He].
    + rewrite decide_True by lia. simpl. unfold published. cbn.
      destruct (Z.ltb_spec 0 len); [done|lia].
    + rewrite decide_False by lia. rewrite Hcat by done.
      case_decide; [done|]. rewrite (lookup_ge_None_2 (dm_regions s)) by lia.
      case_decide; done.
Qed.

Lemma unregister_inv rid s :
  in_width 32 rid -> dm_inv s -> dm_inv (unregister_region rid s).2.
Proof.
  intros Hrid [Hnext Hsize Hslot Hcat]. unfold unregister_region. mrun. unfold in_width in Hrid.
  destruct (Z.ltb_spec rid (Z.of_nat (length (dm_regions s)))) as [Hlt|]; [|done].
  constructor; cbn -[cat_remove Z.pow] in *.
  - done.
  - by rewrite length_insert.
  - intros i r Hr. apply list_lookup_insert_Some in Hr as [(_ & <- & _)|[_ Hr]]; eauto.
  - intros i Hi. unfold in_width in Hi.
    rewrite cat_lookup_remove by (unfold in_width; lia).
    destruct (decide (Z.of_nat i = rid)) as [He|He].
    + replace (Z.to_nat rid) with i by lia. rewrite list_lookup_insert_eq by lia. done.
    + rewrite list_lookup_insert_ne by lia. apply Hcat. done.
Qed.
End Registration.

(** ** Properties: registration and resolution *)

(** C20: Registering a buffer of [len] bytes at [base] (with an id left and a
    successful [ibv_reg_mr]) returns the next id, keeps the table and the
    catalog in agreement, and makes exactly the byte offsets below [len] of
    the new region resolve, to [base + off] with [len - off] bytes left; every
    other region of this node resolves as before.  Unregistering makes the
    region unresolvable again. *)
Theorem register_resolve {W} `{!Ibv W} base len flags (s : dmem W) mr w :
  dm_inv s -> 0 < base -> 0 < len -> base + len <= 2 ^ 64 ->
  dm_next_region_id s + 1 < 2 ^ 32 ->
  reg_mr (dm_pd s) base len 7 (dm_nic s) = (Some mr, w) ->
  let id := dm_next_region_id s in
  let '(r, s') := register_region base len flags s in
  r = Ok id /\ dm_inv s' /\
  (forall off, 0 <= off ->
     resolve (mkGA (dm_node_id s) id off) s' =
     if off <? len then mkRes true (base + off) 0 0 (mr_lkey mr) (len - off) else zero_resolution) /\
  (forall id' off, 0 <= id' -> id' <> id ->
     resolve (mkGA (dm_node_id s) id' off) s' = resolve (mkGA (dm_node_id s) id' off) s) /\
  (forall off, resolve (mkGA (dm_node_id s) id off) (unregister_region id s').2 = zero_resolution).
Proof.
  intros Hinv Hb Hl Hbl Hn Hr id.
  rewrite (register_region_ok base len flags s mr w) by (done || lia).
  pose proof (inv_next s Hinv) as Hnext. pose proof (inv_size s Hinv) as Hsize.
  fold id in Hnext, Hsize, Hn.
  split; [done|]. split; [by apply registered_inv|].
  unfold resolve. cbn -[table_with Z.pow unregister_region]. rewrite Z.eqb_refl.
  split; [|split].
  - intros off Hoff. fold id. rewrite lookup_table_with, decide_True by done. cbn.
    destruct (Z.ltb_spec 0 len); [|lia]. cbn [andb].
    destruct (Z.ltb_spec off len); [|done]. by rewrite !u64_small by lia.
  - intros id' off Hid Hne. fold id. rewrite lookup_table_with, decide_False by lia.
    case_decide; [done|]. rewrite (lookup_ge_None_2 (dm_regions s)) by lia.
    case_decide; done.
  - intros off. fold id.
    assert (dm_regions (unregister_region id (registered base len flags mr w s)).2 !! Z.to_nat id
            = Some zero_region) as ->.
    { unfold unregister_region. mrun. cbn -[table_with]. fold id.
      assert (Z.to_nat id < length (table_with id
        (mkRegion (mkGA (dm_node_id s) id 0) base len (mr_rkey mr) (mr_lkey mr) flags)
        (dm_regions s)))%nat as Hlt.
      { unfold table_with. rewrite length_insert, length_grow. lia. }
      destruct (Z.ltb_spec id (Z.of_nat (length (table_with id
        (mkRegion (mkGA (dm_node_id s) id 0) base len (mr_rkey mr) (mr_lkey mr) flags)
        (dm_regions s))))); [|lia].
      cbn -[table_with]. by apply list_lookup_insert_eq. }
    assert (dm_node_id (unregister_region id (registered base len flags mr w s)).2
            = dm_node_id s) as ->.
    { unfold unregister_region. mrun. by case_match. }
    by rewrite Z.eqb_refl.
Qed.

(** A node of the simulated cluster for the witnesses. *)
Definition sim_conn : RdmaConnection := mkConn true 1 2 3 4.
Definition sim_dmem (node : Z) (cq : list (option (list ibv_wc))) (mem : Z -> Z) : dmem SimNic :=
  mkDmem node 3 1 2 3 (replicate 8 (Some sim_conn)) [] 1 empty_catalog
    (mkBuf 4096 8192 []) (mkBuf 65536 kRdmaBufSize []) (mkMr 9 11 22) [] false 1 zero_stats
    mem (mkSim true 10 [] [] [] [] cq []).

Lemma sim_dmem_inv node cq mem : dm_inv (sim_dmem node cq mem).
Proof. constructor; simpl; try lia; done. Qed.

Lemma register_resolve_witness :
  let s := sim_dmem 2 [] (fun _ => 0) in
  let '(r, s') := register_region 10000 500 3 s in
  r = Ok 1 /\ dm_inv s' /\
  (forall off, 0 <= off ->
     resolve (mkGA 2 1 off) s' =
     if off <? 500 then mkRes true (10000 + off) 0 0 11 (500 - off) else zero_resolution) /\
  (forall id' off, 0 <= id' -> id' <> 1 ->
     resolve (mkGA 2 id' off) s' = resolve (mkGA 2 id' off) s) /\
  (forall off, resolve (mkGA 2 1 off) (unregister_region 1 s').2 = zero_resolution).
Proof.
  apply (register_resolve 10000 500 3 (sim_dmem 2 [] (fun _ => 0)) (mkMr 10000 11 22)
           (mkSim true 10 [] [] [] [] [] [])); try lia; [apply sim_dmem_inv| |done].
  vm_compute. done.
Defined.

(** A local put is a bounded copy: when [put] to an address of this node
    succeeds, the target range lies inside a registered region, receives
    exactly the source bytes, and no other byte of memory changes. *)
Lemma put_local_spec {W} `{!Ibv W} target dst src len (s s' : dmem W) id :
  dm_inv s -> ga_node_id dst = dm_node_id s -> wf_ga dst -> 0 < len ->
  dm_put target dst src len s = (Ok id, s') ->
  exists r, dm_regions s !! Z.to_nat (ga_region_id dst) = Some r /\
    let a := rg_local_addr r + ga_offset dst in
    ga_offset dst + len <= rg_length r /\
    dm_mem s' = mem_write (dm_mem s) a (mem_read (dm_mem s) src (Z.to_nat len)).
Proof.
  intros Hinv Hnode (_ & _ & Ho) Hl. unfold in_width in Ho.
  unfold dm_put. mrun. unfold resolve. rewrite Hnode, Z.eqb_refl.
  destruct (dm_regions s !! Z.to_nat (ga_region_id dst)) as [r|] eqn:Er.
  2: { cbn. destruct (Z.leb_spec len 0); [lia|done]. }
  destruct ((0 <? rg_length r) && (ga_offset dst <? rg_length r)) eqn:Eb.
  2: { cbn. destruct (Z.leb_spec len 0); [lia|done]. }
  bool_to_prop. destruct (inv_slot s Hinv _ _ Er) as [->|(_ & _ & Hr1 & Hr2)]; [done|].
  cbn -[Z.pow].
  destruct (target =? dm_node_id s); [|done].
  rewrite !u64_small by lia.
  destruct (Z.leb_spec len (rg_length r - ga_offset dst)); [|done].
  intros Hs. simplify_eq. exists r. split; [done|]. cbn. split; [lia|done].
Qed.

(** ** Remote puts

    What a put relies on: a posted work request is queued at the NIC in
    order.  [accepting] is the case where the send queue is never full. *)
Class NicLog (W : Type) `{!Ibv W} := {
  posted : W -> list (Z * ibv_send_wr);
  posted_send qp wr w w' : post_send_verb qp wr w = (0, w') -> posted w' = posted w ++ [(qp, wr)]
}.

Definition accepting (W : Type) `{!Ibv W} : Prop :=
  forall qp wr (w : W), exists w', post_send_verb qp wr w = (0, w').

(** The work requests [wrs] write [[a, a + len)] piece by piece, in order, each
    piece no longer than the staging buffer. *)
Fixpoint tiles (a len : Z) (wrs : list (Z * ibv_send_wr)) : Prop :=
  match wrs with
  | [] => len = 0
  | (_, wr) :: wrs' => exists sge, sw_sg_list wr = [sge] /\
      sw_opcode wr = IBV_WR_RDMA_WRITE /\ sw_remote_addr wr = a /\
      0 < sge_length sge <= kRdmaBufSize /\ sge_length sge <= len /\
      tiles (a + sge_length sge) (len - sge_length sge) wrs'
  end.

(** The part of the object that transfers never touch. *)
Definition same_setup {W} (s s' : dmem W) : Prop :=
  dm_node_id s' = dm_node_id s /\ dm_regions s' = dm_regions s /\ dm_catalog s' = dm_catalog s /\
  dm_peer_conns s' = dm_peer_conns s /\ dm_staging_buf s' = dm_staging_buf s /\
  dm_staging_mr s' = dm_staging_mr s /\ dm_pending_ops s' = dm_pending_ops s /\
  dm_cq s' = dm_cq s.

#[export] Instance same_setup_preorder {W} : PreOrder (@same_setup W).
Proof.
  split; [intros s; repeat split|].
  intros s1 s2 s3 H1 H2. unfold same_setup in *. destruct_and!. split_and!; congruence.
Qed.

Definition outside (a n x : Z) : Prop := x < a \/ a + n <= x.

Section RemotePut.
Context {W : Type} `{HI : !Ibv W, HN : !NicLog W}.
Context (Hacc : accepting W).
Implicit Types s : dmem W.

(** One chunk: copy into the staging buffer, take an id, post. *)
Lemma put_chunk_step s conn src off len chunk raddr rkey msg (k : Z -> M (dmem W) Z) :
  rc_fns conn = true -> rc_qp conn <> 0 ->
  0 <= off -> 0 < chunk <= kRdmaBufSize -> chunk <= len - off -> 0 <= raddr ->
  raddr + len <= 2 ^ 64 ->
  let buf := dm_staging_buf s in
  exists s1 wr,
    (memcpy (sb_buf buf) (src + off) chunk ;;
     wr_id ← fetch_wr_id;
     post_checked (post_rdma_write (to_sge buf (dm_staging_mr s) 0 chunk)
       (u64 (raddr + off)) rkey wr_id true conn) msg ;; k wr_id) s = k (dm_next_wr_id s) s1 /\
    same_setup s s1 /\
    posted (dm_nic s1) = posted (dm_nic s) ++ [(rc_qp conn, wr)] /\
    (forall l wrs, tiles (raddr + off + chunk) (l - chunk) wrs -> chunk <= l ->
       tiles (raddr + off) l ((rc_qp conn, wr) :: wrs)) /\
    dm_mem s1 = mem_write (dm_mem s) (sb_buf buf) (mem_read (dm_mem s) (src + off) (Z.to_nat chunk)).
Proof.
  intros Hf Hq Ho Hc Hcl Hra Hrl buf.
  destruct (Hacc (rc_qp conn) (mkSendWr (dm_next_wr_id s)
    [to_sge buf (dm_staging_mr s) 0 chunk] IBV_WR_RDMA_WRITE IBV_SEND_SIGNALED 0
    (u64 (raddr + off)) rkey) (dm_nic s)) as [w' Hw'].
  eexists _, _. split_and!.
  - unfold memcpy, fetch_wr_id, post_checked, post_rdma_write, post_wr. mrun.
    rewrite Hf. destruct (Z.eqb_spec (rc_qp conn) 0); [done|]. cbn -[Z.pow mem_write mem_read].
    rewrite Hw'. cbn -[Z.pow mem_write mem_read]. reflexivity.
  - by repeat split.
  - cbn. by rewrite (posted_send _ _ _ _ Hw').
  - intros l wrs Ht Hl. cbn -[Z.pow kRdmaBufSize]. eexists. split_and!; [done..| | | | |].
    + by apply u64_small; lia.
    + cbn. unfold kRdmaBufSize in *. rewrite u32_small; lia.
    + cbn. unfold kRdmaBufSize in *. rewrite u32_small; lia.
    + cbn. unfold kRdmaBufSize in *. rewrite u32_small; lia.
    + cbn -[tiles]. rewrite u32_small by (unfold kRdmaBufSize in *; lia). exact Ht.
  - done.
Qed.

Lemma put_loop_done fuel conn raddr rkey src len last s :
  put_loop fuel conn raddr rkey src len 0 last s = (Ok last, s).
Proof. by destruct fuel. Qed.

Lemma put_loop_spec fuel conn raddr rkey src len rem last s :
  rc_fns conn = true -> rc_qp conn <> 0 ->
  0 <= rem <= len -> rem <= Z.of_nat fuel * kRdmaBufSize -> 0 <= raddr -> raddr + len <= 2 ^ 64 ->
  let buf := sb_buf (dm_staging_buf s) in
  exists id s' wrs,
    put_loop fuel conn raddr rkey src len rem last s = (Ok id, s') /\
    same_setup s s' /\
    posted (dm_nic s') = posted (dm_nic s) ++ wrs /\
    tiles (raddr + (len - rem)) rem wrs /\
    (forall x, outside buf kRdmaBufSize x -> dm_mem s' x = dm_mem s x) /\
    ((forall i, 0 <= i < len -> outside buf kRdmaBufSize (src + i)) -> 0 < rem ->
     dm_mem s' buf = dm_mem s (src + (len - rem) + (rem - 1) / kRdmaBufSize * kRdmaBufSize)).
Proof.
  intros Hf Hq. revert rem last s.
  induction fuel as [|fuel IH]; intros rem last s Hrem Hfuel Hra Hrl buf.
  { assert (rem = 0) as -> by lia. exists last, s, []. simpl. rewrite app_nil_r.
    by split_and!. }
  simpl put_loop. destruct (Z.leb_spec rem 0) as [Hr0|Hr0].
  { assert (rem = 0) as -> by lia. exists last, s, []. simpl. rewrite app_nil_r.
    by split_and!. }
  set (chunk := Z.min rem kRdmaBufSize).
  assert (0 < chunk <= kRdmaBufSize) as Hc by (unfold chunk, kRdmaBufSize; lia).
  destruct (put_chunk_step s conn src (len - rem) len chunk raddr rkey
    "DMEM: chunked post_rdma_write failed"
    (put_loop fuel conn raddr rkey src len (rem - chunk))) as (s1 & wr & Hrun & Hset & Hpost & Htile & Hmem);
    [done|done|lia|done|lia|done|done|].
  destruct (IH (rem - chunk) (dm_next_wr_id s) s1) as (id & s' & wrs & Hrun' & Hset' & Hpost' & Htile' & Hout' & Hlast');
    [lia|unfold chunk, kRdmaBufSize in *; lia|done|done|].
  assert (dm_staging_buf s1 = dm_staging_buf s) as Hbuf by (unfold same_setup in Hset; by destruct_and!).
  rewrite Hbuf in Hout', Hlast'. fold buf in Hout', Hlast'.
  assert (forall x, outside buf kRdmaBufSize x -> dm_mem s1 x = dm_mem s x) as Hout1.
  { intros x Hx. rewrite Hmem. apply mem_write_out. rewrite length_mem_read.
    unfold outside in Hx. fold buf. lia. }
  exists id, s', ((rc_qp conn, wr) :: wrs). split_and!.
  - unfold mbind at 1, M_bind at 1, getS at 1. rewrite Hrun. exact Hrun'.
  - by transitivity s1.
  - rewrite Hpost', Hpost. by rewrite <- app_assoc.
  - apply Htile; [|lia].
    replace (raddr + (len - rem) + chunk) with (raddr + (len - (rem - chunk))) by lia. done.
  - intros x Hx. rewrite Hout' by done. by apply Hout1.
  - intros Hsrc _. destruct (decide (rem <= kRdmaBufSize)) as [Hle|Hgt].
    + assert (chunk = rem) as Hcr by lia.
      assert (s' = s1) as ->.
      { rewrite Hcr, Z.sub_diag, put_loop_done in Hrun'. by simplify_eq. }
      rewrite Z.div_small, Z.mul_0_l, Z.add_0_r by lia.
      rewrite Hmem. fold buf. unfold mem_write. rewrite length_mem_read.
      destruct (Z.leb_spec buf buf); [|lia].
      destruct (Z.ltb_spec buf (buf + Z.of_nat (Z.to_nat chunk))); [|lia]. simpl.
      rewrite Z.sub_diag. unfold mem_read. rewrite list_lookup_fmap, lookup_seq_lt by lia.
      simpl. f_equal. lia.
    + assert (chunk = kRdmaBufSize) as Hck by lia.
      rewrite Hlast' by (done || lia). rewrite Hout1.
      * f_equal. rewrite Hck.
        replace (rem - 1) with (rem - kRdmaBufSize - 1 + 1 * kRdmaBufSize) by lia.
        rewrite Z.div_add by (unfold kRdmaBufSize; lia). lia.
      * replace (src + (len - (rem - chunk)) + (rem - chunk - 1) / kRdmaBufSize * kRdmaBufSize)
          with (src + (len - (rem - chunk) + (rem - chunk - 1) / kRdmaBufSize * kRdmaBufSize)) by lia.
        apply Hsrc. pose proof (Z.div_pos (rem - chunk - 1) kRdmaBufSize).
        pose proof (Z.mul_div_le (rem - chunk - 1) kRdmaBufSize). unfold kRdmaBufSize in *. lia.
Qed.
End RemotePut.

#[export] Instance sim_log : NicLog SimNic.
Proof. refine {| posted := sim_sends |}. intros qp wr w w' H. simpl in H. by simplify_eq. Defined.

(** The log a NIC that accepts every request shows of a put. *)
Definition usable (target : Z) {W} (s : dmem W) (conn : RdmaConnection) : Prop :=
  usable_conn target s = Some conn /\ rc_fns conn = true.

Lemma usable_qp target {W} (s : dmem W) conn : usable target s conn -> rc_qp conn <> 0.
Proof.
  intros [H _]. unfold usable_conn in H.
  repeat case_match; simplify_eq. unfold conn_ok in *.
  match goal with H : negb _ = true |- _ => apply negb_true_iff, Z.eqb_neq in H end. done.
Qed.

Lemma chunk_fuel_enough len : 0 <= len -> len <= Z.of_nat (chunk_fuel len) * kRdmaBufSize.
Proof.
  intros H. unfold chunk_fuel. pose proof (Z.div_mod len kRdmaBufSize).
  pose proof (Z.mod_pos_bound len kRdmaBufSize). pose proof (Z.div_pos len kRdmaBufSize).
  unfold kRdmaBufSize in *. lia.
Qed.


Lemma sim_accepting : accepting SimNic.
Proof. intros qp wr w. eexists. reflexivity. Qed.

Lemma sim_usable node cq mem target :
  0 <= target < 8 -> usable target (sim_dmem node cq mem) sim_conn.
Proof.
  intros H. split; [|done]. unfold usable_conn, sim_dmem. cbn [dm_peer_conns].
  by rewrite lookup_replicate_2 by lia.
Qed.


(** A put longer than the staging buffer reuses the buffer without waiting:
    the queued writes all read the same staging address, and when the call
    returns the first byte there is the one of the last chunk of the source,
    while the first queued write is meant to carry the first.  A NIC that
    executes the queue after the call sends the wrong data. *)
Theorem put_large_overwrites_staging {W} `{!Ibv W, !NicLog W} target raddr rkey src len
    (s : dmem W) conn :
  accepting W -> usable target s conn -> kRdmaBufSize < len -> 0 <= raddr -> raddr + len <= 2 ^ 64 ->
  (forall i, 0 <= i < len -> outside (sb_buf (dm_staging_buf s)) kRdmaBufSize (src + i)) ->
  let '(r, s') := put_chunked target raddr rkey src len s in
  is_ok r = true /\
  dm_mem s' (sb_buf (dm_staging_buf s)) =
  dm_mem s (src + (len - 1) / kRdmaBufSize * kRdmaBufSize).
Proof.
  intros Hacc Hu Hl Hra Hrl Hsrc. pose proof (usable_qp _ _ _ Hu) as Hq. destruct Hu as [Hu Hf].
  unfold put_chunked. unfold mbind at 1, M_bind at 1, getS at 1. cbn beta iota. rewrite Hu.
  destruct (Z.leb_spec len kRdmaBufSize) as [Hle|_]; [lia|].
  assert (0 <= len) by (unfold kRdmaBufSize in *; lia).
  destruct (put_loop_spec Hacc (chunk_fuel len) conn raddr rkey src len len 0 s)
    as (id & s' & wrs & Hrun & _ & _ & _ & _ & Hlast);
    [done|done|lia|by apply chunk_fuel_enough|done|done|].
  rewrite Hrun. split; [done|].
  rewrite Hlast by (done || unfold kRdmaBufSize in *; lia). f_equal. lia.
Qed.

Lemma put_large_overwrites_staging_witness :
  let s := sim_dmem 2 [] (fun x => if x =? 9000000 then 1 else 0) in
  let '(r, s') := put_chunked 1 5000000 77 9000000 (kRdmaBufSize + 1) s in
  is_ok r = true /\
  dm_mem s' (sb_buf (dm_staging_buf s)) =
  dm_mem s (9000000 + (kRdmaBufSize + 1 - 1) / kRdmaBufSize * kRdmaBufSize).
Proof.
  apply (put_large_overwrites_staging 1 5000000 77 9000000 (kRdmaBufSize + 1)
           (sim_dmem 2 [] (fun x => if x =? 9000000 then 1 else 0)) sim_conn);
    [apply sim_accepting|by apply sim_usable|unfold kRdmaBufSize; lia..|].
  intros i Hi. right. unfold kRdmaBufSize. simpl. lia.
Defined.

(** ** Completion tracking *)

Section Completion.
Context {W : Type} `{!Ibv W}.
Implicit Types s : dmem W.

Lemma poll_completion_returns polls wr_id s :
  exists ok w, poll_completion polls wr_id s = (Ok ok, set_nic w s).
Proof.
  revert s. induction polls as [|polls IH]; intros s; simpl.
  - exists false, (dm_nic s). by destruct s.
  - mrun. destruct (poll_cq (dm_cq s) 16 (dm_nic s)) as [[wc|] w]; [|by eexists _, _].
    destruct (scan_completions wr_id wc) as [ok|]; [by eexists _, _|].
    destruct (IH (set_nic w s)) as (ok & w' & ->). by eexists _, _.
Qed.

Lemma pop_done_all last l : Forall (fun op => po_wr_id op <= last) l -> pop_done last l = [].
Proof.
  induction 1 as [|op l Hop _ IH]; [done|]. simpl.
  destruct (Z.leb_spec (po_wr_id op) last); [done|lia].
Qed.

Lemma ids_below_last l op :
  Sorted Z.le (po_wr_id <$> l) -> last l = Some op -> Forall (fun o => po_wr_id o <= po_wr_id op) l.
Proof.
  intros Hs Hl. apply last_Some in Hl as [l' ->].
  apply Sorted_StronglySorted in Hs; [|intros x y z; lia].
  rewrite fmap_app in Hs. apply Forall_app. split; [|by repeat constructor].
  clear -Hs. induction l' as [|o l' IH]; [done|]. simpl in Hs. inversion Hs; subst.
  constructor; [|by apply IH].
  match goal with H : Forall (Z.le _) _ |- _ => rewrite Forall_forall in H; apply H end.
  apply elem_of_app. right. by left.
Qed.
End Completion.

(** [drain_pending] terminates (two rounds of its loop are enough) on the
    queues the manager builds, whose ids increase: it waits for the newest
    operation only, empties the queue when that one is reported successful,
    and otherwise gives up and leaves the queue as it was. *)
Theorem drain_pending_spec {W} `{!Ibv W} fuel polls (s : dmem W) op :
  (2 <= fuel)%nat -> Sorted Z.le (po_wr_id <$> dm_pending_ops s) ->
  last (dm_pending_ops s) = Some op -> po_wr_id op <> 0 ->
  exists ok w, poll_completion polls (po_wr_id op) s = (Ok ok, set_nic w s) /\
  drain_pending fuel polls s =
    (Ok tt, if ok : bool then set_pending [] (set_nic w s) else set_nic w s).
Proof.
  intros Hfuel Hs Hl Hne.
  destruct (poll_completion_returns polls (po_wr_id op) s) as (ok & w & Hp).
  exists ok, w. split; [done|].
  destruct fuel as [|[|fuel]]; [lia|lia|].
  cbn [drain_pending]. unfold mbind at 1, M_bind at 1, getS at 1. cbn beta iota. rewrite Hl.
  destruct (Z.eqb_spec (po_wr_id op) 0); [done|].
  unfold mbind at 1, M_bind at 1. rewrite Hp. destruct ok; [|done]. cbn [negb].
  unfold mbind at 1, M_bind at 1, modS at 1. cbn beta iota.
  unfold mbind at 1, M_bind at 1, getS at 1. cbn -[pop_done last].
  rewrite (pop_done_all _ _ (ids_below_last _ _ Hs Hl)). done.
Qed.

Lemma drain_pending_spec_witness :
  let s := set_pending [mkPending 3 false; mkPending 4 false]
             (sim_dmem 2 [Some [mkWc 3 IBV_WC_SUCCESS IBV_WC_RDMA_WRITE 10]; Some [mkWc 4 IBV_WC_SUCCESS IBV_WC_RDMA_WRITE 10]]
                (fun _ => 0)) in
  exists ok w, poll_completion 5 4 s = (Ok ok, set_nic w s) /\
  drain_pending 2 5 s = (Ok tt, if ok : bool then set_pending [] (set_nic w s) else set_nic w s).
Proof.
  apply (drain_pending_spec 2 5 (set_pending [mkPending 3 false; mkPending 4 false]
     (sim_dmem 2 [Some [mkWc 3 IBV_WC_SUCCESS IBV_WC_RDMA_WRITE 10]; Some [mkWc 4 IBV_WC_SUCCESS IBV_WC_RDMA_WRITE 10]]
        (fun _ => 0))) (mkPending 4 false)); [lia| |done|done].
  repeat constructor; simpl; lia.
Defined.

(** ** Reachable states: nothing opens a peer connection

    A step is one complete operation of the class on a live object; [dm_reach]
    are the states that calls, in any order and with any arguments, reach from
    the constructor. *)
Section Reachable.
Context {W : Type} `{!Ibv W}.

Inductive dm_op : forall A, M (dmem W) A -> Prop :=
  | op_start : dm_op unit dm_start
  | op_shutdown : dm_op unit dm_shutdown
  | op_register b l f : dm_op Z (register_region b l f)
  | op_unregister r : dm_op unit (unregister_region r)
  | op_put t d src l : dm_op Z (dm_put t d src l)
  | op_get p t a dst l : dm_op Z (dm_get p t a dst l)
  | op_put_imm t d pl i : dm_op Z (put_with_imm t d pl i)
  | op_fence t : dm_op Z (dm_fence t)
  | op_poll p id : dm_op bool (poll_completion p id)
  | op_drain f p : dm_op unit (drain_pending f p)
  | op_poller : dm_op unit poller_step.

Inductive dm_reach : dmem W -> Prop :=
  | reach_create node peers depth alloc mem w s w' :
      dm_create node peers depth alloc mem w = (Ok s, w') -> dm_reach s
  | reach_op s A (m : M (dmem W) A) : dm_reach s -> dm_op A m -> dm_reach (m s).2.

Lemma keeps_conns_post post msg : keeps dm_peer_conns (post_checked (W := W) post msg).
Proof. intros s. unfold post_checked. mrun. destruct (post (dm_nic s)) as [[] w]; done. Qed.
Lemma keeps_conns_fetch : keeps dm_peer_conns (fetch_wr_id (W := W)).
Proof. done. Qed.
Lemma keeps_conns_memcpy d src n : keeps dm_peer_conns (memcpy (W := W) d src n).
Proof. done. Qed.
Hint Resolve keeps_conns_post keeps_conns_fetch keeps_conns_memcpy : frame.

Lemma keeps_conns_poll p id : keeps dm_peer_conns (poll_completion (W := W) p id).
Proof.
  intros s. by destruct (poll_completion_returns p id s) as (ok & w & ->).
Qed.
Hint Resolve keeps_conns_poll : frame.

Lemma keeps_conns_put_loop fuel conn ra rk src len rem lst :
  keeps dm_peer_conns (put_loop (W := W) fuel conn ra rk src len rem lst).
Proof. revert rem lst. induction fuel; intros; simpl; keeps_tac. Qed.
Lemma keeps_conns_get_loop fuel p conn ra rk dst len rem lst :
  keeps dm_peer_conns (get_loop (W := W) fuel p conn ra rk dst len rem lst).
Proof. revert rem lst. induction fuel; intros; simpl; keeps_tac. Qed.
Lemma keeps_conns_drain fuel p : keeps dm_peer_conns (drain_pending (W := W) fuel p).
Proof. induction fuel; simpl; keeps_tac. Qed.
Lemma keeps_conns_poller : keeps dm_peer_conns (poller_step (W := W)).
Proof.
  intros s. unfold poller_step. mrun. destruct (dm_running s); [|done]. cbn [negb].
  destruct (poll_cq (dm_cq s) kCqPollBatch (dm_nic s)) as [[wc|] w]; [|done]. cbn [fst snd].
  change (dm_peer_conns s) with (dm_peer_conns (set_nic w s)). generalize (set_nic w s).
  induction wc as [|c l IH]; intros s'; [done|]. simpl. rewrite IH.
  unfold poller_completion. by destruct (wc_ok c).
Qed.
Hint Resolve keeps_conns_put_loop keeps_conns_get_loop keeps_conns_drain keeps_conns_poller : frame.

Lemma dm_op_keeps_conns A (m : M (dmem W) A) : dm_op A m -> keeps dm_peer_conns m.
Proof.
  destruct 1; unfold dm_start, dm_shutdown, register_region, unregister_region, dm_put,
    put_chunked, dm_get, get_chunked, put_with_imm, dm_fence; keeps_tac.
Qed.

Lemma dm_create_conns node peers depth alloc mem (w : W) s w' :
  dm_create node peers depth alloc mem w = (Ok s, w') ->
  dm_peer_conns s = replicate (Z.to_nat MAX_NODES) None.
Proof. unfold dm_create. intros H. repeat (case_match; simplify_eq; try done). Qed.

Lemma reach_conns s : dm_reach s -> dm_peer_conns s = replicate (Z.to_nat MAX_NODES) None.
Proof.
  induction 1 as [|s A m _ IH Hop]; [by eapply dm_create_conns|].
  by rewrite (dm_op_keeps_conns _ _ Hop).
Qed.

Lemma reach_no_conn s t : dm_reach s -> usable_conn t s = None.
Proof.
  intros H. unfold usable_conn. rewrite (reach_conns s H).
  destruct (replicate _ None !! Z.to_nat t) as [o|] eqn:E; [|done].
  apply lookup_replicate in E as [-> _]. done.
Qed.

Lemma reach_get_throws s p t a dst len :
  dm_reach s -> ar_is_local (resolve a s) = false -> exists e, dm_get p t a dst len s = (Throw e, s).
Proof.
  intros H Hl. pose proof (reach_no_conn s t H). unfold dm_get, get_chunked. mrun. rewrite Hl.
  repeat case_match; simplify_eq; eauto; congruence.
Qed.
End Reachable.



(** ** Construction and destruction *)

Section Lifetime.
Context {W : Type} `{HI : !Ibv W, HM : !MrLog W}.

Lemma register_with_ok pd b (w : W) m b' w' :
  register_with pd b w = (Some m, b', w') ->
  sb_registrations b' = sb_registrations b ++ [mr_handle m] /\ mr_handle m <> 0.
Proof.
  unfold register_with. intros H. repeat (case_match; simplify_eq/=; try done).
  split; [done|]. by eapply reg_mr_handle.
Qed.

Lemma buf_allocate_regs alloc n b (w : W) b' w' :
  buf_allocate alloc n b w = (b', w') -> sb_registrations b' = [].
Proof. unfold buf_allocate. intros H. by repeat case_match; simplify_eq/=. Qed.

Lemma dm_create_regs node peers depth alloc mem (w : W) s w' :
  dm_create node peers depth alloc mem w = (Ok s, w') ->
  sb_registrations (dm_staging_buf s) = [mr_handle (dm_staging_mr s)] /\
  mr_handle (dm_staging_mr s) <> 0 /\
  exists c, sb_registrations (dm_catalog_buf s) = [c] /\ c <> 0.
Proof.
  unfold dm_create. intros H. repeat (case_match; simplify_eq/=; try done).
  repeat match goal with
  | H : register_with _ _ _ = (Some _, _, _) |- _ => apply register_with_ok in H as [? ?]
  | H : buf_allocate _ _ _ _ = _ |- _ => apply buf_allocate_regs in H
  end.
  cbn [dm_staging_buf dm_staging_mr dm_catalog_buf].
  repeat match goal with H : sb_registrations _ = [] |- _ => rewrite H in *; clear H end.
  split_and!; [done|done|]. eexists. split; [eassumption|done].
Qed.

Lemma cleanup_one h b (w : W) :
  sb_registrations b = [h] -> h <> 0 -> (ibv_load w).1 = true ->
  deregs (buf_cleanup b w).2 = deregs w ++ [h] /\ (ibv_load (buf_cleanup b w).2).1 = true.
Proof.
  intros Hb Hh Hl. unfold buf_cleanup. rewrite Hb.
  pose proof (loaded_load w) as Hll. destruct (ibv_load w) as [fns w1] eqn:E. simpl in Hl, Hll. subst fns.
  simpl. destruct (Z.eqb_spec h 0); [done|]. rewrite deregs_dereg, loaded_dereg, Hll.
  by rewrite (deregs_load _ _ _ E).
Qed.
End Lifetime.

(** The destructor of the manager deregisters its own two memory regions
    twice each: [staging_mr_] and [catalog_mr_] are released directly and then
    once more by the buffers' own [cleanup], which still lists them. *)
Theorem dm_destroy_deregisters_twice {W} `{!Ibv W, !MrLog W} node peers depth alloc mem (w : W) s w' :
  dm_create node peers depth alloc mem w = (Ok s, w') ->
  (ibv_load (dm_nic s)).1 = true ->
  exists c, c <> 0 /\ mr_handle (dm_staging_mr s) <> 0 /\
    deregs (dm_destroy s) =
    deregs (dm_nic s) ++ [mr_handle (dm_staging_mr s); mr_handle (dm_staging_mr s); c; c].
Proof.
  intros Hc Hl. destruct (dm_create_regs _ _ _ _ _ _ _ _ Hc) as (Hs & Hs0 & c & Hcr & Hc0).
  exists c. split; [done|]. split; [done|]. unfold dm_destroy.
  destruct (Z.eqb_spec (mr_handle (dm_staging_mr s)) 0); [done|].
  set (h := mr_handle (dm_staging_mr s)) in *.
  destruct (cleanup_one h (dm_staging_buf s) (dereg_mr h (dm_nic s)) Hs Hs0) as [H1 H2];
    [by rewrite loaded_dereg|].
  destruct (buf_cleanup (dm_staging_buf s) (dereg_mr h (dm_nic s))) as [b1 w1]. simpl in H1, H2.
  rewrite Hcr. change (default 0 (last [c])) with c. destruct (Z.eqb_spec c 0); [done|].
  destruct (cleanup_one c (dm_catalog_buf s) (dereg_mr c w1) Hcr Hc0) as [H3 _];
    [by rewrite loaded_dereg|].
  destruct (buf_cleanup (dm_catalog_buf s) (dereg_mr c w1)) as [b2 w2]. simpl in H3.
  assert (deregs w2 = deregs (dm_nic s) ++ [h; h; c; c]) as Hw2.
  { rewrite H3, deregs_dereg, H1, deregs_dereg. by rewrite <- !app_assoc. }
  rewrite <- Hw2. by repeat case_match; rewrite ?deregs_ctx, ?deregs_pd, ?deregs_cq.
Qed.

Lemma dm_destroy_deregisters_twice_witness :
  exists s : dmem SimNic,
    (dm_create 2 3 64 (fun _ => 4096) (fun _ => 0) (mkSim true 10 [] [] [] [] [] [])).1 = Ok s /\
    exists c, c <> 0 /\ mr_handle (dm_staging_mr s) <> 0 /\
      deregs (dm_destroy s) =
      deregs (dm_nic s) ++ [mr_handle (dm_staging_mr s); mr_handle (dm_staging_mr s); c; c].
Proof.
  eexists. split; [vm_compute; reflexivity|].
  eapply (dm_destroy_deregisters_twice 2 3 64 (fun _ => 4096) (fun _ => 0)
    (mkSim true 10 [] [] [] [] [] [])); [vm_compute; reflexivity|done].
Defined.
