(* ===== verification/Coherence.v ===== *)
(** * The coherence protocol ([csrc/coherence])

    The message format and page arithmetic ([CoherenceMessage.hpp]), the
    per-page directory ([CoherenceDirectory]) and the protocol object
    ([CoherenceProtocol]): message handlers, acquire, release, fence, barrier
    and the local page cache.  The protocol is written against the interface
    [DmemIf] of the distributed memory manager; [dmem_if] is the instance by
    the manager of [Dmem], [log_if] one that records every call. *)
From S2P Require Import Prelude Addr Catalog Rdma Dmem.
Open Scope Z_scope.

(** ** Messages and pages *)

Inductive CoherenceOp :=
  | READ_REQ | READ_REPLY | READ_REPLY_DIRTY
  | EXCLUSIVE_REQ | EXCLUSIVE_GRANT | EXCLUSIVE_DENY
  | INVALIDATE | INVAL_ACK
  | WRITEBACK_REQ | WRITEBACK_DATA | WRITEBACK_ACK
  | BARRIER_ENTER | BARRIER_LEAVE.

#[export] Instance CoherenceOp_eq_dec : EqDecision CoherenceOp.
Proof. solve_decision. Defined.

(** The enumerators' values, which travel as immediate data. *)
Definition op_code (op : CoherenceOp) : Z :=
  match op with
  | READ_REQ => 0x3001 | READ_REPLY => 0x3002 | READ_REPLY_DIRTY => 0x3003
  | EXCLUSIVE_REQ => 0x4001 | EXCLUSIVE_GRANT => 0x4002 | EXCLUSIVE_DENY => 0x4003
  | INVALIDATE => 0x1001 | INVAL_ACK => 0x1002
  | WRITEBACK_REQ => 0x2001 | WRITEBACK_DATA => 0x2002 | WRITEBACK_ACK => 0x2003
  | BARRIER_ENTER => 0x5001 | BARRIER_LEAVE => 0x5002
  end.

Record CoherenceMessage := mkMsg {
  m_op : CoherenceOp;
  m_page_addr : GlobalAddress;
  m_epoch : Z;       (* uint64_t *)
  m_sender_seq : Z   (* uint64_t *)
}.

#[export] Instance CoherenceMessage_eq_dec : EqDecision CoherenceMessage.
Proof. solve_decision. Defined.

Definition zero_addr : GlobalAddress := mkGA 0 0 0.

(** [sizeof(CoherenceMessage)] and the object representation on the target
    (natural alignment; the padding is written as zero). *)
Definition MSG_SIZE : nat := 40.
Definition msg_bytes (m : CoherenceMessage) : list Z :=
  let b := replicate MSG_SIZE 0 in
  let b := list_inserts 0 (le_bytes 4 (op_code (m_op m))) b in
  let b := list_inserts 8 (le_bytes 2 (ga_node_id (m_page_addr m))) b in
  let b := list_inserts 12 (le_bytes 4 (ga_region_id (m_page_addr m))) b in
  let b := list_inserts 16 (le_bytes 8 (ga_offset (m_page_addr m))) b in
  let b := list_inserts 24 (le_bytes 8 (m_epoch m)) b in
  list_inserts 32 (le_bytes 8 (m_sender_seq m)) b.

Definition COHERENCE_PAGE_SIZE : Z := 64 * 1024.
Definition COHERENCE_MSG_BUF_SIZE : Z := COHERENCE_PAGE_SIZE.

Definition page_align_down (offset : Z) : Z :=
  Z.land offset (u64 (Z.lnot (COHERENCE_PAGE_SIZE - 1))).

Definition page_index (offset : Z) : Z := offset / COHERENCE_PAGE_SIZE.

(** ** The directory *)

Inductive CoherenceState := UNCACHED | SHARED | EXCLUSIVE.

#[export] Instance CoherenceState_eq_dec : EqDecision CoherenceState.
Proof. solve_decision. Defined.

Definition state_eqb (a b : CoherenceState) : bool :=
  match a, b with
  | UNCACHED, UNCACHED | SHARED, SHARED | EXCLUSIVE, EXCLUSIVE => true
  | _, _ => false
  end.

Record DirectoryEntry := mkDir {
  d_state : CoherenceState;
  d_sharers : Z;          (* uint8_t bitmask *)
  d_exclusive_owner : Z;  (* uint8_t *)
  d_epoch : Z             (* uint64_t *)
}.

Definition new_entry : DirectoryEntry := mkDir UNCACHED 0 0 0.

Definition has_sharer (node_id : Z) (e : DirectoryEntry) : bool :=
  negb (Z.land (d_sharers e) (Z.shiftl 1 node_id) =? 0).
Definition add_sharer (node_id : Z) (e : DirectoryEntry) : DirectoryEntry :=
  mkDir (d_state e) (u8 (Z.lor (d_sharers e) (Z.shiftl 1 node_id))) (d_exclusive_owner e) (d_epoch e).
Definition remove_sharer (node_id : Z) (e : DirectoryEntry) : DirectoryEntry :=
  mkDir (d_state e) (u8 (Z.land (d_sharers e) (Z.lnot (Z.shiftl 1 node_id))))
    (d_exclusive_owner e) (d_epoch e).

(** [__builtin_popcount] of the 8-bit mask. *)
Definition sharer_count (e : DirectoryEntry) : nat :=
  length (filter (fun i => Z.testbit (d_sharers e) (Z.of_nat i) = true) (seq 0 8)).

Definition clear_all_sharers (e : DirectoryEntry) : DirectoryEntry :=
  mkDir (d_state e) 0 0 (d_epoch e).

Definition set_state (st : CoherenceState) (e : DirectoryEntry) : DirectoryEntry :=
  mkDir st (d_sharers e) (d_exclusive_owner e) (d_epoch e).
Definition set_owner (o : Z) (e : DirectoryEntry) : DirectoryEntry :=
  mkDir (d_state e) (d_sharers e) (u8 o) (d_epoch e).
Definition bump_epoch (e : DirectoryEntry) : DirectoryEntry :=
  mkDir (d_state e) (d_sharers e) (d_exclusive_owner e) (u64 (d_epoch e + 1)).

Abbreviation directory := (gmap Z DirectoryEntry).

(** [(region_id << 32) | (page_idx & 0xFFFFFFFF)]. *)
Definition dir_key (region_id page_idx : Z) : Z :=
  Z.lor (u64 (Z.shiftl region_id 32)) (Z.land page_idx 0xFFFFFFFF).

(** [entries_[key]]: the entry, default-constructed when absent. *)
Definition get_or_create (region_id page_idx : Z) (d : directory) : DirectoryEntry * directory :=
  let key := dir_key region_id page_idx in
  match d !! key with
  | Some e => (e, d)
  | None => (new_entry, <[key := new_entry]> d)
  end.

Definition dir_find (region_id page_idx : Z) (d : directory) : option DirectoryEntry :=
  d !! dir_key region_id page_idx.

Definition dir_remove_region (region_id : Z) (d : directory) : directory :=
  let prefix := u64 (Z.shiftl region_id 32) in
  filter (fun kv => Z.land kv.1 0xFFFFFFFF00000000 <> prefix) d.

Definition page_count (d : directory) : nat := size d.

(** ** The interface of the memory manager *)

Class DmemIf (D : Type) := {
  if_register : Z -> Z -> Z -> M D Z;                        (* addr length flags *)
  if_resolve : GlobalAddress -> D -> AddrResolution;
  if_put : Z -> GlobalAddress -> Z -> Z -> M D Z;            (* target dst src length *)
  if_put_with_imm : Z -> GlobalAddress -> list Z -> Z -> M D Z;
  if_fence : Z -> M D Z;
  if_drain : M D unit
}.

(** ** The protocol object *)

Record CachedPage := mkCached {
  cp_gaddr : GlobalAddress;
  cp_local_state : CoherenceState;
  cp_epoch : Z;
  cp_dirty : bool
}.

Record MsgBuf := mkMsgBuf { mb_local_addr : Z; mb_region_id : Z; mb_lkey : Z }.

Record coherence (D : Type) := mkCoh {
  co_node_id : Z;      (* uint16_t *)
  co_is_head : bool;
  co_num_nodes : Z;    (* int *)
  co_dmem : D;
  co_msg_bufs : gmap Z MsgBuf;
  co_directory : directory;
  co_local_cache : gmap Z CachedPage;
  co_global_epoch : Z; (* atomic uint64_t *)
  co_running : bool;
  co_barrier_count : Z (* atomic uint32_t *)
}.
Arguments mkCoh {D}. Arguments co_node_id {D}. Arguments co_is_head {D}.
Arguments co_num_nodes {D}. Arguments co_dmem {D}. Arguments co_msg_bufs {D}.
Arguments co_directory {D}. Arguments co_local_cache {D}. Arguments co_global_epoch {D}.
Arguments co_running {D}. Arguments co_barrier_count {D}.

Section Setters.
Context {D : Type}.
Implicit Types s : coherence D.
Definition set_co_dmem d s : coherence D :=
  mkCoh (co_node_id s) (co_is_head s) (co_num_nodes s) d (co_msg_bufs s) (co_directory s)
    (co_local_cache s) (co_global_epoch s) (co_running s) (co_barrier_count s).
Definition set_msg_bufs b s : coherence D :=
  mkCoh (co_node_id s) (co_is_head s) (co_num_nodes s) (co_dmem s) b (co_directory s)
    (co_local_cache s) (co_global_epoch s) (co_running s) (co_barrier_count s).
Definition set_directory d s : coherence D :=
  mkCoh (co_node_id s) (co_is_head s) (co_num_nodes s) (co_dmem s) (co_msg_bufs s) d
    (co_local_cache s) (co_global_epoch s) (co_running s) (co_barrier_count s).
Definition set_local_cache c s : coherence D :=
  mkCoh (co_node_id s) (co_is_head s) (co_num_nodes s) (co_dmem s) (co_msg_bufs s)
    (co_directory s) c (co_global_epoch s) (co_running s) (co_barrier_count s).
Definition set_global_epoch e s : coherence D :=
  mkCoh (co_node_id s) (co_is_head s) (co_num_nodes s) (co_dmem s) (co_msg_bufs s)
    (co_directory s) (co_local_cache s) e (co_running s) (co_barrier_count s).
Definition set_co_running r s : coherence D :=
  mkCoh (co_node_id s) (co_is_head s) (co_num_nodes s) (co_dmem s) (co_msg_bufs s)
    (co_directory s) (co_local_cache s) (co_global_epoch s) r (co_barrier_count s).
Definition set_barrier_count n s : coherence D :=
  mkCoh (co_node_id s) (co_is_head s) (co_num_nodes s) (co_dmem s) (co_msg_bufs s)
    (co_directory s) (co_local_cache s) (co_global_epoch s) (co_running s) n.
End Setters.

Section Protocol.
Context {D : Type} `{!DmemIf D}.
Implicit Types s : coherence D.

Definition coh_create (node_id : Z) (is_head : bool) (num_nodes : Z) (d : D) : coherence D :=
  mkCoh node_id is_head num_nodes d ∅ ∅ ∅ 0 false 0.

(** A call on [dmem_]. *)
Definition on_dmem {A} (m : M D A) : M (coherence D) A := fun s =>
  let '(r, d) := m (co_dmem s) in (r, set_co_dmem d s).

(** [global_epoch_.fetch_add(1)]. *)
Definition fetch_epoch : M (coherence D) Z :=
  e ← askS co_global_epoch; modS (set_global_epoch (u64 (e + 1))) ;; mret e.

(** The loop [for (i = 0; i < num_nodes_; i++) if (i == node_id_) continue; ...]. *)
Definition peers s : list Z :=
  filter (fun i => i <> co_node_id s) (Z.of_nat <$> seq 0 (Z.to_nat (co_num_nodes s))).

(** One message buffer of [start]; [new_buf] is what [make_unique] returns. *)
Definition start_peer (new_buf : Z -> Z) (i : Z) : M (coherence D) unit :=
  s ← getS;
  let addr := new_buf i in
  region_id ← on_dmem (if_register addr COHERENCE_MSG_BUF_SIZE (Z.lor READABLE WRITABLE));
  res ← askS (fun s => if_resolve (mkGA (co_node_id s) region_id 0) (co_dmem s));
  modS (fun s => set_msg_bufs
    (<[u16 i := mkMsgBuf addr region_id (ar_local_lkey res)]> (co_msg_bufs s)) s).

Definition co_start (new_buf : Z -> Z) : M (coherence D) unit :=
  s ← getS;
  if co_running s then mret tt else
  modS (set_co_running true) ;; forM (peers s) (start_peer new_buf).

Definition co_shutdown : M (coherence D) unit :=
  s ← getS; if co_running s then modS (set_co_running false) else mret tt.

Definition send_message (target : Z) (msg : CoherenceMessage) : M (coherence D) unit :=
  s ← getS;
  match co_msg_bufs s !! target with
  | None => throw (MCCLError "Coherence: no message buffer for node ")
  | Some mb =>
    _ ← on_dmem (if_put_with_imm target (mkGA target (mb_region_id mb) 0) (msg_bytes msg)
                   (op_code (m_op msg)));
    mret tt
  end.

Definition send_message_with_data (target : Z) (op : CoherenceOp) (page : GlobalAddress)
    (epoch : Z) : M (coherence D) unit :=
  seq ← askS co_global_epoch; send_message target (mkMsg op page epoch seq).

(** *** Local cache *)

Definition find_cached (page : GlobalAddress) s : option CachedPage :=
  co_local_cache s !! ga_pack page.

Definition track_page (page : GlobalAddress) (st : CoherenceState) (epoch : Z) : M (coherence D) unit :=
  modS (fun s => set_local_cache
    (<[ga_pack page := mkCached page st epoch false]> (co_local_cache s)) s).

Definition untrack_page (page : GlobalAddress) : M (coherence D) unit :=
  modS (fun s => set_local_cache (delete (ga_pack page) (co_local_cache s)) s).

(** *** Synchronization primitives *)

Definition co_acquire : M (coherence D) unit :=
  on_dmem if_drain ;; _ ← fetch_epoch; mret tt.

(** One cached page of [release]. *)
Definition release_page (key : Z) : M (coherence D) unit :=
  s ← getS;
  match co_local_cache s !! key with
  | None => mret tt
  | Some page =>
    if cp_dirty page && state_eqb (cp_local_state page) EXCLUSIVE then
      let g := cp_gaddr page in
      _ ← on_dmem (if_put (ga_node_id g) g (ar_local_ptr (if_resolve g (co_dmem s)))
                     COHERENCE_PAGE_SIZE);
      e ← fetch_epoch;
      send_message (ga_node_id g) (mkMsg WRITEBACK_DATA g e 0) ;;
      modS (fun s => set_local_cache
        (<[key := mkCached g SHARED (cp_epoch page) false]> (co_local_cache s)) s)
    else mret tt
  end.

(** [release], the cache being visited in the order [it]. *)
Definition co_release (it : list Z) : M (coherence D) unit :=
  forM it release_page ;; on_dmem if_drain ;; _ ← fetch_epoch; mret tt.

Definition co_fence : M (coherence D) unit :=
  s ← getS;
  forM (peers s) (fun i => _ ← on_dmem (if_fence i); mret tt) ;;
  on_dmem if_drain ;; _ ← fetch_epoch; mret tt.

(** [while (cond) yield();]: [env] is what the other threads do between two
    tests; [false] when the loop is still spinning after all of it. *)
Fixpoint spin (cond : coherence D -> bool) (env : list (M (coherence D) unit))
    : M (coherence D) bool :=
  s ← getS;
  if negb (cond s) then mret true else
  match env with
  | [] => mret false
  | e :: env' => (fun s => spin cond env' (e s).2)
  end.

Definition head_waits s : bool := co_barrier_count s <? u32 (co_num_nodes s - 1).

Definition barrier_all (env : list (M (coherence D) unit)) : M (coherence D) bool :=
  s ← getS;
  if co_is_head s then
    through ← spin head_waits env;
    if negb through then mret false else
    e ← fetch_epoch;
    forM (peers s) (fun i => send_message (u16 i) (mkMsg BARRIER_LEAVE zero_addr e 0)) ;;
    modS (set_barrier_count 0) ;;
    mret true
  else
    e ← fetch_epoch;
    send_message 0 (mkMsg BARRIER_ENTER zero_addr e 0) ;;
    spin (fun s => co_global_epoch s <=? u64 (e + 1)) env.

(** *** Pages *)

Definition page_down (page : GlobalAddress) : GlobalAddress :=
  mkGA (ga_node_id page) (ga_region_id page) (page_align_down (ga_offset page)).

Definition read_page (page : GlobalAddress) (write : bool) : M (coherence D) unit :=
  let page := page_down page in
  s ← getS;
  let request :=
    send_message (ga_node_id page)
      (mkMsg (if write then EXCLUSIVE_REQ else READ_REQ) page (co_global_epoch s) 0) in
  match find_cached page s with
  | Some cached =>
    if write && state_eqb (cp_local_state cached) SHARED then request
    else if negb write || state_eqb (cp_local_state cached) EXCLUSIVE then mret tt
    else request
  | None => request
  end.

Definition write_page_done (page : GlobalAddress) : M (coherence D) unit :=
  let page := page_down page in
  s ← getS;
  match find_cached page s with
  | Some c =>
    if state_eqb (cp_local_state c) EXCLUSIVE then
      modS (fun s => set_local_cache
        (<[ga_pack page := mkCached (cp_gaddr c) (cp_local_state c) (cp_epoch c) true]>
           (co_local_cache s)) s)
    else mret tt
  | None => mret tt
  end.

(** *** The message handler *)

(** A reference to the directory entry of a page: read it, creating it, and
    update it in place. *)
Definition dir_ref (region_id page_idx : Z) : M (coherence D) DirectoryEntry := fun s =>
  let '(e, d) := get_or_create region_id page_idx (co_directory s) in
  (Ok e, set_directory d s).
Definition dir_upd (region_id page_idx : Z) (f : DirectoryEntry -> DirectoryEntry)
    : M (coherence D) unit :=
  modS (fun s => set_directory
    (let '(e, d) := get_or_create region_id page_idx (co_directory s) in
     <[dir_key region_id page_idx := f e]> d) s).

Definition invalidate_sharers (region_id page_idx : Z) : M (coherence D) unit :=
  entry ← dir_ref region_id page_idx;
  s ← getS;
  let inv := mkMsg INVALIDATE zero_addr (d_epoch entry) 0 in
  forM (peers s) (fun i => if has_sharer (u16 i) entry then send_message (u16 i) inv else mret tt).

Definition handle_read_req (msg : CoherenceMessage) (sender : Z) : M (coherence D) unit :=
  let region_id := ga_region_id (m_page_addr msg) in
  let page_idx := page_index (ga_offset (m_page_addr msg)) in
  entry ← dir_ref region_id page_idx;
  (if state_eqb (d_state entry) EXCLUSIVE then
     send_message (d_exclusive_owner entry) (mkMsg WRITEBACK_REQ (m_page_addr msg) (m_epoch msg) 0)
   else mret tt) ;;
  dir_upd region_id page_idx (add_sharer sender) ;;
  (if state_eqb (d_state entry) UNCACHED
   then dir_upd region_id page_idx (set_state SHARED) else mret tt) ;;
  dir_upd region_id page_idx bump_epoch ;;
  entry ← dir_ref region_id page_idx;
  send_message sender
    (mkMsg (if state_eqb (d_state entry) EXCLUSIVE then READ_REPLY_DIRTY else READ_REPLY)
       (m_page_addr msg) (d_epoch entry) 0).

Definition handle_exclusive_req (msg : CoherenceMessage) (sender : Z) : M (coherence D) unit :=
  let region_id := ga_region_id (m_page_addr msg) in
  let page_idx := page_index (ga_offset (m_page_addr msg)) in
  entry ← dir_ref region_id page_idx;
  (if (0 <? sharer_count entry)%nat then invalidate_sharers region_id page_idx else mret tt) ;;
  (if state_eqb (d_state entry) EXCLUSIVE && negb (d_exclusive_owner entry =? sender) then
     send_message (d_exclusive_owner entry) (mkMsg WRITEBACK_REQ (m_page_addr msg) (m_epoch msg) 0)
   else mret tt) ;;
  dir_upd region_id page_idx (set_state EXCLUSIVE) ;;
  dir_upd region_id page_idx (set_owner sender) ;;
  dir_upd region_id page_idx clear_all_sharers ;;
  dir_upd region_id page_idx (add_sharer sender) ;;
  dir_upd region_id page_idx bump_epoch ;;
  entry ← dir_ref region_id page_idx;
  send_message sender (mkMsg EXCLUSIVE_GRANT (m_page_addr msg) (d_epoch entry) 0).

Definition handle_writeback_data (msg : CoherenceMessage) : M (coherence D) unit :=
  let region_id := ga_region_id (m_page_addr msg) in
  let page_idx := page_index (ga_offset (m_page_addr msg)) in
  dir_upd region_id page_idx (set_state UNCACHED) ;;
  dir_upd region_id page_idx bump_epoch.

Definition handle_barrier_enter : M (coherence D) unit :=
  n ← askS co_barrier_count;
  modS (set_barrier_count (u32 (n + 1))) ;;
  s ← getS;
  let count := u32 (n + 1) in
  if u32 (co_num_nodes s - 1) <=? count then
    e ← fetch_epoch;
    forM (peers s) (fun i => send_message (u16 i) (mkMsg BARRIER_LEAVE zero_addr e 0)) ;;
    modS (set_barrier_count 0)
  else mret tt.

Definition handle_message (msg : CoherenceMessage) (sender : Z) : M (coherence D) unit :=
  match m_op msg with
  | READ_REQ => handle_read_req msg sender
  | EXCLUSIVE_REQ => handle_exclusive_req msg sender
  | WRITEBACK_DATA => handle_writeback_data msg
  | INVAL_ACK => mret tt
  | BARRIER_ENTER => handle_barrier_enter
  | BARRIER_LEAVE => _ ← fetch_epoch; mret tt
  | _ => mret tt
  end.
End Protocol.

(** ** Instances of the interface *)

(** The manager of [Dmem]; [polls] polls fit before the deadline of a wait. *)
#[export] Instance dmem_if {W} `{!Ibv W} (polls : nat) : DmemIf (dmem W) := {
  if_register := register_region;
  if_resolve := resolve;
  if_put := dm_put;
  if_put_with_imm := put_with_imm;
  if_fence := dm_fence;
  if_drain := fun s => drain_pending (2 + length (dm_pending_ops s)) polls s
}.

(** A memory manager that records what it is asked to do and always
    succeeds. *)
Inductive dmem_call :=
  | CRegister (addr len flags : Z)
  | CPut (target : Z) (dst : GlobalAddress) (src len : Z)
  | CSend (target : Z) (dst : GlobalAddress) (payload : list Z) (imm : Z)
  | CFence (target : Z)
  | CDrain.

Definition dlog := list dmem_call.

Definition record {A} (c : dmem_call) (a : A) : M dlog A := fun l => (Ok a, l ++ [c]).

#[export] Instance log_if : DmemIf dlog := {
  if_register a n f := fun l => record (CRegister a n f) (Z.of_nat (S (length l))) l;
  if_resolve _ _ := zero_resolution;
  if_put t d src n := record (CPut t d src n) 0;
  if_put_with_imm t d p i := record (CSend t d p i) 0;
  if_fence t := record (CFence t) 0;
  if_drain := record CDrain tt
}.

(** ** What the protocol relies on

    [sent] observes the messages a manager has accepted, in order; a call that
    throws accepts nothing.  [reliable]: every message is accepted. *)
Class DmemSends (D : Type) `{!DmemIf D} := {
  sent : D -> list (Z * GlobalAddress * list Z * Z);
  sent_put_imm t a p i d r d' : if_put_with_imm t a p i d = (r, d') ->
    sent d' = sent d ++ (if is_ok r then [(t, a, p, i)] else [])
}.

Definition reliable (D : Type) `{!DmemIf D} : Prop :=
  forall t a p i (d : D), exists x d', if_put_with_imm t a p i d = (Ok x, d').

Definition log_sent (l : dlog) : list (Z * GlobalAddress * list Z * Z) :=
  omap (fun c => match c with CSend t a p i => Some (t, a, p, i) | _ => None end) l.

#[export] Instance log_sends : DmemSends dlog.
Proof.
  refine {| sent := log_sent |}. intros t a p i d r d' H.
  cbn in H. unfold record in H. simplify_eq. unfold log_sent. by rewrite omap_app.
Defined.

Lemma log_reliable : reliable dlog.
Proof. intros t a p i d. by eexists _, _. Qed.

(** ** Sending *)

Section Sending.
Context {D : Type} `{HI : !DmemIf D, HS : !DmemSends D}.
Implicit Types s : coherence D.

(** What a message to [t] puts on the wire. *)
Definition wire s (t : Z) (m : CoherenceMessage) : Z * GlobalAddress * list Z * Z :=
  (t, mkGA t (default 0 (mb_region_id <$> co_msg_bufs s !! t)) 0, msg_bytes m, op_code (m_op m)).

(** Every peer has a message buffer. *)
Definition has_bufs s : Prop := forall i, i ∈ peers s -> is_Some (co_msg_bufs s !! u16 i).

Lemma send_message_ok s t m :
  reliable D -> is_Some (co_msg_bufs s !! t) ->
  exists d', send_message t m s = (Ok tt, set_co_dmem d' s) /\
             sent d' = sent (co_dmem s) ++ [wire s t m].
Proof.
  intros Hr [mb Hmb]. unfold send_message, on_dmem, wire. mrun. rewrite Hmb.
  destruct (Hr t (mkGA t (mb_region_id mb) 0) (msg_bytes m) (op_code (m_op m)) (co_dmem s))
    as (x & d' & Hx). rewrite Hx. exists d'. split; [done|].
  by rewrite (sent_put_imm _ _ _ _ _ _ _ Hx).
Qed.

Lemma send_message_nobuf s t m :
  co_msg_bufs s !! t = None ->
  send_message t m s = (Throw (MCCLError "Coherence: no message buffer for node "), s).
Proof. intros H. unfold send_message. mrun. by rewrite H. Qed.

(** A loop that sends to the members of [l] that pass [p]. *)
Lemma broadcast_ok (p : Z -> bool) m (l : list Z) s :
  reliable D -> (forall i, i ∈ l -> p i = true -> is_Some (co_msg_bufs s !! u16 i)) ->
  exists d', forM l (fun i => if p i then send_message (u16 i) m else mret tt) s
               = (Ok tt, set_co_dmem d' s) /\
    sent d' = sent (co_dmem s) ++
      ((fun i => wire s (u16 i) m) <$> filter (fun i => p i = true) l).
Proof.
  intros Hr. revert s. induction l as [|i l IH]; intros s Hb.
  { exists (co_dmem s). split; [by destruct s|]. simpl. by rewrite app_nil_r. }
  simpl forM. destruct (p i) eqn:Hp.
  - destruct (send_message_ok s (u16 i) m Hr) as (d1 & H1 & Hs1); [by apply Hb; [left|]|].
    rewrite (bind_ok _ _ _ _ _ H1).
    destruct (IH (set_co_dmem d1 s)) as (d2 & H2 & Hs2); [intros j Hj; apply Hb; by right|].
    exists d2. split; [exact H2|]. rewrite Hs2. cbn [co_dmem set_co_dmem]. rewrite Hs1.
    rewrite filter_cons_True by done. by rewrite <- app_assoc.
  - rewrite (bind_ok _ _ _ tt s) by done. rewrite filter_cons_False by congruence.
    apply IH. intros j Hj. apply Hb. by right.
Qed.

Lemma broadcast_all_ok m s :
  reliable D -> has_bufs s ->
  exists d', forM (peers s) (fun i => send_message (u16 i) m) s = (Ok tt, set_co_dmem d' s) /\
    sent d' = sent (co_dmem s) ++ ((fun i => wire s (u16 i) m) <$> peers s).
Proof.
  intros Hr Hb. destruct (broadcast_ok (fun _ => true) m (peers s) s Hr) as (d' & H & Hs).
  { intros i Hi _. by apply Hb. }
  exists d'. split; [exact H|]. rewrite Hs. do 2 f_equal.
  clear. induction (peers s) as [|i l IH]; [done|].
  rewrite filter_cons_True by done. by rewrite IH.
Qed.
End Sending.

(** ** The directory entry of a page *)

Section Entries.
Context {D : Type}.
Implicit Types s : coherence D.

Definition entry_of (r p : Z) s : DirectoryEntry :=
  default new_entry (co_directory s !! dir_key r p).

Definition put_entry (r p : Z) (e : DirectoryEntry) s : coherence D :=
  set_directory (<[dir_key r p := e]> (co_directory s)) s.

Lemma entry_put r p e s : entry_of r p (put_entry r p e s) = e.
Proof. unfold entry_of, put_entry, set_directory. cbn [co_directory]. by rewrite lookup_insert_eq. Qed.

Lemma put_put r p e e' s : put_entry r p e' (put_entry r p e s) = put_entry r p e' s.
Proof. unfold put_entry, set_directory. cbn [co_directory]. by rewrite insert_insert_eq. Qed.

Lemma put_dmem r p e d s : put_entry r p e (set_co_dmem d s) = set_co_dmem d (put_entry r p e s).
Proof. done. Qed.

Lemma entry_dmem r p d s : entry_of r p (set_co_dmem d s) = entry_of r p s.
Proof. done. Qed.

Lemma dir_ref_run r p s :
  dir_ref r p s = (Ok (entry_of r p s), put_entry r p (entry_of r p s) s).
Proof.
  unfold dir_ref, get_or_create, entry_of, put_entry.
  destruct (co_directory s !! dir_key r p) as [e|] eqn:E; cbn [default]; [|done].
  rewrite insert_id by done. by destruct s.
Qed.

Lemma dir_upd_run r p f s :
  dir_upd r p f s = (Ok tt, put_entry r p (f (entry_of r p s)) s).
Proof.
  unfold dir_upd, get_or_create, entry_of, put_entry, modS.
  destruct (co_directory s !! dir_key r p) as [e|] eqn:E; cbn [default]; [done|].
  by rewrite insert_insert_eq.
Qed.

(** Run the directory accesses at the head of a handler. *)
Lemma bind_dir_ref {B} r p (k : DirectoryEntry -> M (coherence D) B) s :
  (dir_ref r p ≫= k) s = k (entry_of r p s) (put_entry r p (entry_of r p s) s).
Proof. apply bind_ok, dir_ref_run. Qed.

Lemma bind_dir_upd {B} r p f (k : unit -> M (coherence D) B) s :
  (dir_upd r p f ≫= k) s = k tt (put_entry r p (f (entry_of r p s)) s).
Proof. apply bind_ok, dir_upd_run. Qed.
End Entries.

Ltac dir_run :=
  repeat first
    [ rewrite bind_dir_ref | rewrite bind_dir_upd
    | rewrite entry_put | rewrite put_put
    | rewrite (bind_ok (mret tt) _ _ tt _) by reflexivity
    | rewrite entry_dmem | rewrite put_dmem ].

(** The fields of an updated entry. *)
Ltac entry_simp :=
  unfold bump_epoch, add_sharer, set_state, set_owner, clear_all_sharers;
  cbn [d_state d_epoch d_sharers d_exclusive_owner state_eqb].

(** ** The handlers, branch by branch *)

Section Handlers.
Context {D : Type} `{HI : !DmemIf D, HS : !DmemSends D}.
Implicit Types s : coherence D.

Definition page_entry (a : GlobalAddress) s : DirectoryEntry :=
  entry_of (ga_region_id a) (page_index (ga_offset a)) s.
Definition with_entry (a : GlobalAddress) (e : DirectoryEntry) s : coherence D :=
  put_entry (ga_region_id a) (page_index (ga_offset a)) e s.

(** The entry after a read request. *)
Definition after_read (sender : Z) (e : DirectoryEntry) : DirectoryEntry :=
  mkDir (if state_eqb (d_state e) UNCACHED then SHARED else d_state e)
    (u8 (Z.lor (d_sharers e) (Z.shiftl 1 sender))) (d_exclusive_owner e) (u64 (d_epoch e + 1)).

(** The entry after an exclusive request: what the statements leave. *)
Definition after_exclusive (sender : Z) (e : DirectoryEntry) : DirectoryEntry :=
  mkDir EXCLUSIVE (u8 (Z.lor 0 (Z.shiftl 1 sender))) 0 (u64 (d_epoch e + 1)).

Lemma wire_with_entry a e s t m : wire (with_entry a e s) t m = wire s t m.
Proof. done. Qed.

Lemma read_req_ok a ep sq sender s :
  reliable D -> is_Some (co_msg_bufs s !! sender) -> d_state (page_entry a s) <> EXCLUSIVE ->
  let e := after_read sender (page_entry a s) in
  exists d',
    handle_message (mkMsg READ_REQ a ep sq) sender s = (Ok tt, set_co_dmem d' (with_entry a e s)) /\
    sent d' = sent (co_dmem s) ++ [wire s sender (mkMsg READ_REPLY a (d_epoch e) 0)].
Proof.
  intros Hr Hb Hne e.
  destruct (send_message_ok (with_entry a e s) sender (mkMsg READ_REPLY a (d_epoch e) 0) Hr Hb)
    as (d' & Hrun & Hs). exists d'. split; [|exact Hs]. rewrite <- Hrun. subst e.
  unfold handle_message, handle_read_req, page_entry, with_entry, after_read in *.
  cbn [m_op m_page_addr m_epoch]. rewrite bind_dir_ref.
  destruct (d_state (entry_of _ _ s)) eqn:Est; [| |done];
    cbn [state_eqb];
    dir_run; entry_simp; rewrite ?Est; reflexivity.
Qed.

Lemma read_req_dirty_ok a ep sq sender s :
  reliable D -> is_Some (co_msg_bufs s !! sender) -> d_state (page_entry a s) = EXCLUSIVE ->
  let owner := d_exclusive_owner (page_entry a s) in
  is_Some (co_msg_bufs s !! owner) ->
  let e := after_read sender (page_entry a s) in
  exists d',
    handle_message (mkMsg READ_REQ a ep sq) sender s = (Ok tt, set_co_dmem d' (with_entry a e s)) /\
    sent d' = sent (co_dmem s) ++
      [wire s owner (mkMsg WRITEBACK_REQ a ep 0);
       wire s sender (mkMsg READ_REPLY_DIRTY a (d_epoch e) 0)].
Proof.
  intros Hr Hb Hst owner Ho e.
  destruct (send_message_ok (with_entry a (page_entry a s) s) owner (mkMsg WRITEBACK_REQ a ep 0) Hr Ho)
    as (d1 & Hrun1 & Hs1).
  destruct (send_message_ok (set_co_dmem d1 (with_entry a e s)) sender
    (mkMsg READ_REPLY_DIRTY a (d_epoch e) 0) Hr Hb) as (d' & Hrun & Hs).
  exists d'. split.
  2: { rewrite Hs. cbn [co_dmem set_co_dmem]. rewrite Hs1. rewrite <- app_assoc. done. }
  subst e owner.
  unfold handle_message, handle_read_req, page_entry, with_entry, after_read in *.
  cbn [m_op m_page_addr m_epoch]. rewrite bind_dir_ref. rewrite Hst in *.
  cbn [state_eqb] in *.
  rewrite (bind_ok _ _ _ _ _ Hrun1). dir_run. entry_simp.
  rewrite ?Hst. exact Hrun.
Qed.

Lemma read_req_no_owner a ep sq sender s :
  d_state (page_entry a s) = EXCLUSIVE ->
  co_msg_bufs s !! d_exclusive_owner (page_entry a s) = None ->
  handle_message (mkMsg READ_REQ a ep sq) sender s =
  (Throw (MCCLError "Coherence: no message buffer for node "), with_entry a (page_entry a s) s).
Proof.
  intros Hst Hb. unfold handle_message, handle_read_req, page_entry, with_entry in *.
  cbn [m_op m_page_addr m_epoch]. rewrite bind_dir_ref, Hst.
  cbn [state_eqb].
  apply bind_throw. by apply send_message_nobuf.
Qed.

(** What an exclusive request sends. *)
Definition invalidations (e : DirectoryEntry) s : list (Z * GlobalAddress * list Z * Z) :=
  if (0 <? sharer_count e)%nat then
    (fun i => wire s (u16 i) (mkMsg INVALIDATE zero_addr (d_epoch e) 0)) <$>
      filter (fun i => has_sharer (u16 i) e = true) (peers s)
  else [].
Definition needs_writeback (sender : Z) (e : DirectoryEntry) : bool :=
  state_eqb (d_state e) EXCLUSIVE && negb (d_exclusive_owner e =? sender).
Definition writeback_req (a : GlobalAddress) (ep sender : Z) (e : DirectoryEntry) s
    : list (Z * GlobalAddress * list Z * Z) :=
  if needs_writeback sender e
  then [wire s (d_exclusive_owner e) (mkMsg WRITEBACK_REQ a ep 0)] else [].

Lemma invalidate_sharers_ok r p s :
  reliable D -> has_bufs s ->
  exists d', invalidate_sharers r p s = (Ok tt, set_co_dmem d' (put_entry r p (entry_of r p s) s)) /\
    sent d' = sent (co_dmem s) ++
      ((fun i => wire s (u16 i) (mkMsg INVALIDATE zero_addr (d_epoch (entry_of r p s)) 0)) <$>
         filter (fun i => has_sharer (u16 i) (entry_of r p s) = true) (peers s)).
Proof.
  intros Hr Hb. unfold invalidate_sharers. rewrite bind_dir_ref.
  unfold mbind at 1, M_bind at 1, getS at 1. cbn beta iota zeta.
  apply (broadcast_ok (fun i => has_sharer (u16 i) (entry_of r p s)) _ (peers s)
    (put_entry r p (entry_of r p s) s)); [done|].
  intros i Hi _. by apply Hb.
Qed.

Lemma exclusive_req_ok a ep sq sender s :
  reliable D -> has_bufs s -> is_Some (co_msg_bufs s !! sender) ->
  let e := page_entry a s in
  (needs_writeback sender e = true -> is_Some (co_msg_bufs s !! d_exclusive_owner e)) ->
  exists d',
    handle_message (mkMsg EXCLUSIVE_REQ a ep sq) sender s =
      (Ok tt, set_co_dmem d' (with_entry a (after_exclusive sender e) s)) /\
    sent d' = sent (co_dmem s) ++ invalidations e s ++ writeback_req a ep sender e s ++
      [wire s sender (mkMsg EXCLUSIVE_GRANT a (u64 (d_epoch e + 1)) 0)].
Proof.
  intros Hr Hb Hs e Ho. unfold handle_message, handle_exclusive_req.
  cbn [m_op m_page_addr m_epoch]. rewrite bind_dir_ref.
  change (entry_of _ _ s) with e. change (put_entry _ _ e s) with (with_entry a e s).
  set (s0 := with_entry a e s).
  (* the invalidations *)
  assert (exists d1,
    (if (0 <? sharer_count e)%nat
     then invalidate_sharers (ga_region_id a) (page_index (ga_offset a)) else mret tt) s0
    = (Ok tt, set_co_dmem d1 s0) /\ sent d1 = sent (co_dmem s) ++ invalidations e s) as (d1 & H1 & Hs1).
  { unfold invalidations. destruct (0 <? sharer_count e)%nat.
    - destruct (invalidate_sharers_ok (ga_region_id a) (page_index (ga_offset a)) s0 Hr Hb)
        as (d1 & H1 & Hs1). unfold s0, with_entry in *. rewrite entry_put in *.
      rewrite put_put in H1. by exists d1.
    - exists (co_dmem s). split; [by destruct s0 eqn:E; subst s0; inversion E|]. by rewrite app_nil_r. }
  rewrite (bind_ok _ _ _ _ _ H1).
  (* the write-back request *)
  assert (exists d2,
    (if state_eqb (d_state e) EXCLUSIVE && negb (d_exclusive_owner e =? sender)
     then send_message (d_exclusive_owner e) (mkMsg WRITEBACK_REQ a ep 0) else mret tt)
      (set_co_dmem d1 s0) = (Ok tt, set_co_dmem d2 s0) /\
    sent d2 = sent d1 ++ writeback_req a ep sender e s) as (d2 & H2 & Hs2).
  { unfold writeback_req, needs_writeback in *. destruct (state_eqb _ _ && _).
    - destruct (send_message_ok (set_co_dmem d1 s0) (d_exclusive_owner e) (mkMsg WRITEBACK_REQ a ep 0) Hr)
        as (d2 & H2 & Hs2); [by apply Ho|]. by exists d2.
    - exists d1. split; [done|]. by rewrite app_nil_r. }
  rewrite (bind_ok _ _ _ _ _ H2).
  unfold s0, with_entry, after_exclusive. dir_run. entry_simp.
  match goal with |- context [send_message sender ?m ?st] =>
    destruct (send_message_ok st sender m Hr Hs) as (d3 & H3 & Hs3) end.
  exists d3. split; [exact H3|]. rewrite Hs3. cbn [co_dmem set_co_dmem]. rewrite Hs2, Hs1.
  by rewrite <- !app_assoc.
Qed.
End Handlers.

(** ** Calls that only reach the memory manager *)

Section OnlyDmem.
Context {D : Type} `{HI : !DmemIf D}.
Implicit Types s : coherence D.

(** The computation changes nothing of the protocol object but what the
    manager itself keeps. *)
Definition only_dmem {A} (m : M (coherence D) A) : Prop :=
  forall s, exists d', (m s).2 = set_co_dmem d' s.

Lemma only_on_dmem {A} (m : M D A) : only_dmem (on_dmem m).
Proof. intros s. unfold on_dmem. destruct (m (co_dmem s)) as [r d]. by exists d. Qed.
Lemma only_ret {A} (a : A) : only_dmem (mret a).
Proof. intros s. exists (co_dmem s). by destruct s. Qed.
Lemma only_throw {A} e : only_dmem (throw (A := A) e).
Proof. intros s. exists (co_dmem s). by destruct s. Qed.
Lemma only_bind {A B} (m : M (coherence D) A) (k : A -> M (coherence D) B) :
  only_dmem m -> (forall a, only_dmem (k a)) -> only_dmem (m ≫= k).
Proof.
  intros Hm Hk s. unfold mbind, M_bind. destruct (Hm s) as [d1 H1].
  destruct (m s) as [[a|e] s1]; simpl in H1; subst s1; [|by exists d1].
  destruct (Hk a (set_co_dmem d1 s)) as [d2 ->]. by exists d2.
Qed.
Lemma only_forM {A} (l : list A) f :
  (forall x : A, only_dmem (f x)) -> only_dmem (forM l f).
Proof. intros Hf. induction l; [apply only_ret|]. by apply only_bind. Qed.
Lemma only_send t msg : only_dmem (send_message t msg).
Proof.
  intros s. unfold send_message. unfold mbind at 1, M_bind at 1, getS at 1.
  destruct (co_msg_bufs s !! t); [|apply only_throw].
  apply only_bind; [apply only_on_dmem|]. intros _. apply only_ret.
Qed.

Lemma only_preserves {A} (I : coherence D -> Prop) (m : M (coherence D) A) :
  (forall d s, I s -> I (set_co_dmem d s)) -> only_dmem m -> preserves I m.
Proof. intros HI' Hm s Hs. destruct (Hm s) as [d' ->]. by apply HI'. Qed.
End OnlyDmem.

(** ** Reachable states

    One step is any call of the public interface, with any arguments, by any
    thread, against any memory manager; a call that throws leaves what it had
    done.  The private [track_page] and [untrack_page] have no caller. *)
Section Reach.
Context {D : Type} `{HI : !DmemIf D}.
Implicit Types s : coherence D.

Inductive coh_op : forall A, M (coherence D) A -> Prop :=
  | cop_start nb : coh_op unit (co_start nb)
  | cop_shutdown : coh_op unit co_shutdown
  | cop_acquire : coh_op unit co_acquire
  | cop_release it : coh_op unit (co_release it)
  | cop_fence : coh_op unit co_fence
  | cop_read p w : coh_op unit (read_page p w)
  | cop_write_done p : coh_op unit (write_page_done p)
  | cop_handle msg sender : coh_op unit (handle_message msg sender)
  | cop_invalidate r p : coh_op unit (invalidate_sharers r p).

Inductive coh_reach : coherence D -> Prop :=
  | creach_create node head n d : coh_reach (coh_create node head n d)
  | creach_op s A (m : M (coherence D) A) : coh_reach s -> coh_op A m -> coh_reach (m s).2
  | creach_barrier s env : coh_reach s -> Forall (coh_op unit) env ->
      coh_reach (barrier_all env s).2.

(** The invariant: nothing is cached, and no entry names an owner. *)
Record coh_inv s : Prop := {
  ci_cache : co_local_cache s = ∅;
  ci_owner k e : co_directory s !! k = Some e -> d_exclusive_owner e = 0
}.

Lemma coh_inv_dmem d s : coh_inv s -> coh_inv (set_co_dmem d s).
Proof. intros []. by split. Qed.
Lemma coh_inv_only {A} (m : M (coherence D) A) : only_dmem m -> preserves coh_inv m.
Proof. apply only_preserves, coh_inv_dmem. Qed.
Lemma coh_inv_on {A} (m : M D A) : preserves coh_inv (on_dmem m).
Proof. apply coh_inv_only, only_on_dmem. Qed.
Lemma coh_inv_send t m : preserves coh_inv (send_message t m).
Proof. apply coh_inv_only, only_send. Qed.
Lemma coh_inv_epoch : preserves coh_inv fetch_epoch.
Proof. intros s []. by split. Qed.
Lemma coh_inv_put r p e s : d_exclusive_owner e = 0 -> coh_inv s -> coh_inv (put_entry r p e s).
Proof.
  intros He [Hc Ho]. split; [done|]. unfold put_entry, set_directory. cbn [co_directory].
  intros k e'. destruct (decide (k = dir_key r p)) as [->|Hk].
  - rewrite lookup_insert_eq. congruence.
  - rewrite lookup_insert_ne by done. apply Ho.
Qed.
Lemma coh_inv_entry r p s : coh_inv s -> d_exclusive_owner (entry_of r p s) = 0.
Proof.
  intros [_ Ho]. unfold entry_of. destruct (co_directory s !! dir_key r p) eqn:E; [|done].
  simpl. by eapply Ho.
Qed.
Lemma coh_inv_ref r p : preserves coh_inv (dir_ref r p).
Proof.
  intros s H. rewrite dir_ref_run. apply coh_inv_put; [|done]. by apply coh_inv_entry.
Qed.
Lemma coh_inv_upd r p f :
  (forall e, d_exclusive_owner e = 0 -> d_exclusive_owner (f e) = 0) ->
  preserves coh_inv (dir_upd r p f).
Proof.
  intros Hf s H. rewrite dir_upd_run. apply coh_inv_put; [|done]. by apply Hf, coh_inv_entry.
Qed.
Hint Resolve coh_inv_on coh_inv_send coh_inv_epoch coh_inv_ref : inv.
Hint Extern 1 (preserves coh_inv (dir_upd _ _ _)) =>
  apply coh_inv_upd; intros e He; exact He : inv.
Hint Extern 1 (preserves coh_inv (modS _)) =>
  apply preserves_mod; intros ? [? ?]; split; assumption : inv.

Lemma coh_inv_release key : preserves coh_inv (release_page key).
Proof.
  apply preserves_bind_get. intros s H. rewrite (ci_cache s H), lookup_empty. done.
Qed.
Lemma coh_inv_write_done p : preserves coh_inv (write_page_done p).
Proof.
  apply preserves_bind_get. intros s H. unfold find_cached.
  rewrite (ci_cache s H), lookup_empty. done.
Qed.
Lemma coh_inv_invalidate r p : preserves coh_inv (invalidate_sharers r p).
Proof. unfold invalidate_sharers. preserves_tac. Qed.
Hint Resolve coh_inv_release coh_inv_write_done coh_inv_invalidate : inv.

(** The owner written by the exclusive handler does not survive it. *)
Lemma exclusive_updates r p sender {B} (k : unit -> M (coherence D) B) s :
  (dir_upd r p (set_state EXCLUSIVE) ;; dir_upd r p (set_owner sender) ;;
   dir_upd r p clear_all_sharers ;; dir_upd r p (add_sharer sender) ;;
   dir_upd r p bump_epoch ≫= k) s =
  k tt (put_entry r p (after_exclusive sender (entry_of r p s)) s).
Proof. dir_run. reflexivity. Qed.

Lemma coh_inv_exclusive msg sender : preserves coh_inv (handle_exclusive_req msg sender).
Proof.
  unfold handle_exclusive_req. apply preserves_bind; [eauto with inv|]. intros e.
  apply preserves_bind; [case_match; eauto with inv|]. intros _.
  apply preserves_bind; [case_match; eauto with inv|]. intros _.
  intros s H. rewrite exclusive_updates.
  apply (preserves_bind coh_inv); [eauto with inv..|]. by apply coh_inv_put.
Qed.
Hint Resolve coh_inv_exclusive : inv.

Lemma coh_op_inv A (m : M (coherence D) A) : coh_op A m -> preserves coh_inv m.
Proof.
  destruct 1; unfold co_start, start_peer, co_shutdown, co_acquire, co_release, co_fence,
    read_page, handle_message, handle_read_req, handle_writeback_data, handle_barrier_enter;
    preserves_tac.
Qed.

Lemma spin_preserves I cond env :
  Forall (preserves I) env -> preserves I (spin (D := D) cond env).
Proof.
  induction 1 as [|e env He _ IH]; intros s HIs; simpl; mrun; destruct (negb (cond s)); try done.
  apply IH. by apply He.
Qed.

Lemma coh_inv_barrier env : Forall (coh_op unit) env -> preserves coh_inv (barrier_all env).
Proof.
  intros Henv. assert (Forall (preserves coh_inv) env) as Hp
    by (eapply Forall_impl; [exact Henv|apply coh_op_inv]).
  unfold barrier_all. apply preserves_bind; [eauto with inv|]. intros s0.
  case_match; repeat first [apply preserves_bind; [|intros ?] | apply spin_preserves; exact Hp |
    case_match | solve [preserves_tac]].
Qed.

Lemma reach_inv s : coh_reach s -> coh_inv s.
Proof.
  induction 1 as [|s A m _ IH Hop|s env _ IH Henv].
  - split; [done|]. intros k e. cbn. rewrite lookup_empty. done.
  - by apply (coh_op_inv _ _ Hop).
  - by apply coh_inv_barrier.
Qed.
End Reach.

(** ** Properties: pages and the directory *)

(** [page_align_down] is the start of the page that [page_index] names: the
    mask and the division agree on every 64-bit offset, the offset lies within
    the 64 KB that follow, and aligning twice changes nothing. *)
Theorem page_align_index off :
  in_width 64 off ->
  page_align_down off = COHERENCE_PAGE_SIZE * page_index off /\
  page_align_down off <= off < page_align_down off + COHERENCE_PAGE_SIZE /\
  page_index (page_align_down off) = page_index off /\
  page_align_down (page_align_down off) = page_align_down off.
Proof.
  intros Hoff. unfold in_width in Hoff.
  assert (forall o, 0 <= o < 2 ^ 64 -> page_align_down o = COHERENCE_PAGE_SIZE * page_index o) as Hal.
  { intros o Ho. unfold page_align_down, page_index, COHERENCE_PAGE_SIZE.
    change (u64 (Z.lnot (64 * 1024 - 1))) with (2 ^ 64 - 2 ^ 16).
    rewrite land_ones_compl by lia. change (64 * 1024) with (2 ^ 16).
    pose proof (Z.div_mod o (2 ^ 16)). lia. }
  pose proof (Z.div_mod off (64 * 1024)). pose proof (Z.mod_pos_bound off (64 * 1024)).
  assert (page_index (page_align_down off) = page_index off) as Hidx.
  { rewrite Hal by done. unfold page_index, COHERENCE_PAGE_SIZE. by rewrite Z.mul_comm, Z.div_mul. }
  split; [by apply Hal|].
  assert (page_align_down off <= off < page_align_down off + COHERENCE_PAGE_SIZE) as Hr.
  { rewrite Hal by done. unfold page_index, COHERENCE_PAGE_SIZE in *. lia. }
  split_and!; [lia..|done|].
  rewrite Hal at 1; [by rewrite Hidx, Hal|].
  rewrite Hal in * by done. unfold page_index, COHERENCE_PAGE_SIZE in *.
  assert (0 <= off / (64 * 1024)) by (apply Z.div_pos; lia). lia.
Qed.

Lemma page_align_index_witness :
  page_align_down 0x12345678 = COHERENCE_PAGE_SIZE * page_index 0x12345678 /\
  page_align_down 0x12345678 <= 0x12345678 < page_align_down 0x12345678 + COHERENCE_PAGE_SIZE /\
  page_index (page_align_down 0x12345678) = page_index 0x12345678 /\
  page_align_down (page_align_down 0x12345678) = page_align_down 0x12345678.
Proof. apply page_align_index. unfold in_width. lia. Defined.

(** The sharer mask is a set of the node ids below 8: a bit set is a bit read,
    other bits are left alone, and ids from 8 on are lost. *)
Lemma has_sharer_bit n e :
  0 <= n -> has_sharer n e = Z.testbit (d_sharers e) n.
Proof.
  intros Hn. unfold has_sharer. rewrite Z.shiftl_1_l.
  destruct (Z.testbit (d_sharers e) n) eqn:E.
  - apply negb_true_iff, Z.eqb_neq. intros H0.
    assert (Z.testbit (Z.land (d_sharers e) (2 ^ n)) n = false) as Hc by (rewrite H0; apply Z.bits_0).
    rewrite Z.land_spec, Z.pow2_bits_true, E in Hc by done. done.
  - apply negb_false_iff, Z.eqb_eq. apply Z.bits_inj'. intros i Hi.
    rewrite Z.land_spec, Z.bits_0, Z.pow2_bits_eqb by done.
    destruct (Z.eqb_spec n i); [subst; by rewrite E|apply andb_false_r].
Qed.

(** The sharer mask of a directory entry behaves as a set of node ids for
    the ids 0..7 ([add_sharer] adds exactly one, [remove_sharer] removes
    exactly one), and silently loses every node id from 8 on: adding such a
    node leaves the set as it was. *)
Theorem sharers_set_of_eight n m e :
  0 <= n -> 0 <= m -> in_width 8 (d_sharers e) ->
  has_sharer m (add_sharer n e) = has_sharer m e || ((m =? n) && (n <? 8)) /\
  has_sharer m (remove_sharer n e) = has_sharer m e && negb (m =? n) /\
  in_width 8 (d_sharers (add_sharer n e)) /\ in_width 8 (d_sharers (remove_sharer n e)).
Proof.
  intros Hn Hm Hw. rewrite !has_sharer_bit by done. unfold add_sharer, remove_sharer.
  cbn [d_sharers]. unfold u8, uwrap. rewrite Z.shiftl_1_l.
  assert (8 <= m -> Z.testbit (d_sharers e) m = false) as Hhi.
  { intros H8. apply Z.testbit_false; [done|]. unfold in_width in Hw.
    assert (2 ^ 8 <= 2 ^ m) by (apply Z.pow_le_mono_r; lia). rewrite Z.div_small by lia. done. }
  split_and!.
  - destruct (Z.ltb_spec m 8) as [Hlt|Hge].
    + rewrite Z.mod_pow2_bits_low by lia. rewrite Z.lor_spec, Z.pow2_bits_eqb by done.
      rewrite (Z.eqb_sym n m). destruct (Z.eqb_spec m n), (Z.ltb_spec n 8); simpl; try lia;
        by rewrite ?orb_true_r, ?orb_false_r.
    + rewrite Z.mod_pow2_bits_high by lia. rewrite Hhi by done.
      destruct (Z.eqb_spec m n), (Z.ltb_spec n 8); simpl; lia || done.
  - destruct (Z.ltb_spec m 8) as [Hlt|Hge].
    + rewrite Z.mod_pow2_bits_low by lia. rewrite Z.land_spec, Z.lnot_spec, Z.pow2_bits_eqb by done.
      by rewrite (Z.eqb_sym n m).
    + rewrite Z.mod_pow2_bits_high by lia. by rewrite Hhi.
  - apply Z.mod_pos_bound. lia.
  - apply Z.mod_pos_bound. lia.
Qed.

Lemma sharers_set_of_eight_witness :
  has_sharer 3 (add_sharer 9 (mkDir SHARED 5 0 1)) =
    has_sharer 3 (mkDir SHARED 5 0 1) || ((3 =? 9) && (9 <? 8)) /\
  has_sharer 3 (remove_sharer 9 (mkDir SHARED 5 0 1)) =
    has_sharer 3 (mkDir SHARED 5 0 1) && negb (3 =? 9) /\
  in_width 8 (d_sharers (add_sharer 9 (mkDir SHARED 5 0 1))) /\
  in_width 8 (d_sharers (remove_sharer 9 (mkDir SHARED 5 0 1))).
Proof. apply sharers_set_of_eight; [lia|lia|]. unfold in_width; simpl; lia. Defined.

(** ** Properties: requests *)

(** A read request for a page that no node holds exclusively, on a network
    that accepts messages: the requester is entered in the sharer set, an
    uncached page becomes shared, the page epoch advances by one, exactly one
    message leaves the node, the reply to the requester with the new epoch,
    and no other page entry changes. *)
Theorem read_req_spec {D} `{!DmemIf D, !DmemSends D} a ep sq sender (s : coherence D) :
  reliable D -> is_Some (co_msg_bufs s !! sender) -> d_state (page_entry a s) <> EXCLUSIVE ->
  exists s',
    handle_message (mkMsg READ_REQ a ep sq) sender s = (Ok tt, s') /\
    page_entry a s' = mkDir SHARED (u8 (Z.lor (d_sharers (page_entry a s)) (Z.shiftl 1 sender)))
                        (d_exclusive_owner (page_entry a s)) (u64 (d_epoch (page_entry a s) + 1)) /\
    sent (co_dmem s') = sent (co_dmem s) ++
      [wire s sender (mkMsg READ_REPLY a (u64 (d_epoch (page_entry a s) + 1)) 0)] /\
    (forall k, k <> dir_key (ga_region_id a) (page_index (ga_offset a)) ->
       co_directory s' !! k = co_directory s !! k) /\
    co_global_epoch s' = co_global_epoch s.
Proof.
  intros Hr Hb Hst. destruct (read_req_ok a ep sq sender s Hr Hb Hst) as (d' & Hrun & Hs).
  eexists. split; [exact Hrun|]. unfold page_entry, with_entry in *.
  rewrite entry_dmem, entry_put. split_and!.
  - unfold after_read. by destruct (d_state (entry_of _ _ s)).
  - exact Hs.
  - intros k Hk. cbn. by apply lookup_insert_ne.
  - done.
Qed.

(** A head (node 0 of 3) that has started, with the recording manager. *)
Definition demo_head : coherence dlog :=
  (co_start (fun i => 4096 * (i + 1)) (coh_create 0 true 3 [])).2.

Lemma demo_head_bufs i : i = 1 \/ i = 2 -> is_Some (co_msg_bufs demo_head !! i).
Proof. intros [->| ->]; vm_compute; eauto. Qed.

Lemma read_req_spec_witness :
  let a := mkGA 0 7 65536 in
  exists s', handle_message (mkMsg READ_REQ a 0 0) 2 demo_head = (Ok tt, s') /\
    page_entry a s' = mkDir SHARED 4 0 1 /\
    sent (co_dmem s') = [wire demo_head 2 (mkMsg READ_REPLY a 1 0)].
Proof.
  destruct (read_req_spec (mkGA 0 7 65536) 0 0 2 demo_head log_reliable
    (demo_head_bufs 2 ltac:(by right))) as (s' & H1 & H2 & H3 & _); [by vm_compute|].
  exists s'. split; [exact H1|]. split; [rewrite H2; vm_compute; done|]. rewrite H3. vm_compute. done.
Defined.

(** An exclusive request, on a network that accepts messages, sends an
    INVALIDATE to every peer in the sharer set (the requester included), a
    write-back request to a previous owner, and then the grant, in that order;
    the entry ends EXCLUSIVE with the requester as its only sharer and an
    epoch one higher, but with [exclusive_owner] 0 whoever asked, since
    [clear_all_sharers] runs after the owner is stored. *)
Theorem exclusive_req_spec {D} `{!DmemIf D, !DmemSends D} a ep sq sender (s : coherence D) :
  reliable D -> has_bufs s -> is_Some (co_msg_bufs s !! sender) ->
  (needs_writeback sender (page_entry a s) = true ->
   is_Some (co_msg_bufs s !! d_exclusive_owner (page_entry a s))) ->
  exists s',
    handle_message (mkMsg EXCLUSIVE_REQ a ep sq) sender s = (Ok tt, s') /\
    page_entry a s' = mkDir EXCLUSIVE (u8 (Z.shiftl 1 sender)) 0 (u64 (d_epoch (page_entry a s) + 1)) /\
    sent (co_dmem s') = sent (co_dmem s) ++ invalidations (page_entry a s) s ++
      writeback_req a ep sender (page_entry a s) s ++
      [wire s sender (mkMsg EXCLUSIVE_GRANT a (u64 (d_epoch (page_entry a s) + 1)) 0)].
Proof.
  intros Hr Hb Hs Ho. destruct (exclusive_req_ok a ep sq sender s Hr Hb Hs Ho) as (d' & Hrun & Hsent).
  eexists. split; [exact Hrun|]. split; [|exact Hsent].
  unfold page_entry, with_entry in *. by rewrite entry_dmem, entry_put.
Qed.

Lemma exclusive_req_spec_witness :
  let a := mkGA 0 7 65536 in
  let s1 := (handle_message (mkMsg READ_REQ a 0 0) 1 demo_head).2 in
  exists s', handle_message (mkMsg EXCLUSIVE_REQ a 0 0) 2 s1 = (Ok tt, s') /\
    page_entry a s' = mkDir EXCLUSIVE 4 0 2 /\
    sent (co_dmem s') = sent (co_dmem s1) ++
      [wire s1 1 (mkMsg INVALIDATE zero_addr 1 0); wire s1 2 (mkMsg EXCLUSIVE_GRANT a 2 0)].
Proof.
  intros a s1.
  destruct (exclusive_req_spec a 0 0 2 s1 log_reliable) as (s' & H1 & H2 & H3).
  - intros i Hi. assert (i = 1 \/ i = 2) as [->| ->].
    { vm_compute in Hi. by repeat (apply elem_of_cons in Hi as [->|Hi]; [auto|]);
        apply elem_of_nil in Hi. }
    all: vm_compute; eauto.
  - vm_compute; eauto.
  - intros H. vm_compute in H. done.
  - exists s'. split; [exact H1|]. split; [rewrite H2; by vm_compute|]. rewrite H3. by vm_compute.
Defined.

(** A branch that only reaches the manager keeps entries and buffers. *)
Lemma only_if {D} `{!DmemIf D} (b : bool) (m : M (coherence D) unit) :
  only_dmem m -> only_dmem (if b then m else mret tt).
Proof. destruct b; [done|]. intros _. apply only_ret. Qed.

Lemma invalidate_frame {D} `{!DmemIf D} r p (s : coherence D) :
  exists d', (invalidate_sharers r p s).2 = set_co_dmem d' (put_entry r p (entry_of r p s) s).
Proof.
  unfold invalidate_sharers. rewrite bind_dir_ref. unfold mbind at 1, M_bind at 1, getS at 1.
  apply only_forM. intros i. apply only_if, only_send.
Qed.

(** Whatever the network does, an exclusive request that returns normally has
    left the entry [after_exclusive]. *)
Lemma exclusive_req_entry {D} `{!DmemIf D} a ep sq sender (s s' : coherence D) :
  handle_message (mkMsg EXCLUSIVE_REQ a ep sq) sender s = (Ok tt, s') ->
  page_entry a s' = after_exclusive sender (page_entry a s) /\ co_msg_bufs s' = co_msg_bufs s.
Proof.
  unfold handle_message, handle_exclusive_req. cbn [m_op m_page_addr m_epoch]. rewrite bind_dir_ref.
  set (r := ga_region_id a). set (p := page_index (ga_offset a)). intros H.
  assert (exists d1, (if (0 <? sharer_count (entry_of r p s))%nat then invalidate_sharers r p else mret tt)
    (put_entry r p (entry_of r p s) s) = (Ok tt, set_co_dmem d1 (put_entry r p (entry_of r p s) s)))
    as [d1 H1].
  { apply bind_ok_inv in H as ([] & s1 & H1 & _). rewrite H1. destruct (0 <? _)%nat.
    - destruct (invalidate_frame r p (put_entry r p (entry_of r p s) s)) as [d1 Hd].
      rewrite H1, entry_put, put_put in Hd. simpl in Hd. subst s1. by exists d1.
    - inversion H1; subst. exists (co_dmem s). by destruct s. }
  rewrite (bind_ok _ _ _ _ _ H1) in H.
  apply bind_ok_inv in H as ([] & s2 & H2 & H).
  match type of H2 with ?m ?st = _ => assert (exists d2, (m st).2 = set_co_dmem d2 st) as [d2 Hd2]
    by (apply (only_if _ (send_message _ _)), only_send) end.
  rewrite H2 in Hd2. simpl in Hd2. subst s2.
  rewrite exclusive_updates in H. rewrite bind_dir_ref in H.
  match type of H with send_message ?t ?m ?st = _ =>
    destruct (only_send t m st) as [d3 Hd3]; rewrite H in Hd3 end.
  simpl in Hd3. subst s'. unfold page_entry. fold r p. split; [|done].
  rewrite entry_dmem, entry_put, entry_put. by rewrite !entry_dmem, entry_put.
Qed.

(** On node 0 (the head of the default configuration), a page that was
    granted exclusively can no longer be read: the directory then names node 0
    itself as the owner, a node has no message buffer for itself, so every
    later READ_REQ for the page throws before the requester is entered or
    answered, and so does an EXCLUSIVE_REQ of another node on a network that
    accepts messages. *)
Theorem exclusive_page_unreadable {D} `{!DmemIf D, !DmemSends D} a ep sq sender (s s1 : coherence D) :
  co_msg_bufs s !! 0 = None ->
  handle_message (mkMsg EXCLUSIVE_REQ a ep sq) sender s = (Ok tt, s1) ->
  forall ep' sq' reader,
    exists s2,
      handle_message (mkMsg READ_REQ a ep' sq') reader s1 =
        (Throw (MCCLError "Coherence: no message buffer for node "), s2) /\
      sent (co_dmem s2) = sent (co_dmem s1) /\ page_entry a s2 = page_entry a s1 /\
      (reliable D -> has_bufs s1 -> reader <> 0 ->
       is_ok (handle_message (mkMsg EXCLUSIVE_REQ a ep' sq') reader s1).1 = false).
Proof.
  intros H0 H ep' sq' reader. apply exclusive_req_entry in H as [He Hb].
  eexists. split; [apply read_req_no_owner|].
  - by rewrite He.
  - rewrite He, Hb. exact H0.
  - split; [done|]. split; [unfold page_entry, with_entry; by rewrite entry_put|].
    intros Hr Hbufs Hne. unfold handle_message, handle_exclusive_req.
    cbn [m_op m_page_addr m_epoch]. rewrite bind_dir_ref. fold (page_entry a s1).
    set (r := ga_region_id a) in *. set (p := page_index (ga_offset a)) in *.
    assert (exists d1, (if (0 <? sharer_count (page_entry a s1))%nat then invalidate_sharers r p
      else mret tt) (put_entry r p (page_entry a s1) s1)
      = (Ok tt, set_co_dmem d1 (put_entry r p (page_entry a s1) s1))) as [d1 H1].
    { destruct (0 <? _)%nat; [|exists (co_dmem s1); by destruct s1].
      destruct (invalidate_sharers_ok r p (put_entry r p (page_entry a s1) s1) Hr Hbufs) as (d1 & H1 & _).
      rewrite entry_put, put_put in H1. by exists d1. }
    rewrite (bind_ok _ _ _ _ _ H1). rewrite He. cbn [after_exclusive d_state d_exclusive_owner state_eqb].
    destruct (Z.eqb_spec 0 reader); [done|]. cbn [negb andb].
    erewrite bind_throw; [done|]. apply send_message_nobuf. cbn. by rewrite Hb.
Qed.

Lemma exclusive_page_unreadable_witness :
  let a := mkGA 0 7 65536 in
  let s1 := (handle_message (mkMsg EXCLUSIVE_REQ a 0 0) 2 demo_head).2 in
  exists s2, handle_message (mkMsg READ_REQ a 5 0) 1 s1 =
    (Throw (MCCLError "Coherence: no message buffer for node "), s2) /\
    sent (co_dmem s2) = sent (co_dmem s1) /\ page_entry a s2 = page_entry a s1.
Proof.
  intros a s1.
  destruct (exclusive_page_unreadable a 0 0 2 demo_head s1) with (ep' := 5) (sq' := 0) (reader := 1)
    as (s2 & H1 & H2 & H3 & _); [by vm_compute|by vm_compute|].
  exists s2. split; [exact H1|]. split; [exact H2|exact H3].
Defined.

(** ** Properties: the local cache *)

(** C25: Nothing ever enters the local page cache: in every state the public
    operations reach, over any memory manager, [release] writes no page back
    (it only drains and advances the epoch), [write_page_done] does nothing,
    [read_page] asks the home node again every time, and no directory entry
    records an exclusive owner. *)
Theorem reachable_cache_empty {D} `{!DmemIf D} (s : coherence D) :
  coh_reach s ->
  (forall it, co_release it s = co_acquire s) /\
  (forall page, write_page_done page s = (Ok tt, s)) /\
  (forall page w, read_page page w s =
     send_message (ga_node_id page)
       (mkMsg (if w then EXCLUSIVE_REQ else READ_REQ) (page_down page) (co_global_epoch s) 0) s) /\
  (forall k e, co_directory s !! k = Some e -> d_exclusive_owner e = 0).
Proof.
  intros Hreach. destruct (reach_inv s Hreach) as [Hc Ho]. split_and!.
  - intros it. unfold co_release, co_acquire. erewrite bind_ok; [done|].
    induction it as [|k it IH]; [done|]. simpl. erewrite bind_ok; [exact IH|].
    unfold release_page. mrun. by rewrite Hc, lookup_empty.
  - intros page. unfold write_page_done, find_cached. mrun. by rewrite Hc, lookup_empty.
  - intros page w. unfold read_page, find_cached. unfold mbind at 1, M_bind at 1, getS at 1.
    by rewrite Hc, lookup_empty.
  - exact Ho.
Qed.

Lemma reachable_cache_empty_witness :
  let s := (handle_message (mkMsg READ_REQ (mkGA 0 7 0) 0 0) 1 demo_head).2 in
  (forall it, co_release it s = co_acquire s) /\ (forall page, write_page_done page s = (Ok tt, s)).
Proof.
  intros s. destruct (reachable_cache_empty s) as (H1 & H2 & _); [|by split].
  apply creach_op; [|constructor]. apply creach_op; [|constructor]. constructor.
Defined.

(** The cache is keyed by [pack()], which drops the offset, so that two
    different pages of one region share a slot: when one is tracked as
    exclusive, marking the other as written marks the first as dirty, and
    requesting the other, even for writing, sends nothing. *)
Theorem cached_pages_collide {D} `{!DmemIf D} p q ep (s s1 : coherence D) :
  ga_node_id p = ga_node_id q -> ga_region_id p = ga_region_id q ->
  track_page p EXCLUSIVE ep s = (Ok tt, s1) ->
  find_cached (page_down q) s1 = Some (mkCached p EXCLUSIVE ep false) /\
  (forall w, read_page q w s1 = (Ok tt, s1)) /\
  find_cached p (write_page_done q s1).2 = Some (mkCached p EXCLUSIVE ep true).
Proof.
  intros Hn Hr H. unfold track_page, modS in H. simplify_eq.
  assert (ga_pack (page_down q) = ga_pack p) as Hk by (unfold ga_pack; cbn; by rewrite Hn, Hr).
  assert (forall v, find_cached (page_down q)
    (set_local_cache (<[ga_pack p := v]> (co_local_cache s)) s) = Some v) as Hf
    by (intros v; unfold find_cached; rewrite Hk; apply lookup_insert_eq).
  split; [apply Hf|]. split.
  - intros w. unfold read_page. unfold mbind, M_bind, getS. rewrite Hf. by destruct w.
  - unfold write_page_done. unfold mbind, M_bind, getS. rewrite Hf. unfold modS.
    cbn [fst snd cp_local_state state_eqb]. unfold find_cached. rewrite Hk. cbn. by apply lookup_insert_eq.
Qed.

Lemma cached_pages_collide_witness :
  let p := mkGA 1 7 0 in let q := mkGA 1 7 131072 in
  let s1 := (track_page p EXCLUSIVE 3 demo_head).2 in
  find_cached (page_down q) s1 = Some (mkCached p EXCLUSIVE 3 false) /\
  (forall w, read_page q w s1 = (Ok tt, s1)) /\
  find_cached p (write_page_done q s1).2 = Some (mkCached p EXCLUSIVE 3 true).
Proof. by apply (cached_pages_collide (mkGA 1 7 0) (mkGA 1 7 131072) 3 demo_head). Defined.

(** ** Properties: the barrier *)

Lemma bind_fetch_epoch {D B} (k : Z -> M (coherence D) B) s :
  (fetch_epoch ≫= k) s =
  k (co_global_epoch s) (set_global_epoch (u64 (co_global_epoch s + 1)) s).
Proof. done. Qed.

Section Barrier.
Context {D : Type} `{HI : !DmemIf D, HS : !DmemSends D} (Hrel : reliable D).
Implicit Types s : coherence D.

(** A started node of [n] nodes that has counted fewer than [n - 1]
    arrivals. *)
Record barrier_inv (n : Z) s : Prop := {
  bi_nodes : co_num_nodes s = n;
  bi_bufs : has_bufs s;
  bi_running : co_running s = true;
  bi_count : 0 <= co_barrier_count s < n - 1
}.

Lemma barrier_inv_only {A} n (m : M (coherence D) A) : only_dmem m -> preserves (barrier_inv n) m.
Proof. apply only_preserves. intros d s [? ? ? ?]. by split. Qed.
Lemma barrier_inv_on {A} n (m : M D A) : preserves (barrier_inv n) (on_dmem m).
Proof. apply barrier_inv_only, only_on_dmem. Qed.
Lemma barrier_inv_send n t m : preserves (barrier_inv n) (send_message t m).
Proof. apply barrier_inv_only, only_send. Qed.
Lemma barrier_inv_epoch n : preserves (barrier_inv n) fetch_epoch.
Proof. intros s [? ? ? ?]. by split. Qed.
Lemma barrier_inv_ref n r p : preserves (barrier_inv n) (dir_ref r p).
Proof. intros s [? ? ? ?]. rewrite dir_ref_run. by split. Qed.
Lemma barrier_inv_upd n r p f : preserves (barrier_inv n) (dir_upd r p f).
Proof. intros s [? ? ? ?]. rewrite dir_upd_run. by split. Qed.
Hint Resolve barrier_inv_on barrier_inv_send barrier_inv_epoch barrier_inv_ref
  barrier_inv_upd : inv.
Hint Extern 1 (preserves (barrier_inv _) (modS _)) =>
  apply preserves_mod; intros ? [? ? ? ?]; split; assumption : inv.

(** An arrival is counted, and the last one releases everybody and resets
    the count before the handler ends. *)
Lemma barrier_enter_run n s :
  n < 2 ^ 32 -> barrier_inv n s ->
  exists d', handle_barrier_enter s =
    (Ok tt, if co_barrier_count s + 1 <? n - 1
            then set_barrier_count (co_barrier_count s + 1) s
            else set_barrier_count 0 (set_co_dmem d'
                   (set_global_epoch (u64 (co_global_epoch s + 1))
                      (set_barrier_count (co_barrier_count s + 1) s)))) /\
    sent d' = sent (co_dmem s) ++
      ((fun i => wire s (u16 i) (mkMsg BARRIER_LEAVE zero_addr (co_global_epoch s) 0)) <$> peers s).
Proof.
  intros Hn [Hnodes Hb _ Hc]. unfold handle_barrier_enter.
  unfold mbind at 1, M_bind at 1, askS at 1. unfold mbind at 1, M_bind at 1, modS at 1.
  unfold mbind at 1, M_bind at 1, getS at 1. cbn beta iota zeta. cbn [co_num_nodes set_barrier_count].
  rewrite Hnodes. rewrite !u32_small by lia.
  set (s1 := set_global_epoch (u64 (co_global_epoch s + 1)) (set_barrier_count (co_barrier_count s + 1) s)).
  destruct (broadcast_all_ok (mkMsg BARRIER_LEAVE zero_addr (co_global_epoch s) 0) s1 Hrel Hb)
    as (d' & Hrun & Hs).
  exists d'. split; [|exact Hs].
  destruct (Z.leb_spec (n - 1) (co_barrier_count s + 1)), (Z.ltb_spec (co_barrier_count s + 1) (n - 1));
    try lia; [|done].
  change (peers (set_barrier_count (co_barrier_count s + 1) s)) with (peers s1).
  rewrite bind_fetch_epoch. cbn [co_global_epoch set_barrier_count]. fold s1.
  by rewrite (bind_ok _ _ _ _ _ Hrun).
Qed.

Lemma barrier_inv_enter n : 2 <= n < 2 ^ 32 -> preserves (barrier_inv n) handle_barrier_enter.
Proof.
  intros Hn s Hs. destruct (barrier_enter_run n s) as (d' & -> & _); [lia|done|].
  destruct Hs as [? ? ? ?]. simpl.
  destruct (Z.ltb_spec (co_barrier_count s + 1) (n - 1)); split; cbn; done || lia.
Qed.

(** What other threads of the head may do: deliver messages and use the
    protocol; starting a running node again is the no-op it is. *)
Inductive env_op : M (coherence D) unit -> Prop :=
  | env_handle msg sender : env_op (handle_message msg sender)
  | env_start nb : env_op (co_start nb)
  | env_acquire : env_op co_acquire
  | env_release it : env_op (co_release it)
  | env_fence : env_op co_fence
  | env_read p w : env_op (read_page p w)
  | env_write_done p : env_op (write_page_done p).

Lemma env_op_inv n m : 2 <= n < 2 ^ 32 -> env_op m -> preserves (barrier_inv n) m.
Proof.
  intros Hn. pose proof (barrier_inv_enter n Hn).
  destruct 1 as [| nb | | | | |]; cycle 1.
  { apply preserves_bind_get. intros s Hs. by rewrite (bi_running n s Hs). }
  all: unfold handle_message, handle_read_req, handle_exclusive_req, invalidate_sharers,
    handle_writeback_data, co_acquire, co_release, release_page, co_fence, read_page,
    write_page_done; preserves_tac.
Qed.

Lemma head_spins n s : n < 2 ^ 32 -> barrier_inv n s -> head_waits s = true.
Proof.
  intros Hn [Hnodes _ _ Hc]. unfold head_waits. rewrite Hnodes, u32_small by lia.
  apply Z.ltb_lt. lia.
Qed.

Lemma head_spin_false n env s :
  2 <= n < 2 ^ 32 -> barrier_inv n s -> Forall env_op env ->
  exists s', spin head_waits env s = (Ok false, s') /\ barrier_inv n s'.
Proof.
  intros Hn Hs Henv. revert s Hs. induction Henv as [|e env He _ IH]; intros s Hs; simpl;
    unfold mbind, M_bind, getS; rewrite (head_spins n) by (done || lia); cbn [negb].
  - by exists s.
  - apply IH. by apply (env_op_inv n).
Qed.
End Barrier.


Lemma demo_head_barrier_inv : barrier_inv 3 demo_head.
Proof.
  split; [done| |done|vm_compute; split; congruence].
  intros i Hi. assert (i = 1 \/ i = 2) as [->| ->].
  { vm_compute in Hi. by repeat (apply elem_of_cons in Hi as [->|Hi]; [auto|]);
      apply elem_of_nil in Hi. }
  all: vm_compute; eauto.
Qed.


(** An agent's barrier waits for its epoch counter to move, not for the
    release: it returns after one BARRIER_LEAVE, but equally after an
    [acquire] of another thread of the same node (or the release, or the
    fence), when no node has been released and the head may not have heard of
    the barrier at all. *)
Theorem agent_barrier_passes_on_any_epoch {D} `{!DmemIf D, !DmemSends D} (s : coherence D) sender lv :
  reliable D -> co_is_head s = false -> is_Some (co_msg_bufs s !! 0) ->
  0 <= co_global_epoch s -> co_global_epoch s + 2 < 2 ^ 64 ->
  (exists s', barrier_all [] s = (Ok false, s')) /\
  (exists s', barrier_all [handle_message (mkMsg BARRIER_LEAVE zero_addr lv 0) sender] s = (Ok true, s')) /\
  ((forall d : D, is_ok (if_drain d).1 = true) -> exists s', barrier_all [co_acquire] s = (Ok true, s')).
Proof.
  intros Hrel Hh Hb He0 He. set (e := co_global_epoch s) in *.
  assert (u64 (e + 1) = e + 1) as Hu1 by (apply u64_small; lia).
  assert (u64 (e + 1 + 1) = e + 2) as Hu2 by (rewrite u64_small; lia).
  set (s1 := set_global_epoch (u64 (e + 1)) s).
  destruct (send_message_ok s1 0 (mkMsg BARRIER_ENTER zero_addr e 0) Hrel Hb) as (d & Hsend & _).
  assert (forall env, barrier_all env s =
    spin (fun s => co_global_epoch s <=? u64 (e + 1)) env (set_co_dmem d s1)) as Hbar.
  { intros env. unfold barrier_all. unfold mbind at 1, M_bind at 1, getS at 1. rewrite Hh.
    rewrite bind_fetch_epoch. fold e s1. by rewrite (bind_ok _ _ _ _ _ Hsend). }
  assert (co_global_epoch (set_co_dmem d s1) <=? u64 (e + 1) = true) as Hw
    by (cbn; apply Z.leb_refl).
  split_and!.
  - eexists. rewrite Hbar. simpl. unfold mbind, M_bind, getS. rewrite Hw. done.
  - eexists. rewrite Hbar. simpl. unfold mbind at 1, M_bind at 1, getS at 1. rewrite Hw. cbn [negb].
    mrun. cbn -[Z.pow u64]. rewrite Hu1, Hu2.
    destruct (Z.leb_spec (e + 2) (e + 1)); [lia|]. done.
  - intros Hd. specialize (Hd d). destruct (if_drain d) as [[[]|] d2] eqn:Ed; [|done].
    eexists. rewrite Hbar. simpl. unfold mbind at 1, M_bind at 1, getS at 1. rewrite Hw. cbn [negb].
    unfold co_acquire, on_dmem, fetch_epoch. mrun. cbn -[Z.pow u64]. rewrite Ed. cbn -[Z.pow u64].
    rewrite Hu1, Hu2. destruct (Z.leb_spec (e + 2) (e + 1)); [lia|]. done.
Qed.

Lemma agent_barrier_passes_on_any_epoch_witness :
  let s := (co_start (fun i => 4096 * (i + 1)) (coh_create 1 false 3 [])).2 : coherence dlog in
  exists s', barrier_all [co_acquire] s = (Ok true, s').
Proof.
  intros s. destruct (agent_barrier_passes_on_any_epoch s 0 0) as (_ & _ & H);
    [apply log_reliable|done|vm_compute; eauto|vm_compute; congruence|vm_compute; done|].
  apply H. done.
Defined.

(** ** Properties: over the real manager *)

(** Over the memory manager of this repository, which never opens a peer
    connection, no coherence message is ever delivered: every send throws and
    changes nothing, and a read request for a page held by nobody throws after
    the directory has already entered the requester as a sharer. *)
Theorem no_message_over_dmem {W} `{!Ibv W} polls (s : coherence (dmem W)) :
  let _ := dmem_if (W := W) polls in
  dm_reach (co_dmem s) ->
  (forall t m, exists e, send_message t m s = (Throw e, s)) /\
  (forall a ep sq sender, d_state (page_entry a s) <> EXCLUSIVE ->
     exists e, handle_message (mkMsg READ_REQ a ep sq) sender s =
       (Throw e, with_entry a (after_read sender (page_entry a s)) s)).
Proof.
  intros Hi Hreach.
  assert (forall s' : coherence (dmem W), co_dmem s' = co_dmem s -> forall t m,
    exists e, send_message t m s' = (Throw e, s')) as Hsend.
  { intros s' Hd t m. unfold send_message, on_dmem. unfold mbind, M_bind, getS.
    destruct (co_msg_bufs s' !! t) as [mb|]; [|by eexists].
    pose proof (reach_no_conn _ t Hreach) as Hc.
    cbn [if_put_with_imm Hi dmem_if]. rewrite Hd.
    assert (exists e, put_with_imm t (mkGA t (mb_region_id mb) 0) (msg_bytes m) (op_code (m_op m))
      (co_dmem s) = (Throw e, co_dmem s)) as [e ->].
    { unfold put_with_imm. mrun. repeat case_match; simplify_eq; eauto; congruence. }
    exists e. rewrite <- Hd. by destruct s'. }
  split; [by apply Hsend|].
  intros a ep sq sender Hst. unfold handle_message, handle_read_req.
  cbn [m_op m_page_addr m_epoch]. rewrite bind_dir_ref.
  unfold page_entry, with_entry, after_read in *.
  destruct (d_state (entry_of _ _ s)) eqn:Est; [| |done]; cbn [state_eqb]; dir_run; entry_simp;
    rewrite ?Est; apply Hsend; done.
Qed.

Lemma no_message_over_dmem_witness :
  exists d : dmem SimNic,
    (dm_create 0 3 64 (fun _ => 4096) (fun _ => 0) (mkSim true 10 [] [] [] [] [] [])).1 = Ok d /\
    let _ := dmem_if (W := SimNic) 5 in
    let s := coh_create 0 true 3 d in
    forall t m, exists e, send_message t m s = (Throw e, s).
Proof.
  eexists. split; [vm_compute; reflexivity|].
  refine (proj1 (no_message_over_dmem 5 _ _)).
  eapply (reach_create 0 3 64 (fun _ => 4096) (fun _ => 0) (mkSim true 10 [] [] [] [] [] [])).
  vm_compute. reflexivity.
Defined.
