(* ===== verification/Network.v ===== *)
(** * Ranks over the peer mesh: processes, channels and executions

    The collectives of [csrc/backend] run one process per rank; a process is a
    sequence of rounds, each of which forks threads that send to and receive
    from peers over the mesh ([PeerMesh::send], [PeerMesh::recv]) and joins
    them.  A channel per ordered pair of ranks is the byte stream of the
    socket, here with one cell per element.  The file proves that such a
    network is deterministic: one complete execution decides the outcome of
    all of them ([run_decides]), and that a round in which every receive is
    matched by a send of the peer completes ([round_run]). *)
From S2P Require Import Prelude.

(** The streams in flight, by sender and receiver. *)
Abbreviation chans E := (gmap (nat * nat) (list E)).

(** A plan of a round gives, per thread, the sends and then the receives it
    makes. *)
Abbreviation plan E := (list (list (nat * list E) * list (nat * nat))).

Section Network.
Context {E A : Type}.

Inductive act :=
  | Snd (to : nat) (d : list E)        (* mesh->send(to, d, |d|) *)
  | Rcv (from : nat) (n : nat).        (* mesh->recv(from, buf, n) *)

(** A thread: the calls it still has to make, and what its receives have
    delivered. *)
Record thread := mkTh { th_acts : list act; th_got : list (list E) }.

(** [Fork ths k]: run the threads, join them, go on with what they received;
    [Ret] and [Raise]: the body has returned or thrown. *)
Inductive proc :=
  | Ret (a : A)
  | Raise (e : error)
  | Fork (ths : list thread) (k : list (list (list E)) -> proc).

(** Start threads that have received nothing. *)
Definition fork (ths : list (list act)) (k : list (list (list E)) -> proc) : proc :=
  Fork ((fun l => mkTh l []) <$> ths) k.

Definition chan (ch : chans E) (p q : nat) : list E := default [] (ch !! (p, q)).

(** One call of rank [r] on the mesh: a send appends to the stream; a receive
    waits until enough is there. *)
Definition do_act (r : nat) (a : act) (ch : chans E) : option (list (list E) * chans E) :=
  match a with
  | Snd p d => Some ([], <[(r, p) := chan ch r p ++ d]> ch)
  | Rcv p n =>
    if (n <=? length (chan ch p r))%nat
    then Some ([take n (chan ch p r)], <[(p, r) := drop n (chan ch p r)]> ch)
    else None
  end.

Definition net := (list proc * chans E)%type.

(** Which part moves: a thread of a rank, or the join of a rank. *)
Inductive agent := AThread (r t : nat) | AJoin (r : nat).

Inductive net_step : agent -> net -> net -> Prop :=
  | step_act r t procs ch ths k a acts got g ch' :
      procs !! r = Some (Fork ths k) ->
      ths !! t = Some (mkTh (a :: acts) got) ->
      do_act r a ch = Some (g, ch') ->
      net_step (AThread r t) (procs, ch)
        (<[r := Fork (<[t := mkTh acts (got ++ g)]> ths) k]> procs, ch')
  | step_join r procs ch ths k :
      procs !! r = Some (Fork ths k) ->
      Forall (fun th => th_acts th = []) ths ->
      net_step (AJoin r) (procs, ch) (<[r := k (th_got <$> ths)]> procs, ch).

Definition step (s s' : net) : Prop := exists a, net_step a s s'.

(** ** Threads of one fork do not share a peer in one direction *)

Definition clash (a b : act) : Prop :=
  match a, b with
  | Snd p _, Snd q _ => p = q
  | Rcv p _, Rcv q _ => p = q
  | _, _ => False
  end.

Definition wf_threads (ths : list thread) : Prop :=
  forall t u th uh a b, t <> u -> ths !! t = Some th -> ths !! u = Some uh ->
    a ∈ th_acts th -> b ∈ th_acts uh -> ~ clash a b.

Inductive wf_proc : proc -> Prop :=
  | wf_Ret a : wf_proc (Ret a)
  | wf_Raise e : wf_proc (Raise e)
  | wf_Fork ths k : wf_threads ths -> (forall got, wf_proc (k got)) -> wf_proc (Fork ths k).

Definition wf_net (s : net) : Prop := Forall wf_proc s.1.

Lemma wf_threads_step ths t a acts got g :
  ths !! t = Some (mkTh (a :: acts) got) -> wf_threads ths ->
  wf_threads (<[t := mkTh acts g]> ths).
Proof.
  intros Ht Hwf u v th uh x y Huv Hu Hv Hx Hy.
  assert (forall w th' z, <[t := mkTh acts g]> ths !! w = Some th' -> z ∈ th_acts th' ->
    exists th'', ths !! w = Some th'' /\ z ∈ th_acts th'') as Hback.
  { intros w th' z Hw Hz. apply list_lookup_insert_Some in Hw as [(-> & <- & _)|[_ Hw]].
    - eexists. split; [exact Ht|]. by right.
    - by exists th'. }
  destruct (Hback _ _ _ Hu Hx) as (th1 & H1 & H1'). destruct (Hback _ _ _ Hv Hy) as (th2 & H2 & H2').
  by apply (Hwf u v th1 th2).
Qed.

Lemma wf_net_step a s s' : net_step a s s' -> wf_net s -> wf_net s'.
Proof.
  unfold wf_net. destruct 1 as [r t procs ch ths k x acts got g ch' Hr Ht Hdo|r procs ch ths k Hr Hall];
    simpl; intros Hwf; apply Forall_insert; try done;
    apply (Forall_lookup_1 _ _ _ _ Hwf) in Hr; inversion Hr; subst; [|done].
  constructor; [|done]. by eapply wf_threads_step.
Qed.

(** ** The diamond property *)

Lemma do_rcv r p n ch :
  n <= length (chan ch p r) ->
  do_act r (Rcv p n) ch =
  Some ([take n (chan ch p r)], <[(p, r) := drop n (chan ch p r)]> ch).
Proof. intros H. simpl. by rewrite (proj2 (Nat.leb_le _ _) H). Qed.

Lemma do_rcv_inv r p n ch g ch' :
  do_act r (Rcv p n) ch = Some (g, ch') ->
  n <= length (chan ch p r) /\ g = [take n (chan ch p r)] /\
  ch' = <[(p, r) := drop n (chan ch p r)]> ch.
Proof.
  simpl. destruct (Nat.leb_spec n (length (chan ch p r))); [|done]. intros. by simplify_eq.
Qed.

Lemma chan_eq (ch : chans E) p q v : chan (<[(p, q) := v]> ch) p q = v.
Proof. unfold chan. by rewrite lookup_insert_eq. Qed.
Lemma chan_ne (ch : chans E) k p q v : k <> (p, q) -> chan (<[k := v]> ch) p q = chan ch p q.
Proof. intros H. unfold chan. by rewrite lookup_insert_ne. Qed.

(** A send and a receive commute, also on the same stream. *)
Lemma snd_rcv_commute r r' p d q n ch g ch' :
  do_act r' (Rcv q n) ch = Some (g, ch') ->
  exists ch3,
    do_act r' (Rcv q n) (<[(r, p) := chan ch r p ++ d]> ch) = Some (g, ch3) /\
    do_act r (Snd p d) ch' = Some ([], ch3).
Proof.
  intros H. apply do_rcv_inv in H as (Hn & -> & ->). unfold do_act at 2.
  destruct (decide ((r, p) = (q, r'))) as [Heq|Hd].
  - injection Heq as -> ->. rewrite do_rcv by (rewrite chan_eq, length_app; lia).
    rewrite !chan_eq, take_app_le, drop_app_le, !insert_insert_eq by lia. by eexists.
  - rewrite do_rcv by (by rewrite chan_ne). rewrite !chan_ne by congruence.
    rewrite insert_insert_ne by done. by eexists.
Qed.

Lemma do_act_commute r r' a b ch g1 ch1 g2 ch2 :
  (r <> r' \/ ~ clash a b) ->
  do_act r a ch = Some (g1, ch1) -> do_act r' b ch = Some (g2, ch2) ->
  exists ch3, do_act r' b ch1 = Some (g2, ch3) /\ do_act r a ch2 = Some (g1, ch3).
Proof.
  intros Hne H1 H2. destruct a as [p d|p n], b as [q d'|q n']; simpl in Hne.
  - assert ((r, p) <> (r', q)) as Hd by (intros [= -> ->]; by destruct Hne).
    unfold do_act in *. simplify_eq. rewrite !chan_ne by congruence.
    rewrite insert_insert_ne by done. by eexists.
  - injection H1 as <- <-. by apply snd_rcv_commute.
  - injection H2 as <- <-. destruct (snd_rcv_commute r' r q d' p n ch g1 ch1 H1) as (ch3 & ? & ?).
    by exists ch3.
  - assert ((p, r) <> (q, r')) as Hd by (intros [= -> ->]; by destruct Hne).
    apply do_rcv_inv in H1 as (Hn1 & -> & ->), H2 as (Hn2 & -> & ->).
    rewrite !do_rcv by (by rewrite chan_ne by congruence). rewrite !chan_ne by congruence.
    rewrite insert_insert_ne by done. by eexists.
Qed.

Lemma net_step_det a s s1 s2 : net_step a s s1 -> net_step a s s2 -> s1 = s2.
Proof. intros H1 H2. destruct H1; inversion H2; by simplify_eq. Qed.

Lemma net_step_commute a b s s1 s2 :
  wf_net s -> a <> b -> net_step a s s1 -> net_step b s s2 ->
  exists s3, net_step b s1 s3 /\ net_step a s2 s3.
Proof.
  intros Hwf Hab H1 H2.
  destruct H1 as [r t procs ch ths k x acts got g ch1 Hr Ht Hdo|r procs ch ths k Hr Hall];
    inversion H2 as [r' t' ? ? ths' k' x' acts' got' g' ch2 Hr' Ht' Hdo'|r' ? ? ths' k' Hr' Hall'];
    clear H2; subst.
  - destruct (decide (r = r')) as [<-|Hrr].
    + simplify_eq. assert (t <> t') as Htt by congruence.
      destruct (do_act_commute r r x x' ch g ch1 g' ch2) as (ch3 & H3 & H4); [|done|done|].
      { right. apply (Forall_lookup_1 _ _ _ _ Hwf) in Hr. inversion Hr as [| |? ? Hth _]; subst.
        eapply (Hth t t'); [done|done|done|left|left]. }
      eexists. split.
      * eapply step_act; [apply list_lookup_insert_eq; by eapply lookup_lt_Some| |exact H3].
        rewrite list_lookup_insert_ne by done. exact Ht'.
      * rewrite list_insert_insert_eq.
        replace (<[t':=mkTh acts' (got' ++ g')]> (<[t:=mkTh acts (got ++ g)]> ths))
          with (<[t:=mkTh acts (got ++ g)]> (<[t':=mkTh acts' (got' ++ g')]> ths))
          by (by apply list_insert_insert_ne).
        match goal with |- net_step _ _ (<[r := ?x]> procs, _) =>
          rewrite <- (list_insert_insert_eq procs r x
            (Fork (<[t':=mkTh acts' (got' ++ g')]> ths) k)) end.
        eapply step_act; [apply list_lookup_insert_eq; by eapply lookup_lt_Some| |exact H4].
        rewrite list_lookup_insert_ne by done. exact Ht.
    + destruct (do_act_commute r r' x x' ch g ch1 g' ch2) as (ch3 & H3 & H4); [by left|done|done|].
      eexists. split.
      * eapply step_act; [rewrite list_lookup_insert_ne by done; exact Hr'|exact Ht'|exact H3].
      * rewrite list_insert_insert_ne by done.
        eapply step_act; [rewrite list_lookup_insert_ne by done; exact Hr|exact Ht|exact H4].
  - destruct (decide (r = r')) as [<-|Hrr].
    { simplify_eq. by apply (Forall_lookup_1 _ _ _ _ Hall') in Ht. }
    eexists. split.
    + eapply step_join; [rewrite list_lookup_insert_ne by done; exact Hr'|done].
    + rewrite list_insert_insert_ne by done.
      eapply step_act; [rewrite list_lookup_insert_ne by done; exact Hr|exact Ht|exact Hdo].
  - destruct (decide (r = r')) as [<-|Hrr].
    { simplify_eq. by apply (Forall_lookup_1 _ _ _ _ Hall) in Ht'. }
    eexists. split.
    + eapply step_act; [rewrite list_lookup_insert_ne by done; exact Hr'|exact Ht'|exact Hdo'].
    + rewrite list_insert_insert_ne by done.
      eapply step_join; [rewrite list_lookup_insert_ne by done; exact Hr|done].
  - assert (r <> r') as Hrr by congruence. eexists. split.
    + eapply step_join; [rewrite list_lookup_insert_ne by done; exact Hr'|done].
    + rewrite list_insert_insert_ne by done.
      eapply step_join; [rewrite list_lookup_insert_ne by done; exact Hr|done].
Qed.

#[export] Instance agent_eq_dec : EqDecision agent.
Proof. solve_decision. Defined.

Lemma step_diamond s s1 s2 :
  wf_net s -> step s s1 -> step s s2 -> s1 = s2 \/ exists s3, step s1 s3 /\ step s2 s3.
Proof.
  intros Hwf [a H1] [b H2]. destruct (decide (a = b)) as [<-|Hab].
  - left. by eapply net_step_det.
  - right. destruct (net_step_commute a b s s1 s2 Hwf Hab H1 H2) as (s3 & H3 & H4).
    exists s3. split; [by exists b|by exists a].
Qed.

(** ** One complete execution decides them all *)

Definition final (s : net) : Prop := forall s', ~ step s s'.

Lemma nsteps_wf n s s' : nsteps step n s s' -> wf_net s -> wf_net s'.
Proof. induction 1 as [|n s s1 s' [a Ha] _ IH]; [done|]. intros H. by eapply IH, wf_net_step. Qed.

Lemma diamond_follow n s s' s1 :
  wf_net s -> nsteps step n s s' -> final s' -> step s s1 ->
  exists m, n = S m /\ nsteps step m s1 s'.
Proof.
  intros Hwf H Hf. revert s1. induction H as [s|n s s2 s' H2 Hrest IH]; intros s1 H1.
  { exfalso. by eapply Hf. }
  exists n. split; [done|].
  destruct (step_diamond s s1 s2 Hwf H1 H2) as [->|(s3 & H13 & H23)]; [done|].
  destruct H2 as [a Ha].
  destruct (IH (wf_net_step _ _ _ Ha Hwf) Hf s3 H23) as (m & -> & Hm).
  econstructor; [exact H13|exact Hm].
Qed.

(** If some execution of [n] steps ends in a final state, then every
    execution has at most [n] steps, can be continued to that state, and
    ends there if it ends. *)
Theorem run_decides n s s' :
  wf_net s -> nsteps step n s s' -> final s' ->
  forall m s1, nsteps step m s s1 ->
    exists l, n = m + l /\ nsteps step l s1 s' /\ (final s1 -> s1 = s').
Proof.
  intros Hwf H Hf m s1 H1. revert n H. induction H1 as [s|m s s2 s1 H2 _ IH]; intros n H.
  - exists n. split_and!; [done|done|]. intros Hs. inversion H; subst; [done|].
    exfalso. by eapply Hs.
  - destruct (diamond_follow n s s' s2 Hwf H Hf H2) as (n' & -> & Hn').
    destruct H2 as [a Ha].
    destruct (IH (wf_net_step _ _ _ Ha Hwf) n' Hn') as (l & -> & Hl & Hfin).
    by exists l.
Qed.

(** ** Rounds: what a plan does *)
Definition plan_acts (pl : plan E) : list (list act) :=
  (fun th => ((fun s => Snd s.1 s.2) <$> th.1) ++ ((fun x => Rcv x.1 x.2) <$> th.2)) <$> pl.

(** Everything a list of sends puts on the stream to [q]. *)
Definition out_of (q : nat) (ss : list (nat * list E)) : list E :=
  mjoin ((fun s => if decide (s.1 = q) then s.2 else []) <$> ss).

Definition plan_out (q : nat) (pl : plan E) : list E := mjoin ((fun th => out_of q th.1) <$> pl).
Definition plan_in (pl : plan E) : list (nat * nat) := mjoin (snd <$> pl).

(** What a rank has received when its round is over. *)
Definition plan_got (data : nat -> list E) (pl : plan E) : list (list (list E)) :=
  (fun th : list (nat * list E) * list (nat * nat) => (fun x : nat * nat => data x.1) <$> th.2) <$> pl.

Lemma out_of_cons q p d ss :
  out_of q ((p, d) :: ss) = (if decide (p = q) then d else []) ++ out_of q ss.
Proof. done. Qed.

Lemma plan_in_cons ss rs (pl : plan E) : plan_in ((ss, rs) :: pl) = rs ++ plan_in pl.
Proof. done. Qed.

(** A thread of a plan after its sends. *)
Definition recv_thread (th : list (nat * list E) * list (nat * nat)) : thread :=
  mkTh ((fun x => Rcv x.1 x.2) <$> th.2) [].

Definition procs_of (n : nat) (f : nat -> proc) : list proc := f <$> seq 0 n.

Lemma lookup_procs_of n f r : r < n -> procs_of n f !! r = Some (f r).
Proof. intros H. unfold procs_of. by rewrite list_lookup_fmap, lookup_seq_lt. Qed.

(** Let every rank in turn go from [f] to [g]. *)
Lemma all_ranks (n : nat) (f g : nat -> proc) (I : nat -> chans E -> Prop) (ch : chans E) :
  (forall (m : nat) (procs : list proc) (ch : chans E), m < n -> procs !! m = Some (f m) -> I m ch ->
     exists ch', rtc step (procs, ch) (<[m := g m]> procs, ch') /\ I (S m) ch') ->
  I 0 ch ->
  exists ch', rtc step (procs_of n f, ch) (procs_of n g, ch') /\ I n ch'.
Proof.
  intros Hstep H0.
  assert (forall m, m <= n -> exists ch',
    rtc step (procs_of n f, ch) (procs_of n (fun r => if r <? m then g r else f r), ch') /\
    I m ch') as Hm.
  { induction m as [|m IH]; intros Hmn.
    - exists ch. split; [|done]. done.
    - destruct IH as (ch1 & Hr1 & Hi1); [lia|].
      destruct (Hstep m (procs_of n (fun r => if r <? m then g r else f r)) ch1)
        as (ch2 & Hr2 & Hi2); [lia| |done|].
      { rewrite lookup_procs_of by lia. by rewrite Nat.ltb_irrefl. }
      exists ch2. split; [|done]. etransitivity; [exact Hr1|].
      assert (<[m := g m]> (procs_of n (fun r => if r <? m then g r else f r)) =
              procs_of n (fun r => if r <? S m then g r else f r)) as <-; [|done].
      apply (list_eq_lt _ _ n).
      + unfold procs_of. by rewrite length_insert, length_fmap, length_seq.
      + unfold procs_of. by rewrite length_fmap, length_seq.
      + intros i Hi. destruct (decide (m = i)) as [<-|Hne].
        * rewrite list_lookup_insert_eq by (unfold procs_of; rewrite length_fmap, length_seq; lia).
          rewrite lookup_procs_of by done. destruct (Nat.ltb_spec m (S m)); [done|lia].
        * rewrite list_lookup_insert_ne by done. rewrite !lookup_procs_of by done.
          destruct (Nat.ltb_spec i m), (Nat.ltb_spec i (S m)); done || lia. }
  destruct (Hm n) as (ch' & Hr & Hi); [done|]. exists ch'. split; [|done].
  assert (procs_of n (fun r => if r <? n then g r else f r) = procs_of n g) as <-; [|done].
  apply (list_eq_lt _ _ n); [unfold procs_of; by rewrite length_fmap, length_seq..|].
  intros i Hin. rewrite !lookup_procs_of by done. destruct (Nat.ltb_spec i n); done || lia.
Qed.

(** The sends of one thread. *)
Lemma thread_sends r t procs ch ths k ss rest got :
  procs !! r = Some (Fork ths k) ->
  ths !! t = Some (mkTh (((fun s => Snd s.1 s.2) <$> ss) ++ rest) got) ->
  exists ch', rtc step (procs, ch) (<[r := Fork (<[t := mkTh rest got]> ths) k]> procs, ch') /\
    forall p q, chan ch' p q = chan ch p q ++ (if decide (p = r) then out_of q ss else []).
Proof.
  revert procs ch ths. induction ss as [|[p d] ss IH]; intros procs ch ths Hr Ht; simpl in Ht.
  - exists ch. rewrite (list_insert_id ths) by done. rewrite list_insert_id by done.
    split; [done|]. intros p q. unfold out_of. simpl. case_decide; by rewrite app_nil_r.
  - set (ths1 := <[t := mkTh (((fun s => Snd s.1 s.2) <$> ss) ++ rest) got]> ths).
    destruct (IH (<[r := Fork ths1 k]> procs) (<[(r, p) := chan ch r p ++ d]> ch) ths1)
      as (ch' & Hrun & Hch).
    { apply list_lookup_insert_eq. by eapply lookup_lt_Some. }
    { apply list_lookup_insert_eq. by eapply lookup_lt_Some. }
    exists ch'. split.
    + eapply rtc_l.
      * exists (AThread r t). eapply step_act; [exact Hr|exact Ht|reflexivity].
      * rewrite app_nil_r. unfold ths1 in Hrun at 2. by rewrite !list_insert_insert_eq in Hrun.
    + intros p' q. rewrite Hch. destruct (decide ((r, p) = (p', q))) as [[= <- <-]|Hne].
      * rewrite chan_eq, !(decide_True (P := r = r)) by done. rewrite out_of_cons.
        rewrite decide_True by done. by rewrite <- app_assoc.
      * rewrite chan_ne by done. f_equal. case_decide; [|done]. rewrite out_of_cons.
        rewrite decide_False by congruence. done.
Qed.

(** All the sends of one rank: [ths0] are the threads treated already. *)
Lemma rank_sends r (pl : plan E) k procs ch ths0 :
  procs !! r = Some (Fork (ths0 ++ ((fun l => mkTh l []) <$> plan_acts pl)) k) ->
  exists ch',
    rtc step (procs, ch)
      (<[r := Fork (ths0 ++ (recv_thread <$> pl)) k]> procs, ch') /\
    forall p q, chan ch' p q = chan ch p q ++ (if decide (p = r) then plan_out q pl else []).
Proof.
  revert procs ch ths0. induction pl as [|[ss rs] pl IH]; intros procs ch ths0 Hr.
  - exists ch. simpl. rewrite app_nil_r in *. rewrite list_insert_id by done. split; [done|].
    intros p q. case_decide; by rewrite app_nil_r.
  - simpl in Hr.
    destruct (thread_sends r (length ths0) procs ch _ k ss ((fun x => Rcv x.1 x.2) <$> rs) [] Hr)
      as (ch1 & Hrun1 & Hch1); [by rewrite lookup_app_r, Nat.sub_diag by lia|].
    rewrite insert_app_r_alt, Nat.sub_diag in Hrun1 by lia. simpl in Hrun1.
    rewrite cons_middle, app_assoc in Hrun1.
    match type of Hrun1 with rtc _ _ (?procs1, _) => destruct (IH procs1 ch1
      (ths0 ++ [mkTh ((fun x => Rcv x.1 x.2) <$> rs) []])) as (ch2 & Hrun2 & Hch2) end.
    { apply list_lookup_insert_eq. by eapply lookup_lt_Some. }
    exists ch2. split.
    + etransitivity; [exact Hrun1|]. rewrite list_insert_insert_eq in Hrun2.
      assert (ths0 ++ (recv_thread <$> (ss, rs) :: pl) =
        (ths0 ++ [recv_thread (ss, rs)]) ++ (recv_thread <$> pl)) as ->
        by (by rewrite <- app_assoc).
      exact Hrun2.
    + intros p q. rewrite Hch2, Hch1. case_decide; [|by rewrite !app_nil_r].
      unfold plan_out. simpl. by rewrite app_assoc.
Qed.

(** The receives of one thread, each finding exactly what it asks for. *)
Lemma thread_recvs r t procs ch ths k rs got :
  NoDup (rs.*1) -> (forall x, x ∈ rs -> length (chan ch x.1 r) = x.2) ->
  procs !! r = Some (Fork ths k) ->
  ths !! t = Some (mkTh ((fun x => Rcv x.1 x.2) <$> rs) got) ->
  exists ch',
    rtc step (procs, ch)
      (<[r := Fork (<[t := mkTh [] (got ++ ((fun x => chan ch x.1 r) <$> rs))]> ths) k]> procs, ch') /\
    forall p q, chan ch' p q = if decide (q = r /\ p ∈ rs.*1) then [] else chan ch p q.
Proof.
  revert procs ch ths got. induction rs as [|[p n] rs IH]; intros procs ch ths got Hnd Hlen Hr Ht.
  - exists ch. simpl. rewrite app_nil_r, (list_insert_id ths), list_insert_id by done.
    split; [done|]. intros p q. rewrite decide_False; [done|]. intros [_ H]. by apply elem_of_nil in H.
  - simpl in Ht, Hnd. apply NoDup_cons in Hnd as [Hp Hnd].
    assert (length (chan ch p r) = n) as Hn by (by apply (Hlen (p, n)); left).
    set (ths1 := <[t := mkTh ((fun x => Rcv x.1 x.2) <$> rs) (got ++ [chan ch p r])]> ths).
    set (ch1 := <[(p, r) := []]> ch).
    assert (forall q, q ∈ rs.*1 -> chan ch1 q r = chan ch q r) as Hsame.
    { intros q Hq. unfold ch1. apply chan_ne. intros [= <-]. done. }
    destruct (IH (<[r := Fork ths1 k]> procs) ch1 ths1 (got ++ [chan ch p r])) as (ch' & Hrun & Hch);
      [done| |apply list_lookup_insert_eq; by eapply lookup_lt_Some
      |apply list_lookup_insert_eq; by eapply lookup_lt_Some|].
    { intros x Hx. rewrite Hsame by (by apply list_elem_of_fmap_2). apply Hlen. by right. }
    exists ch'. split.
    + eapply rtc_l.
      * exists (AThread r t). eapply step_act; [exact Hr|exact Ht|]. apply do_rcv. simpl. lia.
      * simpl fst. simpl snd. rewrite take_ge, drop_ge by lia. fold ch1.
        unfold ths1 in Hrun at 2. rewrite !list_insert_insert_eq in Hrun. fold ths1.
        assert ((got ++ [chan ch p r]) ++ ((fun x => chan ch1 x.1 r) <$> rs) =
          got ++ ((fun x => chan ch x.1 r) <$> (p, n) :: rs)) as Hg.
        { rewrite <- app_assoc. f_equal. rewrite fmap_cons. cbn [app]. f_equal. apply list_fmap_ext. intros i x Hx.
          apply Hsame, list_elem_of_fmap_2. by eapply list_elem_of_lookup_2. }
        by rewrite Hg in Hrun.
    + intros p' q. rewrite Hch. destruct (decide (q = r /\ p' ∈ rs.*1)) as [[-> Hin]|Hout].
      * rewrite decide_True; [done|]. split; [done|]. by right.
      * destruct (decide ((p, r) = (p', q))) as [[= <- <-]|Hne].
        -- rewrite decide_True by (split; [done|by left]). apply chan_eq.
        -- rewrite decide_False; [by apply chan_ne|]. intros [-> Hin].
           apply elem_of_cons in Hin as [->|Hin]; [done|]. by apply Hout.
Qed.

(** All the receives of one rank. *)
Lemma rank_recvs r (pl : plan E) k procs ch ths0 :
  NoDup ((plan_in pl).*1) -> (forall x, x ∈ plan_in pl -> length (chan ch x.1 r) = x.2) ->
  procs !! r = Some (Fork (ths0 ++ (recv_thread <$> pl)) k) ->
  exists ch',
    rtc step (procs, ch)
      (<[r := Fork (ths0 ++ (mkTh [] <$> plan_got (fun p => chan ch p r) pl)) k]> procs, ch') /\
    forall p q, chan ch' p q = if decide (q = r /\ p ∈ (plan_in pl).*1) then [] else chan ch p q.
Proof.
  revert procs ch ths0. induction pl as [|[ss rs] pl IH]; intros procs ch ths0 Hnd Hlen Hr.
  - exists ch. simpl in *. rewrite list_insert_id by done. split; [done|]. intros p q.
    rewrite decide_False; [done|]. intros [_ H]. by apply elem_of_nil in H.
  - rewrite plan_in_cons in Hnd, Hlen. rewrite fmap_app in Hnd. apply NoDup_app in Hnd as (Hnd1 & Hdis & Hnd2).
    assert (forall x, x ∈ rs -> length (chan ch x.1 r) = x.2) as Hlen1
      by (intros x Hx; apply Hlen, elem_of_app; by left).
    destruct (thread_recvs r (length ths0) procs ch _ k rs [] Hnd1 Hlen1 Hr)
      as (ch1 & Hrun1 & Hch1); [by rewrite lookup_app_r, Nat.sub_diag by lia|].
    rewrite insert_app_r_alt, Nat.sub_diag in Hrun1 by lia. simpl in Hrun1.
    rewrite cons_middle, app_assoc in Hrun1.
    assert (forall p, p ∈ (plan_in pl).*1 -> chan ch1 p r = chan ch p r) as Hsame.
    { intros p Hp. rewrite Hch1. apply decide_False. intros [_ Hin]. by apply (Hdis p). }
    match type of Hrun1 with rtc _ _ (?procs1, _) => destruct (IH procs1 ch1
      (ths0 ++ [mkTh [] ((fun x => chan ch x.1 r) <$> rs)])) as (ch2 & Hrun2 & Hch2) end; [done| | |].
    { intros x Hx. rewrite Hsame by (by apply list_elem_of_fmap_2).
      apply Hlen, elem_of_app. by right. }
    { apply list_lookup_insert_eq. by eapply lookup_lt_Some. }
    assert (plan_got (fun p => chan ch1 p r) pl = plan_got (fun p => chan ch p r) pl) as Hg.
    { apply list_fmap_ext. intros i th Hth. apply list_fmap_ext. intros j x Hx.
      apply Hsame, list_elem_of_fmap_2. apply list_elem_of_join.
      exists th.2. split; [by eapply list_elem_of_lookup_2|].
      apply list_elem_of_fmap_2. by eapply list_elem_of_lookup_2. }
    exists ch2. split.
    + etransitivity; [exact Hrun1|]. rewrite list_insert_insert_eq, Hg in Hrun2.
      match goal with |- rtc _ _ (<[r := Fork ?l k]> procs, _) =>
        assert (l = (ths0 ++ [mkTh [] ((fun x => chan ch x.1 r) <$> rs)]) ++
          (mkTh [] <$> plan_got (fun p => chan ch p r) pl)) as -> by (by rewrite <- app_assoc) end.
      exact Hrun2.
    + intros p q. rewrite Hch2, Hch1, plan_in_cons, fmap_app. pose proof (elem_of_app rs.*1 (plan_in pl).*1 p).
      repeat case_decide; tauto.
Qed.

Definition quiet (ch : chans E) : Prop := forall p q, chan ch p q = [].

(** Every receive of the round finds the peer's data, of the length it
    expects, and every send is received. *)
Record matched (n : nat) (pl : nat -> plan E) : Prop := {
  mt_nodup r : r < n -> NoDup ((plan_in (pl r)).*1);
  mt_recv r x : r < n -> x ∈ plan_in (pl r) -> x.1 < n /\ length (plan_out r (pl x.1)) = x.2;
  mt_send p r : p < n -> plan_out r (pl p) <> [] -> r < n /\ p ∈ (plan_in (pl r)).*1
}.

(** Everybody sends. *)
Lemma round_sends n (pl : nat -> plan E) (k : nat -> list (list (list E)) -> proc) ch :
  quiet ch ->
  exists ch', (forall p q, chan ch' p q = if decide (p < n) then plan_out q (pl p) else []) /\
    rtc step (procs_of n (fun r => fork (plan_acts (pl r)) (k r)), ch)
             (procs_of n (fun r => Fork (recv_thread <$> pl r) (k r)), ch').
Proof.
  intros Hq. destruct (all_ranks n (fun r => fork (plan_acts (pl r)) (k r))
    (fun r => Fork (recv_thread <$> pl r) (k r))
    (fun m ch => forall p q, chan ch p q = if decide (p < m) then plan_out q (pl p) else []) ch)
    as (ch1 & Hrun1 & Hch1); [| |by exists ch1].
  - intros m procs c Hm Hp Hc.
    destruct (rank_sends m (pl m) (k m) procs c [] Hp) as (c' & Hrun & Hc'). exists c'.
    split; [exact Hrun|]. intros p q. rewrite Hc', Hc.
    destruct (decide (p = m)) as [->|Hne].
    + by rewrite decide_False, decide_True by lia.
    + rewrite app_nil_r. destruct (decide (p < m)), (decide (p < S m)); done || lia.
  - intros p q. rewrite decide_False by lia. apply Hq.
Qed.

(** One rank receives: its channels were full and are empty afterwards. *)
Lemma round_recv n (pl : nat -> plan E) (k : nat -> list (list (list E)) -> proc) m procs c :
  matched n pl -> m < n -> procs !! m = Some (Fork (recv_thread <$> pl m) (k m)) ->
  (forall p q, chan c p q = if decide (m <= q /\ p < n) then plan_out q (pl p) else []) ->
  exists c', rtc step (procs, c)
      (<[m := Fork (mkTh [] <$> plan_got (fun p => plan_out m (pl p)) (pl m)) (k m)]> procs, c') /\
    forall p q, chan c' p q = if decide (S m <= q /\ p < n) then plan_out q (pl p) else [].
Proof.
  intros [Hnd Hrecv Hsend] Hm Hp Hc.
  assert (forall x, x ∈ plan_in (pl m) -> chan c x.1 m = plan_out m (pl x.1)) as Hcm.
  { intros x Hx. rewrite Hc, decide_True; [done|]. split; [lia|]. by apply (Hrecv m x). }
  destruct (rank_recvs m (pl m) (k m) procs c []) as (c' & Hrun & Hc'); [by apply Hnd| |exact Hp|].
  { intros x Hx. rewrite Hcm by done. by apply (Hrecv m x). }
  exists c'. split.
  - assert (plan_got (fun p => chan c p m) (pl m) = plan_got (fun p => plan_out m (pl p)) (pl m))
      as <-; [|exact Hrun].
    apply list_fmap_ext. intros i th Hth. apply list_fmap_ext. intros j x Hx.
    apply Hcm, list_elem_of_join. exists th.2. split; [by eapply list_elem_of_lookup_2|].
    apply list_elem_of_fmap_2. by eapply list_elem_of_lookup_2.
  - intros p q. rewrite Hc', Hc. case_decide as Hd.
    + destruct Hd as [-> _]. rewrite decide_False by lia. done.
    + destruct (decide (q = m)) as [->|Hne].
      * rewrite (decide_False (P := S m <= m /\ _)) by lia.
        case_decide as Hd'; [|done]. destruct (decide (plan_out m (pl p) = [])) as [|Hne]; [done|].
        exfalso. apply Hd. split; [done|]. destruct (Hsend p m) as [_ ?]; [lia|done|done].
      * destruct (decide (m <= q /\ p < n)), (decide (S m <= q /\ p < n)); done || lia.
Qed.

(** Everybody joins. *)
Lemma round_joins n (got : nat -> list (list (list E))) (k : nat -> list (list (list E)) -> proc) ch :
  rtc step (procs_of n (fun r => Fork (mkTh [] <$> got r) (k r)), ch) (procs_of n (fun r => k r (got r)), ch).
Proof.
  destruct (all_ranks n (fun r => Fork (mkTh [] <$> got r) (k r)) (fun r => k r (got r)) (fun _ c => c = ch) ch)
    as (ch' & Hrun & ->); [|done|done].
  intros m procs c Hm Hp ->. exists ch. split; [|done]. apply rtc_once. exists (AJoin m).
  replace (k m (got m)) with (k m (th_got <$> (mkTh [] <$> got m))).
  - apply step_join; [done|]. apply Forall_fmap, Forall_true. done.
  - f_equal. rewrite <- list_fmap_compose. rewrite <- (list_fmap_id (got m)) at 2. by apply list_fmap_ext.
Qed.

Lemma round_run n (pl : nat -> plan E) (k : nat -> list (list (list E)) -> proc) ch :
  matched n pl -> quiet ch ->
  exists ch', quiet ch' /\
    rtc step (procs_of n (fun r => fork (plan_acts (pl r)) (k r)), ch)
             (procs_of n (fun r => k r (plan_got (fun p => plan_out r (pl p)) (pl r))), ch').
Proof.
  intros Hmt Hq. destruct (round_sends n pl k ch Hq) as (ch1 & Hch1 & Hrun1).
  destruct (all_ranks n (fun r => Fork (recv_thread <$> pl r) (k r))
    (fun r => Fork (mkTh [] <$> plan_got (fun p => plan_out r (pl p)) (pl r)) (k r))
    (fun m ch => forall p q, chan ch p q =
       if decide (m <= q /\ p < n) then plan_out q (pl p) else []) ch1)
    as (ch2 & Hrun2 & Hch2).
  { intros m procs c Hm Hp Hc. by eapply round_recv. }
  { intros p q. rewrite Hch1. destruct (decide (p < n)), (decide (0 <= q /\ p < n)); done || lia. }
  exists ch2. split; [|etransitivity; [exact Hrun1|]; etransitivity; [exact Hrun2|apply round_joins]].
  intros p q. rewrite Hch2. case_decide as Hd; [|done].
  destruct (decide (plan_out q (pl p) = [])) as [|Hne]; [done|].
  destruct (mt_send _ _ Hmt p q); [lia|done|lia].
Qed.
End Network.

Arguments Snd {E}. Arguments Rcv {E}. Arguments mkTh {E}.
Arguments Ret {E A}. Arguments Raise {E A}. Arguments Fork {E A}.

(** ** Sequencing *)

Fixpoint pbind {E A B} (p : proc (E := E) (A := A)) (f : A -> proc (E := E) (A := B))
    : proc (E := E) (A := B) :=
  match p with
  | Ret a => f a
  | Raise e => Raise e
  | Fork ths k => Fork ths (fun got => pbind (k got) f)
  end.

#[export] Instance proc_ret E : MRet (fun A => proc (E := E) (A := A)) := fun A => Ret.
#[export] Instance proc_bind E : MBind (fun A => proc (E := E) (A := A)) :=
  fun A B f p => pbind p f.

Lemma wf_pbind {E A B} (p : proc (E := E) (A := A)) (f : A -> proc (E := E) (A := B)) :
  wf_proc p -> (forall a, wf_proc (f a)) -> wf_proc (pbind p f).
Proof. induction 1; simpl; intros Hf; [done|constructor|constructor; auto]. Qed.

(** What thread [t] of the last round received first. *)
Definition received {E} (got : list (list (list E))) (t : nat) : list E :=
  default [] (got !! t ≫= head).

(** ** Outcomes *)

Section Outcome.
Context {E A : Type}.
Implicit Types s : net (E := E) (A := A).

(** Every execution from [s] is finite, with a common bound; from each of its
    states [P] can still be reached, and where it stops [P] holds: whatever
    the interleaving, the network ends in [P]. *)
Definition inevitable s (P : net -> Prop) : Prop :=
  exists bound, forall m s1, nsteps step m s s1 ->
    m <= bound /\ (exists s2, rtc step s1 s2 /\ P s2) /\ (final s1 -> P s1).

Lemma inevitable_intro s s' (P : net -> Prop) :
  wf_net s -> rtc step s s' -> final s' -> P s' -> inevitable s P.
Proof.
  intros Hwf Hr Hf HP. apply rtc_nsteps in Hr as [n Hn]. exists n. intros m s1 H1.
  destruct (run_decides n s s' Hwf Hn Hf m s1 H1) as (l & -> & Hl & Hfin).
  split_and!; [lia| |].
  - exists s'. split; [|done]. apply rtc_nsteps. by exists l.
  - intros H. by rewrite Hfin.
Qed.

Lemma inevitable_impl s (P Q : net -> Prop) : (forall s, P s -> Q s) -> inevitable s P -> inevitable s Q.
Proof.
  intros HPQ [b Hb]. exists b. intros m s1 Hm. destruct (Hb m s1 Hm) as (H1 & (s2 & H2 & H3) & H4).
  split_and!; [done|exists s2; split; [done|by apply HPQ]|auto].
Qed.

(** All ranks have returned. *)
Definition returned (n : nat) (outs : nat -> A) s : Prop :=
  s.1 = procs_of n (fun r => Ret (outs r)).

Lemma returned_final n outs s : returned n outs s -> final s.
Proof.
  intros H s' [a Ha]. unfold returned in H.
  assert (forall r ths k, s.1 !! r <> Some (Fork ths k)) as Hno.
  { intros r ths k Hr. rewrite H in Hr. unfold procs_of in Hr.
    apply list_lookup_fmap_Some in Hr as (x & [=] & _). }
  destruct Ha; simpl in Hno; by eapply Hno.
Qed.

Lemma wf_procs_of (n : nat) (f : nat -> proc (E := E) (A := A)) (ch : chans E) :
  (forall r, r < n -> wf_proc (f r)) -> wf_net (procs_of n f, ch).
Proof.
  intros H. apply Forall_fmap, Forall_forall. intros r Hr. apply H.
  apply elem_of_seq in Hr. lia.
Qed.

Lemma procs_of_ext n (f g : nat -> proc (E := E) (A := A)) :
  (forall r, r < n -> f r = g r) -> procs_of n f = procs_of n g.
Proof.
  intros H. apply list_fmap_ext. intros i r Hr. apply H.
  apply lookup_seq in Hr. lia.
Qed.

Lemma quiet_empty : quiet (∅ : chans E).
Proof. intros p q. unfold chan. by rewrite lookup_empty. Qed.

Lemma wf_fork (l : list (list act)) (k : list (list (list E)) -> proc (E := E) (A := A)) :
  (forall t u x y a b, t <> u -> l !! t = Some x -> l !! u = Some y -> a ∈ x -> b ∈ y -> ~ clash a b) ->
  (forall got, wf_proc (k got)) -> wf_proc (fork l k).
Proof.
  intros H Hk. constructor; [|done]. intros t u th uh a b Htu Ht Hu Ha Hb.
  rewrite list_lookup_fmap in Ht, Hu.
  apply fmap_Some in Ht as (x & Hx & ->), Hu as (y & Hy & ->). by apply (H t u x y a b).
Qed.
End Outcome.

(** ** Runs of whole groups *)

Section Runs.
Context {E A : Type} (n : nat).

(** From quiet streams, the ranks get from [f] to [g] and leave the streams
    quiet. *)
Definition runs (f g : nat -> proc (E := E) (A := A)) : Prop :=
  forall ch, quiet ch -> exists ch', quiet ch' /\ rtc step (procs_of n f, ch) (procs_of n g, ch').
Lemma runs_trans f g h : runs f g -> runs g h -> runs f h.
Proof.
  intros H1 H2 ch Hq. destruct (H1 ch Hq) as (ch1 & Hq1 & R1). destruct (H2 ch1 Hq1) as (ch2 & Hq2 & R2).
  exists ch2. split; [done|]. by etransitivity.
Qed.
Lemma runs_ext f f' g g' :
  (forall r, r < n -> f r = f' r) -> (forall r, r < n -> g r = g' r) -> runs f' g' -> runs f g.
Proof. intros Hf Hg H. unfold runs. by rewrite (procs_of_ext n f f'), (procs_of_ext n g g'). Qed.
Lemma runs_refl f g : (forall r, r < n -> f r = g r) -> runs f g.
Proof. intros H ch Hq. exists ch. split; [done|]. by rewrite (procs_of_ext n f g). Qed.

Lemma runs_round (pl : nat -> plan E) k :
  matched n pl ->
  runs (fun r => fork (plan_acts (pl r)) (k r))
       (fun r => k r (plan_got (fun p => plan_out r (pl p)) (pl r))).
Proof. intros Hm ch Hq. by apply round_run. Qed.


(** A run that ends with every rank returning decides every execution. *)
Lemma runs_inevitable (f : nat -> proc (E := E) (A := A)) outs :
  (forall r, r < n -> wf_proc (f r)) -> runs f (fun r => Ret (outs r)) ->
  inevitable (procs_of n f, ∅) (returned n outs).
Proof.
  intros Hwf Hrun. destruct (Hrun ∅ quiet_empty) as (ch' & _ & Hr).
  eapply inevitable_intro; [by apply wf_procs_of|exact Hr| |done].
  by eapply returned_final.
Qed.
End Runs.

(** ** All-pairs rounds

    [for (p = 0; p < world; ++p) if (p == rank) continue; ...]. *)
Definition others (rank world : nat) : list nat := filter (fun p => p <> rank) (seq 0 world).

Lemma elem_of_others p rank world : p ∈ others rank world <-> p <> rank /\ p < world.
Proof. unfold others. rewrite list_elem_of_filter, elem_of_seq. lia. Qed.

Lemma NoDup_others rank world : NoDup (others rank world).
Proof. apply NoDup_filter, NoDup_seq. Qed.

Lemma length_others rank world : rank < world -> length (others rank world) = world - 1.
Proof.
  intros H. assert (rank :: others rank world ≡ₚ seq 0 world) as Hp.
  { apply NoDup_Permutation; [|apply NoDup_seq|].
    - constructor; [by rewrite elem_of_others; intros []|apply NoDup_others].
    - intros p. rewrite elem_of_cons, elem_of_others, elem_of_seq. lia. }
  apply Permutation_length in Hp. rewrite length_seq in Hp. simpl in Hp. lia.
Qed.

Lemma plan_out_app {E} q (p1 p2 : plan E) : plan_out q (p1 ++ p2) = plan_out q p1 ++ plan_out q p2.
Proof. unfold plan_out. by rewrite fmap_app, join_app. Qed.

Lemma exchange_out_list {E} q (g : nat -> plan E) (d : nat -> list E) (l : list nat) :
  NoDup l -> (forall p, plan_out q (g p) = if decide (p = q) then d p else []) ->
  plan_out q (mjoin (g <$> l)) = if decide (q ∈ l) then d q else [].
Proof.
  intros Hnd Hg. induction Hnd as [|p l Hp _ IH]; [done|].
  change (mjoin (g <$> p :: l)) with (g p ++ mjoin (g <$> l)).
  rewrite plan_out_app, Hg, IH. repeat case_decide; subst; rewrite ?app_nil_r; done || set_solver.
Qed.

Lemma exchange_in_list {E} (g : nat -> plan E) (d : nat -> nat * nat) (l : list nat) :
  (forall p, plan_in (g p) = [d p]) -> plan_in (mjoin (g <$> l)) = d <$> l.
Proof.
  intros Hg. induction l as [|p l IH]; [done|].
  change (mjoin (g <$> p :: l)) with (g p ++ mjoin (g <$> l)).
  rewrite fmap_cons. unfold plan_in in *. rewrite fmap_app, join_app, Hg, IH. done.
Qed.

Section Exchange.
Context {E : Type} (n : nat).
(** What rank [r] sends to [p], and the length it expects from [p]. *)
Context (msg : nat -> nat -> list E) (len : nat -> nat -> nat).
Definition lengths_agree : Prop :=
  forall r p, r < n -> p < n -> p <> r -> length (msg p r) = len r p.

(** One thread per peer that sends and then receives. *)
Definition exchange1 (r : nat) : plan E :=
  (fun p => ([(p, msg r p)], [(p, len r p)])) <$> others r n.
(** Two threads per peer. *)
Definition exchange2 (r : nat) : plan E :=
  mjoin ((fun p => [([(p, msg r p)], []); ([], [(p, len r p)])]) <$> others r n).

Lemma exchange1_alt r :
  exchange1 r = mjoin ((fun p => [([(p, msg r p)], [(p, len r p)])]) <$> others r n).
Proof. unfold exchange1. induction (others r n) as [|p l IH]; [done|]. simpl. by f_equal. Qed.

Lemma exchange_out r q :
  plan_out q (exchange1 r) = (if decide (q ∈ others r n) then msg r q else []) /\
  plan_out q (exchange2 r) = (if decide (q ∈ others r n) then msg r q else []).
Proof.
  rewrite exchange1_alt. split; (apply exchange_out_list; [apply NoDup_others|]);
    intros p; unfold plan_out, out_of; simpl; rewrite ?app_nil_r; by case_decide.
Qed.

Lemma exchange_in r :
  plan_in (exchange1 r) = (fun p => (p, len r p)) <$> others r n /\
  plan_in (exchange2 r) = (fun p => (p, len r p)) <$> others r n.
Proof.
  rewrite exchange1_alt. by split; apply exchange_in_list.
Qed.

Lemma exchange_matched (pl : nat -> plan E) :
  lengths_agree ->
  (forall r q, plan_out q (pl r) = if decide (q ∈ others r n) then msg r q else []) ->
  (forall r, plan_in (pl r) = (fun p => (p, len r p)) <$> others r n) ->
  matched n pl.
Proof.
  intros Hlen Hout Hin. assert (forall r, (plan_in (pl r)).*1 = others r n) as Hfst.
  { intros r. rewrite Hin, <- list_fmap_compose. rewrite <- (list_fmap_id (others r n)) at 2.
    by apply list_fmap_ext. }
  split.
  - intros r _. rewrite Hfst. apply NoDup_others.
  - intros r y Hr Hy. rewrite Hin in Hy. apply list_elem_of_fmap in Hy as (p & -> & Hp).
    apply elem_of_others in Hp as [Hpr Hpn]. simpl. split; [done|].
    rewrite Hout, decide_True by (apply elem_of_others; lia). by apply Hlen.
  - intros p r Hp Hne. rewrite Hout in Hne. case_decide as Hd; [|done].
    apply elem_of_others in Hd as [? ?]. split; [done|]. rewrite Hfst. apply elem_of_others. lia.
Qed.

Lemma exchange1_matched : lengths_agree -> matched n exchange1.
Proof. intros H. apply exchange_matched; [done|..]; intros; apply exchange_out || apply exchange_in. Qed.
Lemma exchange2_matched : lengths_agree -> matched n exchange2.
Proof. intros H. apply exchange_matched; [done|..]; intros; apply exchange_out || apply exchange_in. Qed.

Lemma exchange1_got r : r < n ->
  plan_got (fun p => plan_out r (exchange1 p)) (exchange1 r) =
  (fun p => [msg p r]) <$> others r n.
Proof.
  intros Hr. unfold plan_got, exchange1 at 2. rewrite <- list_fmap_compose.
  apply list_fmap_ext. intros i p Hp. simpl. f_equal.
  destruct (exchange_out p r) as [-> _]. apply list_elem_of_lookup_2, elem_of_others in Hp as [? ?].
  rewrite decide_True; [done|]. apply elem_of_others. lia.
Qed.

Lemma received_exchange1 r slot p : r < n -> others r n !! slot = Some p ->
  received (plan_got (fun p => plan_out r (exchange1 p)) (exchange1 r)) slot = msg p r.
Proof.
  intros Hr Hs. rewrite exchange1_got by done. unfold received.
  by rewrite list_lookup_fmap, Hs.
Qed.

Lemma received_exchange2 r slot p : r < n -> others r n !! slot = Some p ->
  received (plan_got (fun p => plan_out r (exchange2 p)) (exchange2 r)) (2 * slot + 1) = msg p r.
Proof.
  intros Hr Hs.
  assert (forall l, (forall p, p ∈ l -> plan_out r (exchange2 p) = msg p r) ->
    plan_got (fun p => plan_out r (exchange2 p))
      (mjoin ((fun p => [([(p, msg r p)], []); ([], [(p, len r p)])]) <$> l)) =
    mjoin ((fun p => [[]; [msg p r]]) <$> l)) as Hgot.
  { clear. induction l as [|p l IH]; intros Hl; [done|].
    transitivity ([[]; [plan_out r (exchange2 p)]] ++ plan_got (fun p => plan_out r (exchange2 p))
      (mjoin ((fun p => [([(p, msg r p)], []); ([], [(p, len r p)])]) <$> l))); [done|].
    rewrite IH by (intros; apply Hl; by right). rewrite Hl by left. done. }
  unfold exchange2 at 2. rewrite Hgot.
  - unfold received. clear Hgot. revert slot Hs.
    induction (others r n) as [|q l IH]; intros slot Hs; [done|].
    destruct slot as [|slot]; [by injection Hs as ->|].
    replace (2 * S slot + 1) with (S (S (2 * slot + 1))) by lia. exact (IH slot Hs).
  - intros q Hq. apply elem_of_others in Hq as [? ?]. destruct (exchange_out q r) as [_ ->].
    rewrite decide_True; [done|]. apply elem_of_others. lia.
Qed.
End Exchange.

(** ** Sequencing

    An execution of the first part is an execution of the whole: the ranks
    that have returned wait at the start of their second part. *)

Section Sequencing.
Context {E A B : Type}.
Implicit Types procs : list (proc (E := E) (A := A)).

Definition then_ (f : nat -> A -> proc (E := E) (A := B)) procs : list (proc (E := E) (A := B)) :=
  imap (fun r p => pbind p (f r)) procs.

Lemma lookup_then f procs r : then_ f procs !! r = (fun p => pbind p (f r)) <$> procs !! r.
Proof. apply list_lookup_imap. Qed.

Lemma then_insert f procs r p : then_ f (<[r := p]> procs) = <[r := pbind p (f r)]> (then_ f procs).
Proof.
  apply list_eq. intros i. rewrite lookup_then.
  destruct (decide (i = r)) as [->|Hne].
  - destruct (decide (r < length procs)) as [Hr|Hr].
    + rewrite !list_lookup_insert_eq; [done|unfold then_; by rewrite length_imap|done].
    + rewrite !list_insert_ge; [by rewrite lookup_then|unfold then_; rewrite length_imap; lia|lia].
  - by rewrite !list_lookup_insert_ne, lookup_then.
Qed.

Lemma step_then f procs ch procs' ch' :
  step (procs, ch) (procs', ch') -> step (then_ f procs, ch) (then_ f procs', ch').
Proof.
  intros [a Ha]. inversion Ha as [r t ? ? ths k x acts got g ? Hr Ht Hdo|r ? ? ths k Hr Hall]; subst;
    rewrite then_insert; simpl.
  - exists (AThread r t). eapply step_act; [|exact Ht|exact Hdo]. by rewrite lookup_then, Hr.
  - exists (AJoin r).
    apply (step_join r _ _ ths (fun got => pbind (k got) (f r))); [by rewrite lookup_then, Hr|done].
Qed.

Lemma rtc_then f s s' : rtc step s s' -> rtc step (then_ f s.1, s.2) (then_ f s'.1, s'.2).
Proof.
  induction 1 as [|[p1 c1] [p2 c2] s3 H _ IH]; [done|]. eapply rtc_l; [|exact IH]. by apply step_then.
Qed.

Lemma then_procs_of f n (p : nat -> proc (E := E) (A := A)) :
  then_ f (procs_of n p) = procs_of n (fun r => pbind (p r) (f r)).
Proof.
  apply list_eq. intros i. rewrite lookup_then. unfold procs_of. rewrite !list_lookup_fmap.
  destruct (seq 0 n !! i) as [j|] eqn:Hj; [|done]. simpl. by apply lookup_seq in Hj as [-> _].
Qed.

Lemma runs_pbind n (p : nat -> proc (E := E) (A := A)) (a : nat -> A) (f : nat -> A -> proc (E := E) (A := B)) :
  runs n p (fun r => Ret (a r)) -> runs n (fun r => pbind (p r) (f r)) (fun r => f r (a r)).
Proof.
  intros H ch Hq. destruct (H ch Hq) as (ch' & Hq' & R). exists ch'. split; [done|].
  apply (rtc_then f) in R. simpl in R. by rewrite !then_procs_of in R.
Qed.
End Sequencing.
