(* ===== verification/Allreduce.v ===== *)
(** * The allreduce algorithms ([csrc/backend/AllreduceAlgos.cpp])

    Ring, binomial tree and full-mesh butterfly, one process per rank over the
    mesh of [Network].  A buffer is the list of its elements, the reduce and
    scale kernels act element by element ([redop], [scale], whatever the dtype
    and operation), and the unit of the streams is the element: every byte
    range in the source is an element range times the element size.  The
    theorems hold for every number of ranks and every interleaving. *)
From S2P Require Import Prelude Network.

(** ** Chunks *)

Record ChunkInfo := mkChunk {
  elem_start : nat; elem_count : nat; byte_off : nat; byte_len : nat
}.

Definition chunkize (numel elem_size world : nat) : list ChunkInfo :=
  let per := (numel + world - 1) / world in
  (fun i =>
     let s := Nat.min (i * per) numel in
     let e := Nat.min ((i + 1) * per) numel in
     mkChunk s (e - s) (s * elem_size) ((e - s) * elem_size)) <$> seq 0 world.

Definition chunk_at (chunks : list ChunkInfo) (i : nat) : ChunkInfo :=
  default (mkChunk 0 0 0 0) (chunks !! i).

Section Algorithms.
Context {E : Type} (redop : E -> E -> E) (scale : E -> E).
Abbreviation prog := (proc (E := E) (A := list E)).

(** ** Views and kernels *)

(** [byte_ptr(view, byte_off)] with [byte_len]: the elements of a chunk. *)
Definition chunk_data (c : ChunkInfo) (t : list E) : list E :=
  slice (elem_start c) (elem_count c) t.

(** [metal_reduce_op_view(view_at(t, off), view_at(src, soff), count)]. *)
Definition metal_reduce_op_view (off soff count : nat) (src t : list E) : list E :=
  list_inserts off (zip_with redop (slice off count t) (slice soff count src)) t.

Definition metal_scale_inplace_view (count : nat) (t : list E) : list E :=
  (scale <$> take count t) ++ drop count t.

(** The last statement of each algorithm. *)
Definition finish (avg : bool) (numel : nat) (t : list E) : list E :=
  if avg then metal_scale_inplace_view numel t else t.

(** ** Ring *)

(** The first loop, iterations [k .. k+n): send a chunk to the next rank,
    receive one from the previous into the scratch buffer, reduce it. *)
Fixpoint ring_reduce (n k rank world : nat) (chunks : list ChunkInfo) (t recv : list E) : prog :=
  match n with
  | O => Ret t
  | S n =>
    let next := (rank + 1) mod world in
    let prev := (rank + world - 1) mod world in
    let s := chunk_at chunks ((rank + world - k) mod world) in
    let r := chunk_at chunks ((rank + world - k - 1) mod world) in
    fork [[Snd next (chunk_data s t)]; [Rcv prev (elem_count r)]] (fun got =>
      let recv := list_inserts 0 (received got 1) recv in
      let t := metal_reduce_op_view (elem_start r) 0 (elem_count r) recv t in
      ring_reduce n (S k) rank world chunks t recv)
  end.

(** The second loop: pass the finished chunks round. *)
Fixpoint ring_gather (n k rank world : nat) (chunks : list ChunkInfo) (t : list E) : prog :=
  match n with
  | O => Ret t
  | S n =>
    let next := (rank + 1) mod world in
    let prev := (rank + world - 1) mod world in
    let s := chunk_at chunks ((rank + world - k + 1) mod world) in
    let r := chunk_at chunks ((rank + world - k) mod world) in
    fork [[Snd next (chunk_data s t)]; [Rcv prev (elem_count r)]] (fun got =>
      let t := list_inserts (elem_start r) (received got 1) t in
      ring_gather n (S k) rank world chunks t)
  end.

Definition allreduce_ring (t recv : list E) (numel esize : nat) (avg : bool) (rank world : nat)
    : prog :=
  if numel <? world then Raise (MCCLError "ring allreduce: numel must be >= world") else
  let chunks := chunkize numel esize world in
  pbind (ring_reduce (world - 1) 0 rank world chunks t recv) (fun t =>
  pbind (ring_gather (world - 1) 0 rank world chunks t) (fun t =>
  Ret (finish avg numel t))).

(** ** Tree *)

(** The first loop, [mask] doubling while it is below [world]; an iteration
    that does not communicate is an empty round. *)
Fixpoint tree_up (fuel mask rank world numel : nat) (active : bool) (t recv : list E) : prog :=
  if world <=? mask then Ret t else
  match fuel with
  | O => Raise (MCCLError "out of fuel")
  | S fuel =>
    if negb active then fork [] (fun _ => tree_up fuel (2 * mask) rank world numel active t recv)
    else if negb (Nat.land rank mask =? 0) then
      fork [[Snd (rank - mask) (take numel t)]] (fun _ =>
        tree_up fuel (2 * mask) rank world numel false t recv)
    else
      let src := rank + mask in
      if src <? world then
        fork [[Rcv src numel]] (fun got =>
          let recv := list_inserts 0 (received got 0) recv in
          tree_up fuel (2 * mask) rank world numel active
            (metal_reduce_op_view 0 0 numel recv t) recv)
      else fork [] (fun _ => tree_up fuel (2 * mask) rank world numel active t recv)
  end.

(** [int top_mask = 1; while (top_mask * 2 < world) top_mask <<= 1;] *)
Fixpoint top_mask (fuel mask world : nat) : nat :=
  match fuel with
  | O => mask
  | S fuel => if mask * 2 <? world then top_mask fuel (2 * mask) world else mask
  end.

(** The second loop, [mask] halving while it is at least 1. *)
Fixpoint tree_down (fuel mask rank world numel : nat) (t : list E) : prog :=
  if mask <? 1 then Ret t else
  match fuel with
  | O => Raise (MCCLError "out of fuel")
  | S fuel =>
    let twomask := 2 * mask in
    if (rank mod twomask =? 0) && (rank + mask <? world) then
      fork [[Snd (rank + mask) (take numel t)]] (fun _ =>
        tree_down fuel (mask / 2) rank world numel t)
    else if rank mod twomask =? mask then
      fork [[Rcv (rank - mask) numel]] (fun got =>
        tree_down fuel (mask / 2) rank world numel (list_inserts 0 (received got 0) t))
    else fork [] (fun _ => tree_down fuel (mask / 2) rank world numel t)
  end.

Definition allreduce_tree (t recv : list E) (numel : nat) (avg : bool) (rank world : nat) : prog :=
  pbind (tree_up world 1 rank world numel true t recv) (fun t =>
  pbind (tree_down (S world) (top_mask world 1 world) rank world numel t) (fun t =>
  Ret (finish avg numel t))).

(** ** Butterfly *)

(** Reduce the [n] received slots into the rank's own chunk, in order. *)
Definition reduce_slots (c : ChunkInfo) (n : nat) (recv t : list E) : list E :=
  foldl (fun t slot =>
    metal_reduce_op_view (elem_start c) (slot * elem_count c) (elem_count c) recv t) t (seq 0 n).

Definition allreduce_butterfly (t recv : list E) (numel esize : nat) (avg : bool)
    (rank world : nat) : prog :=
  if numel <? world then Raise (MCCLError "butterfly allreduce: numel must be >= world") else
  let chunks := chunkize numel esize world in
  let my := chunk_at chunks rank in
  if length recv <? (world - 1) * elem_count my
  then Raise (MCCLError "butterfly: recv_view too small; allocate (world-1)*per chunks") else
  let peers := others rank world in
  fork (mjoin ((fun p => [[Snd p (chunk_data (chunk_at chunks p) t)];
                          [Rcv p (elem_count my)]]) <$> peers)) (fun got =>
    let recv := foldl (fun recv slot =>
      list_inserts (slot * elem_count my) (received got (2 * slot + 1)) recv) recv
      (seq 0 (length peers)) in
    let t := reduce_slots my (world - 1) recv t in
    fork (mjoin ((fun p => [[Snd p (chunk_data my t)];
                            [Rcv p (elem_count (chunk_at chunks p))]]) <$> peers)) (fun got =>
      let t := foldl (fun t sp =>
        list_inserts (elem_start (chunk_at chunks sp.2)) (received got (2 * sp.1 + 1)) t) t
        (zip (seq 0 (length peers)) peers) in
      Ret (finish avg numel t))).
End Algorithms.

(** ** Arithmetic of ranks and chunks *)

(** A remainder of a number below twice the modulus. *)
Lemma mod_twice x n : x < 2 * n -> x mod n = if x <? n then x else x - n.
Proof.
  intros H. destruct (Nat.ltb_spec x n); [by apply Nat.mod_small|].
  replace x with (x - n + 1 * n) at 1 by lia. rewrite Nat.Div0.mod_add. apply Nat.mod_small. lia.
Qed.

(** Decide the remainders of a goal by cases. *)
Ltac mod_cases :=
  repeat match goal with
  | |- context [?x mod ?n] => rewrite (mod_twice x n) by lia; destruct (Nat.ltb_spec x n)
  | H : context [?x mod ?n] |- _ => rewrite (mod_twice x n) in H by lia; destruct (Nat.ltb_spec x n)
  end.

Section Chunks.
Context (numel esize world : nat) (Hw : 0 < world).
Let per := (numel + world - 1) / world.

Lemma per_covers : numel <= world * per.
Proof.
  pose proof (Nat.div_mod_eq (numel + world - 1) world) as H.
  pose proof (Nat.mod_upper_bound (numel + world - 1) world). unfold per. lia.
Qed.

Lemma chunk_at_start c : c < world ->
  elem_start (chunk_at (chunkize numel esize world) c) = Nat.min (c * per) numel.
Proof.
  intros H. unfold chunk_at, chunkize. rewrite list_lookup_fmap, lookup_seq_lt by done. done.
Qed.

Lemma chunk_at_count c : c < world ->
  elem_count (chunk_at (chunkize numel esize world) c) =
  Nat.min ((c + 1) * per) numel - Nat.min (c * per) numel.
Proof.
  intros H. unfold chunk_at, chunkize. rewrite list_lookup_fmap, lookup_seq_lt by done. done.
Qed.

(** The chunk an element belongs to. *)
Definition chunk_of (i : nat) : nat := i / per.

Lemma chunk_of_lt i : i < numel -> chunk_of i < world.
Proof.
  intros H. pose proof per_covers. unfold chunk_of. apply Nat.Div0.div_lt_upper_bound. nia.
Qed.

(** The chunks partition the elements. *)
Lemma in_chunk c i : c < world -> i < numel ->
  let ch := chunk_at (chunkize numel esize world) c in
  (elem_start ch <= i < elem_start ch + elem_count ch) <-> chunk_of i = c.
Proof.
  intros Hc Hi ch. unfold ch. rewrite chunk_at_start, chunk_at_count by done.
  pose proof per_covers. assert (0 < per) by nia.
  pose proof (Nat.div_mod_eq i per). pose proof (Nat.mod_upper_bound i per).
  unfold chunk_of. split.
  - intros Hin. symmetry. apply (Nat.div_unique i per c (i - c * per)); nia.
  - intros <-. assert (i / per * per <= i) by nia. assert (i < (i / per + 1) * per) by nia. lia.
Qed.

Lemma chunk_bounds c : c < world ->
  let ch := chunk_at (chunkize numel esize world) c in
  elem_start ch + elem_count ch <= numel /\ elem_count ch <= per.
Proof.
  intros Hc ch. unfold ch. rewrite chunk_at_start, chunk_at_count by done. nia.
Qed.
End Chunks.

(** ** Buffers given element by element *)

Section Tab.
Context {E : Type} (redop : E -> E -> E) (scale : E -> E) (numel : nat).

Definition tab (f : nat -> E) : list E := f <$> seq 0 numel.

Lemma length_tab f : length (tab f) = numel.
Proof. unfold tab. by rewrite length_fmap, length_seq. Qed.

Lemma lookup_tab f i : i < numel -> tab f !! i = Some (f i).
Proof. intros H. unfold tab. by rewrite list_lookup_fmap, lookup_seq_lt. Qed.

Lemma tab_ext f g : (forall i, i < numel -> f i = g i) -> tab f = tab g.
Proof.
  intros H. apply list_fmap_ext. intros i x Hx. apply lookup_seq in Hx as [-> Hx]. by apply H.
Qed.

Lemma tab_total `{!Inhabited E} l : length l = numel -> l = tab (fun i => l !!! i).
Proof.
  intros H. apply (list_eq_lt _ _ numel); [done|apply length_tab|].
  intros i Hi. rewrite lookup_tab by done. apply list_lookup_lookup_total_lt. lia.
Qed.

Lemma length_slice_tab f s n : s + n <= numel -> length (slice s n (tab f)) = n.
Proof. intros H. apply length_slice. by rewrite length_tab. Qed.

(** Overwriting a range with the same range of another buffer. *)
Lemma write_tab f g s n :
  s + n <= numel ->
  list_inserts s (slice s n (tab g)) (tab f) =
  tab (fun i => if decide (s <= i < s + n) then g i else f i).
Proof.
  intros H. apply (list_eq_lt _ _ numel); [by rewrite length_inserts, length_tab|apply length_tab|].
  intros i Hi. rewrite lookup_tab by done. case_decide as Hd.
  - rewrite list_lookup_inserts by (rewrite ?length_slice_tab, ?length_tab; lia).
    rewrite lookup_slice by lia. rewrite lookup_tab by lia. do 2 f_equal. lia.
  - destruct (decide (i < s)).
    + rewrite list_lookup_inserts_lt by done. by apply lookup_tab.
    + rewrite list_lookup_inserts_ge by (rewrite length_slice_tab; lia). by apply lookup_tab.
Qed.

(** Reducing a range against a scratch buffer that holds, from [so] on, the
    same range of another buffer. *)
Lemma reduce_tab f g s so n recv :
  s + n <= numel -> slice so n recv = slice s n (tab g) ->
  metal_reduce_op_view redop s so n recv (tab f) =
  tab (fun i => if decide (s <= i < s + n) then redop (f i) (g i) else f i).
Proof.
  intros H Hrecv. unfold metal_reduce_op_view. rewrite Hrecv.
  assert (zip_with redop (slice s n (tab f)) (slice s n (tab g)) =
          slice s n (tab (fun i => redop (f i) (g i)))) as ->; [|by apply write_tab].
  apply (list_eq_lt _ _ n); [rewrite length_zip_with, !length_slice_tab; lia|by apply length_slice_tab|].
  intros i Hi. rewrite lookup_zip_with, !lookup_slice by done. by rewrite !lookup_tab by lia.
Qed.

Lemma slice_scratch (d recv : list E) :
  length d <= length recv -> slice 0 (length d) (list_inserts 0 d recv) = d.
Proof. intros H. by apply slice_inserts_same. Qed.

Lemma finish_tab avg f :
  finish scale avg numel (tab f) = tab (fun i => if avg then scale (f i) else f i).
Proof.
  destruct avg; [|done]. unfold finish, metal_scale_inplace_view.
  rewrite take_ge, drop_ge by (by rewrite length_tab). rewrite app_nil_r. unfold tab.
  by rewrite <- list_fmap_compose.
Qed.
End Tab.

(** A choice by position in a chunk is a choice by chunk. *)
Lemma pick_chunk {T} numel esize n c i (a b : T) : 0 < n -> c < n -> i < numel ->
  (if decide (elem_start (chunk_at (chunkize numel esize n) c) <= i <
              elem_start (chunk_at (chunkize numel esize n) c) +
              elem_count (chunk_at (chunkize numel esize n) c)) then a else b)
  = if decide (chunk_of numel n i = c) then a else b.
Proof.
  intros Hn Hc Hi. pose proof (in_chunk numel esize n Hn c i Hc Hi) as Hin.
  cbv zeta in Hin. repeat case_decide; done || tauto.
Qed.

Lemma chunk_data_length {E} numel esize n c (f : nat -> E) : 0 < n -> c < n ->
  length (chunk_data (chunk_at (chunkize numel esize n) c) (tab numel f)) =
  elem_count (chunk_at (chunkize numel esize n) c).
Proof. intros Hn Hc. apply length_slice_tab. by apply chunk_bounds. Qed.

(** ** The ring *)

Section Ring.
Context {E : Type} (redop : E -> E -> E) (scale : E -> E).
Context (numel esize n : nat) (Hn : 0 < n).
Context (x : nat -> nat -> E).   (* the input of a rank, element by element *)
Let per := (numel + n - 1) / n.
Let chunks := chunkize numel esize n.
Let cof i := chunk_of numel n i.

Definition ring_next (r : nat) : nat := (r + 1) mod n.
Definition ring_prev (r : nat) : nat := (r + n - 1) mod n.

(** Element [i] of chunk [c] after the partial sum has visited [j] further
    ranks, starting from rank [c]. *)
Fixpoint ring_acc (c j i : nat) : E :=
  match j with
  | O => x c i
  | S j' => redop (x ((c + j) mod n) i) (ring_acc c j' i)
  end.

(** The buffer of a rank after [k] iterations of the first loop, and of the
    second. *)
Definition rs_val (k r i : nat) : E :=
  let j := (r + n - cof i) mod n in
  if j <=? k then ring_acc (cof i) j i else x r i.
Definition ag_val (k r i : nat) : E :=
  if (r + 1 + n - cof i) mod n <=? k then ring_acc (cof i) (n - 1) i else rs_val (n - 1) r i.

Lemma cof_lt i : i < numel -> cof i < n.
Proof. by apply chunk_of_lt. Qed.

Lemma rs_val_0 r i : r < n -> i < numel -> rs_val 0 r i = x r i.
Proof.
  intros Hr Hi. pose proof (cof_lt i Hi). unfold rs_val.
  destruct (Nat.leb_spec ((r + n - cof i) mod n) 0) as [H0|]; [|done].
  assert ((r + n - cof i) mod n = 0) as E0 by lia. rewrite E0. simpl. f_equal.
  rewrite mod_twice in E0 by lia. destruct (Nat.ltb_spec (r + n - cof i) n); lia.
Qed.

Lemma rs_val_step k r i : S k < n -> r < n -> i < numel ->
  rs_val (S k) r i =
  if decide (cof i = (r + n - k - 1) mod n) then redop (rs_val k r i) (rs_val k (ring_prev r) i)
  else rs_val k r i.
Proof.
  intros Hk Hr Hi. pose proof (cof_lt i Hi) as Hc. unfold rs_val, ring_prev.
  set (c := cof i) in *.
  destruct (decide (c = (r + n - k - 1) mod n)) as [He|He].
  - assert ((r + n - c) mod n = S k) as -> by (mod_cases; lia).
    assert (((r + n - 1) mod n + n - c) mod n = k) as -> by (mod_cases; lia).
    rewrite Nat.leb_refl. destruct (Nat.leb_spec (S k) k); [lia|]. rewrite Nat.leb_refl.
    cbn [ring_acc]. f_equal. f_equal. mod_cases; lia.
  - assert ((r + n - c) mod n <> S k) as Hne by (mod_cases; lia).
    destruct (Nat.leb_spec ((r + n - c) mod n) (S k)), (Nat.leb_spec ((r + n - c) mod n) k);
      done || lia.
Qed.

Lemma rs_val_last r i : r < n -> i < numel ->
  rs_val (n - 1) r i = ring_acc (cof i) ((r + n - cof i) mod n) i.
Proof.
  intros Hr Hi. unfold rs_val. pose proof (Nat.mod_upper_bound (r + n - cof i) n).
  destruct (Nat.leb_spec ((r + n - cof i) mod n) (n - 1)); done || lia.
Qed.

Lemma ag_val_0 r i : r < n -> i < numel -> ag_val 0 r i = rs_val (n - 1) r i.
Proof.
  intros Hr Hi. pose proof (cof_lt i Hi). unfold ag_val.
  destruct (Nat.leb_spec ((r + 1 + n - cof i) mod n) 0) as [H0|]; [|done].
  rewrite rs_val_last by done. f_equal.
  destruct (decide (cof i = 0 /\ r = n - 1)) as [[Hc Hr']|Hd].
  - rewrite Hc, Hr', Nat.sub_0_r. rewrite mod_twice by lia.
    destruct (Nat.ltb_spec (n - 1 + n) n); lia.
  - mod_cases; lia.
Qed.

Lemma ag_mod r c : r < n -> c < n -> (r + 1 + n - c) mod n = if decide (c <= r + 1) then
  (if decide (r + 1 - c = n) then 0 else r + 1 - c) else r + 1 + n - c.
Proof.
  intros Hr Hc. destruct (decide (c <= r + 1)).
  - replace (r + 1 + n - c) with (r + 1 - c + 1 * n) by lia. rewrite Nat.Div0.mod_add.
    destruct (decide (r + 1 - c = n)) as [->|]; [apply Nat.Div0.mod_same|]. apply Nat.mod_small. lia.
  - apply Nat.mod_small. lia.
Qed.

Lemma ag_val_step k r i : S k < n -> r < n -> i < numel ->
  ag_val (S k) r i =
  if decide (cof i = (r + n - k) mod n) then ag_val k (ring_prev r) i else ag_val k r i.
Proof.
  intros Hk Hr Hi. pose proof (cof_lt i Hi) as Hc. unfold ag_val, ring_prev.
  set (c := cof i) in *.
  destruct (decide (c = (r + n - k) mod n)) as [He|He].
  - assert ((r + 1 + n - c) mod n = S k) as ->.
    { rewrite ag_mod by done. rewrite mod_twice in He by lia.
      destruct (Nat.ltb_spec (r + n - k) n); repeat case_decide; lia. }
    assert (((r + n - 1) mod n + 1 + n - c) mod n = k) as ->.
    { rewrite ag_mod by (done || by apply Nat.mod_upper_bound; lia).
      rewrite mod_twice in He by lia. rewrite mod_twice by lia.
      destruct (Nat.ltb_spec (r + n - k) n), (Nat.ltb_spec (r + n - 1) n); repeat case_decide; lia. }
    by rewrite !Nat.leb_refl.
  - assert ((r + 1 + n - c) mod n <> S k) as Hne.
    { rewrite ag_mod by done. rewrite mod_twice in He by lia.
      destruct (Nat.ltb_spec (r + n - k) n); repeat case_decide; lia. }
    destruct (Nat.leb_spec ((r + 1 + n - c) mod n) (S k)), (Nat.leb_spec ((r + 1 + n - c) mod n) k);
      done || lia.
Qed.

Lemma ag_val_last r i : ag_val (n - 1) r i = ring_acc (cof i) (n - 1) i.
Proof.
  unfold ag_val. pose proof (Nat.mod_upper_bound (r + 1 + n - cof i) n).
  destruct (Nat.leb_spec ((r + 1 + n - cof i) mod n) (n - 1)); done || lia.
Qed.

(** *** One iteration is a matched round *)

Lemma next_prev r : r < n -> ring_next (ring_prev r) = r.
Proof.
  intros Hr. unfold ring_next, ring_prev. rewrite (mod_twice (r + n - 1)) by lia.
  destruct (Nat.ltb_spec (r + n - 1) n).
  - replace (r + n - 1 + 1) with (r + 1 * n) by lia. rewrite Nat.Div0.mod_add. by apply Nat.mod_small.
  - replace (r + n - 1 - n + 1) with r by lia. by apply Nat.mod_small.
Qed.
Lemma prev_next r : r < n -> ring_prev (ring_next r) = r.
Proof.
  intros Hr. unfold ring_next, ring_prev. destruct (decide (r + 1 = n)) as [He|He].
  - rewrite He, Nat.Div0.mod_same. rewrite Nat.mod_small by lia. lia.
  - rewrite (Nat.mod_small (r + 1)) by lia. mod_cases; lia.
Qed.
Lemma prev_lt r : ring_prev r < n.
Proof. apply Nat.mod_upper_bound. lia. Qed.
Lemma next_lt r : ring_next r < n.
Proof. apply Nat.mod_upper_bound. lia. Qed.

(** Send chunk [si r] of buffer [b r] to the next rank, receive chunk
    [si (prev r)] from the previous one. *)
Definition ring_plan (si : nat -> nat) (b : nat -> nat -> E) (r : nat) : plan E :=
  [([(ring_next r, chunk_data (chunk_at chunks (si r)) (tab numel (b r)))], []);
   ([], [(ring_prev r, elem_count (chunk_at chunks (si (ring_prev r))))])].

Lemma ring_plan_out si b r q :
  plan_out q (ring_plan si b r) =
  if decide (ring_next r = q) then chunk_data (chunk_at chunks (si r)) (tab numel (b r)) else [].
Proof.
  unfold plan_out, ring_plan, out_of. simpl. rewrite !app_nil_r. done.
Qed.

Lemma ring_plan_matched si b :
  (forall r, r < n -> si r < n) -> matched n (ring_plan si b).
Proof.
  intros Hsi. split.
  - intros r Hr. simpl. apply NoDup_singleton.
  - intros r y Hr Hy. unfold plan_in in Hy. simpl in Hy. apply list_elem_of_singleton in Hy as ->.
    simpl. split; [apply prev_lt|]. rewrite ring_plan_out, next_prev, decide_True by done.
    apply chunk_data_length; [done|]. apply Hsi, prev_lt.
  - intros p r Hp Hne. rewrite ring_plan_out in Hne. case_decide as Hd; [|done]. subst r.
    split; [apply next_lt|]. unfold plan_in. simpl. rewrite prev_next by done. left.
Qed.

Lemma ring_plan_got si b r : r < n ->
  plan_got (fun p => plan_out r (ring_plan si b p)) (ring_plan si b r) =
  [[]; [chunk_data (chunk_at chunks (si (ring_prev r))) (tab numel (b (ring_prev r)))]].
Proof.
  intros Hr. unfold plan_got, ring_plan. simpl. fold (ring_plan si b (ring_prev r)).
  rewrite ring_plan_out, next_prev, decide_True by done. done.
Qed.

(** *** The loops *)

Lemma ring_reduce_runs m k (recv : nat -> list E) (f : nat -> list E -> proc (E := E) (A := list E)) :
  k + m < n -> (forall r, r < n -> per <= length (recv r)) ->
  runs n (fun r => pbind (ring_reduce redop m k r n chunks (tab numel (rs_val k r)) (recv r)) (f r))
       (fun r => f r (tab numel (rs_val (k + m) r))).
Proof.
  revert k recv. induction m as [|m IH]; intros k recv Hk Hrecv.
  { apply runs_refl. intros r Hr. by rewrite Nat.add_0_r. }
  set (si := fun r => (r + n - k) mod n).
  assert (forall r, si r < n) as Hsi by (intros r; apply Nat.mod_upper_bound; lia).
  assert (forall r, r < n -> si (ring_prev r) = (r + n - k - 1) mod n) as Hri.
  { intros r Hr. unfold si, ring_prev. mod_cases; lia. }
  set (recv' := fun r => list_inserts 0
    (chunk_data (chunk_at chunks (si (ring_prev r))) (tab numel (rs_val k (ring_prev r)))) (recv r)).
  eapply runs_trans.
  - eapply runs_ext; [| |apply (runs_round n (ring_plan si (rs_val k))
      (fun r got => pbind (let recv := list_inserts 0 (received got 1) (recv r) in
         ring_reduce redop m (S k) r n chunks
           (metal_reduce_op_view redop (elem_start (chunk_at chunks (si (ring_prev r)))) 0
              (elem_count (chunk_at chunks (si (ring_prev r)))) recv (tab numel (rs_val k r))) recv) (f r)))].
    + intros r Hr. cbn -[chunk_at chunk_data Nat.modulo]. unfold fork, ring_plan. cbn -[chunk_at chunk_data Nat.modulo].
      rewrite Hri by done. reflexivity.
    + intros r Hr. reflexivity.
    + by apply ring_plan_matched.
  - eapply runs_ext; [| |apply (IH (S k) recv')]; [| |lia|].
    + intros r Hr. rewrite ring_plan_got by done. unfold received.
      cbn -[chunk_at chunk_data list_inserts Nat.modulo ring_reduce]. fold (recv' r).
      f_equal. f_equal.
      destruct (chunk_bounds numel esize n Hn (si (ring_prev r))) as [Hb1 Hb2]; [apply Hsi|].
      fold chunks in Hb1, Hb2. fold per in Hb2. specialize (Hrecv r Hr).
      rewrite (reduce_tab redop numel (rs_val k r) (rs_val k (ring_prev r))); [|done|].
      * apply tab_ext. intros i Hi. rewrite rs_val_step by (done || lia).
        rewrite <- Hri by done. by apply pick_chunk.
      * pose proof (chunk_data_length numel esize n (si (ring_prev r)) (rs_val k (ring_prev r)) Hn (Hsi _)) as HL.
        fold chunks in HL.
        unfold recv'. rewrite <- HL at 1.
        apply slice_scratch. etransitivity; [by apply Nat.eq_le_incl|lia].
    + intros r Hr. by rewrite Nat.add_succ_comm.
    + intros r Hr. unfold recv'. rewrite length_inserts. by apply Hrecv.
Qed.

Lemma ring_gather_runs m k (f : nat -> list E -> proc (E := E) (A := list E)) :
  k + m < n ->
  runs n (fun r => pbind (ring_gather m k r n chunks (tab numel (ag_val k r))) (f r))
       (fun r => f r (tab numel (ag_val (k + m) r))).
Proof.
  revert k. induction m as [|m IH]; intros k Hk.
  { apply runs_refl. intros r Hr. by rewrite Nat.add_0_r. }
  set (si := fun r => (r + n - k + 1) mod n).
  assert (forall r, si r < n) as Hsi by (intros r; apply Nat.mod_upper_bound; lia).
  assert (forall r, r < n -> si (ring_prev r) = (r + n - k) mod n) as Hri.
  { intros r Hr. unfold si, ring_prev. rewrite (mod_twice (r + n - 1)) by lia.
    destruct (Nat.ltb_spec (r + n - 1) n).
    - replace (r + n - 1 + n - k + 1) with (r + n - k + 1 * n) by lia. apply Nat.Div0.mod_add.
    - f_equal. lia. }
  eapply runs_trans.
  - eapply runs_ext; [| |apply (runs_round n (ring_plan si (ag_val k))
      (fun r got => pbind (ring_gather m (S k) r n chunks
           (list_inserts (elem_start (chunk_at chunks (si (ring_prev r)))) (received got 1)
              (tab numel (ag_val k r)))) (f r)))].
    + intros r Hr. cbn -[chunk_at chunk_data Nat.modulo]. unfold fork, ring_plan.
      cbn -[chunk_at chunk_data Nat.modulo]. rewrite Hri by done. reflexivity.
    + intros r Hr. reflexivity.
    + by apply ring_plan_matched.
  - eapply runs_ext; [| |apply (IH (S k))]; [| |lia].
    + intros r Hr. rewrite ring_plan_got by done. unfold received.
      cbn -[chunk_at chunk_data list_inserts Nat.modulo ring_gather].
      f_equal. f_equal. unfold chunk_data. rewrite write_tab by (by apply chunk_bounds).
      apply tab_ext. intros i Hi. rewrite ag_val_step by (done || lia).
      rewrite <- Hri by done. by apply pick_chunk.
    + intros r Hr. by rewrite Nat.add_succ_comm.
Qed.

Lemma allreduce_ring_runs avg (t recv : nat -> list E) :
  n <= numel -> (forall r, r < n -> t r = tab numel (x r)) ->
  (forall r, r < n -> per <= length (recv r)) ->
  runs n (fun r => allreduce_ring redop scale (t r) (recv r) numel esize avg r n)
       (fun r => Ret (tab numel (fun i =>
          let v := ring_acc (cof i) (n - 1) i in if avg then scale v else v))).
Proof.
  intros Hle Ht Hrecv.
  eapply runs_trans; [|eapply runs_trans].
  - eapply runs_ext; [| |apply (ring_reduce_runs (n - 1) 0 recv (fun r t =>
      pbind (ring_gather (n - 1) 0 r n chunks t) (fun t => Ret (finish scale avg numel t))))];
      [| |lia|done].
    + intros r Hr. unfold allreduce_ring. destruct (Nat.ltb_spec numel n); [lia|].
      rewrite Ht by done. fold chunks. do 2 f_equal.
      apply tab_ext. intros i Hi. by rewrite rs_val_0.
    + intros r Hr. reflexivity.
  - eapply runs_ext; [| |apply (ring_gather_runs (n - 1) 0 (fun r t => Ret (finish scale avg numel t)))];
      [| |lia].
    + intros r Hr. cbn beta. do 2 f_equal. apply tab_ext. intros i Hi. by rewrite ag_val_0.
    + intros r Hr. reflexivity.
  - apply runs_refl. intros r Hr. rewrite finish_tab. f_equal. apply tab_ext. intros i Hi.
    simpl. by rewrite ag_val_last.
Qed.
End Ring.

(** ** The tree *)

Lemma mod_pow2_S r j :
  r mod 2 ^ j = 0 -> r mod 2 ^ S j = if Nat.testbit r j then 2 ^ j else 0.
Proof.
  intros H. pose proof (Nat.pow_nonzero 2 j). rewrite Nat.pow_succ_r', Nat.mul_comm.
  rewrite Nat.Div0.mod_mul_r, H, Nat.add_0_l.
  pose proof (Nat.testbit_spec' r j) as Hb. rewrite <- Hb.
  destruct (Nat.testbit r j); simpl; lia.
Qed.

Lemma mod_pow2_weaken r j : r mod 2 ^ S j = 0 -> r mod 2 ^ j = 0.
Proof.
  intros H. apply Nat.Lcm0.mod_divide in H as [q ->]. rewrite Nat.pow_succ_r'.
  apply Nat.Lcm0.mod_divide. exists (q * 2). lia.
Qed.

Lemma land_pow2 r j : (Nat.land r (2 ^ j) =? 0) = negb (Nat.testbit r j).
Proof.
  destruct (Nat.testbit r j) eqn:Hb; simpl.
  - apply Nat.eqb_neq. intros H0.
    assert (Nat.testbit (Nat.land r (2 ^ j)) j = false) as Hc by (rewrite H0; apply Nat.bits_0).
    by rewrite Nat.land_spec, Nat.pow2_bits_true, Hb in Hc.
  - apply Nat.eqb_eq. apply Nat.bits_inj. intros i. rewrite Nat.land_spec, Nat.bits_0.
    destruct (decide (i = j)) as [->|]; [by rewrite Hb|].
    rewrite Nat.pow2_bits_false by lia. apply andb_false_r.
Qed.

(** A multiple of [2m] and its partner at distance [m]. *)
Lemma partner_up r m : 0 < m -> r mod (2 * m) = 0 -> (r + m) mod (2 * m) = m.
Proof.
  intros Hm H. apply Nat.Lcm0.mod_divide in H as [q ->].
  rewrite Nat.add_comm, Nat.Div0.mod_add. apply Nat.mod_small. lia.
Qed.
Lemma partner_down r m : 0 < m -> r mod (2 * m) = m -> m <= r /\ (r - m) mod (2 * m) = 0.
Proof.
  intros Hm H. pose proof (Nat.div_mod_eq r (2 * m)) as Hd. rewrite H in Hd. split; [lia|].
  apply Nat.Lcm0.mod_divide. exists (r / (2 * m)). lia.
Qed.

Section Tree.
Context {E : Type} (redop : E -> E -> E) (scale : E -> E).
Context (numel n : nat) (Hn : 0 < n) (x : nat -> nat -> E).

(** The buffer of a rank after the masks below [2^j]. *)
Fixpoint tree_val (j r i : nat) : E :=
  match j with
  | O => x r i
  | S j' =>
    if (r mod 2 ^ j =? 0) && (r + 2 ^ j' <? n)
    then redop (tree_val j' r i) (tree_val j' (r + 2 ^ j') i) else tree_val j' r i
  end.

(** A round in which [tell r] says whom rank [r] sends its buffer to and
    [hear r] whom it listens to. *)
Definition pair_plan (tell hear : nat -> option nat) (b : nat -> nat -> E) (r : nat) : plan E :=
  match tell r, hear r with
  | Some q, _ => [([(q, tab numel (b r))], [])]
  | None, Some p => [([], [(p, numel)])]
  | None, None => []
  end.

Definition paired (tell hear : nat -> option nat) : Prop :=
  (forall r q, r < n -> tell r = Some q -> q < n /\ tell q = None /\ hear q = Some r) /\
  (forall r p, r < n -> tell r = None -> hear r = Some p -> p < n /\ tell p = Some r).

Lemma pair_plan_out tell hear b q r :
  plan_out q (pair_plan tell hear b r) = if decide (tell r = Some q) then tab numel (b r) else [].
Proof.
  unfold pair_plan, plan_out, out_of. destruct (tell r) as [p|]; [|by destruct (hear r)].
  simpl. rewrite !app_nil_r. repeat case_decide; congruence.
Qed.

Lemma pair_plan_matched tell hear b : paired tell hear -> matched n (pair_plan tell hear b).
Proof.
  intros [Ht Hh]. split.
  - intros r Hr. unfold pair_plan, plan_in.
    destruct (tell r), (hear r); simpl; try apply NoDup_nil_2. apply NoDup_singleton.
  - intros r y Hr Hy. unfold pair_plan, plan_in in Hy.
    destruct (tell r) eqn:Et; [by apply elem_of_nil in Hy|].
    destruct (hear r) as [p|] eqn:Eh; [|by apply elem_of_nil in Hy].
    simpl in Hy. apply list_elem_of_singleton in Hy as ->. simpl.
    destruct (Hh r p Hr Et Eh) as [Hp Htp]. split; [done|].
    rewrite pair_plan_out, decide_True by done. apply length_tab.
  - intros p r Hp Hne. rewrite pair_plan_out in Hne. case_decide as Hd; [|done].
    destruct (Ht p r Hp Hd) as (Hr & Hnt & Hhr). split; [done|].
    unfold pair_plan, plan_in. rewrite Hnt, Hhr. simpl. left.
Qed.

Lemma pair_plan_hears tell hear b r p :
  paired tell hear -> r < n -> tell r = None -> hear r = Some p ->
  plan_got (fun p => plan_out r (pair_plan tell hear b p)) (pair_plan tell hear b r) =
  [[tab numel (b p)]].
Proof.
  intros [_ Hh] Hr Et Eh. destruct (Hh r p Hr Et Eh) as [Hp Htp].
  unfold pair_plan at 2. rewrite Et, Eh. unfold plan_got. simpl.
  by rewrite pair_plan_out, decide_True.
Qed.

(** Who talks to whom in the round of mask [2^j]. *)
Definition up_tell (j r : nat) : option nat :=
  if (r mod 2 ^ j =? 0) && Nat.testbit r j then Some (r - 2 ^ j) else None.
Definition up_hear (j r : nat) : option nat :=
  if (r mod 2 ^ j =? 0) && negb (Nat.testbit r j) && (r + 2 ^ j <? n) then Some (r + 2 ^ j) else None.

Lemma up_paired j : paired (up_tell j) (up_hear j).
Proof.
  pose proof (Nat.pow_nonzero 2 j) as Hm. unfold up_tell, up_hear. split.
  - intros r q Hr H. destruct (Nat.eqb_spec (r mod 2 ^ j) 0) as [H0|]; [|done]. simpl in H.
    destruct (Nat.testbit r j) eqn:Hb; [|done]. injection H as <-.
    pose proof (mod_pow2_S r j H0) as HS. rewrite Hb, Nat.pow_succ_r' in HS.
    destruct (partner_down r (2 ^ j)) as [Hle Hpd]; [lia|done|].
    rewrite <- Nat.pow_succ_r' in Hpd. pose proof (mod_pow2_weaken _ _ Hpd) as Hw.
    pose proof (mod_pow2_S _ j Hw) as HS'. rewrite Hpd in HS'. rewrite Hw, Nat.eqb_refl. simpl.
    destruct (Nat.testbit (r - 2 ^ j) j); [lia|]. simpl.
    replace (r - 2 ^ j + 2 ^ j) with r by lia. destruct (Nat.ltb_spec r n); [|lia].
    split_and!; [lia|done|done].
  - intros r p Hr _ H. destruct (Nat.eqb_spec (r mod 2 ^ j) 0) as [H0|]; [|done]. simpl in H.
    destruct (Nat.testbit r j) eqn:Hb; [done|]. simpl in H.
    destruct (Nat.ltb_spec (r + 2 ^ j) n); [|done]. injection H as <-. split; [done|].
    pose proof (mod_pow2_S r j H0) as HS. rewrite Hb, Nat.pow_succ_r' in HS.
    pose proof (partner_up r (2 ^ j) ltac:(lia) HS) as Hpu.
    assert ((r + 2 ^ j) mod 2 ^ j = 0) as Hz.
    { rewrite Nat.Div0.add_mod, H0, Nat.Div0.mod_same. simpl. apply Nat.Div0.mod_0_l. }
    rewrite Hz, Nat.eqb_refl. simpl.
    pose proof (mod_pow2_S _ j Hz) as HS'. rewrite Nat.pow_succ_r', Hpu in HS'.
    destruct (Nat.testbit (r + 2 ^ j) j); [|lia]. f_equal. lia.
Qed.

Lemma tree_val_S j r i :
  tree_val (S j) r i =
  match up_hear j r with
  | Some p => redop (tree_val j r i) (tree_val j p i)
  | None => tree_val j r i
  end.
Proof.
  cbn [tree_val]. unfold up_hear. pose proof (Nat.pow_nonzero 2 j) as Hm.
  destruct (Nat.eqb_spec (r mod 2 ^ j) 0) as [H0|H0].
  - pose proof (mod_pow2_S r j H0) as ->. destruct (Nat.testbit r j); simpl.
    + destruct (Nat.eqb_spec (2 ^ j) 0); [lia|]. done.
    + by destruct (r + 2 ^ j <? n).
  - destruct (Nat.eqb_spec (r mod 2 ^ S j) 0) as [H1|]; [|done].
    by apply mod_pow2_weaken in H1.
Qed.

Lemma pow2_gt j : j < 2 ^ j.
Proof. apply Nat.pow_gt_lin_r. lia. Qed.

(** The first loop from mask [2^j] on. *)
Lemma tree_up_runs fuel j (recv : nat -> list E) (f : nat -> list E -> proc (E := E) (A := list E)) :
  n <= j + fuel -> (forall r, r < n -> numel <= length (recv r)) ->
  exists J, n <= 2 ^ J /\
  runs n (fun r => pbind (tree_up redop fuel (2 ^ j) r n numel (r mod 2 ^ j =? 0)
                            (tab numel (tree_val j r)) (recv r)) (f r))
         (fun r => f r (tab numel (tree_val J r))).
Proof.
  revert j recv. induction fuel as [|fuel IH]; intros j recv Hf Hrecv.
  { pose proof (pow2_gt j). exists j. split; [lia|]. apply runs_refl. intros r Hr. simpl.
    destruct (Nat.leb_spec n (2 ^ j)); [done|lia]. }
  destruct (decide (n <= 2 ^ j)) as [Hge|Hlt].
  { exists j. split; [done|]. apply runs_refl. intros r Hr. cbn -[Nat.pow].
    destruct (Nat.leb_spec n (2 ^ j)); [done|lia]. }
  set (b := fun r i => tree_val j r i).
  set (recv' := fun r => match up_hear j r with
    | Some p => list_inserts 0 (tab numel (b p)) (recv r) | None => recv r end).
  destruct (IH (S j) recv') as (J & HJ & Hrun); [lia| |].
  { intros r Hr. unfold recv'. destruct (up_hear j r); [rewrite length_inserts|]; by apply Hrecv. }
  exists J. split; [done|]. eapply runs_trans; [|exact Hrun]. clear IH Hrun.
  set (cont := fun r (got : list (list (list E))) =>
    match up_hear j r with
    | Some p => let recv := list_inserts 0 (received got 0) (recv r) in
        tree_up redop fuel (2 * 2 ^ j) r n numel true
          (metal_reduce_op_view redop 0 0 numel recv (tab numel (b r))) recv
    | None => tree_up redop fuel (2 * 2 ^ j) r n numel (r mod 2 ^ S j =? 0) (tab numel (b r)) (recv r)
    end).
  eapply runs_ext; [| |apply (runs_round n (pair_plan (up_tell j) (up_hear j) b)
    (fun r got => pbind (cont r got) (f r))), pair_plan_matched, up_paired].
  - intros r Hr. cbn -[Nat.pow Nat.modulo Nat.land Nat.ltb Nat.mul Nat.leb]. destruct (Nat.leb_spec n (2 ^ j)); [lia|].
    unfold cont, pair_plan, up_tell, up_hear. rewrite land_pow2.
    pose proof (Nat.pow_nonzero 2 j) as Hm.
    destruct (Nat.eqb_spec (r mod 2 ^ j) 0) as [H0|H0]; cbn -[Nat.pow Nat.modulo Nat.ltb Nat.mul].
    + rewrite (mod_pow2_S r j H0).
      destruct (Nat.testbit r j); cbn -[Nat.pow Nat.modulo Nat.ltb Nat.mul].
      * destruct (Nat.eqb_spec (2 ^ j) 0); [lia|]. rewrite take_ge by (by rewrite length_tab). done.
      * by destruct (r + 2 ^ j <? n).
    + destruct (Nat.eqb_spec (r mod 2 ^ S j) 0) as [H1|]; [by apply mod_pow2_weaken in H1|]. done.
  - intros r Hr. unfold cont, recv'. rewrite Nat.pow_succ_r'.
    destruct (up_hear j r) as [p|] eqn:Eh.
    + assert (up_tell j r = None) as Et.
      { unfold up_hear, up_tell in *. destruct (r mod 2 ^ j =? 0), (Nat.testbit r j); done. }
      rewrite (pair_plan_hears _ _ b r p) by (done || apply up_paired).
      unfold received. cbn -[Nat.pow Nat.modulo tree_up tree_val list_inserts Nat.mul].
      assert ((r mod (2 * 2 ^ j) =? 0) = true) as ->.
      { unfold up_hear in Eh. destruct (Nat.eqb_spec (r mod 2 ^ j) 0) as [H0|]; [|done].
        rewrite <- Nat.pow_succ_r', (mod_pow2_S r j H0). by destruct (Nat.testbit r j). }
      f_equal. f_equal. rewrite (reduce_tab redop numel (b r) (b p)); [|lia|].
      * apply tab_ext. intros i Hi. rewrite tree_val_S, Eh. rewrite decide_True by lia. done.
      * pose proof (length_tab numel (b p)) as HL. rewrite <- HL at 1. rewrite slice_scratch.
        -- rewrite <- HL at 2. by rewrite slice_all.
        -- rewrite HL. by apply Hrecv.
    + f_equal. f_equal. apply tab_ext. intros i Hi. by rewrite tree_val_S, Eh.
Qed.

(** The buffers in the second loop when the masks from [2^j] on are done:
    the multiples of [2^j] hold the root's value. *)
Definition down_val (J j r i : nat) : E :=
  if r mod 2 ^ j =? 0 then tree_val J 0 i else tree_val J r i.

Definition down_tell (j r : nat) : option nat :=
  if (r mod 2 ^ S j =? 0) && (r + 2 ^ j <? n) then Some (r + 2 ^ j) else None.
Definition down_hear (j r : nat) : option nat :=
  if r mod 2 ^ S j =? 2 ^ j then Some (r - 2 ^ j) else None.

Lemma down_paired j : paired (down_tell j) (down_hear j).
Proof.
  pose proof (Nat.pow_nonzero 2 j) as Hm. unfold down_tell, down_hear.
  rewrite Nat.pow_succ_r'. split.
  - intros r q Hr H. destruct (Nat.eqb_spec (r mod (2 * 2 ^ j)) 0) as [H0|]; [|done]. simpl in H.
    destruct (Nat.ltb_spec (r + 2 ^ j) n); [|done]. injection H as <-. split; [done|].
    rewrite (partner_up r (2 ^ j)) by (done || lia). rewrite Nat.eqb_refl.
    destruct (Nat.eqb_spec (2 ^ j) 0); [lia|]. split; [done|]. f_equal. lia.
  - intros r p Hr _ H. destruct (Nat.eqb_spec (r mod (2 * 2 ^ j)) (2 ^ j)) as [H0|]; [|done].
    injection H as <-. destruct (partner_down r (2 ^ j)) as [Hle Hpd]; [lia|done|].
    rewrite Hpd, Nat.eqb_refl. simpl. replace (r - 2 ^ j + 2 ^ j) with r by lia.
    destruct (Nat.ltb_spec r n); [|lia]. split; [lia|done].
Qed.

Lemma down_val_step J j r i : r < n ->
  down_val J j r i =
  match down_hear j r with Some p => down_val J (S j) p i | None => down_val J (S j) r i end.
Proof.
  intros Hr. pose proof (Nat.pow_nonzero 2 j) as Hm. unfold down_val, down_hear.
  destruct (Nat.eqb_spec (r mod 2 ^ S j) (2 ^ j)) as [H1|H1].
  - rewrite Nat.pow_succ_r' in H1. destruct (partner_down r (2 ^ j)) as [Hle Hpd]; [lia|done|].
    rewrite <- Nat.pow_succ_r' in Hpd. rewrite Hpd, Nat.eqb_refl.
    assert (r mod 2 ^ j = 0) as ->; [|done].
    apply mod_pow2_weaken in Hpd. replace r with (r - 2 ^ j + 1 * 2 ^ j) by lia.
    by rewrite Nat.Div0.mod_add.
  - destruct (Nat.eqb_spec (r mod 2 ^ j) 0) as [H0|H0].
    + rewrite (mod_pow2_S r j H0) in *. destruct (Nat.testbit r j); [done|]. done.
    + destruct (Nat.eqb_spec (r mod 2 ^ S j) 0) as [H2|]; [by apply mod_pow2_weaken in H2|]. done.
Qed.

(** The second loop from mask [2^j] on. *)
Lemma tree_down_runs J j fuel (f : nat -> list E -> proc (E := E) (A := list E)) :
  j < fuel ->
  runs n (fun r => pbind (tree_down fuel (2 ^ j) r n numel (tab numel (down_val J (S j) r))) (f r))
         (fun r => f r (tab numel (tree_val J 0))).
Proof.
  revert fuel. induction j as [j IH] using lt_wf_ind. intros [|fuel] Hf; [lia|].
  pose proof (Nat.pow_nonzero 2 j) as Hm.
  set (b := down_val J (S j)).
  set (cont := fun r (got : list (list (list E))) =>
    match down_hear j r with
    | Some p => tree_down fuel (2 ^ j / 2) r n numel (list_inserts 0 (received got 0) (tab numel (b r)))
    | None => tree_down fuel (2 ^ j / 2) r n numel (tab numel (b r))
    end).
  eapply runs_trans; [eapply runs_ext; [| |apply (runs_round n
    (pair_plan (down_tell j) (down_hear j) b)
    (fun r got => pbind (cont r got) (f r))), pair_plan_matched, down_paired]|].
  - intros r Hr. cbn -[Nat.pow Nat.modulo Nat.ltb Nat.mul Nat.div].
    destruct (Nat.ltb_spec (2 ^ j) 1); [lia|].
    unfold cont, pair_plan, down_tell, down_hear. rewrite <- Nat.pow_succ_r'.
    destruct (Nat.eqb_spec (r mod 2 ^ S j) 0) as [H0|H0]; cbn -[Nat.pow Nat.modulo Nat.ltb Nat.div].
    + destruct (Nat.eqb_spec (r mod 2 ^ S j) (2 ^ j)); [lia|].
      destruct (r + 2 ^ j <? n); [|done]. cbn -[Nat.pow Nat.modulo Nat.ltb Nat.div].
      rewrite take_ge by (by rewrite length_tab). done.
    + by destruct (r mod 2 ^ S j =? 2 ^ j).
  - intros r Hr. reflexivity.
  - assert (forall r, r < n -> pbind (cont r (plan_got
      (fun p => plan_out r (pair_plan (down_tell j) (down_hear j) b p))
      (pair_plan (down_tell j) (down_hear j) b r))) (f r) =
      pbind (tree_down fuel (2 ^ j / 2) r n numel (tab numel (down_val J j r))) (f r)) as Hcont.
    { intros r Hr. unfold cont. destruct (down_hear j r) as [p|] eqn:Eh.
      - assert (down_tell j r = None) as Et.
        { unfold down_hear, down_tell in *.
          destruct (Nat.eqb_spec (r mod 2 ^ S j) (2 ^ j)) as [->|]; [|done].
          destruct (Nat.eqb_spec (2 ^ j) 0); [lia|done]. }
        rewrite (pair_plan_hears _ _ b r p) by (done || apply down_paired).
        unfold received. cbn -[tree_down list_inserts Nat.pow Nat.div down_val].
        do 2 f_equal. pose proof (write_tab numel (b r) (b p) 0 numel ltac:(lia)) as Hw.
        rewrite <- (length_tab numel (b p)) in Hw at 1. rewrite slice_all in Hw. rewrite Hw.
        apply tab_ext. intros i Hi. rewrite decide_True by lia.
        rewrite (down_val_step J j) by done. by rewrite Eh.
      - do 2 f_equal. apply tab_ext. intros i Hi.
        rewrite (down_val_step J j) by done. by rewrite Eh. }
    destruct j as [|j].
    + apply runs_refl. intros r Hr. rewrite Hcont by done.
      change (2 ^ 0 / 2) with 0. destruct fuel; cbn; done.
    + eapply runs_ext; [intros r Hr; rewrite Hcont by done|reflexivity|apply (IH j ltac:(lia) fuel ltac:(lia))].
      rewrite Nat.pow_succ_r', Nat.mul_comm, Nat.div_mul by lia. done.
Qed.

Lemma top_mask_spec fuel j :
  n <= j + fuel -> exists jt, top_mask fuel (2 ^ j) n = 2 ^ jt /\ jt <= j + fuel /\ n <= 2 ^ S jt.
Proof.
  revert j. induction fuel as [|fuel IH]; intros j Hf.
  - exists j. split; [done|]. split; [lia|]. pose proof (pow2_gt (S j)). lia.
  - cbn [top_mask]. rewrite Nat.mul_comm, <- Nat.pow_succ_r'.
    destruct (Nat.ltb_spec (2 ^ S j) n).
    + destruct (IH (S j)) as (jt & -> & ? & ?); [lia|]. exists jt. split_and!; [done|lia|done].
    + exists j. split_and!; [done|lia|done].
Qed.

Lemma allreduce_tree_runs avg (t recv : nat -> list E) :
  (forall r, r < n -> t r = tab numel (x r)) -> (forall r, r < n -> numel <= length (recv r)) ->
  exists J, n <= 2 ^ J /\
  runs n (fun r => allreduce_tree redop scale (t r) (recv r) numel avg r n)
         (fun r => Ret (tab numel (fun i =>
            let v := tree_val J 0 i in if avg then scale v else v))).
Proof.
  intros Ht Hrecv. destruct (top_mask_spec n 0) as (jt & Htop & Hjt & Hge); [lia|].
  destruct (tree_up_runs n 0 recv (fun r t =>
    pbind (tree_down (S n) (top_mask n 1 n) r n numel t) (fun t => Ret (finish scale avg numel t))))
    as (J & HJ & Hup); [lia|done|].
  exists J. split; [done|]. eapply runs_trans; [|eapply runs_trans; [exact Hup|]].
  - apply runs_refl. intros r Hr. unfold allreduce_tree. by rewrite Ht.
  - change (2 ^ 0) with 1 in Htop. rewrite Htop.
    eapply runs_trans; [eapply runs_ext; [| |apply (tree_down_runs J jt (S n)
      (fun r t => Ret (finish scale avg numel t)))]|]; [| |lia|].
    + intros r Hr. cbn beta. do 2 f_equal. apply tab_ext. intros i Hi. unfold down_val.
      rewrite Nat.mod_small by lia. by destruct (Nat.eqb_spec r 0) as [->|].
    + intros r Hr. reflexivity.
    + apply runs_refl. intros r Hr. by rewrite finish_tab.
Qed.
End Tree.

(** ** The butterfly *)

(** Blocks written one after the other are found at their places. *)
Lemma fold_blocks {E} (cnt m : nat) (d : nat -> list E) (recv : list E) :
  (forall s, s < m -> length (d s) = cnt) -> m * cnt <= length recv ->
  let recv' := foldl (fun recv s => list_inserts (s * cnt) (d s) recv) recv (seq 0 m) in
  length recv' = length recv /\ forall s, s < m -> slice (s * cnt) cnt recv' = d s.
Proof.
  intros Hd Hl. induction m as [|m IH]; [split; [done|]; intros; lia|].
  rewrite seq_S. cbv zeta. rewrite foldl_app. simpl foldl at 1 3.
  destruct IH as [IHl IH]; [intros; apply Hd; lia|lia|].
  rewrite length_inserts. split; [done|]. intros s Hs.
  destruct (decide (s = m)) as [->|Hne].
  - rewrite <- (Hd m) at 2 by lia. rewrite slice_inserts_same; [done|]. rewrite IHl, Hd by lia. lia.
  - rewrite slice_inserts_disjoint; [by apply IH; lia| |].
    + left. nia.
    + rewrite IHl. nia.
Qed.

Lemma plan_acts_join {E T} (g : T -> plan E) (l : list T) :
  plan_acts (mjoin (g <$> l)) = mjoin ((fun p => plan_acts (g p)) <$> l).
Proof.
  induction l as [|p l IH]; [done|].
  change (mjoin (g <$> p :: l)) with (g p ++ mjoin (g <$> l)).
  unfold plan_acts in *. by rewrite fmap_app, IH.
Qed.

Section Butterfly.
Context {E : Type} (redop : E -> E -> E) (scale : E -> E).
Context (numel esize n : nat) (Hn : 0 < n) (x : nat -> nat -> E).
Let per := (numel + n - 1) / n.
Let chunks := chunkize numel esize n.
Let cof i := chunk_of numel n i.

(** Element [i] of the chunk of rank [c], reduced in the order of the
    slots. *)
Definition fly_val (c i : nat) : E :=
  foldl (fun acc p => redop acc (x p i)) (x c i) (others c n).

(** The reduction of the received slots. *)
Lemma reduce_slots_tab r m (peers : list nat) f recv :
  r < n -> m = length peers ->
  (forall s p, peers !! s = Some p ->
     slice (s * elem_count (chunk_at chunks r)) (elem_count (chunk_at chunks r)) recv =
     chunk_data (chunk_at chunks r) (tab numel (x p))) ->
  reduce_slots redop (chunk_at chunks r) m recv (tab numel f) =
  tab numel (fun i => if decide (cof i = r)
                      then foldl (fun acc p => redop acc (x p i)) (f i) peers else f i).
Proof.
  intros Hr -> Hs. induction peers as [|p peers IH] using rev_ind.
  { apply tab_ext. intros i Hi. by case_decide. }
  unfold reduce_slots in *. rewrite length_app. simpl length.
  rewrite Nat.add_1_r, seq_S, foldl_app. simpl foldl at 1.
  rewrite IH.
  2: { intros s q Hq. apply Hs. rewrite lookup_app_l; [done|]. by eapply lookup_lt_Some. }
  rewrite (reduce_tab redop numel _ (x p)).
  - apply tab_ext. intros i Hi. rewrite (pick_chunk numel esize n r) by done.
    fold (cof i). rewrite foldl_app. simpl. by case_decide.
  - by apply chunk_bounds.
  - apply Hs. by rewrite lookup_app_r, Nat.sub_diag by lia.
Qed.

(** The writes of the gathered chunks. *)
Lemma gather_tab (peers : list nat) (d : nat -> list E) f g :
  (forall p, p ∈ peers -> p < n) ->
  (forall s p, peers !! s = Some p -> d s = chunk_data (chunk_at chunks p) (tab numel (g p))) ->
  foldl (fun t sp => list_inserts (elem_start (chunk_at chunks sp.2)) (d sp.1) t) (tab numel f)
    (zip (seq 0 (length peers)) peers) =
  tab numel (fun i => if decide (cof i ∈ peers) then g (cof i) i else f i).
Proof.
  intros Hp Hd. induction peers as [|p peers IH] using rev_ind.
  { apply tab_ext. intros i Hi. rewrite decide_False; [done|]. by intros H%elem_of_nil. }
  rewrite length_app. simpl length. rewrite Nat.add_1_r, seq_S, zip_with_app by (by rewrite length_seq).
  rewrite foldl_app. simpl foldl at 1. rewrite IH.
  - rewrite (Hd (length peers) p) by (by rewrite lookup_app_r, Nat.sub_diag by lia).
    assert (p < n) as Hpn by (apply Hp, elem_of_app; right; left).
    unfold chunk_data. rewrite write_tab by (by apply chunk_bounds).
    apply tab_ext. intros i Hi. rewrite (pick_chunk numel esize n p) by done. fold (cof i).
    pose proof (elem_of_app peers [p] (cof i)) as Happ. rewrite list_elem_of_singleton in Happ.
    repeat case_decide; subst; done || tauto.
  - intros q Hq. apply Hp, elem_of_app. by left.
  - intros s q Hq. apply Hd. rewrite lookup_app_l; [done|]. by eapply lookup_lt_Some.
Qed.

Definition fly_msg1 (r p : nat) : list E := chunk_data (chunk_at chunks p) (tab numel (x r)).
Definition fly_len1 (r p : nat) : nat := elem_count (chunk_at chunks r).
Definition fly_buf (r i : nat) : E := if decide (cof i = r) then fly_val r i else x r i.
Definition fly_msg2 (r p : nat) : list E := chunk_data (chunk_at chunks r) (tab numel (fly_buf r)).
Definition fly_len2 (r p : nat) : nat := elem_count (chunk_at chunks p).

(** What a rank does with what it received in the first and in the second
    round. *)
Definition fly_write avg r (t : list E) (got : list (list (list E))) : proc (E := E) (A := list E) :=
  Ret (finish scale avg numel (foldl (fun t sp =>
    list_inserts (elem_start (chunk_at chunks sp.2)) (received got (2 * sp.1 + 1)) t)
    t (zip (seq 0 (length (others r n))) (others r n)))).
Definition fly_reduce avg (recv : nat -> list E) r (got : list (list (list E))) : proc (E := E) (A := list E) :=
  let my := chunk_at chunks r in
  let recv := foldl (fun recv slot =>
    list_inserts (slot * elem_count my) (received got (2 * slot + 1)) recv) (recv r)
    (seq 0 (length (others r n))) in
  let t := reduce_slots redop my (n - 1) recv (tab numel (x r)) in
  fork (mjoin ((fun p => [[Snd p (chunk_data my t)]; [Rcv p (elem_count (chunk_at chunks p))]]) <$> others r n))
    (fly_write avg r t).

Lemma fly_chunk_length p (f : nat -> E) :
  p < n -> length (chunk_data (chunk_at chunks p) (tab numel f)) = elem_count (chunk_at chunks p).
Proof. intros Hp. by apply chunk_data_length. Qed.

(** The first round is an exchange. *)
Lemma fly_round1 avg (t recv : nat -> list E) :
  n <= numel -> (forall r, r < n -> t r = tab numel (x r)) ->
  (forall r, r < n -> (n - 1) * per <= length (recv r)) ->
  runs n (fun r => allreduce_butterfly redop scale (t r) (recv r) numel esize avg r n)
         (fun r => fly_reduce avg recv r
            (plan_got (fun p => plan_out r (exchange2 n fly_msg1 fly_len1 p)) (exchange2 n fly_msg1 fly_len1 r))).
Proof.
  intros Hle Ht Hrecv.
  eapply runs_ext; [| |apply (runs_round n (exchange2 n fly_msg1 fly_len1) (fly_reduce avg recv))]; [|done|].
  - intros r Hr. unfold allreduce_butterfly. destruct (Nat.ltb_spec numel n); [lia|].
    rewrite Ht by done. fold chunks.
    destruct (chunk_bounds numel esize n Hn r Hr) as [_ Hb]. fold chunks per in Hb.
    specialize (Hrecv r Hr).
    destruct (Nat.ltb_spec (length (recv r)) ((n - 1) * elem_count (chunk_at chunks r))); [nia|].
    unfold exchange2. by rewrite plan_acts_join.
  - apply exchange2_matched. intros r p Hr Hp Hpr. unfold fly_msg1, fly_len1. by apply fly_chunk_length.
Qed.

(** After it the own chunk is reduced, and the second round is an exchange. *)
Lemma fly_round2 avg (recv : nat -> list E) :
  (forall r, r < n -> (n - 1) * per <= length (recv r)) ->
  runs n (fun r => fly_reduce avg recv r
            (plan_got (fun p => plan_out r (exchange2 n fly_msg1 fly_len1 p)) (exchange2 n fly_msg1 fly_len1 r)))
         (fun r => fly_write avg r (tab numel (fly_buf r))
            (plan_got (fun p => plan_out r (exchange2 n fly_msg2 fly_len2 p)) (exchange2 n fly_msg2 fly_len2 r))).
Proof.
  intros Hrecv. eapply runs_ext;
    [| |apply (runs_round n (exchange2 n fly_msg2 fly_len2) (fun r => fly_write avg r (tab numel (fly_buf r))))]; [|done|].
  - intros r Hr. unfold fly_reduce. cbv zeta. set (got := plan_got _ _).
    destruct (fold_blocks (elem_count (chunk_at chunks r)) (length (others r n))
      (fun slot => received got (2 * slot + 1)) (recv r)) as [_ Hfb].
    { intros s Hs. destruct (lookup_lt_is_Some_2 _ _ Hs) as [p Hp]. unfold got.
      rewrite (received_exchange2 n _ _ r s p) by done. unfold fly_msg1. by apply fly_chunk_length. }
    { rewrite length_others by done. specialize (Hrecv r Hr).
      destruct (chunk_bounds numel esize n Hn r Hr) as [_ Hb]. fold chunks per in Hb. nia. }
    rewrite (reduce_slots_tab r (n - 1) (others r n)); [|done|by rewrite length_others|].
    + unfold exchange2. rewrite plan_acts_join. reflexivity.
    + intros s p Hp. rewrite Hfb by (by eapply lookup_lt_Some). unfold got.
      by rewrite (received_exchange2 n _ _ r s p).
  - apply exchange2_matched. intros r p Hr Hp Hpr. unfold fly_msg2, fly_len2. by apply fly_chunk_length.
Qed.

(** What is written then is the reduction. *)
Lemma fly_written avg r :
  r < n ->
  fly_write avg r (tab numel (fly_buf r))
    (plan_got (fun p => plan_out r (exchange2 n fly_msg2 fly_len2 p)) (exchange2 n fly_msg2 fly_len2 r)) =
  Ret (tab numel (fun i => let v := fly_val (cof i) i in if avg then scale v else v)).
Proof.
  intros Hr. unfold fly_write. f_equal. set (got := plan_got _ _).
  pose proof (gather_tab (others r n) (fun s => received got (2 * s + 1)) (fly_buf r) fly_buf) as Hg.
  cbv beta in Hg. rewrite Hg; clear Hg.
  - rewrite finish_tab. apply tab_ext. intros i Hi.
    assert ((if decide (cof i ∈ others r n) then fly_buf (cof i) i else fly_buf r i)
      = fly_val (cof i) i) as ->; [|done].
    pose proof (chunk_of_lt numel n Hn i Hi) as Hc. fold (cof i) in Hc.
    unfold fly_buf. case_decide as Hd; [by rewrite decide_True|].
    rewrite elem_of_others in Hd. rewrite decide_True by (destruct (decide (cof i = r)); [done|lia]).
    f_equal. destruct (decide (cof i = r)); [done|lia].
  - intros p Hp. by apply elem_of_others in Hp as [_ ?].
  - intros s p Hp. unfold got. by rewrite (received_exchange2 n _ _ r s p).
Qed.

Lemma allreduce_butterfly_runs avg (t recv : nat -> list E) :
  n <= numel -> (forall r, r < n -> t r = tab numel (x r)) ->
  (forall r, r < n -> (n - 1) * per <= length (recv r)) ->
  runs n (fun r => allreduce_butterfly redop scale (t r) (recv r) numel esize avg r n)
         (fun r => Ret (tab numel (fun i =>
            let v := fly_val (cof i) i in if avg then scale v else v))).
Proof.
  intros Hle Ht Hrecv. eapply runs_trans; [by apply fly_round1|]. eapply runs_trans; [by apply fly_round2|].
  apply runs_refl. apply fly_written.
Qed.
End Butterfly.

(** ** The programs are well formed *)

Lemma NoDup_join_disjoint {T} (ls : list (list T)) t u a b y :
  NoDup (mjoin ls) -> t <> u -> ls !! t = Some a -> ls !! u = Some b -> y ∈ a -> y ∈ b -> False.
Proof.
  revert t u. induction ls as [|l ls IH]; intros t u Hnd Htu Ht Hu Ha Hb; [done|].
  simpl in Hnd. apply NoDup_app in Hnd as (_ & Hdis & Hnd).
  assert (forall v c, ls !! v = Some c -> y ∈ c -> y ∈ mjoin ls) as Hin.
  { intros v c Hv Hc. apply list_elem_of_join. exists c. split; [done|].
    by eapply list_elem_of_lookup_2. }
  destruct t as [|t], u as [|u]; simpl in *; simplify_eq.
  - by eapply (Hdis y), Hin.
  - by eapply (Hdis y), Hin.
  - eapply (IH t u); try done. congruence.
Qed.

(** A plan with one thread per peer in each direction. *)
Lemma wf_fork_plan {E A} (pl : plan E) (k : list (list (list E)) -> proc (E := E) (A := A)) :
  NoDup (mjoin ((fun th => th.1.*1) <$> pl)) -> NoDup (mjoin ((fun th => th.2.*1) <$> pl)) ->
  (forall got, wf_proc (k got)) -> wf_proc (fork (plan_acts pl) k).
Proof.
  intros Hs Hr Hk. apply wf_fork; [|done]. intros t u X Y a b Htu Ht Hu Ha Hb Hc.
  unfold plan_acts in Ht, Hu. rewrite list_lookup_fmap in Ht, Hu.
  apply fmap_Some in Ht as ([ss rs] & Ht & ->), Hu as ([ss' rs'] & Hu & ->). simpl in *.
  rewrite elem_of_app, !list_elem_of_fmap in Ha, Hb.
  destruct Ha as [([p d] & -> & Ha)|([p m] & -> & Ha)], Hb as [([q d'] & -> & Hb)|([q m'] & -> & Hb)];
    simpl in Hc; try done; subst q.
  - eapply (NoDup_join_disjoint _ t u ss.*1 ss'.*1 p Hs Htu).
    + by rewrite list_lookup_fmap, Ht.
    + by rewrite list_lookup_fmap, Hu.
    + by apply (list_elem_of_fmap_2 fst) in Ha.
    + by apply (list_elem_of_fmap_2 fst) in Hb.
  - eapply (NoDup_join_disjoint _ t u rs.*1 rs'.*1 p Hr Htu).
    + by rewrite list_lookup_fmap, Ht.
    + by rewrite list_lookup_fmap, Hu.
    + by apply (list_elem_of_fmap_2 fst) in Ha.
    + by apply (list_elem_of_fmap_2 fst) in Hb.
Qed.

Lemma wf_exchange2 {E A} n msg len r (k : list (list (list E)) -> proc (E := E) (A := A)) :
  (forall got, wf_proc (k got)) -> wf_proc (fork (plan_acts (exchange2 (E := E) n msg len r)) k).
Proof.
  intros Hk. assert (forall l : list nat,
    mjoin ((fun th => th.1.*1) <$> mjoin ((fun p => [([(p, msg r p)], []); ([], [(p, len r p)])]) <$> l)) = l /\
    mjoin ((fun th : list (nat * list E) * list (nat * nat) => th.2.*1) <$>
      mjoin ((fun p => [([(p, msg r p)], []); ([], [(p, len r p)])]) <$> l)) = l) as Hl.
  { induction l as [|p l [IH1 IH2]]; [done|]. split.
    - by rewrite <- IH1 at 2.
    - by rewrite <- IH2 at 2. }
  unfold exchange2. destruct (Hl (others r n)) as [H1 H2].
  apply wf_fork_plan; [rewrite H1|rewrite H2|done]; apply NoDup_others.
Qed.

Section Wf.
Context {E : Type} (redop : E -> E -> E) (scale : E -> E).

Lemma wf_ring_fork {A} a d b m (k : list (list (list E)) -> proc (E := E) (A := A)) :
  (forall got, wf_proc (k got)) -> wf_proc (fork [[Snd a d]; [Rcv b m]] k).
Proof.
  intros Hk. apply (wf_fork_plan [([(a, d)], []); ([], [(b, m)])]); [apply NoDup_singleton..|done].
Qed.
Lemma wf_one {A} a (k : list (list (list E)) -> proc (E := E) (A := A)) :
  (forall got, wf_proc (k got)) -> wf_proc (fork [[a]] k).
Proof.
  intros Hk. apply wf_fork; [|done]. intros [|t] [|u] X Y x y Htu Ht Hu; done.
Qed.
Lemma wf_none {A} (k : list (list (list E)) -> proc (E := E) (A := A)) :
  (forall got, wf_proc (k got)) -> wf_proc (fork [] k).
Proof. intros Hk. by apply wf_fork. Qed.

Lemma wf_ring_reduce m k r n chunks t recv : wf_proc (ring_reduce redop m k r n chunks t recv).
Proof.
  revert k t recv. induction m; intros; simpl; [constructor|]. apply wf_ring_fork. eauto.
Qed.
Lemma wf_ring_gather m k r n chunks (t : list E) : wf_proc (ring_gather m k r n chunks t).
Proof. revert k t. induction m; intros; simpl; [constructor|]. apply wf_ring_fork. eauto. Qed.
Lemma wf_tree_up fuel mask r n numel active t recv :
  wf_proc (tree_up redop fuel mask r n numel active t recv).
Proof.
  revert mask active t recv. induction fuel; intros; simpl; repeat case_match;
    first [apply wf_Ret | apply wf_Raise | apply wf_one; eauto | apply wf_none; eauto].
Qed.
Lemma wf_tree_down fuel mask r n numel (t : list E) : wf_proc (tree_down fuel mask r n numel t).
Proof.
  revert mask t. induction fuel; intros; simpl; repeat case_match;
    first [apply wf_Ret | apply wf_Raise | apply wf_one; eauto | apply wf_none; eauto].
Qed.
Hint Resolve wf_ring_reduce wf_ring_gather wf_tree_up wf_tree_down : core.

Lemma wf_allreduce_ring t recv numel esize avg r n :
  wf_proc (allreduce_ring redop scale t recv numel esize avg r n).
Proof.
  unfold allreduce_ring. case_match; [constructor|].
  apply wf_pbind; [done|]. intros. apply wf_pbind; [done|]. intros. constructor.
Qed.

Lemma wf_allreduce_tree t recv numel avg r n :
  wf_proc (allreduce_tree redop scale t recv numel avg r n).
Proof.
  unfold allreduce_tree. apply wf_pbind; [done|]. intros. apply wf_pbind; [done|].
  intros. constructor.
Qed.

Lemma wf_allreduce_butterfly t recv numel esize avg r n :
  wf_proc (allreduce_butterfly redop scale t recv numel esize avg r n).
Proof.
  unfold allreduce_butterfly. repeat (case_match; [constructor|]).
  set (chunks := chunkize numel esize n).
  match goal with |- wf_proc (fork (mjoin (?g <$> _)) ?k) =>
    assert (mjoin (g <$> others r n) = plan_acts (exchange2 n
      (fun _ p => chunk_data (chunk_at chunks p) t) (fun _ _ => elem_count (chunk_at chunks r)) r))
      as -> by (unfold exchange2; by rewrite plan_acts_join) end.
  apply wf_exchange2. intros got. cbv zeta.
  set (t2 := reduce_slots _ _ _ _ _).
  match goal with |- wf_proc (fork (mjoin (?g <$> _)) ?k) =>
    assert (mjoin (g <$> others r n) = plan_acts (exchange2 n
      (fun _ p => chunk_data (chunk_at chunks r) t2) (fun _ p => elem_count (chunk_at chunks p)) r))
      as -> by (unfold exchange2; by rewrite plan_acts_join) end.
  apply wf_exchange2. intros got2. constructor.
Qed.
End Wf.

(** ** What the orders of reduction compute *)

Section Values.
Context {E : Type} (redop : E -> E -> E).
Context (Hassoc : forall a b c, redop a (redop b c) = redop (redop a b) c).
Context (n : nat) (Hn : 0 < n) (x : nat -> nat -> E).

(** The reduction of ranks [lo .. lo+m) in rank order. *)
Definition range_red (lo m i : nat) : E :=
  foldl redop (x lo i) ((fun p => x p i) <$> seq (S lo) (m - 1)).

Lemma foldl_red a b l : foldl redop (redop a b) l = redop a (foldl redop b l).
Proof. revert b. induction l as [|c l IH]; intros b; simpl; [done|]. by rewrite <- Hassoc, IH. Qed.

Lemma range_red_app lo a b i :
  0 < a -> 0 < b -> redop (range_red lo a i) (range_red (lo + a) b i) = range_red lo (a + b) i.
Proof.
  intros Ha Hb. unfold range_red.
  replace (a + b - 1) with ((a - 1) + S (b - 1)) by lia.
  rewrite seq_app, fmap_app, foldl_app. replace (S lo + (a - 1)) with (lo + a) by lia.
  change (seq (lo + a) (S (b - 1))) with ((lo + a) :: seq (S (lo + a)) (b - 1)).
  rewrite fmap_cons. change (foldl redop ?y (?z :: ?l)) with (foldl redop (redop y z) l).
  by rewrite foldl_red.
Qed.

(** The tree needs associativity only: it keeps the rank order. *)
Lemma tree_val_range j r i :
  r < n -> r mod 2 ^ j = 0 -> tree_val redop n x j r i = range_red r (Nat.min (2 ^ j) (n - r)) i.
Proof.
  revert r. induction j as [|j IH]; intros r Hr H.
  { cbn [tree_val]. change (2 ^ 0) with 1. replace (Nat.min 1 (n - r)) with 1 by lia. done. }
  cbn [tree_val]. pose proof (mod_pow2_weaken r j H) as Hw. rewrite H, Nat.eqb_refl. cbn [andb].
  pose proof (Nat.pow_nonzero 2 j) as Hm.
  assert (2 ^ S j = 2 ^ j + 2 ^ j) as HS by (rewrite Nat.pow_succ_r'; lia).
  destruct (Nat.ltb_spec (r + 2 ^ j) n) as [Hlt|Hge].
  - rewrite (IH r) by done. rewrite (IH (r + 2 ^ j)); [|done|].
    + replace (Nat.min (2 ^ j) (n - r)) with (2 ^ j) by lia. rewrite range_red_app by lia.
      f_equal. lia.
    + rewrite Nat.Div0.add_mod, Hw, Nat.Div0.mod_same. apply Nat.Div0.mod_0_l.
  - rewrite (IH r) by done. f_equal. lia.
Qed.

Lemma tree_val_all J i : n <= 2 ^ J -> tree_val redop n x J 0 i = range_red 0 n i.
Proof.
  intros HJ. rewrite tree_val_range; [f_equal; lia|done|]. apply Nat.Div0.mod_0_l.
Qed.

Context (Hcomm : forall a b, redop a b = redop b a).

(** A nonempty reduction does not depend on the order. *)
Lemma foldl_red_perm a b l l' : a :: l ≡ₚ b :: l' -> foldl redop a l = foldl redop b l'.
Proof.
  set (f := fun a (o : option E) => Some (match o with None => a | Some b => redop a b end)).
  assert (forall l, foldr f None l = match l with [] => None | a :: l => Some (foldl redop a l) end)
    as Hf.
  { clear a b l l'. induction l as [|a l IH]; [done|]. simpl. rewrite IH.
    destruct l as [|b l]; [done|]. simpl. by rewrite foldl_red. }
  intros Hp. apply (foldr_permutation (=) f None) in Hp.
  - rewrite !Hf in Hp. by injection Hp.
  - intros _ a1 _ a2 o _ _ _. unfold f. f_equal. destruct o as [c|].
    + by rewrite !Hassoc, (Hcomm a1 a2).
    + apply Hcomm.
Qed.

(** [c :: l] enumerates the ranks. *)
Lemma red_all_ranks c l i :
  c :: l ≡ₚ seq 0 n -> foldl redop (x c i) ((fun p => x p i) <$> l) = range_red 0 n i.
Proof.
  intros Hp. unfold range_red. apply foldl_red_perm.
  apply (Permutation_map (fun p => x p i)) in Hp. simpl in Hp.
  change (map (fun p => x p i)) with (fmap (M := list) (fun p => x p i)) in Hp. rewrite Hp.
  destruct n as [|m]; [lia|]. simpl. by rewrite Nat.sub_0_r.
Qed.

Lemma fly_val_all c i : c < n -> fly_val redop n x c i = range_red 0 n i.
Proof.
  intros Hc. rewrite <- (red_all_ranks c (others c n)).
  - unfold fly_val. generalize (x c i). induction (others c n) as [|p l IH]; intros a; [done|].
    simpl. apply IH.
  - apply NoDup_Permutation; [|apply NoDup_seq|].
    + constructor; [by rewrite elem_of_others; intros []|apply NoDup_others].
    + intros p. rewrite elem_of_cons, elem_of_others, elem_of_seq. lia.
Qed.

Lemma ring_acc_all c i : c < n -> ring_acc redop n x c (n - 1) i = range_red 0 n i.
Proof.
  intros Hc. rewrite <- (red_all_ranks c ((fun p => (c + p) mod n) <$> seq 1 (n - 1))).
  - generalize (n - 1). intros m. induction m as [|m IH]; [done|].
    rewrite seq_S, fmap_app, fmap_app, foldl_app. cbn [ring_acc]. rewrite IH. simpl. apply Hcomm.
  - assert (c :: ((fun p => (c + p) mod n) <$> seq 1 (n - 1)) = (fun p => (c + p) mod n) <$> seq 0 n)
      as ->.
    { replace (seq 0 n) with (0 :: seq 1 (n - 1)) by (destruct n; [lia|]; simpl; by rewrite Nat.sub_0_r).
      rewrite fmap_cons, Nat.add_0_r, Nat.mod_small by done. done. }
    apply NoDup_Permutation; [|apply NoDup_seq|].
    + apply NoDup_fmap_2_strong; [|apply NoDup_seq].
      intros p q Hp Hq Heq. apply elem_of_seq in Hp, Hq. mod_cases; lia.
    + intros p. rewrite list_elem_of_fmap, elem_of_seq. split.
      * intros (q & -> & _). pose proof (Nat.mod_upper_bound (c + q) n). lia.
      * intros Hp. exists ((p + n - c) mod n). split.
        -- mod_cases; lia.
        -- apply elem_of_seq. pose proof (Nat.mod_upper_bound (p + n - c) n). lia.
Qed.
End Values.

(** ** Properties *)

Section Correctness.
Context {E : Type} `{!Inhabited E} (redop : E -> E -> E) (scale : E -> E).

(** The group at the start: every rank runs [f] on its tensor and scratch
    buffer; nothing is in flight. *)
Definition start_group (n : nat) (f : nat -> proc (E := E) (A := list E)) : net :=
  (procs_of n f, ∅).

Definition averaged (avg : bool) (v : E) : E := if avg then scale v else v.

(** Element [i] of the tensor of rank [r]. *)
Definition elem (xs : nat -> list E) (r i : nat) : E := xs r !!! i.

(** C3: Ring allreduce over [n] ranks, in every interleaving of their threads:
    all executions are finite, none gets stuck, and they all end with every
    rank holding the same tensor, whose element [i] is reduced along the
    ring starting at the rank that owns its chunk (and scaled for AVG). *)
Theorem allreduce_ring_correct n numel esize avg (xs recv : nat -> list E) :
  0 < n -> n <= numel ->
  (forall r, r < n -> length (xs r) = numel) ->
  (forall r, r < n -> (numel + n - 1) / n <= length (recv r)) ->
  inevitable
    (start_group n (fun r => allreduce_ring redop scale (xs r) (recv r) numel esize avg r n))
    (returned n (fun _ => tab numel (fun i =>
       averaged avg (ring_acc redop n (elem xs) (chunk_of numel n i) (n - 1) i)))).
Proof.
  intros Hn Hle Hxs Hrecv. apply runs_inevitable.
  - intros r Hr. apply wf_allreduce_ring.
  - apply (allreduce_ring_runs redop scale numel esize n Hn (elem xs) avg); [done| |done].
    intros r Hr. apply tab_total. by apply Hxs.
Qed.

(** C4: Tree allreduce over any number of ranks, power of two or not, in every
    interleaving: all executions are finite and end with every rank holding
    the tensor reduced by the binomial tree.  When the reduction is
    associative that is the reduction in rank order, element by element. *)
Theorem allreduce_tree_correct n numel avg (xs recv : nat -> list E) :
  0 < n ->
  (forall r, r < n -> length (xs r) = numel) ->
  (forall r, r < n -> numel <= length (recv r)) ->
  exists J, n <= 2 ^ J /\
  inevitable
    (start_group n (fun r => allreduce_tree redop scale (xs r) (recv r) numel avg r n))
    (returned n (fun _ => tab numel (fun i => averaged avg (tree_val redop n (elem xs) J 0 i)))) /\
  ((forall a b c, redop a (redop b c) = redop (redop a b) c) ->
   forall i, tree_val redop n (elem xs) J 0 i = range_red redop (elem xs) 0 n i).
Proof.
  intros Hn Hxs Hrecv.
  destruct (allreduce_tree_runs redop scale numel n Hn (elem xs) avg xs recv) as (J & HJ & Hrun);
    [|done|].
  { intros r Hr. apply tab_total. by apply Hxs. }
  exists J. split; [done|]. split.
  - apply runs_inevitable; [intros r Hr; apply wf_allreduce_tree|exact Hrun].
  - intros Ha i. by apply tree_val_all.
Qed.

(** C5: Butterfly allreduce (reduce-scatter and allgather over the full mesh),
    in every interleaving of its 2(n-1) threads per rank and phase: all
    executions are finite and end with every rank holding the same tensor,
    whose element [i] is reduced by the owner of its chunk in the order
    own value, then the other ranks ascending. *)
Theorem allreduce_butterfly_correct n numel esize avg (xs recv : nat -> list E) :
  0 < n -> n <= numel ->
  (forall r, r < n -> length (xs r) = numel) ->
  (forall r, r < n -> (n - 1) * ((numel + n - 1) / n) <= length (recv r)) ->
  inevitable
    (start_group n (fun r => allreduce_butterfly redop scale (xs r) (recv r) numel esize avg r n))
    (returned n (fun _ => tab numel (fun i =>
       averaged avg (fly_val redop n (elem xs) (chunk_of numel n i) i)))).
Proof.
  intros Hn Hle Hxs Hrecv. apply runs_inevitable.
  - intros r Hr. apply wf_allreduce_butterfly.
  - apply (allreduce_butterfly_runs redop scale numel esize n Hn (elem xs) avg); [done| |done].
    intros r Hr. apply tab_total. by apply Hxs.
Qed.

(** Two descriptions of the same result. *)
Lemma runs_value n numel avg (v w : nat -> E) (p : nat -> proc (E := E) (A := list E)) :
  (forall i, i < numel -> v i = w i) ->
  runs n p (fun _ => Ret (tab numel (fun i => averaged avg (v i)))) ->
  runs n p (fun _ => Ret (tab numel (fun i => averaged avg (w i)))).
Proof.
  intros Hv Hp. eapply runs_ext; [done| |exact Hp]. intros r Hr. cbn beta. f_equal. apply tab_ext.
  intros i Hi. by rewrite Hv.
Qed.

(** C6: For an associative and commutative reduction the three algorithms
    compute the same tensor on every rank and in every interleaving, the
    reduction of the ranks in rank order: the choice of the algorithm by size
    never changes the result. *)
Theorem allreduce_algorithms_agree n numel esize avg (xs ring_recv tree_recv fly_recv : nat -> list E) :
  (forall a b c, redop a (redop b c) = redop (redop a b) c) ->
  (forall a b, redop a b = redop b a) ->
  0 < n -> n <= numel -> (forall r, r < n -> length (xs r) = numel) ->
  (forall r, r < n -> (numel + n - 1) / n <= length (ring_recv r)) ->
  (forall r, r < n -> numel <= length (tree_recv r)) ->
  (forall r, r < n -> (n - 1) * ((numel + n - 1) / n) <= length (fly_recv r)) ->
  let same := returned n (fun _ => tab numel (fun i =>
                averaged avg (range_red redop (elem xs) 0 n i))) in
  inevitable (start_group n (fun r => allreduce_ring redop scale (xs r) (ring_recv r) numel esize avg r n)) same /\
  inevitable (start_group n (fun r => allreduce_tree redop scale (xs r) (tree_recv r) numel avg r n)) same /\
  inevitable (start_group n (fun r => allreduce_butterfly redop scale (xs r) (fly_recv r) numel esize avg r n)) same.
Proof.
  intros Ha Hc Hn Hle Hxs Hr1 Hr2 Hr3 same.
  assert (Htab : forall r, r < n -> xs r = tab numel (elem xs r))
    by (intros r Hr; apply tab_total; by apply Hxs).
  split_and!; apply runs_inevitable.
  - intros r Hr. apply wf_allreduce_ring.
  - eapply runs_value; [|by apply (allreduce_ring_runs redop scale numel esize n Hn (elem xs) avg)].
    intros i Hi. apply ring_acc_all; [done..|]. by apply chunk_of_lt.
  - intros r Hr. apply wf_allreduce_tree.
  - destruct (allreduce_tree_runs redop scale numel n Hn (elem xs) avg xs tree_recv) as (J & HJ & Hrun);
      [done|done|]. eapply runs_value; [|exact Hrun]. intros i Hi. by apply tree_val_all.
  - intros r Hr. apply wf_allreduce_butterfly.
  - eapply runs_value; [|by apply (allreduce_butterfly_runs redop scale numel esize n Hn (elem xs) avg)].
    intros i Hi. apply fly_val_all; [done..|]. by apply chunk_of_lt.
Qed.
End Correctness.

(** Three ranks with five elements each; subtraction is neither associative
    nor commutative, so that the order shows. *)
Definition demo_in (r : nat) : list Z := nth r [[1; 2; 3; 4; 5]; [10; 20; 30; 40; 50]; [7; 7; 7; 7; 7]]%Z [].

Lemma demo_in_length r : r < 3 -> length (demo_in r) = 5.
Proof. intros H. destruct r as [|[|[|r]]]; done || lia. Qed.

Lemma allreduce_ring_correct_witness :
  inevitable (start_group 3 (fun r => allreduce_ring Z.sub Z.opp (demo_in r) (replicate 2 0%Z) 5 4 true r 3))
    (returned 3 (fun _ => [2; 11; -26; -37; -52]%Z)).
Proof.
  apply (allreduce_ring_correct Z.sub Z.opp 3 5 4 true demo_in (fun _ => replicate 2 0%Z));
    [lia|lia|apply demo_in_length|]. intros r Hr. vm_compute. lia.
Defined.

Lemma allreduce_tree_correct_witness :
  exists J, 3 <= 2 ^ J /\
  inevitable (start_group 3 (fun r => allreduce_tree Z.add Z.opp (demo_in r) (replicate 5 0%Z) 5 false r 3))
    (returned 3 (fun _ => tab 5 (fun i => averaged Z.opp false (tree_val Z.add 3 (elem demo_in) J 0 i)))) /\
  forall i, tree_val Z.add 3 (elem demo_in) J 0 i = range_red Z.add (elem demo_in) 0 3 i.
Proof.
  destruct (allreduce_tree_correct Z.add Z.opp 3 5 false demo_in (fun _ => replicate 5 0%Z))
    as (J & HJ & H1 & H2); [lia|apply demo_in_length|done|].
  exists J. split; [exact HJ|]. split; [exact H1|]. apply H2. intros. apply Z.add_assoc.
Defined.

Lemma allreduce_butterfly_correct_witness :
  inevitable (start_group 3 (fun r => allreduce_butterfly Z.sub Z.opp (demo_in r) (replicate 4 0%Z) 5 4 false r 3))
    (returned 3 (fun _ => [-16; -25; 20; 29; -48]%Z)).
Proof.
  apply (allreduce_butterfly_correct Z.sub Z.opp 3 5 4 false demo_in (fun _ => replicate 4 0%Z));
    [lia|lia|apply demo_in_length|]. intros r Hr. vm_compute. lia.
Defined.

Lemma allreduce_algorithms_agree_witness :
  let recv := fun _ : nat => replicate 9 0%Z in
  let same := returned 3 (fun _ => [18; 29; 40; 51; 62]%Z) in
  inevitable (start_group 3 (fun r => allreduce_ring Z.add Z.opp (demo_in r) (recv r) 5 4 false r 3)) same /\
  inevitable (start_group 3 (fun r => allreduce_tree Z.add Z.opp (demo_in r) (recv r) 5 false r 3)) same /\
  inevitable (start_group 3 (fun r => allreduce_butterfly Z.add Z.opp (demo_in r) (recv r) 5 4 false r 3)) same.
Proof.
  apply (allreduce_algorithms_agree Z.add Z.opp 3 5 4 false demo_in
    (fun _ => replicate 9 0%Z) (fun _ => replicate 9 0%Z) (fun _ => replicate 9 0%Z));
    [intros; lia|intros; lia|lia|lia|exact demo_in_length|simpl; lia|simpl; lia|simpl; lia].
Defined.
