(* ===== verification/Collectives.v ===== *)
(** * The collectives of the process group ([csrc/backend/ProcessGroupMCCL.cpp])

    The bodies that the collectives run on each rank, over the mesh of
    [Network]: the choice of the allreduce algorithm and of its scratch
    buffer, broadcast, allgather, reduce-scatter, all-to-all.  A tensor is its
    device and layout flags and its elements; the sizes in the source are
    element counts times the element size.  The single-rank shortcuts and the
    handing of the body to the progress thread are in [ProcessGroup]. *)
From S2P Require Import Prelude Network Allreduce.

Section Collectives.
Context {E : Type} (redop : E -> E -> E) (scale : E -> E).

Record tensor := mkTensor { is_mps : bool; is_contiguous : bool; elems : list E }.

Definition with_elems (t : tensor) (d : list E) : tensor := mkTensor (is_mps t) (is_contiguous t) d.
Definition numel_of (t : tensor) : nat := length (elems t).

(** [check_mps_(t, op)], before the rest of the body. *)
Definition check_mps {A} (t : tensor) (op : string) (k : proc (E := E) (A := A)) : proc :=
  if negb (is_mps t) then Raise (MCCLError (op +:+ ": MCCL is MPS-only; got ")) else
  if negb (is_contiguous t) then Raise (MCCLError (op +:+ ": tensor must be contiguous")) else k.

(** [check_single_tensor], with which [extract_mps_buffer] and
    [stage_for_send_nosync] begin: after [check_mps_], and for a supported
    scalar type, it refuses empty tensors. *)
Definition check_single {A} (t : tensor) (k : proc (E := E) (A := A)) : proc :=
  if numel_of t =? 0 then Raise (TensorError "MCCL does not accept empty tensors") else k.

(** [unstage_from_recv(t, d, |d|)] into a tensor in shared storage. *)
Definition unstage {A} (t : tensor) (d : list E) (k : tensor -> proc (E := E) (A := A)) : proc :=
  check_single t (
    if negb (length d =? numel_of t) then Raise (MCCLError "unstage size mismatch") else k (with_elems t d)).

(** [unstage_from_recv(outs[p], d p, ...)] for the ranks of [l] in turn. *)
Fixpoint unstage_each {A} (l : list nat) (d : nat -> list E) (outs : list tensor)
    (k : list tensor -> proc (E := E) (A := A)) : proc :=
  match l with
  | [] => k outs
  | p :: l =>
    match outs !! p with
    | Some o => unstage o (d p) (fun o => unstage_each l d (<[p := o]> outs) k)
    | None => unstage_each l d outs k
    end
  end.

(** ** Allreduce: choice of the algorithm *)

(** [MCCL_ALLREDUCE_ALGO]: the names the code compares with; any other
    string behaves as [Tree]. *)
Inductive algo := Auto | RingAlgo | Tree | ButterflyAlgo.

Definition default_tree_below : nat := 256 * 1024.

Definition choose_algo (env_alg : option algo) (tree_below : option nat) (bytes numel world : nat) : algo :=
  let alg := default Auto env_alg in
  let alg := match alg with
             | Auto => if bytes <=? default default_tree_below tree_below then Tree else RingAlgo
             | a => a
             end in
  let alg := match alg with RingAlgo => if numel <? world then Tree else RingAlgo | a => a end in
  match alg with
  | ButterflyAlgo => if (world <? 2) || (numel <? world) then Tree else ButterflyAlgo
  | a => a
  end.

(** The size of [recv_scratch]. *)
Definition scratch_size (alg : algo) (numel world : nat) : nat :=
  let per := (numel + world - 1) / world in
  match alg with
  | RingAlgo => per
  | ButterflyAlgo => (world - 1) * per
  | _ => numel
  end.

(** [static_cast<uint32_t>(wt.numel())], the element count of [AllreduceArgs]. *)
Definition args_numel (t : tensor) : nat := Z.to_nat (u32 (Z.of_nat (numel_of t))).

(** One tensor of [allreduce]: the choice, the scratch that [at::empty]
    returns, the algorithm. *)
Definition allreduce_one (env_alg : option algo) (tree_below : option nat) (esize : nat)
    (scratch : nat -> list E) (avg : bool) (rank world : nat) (t : tensor) : proc (A := list E) :=
  let numel := numel_of t in
  let alg := choose_algo env_alg tree_below (numel * esize) numel world in
  let recv := scratch (scratch_size alg numel world) in
  match alg with
  | RingAlgo => allreduce_ring redop scale (elems t) recv (args_numel t) esize avg rank world
  | ButterflyAlgo => allreduce_butterfly redop scale (elems t) recv (args_numel t) esize avg rank world
  | _ => allreduce_tree redop scale (elems t) recv (args_numel t) avg rank world
  end.

(** The loop over the tensors, in place; [done] are those already reduced. *)
Fixpoint allreduce_all (env_alg : option algo) (tree_below : option nat) (esize : nat)
    (scratch : nat -> list E) (avg : bool) (rank world : nat) (done ts : list tensor)
    : proc (E := E) (A := list tensor) :=
  match ts with
  | [] => Ret done
  | t :: ts =>
    pbind (allreduce_one env_alg tree_below esize scratch avg rank world t) (fun d =>
    allreduce_all env_alg tree_below esize scratch avg rank world (done ++ [with_elems t d]) ts)
  end.

Fixpoint check_all {A} (ts : list tensor) (op : string) (k : proc (E := E) (A := A)) : proc :=
  match ts with [] => k | t :: ts => check_mps t op (check_all ts op k) end.

(** [check_mps_] and the staging (or the extraction of the buffer) of one
    tensor after the other. *)
Fixpoint stage_all {A} (ts : list tensor) (op : string) (k : proc (E := E) (A := A)) : proc :=
  match ts with [] => k | t :: ts => check_mps t op (check_single t (stage_all ts op k)) end.

(** [allreduce]: a group of one returns at once; all tensors are checked
    before the first is sent. *)
Definition pg_allreduce (env_alg : option algo) (tree_below : option nat) (esize : nat)
    (scratch : nat -> list E) (avg : bool) (rank world : nat) (ts : list tensor)
    : proc (E := E) (A := list tensor) :=
  if world =? 1 then Ret ts else
  match ts with
  | [] => Raise (MCCLError "allreduce: empty tensor list")
  | _ => stage_all ts "allreduce" (allreduce_all env_alg tree_below esize scratch avg rank world [] ts)
  end.

(** [allreduce] with [MCCL_WIRE_DTYPE=bf16] on tensors of floats: the reduction
    runs on copies converted to bfloat16, [bf16] of every element, whose
    elements take two bytes; [redop] and [scale] are those of bfloat16 here, and
    the conversion back is exact. *)
Definition pg_allreduce_bf16 (bf16 : E -> E) (env_alg : option algo) (tree_below : option nat)
    (scratch : nat -> list E) (avg : bool) (rank world : nat) (ts : list tensor)
    : proc (E := E) (A := list tensor) :=
  if world =? 1 then Ret ts else
  pbind (pg_allreduce env_alg tree_below 2 scratch avg rank world
           ((fun t => with_elems t (bf16 <$> elems t)) <$> ts)) (fun ws =>
  Ret (zip_with (fun t w => with_elems t (elems w)) ts ws)).

(** ** Rounds with one thread per peer *)

(** [recv_bufs[p]] after the join: what the thread of peer [p] received. *)
Definition peer_slot (rank p : nat) : nat := if p <? rank then p else p - 1.
Definition buf_of (rank : nat) (got : list (list (list E))) (p : nat) : list E :=
  received got (peer_slot rank p).

(** [for p != rank: thread { send(p, msg p); recv(p, buf[p], len p) }], join. *)
Definition exchange_threads {A} (rank world : nat) (msg : nat -> list E) (len : nat -> nat)
    (k : (nat -> list E) -> proc (E := E) (A := A)) : proc :=
  fork ((fun p => [Snd p (msg p); Rcv p (len p)]) <$> others rank world) (fun got => k (buf_of rank got)).

(** ** Broadcast *)

Definition broadcast_one (rank world root : nat) (t : tensor) : proc (E := E) (A := tensor) :=
  check_mps t "broadcast" (check_single t (
    if rank =? root then
      fork ((fun p => [Snd p (elems t)]) <$> others root world) (fun _ => Ret t)
    else fork [[Rcv root (numel_of t)]] (fun got =>
      Ret (with_elems t (list_inserts 0 (received got 0) (elems t)))))).

(** The loop over the tensors; [done] are those already treated. *)
Fixpoint pg_broadcast (rank world root : nat) (done ts : list tensor) : proc (E := E) (A := list tensor) :=
  match ts with
  | [] => Ret done
  | t :: ts => pbind (broadcast_one rank world root t) (fun t =>
               pg_broadcast rank world root (done ++ [t]) ts)
  end.

(** ** Allgather *)

(** The staging buffer with every peer's chunk received at its place. *)
Definition gather_into (rank world chunk : nat) (buf : nat -> list E) (dst : list E) : list E :=
  foldl (fun dst p => list_inserts (p * chunk) (buf p) dst) dst (others rank world).

Definition pg_allgather_base (rank world : nat) (zero : E) (out inp : tensor) : proc (E := E) (A := tensor) :=
  check_mps inp "_allgather_base" (check_mps out "_allgather_base" (check_single inp (
    let chunk := numel_of inp in
    let total := numel_of out in
    if negb (total =? chunk * world)
    then Raise (MCCLError "_allgather_base: output size != input * world") else
    let dst := list_inserts (rank * chunk) (elems inp) (replicate total zero) in
    exchange_threads rank world (fun _ => elems inp) (fun _ => chunk) (fun buf =>
      unstage out (gather_into rank world chunk buf dst) Ret)))).

(** One input of [allgather]: the list of outputs, one per rank. *)
Definition pg_allgather_one (rank world : nat) (outs : list tensor) (inp : tensor)
    : proc (E := E) (A := list tensor) :=
  if negb (length outs =? world) then Raise (MCCLError "allgather: output list size != world") else
  check_mps inp "allgather" (check_all outs "allgather" (check_single inp (
    let chunk := numel_of inp in
    exchange_threads rank world (fun _ => elems inp) (fun _ => chunk) (fun buf =>
      unstage_each (rank :: others rank world) (fun p => if p =? rank then elems inp else buf p) outs Ret)))).

Fixpoint allgather_loop (rank world : nat) (done outs : list (list tensor)) (ins : list tensor)
    : proc (E := E) (A := list (list tensor)) :=
  match ins, outs with
  | inp :: ins, o :: outs =>
    pbind (pg_allgather_one rank world o inp) (fun o =>
    allgather_loop rank world (done ++ [o]) outs ins)
  | _, _ => Ret done
  end.

Definition pg_allgather (rank world : nat) (outs : list (list tensor)) (ins : list tensor)
    : proc (E := E) (A := list (list tensor)) :=
  if negb (length ins =? length outs) then Raise (MCCLError "allgather: input/output count mismatch")
  else allgather_loop rank world [] outs ins.

(** ** Reduce-scatter *)

(** Reduce the peers' shares into the output, in rank order. *)
Definition reduce_peers (rank world : nat) (buf : nat -> list E) (out : list E) : list E :=
  foldl (fun out p => zip_with redop out (buf p)) out (others rank world).

Definition pg_reduce_scatter_base (avg : bool) (rank world : nat) (out inp : tensor)
    : proc (E := E) (A := tensor) :=
  check_mps inp "_reduce_scatter_base" (check_mps out "_reduce_scatter_base" (check_single inp (
    let chunk := numel_of out in
    if negb (numel_of inp =? chunk * world)
    then Raise (MCCLError "_reduce_scatter_base: input size != output * world") else
    unstage out (slice (rank * chunk) chunk (elems inp)) (fun out =>
    exchange_threads rank world (fun p => slice (p * chunk) chunk (elems inp)) (fun _ => chunk) (fun buf =>
      Ret (with_elems out (finish scale avg chunk (reduce_peers rank world buf (elems out))))))))).

(** One output of [reduce_scatter]: the inputs are separate tensors, of which
    only the first is compared with the output; [chunk] elements are read from
    each, [beyond p] being the memory behind input [p]. *)
Definition pg_reduce_scatter_one (avg : bool) (rank world : nat) (beyond : nat -> list E) (out : tensor)
    (ins : list tensor) : proc (E := E) (A := tensor) :=
  if negb (length ins =? world) then Raise (MCCLError "reduce_scatter: input list size != world") else
  check_mps out "reduce_scatter" (stage_all ins "reduce_scatter" (
    let chunk := default 0 (numel_of <$> ins !! 0) in
    let share p := take chunk (default [] (elems <$> ins !! p) ++ beyond p) in
    if negb (numel_of out =? chunk)
    then Raise (MCCLError "reduce_scatter: output size != input chunk size") else
    unstage out (share rank) (fun out =>
    exchange_threads rank world share (fun _ => chunk) (fun buf =>
      Ret (with_elems out (finish scale avg chunk (reduce_peers rank world buf (elems out)))))))).

Fixpoint reduce_scatter_loop (avg : bool) (rank world : nat) (beyond : nat -> list E) (done outs : list tensor)
    (ins : list (list tensor)) : proc (E := E) (A := list tensor) :=
  match outs, ins with
  | o :: outs, i :: ins =>
    pbind (pg_reduce_scatter_one avg rank world beyond o i) (fun o =>
    reduce_scatter_loop avg rank world beyond (done ++ [o]) outs ins)
  | _, _ => Ret done
  end.

Definition pg_reduce_scatter (avg : bool) (rank world : nat) (beyond : nat -> list E) (outs : list tensor)
    (ins : list (list tensor)) : proc (E := E) (A := list tensor) :=
  if negb (length outs =? length ins) then Raise (MCCLError "reduce_scatter: count mismatch")
  else reduce_scatter_loop avg rank world beyond [] outs ins.

(** ** All-to-all *)

(** [off[p+1] = off[p] + splits[p]]. *)
Definition offset (splits : list nat) (p : nat) : nat := sum_list (take p splits).

(** The split sizes: equal shares when none are given. *)
Definition splits_of (given : list nat) (numel world : nat) (what : string) : result (list nat) :=
  match given with
  | [] => let per := numel / world in
          if negb (per * world =? numel)
          then Throw (MCCLError ("alltoall_base: " +:+ what +:+ " not divisible by world"))
          else Ok (replicate world per)
  | _ => if negb (length given =? world)
         then Throw (MCCLError ("alltoall_base: " +:+ what +:+ "_split_sizes wrong length"))
         else Ok given
  end.

(** The thread of peer [p]: nothing at all when both shares are empty. *)
Definition alltoall_thread (msg : nat -> list E) (slen rlen : nat -> nat) (p : nat) : list act :=
  (if 0 <? slen p then [Snd p (msg p)] else []) ++
  (if 0 <? rlen p then [Rcv p (rlen p)] else []).

(** [alltoall_base].  The sums of the split sizes are not compared with the
    tensors: [beyond] is the memory behind the input, from which a share may
    be read, and [heap] the memory behind [dst_buf], which a share may
    overwrite; the result is the output and that memory. *)
Definition pg_alltoall_base (rank world : nat) (zero : E) (beyond heap : list E) (out inp : tensor)
    (out_given in_given : list nat) : proc (E := E) (A := tensor * list E) :=
  check_mps inp "alltoall_base" (check_mps out "alltoall_base" (check_single inp (
    match splits_of in_given (numel_of inp) world "input", splits_of out_given (numel_of out) world "output" with
    | Throw e, _ => Raise e
    | _, Throw e => Raise e
    | Ok ins, Ok outs =>
      let slen p := offset ins (S p) - offset ins p in
      let rlen p := offset outs (S p) - offset outs p in
      let msg p := slice (offset ins p) (slen p) (elems inp ++ beyond) in
      if negb (slen rank =? rlen rank)
      then Raise (MCCLError "alltoall_base: self chunk size mismatch") else
      let total := numel_of out in
      let mem := list_inserts (offset outs rank) (msg rank) (replicate total zero ++ heap) in
      fork (alltoall_thread msg slen rlen <$> others rank world) (fun got =>
        let mem := foldl (fun mem p =>
          list_inserts (offset outs p) (buf_of rank got p) mem) mem (others rank world) in
        unstage out (take total mem) (fun out => Ret (out, drop total mem)))
    end))).

(** The checks and the staging of [alltoall], pair by pair. *)
Fixpoint stage_pairs {A} (ins outs : list tensor) (k : proc (E := E) (A := A)) : proc :=
  match ins, outs with
  | i :: ins, o :: outs =>
    check_mps i "alltoall" (check_mps o "alltoall" (check_single i (stage_pairs ins outs k)))
  | _, _ => k
  end.

(** The own tensor is unstaged before the exchange, the others after it. *)
Definition pg_alltoall (rank world : nat) (outs ins : list tensor) : proc (E := E) (A := list tensor) :=
  if negb ((length ins =? world) && (length outs =? world))
  then Raise (MCCLError "alltoall: list size != world") else
  stage_pairs ins outs (
    let msg p := default [] (elems <$> ins !! p) in
    let len p := default 0 (numel_of <$> outs !! p) in
    unstage_each [rank] msg outs (fun outs =>
    exchange_threads rank world msg len (fun buf =>
      unstage_each (others rank world) buf outs Ret))).
End Collectives.

(** ** Rounds with one thread per peer *)

Lemma others_slot rank world p :
  rank < world -> p < world -> p <> rank -> others rank world !! peer_slot rank p = Some p.
Proof.
  intros Hr Hp Hne. unfold others, peer_slot.
  assert (seq 0 world = seq 0 rank ++ rank :: seq (S rank) (world - S rank)) as ->.
  { replace world with (rank + S (world - S rank)) at 1 by lia. by rewrite seq_app. }
  rewrite filter_app, filter_cons_False by tauto.
  assert (forall s m, (s + m <= rank \/ rank < s) -> filter (fun p => p <> rank) (seq s m) = seq s m) as Hall.
  { intros s m. revert s. induction m as [|m IH]; intros s Hs; [done|]. cbn [seq].
    rewrite filter_cons_True by lia. by rewrite IH by lia. }
  rewrite !Hall by lia. destruct (Nat.ltb_spec p rank).
  - rewrite lookup_app_l by (rewrite length_seq; lia). by rewrite lookup_seq_lt by lia.
  - rewrite lookup_app_r by (rewrite length_seq; lia). rewrite length_seq, lookup_seq_lt by lia.
    f_equal. lia.
Qed.

Section Exchanges.
Context {E A : Type} (n : nat).

Lemma exchange1_acts (msg : nat -> nat -> list E) len r :
  plan_acts (exchange1 n msg len r) =
  (fun p => [Snd p (msg r p); Rcv p (len r p)]) <$> others r n.
Proof. unfold exchange1, plan_acts. by rewrite <- list_fmap_compose. Qed.

Lemma exchange_runs (msg : nat -> nat -> list E) len
    (k : nat -> (nat -> list E) -> proc (E := E) (A := A)) (g : nat -> proc) :
  lengths_agree n msg len ->
  (forall r buf, r < n -> (forall p, p < n -> p <> r -> buf p = msg p r) -> k r buf = g r) ->
  runs n (fun r => exchange_threads r n (msg r) (len r) (k r)) g.
Proof.
  intros Hlen Hk. eapply runs_ext; [| |apply (runs_round n (exchange1 n msg len)
    (fun r got => k r (buf_of r got))), exchange1_matched, Hlen].
  - intros r Hr. unfold exchange_threads. by rewrite exchange1_acts.
  - intros r Hr. symmetry. apply Hk; [done|]. intros p Hp Hne. unfold buf_of.
    apply received_exchange1; [done|]. by apply others_slot.
Qed.

Lemma wf_exchange r (msg : nat -> list E) len (k : (nat -> list E) -> proc (E := E) (A := A)) :
  (forall buf, wf_proc (k buf)) -> wf_proc (exchange_threads r n msg len k).
Proof.
  intros Hk. unfold exchange_threads.
  assert (((fun p => [Snd p (msg p); Rcv p (len p)]) <$> others r n) =
    plan_acts (exchange1 n (fun _ => msg) (fun _ => len) r)) as -> by (by rewrite exchange1_acts).
  apply wf_fork_plan; [| |intros; apply Hk]; unfold exchange1; rewrite <- list_fmap_compose.
  - assert (forall l : list nat, mjoin (((fun th : list (nat * list E) * list (nat * nat) => th.1.*1)
      ∘ (fun p => ([(p, msg p)], [(p, len p)]))) <$> l) = l) as ->; [|apply NoDup_others].
    induction l as [|p l IH]; [done|]. by rewrite <- IH at 2.
  - assert (forall l : list nat, mjoin (((fun th : list (nat * list E) * list (nat * nat) => th.2.*1)
      ∘ (fun p => ([(p, msg p)], [(p, len p)]))) <$> l) = l) as ->; [|apply NoDup_others].
    induction l as [|p l IH]; [done|]. by rewrite <- IH at 2.
Qed.
End Exchanges.

(** A tensor the checks accept. *)
Definition on_device {E} (t : tensor (E := E)) : Prop :=
  is_mps t = true /\ is_contiguous t = true /\ 0 < numel_of t.

Section Checks.
Context {E A : Type}.
Implicit Types (t o : tensor (E := E)) (ts : list (tensor (E := E))) (k : proc (E := E) (A := A)).

Lemma check_mps_ok t op k : on_device t -> check_mps t op k = k.
Proof. intros (H1 & H2 & _). unfold check_mps. by rewrite H1, H2. Qed.

Lemma check_single_ok t k : on_device t -> check_single t k = k.
Proof. intros (_ & _ & H). unfold check_single. by rewrite (proj2 (Nat.eqb_neq _ _)) by lia. Qed.

Lemma check_all_ok ts op k : Forall on_device ts -> check_all ts op k = k.
Proof. induction 1 as [|t ts Ht _ IH]; [done|]. simpl. by rewrite check_mps_ok. Qed.

Lemma stage_all_ok ts op k : Forall on_device ts -> stage_all ts op k = k.
Proof. induction 1 as [|t ts Ht _ IH]; [done|]. simpl. by rewrite check_mps_ok, check_single_ok. Qed.

Lemma stage_pairs_ok ins outs k : Forall on_device ins -> Forall on_device outs -> stage_pairs ins outs k = k.
Proof.
  intros Hi. revert outs. induction Hi as [|i ins Hi _ IH]; intros outs Ho; [done|].
  destruct Ho as [|o outs Ho Hos]; [done|]. simpl. by rewrite !check_mps_ok, check_single_ok, IH.
Qed.

Lemma unstage_ok t d (k : tensor -> proc (E := E) (A := A)) :
  on_device t -> length d = numel_of t -> unstage t d k = k (with_elems t d).
Proof. intros Ht Hd. unfold unstage. by rewrite check_single_ok, Hd, Nat.eqb_refl. Qed.

Lemma unstage_each_ok l d outs (k : list tensor -> proc (E := E) (A := A)) :
  NoDup l ->
  (forall p o, p ∈ l -> outs !! p = Some o -> on_device o /\ length (d p) = numel_of o) ->
  unstage_each l d outs k = k (imap (fun p o => if decide (p ∈ l) then with_elems o (d p) else o) outs).
Proof.
  intros Hnd. revert outs. induction Hnd as [|p l Hp _ IH]; intros outs Ho.
  { simpl. f_equal. apply list_eq. intros i. rewrite list_lookup_imap. by destruct (outs !! i). }
  simpl. destruct (outs !! p) as [o|] eqn:Hop.
  - destruct (Ho p o) as [H1 H2]; [by left|done|]. rewrite unstage_ok by done. rewrite IH.
    + f_equal. apply list_eq. intros i. rewrite !list_lookup_imap.
      destruct (decide (i = p)) as [->|Hip].
      * rewrite list_lookup_insert_eq by (by eapply lookup_lt_Some). rewrite Hop. simpl.
        rewrite decide_False by done. by rewrite decide_True by left.
      * rewrite list_lookup_insert_ne by done. destruct (outs !! i); [|done]. simpl.
        f_equal. repeat case_decide; set_solver.
    + intros q o' Hq Hqo. rewrite list_lookup_insert_ne in Hqo by set_solver.
      apply Ho; [by right|done].
  - rewrite IH by (intros q o Hq; apply Ho; by right). f_equal. apply list_eq. intros i.
    rewrite !list_lookup_imap. destruct (outs !! i) eqn:Hi; [|done]. simpl. f_equal.
    assert (i <> p) by congruence. repeat case_decide; set_solver.
Qed.

Lemma wf_check_mps t op k : wf_proc k -> wf_proc (check_mps t op k).
Proof. intros H. unfold check_mps. by repeat (case_match; [constructor|]). Qed.

Lemma wf_check_single t k : wf_proc k -> wf_proc (check_single t k).
Proof. intros H. unfold check_single. case_match; [constructor|done]. Qed.

Lemma wf_check_all ts op k : wf_proc k -> wf_proc (check_all ts op k).
Proof. intros H. induction ts; [done|]. simpl. by apply wf_check_mps. Qed.

Lemma wf_stage_all ts op k : wf_proc k -> wf_proc (stage_all ts op k).
Proof. intros H. induction ts; [done|]. simpl. by apply wf_check_mps, wf_check_single. Qed.

Lemma wf_stage_pairs ins outs k : wf_proc k -> wf_proc (stage_pairs ins outs k).
Proof.
  intros H. revert outs. induction ins as [|i ins IH]; intros [|o outs]; try done. simpl.
  by apply wf_check_mps, wf_check_mps, wf_check_single.
Qed.

Lemma wf_unstage t d (k : tensor -> proc (E := E) (A := A)) :
  (forall t, wf_proc (k t)) -> wf_proc (unstage t d k).
Proof. intros H. apply wf_check_single. case_match; [constructor|apply H]. Qed.

Lemma wf_unstage_each l d outs (k : list tensor -> proc (E := E) (A := A)) :
  (forall ts, wf_proc (k ts)) -> wf_proc (unstage_each l d outs k).
Proof.
  intros H. revert outs. induction l as [|p l IH]; intros outs; [apply H|]. simpl.
  case_match; [apply wf_unstage; intros; apply IH|apply IH].
Qed.
End Checks.

Create HintDb wf.
#[export] Hint Resolve wf_check_mps wf_check_single wf_check_all wf_stage_all wf_stage_pairs
  wf_unstage wf_unstage_each wf_exchange wf_pbind : wf.
#[export] Hint Constructors wf_proc : wf.

(** ** Properties: allreduce *)

(** The chosen algorithm finds its preconditions met. *)
Lemma choose_algo_ok env below bytes numel world :
  match choose_algo env below bytes numel world with
  | RingAlgo => world <= numel
  | ButterflyAlgo => world <= numel /\ 2 <= world
  | Auto => False
  | Tree => True
  end.
Proof.
  unfold choose_algo. destruct (default Auto env); try done;
    repeat match goal with |- context [?a <=? ?b] => destruct (Nat.leb_spec a b)
    | |- context [?a <? ?b] => destruct (Nat.ltb_spec a b) end; simpl; try done; lia.
Qed.

(** The element count of a tensor that [AllreduceArgs] can hold. *)
Definition counted {E} (t : tensor (E := E)) : Prop := (Z.of_nat (numel_of t) < 2 ^ 32)%Z.

Lemma args_numel_ok {E} (t : tensor (E := E)) : counted t -> args_numel t = numel_of t.
Proof. unfold counted, args_numel. intros H. rewrite u32_small by lia. apply Nat2Z.id. Qed.

Section AllreduceDispatch.
Context {E : Type} `{!Inhabited E} (redop : E -> E -> E) (scale : E -> E).
Context (Hassoc : forall a b c, redop a (redop b c) = redop (redop a b) c).
Context (Hcomm : forall a b, redop a b = redop b a).

Lemma allreduce_one_runs env below esize scratch avg n numel (t : nat -> tensor (E := E)) :
  0 < n -> (forall m, length (scratch m) = m) ->
  (forall r, r < n -> counted (t r) /\ numel_of (t r) = numel) ->
  runs n (fun r => allreduce_one redop scale env below esize scratch avg r n (t r))
    (fun r => Ret (tab numel (fun i =>
       averaged scale avg (range_red redop (elem (fun r => elems (t r))) 0 n i)))).
Proof.
  intros Hn Hscr Ht.
  set (xs := fun r => elems (t r)).
  assert (forall r, r < n -> xs r = tab numel (elem xs r)) as Hxs.
  { intros r Hr. apply tab_total. by apply Ht. }
  pose proof (choose_algo_ok env below (numel * esize) numel n) as Hch.
  set (alg := choose_algo env below (numel * esize) numel n) in *.
  assert (forall r, r < n -> allreduce_one redop scale env below esize scratch avg r n (t r) =
    match alg with
    | RingAlgo => allreduce_ring redop scale (xs r) (scratch (scratch_size alg numel n)) numel esize avg r n
    | ButterflyAlgo => allreduce_butterfly redop scale (xs r) (scratch (scratch_size alg numel n)) numel esize avg r n
    | _ => allreduce_tree redop scale (xs r) (scratch (scratch_size alg numel n)) numel avg r n
    end) as Hone.
  { intros r Hr. destruct (Ht r Hr) as [Hc He]. unfold allreduce_one. by rewrite args_numel_ok, He. }
  eapply runs_ext; [exact Hone|reflexivity|]. clear Hone.
  destruct alg; [done| | |].
  - eapply runs_value; [|apply (allreduce_ring_runs redop scale numel esize n Hn (elem xs) avg xs)]; [|done|done|].
    + intros i Hi. apply ring_acc_all; [done..|]. by apply chunk_of_lt.
    + intros r Hr. by rewrite Hscr.
  - destruct (allreduce_tree_runs redop scale numel n Hn (elem xs) avg xs
      (fun _ => scratch numel)) as (J & HJ & Hrun); [done|intros; by rewrite Hscr|].
    eapply runs_value; [|exact Hrun]. intros i Hi. by apply tree_val_all.
  - eapply runs_value; [|apply (allreduce_butterfly_runs redop scale numel esize n Hn (elem xs) avg xs)]; [| |done|].
    + intros i Hi. apply fly_val_all; [done..|]. by apply chunk_of_lt.
    + apply Hch.
    + intros r Hr. by rewrite Hscr.
Qed.

(** The tensor [t] of rank [r] after the reduction over all ranks. *)
Definition reduced (avg : bool) (n : nat) (t : nat -> tensor (E := E)) (r : nat) : tensor :=
  with_elems (t r) (tab (numel_of (t 0)) (fun i =>
    averaged scale avg (range_red redop (elem (fun r => elems (t r))) 0 n i))).

Lemma allreduce_all_runs env below esize scratch avg n (done ts : list (nat -> tensor (E := E))) :
  0 < n -> (forall m, length (scratch m) = m) ->
  Forall (fun t => forall r, r < n -> counted (t r) /\ numel_of (t r) = numel_of (t 0)) ts ->
  runs n (fun r => allreduce_all redop scale env below esize scratch avg r n
                     ((fun t => t r) <$> done) ((fun t => t r) <$> ts))
    (fun r => Ret (((fun t => t r) <$> done) ++ ((fun t => reduced avg n t r) <$> ts))).
Proof.
  intros Hn Hscr Hts. revert done. induction Hts as [|t ts Ht _ IH]; intros done.
  { apply runs_refl. intros r Hr. simpl. by rewrite app_nil_r. }
  eapply runs_trans.
  - pose proof (runs_pbind n (fun r => allreduce_one redop scale env below esize scratch avg r n (t r))
      (fun r => elems (reduced avg n t r)) (fun r d => allreduce_all redop scale env below esize scratch avg r n
      (((fun t => t r) <$> done) ++ [with_elems (t r) d]) ((fun t => t r) <$> ts))
      (allreduce_one_runs env below esize scratch avg n (numel_of (t 0)) t Hn Hscr Ht)) as H1. exact H1.
  - eapply runs_ext; [| |apply (IH (done ++ [reduced avg n t]))].
    + intros r Hr. cbn beta. rewrite (fmap_app (fun t => t r)). done.
    + intros r Hr. cbn beta. rewrite (fmap_app (fun t => t r)), <- app_assoc. done.
Qed.
End AllreduceDispatch.

Lemma wf_allreduce_all {E} (redop : E -> E -> E) scale env below esize scratch avg r n done ts :
  wf_proc (allreduce_all redop scale env below esize scratch avg r n done ts).
Proof.
  revert done. induction ts as [|t ts IH]; intros; [constructor|]. simpl. apply wf_pbind; [|done].
  unfold allreduce_one. cbv zeta.
  case_match; auto using wf_allreduce_ring, wf_allreduce_tree, wf_allreduce_butterfly.
Qed.

Lemma wf_pg_allreduce {E} (redop : E -> E -> E) scale env below esize scratch avg r n ts :
  wf_proc (pg_allreduce redop scale env below esize scratch avg r n ts).
Proof.
  unfold pg_allreduce. case_match; [constructor|]. destruct ts as [|t ts]; [constructor|].
  apply wf_stage_all, wf_allreduce_all.
Qed.

(** The inputs of [allreduce] that fit together. *)
Definition same_sizes {E} (n : nat) (t : nat -> tensor (E := E)) : Prop :=
  forall r, r < n -> on_device (t r) /\ counted (t r) /\ numel_of (t r) = numel_of (t 0).

Lemma pg_allreduce_runs {E} `{!Inhabited E} (redop : E -> E -> E) (scale : E -> E)
    env below esize scratch avg n (ts : list (nat -> tensor (E := E))) :
  (forall a b c, redop a (redop b c) = redop (redop a b) c) ->
  (forall a b, redop a b = redop b a) ->
  1 < n -> ts <> [] -> (forall m, length (scratch m) = m) -> Forall (same_sizes n) ts ->
  runs n (fun r => pg_allreduce redop scale env below esize scratch avg r n ((fun t => t r) <$> ts))
    (fun r => Ret ((fun t => reduced redop scale avg n t r) <$> ts)).
Proof.
  intros Ha Hc Hn Hne Hs Ht.
  eapply runs_ext; [|reflexivity|apply (allreduce_all_runs redop scale Ha Hc env below esize scratch avg n [])].
  - intros r Hr. unfold pg_allreduce. rewrite (proj2 (Nat.eqb_neq _ _)) by lia.
    rewrite stage_all_ok; [by destruct ts|]. apply Forall_fmap. eapply Forall_impl; [exact Ht|].
    intros t H. by apply H.
  - lia.
  - done.
  - eapply Forall_impl; [exact Ht|]. intros t H r Hr. by apply H.
Qed.


Lemma same_sizes_map {E} n (h : E -> E) (t : nat -> tensor (E := E)) :
  same_sizes n t -> same_sizes n (fun r => with_elems (t r) (h <$> elems (t r))).
Proof.
  intros H r Hr. destruct (H r Hr) as [(H1 & H2 & H3) H4]. unfold on_device, counted, numel_of in *. cbn.
  by rewrite !length_fmap.
Qed.

(** [allreduce] over a bfloat16 wire: every rank ends with the same values, the
    reduction in bfloat16 of the ranks' tensors after their conversion. *)
Theorem pg_allreduce_bf16_correct {E} `{!Inhabited E} (redop : E -> E -> E) (scale bf16 : E -> E)
    env below scratch avg n (ts : list (nat -> tensor (E := E))) :
  (forall a b c, redop a (redop b c) = redop (redop a b) c) ->
  (forall a b, redop a b = redop b a) ->
  1 < n -> ts <> [] -> (forall m, length (scratch m) = m) -> Forall (same_sizes n) ts ->
  inevitable
    (procs_of n (fun r => pg_allreduce_bf16 redop scale bf16 env below scratch avg r n ((fun t => t r) <$> ts)), ∅)
    (returned n (fun r => (fun t => with_elems (t r)
       (elems (reduced redop scale avg n (fun r => with_elems (t r) (bf16 <$> elems (t r))) r))) <$> ts)).
Proof.
  intros Ha Hc Hn Hne Hs Ht.
  set (conv (t : nat -> tensor) r := with_elems (t r) (bf16 <$> elems (t r))).
  apply runs_inevitable.
  { intros r Hr. unfold pg_allreduce_bf16. case_match; [constructor|]. apply wf_pbind; [apply wf_pg_allreduce|constructor]. }
  pose proof (pg_allreduce_runs redop scale env below 2 scratch avg n (conv <$> ts) Ha Hc Hn) as H1.
  specialize (H1 ltac:(by destruct ts) Hs).
  specialize (H1 ltac:(apply Forall_fmap; eapply Forall_impl; [exact Ht|]; intros t; apply same_sizes_map)).
  pose proof (runs_pbind n _ _ (fun r ws => Ret (zip_with (fun t w => with_elems t (elems w))
    ((fun t => t r) <$> ts) ws)) H1) as H2.
  eapply runs_ext; [| |exact H2].
  - intros r Hr. unfold pg_allreduce_bf16. rewrite (proj2 (Nat.eqb_neq _ _)) by lia.
    by rewrite <- !list_fmap_compose.
  - intros r Hr. cbn beta. f_equal. rewrite <- list_fmap_compose.
    rewrite zip_with_fmap_l, zip_with_fmap_r, zip_with_diag. done.
Qed.

Definition demo_tensor (r : nat) : tensor (E := Z) := mkTensor true true (demo_in r).
Definition demo_pair (r : nat) : tensor (E := Z) := mkTensor true true [Z.of_nat r; 7]%Z.

Lemma demo_tensor_ok r : r < 3 -> on_device (demo_tensor r) /\ numel_of (demo_tensor r) = 5.
Proof.
  intros H. assert (numel_of (demo_tensor r) = 5) as Hn by (by apply demo_in_length).
  split; [|done]. repeat split. rewrite Hn. lia.
Qed.


(** ** Properties: broadcast *)

Section Broadcast.
Context {E : Type} (n root : nat) (Hroot : root < n).
Abbreviation tens := (tensor (E := E)).

Definition bcast_plan (d : list E) (m r : nat) : plan E :=
  if r =? root then (fun p => ([(p, d)], [])) <$> others root n else [([], [(root, m)])].

Lemma bcast_out d m r q :
  plan_out q (bcast_plan d m r) = if decide (r = root /\ q ∈ others root n) then d else [].
Proof.
  unfold bcast_plan. destruct (Nat.eqb_spec r root) as [->|Hne].
  - assert (forall l, ((fun p => ([(p, d)], [])) <$> l : plan E) =
      mjoin ((fun p => [([(p, d)], [])]) <$> l)) as ->
      by (induction l as [|p l IH]; [done|by rewrite fmap_cons, IH]).
    rewrite (exchange_out_list q _ (fun _ => d)) by
      (apply NoDup_others || intros p; unfold plan_out, out_of; simpl; rewrite !app_nil_r; by case_decide).
    repeat case_decide; done || tauto.
  - rewrite decide_False by tauto. done.
Qed.

Lemma bcast_in_root d m : plan_in (bcast_plan d m root) = [].
Proof.
  unfold bcast_plan, plan_in. rewrite Nat.eqb_refl.
  induction (others root n) as [|p l IH]; [done|]. by rewrite !fmap_cons.
Qed.

Lemma bcast_matched d : matched n (bcast_plan d (length d)).
Proof.
  split.
  - intros r Hr. destruct (decide (r = root)) as [->|Hne]; [rewrite bcast_in_root; constructor|].
    unfold bcast_plan. rewrite (proj2 (Nat.eqb_neq _ _) Hne). apply NoDup_singleton.
  - intros r y Hr Hy. destruct (decide (r = root)) as [->|Hne].
    { rewrite bcast_in_root in Hy. by apply elem_of_nil in Hy. }
    unfold bcast_plan in Hy. rewrite (proj2 (Nat.eqb_neq _ _) Hne) in Hy.
    apply list_elem_of_singleton in Hy as ->. split; [done|]. simpl. rewrite bcast_out, decide_True; [done|].
    split; [done|]. apply elem_of_others. lia.
  - intros p r Hp Hout. rewrite bcast_out in Hout. case_decide as Hd; [|done]. destruct Hd as [-> Hr].
    apply elem_of_others in Hr as [Hne Hr]. split; [done|]. unfold bcast_plan.
    rewrite (proj2 (Nat.eqb_neq _ _) Hne). left.
Qed.

Lemma broadcast_one_runs {B} (t : nat -> tens) (f : nat -> tens -> proc (E := E) (A := B)) :
  (forall r, r < n -> on_device (t r) /\ numel_of (t r) = numel_of (t root)) ->
  runs n (fun r => pbind (broadcast_one r n root (t r)) (f r))
         (fun r => f r (with_elems (t r) (elems (t root)))).
Proof.
  intros Ht. set (d := elems (t root)).
  eapply runs_ext; [| |apply (runs_round n (bcast_plan d (length d))
    (fun r got => f r (if r =? root then t r else
       with_elems (t r) (list_inserts 0 (received got 0) (elems (t r)))))), bcast_matched].
  - intros r Hr. unfold broadcast_one. rewrite check_mps_ok, check_single_ok by (by apply Ht). unfold bcast_plan.
    destruct (Nat.eqb_spec r root) as [->|Hne].
    + unfold plan_acts. rewrite <- list_fmap_compose. done.
    + destruct (Ht r Hr) as [_ ->]. done.
  - intros r Hr. cbn beta. f_equal. destruct (Nat.eqb_spec r root) as [->|Hne].
    + unfold d. by destruct (t root).
    + unfold bcast_plan at 2. rewrite (proj2 (Nat.eqb_neq _ _) Hne). unfold plan_got, received. simpl.
      rewrite bcast_out, decide_True by (split; [done|]; apply elem_of_others; lia).
      f_equal. destruct (Ht r Hr) as [_ Hl]. unfold numel_of in Hl. fold d in Hl.
      apply (list_eq_lt _ _ (length d)); [done|by rewrite length_inserts|]. intros i Hi.
      rewrite list_lookup_inserts by lia. f_equal. lia.
Qed.

Lemma wf_broadcast_one r t : wf_proc (broadcast_one (E := E) r n root t).
Proof.
  unfold broadcast_one. apply wf_check_mps, wf_check_single. case_match; [|apply wf_one; intros; constructor].
  assert (((fun p => [Snd p (elems t)]) <$> others root n) =
    plan_acts ((fun p => ([(p, elems t)], [])) <$> others root n)) as ->
    by (unfold plan_acts; by rewrite <- list_fmap_compose).
  apply wf_fork_plan; [| |intros; constructor]; rewrite <- list_fmap_compose.
  - assert (forall l : list nat, mjoin (((fun th : list (nat * list E) * list (nat * nat) => th.1.*1)
      ∘ (fun p => ([(p, elems t)], []))) <$> l) = l) as ->; [|apply NoDup_others].
    induction l as [|p l IH]; [done|]. by rewrite <- IH at 2.
  - assert (forall l : list nat, mjoin (((fun th : list (nat * list E) * list (nat * nat) => th.2.*1)
      ∘ (fun p => ([(p, elems t)], []))) <$> l) = []) as ->; [|constructor].
    induction l as [|p l IH]; [done|exact IH].
Qed.

Lemma wf_pg_broadcast r done ts : wf_proc (pg_broadcast (E := E) r n root done ts).
Proof.
  revert done. induction ts as [|t ts IH]; intros; [constructor|]. simpl.
  apply wf_pbind; [apply wf_broadcast_one|]. done.
Qed.

Lemma pg_broadcast_runs (done : nat -> list tens) (ts : list (nat -> tens)) :
  Forall (fun t => forall r, r < n -> on_device (t r) /\ numel_of (t r) = numel_of (t root)) ts ->
  runs n (fun r => pg_broadcast r n root (done r) ((fun t => t r) <$> ts))
         (fun r => Ret (done r ++ ((fun t => with_elems (t r) (elems (t root))) <$> ts))).
Proof.
  intros Hts. revert done. induction Hts as [|t ts Ht _ IH]; intros done.
  { apply runs_refl. intros r Hr. simpl. by rewrite app_nil_r. }
  eapply runs_trans.
  - eapply runs_ext; [| |apply (broadcast_one_runs t (fun r t' =>
      pg_broadcast r n root (done r ++ [t']) ((fun t => t r) <$> ts))), Ht]; reflexivity.
  - eapply runs_ext; [| |apply (IH (fun r => done r ++ [with_elems (t r) (elems (t root))]))];
      [reflexivity|].
    intros r Hr. cbn beta. rewrite <- app_assoc. done.
Qed.
End Broadcast.

(** [broadcast] of a list of tensors, in every interleaving: when the
    tensors of the ranks have the same sizes, all executions are finite and
    end with every rank holding the root's elements in every tensor. *)
Theorem pg_broadcast_correct {E} n root (ts : list (nat -> tensor (E := E))) :
  root < n ->
  Forall (fun t => forall r, r < n -> on_device (t r) /\ numel_of (t r) = numel_of (t root)) ts ->
  inevitable (procs_of n (fun r => pg_broadcast r n root [] ((fun t => t r) <$> ts)), ∅)
    (returned n (fun r => (fun t => with_elems (t r) (elems (t root))) <$> ts)).
Proof.
  intros Hr Hts. apply runs_inevitable; [intros; apply wf_pg_broadcast|].
  by apply (pg_broadcast_runs n root Hr (fun _ => [])).
Qed.

Lemma pg_broadcast_correct_witness :
  inevitable (procs_of 3 (fun r => pg_broadcast r 3 1 [] [demo_tensor r; demo_tensor r]), ∅)
    (returned 3 (fun _ => replicate 2 (mkTensor true true [10; 20; 30; 40; 50]%Z))).
Proof.
  apply (pg_broadcast_correct 3 1 [demo_tensor; demo_tensor]); [lia|].
  repeat (apply Forall_cons; split; [intros r Hr; by apply demo_tensor_ok|]). constructor.
Defined.

(** ** Properties: allgather *)

Lemma div_mod_block c p i : 0 < c -> p * c <= i < (p + 1) * c -> i / c = p /\ i mod c = i - p * c.
Proof.
  intros Hc Hi. assert (i / c = p) as Hd.
  { symmetry. apply (Nat.div_unique i c p (i - p * c)); lia. }
  split; [done|]. rewrite Nat.Div0.mod_eq, Hd. lia.
Qed.

(** Blocks of equal size written at their places. *)
Lemma lookup_blocks {E} c (buf : nat -> list E) (l : list nat) (dst : list E) i :
  0 < c -> i < length dst ->
  (forall p, p ∈ l -> length (buf p) = c /\ (p + 1) * c <= length dst) ->
  foldl (fun dst p => list_inserts (p * c) (buf p) dst) dst l !! i =
  if decide (i / c ∈ l) then buf (i / c) !! (i mod c) else dst !! i.
Proof.
  intros Hc Hi Hl.
  assert (forall l, (forall p, p ∈ l -> length (buf p) = c /\ (p + 1) * c <= length dst) ->
    length (foldl (fun dst p => list_inserts (p * c) (buf p) dst) dst l) = length dst) as Hlen.
  { clear. intros l _. induction l as [|p l IH] using rev_ind; [done|].
    rewrite foldl_app. simpl. by rewrite length_inserts. }
  induction l as [|p l IH] using rev_ind; [done|].
  assert (forall q, q ∈ l -> length (buf q) = c /\ (q + 1) * c <= length dst) as Hl'
    by (intros; apply Hl, elem_of_app; by left).
  destruct (Hl p) as [Hp1 Hp2]; [apply elem_of_app; right; left|].
  rewrite foldl_app. simpl foldl at 1. pose proof (elem_of_app l [p] (i / c)) as Happ.
  rewrite list_elem_of_singleton in Happ.
  destruct (decide (p * c <= i < (p + 1) * c)) as [Hin|Hout].
  - destruct (div_mod_block c p i Hc Hin) as [Hd Hm].
    rewrite list_lookup_inserts by (rewrite ?Hlen by done; lia).
    rewrite decide_True by tauto. by rewrite Hd, Hm.
  - assert (i / c <> p) as Hne.
    { intros <-. apply Hout. pose proof (Nat.div_mod_eq i c). pose proof (Nat.mod_upper_bound i c). nia. }
    destruct (decide (i < p * c)).
    + rewrite list_lookup_inserts_lt by done. rewrite IH by done. repeat case_decide; done || tauto.
    + rewrite list_lookup_inserts_ge by lia. rewrite IH by done. repeat case_decide; done || tauto.
Qed.

Lemma lookup_join_blocks {E} c (f : nat -> list E) n i :
  0 < c -> (forall p, p < n -> length (f p) = c) -> i < n * c ->
  mjoin (f <$> seq 0 n) !! i = f (i / c) !! (i mod c).
Proof.
  intros Hc Hf Hi.
  assert (i / c < n) as Hd by (apply Nat.Div0.div_lt_upper_bound; lia).
  pose proof (Nat.mod_upper_bound i c ltac:(lia)) as Hm.
  destruct (lookup_lt_is_Some_2 (f (i / c)) (i mod c)) as [y Hy]; [rewrite Hf; lia|].
  rewrite Hy. apply (join_lookup_Some_same_length c).
  - apply Forall_fmap, Forall_forall. intros p Hp. apply Hf. apply elem_of_seq in Hp. lia.
  - exists (i / c), (f (i / c)), (i mod c). split_and!; [|done|].
    + by rewrite list_lookup_fmap, lookup_seq_lt.
    + pose proof (Nat.div_mod_eq i c). lia.
Qed.

Lemma length_join_blocks {E} c (f : nat -> list E) n :
  (forall p, p < n -> length (f p) = c) -> length (mjoin (f <$> seq 0 n)) = n * c.
Proof.
  intros Hf. induction n as [|n IH]; [done|].
  rewrite seq_S, fmap_app, join_app, length_app, IH by (intros; apply Hf; lia).
  simpl. rewrite app_nil_r, Hf by lia. lia.
Qed.

Lemma wf_pg_allgather_base {E} r n (zero : E) out inp : wf_proc (pg_allgather_base r n zero out inp).
Proof.
  unfold pg_allgather_base. do 2 apply wf_check_mps. apply wf_check_single.
  case_match; [constructor|]. apply wf_exchange. intros. apply wf_unstage. constructor.
Qed.

Lemma pg_allgather_base_runs {E} n chunk (zero : E) (out inp : nat -> tensor (E := E)) :
  (forall r, r < n -> on_device (inp r) /\ on_device (out r) /\
     numel_of (inp r) = chunk /\ numel_of (out r) = chunk * n) ->
  runs n (fun r => pg_allgather_base r n zero (out r) (inp r))
    (fun r => Ret (with_elems (out r) (mjoin ((fun p => elems (inp p)) <$> seq 0 n)))).
Proof.
  intros H.
  eapply runs_ext; [|reflexivity|apply (exchange_runs n (fun r _ => elems (inp r)) (fun _ _ => chunk)
    (fun r buf => unstage (out r) (gather_into r n chunk buf
       (list_inserts (r * chunk) (elems (inp r)) (replicate (chunk * n) zero))) Ret))].
  - intros r Hr. destruct (H r Hr) as (H1 & H2 & H3 & H4). unfold pg_allgather_base.
    rewrite !check_mps_ok, check_single_ok by done. rewrite H3, H4, Nat.eqb_refl. done.
  - intros r p Hr Hp _. apply (H p Hp).
  - intros r buf Hr Hbuf. destruct (H r Hr) as (_ & Hout & _ & Htot). unfold gather_into.
    assert (forall p, p < n -> length (elems (inp p)) = chunk) as Hlen by (intros p Hp; by apply (H p)).
    assert (forall (l : list nat) (d : list E), length (foldl (fun dst p => list_inserts (p * chunk) (buf p) dst) d l) = length d)
      as Hfl by (induction l; intros d; [done|]; simpl; by rewrite IHl, length_inserts).
    rewrite unstage_ok by (done || by rewrite Hfl, length_inserts, length_replicate).
    do 2 f_equal. apply (list_eq_lt _ _ (n * chunk)).
    + rewrite Hfl, length_inserts, length_replicate. lia.
    + by apply length_join_blocks.
    + intros i Hi. assert (0 < chunk) as Hc by lia.
      rewrite (lookup_join_blocks chunk) by done.
      rewrite lookup_blocks; [|done|rewrite length_inserts, length_replicate; lia|].
      2: { intros p Hp. apply elem_of_others in Hp as [? ?]. rewrite Hbuf by done.
           split; [by apply Hlen|]. rewrite length_inserts, length_replicate. nia. }
      assert (i / chunk < n) as Hd by (apply Nat.Div0.div_lt_upper_bound; lia).
      case_decide as Hin; [apply elem_of_others in Hin as [? ?]; by rewrite Hbuf|].
      assert (i / chunk = r) as Hr' by (rewrite elem_of_others in Hin; destruct (decide (i / chunk = r)); [done|lia]).
      pose proof (Nat.div_mod_eq i chunk). pose proof (Nat.mod_upper_bound i chunk).
      rewrite list_lookup_inserts by (rewrite ?length_replicate, ?Hlen by done; nia).
      rewrite Hr'. f_equal. nia.
Qed.

(** [_allgather_base], in every interleaving: all executions are finite and
    end with every rank's output holding the inputs of all ranks one after the
    other, in rank order. *)
Theorem pg_allgather_base_correct {E} n chunk (zero : E) (out inp : nat -> tensor (E := E)) :
  (forall r, r < n -> on_device (inp r) /\ on_device (out r) /\
     numel_of (inp r) = chunk /\ numel_of (out r) = chunk * n) ->
  inevitable (procs_of n (fun r => pg_allgather_base r n zero (out r) (inp r)), ∅)
    (returned n (fun r => with_elems (out r) (mjoin ((fun p => elems (inp p)) <$> seq 0 n)))).
Proof.
  intros H. apply runs_inevitable; [intros; apply wf_pg_allgather_base|by apply (pg_allgather_base_runs n chunk)].
Qed.

Lemma pg_allgather_base_correct_witness :
  inevitable (procs_of 3 (fun r => pg_allgather_base r 3 0%Z (mkTensor true true (replicate 15 0%Z))
      (demo_tensor r)), ∅)
    (returned 3 (fun _ => mkTensor true true
       [1; 2; 3; 4; 5; 10; 20; 30; 40; 50; 7; 7; 7; 7; 7]%Z)).
Proof.
  apply (pg_allgather_base_correct 3 5 0%Z (fun _ => mkTensor true true (replicate 15 0%Z)) demo_tensor).
  intros r Hr. destruct (demo_tensor_ok r Hr) as [H1 H2].
  split_and!; [done|repeat split; cbn; lia|done|done].
Defined.

(** ** Properties: reduce-scatter *)

Lemma slice_block {E} `{!Inhabited E} c n r (l : list E) :
  length l = c * n -> r < n -> slice (r * c) c l = tab c (fun i => l !!! (r * c + i)).
Proof.
  intros Hl Hr. apply (list_eq_lt _ _ c); [apply length_slice; nia|apply length_tab|].
  intros i Hi. rewrite lookup_slice, lookup_tab by done. apply list_lookup_lookup_total_lt. nia.
Qed.

Lemma zip_tab {E} (redop : E -> E -> E) c f g :
  zip_with redop (tab c f) (tab c g) = tab c (fun i => redop (f i) (g i)).
Proof.
  apply (list_eq_lt _ _ c); [rewrite length_zip_with, !length_tab; lia|apply length_tab|].
  intros i Hi. by rewrite lookup_zip_with, !lookup_tab.
Qed.

Lemma reduce_peers_tab {E} (redop : E -> E -> E) c n r (buf : nat -> list E) (f : nat -> E)
    (x : nat -> nat -> E) :
  (forall p, p < n -> p <> r -> buf p = tab c (x p)) ->
  reduce_peers redop r n buf (tab c f) =
  tab c (fun i => foldl (fun acc p => redop acc (x p i)) (f i) (others r n)).
Proof.
  intros Hbuf. unfold reduce_peers.
  assert (forall p, p ∈ others r n -> buf p = tab c (x p)) as Hb.
  { intros p Hp. apply elem_of_others in Hp as [? ?]. by apply Hbuf. }
  revert f Hb. induction (others r n) as [|p l IH]; intros f Hb; [done|]. simpl.
  rewrite Hb by left. rewrite zip_tab. apply IH. intros q Hq. apply Hb. by right.
Qed.

Lemma wf_pg_reduce_scatter_base {E} (redop : E -> E -> E) scale avg r n out inp :
  wf_proc (pg_reduce_scatter_base redop scale avg r n out inp).
Proof.
  unfold pg_reduce_scatter_base. do 2 apply wf_check_mps. apply wf_check_single.
  case_match; [constructor|]. apply wf_unstage. intros. apply wf_exchange. intros. constructor.
Qed.

Lemma pg_reduce_scatter_base_runs {E} `{!Inhabited E} (redop : E -> E -> E) (scale : E -> E)
    avg n chunk (out inp : nat -> tensor (E := E)) :
  (forall r, r < n -> on_device (inp r) /\ on_device (out r) /\
     numel_of (inp r) = chunk * n /\ numel_of (out r) = chunk) ->
  let x p i := elems (inp p) !!! i in
  runs n (fun r => pg_reduce_scatter_base redop scale avg r n (out r) (inp r))
    (fun r => Ret (with_elems (out r) (tab chunk (fun i =>
       averaged scale avg (fly_val redop n x r (r * chunk + i)))))).
Proof.
  intros H x.
  eapply runs_ext; [|reflexivity|apply (exchange_runs n
    (fun r p => slice (p * chunk) chunk (elems (inp r))) (fun _ _ => chunk)
    (fun r buf => Ret (with_elems (out r) (finish scale avg chunk
       (reduce_peers redop r n buf (slice (r * chunk) chunk (elems (inp r))))))))].
  - intros r Hr. destruct (H r Hr) as (H1 & H2 & H3 & H4). unfold pg_reduce_scatter_base.
    rewrite !check_mps_ok, check_single_ok by done. rewrite H3, H4, Nat.eqb_refl. cbn [negb].
    rewrite unstage_ok; [done|done|]. rewrite H4. apply length_slice. unfold numel_of in H3. nia.
  - intros r p Hr Hp _. apply length_slice. destruct (H p Hp) as (_ & _ & H3 & _).
    unfold numel_of in H3. nia.
  - intros r buf Hr Hbuf. do 2 f_equal.
    assert (forall p, p < n -> slice (r * chunk) chunk (elems (inp p)) = tab chunk (fun i => x p (r * chunk + i)))
      as Hsl by (intros p Hp; apply (slice_block chunk n); [by apply H|done]).
    rewrite Hsl by done.
    rewrite (reduce_peers_tab redop chunk n r buf _ (fun p i => x p (r * chunk + i))).
    + rewrite finish_tab. done.
    + intros p Hp Hne. rewrite Hbuf by done. by apply Hsl.
Qed.

(** [_reduce_scatter_base], in every interleaving: all executions are finite
    and end with rank [r] holding share [r] of the inputs reduced in the order
    own value, then the other ranks ascending (scaled for AVG); for an
    associative and commutative reduction that is the reduction in rank
    order. *)
Theorem pg_reduce_scatter_base_correct {E} `{!Inhabited E} (redop : E -> E -> E) (scale : E -> E)
    avg n chunk (out inp : nat -> tensor (E := E)) :
  (forall r, r < n -> on_device (inp r) /\ on_device (out r) /\
     numel_of (inp r) = chunk * n /\ numel_of (out r) = chunk) ->
  let x p i := elems (inp p) !!! i in
  inevitable (procs_of n (fun r => pg_reduce_scatter_base redop scale avg r n (out r) (inp r)), ∅)
    (returned n (fun r => with_elems (out r) (tab chunk (fun i =>
       averaged scale avg (fly_val redop n x r (r * chunk + i)))))) /\
  ((forall a b c, redop a (redop b c) = redop (redop a b) c) ->
   (forall a b, redop a b = redop b a) ->
   forall r i, r < n -> fly_val redop n x r i = range_red redop x 0 n i).
Proof.
  intros H x. split; [|intros Ha Hc r i Hr; apply fly_val_all; done || lia].
  apply runs_inevitable; [intros; apply wf_pg_reduce_scatter_base|by apply (pg_reduce_scatter_base_runs redop scale avg n chunk)].
Qed.

Lemma pg_reduce_scatter_base_correct_witness :
  let inp r := mkTensor true true (nth r [[1; 2; 3; 4; 5; 6]; [10; 20; 30; 40; 50; 60]; [7; 7; 7; 7; 7; 7]]%Z []) in
  inevitable (procs_of 3 (fun r => pg_reduce_scatter_base Z.add Z.opp false r 3
      (mkTensor true true [0; 0]%Z) (inp r)), ∅)
    (returned 3 (fun r => mkTensor true true (tab 2 (fun i =>
       averaged Z.opp false (fly_val Z.add 3 (fun p i => elems (inp p) !!! i) r (r * 2 + i)))))).
Proof.
  intros inp.
  apply (pg_reduce_scatter_base_correct Z.add Z.opp false 3 2 (fun _ => mkTensor true true [0; 0]%Z) inp).
  intros r Hr. assert (numel_of (inp r) = 6) as Hn by (destruct r as [|[|[|r]]]; done || lia).
  split_and!; [|repeat split; cbn; lia|done|done]. repeat split. rewrite Hn. lia.
Defined.

(** ** Properties: all-to-all *)

Lemma wf_pg_alltoall {E} r n (outs ins : list (tensor (E := E))) : wf_proc (pg_alltoall r n outs ins).
Proof.
  unfold pg_alltoall. case_match; [constructor|]. apply wf_stage_pairs, wf_unstage_each.
  intros. apply wf_exchange. intros. apply wf_unstage_each. constructor.
Qed.

Lemma pg_alltoall_runs {E} n (outs ins : nat -> list (tensor (E := E))) :
  (forall r, r < n -> length (ins r) = n /\ length (outs r) = n /\
     Forall on_device (ins r) /\ Forall on_device (outs r)) ->
  (forall r p, r < n -> p < n -> numel_of <$> outs r !! p = numel_of <$> ins p !! r) ->
  runs n (fun r => pg_alltoall r n (outs r) (ins r))
    (fun r => Ret (imap (fun p o => with_elems o (default [] (elems <$> ins p !! r))) (outs r))).
Proof.
  intros H Hsz.
  set (msg r p := default [] (elems <$> ins r !! p)).
  set (own r := imap (fun p o => if decide (p ∈ [r]) then with_elems o (msg r p) else o) (outs r)).
  assert (forall r p o, r < n -> p < n -> outs r !! p = Some o ->
    on_device o /\ length (msg p r) = numel_of o) as Hfit.
  { intros r p o Hr Hp Ho. destruct (H r Hr) as (_ & _ & _ & Hd). split; [by eapply Forall_lookup_1|].
    specialize (Hsz r p Hr Hp). rewrite Ho in Hsz. unfold msg. destruct (ins p !! r); simplify_eq/=. done. }
  eapply runs_ext; [|reflexivity|apply (exchange_runs n msg (fun r p => default 0 (numel_of <$> outs r !! p))
    (fun r buf => unstage_each (others r n) buf (own r) Ret))].
  - intros r Hr. destruct (H r Hr) as (H1 & H2 & H3 & H4). unfold pg_alltoall.
    rewrite H1, H2, Nat.eqb_refl. cbn [andb negb]. rewrite stage_pairs_ok by done.
    rewrite unstage_each_ok; [done|apply NoDup_singleton|].
    intros p o Hp Ho. apply list_elem_of_singleton in Hp as ->. by apply Hfit.
  - intros r p Hr Hp _. rewrite Hsz by done. unfold msg. by destruct (ins p !! r).
  - intros r buf Hr Hbuf. destruct (H r Hr) as (_ & H2 & _). rewrite unstage_each_ok.
    + f_equal. unfold own. apply list_eq. intros p. rewrite !list_lookup_imap.
      destruct (outs r !! p) as [o|] eqn:Ho; [|done]. simpl. pose proof (lookup_lt_Some _ _ _ Ho) as Hp.
      f_equal. destruct (decide (p = r)) as [->|Hne].
      * rewrite decide_False by (rewrite elem_of_others; tauto). by rewrite decide_True by left.
      * rewrite decide_True by (apply elem_of_others; lia). rewrite Hbuf by lia.
        by rewrite decide_False by (by rewrite list_elem_of_singleton).
    + apply NoDup_others.
    + intros p o Hp Ho. apply elem_of_others in Hp as [Hne Hp]. unfold own in Ho.
      rewrite list_lookup_imap in Ho. apply fmap_Some in Ho as (o' & Ho' & ->).
      rewrite decide_False by (by rewrite list_elem_of_singleton). rewrite Hbuf by done. by apply Hfit.
Qed.

(** [alltoall], in every interleaving: when output [p] of rank [r] has the
    size of input [r] of rank [p], all executions are finite and end with
    output [p] of rank [r] holding exactly that input. *)
Theorem pg_alltoall_correct {E} n (outs ins : nat -> list (tensor (E := E))) :
  (forall r, r < n -> length (ins r) = n /\ length (outs r) = n /\
     Forall on_device (ins r) /\ Forall on_device (outs r)) ->
  (forall r p, r < n -> p < n -> numel_of <$> outs r !! p = numel_of <$> ins p !! r) ->
  inevitable (procs_of n (fun r => pg_alltoall r n (outs r) (ins r)), ∅)
    (returned n (fun r => imap (fun p o => with_elems o (default [] (elems <$> ins p !! r))) (outs r))).
Proof.
  intros. apply runs_inevitable; [intros; apply wf_pg_alltoall|by apply pg_alltoall_runs].
Qed.

Lemma pg_alltoall_correct_witness :
  let t l := mkTensor true true l : tensor (E := Z) in
  inevitable (procs_of 2 (fun r => pg_alltoall r 2
      (nth r [[t [0]; t [0; 0]]; [t [0; 0; 0]; t [0]]]%Z [])
      (nth r [[t [1]; t [2; 3; 4]]; [t [5; 6]; t [7]]]%Z [])), ∅)
    (returned 2 (fun r => nth r [[t [1]; t [5; 6]]; [t [2; 3; 4]; t [7]]]%Z [])).
Proof.
  intros t.
  destruct (pg_alltoall_correct 2 (fun r => nth r [[t [0]; t [0; 0]]; [t [0; 0; 0]; t [0]]]%Z [])
    (fun r => nth r [[t [1]; t [2; 3; 4]]; [t [5; 6]; t [7]]]%Z [])) as [b Hb].
  - intros r Hr. destruct r as [|[|r]]; [repeat constructor; cbn; lia..|lia].
  - intros r p Hr Hp. destruct r as [|[|r]]; [..|lia]; destruct p as [|[|p]]; done || lia.
  - exists b. intros m s1 Hs. destruct (Hb m s1 Hs) as (H1 & (s2 & H2 & H3) & H4).
    split; [exact H1|]. split; [exists s2; split; [exact H2|exact H3]|exact H4].
Defined.
