(* ===== verification/ListCollectives.v ===== *)
(** * Collectives over lists of tensors and over unequal shares

    The properties of [allgather] and [reduce_scatter], which treat a list of
    tensors in one call, and of [alltoall_base], whose shares are given by
    split sizes.  The bodies are in [Collectives]. *)
From S2P Require Import Prelude Network Allreduce Collectives.

(** ** Allgather *)

Section Allgather.
Context {E : Type} (n : nat).
Abbreviation tens := (tensor (E := E)).

(** One call's outputs and input, by rank. *)
Record gather_item := mkGather { g_outs : nat -> list tens; g_in : nat -> tens }.

Definition gather_fits (it : gather_item) : Prop :=
  exists chunk, forall r, r < n ->
    on_device (g_in it r) /\ numel_of (g_in it r) = chunk /\ length (g_outs it r) = n /\
    Forall (fun o => on_device o /\ numel_of o = chunk) (g_outs it r).

(** Output [p] of every rank with the input of rank [p]. *)
Definition gathered (it : gather_item) (r : nat) : list tens :=
  imap (fun p o => with_elems o (elems (g_in it p))) (g_outs it r).

Lemma wf_allgather_one r outs inp : wf_proc (pg_allgather_one (E := E) r n outs inp).
Proof.
  unfold pg_allgather_one. case_match; [constructor|]. apply wf_check_mps, wf_check_all, wf_check_single.
  apply wf_exchange. intros. apply wf_unstage_each. constructor.
Qed.

Lemma allgather_one_runs it :
  gather_fits it ->
  runs n (fun r => pg_allgather_one r n (g_outs it r) (g_in it r)) (fun r => Ret (gathered it r)).
Proof.
  intros [chunk H].
  eapply runs_ext; [|reflexivity|apply (exchange_runs n (fun r _ => elems (g_in it r)) (fun _ _ => chunk)
    (fun r buf => unstage_each (r :: others r n) (fun p => if p =? r then elems (g_in it r) else buf p)
       (g_outs it r) Ret))].
  - intros r Hr. destruct (H r Hr) as (H1 & H2 & H3 & H4). unfold pg_allgather_one.
    rewrite H3, Nat.eqb_refl. cbn [negb]. rewrite check_mps_ok, check_all_ok, check_single_ok, H2; [done|done| |done].
    eapply Forall_impl; [exact H4|]. by intros o [].
  - intros r p Hr Hp _. apply (H p Hp).
  - intros r buf Hr Hbuf. destruct (H r Hr) as (_ & _ & Hlen & Ho).
    assert (forall p, p < n -> (if p =? r then elems (g_in it r) else buf p) = elems (g_in it p)) as Hd.
    { intros p Hp. destruct (Nat.eqb_spec p r) as [->|Hne]; [done|]. by apply Hbuf. }
    rewrite unstage_each_ok.
    + unfold gathered. f_equal. apply imap_ext. intros p o Hp. apply lookup_lt_Some in Hp.
      rewrite decide_True; [by rewrite Hd by lia|].
      rewrite elem_of_cons, elem_of_others. destruct (decide (p = r)); [by left|right; lia].
    + constructor; [|apply NoDup_others]. rewrite elem_of_others. tauto.
    + intros p o _ Hp. pose proof (lookup_lt_Some _ _ _ Hp). rewrite Hd by lia.
      apply (Forall_lookup_1 _ _ _ _ Ho) in Hp as [? ->]. split; [done|]. apply H. lia.
Qed.

Lemma allgather_loop_runs (done : nat -> list (list tens)) its :
  Forall gather_fits its ->
  runs n (fun r => allgather_loop r n (done r) ((fun it => g_outs it r) <$> its) ((fun it => g_in it r) <$> its))
    (fun r => Ret (done r ++ ((fun it => gathered it r) <$> its))).
Proof.
  intros Hits. revert done. induction Hits as [|it its Hit _ IH]; intros done.
  { apply runs_refl. intros r Hr. simpl. by rewrite app_nil_r. }
  eapply runs_trans.
  - pose proof (runs_pbind n _ (fun r => gathered it r) (fun r o => allgather_loop r n (done r ++ [o])
      ((fun it => g_outs it r) <$> its) ((fun it => g_in it r) <$> its)) (allgather_one_runs it Hit)) as H1. exact H1.
  - eapply runs_ext; [| |apply (IH (fun r => done r ++ [gathered it r]))]; [reflexivity|].
    intros r Hr. cbn beta. by rewrite <- app_assoc.
Qed.

Lemma wf_allgather_loop r done outs ins : wf_proc (allgather_loop (E := E) r n done outs ins).
Proof.
  revert done outs. induction ins as [|i ins IH]; intros done outs; [destruct outs; constructor|].
  destruct outs as [|o outs]; [constructor|]. simpl. apply wf_pbind; [apply wf_allgather_one|].
  intros. apply IH.
Qed.

Lemma wf_pg_allgather r outs ins : wf_proc (pg_allgather (E := E) r n outs ins).
Proof. unfold pg_allgather. case_match; [constructor|apply wf_allgather_loop]. Qed.

Lemma pg_allgather_runs its :
  Forall gather_fits its ->
  runs n (fun r => pg_allgather r n ((fun it => g_outs it r) <$> its) ((fun it => g_in it r) <$> its))
    (fun r => Ret ((fun it => gathered it r) <$> its)).
Proof.
  intros Hits. eapply runs_ext; [|reflexivity|by apply (allgather_loop_runs (fun _ => []))].
  intros r _. unfold pg_allgather. by rewrite !length_fmap, Nat.eqb_refl.
Qed.
End Allgather.

(** [allgather] of a list of tensors, in every interleaving: when in each call
    every output has the size of the inputs, all executions are finite and end
    with output [p] of every rank holding the input of rank [p]. *)
Theorem pg_allgather_correct {E} n (its : list (gather_item (E := E))) :
  Forall (gather_fits n) its ->
  inevitable
    (procs_of n (fun r => pg_allgather r n ((fun it => g_outs it r) <$> its) ((fun it => g_in it r) <$> its)), ∅)
    (returned n (fun r => (fun it => gathered it r) <$> its)).
Proof.
  intros Hits. apply runs_inevitable; [intros; apply wf_pg_allgather|by apply pg_allgather_runs].
Qed.

Definition demo_gather : gather_item (E := Z) :=
  mkGather (fun _ => replicate 3 (mkTensor true true (replicate 5 0%Z))) demo_tensor.

Lemma demo_gather_fits : gather_fits 3 demo_gather.
Proof.
  exists 5. intros r Hr. destruct (demo_tensor_ok r Hr) as [H1 H2]. split_and!; [done|done|done|].
  repeat constructor; cbn; lia.
Qed.

Lemma pg_allgather_correct_witness :
  inevitable
    (procs_of 3 (fun r => pg_allgather r 3 [replicate 3 (mkTensor true true (replicate 5 0%Z))] [demo_tensor r]), ∅)
    (returned 3 (fun _ => [[mkTensor true true [1; 2; 3; 4; 5]; mkTensor true true [10; 20; 30; 40; 50];
       mkTensor true true [7; 7; 7; 7; 7]]]%Z)).
Proof.
  apply (pg_allgather_correct 3 [demo_gather]). constructor; [exact demo_gather_fits|constructor].
Defined.

(** ** Reduce-scatter *)

Section ReduceScatter.
Context {E : Type} `{!Inhabited E} (redop : E -> E -> E) (scale : E -> E) (avg : bool).
Context (n : nat) (beyond : nat -> nat -> list E).
Abbreviation tens := (tensor (E := E)).

Record scatter_item := mkScatter { s_out : nat -> tens; s_ins : nat -> list tens }.

(** The sizes the caller is expected to pass. *)
Definition scatter_fits (it : scatter_item) : Prop :=
  exists chunk, forall r, r < n ->
    on_device (s_out it r) /\ numel_of (s_out it r) = chunk /\ length (s_ins it r) = n /\
    Forall (fun i => on_device i /\ numel_of i = chunk) (s_ins it r).

(** The sizes the code checks, and enough memory behind short inputs. *)
Definition scatter_accepted (it : scatter_item) : Prop :=
  exists chunk, forall r, r < n ->
    on_device (s_out it r) /\ numel_of (s_out it r) = chunk /\ length (s_ins it r) = n /\
    Forall on_device (s_ins it r) /\ numel_of <$> s_ins it r !! 0 = Some chunk /\
    forall p i, s_ins it r !! p = Some i -> chunk <= numel_of i + length (beyond r p).

(** Element [i] of the share that rank [p] has for rank [r]: in the tensor, and
    in the memory that starts with it. *)
Definition share_elem (it : scatter_item) (r p i : nat) : E :=
  default [] (elems <$> s_ins it p !! r) !!! i.
Definition share_mem (it : scatter_item) (r p i : nat) : E :=
  (default [] (elems <$> s_ins it p !! r) ++ beyond p r) !!! i.

(** The output of rank [r]: its own share, then the others' in rank order. *)
Definition scattered (elem : scatter_item -> nat -> nat -> nat -> E) (it : scatter_item) (r : nat) : tens :=
  with_elems (s_out it r) (tab (numel_of (s_out it r)) (fun i =>
    averaged scale avg (fly_val redop n (elem it r) r i))).

Lemma fits_accepted it : 0 < n -> scatter_fits it -> scatter_accepted it.
Proof.
  intros Hn [chunk H]. exists chunk. intros r Hr. destruct (H r Hr) as (H1 & H2 & H3 & H4).
  split_and!; [done..| | |].
  - eapply Forall_impl; [exact H4|]. by intros ? [].
  - destruct (lookup_lt_is_Some_2 (s_ins it r) 0) as [i Hi]; [lia|]. rewrite Hi. simpl. f_equal.
    by apply (Forall_lookup_1 _ _ _ _ H4) in Hi as [].
  - intros p i Hi. apply (Forall_lookup_1 _ _ _ _ H4) in Hi as [_ ->]. lia.
Qed.

Lemma fly_val_ext (x y : nat -> nat -> E) r i :
  r < n -> (forall p, p < n -> x p i = y p i) -> fly_val redop n x r i = fly_val redop n y r i.
Proof.
  intros Hr Hxy. unfold fly_val. rewrite (Hxy r Hr).
  assert (forall p, p ∈ others r n -> x p i = y p i) as Ho.
  { intros p Hp. apply elem_of_others in Hp as [_ Hp]. by apply Hxy. }
  generalize (y r i). revert Ho. induction (others r n) as [|p l IH]; intros Ho e; [done|].
  simpl. rewrite (Ho p) by left. apply IH. intros q Hq. apply Ho. by right.
Qed.

Lemma fits_scattered it r :
  scatter_fits it -> r < n -> scattered share_mem it r = scattered share_elem it r.
Proof.
  intros [chunk H] Hr. unfold scattered. f_equal. destruct (H r Hr) as (_ & -> & _).
  apply tab_ext. intros i Hi. f_equal. apply fly_val_ext; [done|]. intros p Hp.
  destruct (H p Hp) as (_ & _ & Hl & Hf). unfold share_mem, share_elem.
  destruct (lookup_lt_is_Some_2 (s_ins it p) r) as [t Ht]; [lia|]. rewrite Ht. simpl.
  apply (Forall_lookup_1 _ _ _ _ Hf) in Ht as [_ Ht]. apply lookup_total_app_l. by rewrite <- Ht in Hi.
Qed.

Lemma wf_reduce_scatter_one r b out ins :
  wf_proc (pg_reduce_scatter_one redop scale avg r n b out ins).
Proof.
  unfold pg_reduce_scatter_one. case_match; [constructor|]. apply wf_check_mps, wf_stage_all.
  cbv zeta. case_match; [constructor|]. apply wf_unstage. intros. apply wf_exchange. constructor.
Qed.

(** [chunk] elements from the start of input [p]. *)
Lemma share_read it chunk r p :
  length (s_ins it r) = n ->
  (forall p i, s_ins it r !! p = Some i -> chunk <= numel_of i + length (beyond r p)) -> p < n ->
  take chunk (default [] (elems <$> s_ins it r !! p) ++ beyond r p) = tab chunk (share_mem it p r).
Proof.
  intros Hl Hf Hp. destruct (lookup_lt_is_Some_2 (s_ins it r) p) as [i Hi]; [lia|].
  pose proof (Hf p i Hi) as Hn. unfold share_mem. rewrite Hi. simpl. unfold numel_of in Hn.
  apply (list_eq_lt _ _ chunk); [rewrite length_take, length_app; lia|apply length_tab|].
  intros j Hj. rewrite lookup_take_lt, lookup_tab by done.
  apply list_lookup_lookup_total_lt. rewrite length_app. lia.
Qed.

Lemma reduce_scatter_one_runs it :
  scatter_accepted it ->
  runs n (fun r => pg_reduce_scatter_one redop scale avg r n (beyond r) (s_out it r) (s_ins it r))
    (fun r => Ret (scattered share_mem it r)).
Proof.
  intros [chunk H].
  assert (forall r p, r < n -> p < n ->
    take chunk (default [] (elems <$> s_ins it r !! p) ++ beyond r p) = tab chunk (share_mem it p r)) as Hsh.
  { intros r p Hr Hp. destruct (H r Hr) as (_ & _ & ? & _ & _ & ?). by apply share_read. }
  eapply runs_ext; [|reflexivity|apply (exchange_runs n
    (fun r p => take chunk (default [] (elems <$> s_ins it r !! p) ++ beyond r p)) (fun _ _ => chunk)
    (fun r buf => Ret (with_elems (s_out it r) (finish scale avg chunk
       (reduce_peers redop r n buf (tab chunk (share_mem it r r)))))))].
  - intros r Hr. destruct (H r Hr) as (H1 & H2 & H3 & H4 & H5 & _). unfold pg_reduce_scatter_one.
    rewrite H3, Nat.eqb_refl. cbn [negb]. rewrite check_mps_ok, stage_all_ok, H5 by done.
    cbn [default from_option]. unfold id. rewrite H2, Nat.eqb_refl. cbn [negb].
    rewrite unstage_ok by (done || by rewrite Hsh, length_tab). by rewrite Hsh.
  - intros r p Hr Hp _. rewrite Hsh by done. apply length_tab.
  - intros r buf Hr Hbuf. unfold scattered. destruct (H r Hr) as (_ & -> & _). do 2 f_equal.
    rewrite (reduce_peers_tab redop chunk n r buf _ (share_mem it r)); [by rewrite finish_tab|].
    intros p Hp Hne. rewrite Hbuf by done. by apply Hsh.
Qed.

Lemma reduce_scatter_loop_runs (done : nat -> list tens) its :
  Forall scatter_accepted its ->
  runs n (fun r => reduce_scatter_loop redop scale avg r n (beyond r) (done r)
      ((fun it => s_out it r) <$> its) ((fun it => s_ins it r) <$> its))
    (fun r => Ret (done r ++ ((fun it => scattered share_mem it r) <$> its))).
Proof.
  intros Hits. revert done. induction Hits as [|it its Hit _ IH]; intros done.
  { apply runs_refl. intros r Hr. simpl. by rewrite app_nil_r. }
  eapply runs_trans.
  - pose proof (runs_pbind n _ (fun r => scattered share_mem it r) (fun r o => reduce_scatter_loop redop scale avg
      r n (beyond r) (done r ++ [o]) ((fun it => s_out it r) <$> its) ((fun it => s_ins it r) <$> its))
      (reduce_scatter_one_runs it Hit)) as H1. exact H1.
  - eapply runs_ext; [| |apply (IH (fun r => done r ++ [scattered share_mem it r]))]; [reflexivity|].
    intros r Hr. cbn beta. by rewrite <- app_assoc.
Qed.

Lemma wf_reduce_scatter_loop r b done outs ins :
  wf_proc (reduce_scatter_loop redop scale avg r n b done outs ins).
Proof.
  revert done ins. induction outs as [|o outs IH]; intros done ins; [constructor|].
  destruct ins as [|i ins]; [constructor|]. simpl. apply wf_pbind; [apply wf_reduce_scatter_one|].
  intros. apply IH.
Qed.

Lemma wf_pg_reduce_scatter r b outs ins : wf_proc (pg_reduce_scatter redop scale avg r n b outs ins).
Proof. unfold pg_reduce_scatter. case_match; [constructor|apply wf_reduce_scatter_loop]. Qed.

Lemma pg_reduce_scatter_runs its :
  Forall scatter_accepted its ->
  runs n (fun r => pg_reduce_scatter redop scale avg r n (beyond r)
      ((fun it => s_out it r) <$> its) ((fun it => s_ins it r) <$> its))
    (fun r => Ret ((fun it => scattered share_mem it r) <$> its)).
Proof.
  intros Hits. eapply runs_ext; [|reflexivity|by apply (reduce_scatter_loop_runs (fun _ => []))].
  intros r _. unfold pg_reduce_scatter. by rewrite !length_fmap, Nat.eqb_refl.
Qed.

(** With the expected sizes the memory behind the inputs plays no part. *)
Lemma pg_reduce_scatter_fits_runs its :
  0 < n -> Forall scatter_fits its ->
  runs n (fun r => pg_reduce_scatter redop scale avg r n (beyond r)
      ((fun it => s_out it r) <$> its) ((fun it => s_ins it r) <$> its))
    (fun r => Ret ((fun it => scattered share_elem it r) <$> its)).
Proof.
  intros Hn Hits. eapply runs_ext; [reflexivity| |apply pg_reduce_scatter_runs;
    eapply Forall_impl; [exact Hits|]; intros; by apply fits_accepted].
  intros r Hr. cbn beta. f_equal. apply list_fmap_ext. intros j it Hj. symmetry.
  apply fits_scattered; [|done]. by eapply Forall_lookup_1.
Qed.
End ReduceScatter.


(** The input sizes are not checked: only the first input of a call is compared
    with the output.  An input [p] that is shorter is accepted, the send reads
    on behind it, and what lies there is sent to rank [p] and reduced into its
    output. *)
Theorem reduce_scatter_reads_beyond {E} `{!Inhabited E} (redop : E -> E -> E) (scale : E -> E) avg n
    beyond (its : list (scatter_item (E := E))) :
  Forall (scatter_accepted n beyond) its ->
  inevitable
    (procs_of n (fun r => pg_reduce_scatter redop scale avg r n (beyond r)
       ((fun it => s_out it r) <$> its) ((fun it => s_ins it r) <$> its)), ∅)
    (returned n (fun r => (fun it => scattered redop scale avg n (share_mem beyond) it r) <$> its)) /\
  (forall it r p t i, s_ins it p !! r = Some t -> numel_of t <= i ->
     share_mem beyond it r p i = beyond p r !!! (i - numel_of t)).
Proof.
  intros Hits. split; [apply runs_inevitable; [intros; apply wf_pg_reduce_scatter|by apply pg_reduce_scatter_runs]|].
  intros it r p t i Ht Hi. unfold share_mem. rewrite Ht. by apply lookup_total_app_r.
Qed.

Definition demo_scatter : scatter_item (E := Z) :=
  mkScatter (fun _ => mkTensor true true [0; 0]%Z)
    (fun r => [mkTensor true true [Z.of_nat r; 1]%Z; mkTensor true true [10 * Z.of_nat r; 5]%Z]).


(** The second input has one element, the output two: [99] is read behind it. *)
Definition demo_short : scatter_item (E := Z) :=
  mkScatter (fun _ => mkTensor true true [0; 0]%Z)
    (fun r => [mkTensor true true [Z.of_nat r; 1]%Z; mkTensor true true [10 * Z.of_nat r]%Z]).

Lemma reduce_scatter_reads_beyond_witness :
  inevitable
    (procs_of 2 (fun r => pg_reduce_scatter Z.add Z.opp false r 2 (fun _ => [99]%Z)
       [s_out demo_short r] [s_ins demo_short r]), ∅)
    (returned 2 (fun r => [scattered Z.add Z.opp false 2 (share_mem (fun _ _ => [99]%Z)) demo_short r])) /\
  scattered Z.add Z.opp false 2 (share_mem (fun _ _ => [99]%Z)) demo_short 1 = mkTensor true true [10; 198]%Z.
Proof.
  split; [|reflexivity].
  apply (reduce_scatter_reads_beyond Z.add Z.opp false 2 (fun _ _ => [99]%Z) [demo_short]).
  constructor; [|constructor]. exists 2. intros r Hr.
  split_and!; [repeat constructor; cbn; lia|done|done|repeat constructor; cbn; lia|done|].
  intros [|[|p]] i; [intros [= <-]; cbn; lia..|done].
Defined.

(** ** All-to-all with split sizes *)

Section Splits.
Context (splits : list nat).

Lemma offset_S p s : splits !! p = Some s -> offset splits (S p) = offset splits p + s.
Proof.
  intros H. unfold offset. rewrite (take_S_r _ _ _ H). rewrite sum_list_with_app. simpl. lia.
Qed.

Lemma offset_mono p q : p <= q -> offset splits p <= offset splits q.
Proof.
  intros H. unfold offset. rewrite <- (take_drop p (take q splits)), take_take, Nat.min_l by done.
  rewrite sum_list_with_app. lia.
Qed.

Lemma offset_all : offset splits (length splits) = sum_list splits.
Proof. unfold offset. by rewrite firstn_all. Qed.

(** The share in which position [i] lies. *)
Lemma offset_find n i :
  i < offset splits n -> exists p, p < n /\ offset splits p <= i < offset splits (S p).
Proof.
  induction n as [|n IH]; intros Hi; [unfold offset in Hi; simpl in Hi; lia|].
  destruct (decide (i < offset splits n)) as [Hlt|Hge].
  - destruct (IH Hlt) as (p & Hp & ?). exists p. split; [lia|done].
  - exists n. lia.
Qed.

Lemma offset_unique p q i :
  offset splits p <= i < offset splits (S p) -> offset splits q <= i < offset splits (S q) -> p = q.
Proof.
  intros Hp Hq. destruct (decide (S p <= q)) as [H|H].
  - pose proof (offset_mono _ _ H). lia.
  - destruct (decide (S q <= p)) as [H'|H']; [pose proof (offset_mono _ _ H'); lia|lia].
Qed.

Context {E : Type} (f : nat -> list E) (n : nat).
Context (Hf : forall p, p < n -> length (f p) = offset splits (S p) - offset splits p).

Lemma length_join_shares : length (mjoin (f <$> seq 0 n)) = offset splits n.
Proof using Hf.
  revert Hf. induction n as [|m IH]; intros Hl; [done|].
  rewrite seq_S, fmap_app, join_app, length_app, IH by (intros; apply Hl; lia).
  simpl. rewrite app_nil_r, Hl by lia. pose proof (offset_mono m (S m)). lia.
Qed.

Lemma lookup_join_shares p i :
  p < n -> offset splits p <= i < offset splits (S p) ->
  mjoin (f <$> seq 0 n) !! i = f p !! (i - offset splits p).
Proof using Hf.
  intros Hp Hi. replace n with (p + S (n - S p)) by lia.
  rewrite seq_app, fmap_app, join_app. simpl.
  assert (forall m, m <= n -> length (mjoin (f <$> seq 0 m)) = offset splits m) as Hlen.
  { induction m as [|m IH]; intros Hm; [done|].
    rewrite seq_S, fmap_app, join_app, length_app, IH by lia. simpl. rewrite app_nil_r, Hf by lia.
    pose proof (offset_mono m (S m)). lia. }
  rewrite lookup_app_r; rewrite Hlen by lia; [|lia]. apply lookup_app_l. rewrite Hf by done. lia.
Qed.

(** Shares written at their offsets, in any order. *)
Lemma lookup_shares (l : list nat) (mem : list E) i :
  (forall p, p ∈ l -> p < n) -> offset splits n <= length mem ->
  foldl (fun mem p => list_inserts (offset splits p) (f p) mem) mem l !! i =
  match list_find (fun p => offset splits p <= i < offset splits (S p)) l with
  | Some (_, p) => f p !! (i - offset splits p)
  | None => mem !! i
  end.
Proof using Hf.
  intros Hl Hm. revert mem Hm. induction l as [|p l IH]; intros mem Hm; [done|].
  assert (p < n) as Hp by (apply Hl; left). simpl foldl.
  rewrite IH; [|intros; apply Hl; by right|by rewrite length_inserts].
  pose proof (offset_mono (S p) n Hp) as Hend. pose proof (offset_mono p (S p)) as Hpp.
  cbn [list_find]. destruct (decide (offset splits p <= i < offset splits (S p))) as [Hin|Hout].
  - destruct (list_find _ l) as [[j q]|] eqn:Hfind.
    + apply list_find_Some in Hfind as (_ & Hq & _). by rewrite (offset_unique p q i Hin Hq).
    + apply list_lookup_inserts; rewrite ?Hf by done; lia.
  - destruct (list_find _ l) as [[j q]|]; [done|]. simpl.
    destruct (decide (i < offset splits p)).
    + by apply list_lookup_inserts_lt.
    + apply list_lookup_inserts_ge. rewrite Hf by done. lia.
Qed.

(** The own share first and then the others: the shares one after the other. *)
Lemma foldl_shares r (mem : list E) :
  r < n -> offset splits n <= length mem ->
  foldl (fun mem p => list_inserts (offset splits p) (f p) mem) mem (r :: others r n) =
  mjoin (f <$> seq 0 n) ++ drop (offset splits n) mem.
Proof using Hf.
  intros Hr Hm. apply list_eq. intros i.
  rewrite lookup_shares; [|intros p; rewrite elem_of_cons, elem_of_others; lia|done].
  destruct (decide (i < offset splits n)) as [Hi|Hi].
  - destruct (offset_find n i Hi) as (p & Hp & Hin).
    rewrite lookup_app_l by (by rewrite length_join_shares). rewrite (lookup_join_shares p) by done.
    destruct (list_find _ _) as [[j q]|] eqn:Hfind.
    + apply list_find_Some in Hfind as (_ & Hq & _). by rewrite (offset_unique q p i).
    + apply list_find_None in Hfind. exfalso. rewrite Forall_forall in Hfind. apply (Hfind p); [|done].
      rewrite elem_of_cons, elem_of_others. destruct (decide (p = r)); [by left|right; lia].
  - rewrite lookup_app_r by (rewrite length_join_shares; lia). rewrite lookup_drop, length_join_shares.
    replace (offset splits n + (i - offset splits n)) with i by lia.
    destruct (list_find _ _) as [[j q]|] eqn:Hfind; [|done].
    apply list_find_Some in Hfind as (Hq & Hin & _). exfalso.
    apply list_elem_of_lookup_2 in Hq. rewrite elem_of_cons, elem_of_others in Hq.
    pose proof (offset_mono (S q) n). lia.
Qed.
End Splits.

(** A round in which empty shares are neither sent nor received. *)
Section Sparse.
Context {E A : Type} (n : nat) (msg : nat -> nat -> list E).

Definition sparse1 (r p : nat) : list (nat * list E) * list (nat * nat) :=
  (if 0 <? length (msg r p) then [(p, msg r p)] else [],
   if 0 <? length (msg p r) then [(p, length (msg p r))] else []).
Definition sparse (r : nat) : plan E := sparse1 r <$> others r n.

Lemma sparse_acts r :
  plan_acts (sparse r) =
  alltoall_thread (msg r) (fun p => length (msg r p)) (fun p => length (msg p r)) <$> others r n.
Proof.
  unfold plan_acts, sparse. rewrite <- list_fmap_compose. apply list_fmap_ext. intros i p _. simpl.
  unfold alltoall_thread. by destruct (0 <? length (msg r p)), (0 <? length (msg p r)).
Qed.

Lemma sparse_join r (l : list nat) : sparse1 r <$> l = mjoin ((fun p => [sparse1 r p]) <$> l).
Proof. induction l as [|p l IH]; [done|]. simpl. by f_equal. Qed.

Lemma sparse_out r q : plan_out q (sparse r) = if decide (q ∈ others r n) then msg r q else [].
Proof.
  unfold sparse. rewrite sparse_join. apply exchange_out_list; [apply NoDup_others|].
  intros p. unfold plan_out, sparse1, out_of. simpl. rewrite app_nil_r.
  destruct (Nat.ltb_spec 0 (length (msg r p))) as [H|H]; simpl; [by rewrite app_nil_r; case_decide|].
  assert (msg r p = []) as -> by (apply nil_length_inv; lia). by case_decide.
Qed.

Lemma sparse_in r : plan_in (sparse r) =
  (fun p => (p, length (msg p r))) <$> filter (fun p => 0 < length (msg p r)) (others r n).
Proof.
  unfold sparse. induction (others r n) as [|p l IH]; [done|].
  rewrite fmap_cons. unfold sparse1 at 1. rewrite plan_in_cons, IH.
  destruct (Nat.ltb_spec 0 (length (msg p r))).
  - by rewrite filter_cons_True by done.
  - by rewrite filter_cons_False by lia.
Qed.

Lemma sparse_in_fst r : (plan_in (sparse r)).*1 = filter (fun p => 0 < length (msg p r)) (others r n).
Proof. rewrite sparse_in, <- list_fmap_compose. apply list_fmap_id. Qed.

Lemma sparse_matched : matched n sparse.
Proof.
  split.
  - intros r _. rewrite sparse_in_fst. apply NoDup_filter, NoDup_others.
  - intros r y Hr Hy. rewrite sparse_in in Hy. apply list_elem_of_fmap in Hy as (p & -> & Hp).
    apply list_elem_of_filter in Hp as [_ Hp]. apply elem_of_others in Hp as [Hne Hp]. simpl.
    split; [done|]. by rewrite sparse_out, decide_True by (apply elem_of_others; lia).
  - intros p r Hp Hne. rewrite sparse_out in Hne. case_decide as Hd; [|done].
    apply elem_of_others in Hd as [? ?]. split; [done|]. rewrite sparse_in_fst, list_elem_of_filter.
    split; [destruct (msg p r); [done|simpl; lia]|]. apply elem_of_others. lia.
Qed.

Lemma sparse_received r p : r < n -> p < n -> p <> r ->
  buf_of r (plan_got (fun p => plan_out r (sparse p)) (sparse r)) p = msg p r.
Proof.
  intros Hr Hp Hne. unfold buf_of, received, plan_got, sparse at 2.
  rewrite <- list_fmap_compose, list_lookup_fmap, (others_slot r n p) by done. simpl.
  unfold sparse1. simpl. destruct (Nat.ltb_spec 0 (length (msg p r))); simpl.
  - by rewrite sparse_out, decide_True by (apply elem_of_others; lia).
  - symmetry. apply nil_length_inv. lia.
Qed.

Lemma sparse_runs (k : nat -> list (list (list E)) -> proc (E := E) (A := A)) (g : nat -> proc) :
  (forall r got, r < n -> (forall p, p < n -> p <> r -> buf_of r got p = msg p r) -> k r got = g r) ->
  runs n (fun r => fork (alltoall_thread (msg r) (fun p => length (msg r p)) (fun p => length (msg p r))
                           <$> others r n) (k r)) g.
Proof.
  intros Hk. eapply runs_ext; [| |apply (runs_round n sparse k), sparse_matched].
  - intros r _. cbv beta. by rewrite sparse_acts.
  - intros r Hr. symmetry. apply Hk; [done|]. intros. by apply sparse_received.
Qed.
End Sparse.

Lemma wf_alltoall_fork {E A} r n (msg : nat -> list E) slen rlen (k : list (list (list E)) -> proc (E := E) (A := A)) :
  (forall got, wf_proc (k got)) -> wf_proc (fork (alltoall_thread msg slen rlen <$> others r n) k).
Proof.
  intros Hk. apply wf_fork; [|done]. intros t u x y a b Htu Ht Hu Ha Hb Hc.
  rewrite list_lookup_fmap in Ht, Hu. apply fmap_Some in Ht as (p & Hp & ->), Hu as (q & Hq & ->).
  assert (p <> q) as Hpq.
  { intros ->. apply Htu. eapply NoDup_lookup; [apply NoDup_others|exact Hp|exact Hq]. }
  assert (forall p a, a ∈ alltoall_thread msg slen rlen p -> a = Snd p (msg p) \/ a = Rcv p (rlen p)) as Hth.
  { intros v c. unfold alltoall_thread. rewrite elem_of_app.
    destruct (0 <? slen v), (0 <? rlen v); rewrite ?elem_of_nil, ?list_elem_of_singleton; tauto. }
  destruct (Hth _ _ Ha) as [-> | ->], (Hth _ _ Hb) as [-> | ->]; done.
Qed.

Section AlltoallBase.
Context {E : Type} (n : nat) (zero : E).
Abbreviation tens := (tensor (E := E)).

(** One call, by rank: the tensors, the split sizes as given, the memory behind
    the input and behind the receive buffer. *)
Record split_call := mkSplit {
  c_out : nat -> tens; c_in : nat -> tens;
  c_out_given : nat -> list nat; c_in_given : nat -> list nat;
  c_beyond : nat -> list E; c_heap : nat -> list E
}.

(** The shares in force: the split sizes of the two sides agree, and the memory
    that they span exists. *)
Record split_accepted (c : split_call) (isp osp : nat -> list nat) : Prop := {
  sa_dev r : r < n -> on_device (c_in c r) /\ on_device (c_out c r);
  sa_in r : r < n -> splits_of (c_in_given c r) (numel_of (c_in c r)) n "input" = Ok (isp r);
  sa_out r : r < n -> splits_of (c_out_given c r) (numel_of (c_out c r)) n "output" = Ok (osp r);
  sa_agree r p : r < n -> p < n -> isp p !! r = osp r !! p;
  sa_src r : r < n -> sum_list (isp r) <= numel_of (c_in c r) + length (c_beyond c r);
  sa_dst r : r < n -> sum_list (osp r) <= numel_of (c_out c r) + length (c_heap c r)
}.

(** The share of rank [p] for rank [r]. *)
Definition split_share (c : split_call) (isp : nat -> list nat) (p r : nat) : list E :=
  slice (offset (isp p) r) (offset (isp p) (S r) - offset (isp p) r) (elems (c_in c p) ++ c_beyond c p).

(** The receive buffer and the memory behind it, at the end. *)
Definition split_mem (c : split_call) (isp osp : nat -> list nat) (r : nat) : list E :=
  mjoin ((fun p => split_share c isp p r) <$> seq 0 n) ++
  drop (sum_list (osp r)) (replicate (numel_of (c_out c r)) zero ++ c_heap c r).

Definition split_result (c : split_call) (isp osp : nat -> list nat) (r : nat) : tens * list E :=
  (with_elems (c_out c r) (take (numel_of (c_out c r)) (split_mem c isp osp r)),
   drop (numel_of (c_out c r)) (split_mem c isp osp r)).

Lemma splits_of_length given numel what l : splits_of given numel n what = Ok l -> length l = n.
Proof.
  unfold splits_of. destruct given as [|x given].
  - cbv zeta. case_match; [done|]. intros [= <-]. apply length_replicate.
  - destruct (Nat.eqb_spec (length (x :: given)) n); [|done]. simpl. by intros [= <-].
Qed.

Section Accepted.
Context (c : split_call) (isp osp : nat -> list nat) (H : split_accepted c isp osp).

Lemma share_length p r : p < n -> r < n ->
  length (split_share c isp p r) = offset (isp p) (S r) - offset (isp p) r /\
  length (split_share c isp p r) = offset (osp r) (S p) - offset (osp r) p.
Proof using H.
  intros Hp Hr. pose proof (splits_of_length _ _ _ _ (sa_in _ _ _ H p Hp)) as Hlen.
  destruct (lookup_lt_is_Some_2 (isp p) r) as [s Hs]; [lia|].
  pose proof (offset_S _ _ _ Hs) as Hin.
  assert (osp r !! p = Some s) as Hs' by (by rewrite <- (sa_agree _ _ _ H r p)).
  pose proof (offset_S _ _ _ Hs') as Hout.
  assert (length (split_share c isp p r) = s) as ->; [|lia].
  unfold split_share. rewrite length_slice; [lia|]. rewrite length_app.
  pose proof (offset_mono (isp p) (S r) (length (isp p))) as Hm. rewrite offset_all in Hm.
  pose proof (sa_src _ _ _ H p Hp). unfold numel_of in *. lia.
Qed.

Lemma alltoall_base_runs :
  runs n (fun r => pg_alltoall_base r n zero (c_beyond c r) (c_heap c r) (c_out c r) (c_in c r)
                     (c_out_given c r) (c_in_given c r))
    (fun r => Ret (split_result c isp osp r)).
Proof using H.
  set (own r := list_inserts (offset (osp r) r) (split_share c isp r r)
    (replicate (numel_of (c_out c r)) zero ++ c_heap c r)).
  set (fin r (mem : list E) := unstage (c_out c r) (take (numel_of (c_out c r)) mem)
    (fun out => Ret (out, drop (numel_of (c_out c r)) mem))).
  eapply runs_ext; [|reflexivity|apply (sparse_runs n (split_share c isp) (fun r got =>
    fin r (foldl (fun mem p => list_inserts (offset (osp r) p) (buf_of r got p) mem) (own r) (others r n))))].
  - intros r Hr. destruct (sa_dev _ _ _ H r Hr) as [Hi Ho]. unfold pg_alltoall_base.
    rewrite !check_mps_ok, check_single_ok, (sa_in _ _ _ H r Hr), (sa_out _ _ _ H r Hr) by done.
    destruct (share_length r r Hr Hr) as [Hs1 Hs2]. cbv zeta.
    rewrite (proj2 (Nat.eqb_eq _ _)) by congruence. cbn [negb].
    f_equal. apply list_fmap_ext. intros j p Hj. apply list_elem_of_lookup_2, elem_of_others in Hj as [_ Hp].
    unfold alltoall_thread. fold (split_share c isp r p).
    destruct (share_length r p Hr Hp) as [<- _], (share_length p r Hp Hr) as [_ <-]. done.
  - intros r got Hr Hbuf. unfold fin.
    assert (offset (osp r) n <= length (replicate (numel_of (c_out c r)) zero ++ c_heap c r)) as Hmem.
    { rewrite <- (splits_of_length _ _ _ _ (sa_out _ _ _ H r Hr)), offset_all, length_app, length_replicate.
      by apply (sa_dst _ _ _ H). }
    assert (foldl (fun mem p => list_inserts (offset (osp r) p) (buf_of r got p) mem) (own r) (others r n) =
      split_mem c isp osp r) as ->.
    { transitivity (foldl (fun mem p => list_inserts (offset (osp r) p) (split_share c isp p r) mem)
        (replicate (numel_of (c_out c r)) zero ++ c_heap c r) (r :: others r n)).
      - cbn [foldl]. fold (own r). generalize (own r). clear Hmem.
        assert (forall p, p ∈ others r n -> buf_of r got p = split_share c isp p r) as Ho.
        { intros p Hp. apply elem_of_others in Hp as [? ?]. by apply Hbuf. }
        induction (others r n) as [|p l IH]; intros mem; [done|]. simpl. rewrite Ho by left.
        apply IH. intros q Hq. apply Ho. by right.
      - rewrite (foldl_shares (osp r) (fun p => split_share c isp p r) n); [|by intros; apply share_length|done|done].
        unfold split_mem. do 2 f_equal.
        by rewrite <- (splits_of_length _ _ _ _ (sa_out _ _ _ H r Hr)), offset_all. }
    rewrite unstage_ok; [done|by apply (sa_dev _ _ _ H)|].
    rewrite length_take, Nat.min_l; [done|]. unfold split_mem.
    rewrite length_app, (length_join_shares (osp r)), length_drop, length_app, length_replicate
      by (by intros; apply share_length).
    rewrite length_app, length_replicate in Hmem.
    rewrite <- (splits_of_length _ _ _ _ (sa_out _ _ _ H r Hr)), offset_all in *. lia.
Qed.

End Accepted.

Lemma wf_pg_alltoall_base r b h (out inp : tens) og ig : wf_proc (pg_alltoall_base r n zero b h out inp og ig).
Proof.
  unfold pg_alltoall_base.
  do 2 apply wf_check_mps. apply wf_check_single. case_match; [|constructor]. case_match; [|constructor].
  cbv zeta. case_match; [constructor|]. apply wf_alltoall_fork. intros. apply wf_unstage. constructor.
Qed.

Lemma alltoall_base_inevitable c isp osp :
  split_accepted c isp osp ->
  inevitable
    (procs_of n (fun r => pg_alltoall_base r n zero (c_beyond c r) (c_heap c r) (c_out c r) (c_in c r)
                            (c_out_given c r) (c_in_given c r)), ∅)
    (returned n (split_result c isp osp)).
Proof. intros H. apply runs_inevitable; [intros; apply wf_pg_alltoall_base|by apply alltoall_base_runs]. Qed.
End AlltoallBase.

Lemma alltoall_base_fits_runs {E} n (zero : E) (c : split_call (E := E)) isp osp :
  split_accepted n c isp osp ->
  (forall r, r < n -> sum_list (isp r) <= numel_of (c_in c r) /\ sum_list (osp r) = numel_of (c_out c r)) ->
  runs n (fun r => pg_alltoall_base r n zero (c_beyond c r) (c_heap c r) (c_out c r) (c_in c r)
                            (c_out_given c r) (c_in_given c r))
    (fun r => Ret ((with_elems (c_out c r) (mjoin ((fun p =>
       slice (offset (isp p) r) (default 0 (isp p !! r)) (elems (c_in c p))) <$> seq 0 n)), c_heap c r))).
Proof.
  intros H Hs. eapply runs_ext; [reflexivity| |by apply alltoall_base_runs].
  intros r Hrn. cbn beta. f_equal. symmetry.
  destruct (Hs r Hrn) as [_ Ho].
  pose proof (splits_of_length _ _ _ _ _ (sa_out _ _ _ _ H r Hrn)) as Hlo.
  assert (length (mjoin ((fun p => split_share c isp p r) <$> seq 0 n)) = numel_of (c_out c r)) as Hlen.
  { rewrite (length_join_shares (osp r)) by (by intros; apply (share_length n c isp osp H)).
    by rewrite <- Hlo, offset_all. }
  unfold split_result, split_mem. rewrite Ho, drop_app_length' by (by rewrite length_replicate).
  rewrite take_app_length', drop_app_length' by done. do 3 f_equal.
  apply list_fmap_ext. intros j p Hj. apply lookup_seq in Hj as [-> Hp]. simpl.
  pose proof (splits_of_length _ _ _ _ _ (sa_in _ _ _ _ H j Hp)) as Hli.
  destruct (lookup_lt_is_Some_2 (isp j) r) as [x Hx]; [lia|]. unfold split_share.
  rewrite (offset_S _ _ _ Hx), Hx. replace (offset (isp j) r + x - offset (isp j) r) with x by lia. simpl.
  apply slice_app_l. pose proof (offset_mono (isp j) (S r) (length (isp j))) as Hm.
  rewrite offset_all, (offset_S _ _ _ Hx) in Hm. destruct (Hs j Hp). unfold numel_of in *. lia.
Qed.


(** The output split sizes are not compared with the output: when they sum to
    more than the output holds, the shares that do not fit overwrite the memory
    behind the receive buffer, and the call returns normally. *)
Theorem alltoall_base_overflows {E} n (zero : E) (c : split_call (E := E)) isp osp :
  split_accepted n c isp osp ->
  inevitable
    (procs_of n (fun r => pg_alltoall_base r n zero (c_beyond c r) (c_heap c r) (c_out c r) (c_in c r)
                            (c_out_given c r) (c_in_given c r)), ∅)
    (returned n (split_result n zero c isp osp)) /\
  (forall r, r < n -> numel_of (c_out c r) <= sum_list (osp r) ->
     (split_result n zero c isp osp r).2 =
     drop (numel_of (c_out c r)) (mjoin ((fun p => split_share c isp p r) <$> seq 0 n)) ++
     drop (sum_list (osp r) - numel_of (c_out c r)) (c_heap c r)).
Proof.
  intros H. split; [by apply alltoall_base_inevitable|]. intros r Hr Hle.
  pose proof (splits_of_length _ _ _ _ _ (sa_out _ _ _ _ H r Hr)) as Hlo.
  assert (length (mjoin ((fun p => split_share c isp p r) <$> seq 0 n)) = sum_list (osp r)) as Hlen.
  { rewrite (length_join_shares (osp r)) by (by intros; apply (share_length n c isp osp H)).
    by rewrite <- Hlo, offset_all. }
  unfold split_result, split_mem. cbn [snd]. rewrite drop_app_le by lia. f_equal.
  rewrite drop_app_ge by (rewrite length_replicate; done). by rewrite length_replicate.
Qed.

Ltac two_ranks r := destruct r as [|[|r]]; [| |lia].

(** Two ranks; rank 0 has nothing for itself and three elements for rank 1. *)
Definition demo_split : split_call (E := Z) := mkSplit
  (fun r => mkTensor true true (nth r [[0]; [0; 0; 0; 0]]%Z []))
  (fun r => mkTensor true true (nth r [[1; 2; 3]; [5; 6]]%Z []))
  (fun r => nth r [[0; 1]; [3; 1]] []) (fun r => nth r [[0; 3]; [1; 1]] [])
  (fun _ => []) (fun _ => [77; 78]%Z).

Lemma demo_split_accepted :
  split_accepted 2 demo_split (fun r => nth r [[0; 3]; [1; 1]] []) (fun r => nth r [[0; 1]; [3; 1]] []).
Proof.
  split; [intros r Hr; two_ranks r; repeat split; cbn; lia|intros r Hr; by two_ranks r|intros r Hr; by two_ranks r|
    intros r p Hr Hp; two_ranks r; by two_ranks p|intros r Hr; two_ranks r; cbn; lia..].
Qed.


(** Rank 1 says that its output takes 3 + 1 elements; it has room for two. *)
Definition demo_spill : split_call (E := Z) := mkSplit
  (fun r => mkTensor true true (nth r [[0]; [0; 0]]%Z []))
  (c_in demo_split) (c_out_given demo_split) (c_in_given demo_split) (c_beyond demo_split) (c_heap demo_split).

Lemma alltoall_base_overflows_witness :
  inevitable
    (procs_of 2 (fun r => pg_alltoall_base r 2 0%Z [] [77; 78]%Z (c_out demo_spill r) (c_in demo_spill r)
                            (c_out_given demo_spill r) (c_in_given demo_spill r)), ∅)
    (returned 2 (split_result 2 0%Z demo_spill (fun r => nth r [[0; 3]; [1; 1]] []) (fun r => nth r [[0; 1]; [3; 1]] []))) /\
  split_result 2 0%Z demo_spill (fun r => nth r [[0; 3]; [1; 1]] []) (fun r => nth r [[0; 1]; [3; 1]] []) 1 =
    (mkTensor true true [1; 2], [3; 6])%Z.
Proof.
  split; [|reflexivity].
  apply (alltoall_base_overflows 2 0%Z demo_spill).
  split; [intros r Hr; two_ranks r; repeat split; cbn; lia|intros r Hr; by two_ranks r|intros r Hr; by two_ranks r|
    intros r p Hr Hp; two_ranks r; by two_ranks p|intros r Hr; two_ranks r; cbn; lia..].
Defined.
