(* ===== verification/PointToPoint.v ===== *)
(** * Point-to-point messages ([send] and [recv] of
    [csrc/backend/ProcessGroupMCCL.cpp])

    The bodies that the two calls hand to the progress thread, over the mesh of
    [Network] with one cell per byte: an eight byte header (the tag and the
    size) in front of every tensor.  The last section follows one error: what a
    refused message leaves behind. *)
From S2P Require Import Prelude Network Allreduce Collectives.

(** A tensor of bytes; [nbytes] is the number of its elements. *)
Abbreviation btensor := (tensor (E := Z)).
Abbreviation bproc := (proc (E := Z) (A := list (tensor (E := Z)))).

Definition nbytes (t : btensor) : Z := Z.of_nat (numel_of t).

(** [int32_t hdr[2] = {tag, (int32_t)nbytes}], as it lies in memory. *)
Definition header (tag size : Z) : list Z := le_bytes 4 (u32 tag) ++ le_bytes 4 (u32 (s32 size)).

Definition hdr0 (h : list Z) : Z := s32 (le_val (take 4 h)).
Definition hdr1 (h : list Z) : Z := s32 (le_val (drop 4 h)).

(** The loop of [send] over its tensors. *)
Fixpoint send_loop (dst : nat) (tag : Z) (done ts : list btensor) : bproc :=
  match ts with
  | [] => Ret done
  | t :: ts =>
    check_mps t "send" (check_single t (
      let size := u32 (nbytes t) in
      fork [[Snd dst (header tag size)]] (fun _ =>
      fork [[Snd dst (take (Z.to_nat size) (elems t))]] (fun _ =>
      send_loop dst tag (done ++ [t]) ts))))
  end.

(** The loop of [recv] over its tensors. *)
Fixpoint recv_loop (src : nat) (tag : Z) (done ts : list btensor) : bproc :=
  match ts with
  | [] => Ret done
  | t :: ts =>
    check_mps t "recv" (
      fork [[Rcv src 8]] (fun got =>
        let h := received got 0 in
        if negb ((tag <? 0)%Z || (hdr0 h =? tag)%Z) then Raise (MCCLError "recv: tag mismatch (expected ") else
        let size := u32 (hdr1 h) in
        if negb (size =? nbytes t)%Z then Raise (MCCLError "recv: size mismatch (expected ") else
        fork [[Rcv src (Z.to_nat size)]] (fun got =>
          unstage t (received got 0) (fun t => recv_loop src tag (done ++ [t]) ts))))
  end.

Definition pg_send (rank world dst : nat) (tag : Z) (ts : list btensor) : bproc :=
  if negb ((dst <? world) && negb (dst =? rank)) then Raise (MCCLError "send: bad dst_rank")
  else send_loop dst tag [] ts.

Definition pg_recv (rank world src : nat) (tag : Z) (ts : list btensor) : bproc :=
  if negb ((src <? world) && negb (src =? rank)) then Raise (MCCLError "recv: bad src_rank")
  else recv_loop src tag [] ts.

(** ** The header *)

Lemma s32_u32 z : s32 (u32 z) = s32 z.
Proof.
  unfold s32, u32, uwrap. f_equal. by rewrite Zplus_mod_idemp_l.
Qed.

Lemma u32_s32 z : u32 (s32 z) = u32 z.
Proof.
  unfold s32, u32, uwrap. rewrite Zminus_mod_idemp_l. f_equal. lia.
Qed.

Lemma s32_small z : (- 2 ^ 31 <= z < 2 ^ 31)%Z -> s32 z = z.
Proof. intros H. unfold s32. rewrite Z.mod_small; lia. Qed.

Lemma u32_idemp z : u32 (u32 z) = u32 z.
Proof. by apply uwrap_idemp. Qed.

Lemma length_header tag size : length (header tag size) = 8.
Proof. unfold header. by rewrite length_app, !length_le_bytes. Qed.

(** The receiver reads the tag that was sent, and the size modulo [2^32]. *)
Lemma hdr_roundtrip tag size :
  hdr0 (header tag size) = s32 tag /\ u32 (hdr1 (header tag size)) = u32 size.
Proof.
  unfold hdr0, hdr1, header.
  rewrite take_app_length' by (by rewrite length_le_bytes).
  rewrite drop_app_length' by (by rewrite length_le_bytes).
  rewrite !le_val_bytes. change (2 ^ (8 * Z.of_nat 4))%Z with (2 ^ 32)%Z.
  fold (uwrap 32 (u32 tag)) (uwrap 32 (u32 (s32 size))). fold (u32 (u32 tag)) (u32 (u32 (s32 size))).
  by rewrite !u32_idemp, s32_u32, !u32_s32, u32_idemp.
Qed.

Lemma received_one {E} (d : list E) : received [[d]] 0 = d.
Proof. done. Qed.

(** ** One call of one rank while the others stand still *)

Section Solo.
Context {E A : Type}.
Implicit Types (procs : list (proc (E := E) (A := A))) (ch : chans E).

Lemma solo_snd r p d k procs ch :
  procs !! r = Some (fork [[Snd p d]] k) ->
  rtc step (procs, ch) (<[r := k [[]]]> procs, <[(r, p) := chan ch r p ++ d]> ch).
Proof.
  intros Hr. eapply rtc_l; [exists (AThread r 0); by eapply step_act|]. simpl.
  eapply rtc_l; [exists (AJoin r); eapply step_join|].
  - apply list_lookup_insert_eq. by eapply lookup_lt_Some.
  - by repeat constructor.
  - rewrite list_insert_insert_eq. simpl. apply rtc_refl.
Qed.

Lemma solo_rcv r p n k procs ch :
  procs !! r = Some (fork [[Rcv p n]] k) -> n <= length (chan ch p r) ->
  rtc step (procs, ch)
    (<[r := k [[take n (chan ch p r)]]]> procs, <[(p, r) := drop n (chan ch p r)]> ch).
Proof.
  intros Hr Hn.
  eapply rtc_l; [exists (AThread r 0); eapply step_act; [exact Hr|done|by apply do_rcv]|]. simpl.
  eapply rtc_l; [exists (AJoin r); eapply step_join|].
  - apply list_lookup_insert_eq. by eapply lookup_lt_Some.
  - by repeat constructor.
  - rewrite list_insert_insert_eq. simpl. apply rtc_refl.
Qed.
End Solo.

Lemma insert_pair_twice {A} (l : list A) i j x x' y y' :
  i <> j -> <[j := y']> (<[i := x']> (<[j := y]> (<[i := x]> l))) = <[j := y']> (<[i := x']> l).
Proof.
  intros H. rewrite (list_insert_insert_ne _ j i) by done.
  by rewrite !list_insert_insert_eq, (list_insert_insert_ne _ i j), !list_insert_insert_eq by done.
Qed.

(** ** A message that fits *)

(** The two sides agree on a pair of tensors. *)
Definition pair_fits (ab : btensor * btensor) : Prop :=
  on_device ab.1 /\ on_device ab.2 /\ numel_of ab.1 = numel_of ab.2 /\ (nbytes ab.1 < 2 ^ 32)%Z.

Section Transfer.
Context (src dst : nat) (tag rtag : Z).
Context (Hne : src <> dst) (Htag : (- 2 ^ 31 <= tag < 2 ^ 31)%Z) (Hrtag : (rtag < 0)%Z \/ rtag = tag).

Lemma tag_accepted size : negb ((rtag <? 0)%Z || (hdr0 (header tag size) =? rtag)%Z) = false.
Proof.
  destruct (hdr_roundtrip tag size) as [-> _]. rewrite s32_small by done.
  apply negb_false_iff, orb_true_iff. destruct Hrtag as [H|<-]; [left|right]; lia.
Qed.

(** One tensor crosses; the stream is empty again afterwards. *)
Lemma transfer_one a b sdone rdone ss rs (procs : list bproc) ch :
  pair_fits (a, b) -> chan ch src dst = [] ->
  procs !! src = Some (send_loop dst tag sdone (a :: ss)) ->
  procs !! dst = Some (recv_loop src rtag rdone (b :: rs)) ->
  exists ch',
    rtc step (procs, ch)
      (<[dst := recv_loop src rtag (rdone ++ [with_elems b (elems a)]) rs]>
        (<[src := send_loop dst tag (sdone ++ [a]) ss]> procs), ch') /\
    chan ch' src dst = [].
Proof.
  intros (Ha & Hb & Hlen & Hsz) Hch Hs Hr. simpl in *.
  rewrite check_mps_ok in Hs, Hr by done. rewrite check_single_ok in Hs by done.
  assert (Hu : u32 (nbytes a) = nbytes a) by (apply u32_small; unfold nbytes in *; lia).
  assert (Hall : take (Z.to_nat (u32 (nbytes a))) (elems a) = elems a).
  { rewrite Hu. unfold nbytes, numel_of. rewrite Nat2Z.id. by apply take_ge. }
  eexists. split.
  - etransitivity; [exact (solo_snd src dst _ _ _ ch Hs)|]. cbv beta.
    etransitivity; [eapply solo_snd; apply list_lookup_insert_eq; by eapply lookup_lt_Some|].
    rewrite list_insert_insert_eq, Hall, chan_eq, insert_insert_eq, Hch, app_nil_l.
    etransitivity.
    + eapply solo_rcv; [rewrite list_lookup_insert_ne by done; exact Hr|].
      rewrite chan_eq, length_app, length_header. lia.
    + rewrite chan_eq, insert_insert_eq, received_one. cbv zeta.
      rewrite take_app_length', drop_app_length' by (by rewrite length_header).
      rewrite tag_accepted, (proj2 (hdr_roundtrip tag _)), u32_idemp, Hu.
      assert ((nbytes a =? nbytes b)%Z = true) as -> by (unfold nbytes; rewrite Hlen; lia). simpl.
      etransitivity.
      * eapply solo_rcv; [apply list_lookup_insert_eq; rewrite length_insert; by eapply lookup_lt_Some|].
        rewrite chan_eq. unfold nbytes, numel_of. lia.
      * rewrite list_insert_insert_eq, chan_eq, insert_insert_eq, received_one.
        assert (take (Z.to_nat (nbytes a)) (elems a) = elems a) as -> by (by rewrite <- Hu).
        rewrite unstage_ok by done. apply rtc_refl.
  - rewrite chan_eq. apply drop_ge. unfold nbytes, numel_of. lia.
Qed.

Lemma transfer_all ps sdone rdone (procs : list bproc) ch :
  Forall pair_fits ps -> chan ch src dst = [] ->
  procs !! src = Some (send_loop dst tag sdone ps.*1) ->
  procs !! dst = Some (recv_loop src rtag rdone ps.*2) ->
  exists ch',
    rtc step (procs, ch)
      (<[dst := Ret (rdone ++ ((fun ab => with_elems ab.2 (elems ab.1)) <$> ps))]>
        (<[src := Ret (sdone ++ ps.*1)]> procs), ch').
Proof.
  intros Hps. revert sdone rdone procs ch.
  induction Hps as [|[a b] ps Hab _ IH]; intros sdone rdone procs ch Hch Hs Hr.
  - exists ch. rewrite !app_nil_r. rewrite (list_insert_id procs src) by done.
    rewrite (list_insert_id procs dst) by done. apply rtc_refl.
  - destruct (transfer_one a b sdone rdone ps.*1 ps.*2 procs ch Hab Hch Hs Hr) as (ch1 & R1 & Hch1).
    edestruct (IH (sdone ++ [a]) (rdone ++ [with_elems b (elems a)])) as (ch2 & R2); [exact Hch1| | |].
    + rewrite list_lookup_insert_ne by done. apply list_lookup_insert_eq. by eapply lookup_lt_Some.
    + apply list_lookup_insert_eq. rewrite length_insert. by eapply lookup_lt_Some.
    + exists ch2. etransitivity; [exact R1|].
      rewrite <- (app_assoc rdone), <- (app_assoc sdone) in R2.
      by rewrite insert_pair_twice in R2.
Qed.
End Transfer.

Lemma wf_send_loop dst tag done ts : wf_proc (send_loop dst tag done ts).
Proof.
  revert done; induction ts as [|t ts IH]; intros; [constructor|]. simpl.
  apply wf_check_mps, wf_check_single. do 2 (apply wf_one; intros _). apply IH.
Qed.

Lemma wf_recv_loop src tag done ts : wf_proc (recv_loop src tag done ts).
Proof.
  revert done; induction ts as [|t ts IH]; intros; [constructor|]. simpl.
  apply wf_check_mps, wf_one. intros got. cbv zeta. do 2 (case_match; [constructor|]).
  apply wf_one. intros. apply wf_unstage. intros. apply IH.
Qed.

(** The processes of a group in which [src] sends, [dst] receives and the
    other ranks have nothing to do. *)
Definition p2p (n src dst : nat) (tag rtag : Z) (ss rs : list btensor) (r : nat) : bproc :=
  if r =? src then pg_send src n dst tag ss
  else if r =? dst then pg_recv dst n src rtag rs
  else Ret [].

Lemma p2p_at n src dst tag rtag ss rs :
  src < n -> dst < n -> src <> dst ->
  p2p n src dst tag rtag ss rs src = send_loop dst tag [] ss /\
  p2p n src dst tag rtag ss rs dst = recv_loop src rtag [] rs.
Proof.
  intros Hs Hd Hne. unfold p2p, pg_send, pg_recv.
  rewrite Nat.eqb_refl, (proj2 (Nat.eqb_neq dst src)), Nat.eqb_refl by done.
  rewrite (proj2 (Nat.eqb_neq src dst)) by done.
  by rewrite !(proj2 (Nat.ltb_lt _ _)) by done.
Qed.

Lemma wf_p2p n src dst tag rtag ss rs r : wf_proc (p2p n src dst tag rtag ss rs r).
Proof.
  unfold p2p, pg_send, pg_recv.
  repeat case_match; solve [apply wf_send_loop | apply wf_recv_loop | constructor].
Qed.

(** Two ranks of a group changed, as a group. *)
Lemma procs_of_update {E A} n (f : nat -> proc (E := E) (A := A)) i j x y :
  i < n -> j < n -> i <> j ->
  <[j := y]> (<[i := x]> (procs_of n f)) =
  procs_of n (fun r => if r =? i then x else if r =? j then y else f r).
Proof.
  intros Hi Hj Hij. assert (Hlen : forall g : nat -> proc (E := E) (A := A), length (procs_of n g) = n)
    by (intros; unfold procs_of; by rewrite length_fmap, length_seq).
  apply (list_eq_lt _ _ n); [by rewrite !length_insert, Hlen|by rewrite Hlen|].
  intros r Hr. rewrite (lookup_procs_of n _ r Hr).
  destruct (Nat.eqb_spec r i) as [->|Hri].
  - rewrite list_lookup_insert_ne by done. apply list_lookup_insert_eq. by rewrite Hlen.
  - destruct (Nat.eqb_spec r j) as [->|Hrj].
    + apply list_lookup_insert_eq. by rewrite length_insert, Hlen.
    + rewrite !list_lookup_insert_ne by done. by apply lookup_procs_of.
Qed.

(** C11: A message arrives: when the tensors of the two sides have the same
    sizes, below 4 GiB, and the receiver asks for any tag or for the one that is
    sent, then in every interleaving [send] and [recv] return, and every tensor
    of the receiver holds the bytes of the sender's. *)
Theorem send_recv_delivers n src dst tag rtag (ps : list (btensor * btensor)) :
  src < n -> dst < n -> src <> dst ->
  (- 2 ^ 31 <= tag < 2 ^ 31)%Z -> (rtag < 0)%Z \/ rtag = tag -> Forall pair_fits ps ->
  inevitable (procs_of n (p2p n src dst tag rtag ps.*1 ps.*2), ∅)
    (returned n (fun r => if r =? src then ps.*1
                          else if r =? dst then (fun ab => with_elems ab.2 (elems ab.1)) <$> ps
                          else [])).
Proof.
  intros Hs Hd Hne Ht Hrt Hps.
  destruct (p2p_at n src dst tag rtag ps.*1 ps.*2 Hs Hd Hne) as [Es Ed].
  destruct (transfer_all src dst tag rtag Hne Ht Hrt ps [] []
    (procs_of n (p2p n src dst tag rtag ps.*1 ps.*2)) ∅ Hps) as (ch' & R);
    [apply quiet_empty|rewrite lookup_procs_of by done; by rewrite Es|
     rewrite lookup_procs_of by done; by rewrite Ed|].
  assert (Hfin : returned n (fun r => if r =? src then ps.*1
      else if r =? dst then (fun ab => with_elems ab.2 (elems ab.1)) <$> ps else [])
      (<[dst := Ret ([] ++ ((fun ab => with_elems ab.2 (elems ab.1)) <$> ps))]>
        (<[src := Ret ([] ++ ps.*1)]> (procs_of n (p2p n src dst tag rtag ps.*1 ps.*2))), ch')).
  { unfold returned. simpl. rewrite procs_of_update by done. apply procs_of_ext.
    intros r Hr. unfold p2p. by destruct (r =? src), (r =? dst). }
  eapply inevitable_intro; [apply wf_procs_of; intros; apply wf_p2p|exact R| |exact Hfin].
  by eapply returned_final.
Qed.

(** ** A message that is refused *)

(** The receiver's check of the header [header tag size] against its own tag
    and tensor. *)
Definition refusal (tag rtag size : Z) (b : btensor) : option error :=
  if (0 <=? rtag)%Z && negb (tag =? rtag)%Z then Some (MCCLError "recv: tag mismatch (expected ")
  else if negb (size =? nbytes b)%Z then Some (MCCLError "recv: size mismatch (expected ")
  else None.

Lemma refused_final n src dst tag rtag (a b : btensor) e ch :
  src < n -> dst < n -> src <> dst ->
  final (<[dst := Raise e]> (<[src := Ret [a]]> (procs_of n (p2p n src dst tag rtag [a] [b]))), ch).
Proof.
  intros Hs Hd Hne s' [x Hx]. rewrite procs_of_update in Hx by done.
  assert (Hno : forall r ths k, procs_of n (fun r => if r =? src then Ret [a] else
    if r =? dst then Raise e else p2p n src dst tag rtag [a] [b] r) !! r <> Some (Fork ths k)).
  { intros r ths k Hr. unfold procs_of in Hr. apply list_lookup_fmap_Some in Hr as (y & Hy & _).
    unfold p2p in Hy. by destruct (y =? src), (y =? dst). }
  inversion Hx; subst; by eapply Hno.
Qed.


Definition demo_bytes (l : list Z) : btensor := mkTensor true true l.

Lemma send_recv_delivers_witness :
  inevitable
    (procs_of 3 (p2p 3 2 0 7 (-1) [demo_bytes [1; 2]; demo_bytes [9]]%Z [demo_bytes [0; 0]; demo_bytes [0]]%Z), ∅)
    (returned 3 (fun r => if r =? 2 then [demo_bytes [1; 2]; demo_bytes [9]]%Z
       else if r =? 0 then [demo_bytes [1; 2]; demo_bytes [9]]%Z else [])).
Proof.
  apply (send_recv_delivers 3 2 0 7 (-1)
    [(demo_bytes [1; 2], demo_bytes [0; 0]); (demo_bytes [9], demo_bytes [0])]%Z); try lia.
  repeat constructor; cbn; lia.
Defined.

(** A tensor of exactly 4 GiB is announced as empty. *)
Definition demo_4gib : btensor := demo_bytes (replicate (Z.to_nat (2 ^ 32)) 0%Z).

Lemma demo_4gib_size : nbytes demo_4gib = (2 ^ 32)%Z.
Proof.
  unfold nbytes, numel_of, demo_4gib, demo_bytes. cbn [elems]. rewrite length_replicate. by apply Z2Nat.id.
Qed.

Lemma nbytes_pos t : (0 < nbytes t)%Z -> 0 < numel_of t.
Proof. unfold nbytes. lia. Qed.

Lemma demo_4gib_ok : on_device demo_4gib.
Proof. split; [done|]. split; [done|]. apply nbytes_pos. rewrite demo_4gib_size. lia. Qed.

