(* ===== verification/PeerMesh.v ===== *)
(** * The peer mesh ([csrc/backend/PeerMesh.cpp])

    How the ranks find each other and get one socket per pair: the priority
    list of interface prefixes, the addresses a rank advertises, the endpoint
    string it puts in the store and its peers parse, the choice of the
    candidates to connect to, the loop that connects, the acceptor, and the
    loops that move a whole buffer through [send(2)] and [recv(2)].  The socket
    calls themselves are parameters. *)
From Stdlib Require Import Ascii.
From S2P Require Import Prelude CString.

(** ** Interface priorities *)

(** The loop over [MCCL_IFACE_PRIORITY] from position [i]. *)
Fixpoint priority_loop (fuel : nat) (s : str) (i : nat) : list str :=
  match fuel with
  | 0 => []
  | S fuel =>
    if i <? length s then
      let j := default (length s) (find comma i s) in
      (if i <? j then [slice i (j - i) s] else []) ++ priority_loop fuel s (j + 1)
    else []
  end.

(** [env] is what [getenv] returns. *)
Definition prefix_priority (env : option str) : list str :=
  match env with
  | None | Some [] => []
  | Some s => priority_loop (S (length s)) s 0
  end.

(** [score]: the position of the first prefix that fits. *)
Fixpoint score (pri : list str) (ip : str) : nat :=
  match pri with
  | [] => 0
  | p :: pri => if starts_with p ip then 0 else S (score pri ip)
  end.

Fixpoint subnet24_loop (dots : nat) (pre ip rest : str) : str :=
  match rest with
  | [] => ip
  | c :: rest =>
    if Ascii.eqb c dot
    then if S dots =? 3 then pre else subnet24_loop (S dots) (pre ++ [c]) ip rest
    else subnet24_loop dots (pre ++ [c]) ip rest
  end.
Definition subnet24 (ip : str) : str := subnet24_loop 0 [] ip ip.

(** The addresses that are advertised. *)
Definition in_priority (pri : list str) (ip : str) : bool := existsb (fun p => starts_with p ip) pri.
Definition advertised (pri ips_all : list str) : list str :=
  List.filter (fun ip => match pri with [] => true | _ => in_priority pri ip end) ips_all.

(** ** Endpoints *)

Fixpoint join_commas (ips : list str) : str :=
  match ips with
  | [] => []
  | [ip] => ip
  | ip :: ips => ip ++ comma :: join_commas ips
  end.

Definition endpoint (ips : list str) (port : nat) : str :=
  join_commas ips ++ colon_char :: to_string port.

(** The candidates in front of the last colon, from position [i]. *)
Fixpoint cand_loop (fuel : nat) (s : str) (colon i : nat) : list str :=
  match fuel with
  | 0 => []
  | S fuel =>
    if i <? colon then
      let j := match find comma i s with
               | None => colon
               | Some j => if colon <? j then colon else j
               end in
      slice i (j - i) s :: cand_loop fuel s colon (j + 1)
    else []
  end.

Definition parse_endpoint (s : str) : result (list str * Z) :=
  match rfind colon_char s with
  | None => Throw (MCCLError "PeerMesh: bad endpoint")
  | Some colon => Ok (cand_loop (S colon) s colon 0, atoi (drop (colon + 1) s))
  end.

(** The candidates that may be used: on a /24 of this rank and, when there is
    a priority list, on it. *)
Definition usable_ip (pri my_subnets : list str) (ip : str) : bool :=
  existsb (str_eqb (subnet24 ip)) my_subnets &&
  match pri with [] => true | _ => in_priority pri ip end.

(** The comparator of both sorts. *)
Definition better (pri : list str) (a b : str) : bool := score pri a <? score pri b.

Definition local_ips `{StdSort} (pri up : list str) : list str := std_sort (better pri) up.

Definition reachable `{StdSort} (pri my_subnets cands : list str) : result (list str) :=
  let r := List.filter (usable_ip pri my_subnets) cands in
  match r with
  | [] => Throw (MCCLError "PeerMesh: no MCCL_IFACE_PRIORITY-matching subnet shared with peer ")
  | _ => Ok (std_sort (better pri) r)
  end.

(** ** Connecting to a higher rank *)

(** What one attempt meets, with the descriptor it opened. *)
Inductive attempt :=
  | NoSocket                          (* socket() failed *)
  | BadAddress (fd : Z)               (* inet_pton failed *)
  | Refused (fd : Z)                  (* connect() failed *)
  | NoWrite (fd : Z)                  (* own rank not written *)
  | NoRead (fd : Z)                   (* peer's rank not read *)
  | Answered (fd : Z) (got : Z).      (* the peer says it is [got] *)

(** One candidate: the accepted socket, or the descriptor that was closed. *)
Definition try_one (p : Z) (a : attempt) : option Z * list Z :=
  match a with
  | NoSocket => (None, [])
  | BadAddress fd | Refused fd | NoWrite fd | NoRead fd => (None, [fd])
  | Answered fd got => if (got =? p)%Z then (Some fd, []) else (None, [fd])
  end.

(** The candidates in order, up to the first that is accepted. *)
Fixpoint try_ips (p : Z) (l : list attempt) (closed : list Z) : option Z * list Z :=
  match l with
  | [] => (None, closed)
  | a :: l =>
    match try_one p a with
    | (Some fd, _) => (Some fd, closed)
    | (None, c) => try_ips p l (closed ++ c)
    end
  end.

(** The rounds until the deadline; [net k] is what round [k] meets. *)
Fixpoint connect_loop (p : Z) (rounds : list (list attempt)) (closed : list Z) : option Z * list Z :=
  match rounds with
  | [] => (None, closed)
  | l :: rounds =>
    match try_ips p l closed with
    | (Some fd, c) => (Some fd, c)
    | (None, c) => connect_loop p rounds c
    end
  end.

(** ** Accepting the lower ranks *)

(** What one [accept] returns and what is read and written on the socket. *)
Inductive incoming :=
  | AcceptFailed
  | Accepted (fd : nat) (id : option Z) (echoed : bool).

(** The peer that an accepted connection is entered for. *)
Definition handshake (rank : nat) (ev : incoming) : option (nat * nat) :=
  match ev with
  | AcceptFailed => None
  | Accepted fd (Some id) true =>
    if (id <? 0)%Z || (Z.of_nat rank <=? id)%Z then None else Some (Z.to_nat id, fd)
  | Accepted _ _ _ => None
  end.

(** One iteration of the acceptor thread on [peer_fds_], where [None] is -1. *)
Definition accept_one (rank : nat) (fds : list (option nat)) (ev : incoming) : list (option nat) :=
  match handshake rank ev with
  | Some (peer, fd) => <[peer := Some fd]> fds
  | None => fds
  end.

(** [pending_accepts] is the number of lower ranks; [None]: the thread still
    waits in [accept], and the constructor in its join. *)
Definition acceptor (rank : nat) (evs : list incoming) (fds : list (option nat)) : option (list (option nat)) :=
  if length evs <? rank then None else Some (foldl (accept_one rank) fds (take rank evs)).

(** The checks at the end of the constructor. *)
Definition mesh_complete (rank : nat) (fds : list (option nat)) : result unit :=
  if forallb (fun p => (p =? rank) || match fds !! p with Some (Some _) => true | _ => false end)
       (seq 0 (length fds))
  then Ok tt else Throw (MCCLError "PeerMesh: missing socket for peer ").

(** ** Moving whole buffers *)

Section Sockets.
Context {Sock : Type}.
(** [send(2)] and [recv(2)]: the return value, and what they do. *)
Context (sys_send : Sock -> list Z -> Z * Sock).
Context (sys_recv : Sock -> nat -> Z * list Z * Sock).

(** [None] is fuel that ran out; the length of the buffer is enough. *)
Fixpoint write_all (fuel : nat) (s : Sock) (buf : list Z) : option (bool * Sock) :=
  match buf with
  | [] => Some (true, s)
  | _ =>
    match fuel with
    | 0 => None
    | S fuel =>
      let '(n, s') := sys_send s buf in
      if (n <=? 0)%Z then Some (false, s') else write_all fuel s' (drop (Z.to_nat n) buf)
    end
  end.

Fixpoint read_all (fuel : nat) (s : Sock) (len : nat) (acc : list Z) : option (bool * list Z * Sock) :=
  match len with
  | 0 => Some (true, acc, s)
  | _ =>
    match fuel with
    | 0 => None
    | S fuel =>
      let '(n, d, s') := sys_recv s len in
      if (n <=? 0)%Z then Some (false, acc, s') else read_all fuel s' (len - Z.to_nat n) (acc ++ d)
    end
  end.

(** [PeerMesh::send] and [PeerMesh::recv]. *)
Definition mesh_send (s : Sock) (buf : list Z) : result unit * Sock :=
  match write_all (length buf) s buf with
  | Some (true, s') => (Ok tt, s')
  | Some (false, s') => (Throw (MCCLError "PeerMesh: send failed"), s')
  | None => (Throw (MCCLError "PeerMesh: send failed"), s)
  end.
Definition mesh_recv (s : Sock) (len : nat) : result (list Z) * Sock :=
  match read_all len s len [] with
  | Some (true, d, s') => (Ok d, s')
  | Some (false, _, s') => (Throw (MCCLError "PeerMesh: recv failed"), s')
  | None => (Throw (MCCLError "PeerMesh: recv failed"), s)
  end.

(** The byte streams behind a socket: what was sent so far, and what is still
    to be read.  The calls move some of the bytes they are given or asked for,
    in order, and none when they fail. *)
Class SocketLaws (sent arriving : Sock -> list Z) : Prop := {
  send_law s buf n s' : sys_send s buf = (n, s') ->
    (n <= Z.of_nat (length buf))%Z /\ sent s' = sent s ++ take (Z.to_nat n) buf;
  recv_law s len n d s' : sys_recv s len = (n, d, s') ->
    (n <= Z.of_nat len)%Z /\ length d = Z.to_nat n /\ arriving s = d ++ arriving s';
}.

Context (sent arriving : Sock -> list Z) `{SocketLaws sent arriving}.

Lemma write_all_spec fuel s buf : length buf <= fuel ->
  exists b s' k, write_all fuel s buf = Some (b, s') /\ sent s' = sent s ++ take k buf /\
    (if b then k = length buf else k < length buf).
Proof.
  revert s buf; induction fuel as [|fuel IH]; intros s buf Hf.
  { destruct buf; simpl in *; [|lia]. exists true, s, 0. by rewrite app_nil_r. }
  destruct buf as [|x buf]; [exists true, s, 0; simpl; by rewrite app_nil_r|].
  cbn [write_all]. destruct (sys_send s (x :: buf)) as [n s'] eqn:Hs.
  destruct (send_law _ _ _ _ Hs) as [Hn Hsent].
  destruct (Z.leb_spec n 0) as [Hle|Hpos].
  - exists false, s', 0. replace (Z.to_nat n) with 0 in Hsent by lia. split_and!; try done. simpl. lia.
  - destruct (IH s' (drop (Z.to_nat n) (x :: buf))) as (b & s'' & k & -> & Hk & Hb).
    { rewrite length_drop. simpl in *. lia. }
    exists b, s'', (Z.to_nat n + k). split; [done|]. rewrite Hk, Hsent, <- app_assoc, take_take_drop.
    split; [done|]. rewrite length_drop in Hb. destruct b; lia.
Qed.

Lemma read_all_spec fuel s len acc : len <= fuel ->
  exists b d s', read_all fuel s len acc = Some (b, acc ++ d, s') /\ arriving s = d ++ arriving s' /\
    (if b then length d = len else length d < len).
Proof.
  revert s len acc; induction fuel as [|fuel IH]; intros s len acc Hf.
  { replace len with 0 by lia. exists true, [], s. by rewrite app_nil_r. }
  destruct len as [|len]; [exists true, [], s; simpl; by rewrite app_nil_r|].
  cbn [read_all]. destruct (sys_recv s (S len)) as [[n d] s'] eqn:Hs.
  destruct (recv_law _ _ _ _ _ Hs) as (Hn & Hd & Harr).
  destruct (Z.leb_spec n 0) as [Hle|Hpos].
  - exists false, [], s'. replace (Z.to_nat n) with 0 in Hd by lia.
    apply length_zero_iff_nil in Hd as ->. rewrite app_nil_r. split_and!; try done. simpl. lia.
  - destruct (IH s' (S len - Z.to_nat n) (acc ++ d)) as (b & d' & s'' & -> & Ha & Hb); [lia|].
    exists b, (d ++ d'), s''. rewrite <- !app_assoc, Harr, Ha. split_and!; try done.
    rewrite length_app. destruct b; lia.
Qed.
End Sockets.

(** A piece without separator, then the rest. *)
Definition clean (ip : str) : Prop := ip <> [] /\ comma ∉ ip /\ colon_char ∉ ip.

Lemma find_comma_next pre ip rest :
  comma ∉ ip -> find comma (length pre) (pre ++ ip ++ comma :: rest) = Some (length pre + length ip).
Proof.
  intros Hc. unfold find. rewrite drop_app_length. by rewrite index_of_app.
Qed.

Lemma slice_middle {A} (pre x rest : list A) : slice (length pre) (length x) (pre ++ x ++ rest) = x.
Proof. unfold slice. rewrite drop_app_length. by rewrite take_app_length. Qed.

Lemma cand_loop_join ips : Forall clean ips -> forall pre rest fuel,
  comma ∉ rest -> length (join_commas ips) < fuel ->
  cand_loop fuel (pre ++ join_commas ips ++ colon_char :: rest)
    (length pre + length (join_commas ips)) (length pre) = ips.
Proof.
  induction 1 as [|ip ips (Hne & Hcm & Hcl) Hips IH]; intros pre rest fuel Hrest Hfuel.
  { destruct fuel; [done|]. simpl. by rewrite Nat.add_0_r, Nat.ltb_irrefl. }
  destruct fuel as [|fuel]; [lia|].
  assert (0 < length ip) as Hpos by (destruct ip; simpl; [done|lia]).
  destruct ips as [|ip' ips].
  - simpl. rewrite (proj2 (Nat.ltb_lt _ _)) by lia.
    assert (find comma (length pre) (pre ++ ip ++ colon_char :: rest) = None) as ->.
    { unfold find. rewrite drop_app_length.
      assert (forall l, comma ∉ l -> index_of comma l = None) as Hno.
      { induction l as [|x l IHl]; intros Hl; simpl; [done|]. rewrite IHl by set_solver.
        destruct (Ascii.eqb_spec x comma) as [->|_]; [set_solver|done]. }
      rewrite Hno; [done|]. rewrite elem_of_app, elem_of_cons. by intros [?|[[=]|?]]. }
    replace (length pre + length ip - length pre) with (length ip) by lia.
    rewrite slice_middle. f_equal. destruct fuel; [done|]. simpl.
    by rewrite (proj2 (Nat.ltb_ge _ _)) by lia.
  - cbn [join_commas] in *. set (tl := join_commas (ip' :: ips)) in *.
    change (match ips with [] => ip' | _ :: _ => ip' ++ comma :: join_commas ips end) with tl in *.
    cbn [cand_loop]. rewrite !length_app in *. cbn [length] in *.
    rewrite (proj2 (Nat.ltb_lt _ _)) by lia.
    rewrite <- !app_assoc. cbn [app]. rewrite find_comma_next by done.
    rewrite (proj2 (Nat.ltb_ge _ _)) by lia.
    replace (length pre + length ip - length pre) with (length ip) by lia.
    rewrite slice_middle. f_equal.
    specialize (IH (pre ++ ip ++ [comma]) rest fuel Hrest ltac:(lia)).
    rewrite <- !app_assoc, !length_app in IH. cbn [app length] in IH.
    rewrite <- IH. f_equal; lia.
Qed.

(** ** Lemmas: priorities *)

(** No prefix of the list is empty, so none fits everything. *)
Lemma priority_loop_clean fuel s i : Forall (fun p => p <> []) (priority_loop fuel s i).
Proof.
  revert i; induction fuel as [|fuel IH]; intros i; simpl; [done|].
  destruct (Nat.ltb_spec i (length s)) as [Hi|]; [|done]. apply Forall_app. split; [|apply IH].
  set (j := default (length s) (find comma i s)). destruct (Nat.ltb_spec i j) as [Hij|]; [|done].
  constructor; [|done]. unfold slice. intros Hnil%(f_equal length).
  rewrite length_take, length_drop in Hnil. simpl in Hnil. lia.
Qed.

Lemma starts_with_spec p s : starts_with p s = true <-> exists r, s = p ++ r.
Proof.
  revert s; induction p as [|a p IH]; intros s; simpl.
  - split; [by exists s|done].
  - destruct s as [|b s]; [split; [done|by intros (r & ?)]|].
    rewrite andb_true_iff, IH, Ascii.eqb_eq. split.
    + intros (-> & r & ->). by exists r.
    + intros (r & Hr). simplify_eq. split; [done|]. by exists r.
Qed.

Lemma str_eqb_eq a b : str_eqb a b = true <-> a = b.
Proof.
  unfold str_eqb. rewrite andb_true_iff, Nat.eqb_eq, starts_with_spec. split.
  - intros (Hl & r & ->). rewrite length_app in Hl.
    assert (length r = 0) as Hr by lia. apply length_zero_iff_nil in Hr as ->. by rewrite app_nil_r.
  - intros ->. split; [done|]. exists []. by rewrite app_nil_r.
Qed.

Lemma in_priority_spec pri ip : in_priority pri ip = true <-> exists p r, p ∈ pri /\ ip = p ++ r.
Proof.
  unfold in_priority. rewrite existsb_exists. split.
  - intros (p & Hp & (r & ->)%starts_with_spec). exists p, r. by rewrite list_elem_of_In.
  - intros (p & r & Hp & ->). exists p. rewrite <- list_elem_of_In, starts_with_spec. eauto.
Qed.

Lemma better_strict_weak pri : strict_weak (better pri).
Proof.
  unfold better. split.
  - intros a b. rewrite Nat.ltb_lt, Nat.ltb_ge. lia.
  - intros a b c. rewrite !Nat.ltb_ge. lia.
Qed.

Lemma usable_ip_spec pri mine ip :
  usable_ip pri mine ip = true <->
  subnet24 ip ∈ mine /\ (pri = [] \/ exists p r, p ∈ pri /\ ip = p ++ r).
Proof.
  unfold usable_ip. rewrite andb_true_iff, existsb_exists.
  assert ((exists x, In x mine /\ str_eqb (subnet24 ip) x = true) <-> subnet24 ip ∈ mine) as ->.
  { split; [intros (x & Hx & ->%str_eqb_eq); by apply list_elem_of_In|].
    intros Hin. exists (subnet24 ip). by rewrite <- list_elem_of_In, str_eqb_eq. }
  rewrite <- in_priority_spec. destruct pri; [tauto|]. split; [tauto|]. by intros [? [[=]|?]].
Qed.

(** ** Lemmas: the acceptor *)

Lemma foldl_accept_length rank evs fds : length (foldl (accept_one rank) fds evs) = length fds.
Proof.
  revert fds; induction evs as [|ev evs IH]; intros fds; simpl; [done|]. rewrite IH.
  unfold accept_one. destruct (handshake rank ev) as [[peer fd]|]; [by rewrite length_insert|done].
Qed.

(** The slot of a peer is filled exactly when it was filled before or some
    handshake of the batch was its own. *)
Lemma foldl_accept_filled rank evs fds p :
  p < length fds ->
  (exists fd, foldl (accept_one rank) fds evs !! p = Some (Some fd)) <->
  (exists fd, fds !! p = Some (Some fd)) \/ p ∈ omap (fun ev => fst <$> handshake rank ev) evs.
Proof.
  revert fds; induction evs as [|ev evs IH]; intros fds Hp; simpl.
  { rewrite elem_of_nil. tauto. }
  unfold accept_one at 2. destruct (handshake rank ev) as [[peer fd]|]; simpl; [|by apply IH].
  rewrite IH by (by rewrite length_insert). rewrite elem_of_cons.
  destruct (decide (p = peer)) as [->|Hne].
  - rewrite list_lookup_insert_eq by done. split; [tauto|]. intros _. left. by exists fd.
  - rewrite list_lookup_insert_ne by done. tauto.
Qed.

Lemma handshake_lt rank ev p fd : handshake rank ev = Some (p, fd) -> p < rank.
Proof.
  unfold handshake. destruct ev as [|fd' [id|] []]; try done.
  destruct (Z.ltb_spec id 0), (Z.leb_spec (Z.of_nat rank) id); simpl; intros; simplify_eq; lia.
Qed.

Lemma omap_length_le {A B} (f : A -> option B) (l : list A) : length (omap f l) <= length l.
Proof. induction l as [|x l IH]; csimpl; [done|]. destruct (f x); csimpl; lia. Qed.

Lemma omap_full {A B} (f : A -> option B) (l : list A) :
  length l <= length (omap f l) -> f <$> l = Some <$> omap f l.
Proof.
  induction l as [|x l IH]; [done|]. csimpl.
  pose proof (omap_length_le f l). destruct (f x) eqn:E; csimpl; intros; [|lia].
  by rewrite IH by lia.
Qed.

(** The handshakes of a batch of [rank] connections cover all lower ranks only
    if each of them succeeds exactly once. *)
Lemma handshakes_cover rank evs :
  length evs = rank ->
  (forall p, p < rank -> p ∈ omap (fun ev => fst <$> handshake rank ev) evs) <->
  (fun ev => fst <$> handshake rank ev) <$> evs ≡ₚ Some <$> seq 0 rank.
Proof.
  intros Hlen. set (f := fun ev => fst <$> handshake rank ev). split.
  - intros Hall.
    assert (seq 0 rank ⊆+ omap f evs) as Hsub.
    { apply NoDup_submseteq; [apply NoDup_seq|]. intros p Hp%elem_of_seq. apply Hall. lia. }
    pose proof (submseteq_length _ _ Hsub) as Hl. rewrite length_seq in Hl.
    pose proof (omap_length_le f evs).
    rewrite omap_full by lia. apply fmap_Permutation. symmetry.
    apply submseteq_length_Permutation; [done|]. rewrite length_seq. lia.
  - intros Hperm p Hp. apply list_elem_of_omap.
    assert (Some p ∈ f <$> evs) as Hin.
    { rewrite Hperm. apply list_elem_of_fmap. exists p. split; [done|]. apply elem_of_seq. lia. }
    apply list_elem_of_fmap in Hin as (ev & Hev & Hin). by exists ev.
Qed.

(** ** Properties *)


(** The endpoint a rank publishes is read back by every peer: for addresses
    without comma or colon, parsing the published string gives the same
    addresses in the same order and the same port. *)
Theorem endpoint_roundtrip ips port :
  Forall clean ips -> parse_endpoint (endpoint ips port) = Ok (ips, Z.of_nat port).
Proof.
  intros Hips. unfold parse_endpoint, endpoint.
  rewrite rfind_app by apply to_string_no_colon.
  rewrite (Nat.add_comm (length _) 1). simpl plus.
  assert (drop (S (length (join_commas ips))) (join_commas ips ++ colon_char :: to_string port) =
          to_string port) as ->.
  { rewrite drop_app_ge by lia.
    replace (S (length (join_commas ips)) - length (join_commas ips)) with 1 by lia. done. }
  rewrite atoi_to_string. do 2 f_equal.
  apply (cand_loop_join ips Hips [] (to_string port)); [|lia].
  intros (d & Hd & Heq)%decimal_chars. by destruct (digit_head d [] Hd) as (_ & [] & _).
Qed.

(** Which addresses a rank connects to.  With a priority list from the
    environment the addresses tried are exactly the advertised ones of the peer
    that lie on a /24 of this rank and start with a (non-empty) prefix of the
    list, best prefix first; when there is none the constructor throws instead
    of falling back.  Without a list every address on a common /24 is used. *)
Theorem reachable_candidates `{StdSortLaws} env mine cands :
  let pri := prefix_priority env in
  let good ip := ip ∈ cands /\ subnet24 ip ∈ mine /\
                 (pri = [] \/ exists p r, p ∈ pri /\ p <> [] /\ ip = p ++ r) in
  match reachable pri mine cands with
  | Ok l => l <> [] /\ (forall ip, ip ∈ l <-> good ip) /\
            StronglySorted (fun a b => score pri a <= score pri b) l
  | Throw _ => forall ip, ~ good ip
  end.
Proof.
  intros pri good. unfold reachable.
  assert (Hne : Forall (fun p => p <> []) pri).
  { unfold pri, prefix_priority. destruct env as [[|c s]|]; try done. apply priority_loop_clean. }
  assert (Hgood : forall ip, ip ∈ List.filter (usable_ip pri mine) cands <-> good ip).
  { intros ip. rewrite list_elem_of_In, filter_In, <- list_elem_of_In, usable_ip_spec. unfold good.
    rewrite Forall_forall in Hne. split.
    - intros (H1 & H2 & [H3|(p & r & H3 & H4)]); split_and!; eauto 7.
    - intros (H1 & H2 & [H3|(p & r & H3 & _ & H4)]); split_and!; eauto. }
  destruct (List.filter (usable_ip pri mine) cands) as [|x l] eqn:E.
  - intros ip Hip. apply Hgood in Hip. by apply elem_of_nil in Hip.
  - split_and!.
    + intros Hnil. pose proof (std_sort_perm (better pri) (x :: l)) as Hp. rewrite Hnil in Hp.
      by apply Permutation_nil_cons in Hp.
    + intros ip. rewrite (std_sort_perm (better pri) (x :: l)). apply Hgood.
    + eapply StronglySorted_weaken; [|apply std_sort_sorted, better_strict_weak].
      unfold better. intros a b Hab%Nat.ltb_ge. done.
Qed.

(** The acceptor gives every lower rank its socket exactly when the first
    [rank] connections are one valid handshake of each lower rank.  A failed
    accept, a bad or interrupted handshake or a second connection of the same
    peer among them uses up a slot, and the constructor then throws although the
    missing peer may be about to connect. *)
Theorem acceptor_complete_iff rank world evs :
  rank < world -> rank <= length evs ->
  exists fds,
    acceptor rank evs (replicate world None) = Some fds /\ length fds = world /\
    ((forall p, p < rank -> exists fd, fds !! p = Some (Some fd)) <->
     (fun ev => fst <$> handshake rank ev) <$> take rank evs ≡ₚ Some <$> seq 0 rank) /\
    (~ (fun ev => fst <$> handshake rank ev) <$> take rank evs ≡ₚ Some <$> seq 0 rank ->
     mesh_complete rank fds = Throw (MCCLError "PeerMesh: missing socket for peer ")).
Proof.
  intros Hr Hlen. unfold acceptor. rewrite (proj2 (Nat.ltb_ge _ _)) by done.
  set (fds := foldl (accept_one rank) (replicate world None) (take rank evs)).
  assert (Hl : length fds = world) by (unfold fds; by rewrite foldl_accept_length, length_replicate).
  assert (Hiff : (forall p, p < rank -> exists fd, fds !! p = Some (Some fd)) <->
    (fun ev => fst <$> handshake rank ev) <$> take rank evs ≡ₚ Some <$> seq 0 rank).
  { rewrite <- handshakes_cover by (rewrite length_take; lia).
    assert (forall p, p < rank -> (exists fd, fds !! p = Some (Some fd)) <->
      p ∈ omap (fun ev => fst <$> handshake rank ev) (take rank evs)) as Hp.
    { intros p Hp. unfold fds. rewrite foldl_accept_filled by (rewrite length_replicate; lia).
      split; [|tauto]. intros [(fd & Hfd)|?]; [|done]. by apply lookup_replicate in Hfd as [? _]. }
    split; intros H p Hlt; by apply Hp, H. }
  exists fds. split_and!; [done|done|done|]. intros Hno. unfold mesh_complete.
  destruct (forallb _ _) eqn:E; [|done]. exfalso. apply Hno, Hiff. intros p Hp.
  rewrite forallb_forall in E. specialize (E p). rewrite in_seq in E.
  specialize (E ltac:(lia)). apply orb_true_iff in E as [E|E]; [apply Nat.eqb_eq in E; lia|].
  destruct (fds !! p) as [[fd|]|] eqn:E'; try done. by exists fd.
Qed.

(** ** Witnesses *)

(** A socket whose calls move at most as many bytes as the next number of a
    list says, and fail when the list is empty. *)
Record demo_sock := mkSock { sk_chunks : list nat; sk_out : list Z; sk_in : list Z }.

Definition demo_send (s : demo_sock) (buf : list Z) : Z * demo_sock :=
  match sk_chunks s with
  | [] => ((-1)%Z, s)
  | c :: cs => let n := c `min` length buf in
               (Z.of_nat n, mkSock cs (sk_out s ++ take n buf) (sk_in s))
  end.
Definition demo_recv (s : demo_sock) (len : nat) : Z * list Z * demo_sock :=
  match sk_chunks s with
  | [] => ((-1)%Z, [], s)
  | c :: cs => let d := take (c `min` len) (sk_in s) in
               (Z.of_nat (length d), d, mkSock cs (sk_out s) (drop (c `min` len) (sk_in s)))
  end.

#[export] Instance demo_socket_laws : SocketLaws demo_send demo_recv sk_out sk_in.
Proof.
  split.
  - intros [cs o i] buf n s'. unfold demo_send. destruct cs as [|c cs]; simpl; intros; simplify_eq; simpl.
    + split; [lia|]. by rewrite app_nil_r.
    + rewrite Nat2Z.id. split; [lia|done].
  - intros [cs o i] len n d s'. unfold demo_recv. destruct cs as [|c cs]; simpl; intros; simplify_eq; simpl.
    + split_and!; [lia|done|done].
    + rewrite Nat2Z.id, take_drop. split_and!; [|done|done]. rewrite length_take. lia.
Qed.


Definition demo_ips : list str := [lit "10.0.0.1"; lit "192.168.1.7"].

Lemma endpoint_roundtrip_witness :
  endpoint demo_ips 8080 = lit "10.0.0.1,192.168.1.7:8080" /\
  parse_endpoint (lit "10.0.0.1,192.168.1.7:8080") = Ok (demo_ips, 8080%Z).
Proof.
  split; [vm_compute; reflexivity|].
  change (lit "10.0.0.1,192.168.1.7:8080") with (lit "10.0.0.1,192.168.1.7" ++ lit ":8080").
  apply (endpoint_roundtrip demo_ips 8080).
  repeat constructor; try discriminate; apply (bool_decide_unpack _); vm_compute; exact I.
Defined.

Definition demo_env : option str := Some (lit "10.0.,,169.254.").

#[local] Existing Instance merge_sort_std.
#[local] Existing Instance merge_sort_laws.

Definition demo_mine : list str := [lit "192.168.1"; lit "169.254.7"; lit "10.0.0"].
Definition demo_cands : list str := [lit "192.168.1.9"; lit "169.254.7.2"; lit "10.0.0.5"; lit "10.0.3.5"].

Lemma demo_reachable :
  reachable (prefix_priority demo_env) demo_mine demo_cands = Ok [lit "10.0.0.5"; lit "169.254.7.2"].
Proof. vm_compute. reflexivity. Qed.

Lemma reachable_candidates_witness :
  StronglySorted (fun a b => score (prefix_priority demo_env) a <= score (prefix_priority demo_env) b)
    [lit "10.0.0.5"; lit "169.254.7.2"].
Proof.
  pose proof (reachable_candidates demo_env demo_mine demo_cands) as H. cbv zeta in H.
  rewrite demo_reachable in H. exact (proj2 (proj2 H)).
Defined.

(** Rank 2 hears from a stranger first: one slot is gone. *)
Definition demo_incoming : list incoming :=
  [Accepted 11 (Some 1%Z) true; Accepted 12 (Some 5%Z) true; Accepted 13 (Some 0%Z) true].

Lemma acceptor_complete_iff_witness :
  exists fds, acceptor 2 demo_incoming (replicate 3 None) = Some fds /\
    mesh_complete 2 fds = Throw (MCCLError "PeerMesh: missing socket for peer ").
Proof.
  destruct (acceptor_complete_iff 2 3 demo_incoming) as (fds & H1 & _ & _ & H2); [lia|simpl; lia|].
  exists fds. split; [exact H1|]. apply H2. intros Hp.
  apply (elem_of_Permutation_proper (None : option nat)) in Hp. vm_compute in Hp.
  destruct Hp as [Hp _]. assert (None ∈ [Some 0; Some 1]) as Hin by (apply Hp; right; left).
  apply (bool_decide_unpack _) in Hin || (apply elem_of_cons in Hin as [Hin|Hin]; [discriminate|];
    apply elem_of_cons in Hin as [Hin|Hin]; [discriminate|]; by apply elem_of_nil in Hin).
Defined.
