(* ===== verification/MemoryPool.v ===== *)
(** The staging buffer pool, src/csrc/runtime/MemoryPool.cpp and .hpp: the
    pool of host buffers with its best-fit search, and the RAII guard
    [PooledBuffer] with its moves.

    The C allocator is a parameter (class [Malloc]) with the live blocks of its
    heap as the observation; [free] of a block that is not live is undefined
    behaviour and has no result.  The operations of the pool are single
    critical sections of [mu_], so a sequence of operations is an interleaving
    of all threads. *)
From S2P Require Import Prelude.
Open Scope Z_scope.

(** ** The C allocator *)

(** [posix_memalign] gives the return code and the pointer it stored (0 is
    [nullptr]); [free] gives no heap where its behaviour is undefined. *)
Class Malloc (H : Type) := {
  live : H -> gset Z;
  posix_memalign : Z -> Z -> H -> Z * Z * H;      (* alignment, size *)
  c_free : Z -> H -> option H;
}.

Definition alloc_failed (rc ptr : Z) : bool := negb (rc =? 0) || (ptr =? 0).

Class MallocLaws (H : Type) `{!Malloc H} : Prop := {
  memalign_ok a n h rc p h' :
    posix_memalign a n h = (rc, p, h') -> alloc_failed rc p = false ->
    (p ∉ live h) /\ (live h' = {[p]} ∪ live h);
  memalign_failed a n h rc p h' :
    posix_memalign a n h = (rc, p, h') -> alloc_failed rc p = true -> live h' = live h;
  free_live p h :
    p ∈ live h -> exists h', c_free p h = Some h' /\ live h' = live h ∖ {[p]};
}.

(** ** The pool *)

Record Buffer := mkBuffer { data : Z; capacity : Z; used : Z }.

(** [Buffer{}]. *)
Definition null_buffer : Buffer := mkBuffer 0 0 0.

(** [(n + alignment - 1) & ~(alignment - 1)] on [size_t]. *)
Definition align_up (n alignment : Z) : Z :=
  Z.land (u64 (n + alignment - 1)) (2 ^ 64 - 1 - u64 (alignment - 1)).

(** One iteration of the best-fit scan, [best] being -1 or an index. *)
Definition scan_step (pool : list Buffer) (nbytes : Z) (best : option nat) (i : nat) : option nat :=
  match pool !! i with
  | None => best
  | Some b =>
      if nbytes <=? capacity b then
        match best with
        | None => Some i
        | Some j =>
            match pool !! j with
            | Some c => if capacity b <? capacity c then Some i else best
            | None => best
            end
        end
      else best
  end.

Definition best_fit (pool : list Buffer) (nbytes : Z) : option nat :=
  foldl (scan_step pool nbytes) None (seq 0 (length pool)).

(** The size of a fresh allocation for an aligned request. *)
Definition alloc_size (nbytes alignment : Z) : Z :=
  align_up (if nbytes <=? 256 * 2 ^ 20 then u64 (nbytes + Z.shiftr nbytes 2) else nbytes)
    alignment.

Section Pool.
Context {H : Type} `{!Malloc H}.

Record MemoryPool := mkPool {
  alignment_ : Z;
  pool_ : list Buffer;
  total_allocated_ : Z;
  heap_ : H;
}.

Definition new_pool (alignment : Z) (h : H) : MemoryPool := mkPool alignment [] 0 h.

Definition acquire (n : Z) : M MemoryPool Buffer := fun s =>
  let nbytes := align_up n (alignment_ s) in
  match best_fit (pool_ s) nbytes with
  | Some best =>
      match pool_ s !! best with
      | Some buf =>
          (Ok (mkBuffer (data buf) (capacity buf) nbytes),
           mkPool (alignment_ s) (delete best (pool_ s)) (total_allocated_ s) (heap_ s))
      | None => (Throw (MCCLError "pool_[best] out of range"), s)
      end
  | None =>
      let size := alloc_size nbytes (alignment_ s) in
      let '(rc, ptr, h') := posix_memalign (alignment_ s) size (heap_ s) in
      if alloc_failed rc ptr then
        (Throw (MCCLError "MemoryPool: allocation failed for "),
         mkPool (alignment_ s) (pool_ s) (total_allocated_ s) h')
      else
        (Ok (mkBuffer ptr size nbytes),
         mkPool (alignment_ s) (pool_ s) (u64 (total_allocated_ s + size)) h')
  end.

Definition release (buf : Buffer) (s : MemoryPool) : MemoryPool :=
  if data buf =? 0 then s
  else mkPool (alignment_ s) (pool_ s ++ [mkBuffer (data buf) (capacity buf) 0])
         (total_allocated_ s) (heap_ s).

Definition total_allocated (s : MemoryPool) : Z := total_allocated_ s.
Definition pooled_count (s : MemoryPool) : nat := length (pool_ s).

(** The loop of [trim] over the pooled buffers; [None] is undefined
    behaviour. *)
Fixpoint free_all (l : list Buffer) (total : Z) (h : H) : option (Z * H) :=
  match l with
  | [] => Some (total, h)
  | b :: l' =>
      match c_free (data b) h with
      | Some h' => free_all l' (u64 (total - capacity b)) h'
      | None => None
      end
  end.

(** [trim], which is also all that the destructor does. *)
Definition trim (s : MemoryPool) : option MemoryPool :=
  match free_all (pool_ s) (total_allocated_ s) (heap_ s) with
  | Some (total, h) => Some (mkPool (alignment_ s) [] total h)
  | None => None
  end.

(** ** PooledBuffer *)

(** [pb_pool] is [pool_ != nullptr]; all guards refer to the same pool. *)
Record PooledBuffer := mkPooled { pb_pool : bool; buf_ : Buffer }.

Definition null_guard : PooledBuffer := mkPooled false null_buffer.

(** [if (pool_ && buf_.data) pool_->release(buf_)]: the destructor, and the
    first statement of the move assignment. *)
Definition guard_release (g : PooledBuffer) (s : MemoryPool) : MemoryPool :=
  if pb_pool g && negb (data (buf_ g) =? 0) then release (buf_ g) s else s.

(** A program that uses the pool through guards: the live guards are a list.
    An index without a guard is not a statement of such a program; the step is
    then without effect. *)
Record Guarded := mkGuarded { g_pool : MemoryPool; g_guards : list PooledBuffer }.

Inductive guard_op :=
  | GNew (n : Z)             (* PooledBuffer g(pool, n) *)
  | GMove (i : nat)          (* PooledBuffer g(std::move(gi)) *)
  | GAssign (i j : nat)      (* gi = std::move(gj) *)
  | GDestroy (i : nat)       (* ~PooledBuffer *)
  | GTrim.                   (* pool.trim() *)

Definition pooled_new (n : Z) (w : Guarded) : Guarded :=
  match acquire n (g_pool w) with
  | (Ok b, p) => mkGuarded p (g_guards w ++ [mkPooled true b])
  | (Throw _, p) => mkGuarded p (g_guards w)
  end.

Definition pooled_move (i : nat) (w : Guarded) : Guarded :=
  match g_guards w !! i with
  | Some g => mkGuarded (g_pool w) (<[i := null_guard]> (g_guards w) ++ [g])
  | None => w
  end.

Definition pooled_assign (i j : nat) (w : Guarded) : Guarded :=
  match g_guards w !! i, g_guards w !! j with
  | Some gi, Some gj =>
      if decide (i = j) then w
      else mkGuarded (guard_release gi (g_pool w))
             (<[j := null_guard]> (<[i := gj]> (g_guards w)))
  | _, _ => w
  end.

Definition pooled_destroy (i : nat) (w : Guarded) : Guarded :=
  match g_guards w !! i with
  | Some g => mkGuarded (guard_release g (g_pool w)) (delete i (g_guards w))
  | None => w
  end.

Definition guard_step (op : guard_op) (w : Guarded) : option Guarded :=
  match op with
  | GNew n => Some (pooled_new n w)
  | GMove i => Some (pooled_move i w)
  | GAssign i j => Some (pooled_assign i j w)
  | GDestroy i => Some (pooled_destroy i w)
  | GTrim => p ← trim (g_pool w); Some (mkGuarded p (g_guards w))
  end.

Fixpoint guard_run (ops : list guard_op) (w : Guarded) : option Guarded :=
  match ops with
  | [] => Some w
  | op :: ops' => w' ← guard_step op w; guard_run ops' w'
  end.
End Pool.

(** [staging_memory_pool]. *)
Definition staging_memory_pool {H} (h : H) : @MemoryPool H := new_pool 16384 h.

(** ** Rounding *)

(** Rounding up to a power of two: the next multiple, or 0 when the sum wraps
    around. *)
Lemma align_up_eq k n :
  0 <= k < 64 -> 0 <= n < 2 ^ 64 ->
  align_up n (2 ^ k) =
    if n + 2 ^ k - 1 <? 2 ^ 64 then n + 2 ^ k - 1 - (n + 2 ^ k - 1) mod 2 ^ k else 0.
Proof.
  intros Hk Hn. unfold align_up.
  assert (0 < 2 ^ k < 2 ^ 64) as Hp
    by (split; [apply Z.pow_pos_nonneg; lia|apply Z.pow_lt_mono_r; lia]).
  rewrite (u64_small (2 ^ k - 1)) by lia.
  replace (2 ^ 64 - 1 - (2 ^ k - 1)) with (2 ^ 64 - 2 ^ k) by lia.
  rewrite (land_ones_compl _ k 64) by (lia || (apply (uwrap_range 64); lia)).
  case_bool; [by rewrite !u64_small by lia|].
  assert (u64 (n + 2 ^ k - 1) = n + 2 ^ k - 1 - 2 ^ 64) as ->.
  { unfold u64, uwrap. symmetry. apply (Z.mod_unique_pos _ _ 1); lia. }
  rewrite Z.mod_small by lia. lia.
Qed.

Lemma align_up_spec k n :
  0 <= k < 64 -> 0 <= n -> n + 2 ^ k - 1 < 2 ^ 64 ->
  (2 ^ k | align_up n (2 ^ k)) /\ n <= align_up n (2 ^ k) < n + 2 ^ k /\
  align_up n (2 ^ k) < 2 ^ 64.
Proof.
  intros Hk Hn Hs. assert (0 < 2 ^ k) by (apply Z.pow_pos_nonneg; lia).
  rewrite align_up_eq by lia. rewrite (proj2 (Z.ltb_lt _ _)) by lia.
  pose proof (Z.mod_pos_bound (n + 2 ^ k - 1) (2 ^ k)).
  split; [|lia]. apply Z.mod_divide; [lia|].
  rewrite Zminus_mod_idemp_r, Z.sub_diag. done.
Qed.

(** A multiple is its own round-up. *)
Lemma align_up_id k n :
  0 <= k < 64 -> 0 <= n -> n + 2 ^ k - 1 < 2 ^ 64 -> (2 ^ k | n) -> align_up n (2 ^ k) = n.
Proof.
  intros Hk Hn Hs [q ->]. destruct (align_up_spec k (q * 2 ^ k)) as ([r ->] & Hr & _); [done..|].
  assert (0 < 2 ^ k) by (apply Z.pow_pos_nonneg; lia). assert (r = q) as -> by nia. done.
Qed.

(** The second rounding and the extra quarter never overflow once the first
    rounding did not. *)
Lemma alloc_size_spec k m :
  0 <= k < 64 -> 0 <= m < 2 ^ 64 -> (2 ^ k | m) ->
  (2 ^ k | alloc_size m (2 ^ k)) /\ m <= alloc_size m (2 ^ k) < 2 ^ 64 /\
  alloc_size m (2 ^ k) < m + m / 4 + 2 ^ k.
Proof.
  intros Hk Hm Hd. unfold alloc_size.
  assert (0 < 2 ^ k <= 2 ^ 63) as Hp
    by (split; [apply Z.pow_pos_nonneg; lia|apply Z.pow_le_mono_r; lia]).
  rewrite Z.shiftr_div_pow2 by lia. change (2 ^ 2) with 4.
  pose proof (Z.div_mod m 4 ltac:(lia)). pose proof (Z.mod_pos_bound m 4).
  case_bool.
  - rewrite u64_small by lia.
    destruct (align_up_spec k (m + m / 4)) as (? & ? & ?); [lia..|].
    split; [done|]. lia.
  - assert (m + 2 ^ k - 1 < 2 ^ 64).
    { assert (2 ^ 64 = 2 ^ (64 - k) * 2 ^ k) as Hw
        by (rewrite <- Z.pow_add_r by lia; f_equal; lia).
      destruct Hd as [q ->]. assert (q < 2 ^ (64 - k))
        by (apply (Z.mul_lt_mono_pos_r (2 ^ k)); [lia|rewrite <- Hw; lia]).
      assert ((q + 1) * 2 ^ k <= 2 ^ (64 - k) * 2 ^ k) by (apply Z.mul_le_mono_nonneg_r; lia). lia. }
    rewrite align_up_id by (done || lia). split; [done|]. lia.
Qed.

(** ** Best fit *)

Section BestFit.
Context (pool : list Buffer) (n : Z).

(** The smallest index below [m] whose buffer is the smallest that fits. *)
Definition best_below (m : nat) (best : option nat) : Prop :=
  match best with
  | None => forall j c, (j < m)%nat -> pool !! j = Some c -> capacity c < n
  | Some i => exists b, (i < m)%nat /\ pool !! i = Some b /\ n <= capacity b /\
      forall j c, (j < m)%nat -> pool !! j = Some c -> n <= capacity c ->
        capacity b < capacity c \/ capacity b = capacity c /\ (i <= j)%nat
  end.

Lemma scan_step_best m best :
  (m < length pool)%nat -> best_below m best -> best_below (S m) (scan_step pool n best m).
Proof.
  intros Hm Hb. destruct (lookup_lt_is_Some_2 pool m Hm) as [b Eb].
  unfold scan_step. rewrite Eb. case_bool; [destruct best as [i|]|].
  - destruct Hb as (c & Hi & Ec & Hc & Hmin). rewrite Ec. case_bool.
    + exists b. split_and!; [lia|done|done|]. intros j d Hj Ed Hd.
      destruct (decide (j = m)) as [->|]; [right; split; [congruence|lia]|].
      destruct (Hmin j d) as [?|[? ?]]; [lia|done..| |]; left; lia.
    + exists c. split_and!; [lia|done|done|]. intros j d Hj Ed Hd.
      destruct (decide (j = m)) as [->|]; [|by apply Hmin; [lia|..]].
      simplify_eq. lia.
  - exists b. split_and!; [lia|done|done|]. intros j d Hj Ed Hd.
    destruct (decide (j = m)) as [->|]; [right; split; [congruence|lia]|].
    specialize (Hb j d ltac:(lia) Ed). lia.
  - destruct best as [i|]; simpl in *.
    + destruct Hb as (c & Hi & Ec & Hc & Hmin). exists c. split_and!; [lia|done|done|].
      intros j d Hj Ed Hd. apply Hmin; [|done|done].
      destruct (decide (j = m)) as [->|]; [simplify_eq; lia|lia].
    + intros j d Hj Ed. destruct (decide (j = m)) as [->|]; [simplify_eq; lia|].
      apply (Hb j); [lia|done].
Qed.

Lemma best_fit_best : best_below (length pool) (best_fit pool n).
Proof.
  unfold best_fit.
  assert (forall m best k, (m + k <= length pool)%nat -> best_below m best ->
    best_below (m + k) (foldl (scan_step pool n) best (seq m k))) as Hgen.
  { intros m best k. revert m best. induction k as [|k IH]; intros m best Hk Hb; simpl.
    - by rewrite Nat.add_0_r.
    - replace (m + S k)%nat with (S m + k)%nat by lia. apply IH; [lia|].
      apply scan_step_best; [lia|done]. }
  apply (Hgen 0%nat None (length pool)); [lia|]. intros j c Hj. lia.
Qed.
End BestFit.

(** ** What an acquisition returns *)

Section AcquireSpec.
Context {H : Type} `{!Malloc H}.
Implicit Types s : @MemoryPool H.

(** The three outcomes of [acquire]: a pooled buffer, a fresh one, an
    exception. *)
Lemma acquire_cases n s :
  let m := align_up n (alignment_ s) in
  let size := alloc_size m (alignment_ s) in
  let '(rc, ptr, h') := posix_memalign (alignment_ s) size (heap_ s) in
  (exists i b, best_fit (pool_ s) m = Some i /\ pool_ s !! i = Some b /\ m <= capacity b /\
     (forall c, c ∈ pool_ s -> m <= capacity c -> capacity b <= capacity c) /\
     acquire n s = (Ok (mkBuffer (data b) (capacity b) m),
       mkPool (alignment_ s) (delete i (pool_ s)) (total_allocated_ s) (heap_ s)))
  \/ Forall (fun c => capacity c < m) (pool_ s) /\
     acquire n s =
       if alloc_failed rc ptr
       then (Throw (MCCLError "MemoryPool: allocation failed for "),
             mkPool (alignment_ s) (pool_ s) (total_allocated_ s) h')
       else (Ok (mkBuffer ptr size m),
             mkPool (alignment_ s) (pool_ s) (u64 (total_allocated_ s + size)) h').
Proof.
  intros m size. destruct (posix_memalign _ _ _) as [[rc ptr] h'] eqn:Ea.
  unfold acquire. fold m. fold size. rewrite Ea.
  pose proof (best_fit_best (pool_ s) m) as Hb.
  destruct (best_fit (pool_ s) m) as [i|]; simpl in Hb.
  - left. destruct Hb as (b & Hi & Eb & Hcap & Hmin). exists i, b. rewrite Eb.
    split_and!; [done..| |done].
    intros c [j Ej]%list_elem_of_lookup Hc.
    destruct (Hmin j c) as [?|[? ?]]; [by eapply lookup_lt_Some|done..| |]; lia.
  - right. split; [|done]. apply Forall_lookup_2. intros j c Ej.
    apply (Hb j c); [by eapply lookup_lt_Some|done].
Qed.

(** C35: bounds of an acquisition from a pool aligned to a power of two, for
    every request whose round-up fits [size_t]: the buffer's used size is the
    next multiple of the alignment, its capacity covers it, a pooled buffer is
    the smallest of those that fit, and a fresh one is at most a quarter
    (rounded up) larger than the request. *)
Theorem acquire_bounds k n s b s' :
  0 <= k < 64 -> alignment_ s = 2 ^ k ->
  0 <= n -> n + 2 ^ k - 1 < 2 ^ 64 ->
  acquire n s = (Ok b, s') ->
  (2 ^ k | used b) /\ n <= used b < n + 2 ^ k /\ used b <= capacity b /\
  ((exists c, c ∈ pool_ s /\ data b = data c /\ capacity b = capacity c /\
      forall d, d ∈ pool_ s -> used b <= capacity d -> capacity b <= capacity d) \/
   (Forall (fun d => capacity d < used b) (pool_ s) /\
      (2 ^ k | capacity b) /\ capacity b < used b + used b / 4 + 2 ^ k)).
Proof.
  intros Hk Ea Hn Hs Hacq.
  destruct (align_up_spec k n Hk Hn Hs) as (Hdiv & Hr & Hlt).
  destruct (alloc_size_spec k (align_up n (2 ^ k)) Hk ltac:(lia) Hdiv) as (Hsd & Hs1 & Hs2).
  pose proof (acquire_cases n s) as Hc. cbv zeta in Hc. rewrite Ea in Hc.
  destruct (posix_memalign _ _ _) as [[rc ptr] h'].
  destruct Hc as [(i & c & _ & Ec & Hcap & Hmin & E)|(Hall & E)]; rewrite E in Hacq.
  - simplify_eq/=. split_and!; [done|lia..|]. left. exists c.
    split_and!; [by eapply list_elem_of_lookup_2|done..].
  - destruct (alloc_failed rc ptr); simplify_eq/=. split_and!; [done|lia..|]. by right.
Qed.

(** a request within the alignment of 2^64 wraps around to 0 bytes: the
    pool hands out a buffer that is marked as using 0 bytes instead of
    refusing, and with an empty pool asks the allocator for 0 bytes. *)
Theorem acquire_wraps k n s b s' :
  0 <= k < 64 -> alignment_ s = 2 ^ k ->
  2 ^ 64 - 2 ^ k < n < 2 ^ 64 ->
  acquire n s = (Ok b, s') ->
  used b = 0 /\ (pool_ s = [] -> capacity b = 0).
Proof.
  intros Hk Ea Hn Hacq.
  assert (0 < 2 ^ k < 2 ^ 64)
    by (split; [apply Z.pow_pos_nonneg; lia|apply Z.pow_lt_mono_r; lia]).
  assert (align_up n (2 ^ k) = 0) as E0.
  { rewrite align_up_eq by lia. by rewrite (proj2 (Z.ltb_ge _ _)) by lia. }
  assert (alloc_size 0 (2 ^ k) = 0) as Es.
  { unfold alloc_size. simpl. apply align_up_id; [lia..|]. apply Z.divide_0_r. }
  pose proof (acquire_cases n s) as Hc. cbv zeta in Hc. rewrite Ea, E0, Es in Hc.
  destruct (posix_memalign _ _ _) as [[rc ptr] h'].
  destruct Hc as [(i & c & _ & Ec & Hcap & Hmin & E)|(Hall & E)]; rewrite E in Hacq.
  - simplify_eq/=. split; [done|]. intros Hp. by rewrite Hp in Ec.
  - destruct (alloc_failed rc ptr); by simplify_eq/=.
Qed.
End AcquireSpec.

(** ** Ownership *)

(** A block is the address and the capacity of a buffer; its [used] field does
    not matter to the allocator. *)
Definition block (b : Buffer) : Z * Z := (data b, capacity b).

Definition sum_capacity (l : list (Z * Z)) : Z := foldr (fun x acc => x.2 + acc) 0 l.

Lemma sum_capacity_perm l l' : l ≡ₚ l' -> sum_capacity l = sum_capacity l'.
Proof. induction 1; simpl; lia. Qed.

Definition held (g : PooledBuffer) : bool := pb_pool g && negb (data (buf_ g) =? 0).

(** The blocks the guards hold. *)
Fixpoint guard_blocks (gs : list PooledBuffer) : list (Z * Z) :=
  match gs with
  | [] => []
  | g :: gs' => if held g then block (buf_ g) :: guard_blocks gs' else guard_blocks gs'
  end.

#[export] Instance guard_blocks_proper : Proper ((≡ₚ) ==> (≡ₚ)) guard_blocks.
Proof.
  induction 1 as [|g l l' _ IH|g g' l|]; simpl.
  - done.
  - destruct (held g); by rewrite IH.
  - destruct (held g), (held g'); try done. constructor.
  - by etrans.
Qed.

Lemma guard_blocks_app gs gs' : guard_blocks (gs ++ gs') = guard_blocks gs ++ guard_blocks gs'.
Proof. induction gs as [|g gs IH]; simpl; [done|]. destruct (held g); simpl; by rewrite IH. Qed.

Lemma delete_insert_same {A} (l : list A) i x : delete i (<[i := x]> l) = delete i l.
Proof. revert i; induction l as [|y l IH]; intros [|i]; simpl; f_equal; auto. Qed.

Lemma insert_perm {A} (l : list A) i x y : l !! i = Some y -> <[i := x]> l ≡ₚ x :: delete i l.
Proof.
  intros E. rewrite <- (delete_insert_same l i x). apply delete_Permutation.
  apply list_lookup_insert_eq. by eapply lookup_lt_Some.
Qed.

Section Ownership.
Context {H : Type} `{!Malloc H}.
Implicit Types s : @MemoryPool H.
Implicit Types w : @Guarded H.

(** All blocks of the program: pooled and held. *)
Definition blocks w : list (Z * Z) :=
  (block <$> pool_ (g_pool w)) ++ guard_blocks (g_guards w).

(** The blocks [l] are exactly what the program owns on top of the blocks
    [h0] that others allocated, and [total] is their size modulo 2^64. *)
Record owns (h0 : gset Z) (l : list (Z * Z)) (total : Z) (h : H) : Prop := {
  owns_nodup : NoDup l.*1;
  owns_nonnull : Forall (fun p => p <> 0) l.*1;
  owns_live : live h = list_to_set l.*1 ∪ h0;
  owns_disj : list_to_set l.*1 ## h0;
  owns_total : total = u64 (sum_capacity l);
}.

Definition pool_inv (h0 : gset Z) w : Prop :=
  owns h0 (blocks w) (total_allocated_ (g_pool w)) (heap_ (g_pool w)).

Lemma owns_perm h0 l l' t h : l ≡ₚ l' -> owns h0 l t h -> owns h0 l' t h.
Proof.
  intros Hp [Hnd Hnn Hl Hd Ht].
  assert (l.*1 ≡ₚ l'.*1) as Hp1 by by rewrite Hp.
  assert ((list_to_set l.*1 : gset Z) = list_to_set l'.*1) as Hset
    by (apply list_to_set_perm_L; done).
  split.
  - by rewrite <- Hp1.
  - by rewrite <- Hp1.
  - by rewrite <- Hset.
  - by rewrite <- Hset.
  - by rewrite <- (sum_capacity_perm l l').
Qed.

(** Steps that only move blocks between the pool and the guards. *)
Lemma pool_inv_moved h0 w w' :
  blocks w ≡ₚ blocks w' ->
  total_allocated_ (g_pool w') = total_allocated_ (g_pool w) ->
  heap_ (g_pool w') = heap_ (g_pool w) ->
  pool_inv h0 w -> pool_inv h0 w'.
Proof. unfold pool_inv. intros Hp -> ->. by apply owns_perm. Qed.

Lemma guard_release_heap g s :
  total_allocated_ (guard_release g s) = total_allocated_ s /\
  heap_ (guard_release g s) = heap_ s /\ alignment_ (guard_release g s) = alignment_ s.
Proof. unfold guard_release, release. by repeat case_match. Qed.

Lemma guard_release_blocks g s :
  (block <$> pool_ (guard_release g s)) = (block <$> pool_ s) ++ guard_blocks [g].
Proof.
  unfold guard_release, release. simpl. fold (held g). destruct (held g) eqn:E.
  - unfold held in E. bool_to_prop. case_bool; [lia|]. simpl. by rewrite fmap_app.
  - by rewrite app_nil_r.
Qed.

Lemma pooled_move_inv h0 i w : pool_inv h0 w -> pool_inv h0 (pooled_move i w).
Proof.
  unfold pooled_move. destruct (g_guards w !! i) as [g|] eqn:E; [|done].
  apply pool_inv_moved; try done. unfold blocks; simpl. f_equiv.
  rewrite guard_blocks_app. rewrite (insert_perm _ _ _ _ E).
  rewrite (delete_Permutation _ _ _ E) at 1. simpl.
  destruct (held g); simpl; [by rewrite Permutation_app_comm|by rewrite app_nil_r].
Qed.

Lemma pooled_assign_inv h0 i j w : pool_inv h0 w -> pool_inv h0 (pooled_assign i j w).
Proof.
  unfold pooled_assign. destruct (g_guards w !! i) as [gi|] eqn:Ei; [|done].
  destruct (g_guards w !! j) as [gj|] eqn:Ej; [|done]. case_decide as Hij; [done|].
  destruct (guard_release_heap gi (g_pool w)) as (Ht & Hh & _).
  apply pool_inv_moved; [|done..]. unfold blocks; simpl.
  rewrite guard_release_blocks, <- app_assoc. f_equiv.
  assert (<[i := gj]> (g_guards w) !! j = Some gj) as Ej'
    by by rewrite list_lookup_insert_ne.
  rewrite (insert_perm _ _ _ _ Ej'). simpl.
  transitivity (guard_blocks (gi :: delete i (g_guards w))).
  { apply guard_blocks_proper. by apply delete_Permutation. }
  assert (<[i := gj]> (g_guards w) ≡ₚ gj :: delete j (<[i := gj]> (g_guards w))) as H1
    by by apply delete_Permutation.
  rewrite (insert_perm _ _ _ _ Ei) in H1 at 1. apply Permutation_cons_inv in H1.
  rewrite <- H1. simpl. by destruct (held gi).
Qed.

Lemma pooled_destroy_inv h0 i w : pool_inv h0 w -> pool_inv h0 (pooled_destroy i w).
Proof.
  unfold pooled_destroy. destruct (g_guards w !! i) as [g|] eqn:E; [|done].
  destruct (guard_release_heap g (g_pool w)) as (Ht & Hh & _).
  apply pool_inv_moved; [|done..]. unfold blocks; simpl.
  rewrite guard_release_blocks, <- app_assoc. f_equiv.
  rewrite (delete_Permutation _ _ _ E) at 1. simpl. by destruct (held g).
Qed.

Context `{!MallocLaws H}.

(** A fresh block joins the owned ones. *)
Lemma owns_fresh h0 l t h a n p rc h' :
  owns h0 l t h -> posix_memalign a n h = (rc, p, h') -> alloc_failed rc p = false ->
  owns h0 ((p, n) :: l) (u64 (t + n)) h'.
Proof.
  intros [Hnd Hnn Hl Hd Ht] Ea Hok. destruct (memalign_ok _ _ _ _ _ _ Ea Hok) as [Hp Hl'].
  rewrite Hl in Hp, Hl'. unfold alloc_failed in Hok. bool_to_prop.
  split; simpl.
  - constructor; [|done]. set_solver.
  - by constructor.
  - rewrite Hl'. set_solver.
  - set_solver.
  - subst t. widths. rewrite Zplus_mod_idemp_l. f_equal. lia.
Qed.

(** A guard around a non-null buffer holds its block. *)
Lemma guard_blocks_held p c m : p <> 0 -> guard_blocks [mkPooled true (mkBuffer p c m)] = [(p, c)].
Proof. intros Hp. simpl. unfold held. simpl. by rewrite (proj2 (Z.eqb_neq _ _)) by done. Qed.

Lemma pooled_new_inv h0 n w : pool_inv h0 w -> pool_inv h0 (pooled_new n w).
Proof.
  intros HI. unfold pooled_new. pose proof (acquire_cases n (g_pool w)) as Hc. cbv zeta in Hc.
  destruct (posix_memalign _ _ _) as [[rc ptr] h'] eqn:Ea.
  destruct Hc as [(i & c & _ & Ec & _ & _ & ->)|(_ & ->)].
  - assert (data c <> 0) as Hc0.
    { pose proof (owns_nonnull _ _ _ _ HI) as Hnn. rewrite Forall_fmap, Forall_forall in Hnn.
      apply (Hnn (block c)). apply elem_of_app. left. apply list_elem_of_fmap_2.
      by eapply list_elem_of_lookup_2. }
    revert HI. apply pool_inv_moved; [|done..]. unfold blocks. cbn [g_pool g_guards pool_].
    rewrite guard_blocks_app, guard_blocks_held by done.
    rewrite (fmap_Permutation block _ _ (delete_Permutation _ _ _ Ec)) at 1.
    csimpl. rewrite (Permutation_app_comm _ [(data c, capacity c)]). simpl.
    by rewrite <- Permutation_middle.
  - destruct (alloc_failed rc ptr) eqn:Ef.
    + pose proof (memalign_failed _ _ _ _ _ _ Ea Ef) as Hl.
      destruct HI as [Hnd Hnn Hl0 Hd Ht]. split; try done. simpl. by rewrite Hl.
    + pose proof (owns_fresh _ _ _ _ _ _ _ _ _ HI Ea Ef) as HI'.
      unfold pool_inv. revert HI'. apply owns_perm. unfold blocks. cbn [g_pool g_guards pool_].
      unfold alloc_failed in Ef. bool_to_prop. rewrite guard_blocks_app, guard_blocks_held by done.
      rewrite (Permutation_app_comm _ [_]). simpl. by rewrite <- Permutation_middle.
Qed.

(** Freeing a block that is owned is defined and leaves the others. *)
Lemma owns_free h0 p c l t h :
  owns h0 ((p, c) :: l) t h ->
  exists h', c_free p h = Some h' /\ owns h0 l (u64 (t - c)) h'.
Proof.
  intros [Hnd Hnn Hl Hd Ht]. simpl in *. apply NoDup_cons in Hnd as [Hp Hnd].
  apply Forall_cons in Hnn as [_ Hnn].
  destruct (free_live p h) as (h' & E & Hl'); [rewrite Hl; set_solver|].
  exists h'. split; [done|]. split; [done|done| |set_solver|].
  - rewrite Hl', Hl. set_solver.
  - subst t. widths. rewrite Zminus_mod_idemp_l. f_equal. lia.
Qed.

Lemma free_all_owns h0 bs l t h :
  owns h0 ((block <$> bs) ++ l) t h ->
  exists t' h', free_all bs t h = Some (t', h') /\ owns h0 l t' h'.
Proof.
  revert t h; induction bs as [|b bs IH]; intros t h Ho; csimpl in *; [eauto|].
  destruct (owns_free _ _ _ _ _ _ Ho) as (h' & -> & Ho'). by apply IH.
Qed.

Lemma guard_step_inv h0 op w :
  pool_inv h0 w -> exists w', guard_step op w = Some w' /\ pool_inv h0 w'.
Proof.
  intros HI. destruct op; simpl.
  - eexists; split; [done|]. by apply pooled_new_inv.
  - eexists; split; [done|]. by apply pooled_move_inv.
  - eexists; split; [done|]. by apply pooled_assign_inv.
  - eexists; split; [done|]. by apply pooled_destroy_inv.
  - unfold trim. destruct (free_all_owns _ _ _ _ _ HI) as (t & h & -> & Ho).
    eexists; split; [done|]. exact Ho.
Qed.

Lemma guard_run_inv h0 ops w :
  pool_inv h0 w -> exists w', guard_run ops w = Some w' /\ pool_inv h0 w'.
Proof.
  revert w; induction ops as [|op ops IH]; intros w HI; [by eexists|]. simpl.
  destruct (guard_step_inv h0 op w HI) as (w' & -> & HI'). by apply IH.
Qed.

Lemma new_pool_inv a h : pool_inv (live h) (mkGuarded (new_pool a h) []).
Proof. split; simpl; [constructor|constructor|set_solver|set_solver|done]. Qed.

(** Destroying the guards from the back puts every held block into the pool. *)
Lemma destroy_all h0 gs p :
  pool_inv h0 (mkGuarded p gs) ->
  exists p', guard_run (replicate (length gs) (GDestroy 0)) (mkGuarded p gs) =
    Some (mkGuarded p' []) /\ pool_inv h0 (mkGuarded p' []).
Proof.
  revert p; induction gs as [|g gs IH]; intros p HI; [by eexists|].
  destruct (guard_step_inv h0 (GDestroy 0) _ HI) as (w' & E & HI'). simpl in *.
  injection E as <-. by apply IH.
Qed.

(** C36: Memory safety of the pool behind its guards: whatever sequence of
    constructions, moves, assignments, destructions and trims a program runs
    on a new pool, no statement has undefined behaviour, all buffers in the
    pool and in the guards are distinct live blocks that were not allocated
    before, [total_allocated] is the sum of their capacities modulo 2^64, and
    destroying the remaining guards and then the pool gives every block back. *)
Theorem pool_guards_safe a h ops :
  exists w, guard_run ops (mkGuarded (new_pool a h) []) = Some w /\
    NoDup (blocks w).*1 /\
    live (heap_ (g_pool w)) = list_to_set (blocks w).*1 ∪ live h /\
    list_to_set (blocks w).*1 ## live h /\
    total_allocated (g_pool w) = u64 (sum_capacity (blocks w)) /\
    exists p, guard_run (replicate (length (g_guards w)) (GDestroy 0) ++ [GTrim]) w =
        Some (mkGuarded p []) /\
      live (heap_ p) = live h /\ total_allocated p = 0 /\ pooled_count p = 0%nat.
Proof.
  destruct (guard_run_inv (live h) ops _ (new_pool_inv a h)) as (w & E & HI).
  exists w. split; [done|]. pose proof HI as [Hnd Hnn Hl Hd Ht]. split_and!; [done..|].
  destruct w as [p gs]. destruct (destroy_all _ _ _ HI) as (p' & Er & HI').
  destruct (guard_step_inv _ GTrim _ HI') as (w'' & Es & HI'').
  assert (forall o1 o2 w0 w1, guard_run o1 w0 = Some w1 ->
    guard_run (o1 ++ o2) w0 = guard_run o2 w1) as Happ.
  { clear. induction o1 as [|o o1 IH]; intros o2 w0 w1; simpl; [by intros [= ->]|].
    destruct (guard_step o w0); simpl; [apply IH|done]. }
  simpl in Es. destruct (trim p') as [p''|] eqn:Et; [|done]. injection Es as <-.
  exists p''. rewrite (Happ _ _ _ _ Er). simpl. rewrite Et. split; [done|].
  unfold trim in Et. destruct (free_all _ _ _) as [[t h']|]; [|done]. injection Et as <-.
  destruct HI'' as [_ _ Hl2 _ Ht2]. simpl in *. split_and!; [set_solver|done|done].
Qed.
End Ownership.

(** ** An allocator that satisfies the laws

    Addresses grow, requests above 2^47 bytes are refused with [ENOMEM]. *)

Definition toy_next (h : gset Z) : Z := 1 + foldr Z.max 0 (elements h).

#[local] Instance toy_malloc : Malloc (gset Z) := {|
  live h := h;
  posix_memalign _ n h :=
    if n <=? 2 ^ 47 then (0, toy_next h, {[toy_next h]} ∪ h) else (12, 0, h);
  c_free p h := if decide (p ∈ h) then Some (h ∖ {[p]}) else None;
|}.

Lemma foldr_max_le l x : x ∈ l -> x <= foldr Z.max 0 l.
Proof. induction 1; simpl; lia. Qed.

Lemma foldr_max_nonneg l : 0 <= foldr Z.max 0 l.
Proof. induction l; simpl; lia. Qed.

#[local] Instance toy_malloc_laws : MallocLaws (gset Z).
Proof.
  split; simpl.
  - intros a n h rc p h'. case_bool; intros [= <- <- <-] Hf; [|done]. split; [|done].
    intros Hin. apply elem_of_elements, foldr_max_le in Hin. unfold toy_next in Hin. lia.
  - intros a n h rc p h'. case_bool; intros [= <- <- <-] Hf; [|done].
    unfold alloc_failed in Hf. simpl in Hf. unfold toy_next in Hf. bool_to_prop.
    apply Z.eqb_eq in Hf. pose proof (foldr_max_nonneg (elements h)). lia.
  - intros p h Hp. rewrite decide_True by done. eauto.
Qed.

Definition demo_ops : list guard_op :=
  [GNew 100; GNew 5000; GMove 0; GAssign 0 1; GDestroy 2; GTrim; GNew 64; GDestroy 0; GNew 60].

Lemma pool_guards_safe_witness :
  exists w, guard_run demo_ops (mkGuarded (new_pool 64 (∅ : gset Z)) []) = Some w /\
    total_allocated (g_pool w) = u64 (sum_capacity (blocks w)) /\ total_allocated (g_pool w) <> 0.
Proof.
  destruct (pool_guards_safe 64 (∅ : gset Z) demo_ops) as (w & E & _ & _ & _ & Ht & _).
  exists w. split; [exact E|]. split; [exact Ht|].
  vm_compute in E. injection E as <-. vm_compute. discriminate.
Defined.

Definition toy_pool : @MemoryPool (gset Z) := new_pool (2 ^ 6) ∅.

Lemma acquire_bounds_witness :
  exists b s', acquire 100 toy_pool = (Ok b, s') /\
    100 <= used b < 100 + 2 ^ 6 /\ used b <= capacity b.
Proof.
  exists (mkBuffer 1 192 128), (acquire 100 toy_pool).2.
  assert (acquire 100 toy_pool = (Ok (mkBuffer 1 192 128), (acquire 100 toy_pool).2)) as E
    by (vm_compute; reflexivity).
  split; [exact E|].
  destruct (acquire_bounds 6 100 toy_pool _ _ ltac:(lia) eq_refl ltac:(lia) ltac:(lia) E)
    as (_ & H1 & H2 & _).
  split; assumption.
Defined.

Lemma acquire_wraps_witness :
  exists b s', acquire (2 ^ 64 - 1) toy_pool = (Ok b, s') /\ used b = 0 /\ capacity b = 0.
Proof.
  exists (mkBuffer 1 0 0), (acquire (2 ^ 64 - 1) toy_pool).2.
  assert (acquire (2 ^ 64 - 1) toy_pool =
    (Ok (mkBuffer 1 0 0), (acquire (2 ^ 64 - 1) toy_pool).2)) as E by (vm_compute; reflexivity).
  split; [exact E|].
  destruct (acquire_wraps 6 (2 ^ 64 - 1) toy_pool _ _ ltac:(lia) eq_refl ltac:(lia) E)
    as (H1 & H2).
  split; [assumption|]. apply H2. reflexivity.
Defined.
