(* ===== verification/Progress.v ===== *)
(** The progress thread of a process group and its work objects:
    src/csrc/backend/Progress.cpp (FIFO of tasks, one worker thread, condition
    variable), src/csrc/backend/WorkMCCL.cpp (the future-like result object)
    and the functions of src/csrc/backend/ProcessGroupMCCL.cpp that connect
    them ([async_submit_], [make_completed], [make_failed]).

    The engine is a step relation on the shared state of three parties: the
    worker, the submitting threads and the thread that calls [shutdown].  The
    mutex is held by the worker exactly at the program points between its
    [unique_lock] and the end of the block; the wait on the condition variable
    is split into the evaluation of the predicate, the moment before the
    thread is registered as a waiter, and the sleep, since the flag [stop_] is
    an atomic written without the mutex. *)
From stdpp Require Import base list option.
From Stdlib Require Import ZArith Lia.
From S2P Require Import Prelude.

Section Progress.
(** What the task bodies act on (tensors, sockets). *)
Context {World : Type}.

(** A C++ callable: it changes the world and returns or throws. *)
Abbreviation callable := (World -> World * option error).

(** ** WorkMCCL *)

(** The c10 future of a work object, as far as it is observed here. *)
Inductive Future := FutPending | FutValue | FutError (e : error).

Definition fut_completed (f : Future) : bool :=
  match f with FutPending => false | _ => true end.

Record WorkMCCL := mkWork {
  completed_ : bool;
  exception_ : option error;
  future_ : Future;
  sync_cb_ : option callable;
}.

(** The constructor, and [setSyncCallback] right after it. *)
Definition new_work (cb : option callable) : WorkMCCL :=
  mkWork false None FutPending cb.

Definition isCompleted (w : WorkMCCL) : bool := completed_ w.

Definition work_exception (w : WorkMCCL) : option error := exception_ w.

Definition isSuccess (w : WorkMCCL) : bool :=
  completed_ w && match exception_ w with None => true | Some _ => false end.

(** [wait]: [None] is a call that stays blocked.  With a timeout the call
    returns false once the time is over. *)
Definition wait (timed : bool) (w : WorkMCCL) : option (result bool) :=
  if completed_ w then
    match exception_ w with
    | Some e => Some (Throw e)
    | None => Some (Ok true)
    end
  else if timed then Some (Ok false) else None.

Definition finishWithException (e : error) (w : WorkMCCL) : WorkMCCL :=
  if completed_ w then w
  else mkWork true (Some e)
         (if fut_completed (future_ w) then future_ w else FutError e) (sync_cb_ w).

(** [finish]: the callback runs first, outside of the [completed_] test. *)
Definition work_finish (world : World) (w : WorkMCCL) : World * WorkMCCL :=
  let settle w :=
    if completed_ w then w
    else mkWork true (exception_ w)
           (if fut_completed (future_ w) then future_ w else FutValue) (sync_cb_ w) in
  match sync_cb_ w with
  | None => (world, settle w)
  | Some cb =>
      match cb world with
      | (world', Some e) => (world', finishWithException e w)
      | (world', None) => (world', settle w)
      end
  end.

Definition make_completed (world : World) : World * WorkMCCL :=
  work_finish world (new_work None).

Definition make_failed (e : error) : WorkMCCL :=
  finishWithException e (new_work None).

Definition make_unimplemented (title : string) : WorkMCCL :=
  make_failed (MCCLError (title +:+ ": not implemented")).

(** ** Tasks *)

(** What [async_submit_] hands to the engine: the body of the collective and
    the index of the work object it settles. *)
Record task := mkTask { t_work : nat; t_body : callable }.

(** The lambda of [async_submit_], on the world and the work objects.  The
    wait for the Metal event that precedes the body belongs to the body. *)
Definition run_task (t : task) (s : World * list WorkMCCL) : World * list WorkMCCL :=
  let '(world, works) := s in
  match t_body t world with
  | (world', Some e) => (world', alter (finishWithException e) (t_work t) works)
  | (world', None) =>
      match works !! t_work t with
      | None => (world', works)
      | Some w =>
          let '(world'', w') := work_finish world' w in
          (world'', <[t_work t := w']> works)
      end
  end.

(** ** The engine *)

(** Where the worker is in [run].  It holds [mu_] at [W_test], [W_block] and
    [W_take]. *)
Inductive worker_pc :=
  | W_lock              (* before the [unique_lock] *)
  | W_test              (* about to evaluate the predicate of the wait *)
  | W_block             (* the predicate was false; not yet waiting *)
  | W_wait              (* waiting, the mutex released *)
  | W_take              (* the wait is over *)
  | W_run (t : task)    (* running a task, the mutex released *)
  | W_exit.             (* [run] has returned *)

(** Where the first caller of [shutdown] is. *)
Inductive shutdown_pc := S_none | S_notify | S_join | S_done.

Record Progress := mkProgress {
  q_ : list task;
  stop_ : bool;
  pc : worker_pc;
  notifies : nat;       (* submitters between the push and their notify_one *)
  shut : shutdown_pc;
  world_ : World;
  works_ : list WorkMCCL;
}.

Definition progress_new (world : World) : Progress :=
  mkProgress [] false W_lock 0 S_none world [].

Definition holds_mu (p : worker_pc) : bool :=
  match p with W_test | W_block | W_take => true | _ => false end.

Definition set_pc (p : worker_pc) (s : Progress) : Progress :=
  mkProgress (q_ s) (stop_ s) p (notifies s) (shut s) (world_ s) (works_ s).
Definition set_shut (x : shutdown_pc) (s : Progress) : Progress :=
  mkProgress (q_ s) (stop_ s) (pc s) (notifies s) x (world_ s) (works_ s).

(** A notification reaches the worker only while it waits; it then takes the
    mutex again and evaluates the predicate. *)
Definition wake (s : Progress) : Progress :=
  match pc s with W_wait => set_pc W_lock s | _ => s end.

(** [run], one step of the worker; [None] where it cannot move by itself. *)
Definition worker_step (s : Progress) : option Progress :=
  match pc s with
  | W_lock => Some (set_pc W_test s)
  | W_test =>
      if stop_ s || negb (match q_ s with [] => true | _ => false end)
      then Some (set_pc W_take s) else Some (set_pc W_block s)
  | W_block => Some (set_pc W_wait s)
  | W_wait => None
  | W_take =>
      match q_ s with
      | [] => if stop_ s then Some (set_pc W_exit s) else Some (set_pc W_lock s)
      | t :: q => Some (mkProgress q (stop_ s) (W_run t) (notifies s) (shut s) (world_ s) (works_ s))
      end
  | W_run t =>
      let '(world, works) := run_task t (world_ s, works_ s) in
      Some (mkProgress (q_ s) (stop_ s) W_lock (notifies s) (shut s) world works)
  | W_exit => None
  end.

(** [async_submit_] up to the push of [submit], which needs the mutex. *)
Definition submit_push (body : callable) (cb : option callable) (s : Progress) : option Progress :=
  if holds_mu (pc s) then None
  else Some (mkProgress (q_ s ++ [mkTask (length (works_ s)) body]) (stop_ s) (pc s)
               (S (notifies s)) (shut s) (world_ s) (works_ s ++ [new_work cb])).

(** The [notify_one] of a submitter. *)
Definition submit_notify (s : Progress) : option Progress :=
  match notifies s with
  | 0 => None
  | S n => Some (wake (mkProgress (q_ s) (stop_ s) (pc s) n (shut s) (world_ s) (works_ s)))
  end.

(** [shutdown]: a caller that finds the flag set returns at once; the first
    one sets it (without the mutex), notifies, and joins the worker. *)
Definition shutdown_flag (s : Progress) : option Progress :=
  if stop_ s then Some s
  else Some (mkProgress (q_ s) true (pc s) (notifies s) S_notify (world_ s) (works_ s)).

Definition shutdown_notify (s : Progress) : option Progress :=
  match shut s with S_notify => Some (set_shut S_join (wake s)) | _ => None end.

Definition shutdown_join (s : Progress) : option Progress :=
  match shut s, pc s with
  | S_join, W_exit => Some (set_shut S_done s)
  | _, _ => None
  end.

Inductive event :=
  | E_worker
  | E_submit (body : callable) (cb : option callable)
  | E_notify
  | E_shutdown
  | E_shutdown_notify
  | E_join
  | E_spurious.          (* a wake-up without a notification *)

Definition engine_step (e : event) (s : Progress) : option Progress :=
  match e with
  | E_worker => worker_step s
  | E_submit body cb => submit_push body cb s
  | E_notify => submit_notify s
  | E_shutdown => shutdown_flag s
  | E_shutdown_notify => shutdown_notify s
  | E_join => shutdown_join s
  | E_spurious => match pc s with W_wait => Some (set_pc W_lock s) | _ => None end
  end.

Fixpoint engine_run (es : list event) (s : Progress) : option Progress :=
  match es with
  | [] => Some s
  | e :: es => s' ← engine_step e s; engine_run es s'
  end.

(** ** Reference: the jobs one after the other *)

(** A job as it was submitted: its body and the callback of its work. *)
Abbreviation job := (callable * option callable)%type.

(** One job run to its end: the exception of the body, or of the callback. *)
Definition seq_job (w : World) (j : job) : World * option error :=
  match j.1 w with
  | (w', Some e) => (w', Some e)
  | (w', None) => match j.2 with None => (w', None) | Some cb => cb w' end
  end.

Fixpoint seq_run (w : World) (js : list job) : World * list (option error) :=
  match js with
  | [] => (w, [])
  | j :: js =>
      let '(w1, o) := seq_job w j in
      let '(w2, os) := seq_run w1 js in (w2, o :: os)
  end.

(** The work object of a job that ended with outcome [o]. *)
Definition settled (j : job) (o : option error) : WorkMCCL :=
  mkWork true o (match o with None => FutValue | Some e => FutError e end) j.2.

(** The jobs submitted by a sequence of events. *)
Fixpoint submitted (es : list event) : list job :=
  match es with
  | [] => []
  | E_submit b cb :: es => (b, cb) :: submitted es
  | _ :: es => submitted es
  end.

Definition running (p : worker_pc) : list task :=
  match p with W_run t => [t] | _ => [] end.

(** The tasks of the jobs [todo], whose works start at index [k]. *)
Definition tasks_from (k : nat) (todo : list job) : list task :=
  imap (fun i j => mkTask (k + i) j.1) todo.

(** ** Lemmas *)

Lemma seq_run_snoc w js j :
  seq_run w (js ++ [j]) =
    ((seq_job (seq_run w js).1 j).1, (seq_run w js).2 ++ [(seq_job (seq_run w js).1 j).2]).
Proof.
  revert w; induction js as [|j' js IH]; intros w; simpl.
  - by destruct (seq_job w j).
  - destruct (seq_job w j') as [w1 o]. rewrite IH. by destruct (seq_run w1 js).
Qed.

Lemma seq_run_length w js : length (seq_run w js).2 = length js.
Proof.
  revert w; induction js as [|j js IH]; intros w; simpl; [done|].
  destruct (seq_job w j) as [w1 o]. specialize (IH w1).
  destruct (seq_run w1 js); simpl in *. lia.
Qed.

Lemma submitted_app es es' : submitted (es ++ es') = submitted es ++ submitted es'.
Proof. induction es as [|[] es IH]; simpl; by rewrite ?IH. Qed.

Lemma tasks_from_cons k j todo :
  tasks_from k (j :: todo) = mkTask k j.1 :: tasks_from (S k) todo.
Proof.
  unfold tasks_from. rewrite imap_cons. rewrite Nat.add_0_r. f_equal.
  apply imap_ext; intros i x _; simpl. f_equal. lia.
Qed.

Lemma tasks_from_snoc k todo j :
  tasks_from k (todo ++ [j]) = tasks_from k todo ++ [mkTask (k + length todo) j.1].
Proof. unfold tasks_from. rewrite imap_app. simpl. by rewrite Nat.add_0_r. Qed.

Lemma zip_with_snoc {A B C} (f : A -> B -> C) la lb a b :
  length la = length lb ->
  zip_with f (la ++ [a]) (lb ++ [b]) = zip_with f la lb ++ [f a b].
Proof. intros H. by rewrite zip_with_app. Qed.

(** Running the task of a job whose work is fresh settles that work with the
    outcome of the job and changes no other. *)
Lemma run_task_fresh w (j : job) ws1 ws2 :
  run_task (mkTask (length ws1) j.1) (w, ws1 ++ new_work j.2 :: ws2) =
    ((seq_job w j).1, ws1 ++ settled j (seq_job w j).2 :: ws2).
Proof.
  unfold run_task, seq_job, settled; simpl. destruct (j.1 w) as [w' [e|]].
  - f_equal. rewrite alter_app_r_alt by lia. by rewrite Nat.sub_diag.
  - rewrite list_lookup_middle by done. unfold work_finish; simpl.
    destruct (j.2) as [cb|] eqn:E; [destruct (cb w') as [w'' [e|]]|]; simpl;
      by rewrite insert_app_r_alt, Nat.sub_diag by lia.
Qed.

Lemma engine_run_app es es' (s : Progress) :
  engine_run (es ++ es') s = s' ← engine_run es s; engine_run es' s'.
Proof.
  revert s; induction es as [|e es IH]; intros s; simpl; [done|].
  destruct (engine_step e s); simpl; [apply IH|done].
Qed.

#[local] Arguments run_task : simpl never.

(** ** Invariant *)

(** The queue discipline: the jobs are split into the ones that have run, in
    order and one at a time, and the rest, which are the running task and the
    queue. *)
Definition fifo (w0 : World) (js : list job) (s : Progress) : Prop :=
  exists done todo,
    js = done ++ todo /\
    world_ s = (seq_run w0 done).1 /\
    works_ s = zip_with settled done (seq_run w0 done).2 ++ (new_work ∘ snd <$> todo) /\
    running (pc s) ++ q_ s = tasks_from (length done) todo.

(** The wake-up discipline: a waiting worker with work to do has a
    notification under way, and before it waits the queue is empty. *)
Definition awake (s : Progress) : Prop :=
  (pc s = W_block -> q_ s = []) /\
  (pc s = W_wait -> q_ s <> [] -> 0 < notifies s) /\
  (pc s = W_exit -> stop_ s = true).

Lemma fifo_ext w0 js s s' :
  world_ s' = world_ s -> works_ s' = works_ s ->
  running (pc s') ++ q_ s' = running (pc s) ++ q_ s -> fifo w0 js s -> fifo w0 js s'.
Proof.
  intros H1 H2 H3 (done & todo & ? & ? & ? & ?). exists done, todo.
  by rewrite H1, H2, H3.
Qed.

Lemma fifo_submit w0 js b cb s s' :
  submit_push b cb s = Some s' -> fifo w0 js s -> fifo w0 (js ++ [(b, cb)]) s'.
Proof.
  unfold submit_push. destruct (holds_mu (pc s)); [done|]. intros [= <-].
  intros (dn & todo & -> & Hw & Hks & Hq). exists dn, (todo ++ [(b, cb)]).
  rewrite <- app_assoc. split_and!; try done; simpl.
  - rewrite Hks, fmap_app, <- app_assoc. done.
  - rewrite app_assoc, Hq, tasks_from_snoc. do 3 f_equal.
    rewrite Hks, length_app, length_zip_with, length_fmap, seq_run_length. lia.
Qed.

Lemma fifo_run w0 js t s :
  pc s = W_run t -> fifo w0 js s ->
  fifo w0 js (mkProgress (q_ s) (stop_ s) W_lock (notifies s) (shut s)
                (run_task t (world_ s, works_ s)).1 (run_task t (world_ s, works_ s)).2).
Proof.
  intros Hpc (dn & todo & -> & Hw & Hks & Hq). rewrite Hpc in Hq. simpl in Hq.
  destruct todo as [|j todo]; [done|]. rewrite tasks_from_cons in Hq.
  injection Hq as -> Hq. exists (dn ++ [j]), todo.
  assert (Hlen : length dn = length (zip_with settled dn (seq_run w0 dn).2))
    by (rewrite length_zip_with, seq_run_length; lia).
  eassert (Hrun : run_task (mkTask (length dn) j.1) (world_ s, works_ s) = _).
  { rewrite Hks, Hw, fmap_cons. rewrite Hlen at 1. apply run_task_fresh. }
  rewrite Hrun.
  rewrite seq_run_snoc. simpl. split_and!; try done.
  - by rewrite <- app_assoc.
  - rewrite zip_with_snoc by (by rewrite seq_run_length). by rewrite <- app_assoc.
  - rewrite Hq, length_app. simpl. by rewrite Nat.add_1_r.
Qed.

Lemma fifo_step w0 js e s s' :
  engine_step e s = Some s' -> fifo w0 js s -> fifo w0 (js ++ submitted [e]) s'.
Proof.
  intros Hs HI. destruct e as [|b cb| | | | |]; simpl in *;
    [|by eapply fifo_submit|..]; rewrite app_nil_r.
  - unfold worker_step in Hs. destruct (pc s) as [| | | | |t|] eqn:Hpc; simplify_eq.
    + revert HI. apply fifo_ext; simpl; by rewrite ?Hpc.
    + destruct (stop_ s || _); simplify_eq; revert HI; apply fifo_ext; simpl; by rewrite ?Hpc.
    + revert HI. apply fifo_ext; simpl; by rewrite ?Hpc.
    + destruct (q_ s) as [|t q] eqn:Hq.
      * destruct (stop_ s); simplify_eq; revert HI; apply fifo_ext; simpl; by rewrite ?Hpc, ?Hq.
      * simplify_eq; revert HI; apply fifo_ext; simpl; by rewrite ?Hpc, ?Hq.
    + pose proof (fifo_run w0 js t s Hpc HI) as HF.
      destruct (run_task t (world_ s, works_ s)) as [w' ws']. by simplify_eq.
  - unfold submit_notify in Hs. destruct (notifies s); simplify_eq.
    revert HI; apply fifo_ext; unfold wake; simpl; destruct (pc s) eqn:Hpc; simpl; by rewrite ?Hpc.
  - unfold shutdown_flag in Hs. destruct (stop_ s); simplify_eq; [done|].
    revert HI; by apply fifo_ext.
  - unfold shutdown_notify in Hs. destruct (shut s); simplify_eq.
    revert HI; apply fifo_ext; unfold wake; simpl; destruct (pc s) eqn:Hpc; simpl; by rewrite ?Hpc.
  - unfold shutdown_join in Hs. destruct (shut s), (pc s); simplify_eq.
    revert HI; by apply fifo_ext.
  - destruct (pc s) eqn:Hpc; simplify_eq. revert HI; apply fifo_ext; simpl; by rewrite ?Hpc.
Qed.

Lemma awake_step e s s' : engine_step e s = Some s' -> awake s -> awake s'.
Proof.
  intros Hs (H1 & H2 & H3).
  destruct e; simpl in Hs;
    unfold worker_step, submit_push, submit_notify, shutdown_flag, shutdown_notify, shutdown_join, wake in Hs;
    repeat case_match; simplify_eq; simpl in *; unfold awake; simpl; split_and!; intros; try done;
    repeat match goal with H : _ || _ = false |- _ => apply orb_false_iff in H as [? ?] end;
    try congruence; try (by destruct (q_ s)); try lia; eauto.
  - by destruct (H1 eq_refl).
  - match goal with H : pc s = W_block, H' : holds_mu (pc s) = false |- _ => by rewrite H in H' end.
Qed.

Lemma engine_run_inv w0 es s :
  engine_run es (progress_new w0) = Some s -> fifo w0 (submitted es) s /\ awake s.
Proof.
  revert s; induction es as [|e es IH] using rev_ind; intros s.
  - intros [= <-]. split; [by exists [], []|by split_and!].
  - rewrite engine_run_app. destruct (engine_run es _) as [s0|]; simpl; [|done].
    destruct (engine_step e s0) as [s1|] eqn:He; simpl; [|done]. intros [= <-].
    destruct (IH s0 eq_refl) as [HF HA]. rewrite submitted_app.
    split; [by eapply fifo_step|by eapply awake_step].
Qed.

(** Once around the loop. *)
Lemma worker_round t q st nt sh w ws :
  engine_run (replicate 4 E_worker) (mkProgress (t :: q) st W_lock nt sh w ws) =
  Some (mkProgress q st W_lock nt sh (run_task t (w, ws)).1 (run_task t (w, ws)).2).
Proof.
  destruct st; simpl; unfold worker_step; simpl; by destruct (run_task t (w, ws)).
Qed.

(** From the top of its loop the worker runs every queued task, four steps
    each, and then waits, or returns when it was told to stop. *)
Lemma worker_drains s :
  pc s = W_lock ->
  exists s', engine_run (replicate (4 * length (q_ s) + 3) E_worker) s = Some s' /\
    q_ s' = [] /\ pc s' = if stop_ s then W_exit else W_wait.
Proof.
  destruct s as [q st p nt sh w ws]. cbn [q_ stop_ pc]. intros ->.
  revert w ws; induction q as [|t q IH]; intros w ws.
  - destruct st; by eexists.
  - replace (4 * length (t :: q) + 3) with (4 + (4 * length q + 3)) by (simpl; lia).
    rewrite replicate_add, engine_run_app, worker_round. apply IH.
Qed.

Lemma worker_drains_any s :
  awake s -> notifies s = 0 -> pc s <> W_exit ->
  exists n s', n <= 4 * length (q_ s) + 4 /\
    engine_run (replicate n E_worker) s = Some s' /\ q_ s' = [] /\
    (pc s' = W_exit \/ pc s' = W_wait) /\
    (stop_ s = true -> pc s <> W_wait -> pc s <> W_block -> pc s' = W_exit).
Proof.
  intros (Hb & Hw & _) Hn He.
  pose (lock := fun s0 => worker_drains s0).
  destruct s as [q st p nt sh w ws]; simpl in *. destruct p as [| | | | |t|]; try done.
  - destruct (lock (mkProgress q st W_lock nt sh w ws) eq_refl) as (s' & H1 & H2 & H3). simpl in *.
    exists (4 * length q + 3), s'. split_and!; [lia|done|done|rewrite H3; destruct st; auto|].
    intros -> _ _. done.
  - destruct (lock (mkProgress q st W_lock nt sh w ws) eq_refl) as (s' & H1 & H2 & H3). simpl in *.
    rewrite Nat.add_comm in H1. simpl in H1.
    exists (2 + 4 * length q), s'. split_and!; [lia|done|done|rewrite H3; destruct st; auto|].
    intros -> _ _. done.
  - exists 1, (mkProgress q st W_wait nt sh w ws). rewrite Hb by done.
    split_and!; try done; try lia; auto.
  - exists 0, (mkProgress q st W_wait nt sh w ws). destruct q as [|t q].
    + split_and!; try done; try lia; auto.
    + assert (0 < nt) by (by apply Hw). lia.
  - destruct q as [|t q].
    + destruct st.
      * exists 1. eexists. split_and!; try done; try lia; auto.
      * exists 4. eexists. split_and!; try done; try lia; auto.
    + destruct (run_task t (w, ws)) as [w' ws'] eqn:Hr.
      destruct (lock (mkProgress q st W_lock nt sh w' ws') eq_refl) as (s' & H1 & H2 & H3). simpl in *.
      exists (2 + (4 * length q + 3)), s'. rewrite replicate_add, engine_run_app. simpl.
      unfold worker_step; simpl. rewrite Hr.
      split_and!; [lia|done|done|rewrite H3; destruct st; auto|]. intros -> _ _. done.
  - destruct (run_task t (w, ws)) as [w' ws'] eqn:Hr.
    destruct (lock (mkProgress q st W_lock nt sh w' ws') eq_refl) as (s' & H1 & H2 & H3). simpl in *.
    exists (1 + (4 * length q + 3)), s'. rewrite replicate_add, engine_run_app. simpl.
    unfold worker_step; simpl. rewrite Hr.
    split_and!; [lia|done|done|rewrite H3; destruct st; auto|]. intros -> _ _. done.
Qed.

Lemma submitted_workers n : submitted (replicate n E_worker) = [].
Proof. by induction n. Qed.

(** C9: The engine runs the jobs one at a time in the order of their
    submission, under every interleaving of the worker, the submitters and a
    shutdown: at any moment the world is what running a prefix of the submitted
    jobs one after the other makes of it, the work objects of that prefix are
    settled with the outcomes of exactly that run (the exception of the body or
    of the callback, the future likewise), and no other work is completed. *)
Theorem engine_fifo w0 es s :
  engine_run es (progress_new w0) = Some s ->
  exists done todo,
    submitted es = done ++ todo /\
    world_ s = (seq_run w0 done).1 /\
    works_ s = zip_with settled done (seq_run w0 done).2 ++ (new_work ∘ snd <$> todo) /\
    length (running (pc s)) + length (q_ s) = length todo.
Proof.
  intros H. destruct (engine_run_inv w0 es s H) as [(dn & todo & H1 & H2 & H3 & H4) _].
  exists dn, todo. split_and!; try done.
  rewrite <- length_app, H4. apply length_imap.
Qed.

(** No job is forgotten and the worker never waits with work in the queue:
    once the submitters have issued their notifications, a worker that has not
    returned runs every submitted job within four steps per queued task (and
    four more), without any further event; all work objects are then settled as
    in the run of the jobs one after the other.  A stop flag that it sees before
    it goes to sleep makes it return, and only then. *)
Theorem engine_drains w0 es s :
  engine_run es (progress_new w0) = Some s -> notifies s = 0 -> pc s <> W_exit ->
  exists n s',
    n <= 4 * length (q_ s) + 4 /\
    engine_run (replicate n E_worker) s = Some s' /\
    q_ s' = [] /\
    world_ s' = (seq_run w0 (submitted es)).1 /\
    works_ s' = zip_with settled (submitted es) (seq_run w0 (submitted es)).2 /\
    (stop_ s = true -> pc s <> W_wait -> pc s <> W_block -> pc s' = W_exit).
Proof.
  intros H Hn He. destruct (engine_run_inv w0 es s H) as [_ HA].
  destruct (worker_drains_any s HA Hn He) as (n & s' & Hle & Hrun & Hq & Hpc & Hst).
  assert (Hall : engine_run (es ++ replicate n E_worker) (progress_new w0) = Some s')
    by (by rewrite engine_run_app, H).
  destruct (engine_run_inv w0 _ s' Hall) as [(dn & todo & H1 & H2 & H3 & H4) _].
  rewrite submitted_app, submitted_workers, app_nil_r in H1.
  assert (Htodo : length todo = 0).
  { rewrite <- (length_imap (fun i (j : job) => mkTask (length dn + i) j.1)).
    fold (tasks_from (length dn) todo). rewrite <- H4, Hq. by destruct Hpc as [-> | ->]. }
  apply length_zero_iff_nil in Htodo as ->. rewrite app_nil_r in H1, H3. rewrite H1.
  by exists n, s'.
Qed.

(** A shutdown can be lost.  The stop flag is written and notified without
    the mutex, so when it falls between the worker's test of the predicate and
    the moment it waits, nobody is notified: the worker sleeps with the flag
    set, the caller of [shutdown] (the destructor) is in [join], and no step of
    the engine, the worker or the caller is possible any more; only a wake-up
    without a notification, or a submission by another thread, gets out. *)
Theorem shutdown_lost_wakeup w0 es s :
  engine_run es (progress_new w0) = Some s ->
  pc s = W_block -> stop_ s = false -> notifies s = 0 ->
  exists s',
    engine_run [E_shutdown; E_shutdown_notify; E_worker] s = Some s' /\
    shut s' = S_join /\ pc s' = W_wait /\ stop_ s' = true /\ q_ s' = [] /\
    forall e s'', engine_step e s' = Some s'' ->
      s'' = s' \/ e = E_spurious \/ exists b cb, e = E_submit b cb.
Proof.
  intros H Hpc Hst Hn. destruct (engine_run_inv w0 es s H) as [_ (Hb & _)].
  specialize (Hb Hpc). destruct s as [q st p nt sh w ws]; simpl in *; subst.
  eexists. split; [done|]. simpl. split_and!; try done.
  intros [] s'' Hs; simpl in Hs; try done; eauto. left. unfold shutdown_flag in Hs. simpl in Hs. congruence.
Qed.

(** A sequence of completions of one work object, by any threads. *)
Inductive completion := C_finish | C_exception (e : error).

Fixpoint complete (cs : list completion) (world : World) (w : WorkMCCL) : World * WorkMCCL :=
  match cs with
  | [] => (world, w)
  | C_finish :: cs => let '(world', w') := work_finish world w in complete cs world' w'
  | C_exception e :: cs => complete cs world (finishWithException e w)
  end.

Lemma complete_settled cs world w :
  completed_ w = true -> (complete cs world w).2 = w.
Proof.
  intros Hc. revert world; induction cs as [|[|e] cs IH]; intros world; simpl; [done|..].
  - unfold work_finish, finishWithException. rewrite Hc.
    destruct (sync_cb_ w) as [cb|]; [destruct (cb world) as [w' [e|]]|]; apply IH.
  - unfold finishWithException. rewrite Hc. apply IH.
Qed.

(** The first completion of a work object decides, and it decides
    everything alike: after [finish] or [finishWithException] and any further
    completions, [wait] returns at once, with or without a timeout, and
    [isSuccess], [exception], the result of [wait] and the future agree; a callback that
    throws turns [finish] into a failure with its exception.  But [finish]
    called again is not without effect: the callback runs on every call, before
    the [completed_] test. *)
Theorem work_first_completion_wins world cb c cs timed :
  let w := (complete (c :: cs) world (new_work cb)).2 in
  let o := match c, cb with
           | C_exception e, _ => Some e
           | C_finish, None => None
           | C_finish, Some f => (f world).2
           end in
  isCompleted w = true /\
  wait timed w = Some (match o with Some e => Throw e | None => Ok true end) /\
  isSuccess w = match o with Some _ => false | None => true end /\
  work_exception w = o /\
  future_ w = (match o with Some e => FutError e | None => FutValue end) /\
  (forall world' f, cb = Some f -> (complete [C_finish] world' w).1 = (f world').1).
Proof.
  simpl.
  assert (Hw : exists x, (complete (c :: cs) world (new_work cb)).2 = x /\ x =
    settled (fun w0 => (w0, None), cb)
      match c, cb with C_exception e, _ => Some e | C_finish, None => None | C_finish, Some f => (f world).2 end).
  { eexists; split; [done|]. destruct c as [|e]; simpl; [|by rewrite complete_settled].
    unfold work_finish; simpl. destruct cb as [f|]; [destruct (f world) as [w' [e|]]|];
      by rewrite complete_settled. }
  destruct Hw as (x & Hx & ->). simpl in Hx. rewrite Hx. clear Hx.
  unfold isCompleted, isSuccess, wait, settled; simpl. split_and!; try done.
  - by destruct c, cb; repeat case_match.
  - intros world' f ->. unfold work_finish; simpl. by destruct (f world') as [? []].
Qed.
End Progress.

(** ** Witnesses: a world that counts, a body that adds and one that throws. *)

Definition demo_add (n : nat) : nat -> nat * option error := fun w => (w + n, None).
Definition demo_fail : nat -> nat * option error := fun w => (w, Some (MCCLError "boom")).
Definition demo_double : nat -> nat * option error := fun w => (2 * w, None).
Definition demo_events : list (@event nat) :=
  [E_submit (demo_add 1) (Some demo_double); E_worker; E_worker; E_worker;
   E_submit demo_fail None; E_notify; E_worker; E_submit (demo_add 5) None; E_notify; E_notify].

(** The first job has been taken, two more are queued. *)
Definition demo_state : @Progress nat :=
  default (progress_new 0) (engine_run demo_events (progress_new 0)).

Lemma demo_run : engine_run demo_events (progress_new 0) = Some demo_state.
Proof. reflexivity. Qed.

Lemma engine_fifo_witness :
  exists done todo,
    submitted demo_events = done ++ todo /\ world_ demo_state = (seq_run 0 done).1 /\
    works_ demo_state = zip_with settled done (seq_run 0 done).2 ++ (new_work ∘ snd <$> todo) /\
    length (running (pc demo_state)) + length (q_ demo_state) = length todo.
Proof. exact (engine_fifo 0 demo_events demo_state demo_run). Defined.

Lemma engine_drains_witness :
  exists n s',
    n <= 4 * length (q_ demo_state) + 4 /\
    engine_run (replicate n E_worker) demo_state = Some s' /\ world_ s' = 7.
Proof.
  destruct (engine_drains 0 demo_events demo_state demo_run) as (n & s' & H1 & H2 & _ & H3 & _).
  - vm_compute. reflexivity.
  - vm_compute. discriminate.
  - exists n, s'. split; [exact H1|]. split; [exact H2|]. rewrite H3. vm_compute. reflexivity.
Defined.

(** The worker has found the queue empty and is about to wait. *)
Definition demo_idle : @Progress nat := mkProgress [] false W_block 0 S_none 0 [].

Lemma shutdown_lost_wakeup_witness :
  exists s', engine_run [E_shutdown; E_shutdown_notify; E_worker] demo_idle = Some s' /\
    shut s' = S_join /\ pc s' = W_wait.
Proof.
  destruct (shutdown_lost_wakeup 0 [E_worker; E_worker] demo_idle) as (s' & H1 & H2 & H3 & _);
    try reflexivity.
  exists s'. split; [exact H1|]. split; [exact H2|exact H3].
Defined.
