(* ===== verification/EventSync.v ===== *)
(** * Synchronisation with the stream of PyTorch ([csrc/metal/EventSync.mm], the
    functions [mps_event_sync...] of [csrc/metal/MPSInterop.mm] and the first
    half of [async_submit_] in [csrc/backend/ProcessGroupMCCL.cpp])

    A collective must not read a tensor before the device has finished what
    PyTorch issued for it.  The calling thread records an event behind that work
    and the engine thread waits for it before it runs the body; without event
    synchronisation the calling thread waits for the whole stream.  The events
    that were recorded and not awaited yet lie in a map under their number.

    The stream and its events belong to PyTorch; they are a parameter with the
    laws [MpsLaws].  The threads are those of [Progress], with the calling
    threads in their steps up to the submission. *)
From stdpp Require Import gmap relations.
From S2P Require Import Prelude CString Progress.
#[local] Open Scope nat_scope.

(** ** The library *)

(** [torch::mps::synchronize]; acquiring an event from the pool and recording
    it on the stream; [MPSEvent::synchronize]. *)
Class Mps (W Ev : Type) := {
  synchronize : W -> W;
  record_event : W -> Ev * W;
  event_synchronize : Ev -> W -> W
}.

(** Work is executed in the order it was issued, so that how far the device has
    come is a number; an event marks what had been issued when it was
    recorded. *)
Class MpsLaws (W Ev : Type) `{!Mps W Ev} := {
  issued : W -> nat;
  finished : W -> nat;
  mark : Ev -> nat;
  synchronize_waits w : issued w <= finished (synchronize w);
  synchronize_keeps w : finished w <= finished (synchronize w);
  synchronize_issues w : issued (synchronize w) = issued w;
  record_marks w : mark (record_event w).1 = issued w;
  record_issues w : issued w <= issued (record_event w).2;
  record_keeps w : finished w <= finished (record_event w).2;
  event_waits e w : mark e <= finished (event_synchronize e w);
  event_keeps e w : finished w <= finished (event_synchronize e w);
  event_issues e w : issued (event_synchronize e w) = issued w
}.

(** What else happens on the stream: PyTorch issues work, the device goes on. *)
Definition advances `{MpsLaws W Ev} (w w' : W) : Prop := issued w <= issued w' /\ finished w <= finished w'.

(** ** State *)

(** The events are given by their signalled values. *)
Record EventState := mkEventState {
  es_device : bool;
  es_queue : bool;
  mps_event : option Z;
  mccl_event : option Z;
  counter : Z;
  initialized : bool
}.
Definition event_state_new : EventState := mkEventState false false None None 0 false.

Section EventSync.
Context {W Ev : Type} `{!Mps W Ev}.

(** The state, [g_pending], and the stream. *)
Record Sync := mkSync { es : EventState; g_pending : gmap Z Ev; stream : W }.

Definition set_es (x : EventState) (s : Sync) : Sync := mkSync x (g_pending s) (stream s).
Definition set_pending (m : gmap Z Ev) (s : Sync) : Sync := mkSync (es s) m (stream s).
Definition set_stream (w : W) (s : Sync) : Sync := mkSync (es s) (g_pending s) w.

(** ** Operations *)

(** [device], [queue]: whether there is a device and a command queue;
    [event1], [event2]: whether [newSharedEvent] succeeds. *)
Definition event_sync_init (device queue event1 event2 : bool) (x : EventState) : EventState :=
  if initialized x then x else
  let x := mkEventState device (es_queue x) (mps_event x) (mccl_event x) (counter x) false in
  if negb device then x else
  let x := mkEventState device queue (if event1 then Some 0%Z else None) (mccl_event x) (counter x) false in
  if negb event1 then x else
  if negb event2 then mkEventState device queue None None (counter x) false
  else mkEventState device queue (mps_event x) (Some 0%Z) 0 true.

Definition event_sync_available (s : Sync) : bool := initialized (es s).

(** [fetch_add(1) + 1]. *)
Definition next_event_value (s : Sync) : Z * Sync :=
  let x := es s in
  (u64 (counter x + 1),
   set_es (mkEventState (es_device x) (es_queue x) (mps_event x) (mccl_event x) (u64 (counter x + 1)) (initialized x)) s).

Definition fetch_event_value : M Sync Z := fun s => let '(v, s) := next_event_value s in (Ok v, s).

Definition check_initialized : M Sync unit := s ← getS; DISTRO_CHECK (initialized (es s)) "EventSync not initialized".

(** The two halves of [commit_mps_and_signal]: the event is recorded, and under
    the mutex put into the map, where [emplace] keeps an entry that is there. *)
Definition record_on_stream : M Sync Ev := fun s =>
  let '(e, w) := record_event (stream s) in (Ok e, set_stream w s).
Definition commit_record : M Sync Ev := _ ← check_initialized; record_on_stream.
Definition emplace (v : Z) (e : Ev) (m : gmap Z Ev) : gmap Z Ev :=
  match m !! v with Some _ => m | None => <[v := e]> m end.
Definition commit_emplace (v : Z) (e : Ev) : M Sync unit := modS (fun s => set_pending (emplace v e (g_pending s)) s).
Definition commit_mps_and_signal (v : Z) : M Sync unit := e ← commit_record; commit_emplace v e.

Definition wait_for_mps (v : Z) (s : Sync) : Sync :=
  match g_pending s !! v with
  | None => s
  | Some e => set_stream (event_synchronize e (stream s)) (set_pending (delete v (g_pending s)) s)
  end.

Definition set_mccl (v : Z) (x : EventState) : EventState :=
  mkEventState (es_device x) (es_queue x) (mps_event x) (Some v) (counter x) (initialized x).

Definition signal_mccl_done (v : Z) : M Sync unit :=
  _ ← check_initialized; modS (fun s => set_es (set_mccl v (es s)) s).

(** [signal_mccl_done_gpu] encodes the signal on the queue of the library: the
    result is what the device does to the state when it comes to it. *)
Definition signal_mccl_done_gpu (v : Z) : M Sync (EventState -> EventState) :=
  _ ← check_initialized; askS (fun s => if es_queue (es s) then set_mccl v else id).

Definition mps_stream_sync (s : Sync) : Sync := set_stream (synchronize (stream s)) s.

(** [env] is what [getenv("DISTRO_EVENT_SYNC")] returned the first time. *)
Definition force_stream_sync (env : option str) : bool :=
  match env with
  | None => false
  | Some v => bool_decide (v = lit "0") || bool_decide (v = lit "false") || bool_decide (v = lit "no")
  end.

Definition mps_event_sync_nonblocking (env : option str) : M Sync Z :=
  s ← getS;
  if negb (force_stream_sync env) && event_sync_available s then
    val ← fetch_event_value;
    _ ← commit_mps_and_signal val;
    mret val
  else
    _ ← modS mps_stream_sync; mret 0%Z.

Definition mps_event_sync (env : option str) : M Sync unit :=
  val ← mps_event_sync_nonblocking env;
  if (0 <? val)%Z then modS (wait_for_mps val) else mret tt.
End EventSync.
Arguments Sync : clear implicits.

(** ** Spinning on an event

    [reads i] is the signalled value at the [i]-th reading of it and [clock j]
    the clock in microseconds at its [j]-th reading. *)
Section Spin.
Context (reads : nat -> Z) (clock : nat -> Z).

Definition FAST_SPINS : nat := 200.
Definition YIELD_SPINS : nat := 2000.
Definition TIMEOUT : Z := 30000000.

(** A bounded number of readings from number [i] on: whether one reached the
    target, and the number of the next reading. *)
Fixpoint spins (k : nat) (target : Z) (i : nat) : bool * nat :=
  match k with
  | 0 => (false, i)
  | S k => if (target <=? reads i)%Z then (true, S i) else spins k target (S i)
  end.

Definition next_delay (delay : Z) : Z := if (delay <? 500)%Z then (delay * 2)%Z else delay.

(** The loop with sleeps; no result when the fuel is used up. *)
Fixpoint sleep_loop (fuel : nat) (target deadline delay : Z) (i j : nat) : option (result unit) :=
  match fuel with
  | 0 => None
  | S fuel =>
    if (reads i <? target)%Z then
      if (clock j <? deadline)%Z then sleep_loop fuel target deadline (next_delay delay) (S i) (S j)
      else Some (Throw (MCCLError "spin_wait_event timed out after 30s waiting for event value "))
    else Some (Ok tt)
  end.

Definition spin_wait_event (fuel : nat) (target : Z) : option (result unit) :=
  let '(hit, i) := spins FAST_SPINS target 0 in
  if hit then Some (Ok tt) else
  let '(hit, i) := spins YIELD_SPINS target i in
  if hit then Some (Ok tt) else
  sleep_loop fuel target (clock 0 + TIMEOUT)%Z 10 i 1.

(** [wait_for_mccl]. *)
Definition wait_for_mccl (fuel : nat) (target : Z) (x : EventState) : option (result unit) :=
  if initialized x then spin_wait_event fuel target else Some (Throw (MCCLError "EventSync not initialized")).
End Spin.

(** ** The threads *)

Section System.
Context {W Ev X : Type} `{!Mps W Ev, !MpsLaws W Ev}.
Context (env : option str).

(** What the tasks act on: the state of this file, the tensors, and a record of
    the bodies that have run: how much work had been issued when
    [async_submit_] was called, and how much the device had finished when the
    body started. *)
Record world := mkWorld { sync : Sync W Ev; user : X; bodies : list (nat * nat) }.

Abbreviation action := (X -> X * option error).

(** The lambda of [async_submit_] up to [work->finish()]. *)
Definition synced_body (v : Z) (need : nat) (act : action) (w : world) : world * option error :=
  let s := if (0 <? v)%Z then wait_for_mps v (sync w) else sync w in
  let '(x, e) := act (user w) in
  (mkWorld s x (bodies w ++ [(need, finished (stream s))]), e).

(** Where a thread is in [async_submit_]: it has a number, it has recorded its
    event, it is ready to submit. *)
Inductive call_pc := Counted (v : Z) | Recorded (v : Z) (e : Ev) | Ready (v : Z).
Record call := mkCall { at_ : call_pc; need_ : nat; act_ : action }.

Record sys := mkSys { engine : Progress (World := world); calls : list call }.

Definition sync_of (s : sys) : Sync W Ev := sync (world_ (engine s)).
Definition set_sync (x : Sync W Ev) (p : Progress (World := world)) : Progress :=
  mkProgress (q_ p) (stop_ p) (pc p) (notifies p) (shut p)
    (mkWorld x (user (world_ p)) (bodies (world_ p))) (works_ p).

(** [async_submit_] is called. *)
Definition call_begin (act : action) (s : sys) : sys :=
  let x := sync_of s in
  if negb (force_stream_sync env) && event_sync_available x then
    let '(v, x') := next_event_value x in
    mkSys (set_sync x' (engine s)) (mkCall (Counted v) (issued (stream x)) act :: calls s)
  else mkSys (set_sync (mps_stream_sync x) (engine s)) (mkCall (Ready 0) (issued (stream x)) act :: calls s).

(** The next step of a call; an exception leaves [async_submit_] before
    anything is submitted.  The last step pushes the task. *)
Definition call_step (k : call) (p : Progress (World := world)) : option (Progress * option call) :=
  let x := sync (world_ p) in
  match at_ k with
  | Counted v =>
    match commit_record x with
    | (Ok e, x) => Some (set_sync x p, Some (mkCall (Recorded v e) (need_ k) (act_ k)))
    | (Throw _, x) => Some (set_sync x p, None)
    end
  | Recorded v e => Some (set_sync (commit_emplace v e x).2 p, Some (mkCall (Ready v) (need_ k) (act_ k)))
  | Ready v => p ← submit_push (synced_body v (need_ k) (act_ k)) None p; Some (p, None)
  end.

Definition not_submit (e : event (World := world)) : bool := match e with E_submit _ _ => false | _ => true end.

Inductive sys_step : sys -> sys -> Prop :=
  | Sys_stream s w : advances (stream (sync_of s)) w ->
      sys_step s (mkSys (set_sync (set_stream w (sync_of s)) (engine s)) (calls s))
  | Sys_init s device queue event1 event2 :
      sys_step s (mkSys (set_sync (set_es (event_sync_init device queue event1 event2 (es (sync_of s))) (sync_of s))
                    (engine s)) (calls s))
  | Sys_begin s act : sys_step s (call_begin act s)
  | Sys_call s k before after p k' :
      calls s = before ++ k :: after -> call_step k (engine s) = Some (p, k') ->
      sys_step s (mkSys p (before ++ option_list k' ++ after))
  | Sys_engine s e p : not_submit e = true -> engine_step e (engine s) = Some p -> sys_step s (mkSys p (calls s)).

Definition sys_new (w : W) (x : X) : sys := mkSys (progress_new (mkWorld (mkSync event_state_new ∅ w) x [])) [].

(** ** The invariant *)

(** The tasks that have not run, first the one that is about to. *)
Definition tasks (p : Progress (World := world)) : list (task (World := world)) :=
  match pc p with W_run t => t :: q_ p | _ => q_ p end.

Definition call_val (k : call) : Z := match at_ k with Counted v | Recorded v _ | Ready v => v end.

(** Waiting for number [v] is enough for [need]. *)
Definition covered (x : Sync W Ev) (v : Z) (need : nat) : Prop :=
  if (0 <? v)%Z then exists e, g_pending x !! v = Some e /\ need <= mark e else need <= finished (stream x).

Definition call_ok (x : Sync W Ev) (k : call) : Prop :=
  match at_ k with
  | Counted v => (0 < v)%Z /\ g_pending x !! v = None /\ need_ k <= issued (stream x)
  | Recorded v e => (0 < v)%Z /\ g_pending x !! v = None /\ need_ k <= mark e
  | Ready v => covered x v (need_ k)
  end.

Definition describes (t : task (World := world)) (m : Z * nat) : Prop :=
  exists act, t_body t = synced_body m.1 m.2 act.

(** The numbers in use: those of the calls and of the tasks. *)
Definition used (ks : list call) (ms : list (Z * nat)) : list Z := filter (fun v => 0 < v)%Z ((call_val <$> ks) ++ ms.*1).

Record inv_with (n : nat) (s : sys) (ms : list (Z * nat)) : Prop := {
  iv_counter : (0 <= counter (es (sync_of s)) <= Z.of_nat n)%Z;
  iv_used : Forall (fun v => v <= counter (es (sync_of s)))%Z (used (calls s) ms);
  iv_nodup : NoDup (used (calls s) ms);
  iv_pending : forall v, is_Some (g_pending (sync_of s) !! v) -> v ∈ used (calls s) ms;
  iv_calls : Forall (call_ok (sync_of s)) (calls s);
  iv_tasks : Forall2 describes (tasks (engine s)) ms;
  iv_covered : Forall (fun m => covered (sync_of s) m.1 m.2) ms;
  iv_works : Forall (fun k => sync_cb_ k = None) (works_ (engine s));
  iv_init : initialized (es (sync_of s)) = false -> used (calls s) ms = [];
  iv_bodies : Forall (fun b => b.1 <= b.2) (bodies (world_ (engine s)))
}.

(** *** Numbers in use *)

Definition pos (v : Z) : list Z := if decide (0 < v)%Z then [v] else [].

Lemma used_call before k after ms : used (before ++ k :: after) ms ≡ₚ pos (call_val k) ++ used (before ++ after) ms.
Proof.
  unfold used, pos. rewrite !fmap_app, fmap_cons, !filter_app, filter_cons. case_decide; [|done].
  rewrite <- !app_assoc. cbn. symmetry. apply Permutation_middle.
Qed.

Lemma used_task ks m ms : used ks (m :: ms) ≡ₚ pos m.1 ++ used ks ms.
Proof.
  unfold used, pos. rewrite fmap_cons, !filter_app, filter_cons. case_decide; [|done].
  symmetry. cbn. apply Permutation_middle.
Qed.

Lemma used_push before k after ms v need :
  at_ k = Ready v -> used (before ++ after) (ms ++ [(v, need)]) ≡ₚ used (before ++ k :: after) ms.
Proof.
  intros Hk. rewrite used_call. unfold call_val. rewrite Hk. unfold used, pos.
  rewrite !fmap_app, !filter_app, fmap_cons, fmap_nil, filter_cons, filter_nil. cbn.
  rewrite (Permutation_app_comm (if decide (0 < v)%Z then [v] else [])), <- !app_assoc. done.
Qed.

Lemma used_tail ks m ms : used ks (m :: ms) = [] -> used ks ms = [].
Proof. intros H. pose proof (used_task ks m ms) as Hp. rewrite H in Hp. symmetry in Hp.
  by apply Permutation_nil_r, app_nil in Hp as [_ Hp]. Qed.

Lemma pos_elem x v : x ∈ pos v -> (0 < x)%Z.
Proof. unfold pos. case_decide; set_solver. Qed.

(** *** Frames *)

Lemma covered_mono x x' v need :
  g_pending x' !! v = g_pending x !! v -> finished (stream x) <= finished (stream x') ->
  covered x v need -> covered x' v need.
Proof. unfold covered. intros Hp Hf. case_match; [by rewrite Hp|lia]. Qed.

Lemma call_ok_mono x x' k :
  g_pending x' !! call_val k = g_pending x !! call_val k -> advances (stream x) (stream x') ->
  call_ok x k -> call_ok x' k.
Proof.
  unfold call_ok, call_val. intros Hp [Hi Hf]. destruct (at_ k); rewrite ?Hp; [|done|by apply covered_mono].
  intros (? & ? & ?). split_and!; [done|done|lia].
Qed.

Lemma advances_refl (w : W) : advances w w.
Proof. split; lia. Qed.
#[local] Hint Resolve advances_refl : core.

(** Calls and tasks stay, the stream may go on. *)
Lemma inv_frame n s s' ms :
  inv_with n s ms -> calls s' = calls s -> tasks (engine s') = tasks (engine s) ->
  works_ (engine s') = works_ (engine s) -> bodies (world_ (engine s')) = bodies (world_ (engine s)) ->
  g_pending (sync_of s') = g_pending (sync_of s) -> advances (stream (sync_of s)) (stream (sync_of s')) ->
  (0 <= counter (es (sync_of s')) <= Z.of_nat (S n))%Z ->
  (counter (es (sync_of s)) <= counter (es (sync_of s')) \/ used (calls s) ms = [])%Z ->
  (initialized (es (sync_of s')) = false -> initialized (es (sync_of s)) = false) ->
  inv_with (S n) s' ms.
Proof.
  intros [Hc Hu Hn Hp Hk Ht Hv Hw Hi Hb] Ec Et Ew Eb Ep Ha Hc' Hle Hin.
  split; rewrite ?Ec, ?Et, ?Ew, ?Eb, ?Ep; try done.
  - destruct Hle as [Hle| ->]; [|done]. eapply Forall_impl; [exact Hu|]. cbn. lia.
  - eapply Forall_impl; [exact Hk|]. intros k. apply call_ok_mono; [by rewrite Ep|done].
  - eapply Forall_impl; [exact Hv|]. intros m. apply covered_mono; [by rewrite Ep|apply Ha].
  - intros H. by apply Hi, Hin.
Qed.

(** *** Steps *)

Lemma used_elem v ks ms : v ∈ used ks ms <-> (0 < v)%Z /\ (v ∈ call_val <$> ks \/ v ∈ ms.*1).
Proof. unfold used. rewrite list_elem_of_filter, elem_of_app. done. Qed.

Lemma begin_inv n s act ms :
  (Z.of_nat n + 1 < 2 ^ 64)%Z -> inv_with n s ms -> inv_with (S n) (call_begin act s) ms.
Proof.
  intros Hn [Hc Hu Hd Hp Hk Ht Hv Hw Hi Hb]. unfold call_begin, next_event_value. set (x := sync_of s) in *.
  assert (forall v, v ∈ used (calls s) ms -> (v <= counter (es x))%Z) as Hle.
  { intros v Hin. by eapply Forall_forall in Hu. }
  destruct (negb _ && _) eqn:E.
  - rewrite u64_small by lia. apply andb_true_iff in E as [_ E]. unfold event_sync_available in E.
    set (k := mkCall _ _ act). pose proof (used_call [] k (calls s) ms) as Hperm. cbn [app] in Hperm.
    assert (pos (call_val k) = [counter (es x) + 1]%Z) as Hpos by (unfold pos; cbn; by rewrite decide_True by lia).
    rewrite Hpos in Hperm. assert (call_ok x k) as Hok.
    { cbn. split_and!; [lia| |done]. apply eq_None_not_Some. intros Hin%Hp%Hle. lia. }
    clearbody k. split; cbn; fold x; try done; [lia|..].
    + rewrite Hperm. constructor; [lia|]. eapply Forall_impl; [exact Hu|]. cbn. lia.
    + rewrite Hperm. constructor; [|done]. intros Hin%Hle. lia.
    + intros v Hin. rewrite Hperm. right. by apply Hp.
    + constructor; [by destruct k as [[]]|]. eapply Forall_impl; [exact Hk|]. intros k'. by apply call_ok_mono.
    + by rewrite E.
  - set (k := mkCall _ _ act). pose proof (used_call [] k (calls s) ms) as Hperm. cbn [app] in Hperm.
    change (used (k :: calls s) ms ≡ₚ used (calls s) ms) in Hperm.
    assert (advances (stream x) (stream (mps_stream_sync x))) as Ha.
    { split; cbn; [by rewrite synchronize_issues|apply synchronize_keeps]. }
    assert (call_ok (mps_stream_sync x) k) as Hok by apply synchronize_waits.
    clearbody k. split; cbn [calls engine]; try done; [cbn; fold x; lia|..].
    + by rewrite Hperm.
    + by rewrite Hperm.
    + intros v Hin. rewrite Hperm. by apply Hp.
    + constructor; [done|]. eapply Forall_impl; [exact Hk|]. intros k'. by apply call_ok_mono.
    + eapply Forall_impl; [exact Hv|]. intros m. apply covered_mono; [done|apply Ha].
    + intros H. apply Permutation_nil_r. rewrite Hperm. by rewrite Hi.
Qed.

(** A call goes on with the number it has. *)
Lemma replace_inv n s s' ms before k k' after :
  inv_with n s ms -> calls s = before ++ k :: after -> calls s' = before ++ k' :: after ->
  call_val k' = call_val k -> (0 < call_val k)%Z -> g_pending (sync_of s) !! call_val k = None ->
  tasks (engine s') = tasks (engine s) -> works_ (engine s') = works_ (engine s) ->
  bodies (world_ (engine s')) = bodies (world_ (engine s)) -> es (sync_of s') = es (sync_of s) ->
  (forall v, v <> call_val k -> g_pending (sync_of s') !! v = g_pending (sync_of s) !! v) ->
  advances (stream (sync_of s)) (stream (sync_of s')) -> call_ok (sync_of s') k' ->
  inv_with (S n) s' ms.
Proof.
  intros [Hc Hu Hd Hp Hk Ht Hv Hw Hi Hb] Ec Ec' Ek Hpos Hnone Et Ew Eb Ee Ep Ha Hok.
  assert (used (calls s') ms ≡ₚ used (calls s) ms) as Hperm by (by rewrite Ec, Ec', !used_call, Ek).
  assert (forall k2, k2 ∈ before ++ after -> call_val k2 <> call_val k) as Hne.
  { intros k2 Hin Heq. rewrite Ec, used_call in Hd. unfold pos in Hd. rewrite decide_True in Hd by done.
    apply NoDup_cons in Hd as [Hd _]. apply Hd, used_elem. split; [done|]. left. rewrite <- Heq. by apply list_elem_of_fmap_2. }
  split; rewrite ?Ee, ?Et, ?Ew, ?Eb, ?Hperm; try done; [lia|..].
  - intros v Hin. rewrite Hperm. destruct (decide (v = call_val k)) as [->|Hvk].
    + apply used_elem. split; [done|]. left. rewrite Ec, fmap_app, fmap_cons. set_solver.
    + apply Hp. by rewrite <- Ep.
  - rewrite Ec'. rewrite Ec in Hk. apply Forall_app in Hk as [Hk1 Hk2]. apply Forall_cons in Hk2 as [_ Hk2].
    apply Forall_app. split; [|constructor; [done|]]; apply Forall_forall; intros k2 Hin;
      (eapply call_ok_mono; [apply Ep, Hne; set_solver|done|by eapply Forall_forall in Hin]).
  - eapply Forall_impl; [exact Hv|]. intros m Hm. destruct (decide (m.1 = call_val k)) as [Heq|Hvk].
    + unfold covered in Hm. rewrite Heq, (proj2 (Z.ltb_lt _ _)) in Hm by done. destruct Hm as (e & Hm & _). congruence.
    + by eapply covered_mono; [apply Ep|apply Ha|].
  - intros H. apply Permutation_nil_r. rewrite Hperm. by rewrite Hi.
Qed.

Lemma tasks_push body cb p p' :
  submit_push body cb p = Some p' ->
  tasks p' = tasks p ++ [mkTask (length (works_ p)) body] /\ works_ p' = works_ p ++ [new_work cb] /\ world_ p' = world_ p.
Proof. unfold submit_push, tasks. case_match; [done|]. intros [= <-]. cbn. by destruct (pc p). Qed.

Lemma call_inv n s ms k before after p k' :
  inv_with n s ms -> calls s = before ++ k :: after -> call_step k (engine s) = Some (p, k') ->
  exists ms', inv_with (S n) (mkSys p (before ++ option_list k' ++ after)) ms'.
Proof.
  intros Hinv Ec. pose proof Hinv as [Hc Hu Hd Hp Hk Ht Hv Hw Hi Hb].
  assert (call_ok (sync_of s) k) as Hok by (rewrite Ec in Hk; decompose_Forall; done).
  assert ((0 < call_val k)%Z -> initialized (es (sync_of s)) = true) as Hinit.
  { intros Hpos. destruct (initialized _); [done|]. specialize (Hi eq_refl).
    assert (call_val k ∈ used (calls s) ms) as Hin; [|rewrite Hi in Hin; by apply not_elem_of_nil in Hin].
    apply used_elem. split; [done|]. left. rewrite Ec, fmap_app, fmap_cons. set_solver. }
  unfold call_step. fold (sync_of s). destruct k as [[v|v e|v] need act]; cbn in *.
  - destruct Hok as (Hpos & Hnone & Hneed). unfold commit_record, check_initialized, mbind, M_bind, getS. cbn.
    rewrite Hinit by done. cbn. unfold record_on_stream.
    pose proof (record_marks (stream (sync_of s))) as Hm. pose proof (record_issues (stream (sync_of s))) as Hri.
    pose proof (record_keeps (stream (sync_of s))) as Hrk.
    destruct (record_event (stream (sync_of s))) as [e w]. cbn in *. intros [= <- <-]. exists ms.
    eapply (replace_inv n s); try done. cbn. split_and!; [done|done|lia].
  - destruct Hok as (Hpos & Hnone & Hneed). intros [= <- <-]. exists ms. cbn.
    eapply (replace_inv n s); try done; cbn; unfold emplace; fold (sync_of s); rewrite Hnone.
    + intros v' Hne. by rewrite lookup_insert_ne.
    + unfold call_ok, covered. cbn. rewrite (proj2 (Z.ltb_lt _ _)) by done. exists e. by rewrite lookup_insert_eq.
  - destruct (submit_push _ _ _) as [p'|] eqn:E; [|done]. cbn. intros [= <- <-].
    apply tasks_push in E as (Et & Ew & Ewd). exists (ms ++ [(v, need)]).
    assert (used (before ++ after) (ms ++ [(v, need)]) ≡ₚ used (calls s) ms) as Hperm by (rewrite Ec; by apply used_push).
    split; unfold sync_of in *; cbn; rewrite ?Ewd, ?Hperm; try done; [lia|..].
    + intros v' Hin. rewrite Hperm. by apply Hp.
    + rewrite Ec in Hk. decompose_Forall; done.
    + rewrite Et. apply Forall2_app; [done|]. repeat constructor. by exists act.
    + apply Forall_app. by repeat constructor.
    + rewrite Ew. apply Forall_app. by repeat constructor.
    + intros H. apply Permutation_nil_r. rewrite Hperm. by rewrite Hi.
Qed.

(** Running a task of this form changes the world like its body. *)
Lemma run_task_world (t : task (World := world)) w (ws : list (WorkMCCL (World := world))) :
  Forall (fun k => sync_cb_ k = None) ws ->
  (run_task t (w, ws)).1 = (t_body t w).1 /\ Forall (fun k => sync_cb_ k = None) (run_task t (w, ws)).2.
Proof.
  intros Hws. unfold run_task. destruct (t_body t w) as [w' [e|]]; cbn.
  - split; [done|]. apply Forall_alter; [done|]. intros k Hk Hk'. unfold finishWithException. by case_match.
  - destruct (ws !! t_work t) as [k|] eqn:E; [|done]. unfold work_finish.
    pose proof (Forall_lookup_1 _ _ _ _ Hws E) as Hk. rewrite Hk. cbn. split; [done|].
    apply Forall_insert; [done|]. by destruct (completed_ k).
Qed.

(** The body finds the work done, and its number is free again. *)
Lemma synced_body_spec v need act w :
  covered (sync w) v need ->
  let w' := (synced_body v need act w).1 in
  (exists f, bodies w' = bodies w ++ [(need, f)] /\ need <= f) /\
  es (sync w') = es (sync w) /\ advances (stream (sync w)) (stream (sync w')) /\
  (forall v', v' ∉ pos v -> g_pending (sync w') !! v' = g_pending (sync w) !! v') /\
  (forall v', v' ∈ pos v -> g_pending (sync w') !! v' = None).
Proof.
  unfold covered, synced_body, wait_for_mps, pos. intros Hcov. destruct (Z.ltb_spec 0 v) as [Hv|Hv].
  - rewrite decide_True by done. destruct Hcov as (e & He & Hm). rewrite He. destruct (act (user w)) as [x err]. cbn.
    split_and!.
    + eexists. split; [done|]. etransitivity; [exact Hm|apply event_waits].
    + done.
    + split; [by rewrite event_issues|apply event_keeps].
    + intros v' Hne%not_elem_of_cons. rewrite lookup_delete_ne; [done|naive_solver].
    + intros v' ->%list_elem_of_singleton. apply lookup_delete_eq.
  - rewrite decide_False by lia. destruct (act (user w)) as [x err]. cbn. split_and!; try done; [|set_solver].
    by eexists.
Qed.

Lemma run_inv n s ms t p :
  inv_with n s ms -> pc (engine s) = W_run t -> worker_step (engine s) = Some p ->
  exists ms', inv_with (S n) (mkSys p (calls s)) ms'.
Proof.
  intros [Hc Hu Hd Hp Hk Ht Hv Hw Hi Hb] Epc Hstep. unfold worker_step in Hstep. rewrite Epc in Hstep.
  unfold tasks in Ht. rewrite Epc in Ht. apply Forall2_cons_inv_l in Ht as ([v need] & ms' & [act Hact] & Ht & ->).
  apply Forall_cons in Hv as [Hcov Hv]. cbn [fst snd] in Hcov, Hact.
  destruct (run_task_world t (world_ (engine s)) (works_ (engine s)) Hw) as [Hwd Hws].
  destruct (synced_body_spec v need act (world_ (engine s)) Hcov) as ((f & Hbs & Hf) & Hes & Ha & Hother & Hself).
  destruct (run_task t _) as [w ws]. cbn in Hstep, Hwd, Hws. injection Hstep as <-. rewrite Hact in Hwd. rewrite <- Hwd in *. clear Hwd.
  rewrite used_task in Hu, Hd. cbn in Hu, Hd. apply Forall_app in Hu as [_ Hu]. apply NoDup_app in Hd as (_ & Hd1 & Hd2).
  assert (forall x, ((0 < x)%Z -> x ∈ used (calls s) ms') -> g_pending (sync w) !! x = g_pending (sync_of s) !! x) as Hsame.
  { intros x Hx. apply Hother. intros Hin. apply (Hd1 _ Hin), Hx. by eapply pos_elem. }
  exists ms'. split; unfold sync_of in *; cbn; rewrite ?Hes; try done; [lia|..].
  - intros v' Hin. destruct (decide (v' ∈ pos v)) as [Hin'|Hin']; [rewrite Hself in Hin by done; by destruct Hin|].
    rewrite Hother in Hin by done. apply Hp in Hin. rewrite used_task in Hin. set_solver.
  - apply Forall_forall. intros k Hin. eapply call_ok_mono; [|exact Ha|by apply (proj1 (Forall_forall _ _) Hk)].
    apply Hsame. intros Hpos. apply used_elem. split; [done|]. left. by apply list_elem_of_fmap_2.
  - apply Forall_forall. intros m Hin. eapply covered_mono; [|apply Ha|by apply (proj1 (Forall_forall _ _) Hv)].
    apply Hsame. intros Hpos. apply used_elem. split; [done|]. right. by apply list_elem_of_fmap_2.
  - intros H. by eapply used_tail, Hi.
  - rewrite Hbs. apply Forall_app. by repeat constructor.
Qed.

(** A step of the engine that runs no task. *)
#[local] Ltac solve_engine_frame Hframe :=
  repeat (case_match; simplify_eq/=); apply Hframe; unfold tasks; cbn;
  repeat match goal with H : pc _ = _ |- _ => rewrite H; clear H end; try done;
  match goal with H : q_ _ = _ |- _ => by rewrite H end.

Lemma engine_inv n s ms e p :
  inv_with n s ms -> not_submit e = true -> engine_step e (engine s) = Some p ->
  exists ms', inv_with (S n) (mkSys p (calls s)) ms'.
Proof.
  intros Hinv Hns Hstep.
  assert (tasks p = tasks (engine s) -> works_ p = works_ (engine s) -> world_ p = world_ (engine s) ->
    exists ms', inv_with (S n) (mkSys p (calls s)) ms') as Hframe.
  { intros Ht Hw Hwd. exists ms. pose proof (iv_counter _ _ _ Hinv).
    eapply inv_frame; unfold sync_of in *; cbn; rewrite ?Hwd; eauto; lia. }
  destruct e; cbn in Hstep; try done;
    [destruct (pc (engine s)) as [| | | | |t|] eqn:Epc; [..|by eapply run_inv|]; unfold worker_step in Hstep|
     unfold submit_notify, wake in Hstep|unfold shutdown_flag in Hstep|unfold shutdown_notify, wake in Hstep|
     unfold shutdown_join in Hstep|]; solve_engine_frame Hframe.
Qed.

Lemma init_inv n s ms device queue event1 event2 :
  inv_with n s ms ->
  inv_with (S n) (mkSys (set_sync (set_es (event_sync_init device queue event1 event2 (es (sync_of s))) (sync_of s))
                    (engine s)) (calls s)) ms.
Proof.
  intros Hinv. pose proof (iv_counter _ _ _ Hinv). pose proof (iv_init _ _ _ Hinv) as Hi.
  unfold event_sync_init. destruct (initialized (es (sync_of s))) eqn:E; eapply inv_frame; try done; cbn;
    [lia|by left|repeat case_match; cbn; lia|right; by apply Hi].
Qed.

Lemma sys_step_inv n s s' :
  (Z.of_nat n + 1 < 2 ^ 64)%Z -> (exists ms, inv_with n s ms) -> sys_step s s' -> exists ms, inv_with (S n) s' ms.
Proof.
  intros Hn [ms Hinv] Hstep. destruct Hstep as [s w Ha|s d q e1 e2|s act|s k before after p k' Ec Hc|s e p Hns He].
  - exists ms. pose proof (iv_counter _ _ _ Hinv). eapply inv_frame; eauto; cbn; lia.
  - exists ms. by apply init_inv.
  - exists ms. by apply begin_inv.
  - by eapply call_inv.
  - by eapply engine_inv.
Qed.

Lemma sys_reachable_inv n w x s :
  (Z.of_nat n < 2 ^ 64)%Z -> nsteps sys_step n (sys_new w x) s -> exists ms, inv_with n s ms.
Proof.
  revert s. induction n as [|n IH]; intros s Hn Hs.
  - inversion Hs; subst. exists []. split; cbn; try done; try lia; try constructor. intros v [? H]. by rewrite lookup_empty in H.
  - apply nsteps_inv_r in Hs as (s1 & Hs & Hstep). eapply sys_step_inv; [|apply IH; [lia|exact Hs]|exact Hstep]. lia.
Qed.
End System.

(** ** Properties *)

(** C10: No collective reads a tensor too early.  In every interleaving of the threads
    that call [async_submit_], the engine, PyTorch and the device, with or
    without event synchronisation, whenever the body of a task starts, the
    device has finished all work that had been issued when [async_submit_] was
    called for it (up to the wrap-around of the 64-bit event counter). *)
Theorem bodies_after_stream_work {W Ev X} `{!Mps W Ev, !MpsLaws W Ev} env (w : W) (x : X) n s :
  (Z.of_nat n < 2 ^ 64)%Z -> nsteps (sys_step env) n (sys_new w x) s ->
  Forall (fun b => b.1 <= b.2) (bodies (world_ (engine s))).
Proof. intros Hn Hs. destruct (sys_reachable_inv env n w x s Hn Hs) as [ms Hinv]. by apply (iv_bodies _ _ _ Hinv). Qed.

(** No event is left behind: when no call is under way and no task is waiting,
    the map of pending events is empty. *)
Theorem pending_events_drained {W Ev X} `{!Mps W Ev, !MpsLaws W Ev} env (w : W) (x : X) n s :
  (Z.of_nat n < 2 ^ 64)%Z -> nsteps (sys_step env) n (sys_new w x) s ->
  calls s = [] -> tasks (engine s) = [] -> g_pending (sync_of s) = ∅.
Proof.
  intros Hn Hs Hc Ht. destruct (sys_reachable_inv env n w x s Hn Hs) as [ms Hinv].
  pose proof (iv_tasks _ _ _ Hinv) as Hts. rewrite Ht in Hts. apply Forall2_nil_inv_l in Hts as ->.
  apply map_eq. intros v. rewrite lookup_empty. apply eq_None_not_Some. intros Hv%(iv_pending _ _ _ Hinv).
  rewrite Hc in Hv. by apply not_elem_of_nil in Hv.
Qed.

(** [mps_event_sync], on which the collectives of the calling thread rely, waits
    for everything issued before it on both paths and leaves the pending events
    of the others alone. *)
Theorem mps_event_sync_waits {W Ev} `{!Mps W Ev, !MpsLaws W Ev} env (s : Sync W Ev) :
  (0 <= counter (es s) < 2 ^ 64 - 1)%Z -> g_pending s !! (counter (es s) + 1)%Z = None ->
  exists s', mps_event_sync env s = (Ok tt, s') /\ issued (stream s) <= finished (stream s') /\ g_pending s' = g_pending s.
Proof.
  intros Hc Hp. unfold mps_event_sync, mps_event_sync_nonblocking, mbind, M_bind, getS.
  destruct (negb _ && _) eqn:E.
  - apply andb_true_iff in E as [_ E]. unfold event_sync_available in E.
    unfold fetch_event_value, next_event_value. rewrite u64_small by lia.
    unfold commit_mps_and_signal, commit_record, check_initialized, mbind, M_bind, getS, DISTRO_CHECK. cbn. rewrite E. cbn.
    unfold record_on_stream. cbn. pose proof (record_marks (stream s)) as Hm.
    destruct (record_event (stream s)) as [e w]. cbn in *. rewrite (proj2 (Z.ltb_lt _ _)) by lia.
    unfold emplace, modS. rewrite Hp. cbn. unfold wait_for_mps. cbn. rewrite lookup_insert_eq. eexists. split; [done|]. cbn.
    split; [rewrite <- Hm; apply event_waits|]. by apply delete_insert_id.
  - cbn. eexists. split; [done|]. split; [apply synchronize_waits|done].
Qed.

(** *** Spinning *)

(** The delay of the [j]-th sleep. *)
Definition spin_delay (j : nat) : Z := Nat.iter j next_delay 10%Z.

(** The clock goes on by at least the delay during a sleep. *)
Definition sleeps (clock : nat -> Z) : Prop := forall j, (clock j + spin_delay j <= clock (S j))%Z.

Lemma spin_delay_long j : spin_delay (6 + j) = 640%Z.
Proof.
  induction j as [|j IH]; [done|]. rewrite Nat.add_succ_r. change (next_delay (spin_delay (6 + j)) = 640%Z). by rewrite IH.
Qed.

Lemma spin_delay_pos j : (10 <= spin_delay j)%Z.
Proof.
  induction j as [|j IH]; [done|]. change (10 <= next_delay (spin_delay j))%Z. unfold next_delay. case_match; lia.
Qed.

Section SpinLemmas.
Context (reads clock : nat -> Z) (target : Z).

Lemma clock_mono i j : sleeps clock -> i <= j -> (clock i <= clock j)%Z.
Proof.
  intros Hc. induction 1 as [|j _ IH]; [done|]. specialize (Hc j). pose proof (spin_delay_pos j). lia.
Qed.

Lemma clock_late j : sleeps clock -> (clock 0%nat + 640 * Z.of_nat j <= clock (6 + j))%Z.
Proof.
  intros Hc. induction j as [|j IH].
  - pose proof (clock_mono 0 6 Hc). cbn. lia.
  - specialize (Hc (6 + j)). rewrite spin_delay_long in Hc. rewrite Nat.add_succ_r. lia.
Qed.

Lemma spins_spec k i :
  (exists m, spins reads k target i = (true, m) /\ exists i', i <= i' < i + k /\ (target <= reads i')%Z) \/
  (spins reads k target i = (false, i + k) /\ forall i', i <= i' < i + k -> (reads i' < target)%Z).
Proof.
  revert i. induction k as [|k IH]; intros i; cbn.
  - right. split; [f_equal; lia|lia].
  - destruct (Z.leb_spec target (reads i)) as [Hle|Hlt].
    + left. exists (S i). split; [done|]. exists i. split; [lia|done].
    + destruct (IH (S i)) as [(m & -> & i' & Hi & Hr)|[-> Hr]].
      * left. exists m. split; [done|]. exists i'. split; [lia|done].
      * right. split; [f_equal; lia|]. intros i' Hi. destruct (decide (i' = i)) as [->|Hne]; [done|apply Hr; lia].
Qed.

(** What the loop reads: number [i], and number [i + k] if the clock was before
    the deadline after the [k]-th sleep. *)
Lemma sleep_loop_spec fuel deadline delay i j :
  sleeps clock -> (exists m, j <= m < j + fuel /\ (deadline <= clock m)%Z) ->
  (sleep_loop reads clock fuel target deadline delay i j = Some (Ok tt) /\
     exists k, (target <= reads (i + k))%Z /\ (k = 0 \/ (clock (j + k - 1) < deadline)%Z)) \/
  ((exists msg, sleep_loop reads clock fuel target deadline delay i j = Some (Throw (MCCLError msg))) /\
     forall k, (k = 0 \/ (clock (j + k - 1) < deadline)%Z) -> (reads (i + k) < target)%Z).
Proof.
  intros Hc. revert delay i j. induction fuel as [|fuel IH]; intros delay i j (m & Hm & Hd); [lia|]. cbn.
  destruct (Z.ltb_spec (reads i) target) as [Hlt|Hge].
  2:{ left. split; [done|]. exists 0. rewrite Nat.add_0_r. by split; [|left]. }
  destruct (Z.ltb_spec (clock j) deadline) as [Hj|Hj].
  - destruct (IH (next_delay delay) (S i) (S j)) as [(-> & k & Hk & Hk')|[Hthrow Hall]].
    + exists m. split; [|done]. destruct (decide (m = j)) as [->|]; lia.
    + left. split; [done|]. exists (S k). rewrite Nat.add_succ_r. split; [done|]. right.
      destruct Hk' as [->|Hk']; [by rewrite Nat.add_sub|]. by replace (j + S k - 1) with (S j + k - 1) by lia.
    + right. split; [done|]. intros [|k] Hk; [by rewrite Nat.add_0_r|]. rewrite Nat.add_succ_r. apply Hall.
      destruct k; [by left|right]. destruct Hk as [|Hk]; [done|]. by replace (S j + S k - 1) with (j + S (S k) - 1) by lia.
  - right. split; [by eexists|]. intros [|k] [Hk|Hk]; rewrite ?Nat.add_0_r; try done.
    + pose proof (clock_mono j (j + S k - 1) Hc). lia.
Qed.
End SpinLemmas.

(** Enough for every clock: from the seventh on, a sleep takes 640
    microseconds. *)
Definition spin_fuel : nat := Z.to_nat 46882.

(** [spin_wait_event] always ends.  It returns when one of its readings has
    reached the target: the 2200 readings of the spin loops, one more, and one
    after each sleep that ended within 30 seconds; otherwise it throws. *)
Theorem spin_wait_event_ends (reads clock : nat -> Z) target fuel :
  sleeps clock -> spin_fuel <= fuel ->
  let read i := i <= 2200 \/ (clock (i - 2200)%nat < clock 0%nat + TIMEOUT)%Z in
  (spin_wait_event reads clock fuel target = Some (Ok tt) /\ exists i, read i /\ (target <= reads i)%Z) \/
  ((exists msg, spin_wait_event reads clock fuel target = Some (Throw (MCCLError msg))) /\
   forall i, read i -> (reads i < target)%Z).
Proof.
  intros Hc Hfuel read. unfold spin_wait_event, FAST_SPINS, YIELD_SPINS.
  destruct (spins_spec reads target 200 0) as [(m & -> & i & Hi & Hr)|[-> H1]].
  { left. split; [done|]. exists i. split; [left; lia|done]. }
  destruct (spins_spec reads target 2000 (0 + 200)) as [(m & -> & i & Hi & Hr)|[-> H2]].
  { left. split; [done|]. exists i. split; [left; lia|done]. }
  destruct (sleep_loop_spec reads clock target fuel (clock 0%nat + TIMEOUT)%Z 10 (0 + 200 + 2000) 1 Hc) as [(-> & k & Hk & Hk')|[Hthrow Hall]].
  - exists (6 + Z.to_nat 46875). unfold spin_fuel in Hfuel. split; [lia|].
    pose proof (clock_late clock (Z.to_nat 46875) Hc). unfold TIMEOUT. lia.
  - left. split; [done|]. exists (2200 + k). split; [|done]. unfold read.
    destruct Hk' as [->|Hk']; [by left|right]. by replace (2200 + k - 2200) with (1 + k - 1) by lia.
  - right. split; [done|]. intros i Hi. destruct (decide (i < 200)); [apply H1; lia|].
    destruct (decide (i < 2200)); [apply H2; lia|]. replace i with (0 + 200 + 2000 + (i - 2200)) by lia. apply Hall.
    destruct Hi as [Hi|Hi]; [left; lia|right]. by replace (1 + (i - 2200) - 1) with (i - 2200) by lia.
Qed.

(** ** A stream, and an execution *)

(** A stream as the numbers of the work items issued and finished. *)
#[local] Instance count_mps : Mps (nat * nat) nat := {
  synchronize w := (w.1, w.1 `max` w.2);
  record_event w := (w.1, w);
  event_synchronize e w := (w.1, e `max` w.2)
}.
#[local] Instance count_mps_laws : MpsLaws (nat * nat) nat.
Proof. refine {| issued := fst; finished := snd; mark := id |}; intros; cbn; unfold id; lia. Defined.

(** Three items are issued, a call submits its body, one more item is issued and
    the engine runs the body: it has waited for three items. *)
Lemma demo_execution :
  exists s, nsteps (sys_step (X := nat) None) 13 (sys_new (0, 0) 0) s /\
    bodies (world_ (engine s)) = [(3, 3)] /\ calls s = [] /\ tasks (engine s) = [].
Proof.
  eexists. split.
  - eapply nsteps_l; [apply (Sys_init _ _ true true true true)|]; lazy.
    eapply nsteps_l; [apply (Sys_stream _ _ (3, 0)); split; cbn; lia|]; lazy.
    eapply nsteps_l; [apply (Sys_begin _ _ (fun x => (S x, None)))|]; lazy.
    do 3 (eapply nsteps_l; [eapply (Sys_call _ _ _ [] []); reflexivity|]; lazy).
    eapply nsteps_l; [apply (Sys_stream _ _ (4, 1)); split; cbn; lia|]; lazy.
    eapply nsteps_l; [apply (Sys_engine _ _ E_notify); reflexivity|]; lazy.
    do 5 (eapply nsteps_l; [apply (Sys_engine _ _ E_worker); reflexivity|]; lazy). apply nsteps_O.
  - split_and!; reflexivity.
Qed.

Lemma bodies_after_stream_work_witness :
  exists s, nsteps (sys_step (X := nat) None) 13 (sys_new (0, 0) 0) s /\
    bodies (world_ (engine s)) = [(3, 3)] /\ Forall (fun b => b.1 <= b.2) (bodies (world_ (engine s))).
Proof.
  destruct demo_execution as (s & Hs & Hb & _). exists s. split; [exact Hs|]. split; [exact Hb|].
  apply (bodies_after_stream_work None (0, 0) 0 13); [lia|exact Hs].
Defined.

Lemma pending_events_drained_witness :
  exists s, nsteps (sys_step (X := nat) None) 13 (sys_new (0, 0) 0) s /\ g_pending (sync_of s) = ∅.
Proof.
  destruct demo_execution as (s & Hs & _ & Hc & Ht). exists s. split; [exact Hs|].
  apply (pending_events_drained None (0, 0) 0 13); [lia|exact Hs|exact Hc|exact Ht].
Defined.

Lemma mps_event_sync_waits_witness :
  exists s', mps_event_sync None (mkSync (mkEventState true true (Some 0%Z) (Some 0%Z) 4 true) {[2%Z := 1]} (7, 3)) = (Ok tt, s') /\
    stream s' = (7, 7) /\ g_pending s' = {[2%Z := 1]}.
Proof.
  destruct (mps_event_sync_waits None (mkSync (mkEventState true true (Some 0%Z) (Some 0%Z) 4 true) {[2%Z := 1]} (7, 3)))
    as (s' & E & _ & Hp); [cbn; lia|reflexivity|].
  exists s'. split; [exact E|]. split; [|exact Hp]. vm_compute in E. injection E as <-. reflexivity.
Defined.

(** The event is signalled while the thread sleeps for the second time, or
    never. *)
Lemma spin_wait_event_ends_witness :
  let clock j := (1000 * Z.of_nat j)%Z in
  spin_wait_event (fun i => if (2202 <=? i)%nat then 5%Z else 0%Z) clock spin_fuel 5 = Some (Ok tt) /\
  exists msg, spin_wait_event (fun _ => 0%Z) clock spin_fuel 5 = Some (Throw (MCCLError msg)).
Proof.
  assert (sleeps (fun j => 1000 * Z.of_nat j)%Z) as Hc.
  { intros j. assert (spin_delay j <= 1000)%Z; [|lia]. destruct (decide (j < 6)) as [Hj|Hj].
    - do 6 (destruct j as [|j]; [done|]). lia.
    - replace j with (6 + (j - 6)) by lia. rewrite spin_delay_long. done. }
  split.
  - destruct (spin_wait_event_ends (fun i => if (2202 <=? i)%nat then 5%Z else 0%Z) _ 5 spin_fuel Hc) as [[H _]|[_ H]]; [done|exact H|].
    specialize (H 2202). rewrite Nat.leb_refl in H. exfalso. enough (5 < 5)%Z by lia. apply H. right. done.
  - destruct (spin_wait_event_ends (fun _ => 0%Z) _ 5 spin_fuel Hc) as [[_ (i & _ & H)]|[H _]]; [done|lia|exact H].
Defined.
