(* ===== verification/ProgressEngine.v ===== *)
(** The bounded engine of src/csrc/runtime/ProgressEngine.cpp: one worker
    thread, a queue of at most [max_depth_] operations, submitters that wait
    while it is full, and the thread that calls [start] and [stop].

    A step relation over all threads.  Between a [lock] and the matching
    [unlock] or [wait] nothing else touches the queue, and unlike in
    [Progress] the flag [stop_requested_] is set under the mutex: evaluating
    the predicate of a wait and going to sleep is one step.  Notifications are
    steps of their own, after the mutex is released, and [notify_one] wakes an
    arbitrary waiter. *)
From stdpp Require Import relations.
From S2P Require Import Prelude.

Section Engine.
(** What the callables act on, and the call of [metrics_->op_execute_start]
    with the sequence number (no effect when [metrics_] is null). *)
Context {World : Type} (metrics_ : option (Z -> World -> World)).

(** A C++ callable: it changes the world and returns or throws. *)
Abbreviation callable := (World -> World * option error).

Record EngineOp := mkOp {
  seq_num : Z;
  execute : callable;
  on_complete : option callable;
  on_error : option (error -> callable);
}.

(** The [try] around [on_error]: an exception is swallowed. *)
Definition call_on_error (op : EngineOp) (e : error) (w : World) : World :=
  match on_error op with Some f => (f e w).1 | None => w end.

(** The body of [worker_loop] for one operation, after the queue is unlocked. *)
Definition run_op (op : EngineOp) (w : World) : World :=
  let w := match metrics_ with Some m => m (seq_num op) w | None => w end in
  match execute op w with
  | (w1, None) =>
      match on_complete op with
      | None => w1
      | Some f =>
          match f w1 with
          | (w2, None) => w2
          | (w2, Some e) => call_on_error op e w2
          end
      end
  | (w1, Some e) => call_on_error op e w1
  end.

(** Where a call of [submit] is. *)
Inductive sub_pc :=
  | S_start (f : callable) (c : option callable) (g : option (error -> callable))
  | S_lock (op : EngineOp)          (* the number is assigned; about to lock or woken *)
  | S_wait (op : EngineOp)          (* waiting on not_full_ *)
  | S_notify (seq : Z)              (* pushed; before not_empty_.notify_one *)
  | S_done (r : result Z).

Inductive worker_pc :=
  | W_none                          (* never started *)
  | W_lock                          (* top of the loop, or woken *)
  | W_wait                          (* waiting on not_empty_ *)
  | W_notify (op : EngineOp)        (* popped; before not_full_.notify_one *)
  | W_exec (op : EngineOp)
  | W_exit.

(** The thread that owns the engine runs a script of [start] and [stop]. *)
Inductive ctl_op := Start | Stop.
Inductive ctl_pc :=
  | C_idle
  | C_notify_empty                  (* flag set; before not_empty_.notify_one *)
  | C_notify_full                   (* before not_full_.notify_all *)
  | C_join.

Record ProgressEngine := mkEngine {
  max_depth_ : nat;
  running_ : bool;
  stop_requested_ : bool;
  seq_counter_ : Z;
  queue_ : list EngineOp;
  worker : worker_pc;
  subs : list sub_pc;
  ctl : ctl_pc;
  script : list ctl_op;
  world_ : World;
  accepted : list EngineOp;         (* every operation pushed so far, in order *)
  executed : list EngineOp;         (* every operation run so far, in order *)
}.

(** The arguments of a call of [submit]. *)
Abbreviation call := (callable * option callable * option (error -> callable))%type.

Definition call_pc (c : call) : sub_pc := let '(f, g, h) := c in S_start f g h.

(** The constructor checks [max_depth_ > 0]; [calls] are the submissions to
    come, each by a thread of its own, in any order. *)
Definition new_engine (depth : nat) (calls : list call) (sc : list ctl_op) (w : World)
  : result ProgressEngine :=
  if Nat.eqb depth 0 then Throw (MCCLError "max_queue_depth must be > 0")
  else Ok (mkEngine depth false false 0 [] W_none (call_pc <$> calls) C_idle sc w [] []).

Definition set_worker (p : worker_pc) (s : ProgressEngine) : ProgressEngine :=
  mkEngine (max_depth_ s) (running_ s) (stop_requested_ s) (seq_counter_ s) (queue_ s) p
    (subs s) (ctl s) (script s) (world_ s) (accepted s) (executed s).
Definition set_subs (l : list sub_pc) (s : ProgressEngine) : ProgressEngine :=
  mkEngine (max_depth_ s) (running_ s) (stop_requested_ s) (seq_counter_ s) (queue_ s) (worker s)
    l (ctl s) (script s) (world_ s) (accepted s) (executed s).
Definition set_sub (i : nat) (p : sub_pc) (s : ProgressEngine) : ProgressEngine :=
  set_subs (<[i := p]> (subs s)) s.
Definition set_ctl (c : ctl_pc) (sc : list ctl_op) (s : ProgressEngine) : ProgressEngine :=
  mkEngine (max_depth_ s) (running_ s) (stop_requested_ s) (seq_counter_ s) (queue_ s) (worker s)
    (subs s) c sc (world_ s) (accepted s) (executed s).
Definition set_flags (r st : bool) (s : ProgressEngine) : ProgressEngine :=
  mkEngine (max_depth_ s) r st (seq_counter_ s) (queue_ s) (worker s)
    (subs s) (ctl s) (script s) (world_ s) (accepted s) (executed s).
Definition set_seq (z : Z) (s : ProgressEngine) : ProgressEngine :=
  mkEngine (max_depth_ s) (running_ s) (stop_requested_ s) z (queue_ s) (worker s)
    (subs s) (ctl s) (script s) (world_ s) (accepted s) (executed s).
Definition push (op : EngineOp) (s : ProgressEngine) : ProgressEngine :=
  mkEngine (max_depth_ s) (running_ s) (stop_requested_ s) (seq_counter_ s) (queue_ s ++ [op])
    (worker s) (subs s) (ctl s) (script s) (world_ s) (accepted s ++ [op]) (executed s).
Definition set_queue (q : list EngineOp) (s : ProgressEngine) : ProgressEngine :=
  mkEngine (max_depth_ s) (running_ s) (stop_requested_ s) (seq_counter_ s) q (worker s)
    (subs s) (ctl s) (script s) (world_ s) (accepted s) (executed s).
Definition log_run (op : EngineOp) (s : ProgressEngine) : ProgressEngine :=
  mkEngine (max_depth_ s) (running_ s) (stop_requested_ s) (seq_counter_ s) (queue_ s) (worker s)
    (subs s) (ctl s) (script s) (run_op op (world_ s)) (accepted s) (executed s ++ [op]).

Definition queue_depth (s : ProgressEngine) : nat := length (queue_ s).
Definition next_seq (s : ProgressEngine) : Z := seq_counter_ s.

(** [not_empty_.notify_one]: only the worker waits on it. *)
Definition wake_worker (s : ProgressEngine) : ProgressEngine :=
  match worker s with W_wait => set_worker W_lock s | _ => s end.

(** A woken submitter evaluates the predicate of its wait again. *)
Definition woken (p : sub_pc) : sub_pc :=
  match p with S_wait op => S_lock op | _ => p end.

(** [worker_loop]: the steps that are not notifications.  [None]: no step. *)
Definition worker_step (s : ProgressEngine) : option ProgressEngine :=
  match worker s with
  | W_lock =>
      match queue_ s with
      | [] => if stop_requested_ s then Some (set_worker W_exit s) else Some (set_worker W_wait s)
      | op :: q => Some (set_worker (W_notify op) (set_queue q s))
      end
  | W_exec op => Some (set_worker W_lock (log_run op s))
  | _ => None
  end.

(** [submit] of the caller [i]. *)
Definition submit_step (i : nat) (s : ProgressEngine) : option ProgressEngine :=
  match subs s !! i with
  | Some (S_start f c g) =>
      if running_ s then
        Some (set_sub i (S_lock (mkOp (seq_counter_ s) f c g)) (set_seq (u32 (seq_counter_ s + 1)) s))
      else Some (set_sub i (S_done (Throw (MCCLError "ProgressEngine is not running"))) s)
  | Some (S_lock op) =>
      if Nat.ltb (length (queue_ s)) (max_depth_ s) || stop_requested_ s then
        if stop_requested_ s then
          Some (set_sub i (S_done (Throw (MCCLError "ProgressEngine shutting down, cannot submit"))) s)
        else Some (set_sub i (S_notify (seq_num op)) (push op s))
      else Some (set_sub i (S_wait op) s)
  | Some (S_notify seq) => Some (set_sub i (S_done (Ok seq)) (wake_worker s))
  | _ => None
  end.

(** [start] and [stop]. *)
Definition ctl_step (s : ProgressEngine) : option ProgressEngine :=
  match ctl s, script s with
  | C_idle, Start :: sc =>
      if running_ s then Some (set_ctl C_idle sc s)
      else Some (set_ctl C_idle sc (set_worker W_lock (set_flags true false s)))
  | C_idle, Stop :: sc =>
      if running_ s then Some (set_ctl C_notify_empty sc (set_flags true true s))
      else Some (set_ctl C_idle sc s)
  | C_notify_empty, sc => Some (set_ctl C_notify_full sc (wake_worker s))
  | C_notify_full, sc => Some (set_ctl C_join sc (set_subs (woken <$> subs s) s))
  | C_join, sc =>
      match worker s with
      | W_exit => Some (set_ctl C_idle sc (set_flags false (stop_requested_ s) s))
      | _ => None
      end
  | C_idle, [] => None
  end.

(** [not_full_.notify_one] of the worker: some waiter wakes, or nobody waits. *)
Inductive notify_full : ProgressEngine -> ProgressEngine -> Prop :=
  | notify_waiter s op i o :
      worker s = W_notify op -> subs s !! i = Some (S_wait o) ->
      notify_full s (set_worker (W_exec op) (set_sub i (S_lock o) s))
  | notify_nobody s op :
      worker s = W_notify op -> (forall i o, subs s !! i <> Some (S_wait o)) ->
      notify_full s (set_worker (W_exec op) s).

Inductive step : ProgressEngine -> ProgressEngine -> Prop :=
  | step_worker s s' : worker_step s = Some s' -> step s s'
  | step_notify s s' : notify_full s s' -> step s s'
  | step_submit i s s' : submit_step i s = Some s' -> step s s'
  | step_ctl s s' : ctl_step s = Some s' -> step s s'.

(** ** Counting submitters *)

Definition sum_of (f : sub_pc -> nat) (l : list sub_pc) : nat := foldr (fun p n => f p + n) 0 l.

Lemma sum_of_insert f l i p q :
  l !! i = Some p -> sum_of f (<[i := q]> l) + f p = sum_of f l + f q.
Proof.
  revert i; induction l as [|x l IH]; intros [|i] E; simplify_eq/=; [lia|].
  specialize (IH i E). lia.
Qed.

Lemma sum_of_pos f l i p : l !! i = Some p -> f p <= sum_of f l.
Proof.
  revert i; induction l as [|x l IH]; intros [|i] E; simplify_eq/=; [lia|].
  specialize (IH i E). lia.
Qed.

Lemma sum_of_zero f l : sum_of f l = 0 <-> (forall i p, l !! i = Some p -> f p = 0).
Proof.
  split; [intros H0 i p E; pose proof (sum_of_pos f l i p E); lia|].
  induction l as [|x l IH]; simpl; intros Hz; [done|].
  rewrite (Hz 0 x) by done. rewrite IH; [done|]. intros i p. apply (Hz (S i)).
Qed.

Lemma sum_of_le f g k l : (forall p, f p <= g p + k) -> sum_of f l <= sum_of g l + k * length l.
Proof. intros Hp. induction l as [|x l IH]; simpl; [lia|]. specialize (Hp x). lia. Qed.

Lemma sum_of_fmap f h l : sum_of f (h <$> l) = sum_of (fun p => f (h p)) l.
Proof. induction l as [|x l IH]; [done|]. csimpl. by rewrite IH. Qed.

Lemma sum_of_ext f g l : (forall p, f p = g p) -> sum_of f l = sum_of g l.
Proof. intros Hp. induction l as [|x l IH]; simpl; [done|]. by rewrite IH, Hp. Qed.

Definition is_lock (p : sub_pc) : nat := match p with S_lock _ => 1 | _ => 0 end.
Definition is_wait (p : sub_pc) : nat := match p with S_wait _ => 1 | _ => 0 end.
Definition is_notify (p : sub_pc) : nat := match p with S_notify _ => 1 | _ => 0 end.
Definition is_ok_sub (p : sub_pc) : nat :=
  match p with S_notify _ | S_done (Ok _) => 1 | _ => 0 end.

Abbreviation nlock s := (sum_of is_lock (subs s)).
Abbreviation nwait s := (sum_of is_wait (subs s)).
Abbreviation nnotify s := (sum_of is_notify (subs s)).

(** The operation the worker has in its hands. *)
Definition in_hand (p : worker_pc) : list EngineOp :=
  match p with W_notify op | W_exec op => [op] | _ => [] end.
Definition pend_full (p : worker_pc) : nat := match p with W_notify _ => 1 | _ => 0 end.
Definition stopping (c : ctl_pc) : bool :=
  match c with C_notify_empty | C_notify_full => true | _ => false end.

(** ** The invariant *)

Record pe_inv (w0 : World) (s : ProgressEngine) : Prop := {
  i_depth : 0 < max_depth_ s;
  i_bound : length (queue_ s) <= max_depth_ s;
  i_fifo : accepted s = executed s ++ in_hand (worker s) ++ queue_ s;
  i_world : world_ s = foldl (fun w op => run_op op w) w0 (executed s);
  i_ok : sum_of is_ok_sub (subs s) = length (accepted s);
  (* nobody sleeps on not_empty_ without a reason or a notification to come *)
  i_worker : worker s = W_wait ->
    (queue_ s = [] /\ stop_requested_ s = false) \/ 0 < nnotify s \/ ctl s = C_notify_empty;
  (* nor on not_full_ *)
  i_full : nwait s = 0 \/
    max_depth_ s <= length (queue_ s) + nlock s + pend_full (worker s) \/ stopping (ctl s) = true;
  i_exit : worker s = W_exit -> queue_ s = [] /\ stop_requested_ s = true;
  i_none : worker s = W_none ->
    queue_ s = [] /\ stop_requested_ s = false /\ running_ s = false /\
    nlock s = 0 /\ nwait s = 0 /\ nnotify s = 0;
  i_idle : ctl s = C_idle ->
    if running_ s then stop_requested_ s = false else worker s = W_none \/ worker s = W_exit;
  i_busy : ctl s <> C_idle -> running_ s = true /\ stop_requested_ s = true;
  i_stop : stop_requested_ s = true -> stopping (ctl s) = false -> nwait s = 0;
}.

Lemma new_engine_inv depth calls sc w s : new_engine depth calls sc w = Ok s -> pe_inv w s.
Proof.
  unfold new_engine. case_bool; [done|]. intros [= <-].
  assert (forall f, (forall a b c, f (S_start a b c) = 0) ->
    sum_of f (call_pc <$> calls) = 0) as Hz.
  { intros f Hf. induction calls as [|[[a b] c] l IH]; [done|]. csimpl. by rewrite Hf, IH. }
  split; simpl; rewrite ?Hz by done; auto; try lia; done.
Qed.

Lemma wake_worker_frame s :
  queue_ (wake_worker s) = queue_ s /\ subs (wake_worker s) = subs s /\
  accepted (wake_worker s) = accepted s /\ executed (wake_worker s) = executed s /\
  world_ (wake_worker s) = world_ s /\ ctl (wake_worker s) = ctl s.
Proof. unfold wake_worker. by destruct (worker s). Qed.

(** Replacing the program counter of one submitter changes the counts by that
    submitter's part. *)
Ltac count i E :=
  pose proof (sum_of_insert is_lock _ i _ (S_done (Ok 0%Z)) E);
  repeat match goal with
  | |- context [sum_of ?f (<[i := ?q]> ?l)] =>
      lazymatch goal with
      | _ : sum_of f (<[i := q]> l) + _ = _ |- _ => fail
      | _ => pose proof (sum_of_insert f l i _ q E)
      end
  end; simpl in *.

(** Use the parts of the invariant whose premises are decided, drop the ones
    whose premises are absurd, and close the goal. *)
Ltac tidy :=
  repeat match goal with
  | H : ?a = ?a -> _ |- _ => specialize (H eq_refl)
  | H : ?a <> ?b -> _ |- _ => specialize (H ltac:(discriminate))
  | E : ?a = ?b, H : ?a = ?b -> _ |- _ => specialize (H E)
  | H : ?a = ?b -> _ |- _ => clear H; assert (a <> b) by discriminate
  | H : _ /\ _ |- _ => destruct H
  end.
Ltac inv_tac :=
  simpl in *; intros; tidy; repeat case_match; tidy;
  repeat (match goal with H : _ \/ _ |- _ => destruct H end; tidy);
  try congruence; try lia; intuition (congruence || lia).

Lemma worker_step_inv w0 s s' : pe_inv w0 s -> worker_step s = Some s' -> pe_inv w0 s'.
Proof.
  intros [] E. unfold worker_step in E. destruct (worker s) eqn:Ew; try done.
  - destruct (queue_ s) as [|op q] eqn:Eq; [destruct (stop_requested_ s) eqn:Es|]; simplify_eq;
      split; simpl in *; rewrite ?Eq, ?Ew, ?Es in *; simpl in *; try assumption; inv_tac.
  - simplify_eq. split; simpl in *; rewrite ?Ew in *; simpl in *; try assumption; try inv_tac.
    + by rewrite <- app_assoc.
    + by rewrite foldl_app, i_world0.
Qed.

Lemma notify_full_inv w0 s s' : pe_inv w0 s -> notify_full s s' -> pe_inv w0 s'.
Proof.
  intros [] Hs. destruct Hs as [s op i o Ew E|s op Ew Hno].
  - split; simpl in *; rewrite ?Ew in *; simpl in *; count i E; try assumption; inv_tac.
  - assert (nwait s = 0) as Hz.
    { apply sum_of_zero. intros i p Ep. destruct p as [| |o| |]; try done. by destruct (Hno i o). }
    split; simpl in *; rewrite ?Ew in *; simpl in *; try assumption; inv_tac.
Qed.

Lemma submit_step_inv w0 i s s' : pe_inv w0 s -> submit_step i s = Some s' -> pe_inv w0 s'.
Proof.
  intros [] Hs. unfold submit_step in Hs. destruct (subs s !! i) as [p|] eqn:E; [|done].
  destruct p as [f c g|op|op|seq|r]; try done.
  - destruct (running_ s) eqn:Er; simplify_eq;
      split; simpl in *; rewrite ?Er in *; simpl in *; count i E; try assumption; inv_tac.
  - destruct (stop_requested_ s) eqn:Es; [rewrite orb_true_r in Hs|rewrite orb_false_r in Hs].
    + simplify_eq. destruct (stopping (ctl s)) eqn:Ec; split; simpl in *; rewrite ?Es, ?Ec in *; simpl in *; count i E; try assumption; inv_tac.
    + destruct (Nat.ltb_spec (length (queue_ s)) (max_depth_ s)); simplify_eq.
      * split; simpl in *; rewrite ?Es in *; simpl in *; count i E; rewrite ?length_app; simpl;
          try assumption; try inv_tac.
        by rewrite i_fifo0, !app_assoc.
      * split; simpl in *; rewrite ?Es in *; simpl in *; count i E; try assumption; inv_tac.
  - simplify_eq. unfold wake_worker. destruct (worker s) eqn:Ew;
      split; simpl in *; rewrite ?Ew in *; simpl in *; count i E; try assumption; inv_tac.
Qed.

Lemma ctl_step_inv w0 s s' : pe_inv w0 s -> ctl_step s = Some s' -> pe_inv w0 s'.
Proof.
  intros [] Hs. unfold ctl_step in Hs. destruct (ctl s) eqn:Ec; [destruct (script s) as [|[] sc]| | |].
  - done.
  - destruct (running_ s) eqn:Er; simplify_eq;
      split; simpl in *; rewrite ?Ec, ?Er in *; simpl in *; try assumption; try inv_tac.
    destruct (i_idle0 eq_refl) as [Ew|Ew]; rewrite Ew in *; done.
  - destruct (running_ s) eqn:Er; simplify_eq;
      split; simpl in *; rewrite ?Ec, ?Er in *; simpl in *; try assumption; inv_tac.
  - simplify_eq. unfold wake_worker. destruct (worker s) eqn:Ew;
      split; simpl in *; rewrite ?Ew, ?Ec in *; simpl in *; try assumption; inv_tac.
  - simplify_eq.
    assert (sum_of is_wait (woken <$> subs s) = 0) as Hz.
    { rewrite sum_of_fmap. apply sum_of_zero. by intros j [] _. }
    assert (sum_of is_notify (woken <$> subs s) = nnotify s) as Hn
      by (rewrite sum_of_fmap; apply sum_of_ext; by intros []).
    assert (sum_of is_ok_sub (woken <$> subs s) = sum_of is_ok_sub (subs s)) as Ho
      by (rewrite sum_of_fmap; apply sum_of_ext; by intros []).
    split; simpl in *; rewrite ?Hz, ?Hn, ?Ho, ?Ec in *; simpl in *; try assumption; inv_tac.
  - destruct (worker s) eqn:Ew; simplify_eq;
      split; simpl in *; rewrite ?Ew, ?Ec in *; simpl in *; try assumption; inv_tac.
Qed.

Lemma step_inv w0 s s' : pe_inv w0 s -> step s s' -> pe_inv w0 s'.
Proof.
  intros HI Hs. revert HI. destruct Hs as [s s' E|s s' E|i s s' E|s s' E]; intros HI.
  - by apply (worker_step_inv w0 s).
  - by apply (notify_full_inv w0 s).
  - by apply (submit_step_inv w0 i s).
  - by apply (ctl_step_inv w0 s).
Qed.

(** ** Termination *)

Definition sub_weight (p : sub_pc) : nat :=
  match p with S_start _ _ _ => 9 | S_lock _ => 8 | S_wait _ => 7 | S_notify _ => 2 | S_done _ => 0 end.
Definition worker_weight (p : worker_pc) : nat :=
  match p with W_lock => 1 | W_notify _ => 5 | W_exec _ => 3 | _ => 0 end.
Definition ctl_weight (n : nat) (c : ctl_pc) : nat :=
  match c with C_idle => 0 | C_notify_empty => n + 4 | C_notify_full => n + 2 | C_join => 1 end.
Definition script_weight (n : nat) (sc : list ctl_op) : nat :=
  foldr (fun o m => match o with Start => 2 | Stop => n + 5 end + m) 0 sc.

(** An upper bound of the steps that are left. *)
Definition measure (s : ProgressEngine) : nat :=
  sum_of sub_weight (subs s) + worker_weight (worker s) + 5 * length (queue_ s) +
  ctl_weight (length (subs s)) (ctl s) + script_weight (length (subs s)) (script s).

Lemma wake_worker_measure s :
  measure (wake_worker s) <= measure s + 1 /\ subs (wake_worker s) = subs s.
Proof.
  split; [|unfold wake_worker; by destruct (worker s)].
  unfold wake_worker, measure. destruct (worker s) eqn:E; simpl; rewrite ?E; simpl; lia.
Qed.

Lemma step_measure w0 s s' : pe_inv w0 s -> step s s' -> measure s' < measure s.
Proof.
  intros HI Hs. revert HI. destruct Hs as [s s' E|s s' E|i s s' E|s s' E]; intros HI.
  - unfold worker_step in E. unfold measure.
    destruct (worker s) eqn:Ew; [done| |done..| |done];
      [destruct (queue_ s) as [|op q] eqn:Eq; [destruct (stop_requested_ s)|]|];
      simplify_eq; simpl; rewrite ?Eq; simpl; lia.
  - unfold measure. destruct E as [s op i o Ew E|s op Ew _]; simpl; rewrite Ew; simpl; [|lia].
    rewrite length_insert. pose proof (sum_of_insert sub_weight _ _ _ (S_lock o) E). simpl in *. lia.
  - unfold submit_step in E. destruct (subs s !! i) as [p|] eqn:Ep; [|done].
    assert (forall q, sum_of sub_weight (<[i := q]> (subs s)) + sub_weight p =
      sum_of sub_weight (subs s) + sub_weight q) as Hsum by (intros; by apply sum_of_insert).
    destruct p as [f c g|op|op|seq|r]; try done.
    + destruct (running_ s); simplify_eq; unfold measure; simpl; rewrite length_insert;
        match goal with |- context [<[i := ?q]> _] => specialize (Hsum q) end; simpl in *; lia.
    + destruct (_ || _); [destruct (stop_requested_ s)|]; simplify_eq; unfold measure; simpl;
        rewrite length_insert, ?length_app; simpl;
        match goal with |- context [<[i := ?q]> _] => specialize (Hsum q) end; simpl in *; lia.
    + simplify_eq. destruct (wake_worker_measure s) as [Hm Hs]. unfold measure in *. simpl.
      rewrite Hs in *. rewrite length_insert. specialize (Hsum (S_done (Ok seq))). simpl in *. lia.
  - unfold ctl_step in E. destruct (ctl s) eqn:Ec; [destruct (script s) as [|[] sc] eqn:Esc| | |].
    + done.
    + destruct (running_ s) eqn:Er; simplify_eq; unfold measure; simpl; rewrite Ec, Esc; simpl; [lia|].
      pose proof (i_idle _ _ HI Ec) as Hw. rewrite Er in Hw. destruct Hw as [-> | ->]; simpl; lia.
    + destruct (running_ s); simplify_eq; unfold measure; simpl; rewrite Ec, Esc; simpl; lia.
    + simplify_eq. destruct (wake_worker_measure s) as [Hm Hs].
      assert (script (wake_worker s) = script s) as Hsc by (unfold wake_worker; by destruct (worker s)).
      assert (ctl (wake_worker s) = ctl s) as Hct by (unfold wake_worker; by destruct (worker s)).
      unfold measure in *. simpl. rewrite Hs, ?Hsc, Hct, Ec in *. simpl in *. lia.
    + simplify_eq. unfold measure; simpl. rewrite Ec, length_fmap, sum_of_fmap. simpl.
      pose proof (sum_of_le (fun p => sub_weight (woken p)) sub_weight 1 (subs s)) as Hle.
      specialize (Hle ltac:(intros []; simpl; lia)). lia.
    + destruct (worker s) eqn:Ew; simplify_eq; unfold measure; simpl; rewrite Ec, Ew; simpl; lia.
Qed.

(** ** Final states *)

Definition stuck (s : ProgressEngine) : Prop := forall s', ~ step s s'.
Definition returned (p : sub_pc) : bool := match p with S_done _ => true | _ => false end.

Lemma notify_full_total s op : worker s = W_notify op -> exists s', notify_full s s'.
Proof.
  intros Ew. destruct (decide (Exists (fun p => is_wait p = 1) (subs s))) as [Hex|Hno].
  - apply Exists_exists in Hex as (p & [i Ei]%list_elem_of_lookup & Hp).
    destruct p as [| |o| |]; try done. eexists. by eapply notify_waiter.
  - eexists. apply notify_nobody; [done|]. intros i o Ei. apply Hno, Exists_exists.
    exists (S_wait o). split; [by eapply list_elem_of_lookup_2|done].
Qed.

(** In a state without a step the submitters have returned or wait, and the
    worker is asleep or gone. *)
Lemma stuck_pcs s :
  stuck s ->
  nlock s = 0 /\ nnotify s = 0 /\
  (forall i p, subs s !! i = Some p -> returned p = true \/ is_wait p = 1) /\
  match worker s with W_none | W_wait | W_exit => True | _ => False end /\
  match ctl s with C_idle => script s = [] | C_join => worker s <> W_exit | _ => False end.
Proof.
  intros Hst.
  assert (forall i p, subs s !! i = Some p -> returned p = true \/ is_wait p = 1) as Hsubs.
  { intros i p Ep. assert (submit_step i s = None) as Hn
      by (destruct (submit_step i s) eqn:E; [|done]; by destruct (Hst _ (step_submit i _ _ E))).
    unfold submit_step in Hn. rewrite Ep in Hn. destruct p; auto; by repeat case_match. }
  split_and!.
  - apply sum_of_zero. intros i p Ep. destruct (Hsubs i p Ep), p; simpl in *; try done; lia.
  - apply sum_of_zero. intros i p Ep. destruct (Hsubs i p Ep), p; simpl in *; try done; lia.
  - done.
  - assert (worker_step s = None) as Hn
      by (destruct (worker_step s) eqn:E; [|done]; by destruct (Hst _ (step_worker _ _ E))).
    unfold worker_step in Hn. destruct (worker s) as [| | |op|op|] eqn:Ew; try done; [by repeat case_match|].
    destruct (notify_full_total s op Ew) as [s' Hs']. by destruct (Hst _ (step_notify _ _ Hs')).
  - assert (ctl_step s = None) as Hn
      by (destruct (ctl_step s) eqn:E; [|done]; by destruct (Hst _ (step_ctl _ _ E))).
    unfold ctl_step in Hn. destruct (ctl s); [destruct (script s) as [|[]]|done..|];
      try done; [by case_match..|]. by intros Ew; rewrite Ew in Hn.
Qed.

Lemma stuck_final w0 s :
  pe_inv w0 s -> stuck s ->
  Forall (fun p => returned p = true) (subs s) /\ queue_ s = [] /\ executed s = accepted s /\
  ctl s = C_idle /\ script s = [].
Proof.
  intros [] Hst. destruct (stuck_pcs s Hst) as (Hl & Hn & Hsubs & Hw & Hc).
  assert (queue_ s = []) as Hq.
  { destruct (worker s) eqn:Ew; try done; tidy; [done| |done].
    destruct i_worker0 as [[? ?]|[?|Ec]]; [done|lia|]. by rewrite Ec in Hc. }
  assert (pend_full (worker s) = 0 /\ in_hand (worker s) = []) as [Hpf Hih]
    by (destruct (worker s); done).
  assert (nwait s = 0) as Hz.
  { destruct i_full0 as [?|[Hf|Hf]]; [done| |].
    - rewrite Hq, Hl, Hpf in Hf. simpl in Hf. lia.
    - by destruct (ctl s). }
  split_and!.
  - apply Forall_lookup_2. intros i p Ep. destruct (Hsubs i p Ep) as [?|Hp]; [done|].
    pose proof (sum_of_pos is_wait _ _ _ Ep). lia.
  - done.
  - by rewrite i_fifo0, Hih, Hq, app_nil_r.
  - destruct (ctl s); try done. destruct (i_busy0 ltac:(done)) as [Hr Hs].
    destruct (worker s) eqn:Ew; try done; tidy; [congruence|].
    destruct i_worker0 as [[? ?]|[?|?]]; [congruence|lia|congruence].
  - destruct (ctl s); try done. destruct (i_busy0 ltac:(done)) as [Hr Hs].
    destruct (worker s) eqn:Ew; try done; tidy; [congruence|].
    destruct i_worker0 as [[? ?]|[?|?]]; [congruence|lia|congruence].
Qed.

Lemma reachable_inv depth calls sc w s0 s :
  new_engine depth calls sc w = Ok s0 -> rtc step s0 s -> pe_inv w s /\ max_depth_ s = depth.
Proof.
  intros H0 Hr. assert (max_depth_ s0 = depth) as Hd
    by (unfold new_engine in H0; case_match; by simplify_eq).
  apply new_engine_inv in H0. revert Hd H0.
  induction Hr as [s|s1 s2 s3 Hs Hr IH]; intros Hd HI; [done|]. apply IH.
  - rewrite <- Hd. clear -Hs. destruct Hs as [s s' E|s s' E|i s s' E|s s' E].
    + unfold worker_step in E. by repeat case_match; simplify_eq.
    + by destruct E.
    + unfold submit_step, wake_worker in E. by repeat case_match; simplify_eq.
    + unfold ctl_step, wake_worker in E. by repeat case_match; simplify_eq.
  - by eapply step_inv.
Qed.

(** C37: The bounded queue, in every interleaving of submitters, worker and
    controller: it never holds more than [max_queue_depth] operations, the
    operations are executed in the order in which they were accepted (the
    world is the effect of running them one after the other), and once the
    worker has left its loop, which is what [stop] joins on, every accepted
    operation has been executed. *)
Theorem pe_bounded_fifo depth calls sc w s0 s :
  new_engine depth calls sc w = Ok s0 -> rtc step s0 s ->
  queue_depth s <= depth /\
  accepted s = executed s ++ in_hand (worker s) ++ queue_ s /\
  world_ s = foldl (fun v op => run_op op v) w (executed s) /\
  (worker s = W_exit -> executed s = accepted s).
Proof.
  intros H0 Hr. destruct (reachable_inv _ _ _ _ _ _ H0 Hr) as [[] <-]. split_and!; [done..|].
  intros Ew. rewrite i_fifo0, Ew. destruct (i_exit0 Ew) as [-> _]. by rewrite app_nil_r.
Qed.

(** C38: No execution goes on forever and none gets stuck early: it ends after at
    most [measure s0] steps, and where no thread can move, every call of
    [submit] has returned, no wake-up was lost on either condition variable,
    the script of starts and stops is done, and exactly the accepted
    operations have been executed, one per call that returned a number. *)
Theorem pe_settles depth calls sc w s0 n s :
  new_engine depth calls sc w = Ok s0 -> nsteps step n s0 s ->
  n + measure s <= measure s0 /\
  (stuck s ->
    Forall (fun p => returned p = true) (subs s) /\ queue_ s = [] /\
    ctl s = C_idle /\ script s = [] /\ executed s = accepted s /\
    world_ s = foldl (fun v op => run_op op v) w (accepted s) /\
    sum_of is_ok_sub (subs s) = length (accepted s)).
Proof.
  intros H0 Hn. split.
  - apply new_engine_inv in H0. revert H0.
    induction Hn as [|n s1 s2 s3 Hs Hn IH]; intros HI; [done|].
    pose proof (step_measure _ _ _ HI Hs). specialize (IH (step_inv _ _ _ HI Hs)). lia.
  - intros Hst. destruct (reachable_inv _ _ _ _ _ _ H0 (rtc_nsteps_2 _ _ _ Hn)) as [HI _].
    destruct (stuck_final _ _ HI Hst) as (Hf & Hq & He & Hc & Hs).
    destruct HI. rewrite <- He at 2. by split_and!.
Qed.

(** ** Calls to a running engine *)

Definition is_refused (p : sub_pc) : nat :=
  match p with S_done (Throw _) => 1 | _ => 0 end.

(** Started, and no [stop] to come. *)
Definition open_for_good (s : ProgressEngine) : Prop :=
  running_ s = true /\ stop_requested_ s = false /\ ctl s = C_idle /\ script s = [].

Lemma step_open s s' :
  open_for_good s -> step s s' ->
  open_for_good s' /\ sum_of is_refused (subs s') = sum_of is_refused (subs s).
Proof.
  intros Ho Hs. revert Ho. unfold open_for_good.
  destruct Hs as [s s' E|s s' E|i s s' E|s s' E]; intros (Hr & Hst & Hc & Hsc).
  - unfold worker_step in E. by repeat case_match; simplify_eq/=.
  - destruct E as [s op i o Ew E|s op Ew _]; simpl; [|done]. split; [done|].
    pose proof (sum_of_insert is_refused _ _ _ (S_lock o) E). simpl in *. lia.
  - unfold submit_step, wake_worker in E. destruct (subs s !! i) as [p|] eqn:Ep; [|done].
    rewrite Hr, Hst, orb_false_r in E.
    destruct p as [f c g|op|op|seq|r]; try done; repeat case_match; simplify_eq/=;
      (split; [done|]);
      match goal with |- context [<[i := ?q]> _] =>
        pose proof (sum_of_insert is_refused _ _ _ q Ep) end; simpl in *; lia.
  - unfold ctl_step in E. by rewrite Hc, Hsc in E.
Qed.

Lemma rtc_open s s' :
  rtc step s s' -> open_for_good s ->
  open_for_good s' /\ sum_of is_refused (subs s') = sum_of is_refused (subs s).
Proof.
  induction 1 as [s|s1 s2 s3 Hs Hr IH]; intros Ho; [done|].
  destruct (step_open _ _ Ho Hs) as [Ho2 <-]. by apply IH.
Qed.

Lemma sum_of_done l :
  Forall (fun p => returned p = true) l -> sum_of is_ok_sub l + sum_of is_refused l = length l.
Proof. induction 1 as [|p l Hp _ IH]; [done|]. destruct p as [| | | |[]]; simpl in *; try done; lia. Qed.

(** A running engine refuses nobody: from a reachable state that is started
    and will not be stopped, every execution ends with all calls returned, and
    only those that had been refused before got no number; all others have
    been executed. *)
Theorem pe_running_accepts depth calls sc w s0 s1 s :
  new_engine depth calls sc w = Ok s0 -> rtc step s0 s1 -> open_for_good s1 ->
  rtc step s1 s -> stuck s ->
  length (executed s) + sum_of is_refused (subs s1) = length (subs s) /\ worker s = W_wait.
Proof.
  intros H0 Hr1 Ho Hr2 Hst. destruct (rtc_open _ _ Hr2 Ho) as [Ho2 <-].
  destruct (reachable_inv _ _ _ _ _ s H0) as [HI _]; [by etrans|].
  destruct (stuck_final _ _ HI Hst) as (Hf & Hq & -> & Hc & Hs).
  destruct (stuck_pcs s Hst) as (_ & _ & _ & Hw & _). destruct HI, Ho2 as (Hrun & Hstop & _).
  split; [rewrite <- i_ok0; by apply sum_of_done|].
  destruct (worker s) eqn:Ew; try done; tidy; congruence.
Qed.

(** ** Executing the relation

    One scheduler: the worker first, then the submitters in order, then the
    controller. *)
Definition first_waiter (l : list sub_pc) : option (nat * sub_pc) :=
  list_find (fun p => is_wait p = 1) l.

Definition notify_first (s : ProgressEngine) : option ProgressEngine :=
  match worker s with
  | W_notify op =>
      match first_waiter (subs s) with
      | Some (i, S_wait o) => Some (set_worker (W_exec op) (set_sub i (S_lock o) s))
      | _ => Some (set_worker (W_exec op) s)
      end
  | _ => None
  end.

Fixpoint submit_first (l : list nat) (s : ProgressEngine) : option ProgressEngine :=
  match l with
  | [] => None
  | i :: l' => match submit_step i s with Some s' => Some s' | None => submit_first l' s end
  end.

Definition next (s : ProgressEngine) : option ProgressEngine :=
  match worker_step s with Some s' => Some s' | None =>
  match notify_first s with Some s' => Some s' | None =>
  match submit_first (seq 0 (length (subs s))) s with Some s' => Some s' | None => ctl_step s
  end end end.

Fixpoint exec (n : nat) (s : ProgressEngine) : option ProgressEngine :=
  match n with O => Some s | S n' => s' ← next s; exec n' s' end.

Lemma submit_first_step l s s' : submit_first l s = Some s' -> step s s'.
Proof.
  induction l as [|i l IH]; simpl; [done|]. destruct (submit_step i s) eqn:E; [|done].
  intros [= ->]. by apply (step_submit i).
Qed.

Lemma submit_first_none l s i : submit_first l s = None -> i ∈ l -> submit_step i s = None.
Proof.
  induction l as [|j l IH]; simpl; [by intros _ ?%elem_of_nil|].
  destruct (submit_step j s) eqn:E; [done|]. intros Hn [->|Hi]%elem_of_cons; auto.
Qed.

Lemma next_step s s' : next s = Some s' -> step s s'.
Proof.
  unfold next. destruct (worker_step s) eqn:Ew; [intros [= ->]; by apply step_worker|].
  destruct (notify_first s) eqn:En.
  - intros [= ->]. apply step_notify. unfold notify_first in En. destruct (worker s) eqn:Ep; try done.
    unfold first_waiter in En. destruct (list_find _ (subs s)) as [[i p]|] eqn:Ef.
    + apply list_find_Some in Ef as (Ei & Hp & _). destruct p as [| |o| |]; try done.
      injection En as <-. by eapply notify_waiter.
    + injection En as <-. apply notify_nobody; [done|]. intros i o Ei.
      apply list_find_None in Ef. rewrite Forall_lookup in Ef. by apply (Ef i (S_wait o)).
  - destruct (submit_first _ s) eqn:Es; [intros [= ->]; by eapply submit_first_step|].
    apply step_ctl.
Qed.

Lemma next_none s : next s = None -> stuck s.
Proof.
  unfold next. destruct (worker_step s) eqn:Ew; [done|].
  destruct (notify_first s) eqn:En; [done|]. destruct (submit_first _ s) eqn:Es; [done|].
  intros Ec s' Hs. destruct Hs as [s s' E|s s' E|i s s' E|s s' E]; try congruence.
  - unfold notify_first in En. destruct E as [s op i o Hw _|s op Hw _]; rewrite Hw in En;
      by repeat case_match.
  - rewrite (submit_first_none _ _ i Es) in E; [done|]. apply elem_of_seq.
    unfold submit_step in E. destruct (subs s !! i) eqn:Ei; [|done].
    apply lookup_lt_Some in Ei. lia.
Qed.

Lemma exec_nsteps n s s' : exec n s = Some s' -> nsteps step n s s'.
Proof.
  revert s; induction n as [|n IH]; intros s; simpl; [intros [= ->]; constructor|].
  destruct (next s) as [s1|] eqn:E; simpl; [|done]. intros Hx.
  econstructor; [by apply next_step|]. by apply IH.
Qed.
End Engine.

(** ** A run of three submissions through a queue of depth one

    The world is a log; the second operation throws and reports to its error
    handler. *)
Definition log_call (n : Z) (fails : bool) :
  (list Z -> list Z * option error) * option (list Z -> list Z * option error) *
  option (error -> list Z -> list Z * option error) :=
  ((fun w => (w ++ [n], if fails then Some (MCCLError "op") else None)),
   Some (fun w => (w ++ [n + 100]%Z, None)), Some (fun e w => (w ++ [n + 200]%Z, None))).

Definition demo_engine (sc : list ctl_op) : @ProgressEngine (list Z) :=
  mkEngine 1 false false 0 [] W_none (call_pc <$> [log_call 1 false; log_call 2 true; log_call 3 false])
    C_idle sc [] [] [].

Definition demo_started (sc : list ctl_op) : @ProgressEngine (list Z) :=
  default (demo_engine []) (ctl_step (demo_engine (Start :: sc))).

Definition demo_after (n : nat) (sc : list ctl_op) : @ProgressEngine (list Z) :=
  default (demo_engine []) (exec None n (demo_started sc)).

Lemma demo_first sc : step None (demo_engine (Start :: sc)) (demo_started sc).
Proof. apply step_ctl. reflexivity. Qed.

Lemma pe_bounded_fifo_witness :
  rtc (step None) (demo_engine [Start; Stop]) (demo_after 4 [Stop]) /\
  length (queue_ (demo_after 4 [Stop])) = 1 /\ length (queue_ (demo_after 4 [Stop])) <= 1.
Proof.
  assert (rtc (step None) (demo_engine [Start; Stop]) (demo_after 4 [Stop])) as Hr.
  { eapply rtc_l; [apply demo_first|]. eapply rtc_nsteps_2, (exec_nsteps _ 4). vm_compute. reflexivity. }
  split; [exact Hr|]. split; [vm_compute; reflexivity|].
  exact (proj1 (pe_bounded_fifo None 1 [log_call 1 false; log_call 2 true; log_call 3 false]
    [Start; Stop] [] _ _ eq_refl Hr)).
Defined.

Lemma pe_settles_witness :
  stuck None (demo_after 27 [Stop]) /\ executed (demo_after 27 [Stop]) = accepted (demo_after 27 [Stop])
  /\ world_ (demo_after 27 [Stop]) = [1; 101; 2; 202; 3; 103]%Z.
Proof.
  assert (nsteps (step None) 28 (demo_engine [Start; Stop]) (demo_after 27 [Stop])) as Hr.
  { econstructor; [apply demo_first|]. apply (exec_nsteps _ 27). vm_compute. reflexivity. }
  assert (stuck None (demo_after 27 [Stop])) as Hst by (apply next_none; vm_compute; reflexivity).
  split; [exact Hst|].
  destruct (proj2 (pe_settles None 1 [log_call 1 false; log_call 2 true; log_call 3 false]
    [Start; Stop] [] _ _ _ eq_refl Hr) Hst) as (_ & _ & _ & _ & He & _).
  split; [exact He|]. vm_compute. reflexivity.
Defined.

Lemma pe_running_accepts_witness :
  length (executed (demo_after 22 [])) = 3 /\ worker (demo_after 22 []) = W_wait.
Proof.
  assert (rtc (step None) (demo_started []) (demo_after 22 [])) as Hr.
  { eapply rtc_nsteps_2, (exec_nsteps _ 22). vm_compute. reflexivity. }
  assert (stuck None (demo_after 22 [])) as Hst by (apply next_none; vm_compute; reflexivity).
  destruct (pe_running_accepts None 1 [log_call 1 false; log_call 2 true; log_call 3 false]
    [Start] [] _ _ _ eq_refl (rtc_once _ _ (demo_first [])) ltac:(vm_compute; repeat split) Hr Hst)
    as [H1 H2].
  split; [vm_compute; reflexivity|exact H2].
Defined.
