(* ===== verification/Metrics.v ===== *)
(** The metrics collector, src/csrc/runtime/Metrics.cpp and .hpp: operations in
    flight, the bounded history of completed ones, byte and error counters,
    and the summary with its percentiles.

    Time points are integers (the clock's ticks; 0 is the default-constructed
    time point), [double] is an abstract type with the operations the code
    uses.  Every operation is one critical section (the counters are atomics),
    so a sequence of events is an interleaving of all threads. *)
From S2P Require Import Prelude.
#[local] Open Scope Z_scope.

(** [double], as far as it is used: milliseconds of a duration in ticks, the
    throughput formula, sums, division by a count, [<] and the index
    [(size_t)(n * 0.99)]. *)
Class Doubles (F : Type) := {
  f_zero : F;
  f_add : F -> F -> F;
  f_div : F -> nat -> F;
  f_lt : F -> F -> bool;
  f_ms : Z -> F;
  f_gbps : Z -> Z -> F;                (* bytes, positive ticks *)
  f_index99 : nat -> nat;
}.

Record OpMetric (F : Type) := mkOpMetric {
  m_seq : Z; m_op_name : string; m_bytes : Z;
  m_start : Z; m_execute_start : Z; m_end : Z;
  m_sync_ms : F; m_network_ms : F; m_reduce_ms : F;
}.
Arguments mkOpMetric {F}. Arguments m_seq {F}. Arguments m_op_name {F}. Arguments m_bytes {F}.
Arguments m_start {F}. Arguments m_execute_start {F}. Arguments m_end {F}.
Arguments m_sync_ms {F}. Arguments m_network_ms {F}. Arguments m_reduce_ms {F}.

Definition max_history_ : nat := 10000.

Section Metrics.
Context {F : Type} `{!Doubles F}.

Definition elapsed_ms (m : OpMetric F) : F := f_ms (m_end m - m_start m).
Definition queue_wait_ms (m : OpMetric F) : F :=
  if m_execute_start m =? 0 then f_zero else f_ms (m_execute_start m - m_start m).
Definition execution_ms (m : OpMetric F) : F :=
  if m_execute_start m =? 0 then elapsed_ms m else f_ms (m_end m - m_execute_start m).
Definition throughput_gbps (m : OpMetric F) : F :=
  if m_end m - m_start m <=? 0 then f_zero else f_gbps (m_bytes m) (m_end m - m_start m).

Record Metrics := mkMetrics {
  inflight_ : gmap Z (OpMetric F);
  completed_ : list (OpMetric F);
  total_bytes_sent_ : Z;
  total_bytes_recv_ : Z;
  total_errors_ : Z;
}.

Definition new_metrics : Metrics := mkMetrics ∅ [] 0 0 0.

(** [now] is what the clock returns. *)
Definition op_start (now seq : Z) (name : string) (bytes : Z) (s : Metrics) : Metrics :=
  mkMetrics (<[seq := mkOpMetric seq name bytes now 0 0 f_zero f_zero f_zero]> (inflight_ s))
    (completed_ s) (total_bytes_sent_ s) (total_bytes_recv_ s) (total_errors_ s).

Definition op_execute_start (now seq : Z) (s : Metrics) : Metrics :=
  mkMetrics (alter (fun m => mkOpMetric (m_seq m) (m_op_name m) (m_bytes m) (m_start m) now (m_end m)
               (m_sync_ms m) (m_network_ms m) (m_reduce_ms m)) seq (inflight_ s))
    (completed_ s) (total_bytes_sent_ s) (total_bytes_recv_ s) (total_errors_ s).

Definition set_end (now : Z) (m : OpMetric F) : OpMetric F :=
  mkOpMetric (m_seq m) (m_op_name m) (m_bytes m) (m_start m) (m_execute_start m) now
    (m_sync_ms m) (m_network_ms m) (m_reduce_ms m).

(** [if (size > max) erase(begin, begin + (size - max))]. *)
Definition trim_history (l : list (OpMetric F)) : list (OpMetric F) :=
  if Nat.ltb max_history_ (length l) then drop (length l - max_history_) l else l.

Definition op_end (now seq : Z) (s : Metrics) : Metrics :=
  match inflight_ s !! seq with
  | None => s
  | Some m =>
      mkMetrics (delete seq (inflight_ s)) (trim_history (completed_ s ++ [set_end now m]))
        (total_bytes_sent_ s) (total_bytes_recv_ s) (total_errors_ s)
  end.

Definition record_phase (seq : Z) (sync network reduce : F) (s : Metrics) : Metrics :=
  mkMetrics (alter (fun m => mkOpMetric (m_seq m) (m_op_name m) (m_bytes m) (m_start m)
               (m_execute_start m) (m_end m) (f_add (m_sync_ms m) sync)
               (f_add (m_network_ms m) network) (f_add (m_reduce_ms m) reduce)) seq (inflight_ s))
    (completed_ s) (total_bytes_sent_ s) (total_bytes_recv_ s) (total_errors_ s).

Definition record_transport_bytes (bytes : Z) (is_send : bool) (s : Metrics) : Metrics :=
  if is_send then
    mkMetrics (inflight_ s) (completed_ s) (u64 (total_bytes_sent_ s + bytes)) (total_bytes_recv_ s)
      (total_errors_ s)
  else
    mkMetrics (inflight_ s) (completed_ s) (total_bytes_sent_ s) (u64 (total_bytes_recv_ s + bytes))
      (total_errors_ s).

Definition record_error (s : Metrics) : Metrics :=
  mkMetrics (inflight_ s) (completed_ s) (total_bytes_sent_ s) (total_bytes_recv_ s)
    (u64 (total_errors_ s + 1)).

Definition reset (s : Metrics) : Metrics := mkMetrics ∅ [] 0 0 0.

Definition recent_ops (n : nat) (s : Metrics) : list (OpMetric F) :=
  if Nat.leb (length (completed_ s)) n then completed_ s
  else drop (length (completed_ s) - n) (completed_ s).

Record Summary := mkSummary {
  sm_total_ops : nat; sm_total_bytes_sent : Z; sm_total_bytes_recv : Z; sm_total_errors : Z;
  sm_avg_latency_ms : F; sm_p50_latency_ms : F; sm_p99_latency_ms : F; sm_peak_throughput_gbps : F;
  sm_avg_sync_ms : F; sm_avg_network_ms : F; sm_avg_reduce_ms : F;
  sm_avg_queue_wait_ms : F; sm_avg_execution_ms : F;
}.

Definition f_sum (l : list F) : F := foldl f_add f_zero l.
Definition f_peak (l : list F) : F := foldl (fun p x => if f_lt p x then x else p) f_zero l.

Context `{!StdSort}.

(** An element access that is out of range has no value. *)
Definition summarize (s : Metrics) : option Summary :=
  let c := completed_ s in
  let n := length c in
  match c with
  | [] => Some (mkSummary 0 (total_bytes_sent_ s) (total_bytes_recv_ s) (total_errors_ s)
            f_zero f_zero f_zero f_zero f_zero f_zero f_zero f_zero f_zero)
  | _ =>
      let latencies := std_sort f_lt (elapsed_ms <$> c) in
      p50 ← latencies !! (n / 2)%nat;
      p99 ← latencies !! (Nat.min (n - 1) (f_index99 n));
      Some (mkSummary n (total_bytes_sent_ s) (total_bytes_recv_ s) (total_errors_ s)
        (f_div (f_sum latencies) n) p50 p99 (f_peak (throughput_gbps <$> c))
        (f_div (f_sum (m_sync_ms <$> c)) n) (f_div (f_sum (m_network_ms <$> c)) n)
        (f_div (f_sum (m_reduce_ms <$> c)) n) (f_div (f_sum (queue_wait_ms <$> c)) n)
        (f_div (f_sum (execution_ms <$> c)) n))
  end.

(** ** Sequences of calls *)

Inductive event :=
  | EStart (now seq : Z) (name : string) (bytes : Z)
  | EExecute (now seq : Z)
  | EEnd (now seq : Z)
  | EPhase (seq : Z) (sync network reduce : F)
  | EBytes (bytes : Z) (is_send : bool)
  | EError
  | EReset.

Definition apply (e : event) (s : Metrics) : Metrics :=
  match e with
  | EStart now seq name bytes => op_start now seq name bytes s
  | EExecute now seq => op_execute_start now seq s
  | EEnd now seq => op_end now seq s
  | EPhase seq a b c => record_phase seq a b c s
  | EBytes n d => record_transport_bytes n d s
  | EError => record_error s
  | EReset => reset s
  end.

Definition run_events (es : list event) (s : Metrics) : Metrics :=
  foldl (fun s e => apply e s) s es.

(** ** The history

    The specification keeps every operation that ended since the last reset;
    the collector keeps the last [max_history_] of them. *)

Definition lastn {A} (k : nat) (l : list A) : list A := drop (length l - k) l.

(** The operations in flight and all that ended. *)
Definition full_log : Type := gmap Z (OpMetric F) * list (OpMetric F).
Definition full_apply (e : event) (x : full_log) : full_log :=
  let s := apply e (mkMetrics x.1 [] 0 0 0) in
  match e with EReset => (∅, []) | _ => (inflight_ s, x.2 ++ completed_ s) end.

Definition full_run (es : list event) : full_log := foldl (fun x e => full_apply e x) (∅, []) es.

#[local] Open Scope nat_scope.

Lemma length_lastn {A} k (l : list A) : length (lastn k l) = Nat.min k (length l).
Proof. unfold lastn. rewrite length_drop. lia. Qed.

Lemma lastn_lastn {A} k k' (l : list A) : k <= k' -> lastn k (lastn k' l) = lastn k l.
Proof. intros Hk. unfold lastn. rewrite length_drop, drop_drop. f_equal. lia. Qed.

(** Appending to the kept part and trimming is keeping the last of the whole. *)
Lemma trim_lastn l m :
  trim_history (lastn max_history_ l ++ [m]) = lastn max_history_ (l ++ [m]).
Proof.
  unfold trim_history. rewrite length_app, length_lastn. cbn [length].
  generalize max_history_ as k. intros k. unfold lastn. rewrite length_app. cbn [length].
  case_bool.
  - rewrite <- (drop_app_le l [m]) by lia. rewrite drop_drop. f_equal. lia.
  - rewrite <- (drop_app_le l [m]) by lia. f_equal. lia.
Qed.

Lemma trim_single m : trim_history [m] = [m].
Proof.
  unfold trim_history. cbn [length]. rewrite (proj2 (Nat.ltb_ge _ _)); [done|].
  apply Nat.leb_le. vm_compute. reflexivity.
Qed.

Definition same_log (s : Metrics) (x : full_log) : Prop :=
  inflight_ s = x.1 /\ completed_ s = lastn max_history_ x.2.

Lemma apply_same_log e s x : same_log s x -> same_log (apply e s) (full_apply e x).
Proof.
  intros [Hi Hc]. destruct x as [fl l]. simpl in Hi, Hc. subst fl.
  destruct e as [now sq name b|now sq|now sq|sq a b c|b d| |];
    unfold same_log, full_apply; cbn [fst snd]; try done;
    try (cbn; rewrite app_nil_r; by split).
  - cbn [apply]. unfold op_end. cbn [inflight_ completed_].
    destruct (inflight_ s !! sq) as [m|] eqn:E; [|cbn; by rewrite app_nil_r].
    cbn [inflight_ completed_]. split; [done|]. rewrite Hc, trim_lastn. cbn [app]. by rewrite trim_single.
  - cbn [apply]. unfold record_transport_bytes. destruct d; cbn; by rewrite app_nil_r.
Qed.

Lemma run_same_log es s x :
  same_log s x -> same_log (run_events es s) (foldl (fun x e => full_apply e x) x es).
Proof.
  revert s x; induction es as [|e es IH]; intros s x Hs; [done|]. simpl.
  apply IH. by apply apply_same_log.
Qed.
End Metrics.

#[local] Open Scope nat_scope.

(** The collector keeps the latest operations: after any sequence of calls its
    history is the last 10000 of the operations that ended since the last
    reset (each with the data of its own start, phases and end), what is in
    flight is what was started and not ended, and [recent_ops] returns the
    latest of all; the count of operations a summary reports stops at 10000. *)
Theorem metrics_keeps_latest {F} `{!Doubles F, !StdSort} (es : list (event (F := F))) n :
  n <= max_history_ ->
  let s := run_events es new_metrics in
  inflight_ s = (full_run es).1 /\
  completed_ s = lastn max_history_ (full_run es).2 /\
  recent_ops n s = lastn n (full_run es).2 /\
  (forall sm, summarize s = Some sm ->
     sm_total_ops sm = Nat.min max_history_ (length (full_run es).2)).
Proof.
  intros Hn s.
  assert (same_log s (full_run es)) as [Hi Hc] by by apply run_same_log.
  split_and!; [done..| |].
  - unfold recent_ops. rewrite Hc. generalize dependent max_history_. intros k Hn _.
    rewrite <- (lastn_lastn n k) by done. case_bool; [|done].
    unfold lastn at 2. replace (length _ - n) with 0 by lia. done.
  - intros sm Hsm. rewrite <- length_lastn, <- Hc. unfold summarize in Hsm.
    destruct (completed_ s) as [|m l]; [by simplify_eq|].
    by simplify_option_eq.
Qed.

(** What the percentiles rely on: [<] on the latencies is a strict weak order
    (no NaN), and [0.99 * n] does not round below the half. *)
Class DoublesLaws (F : Type) `{!Doubles F} : Prop := {
  f_lt_weak : strict_weak f_lt;
  f_index99_half n : 0 < n -> n / 2 <= f_index99 n;
}.

Lemma StronglySorted_lookup {A} (R : A -> A -> Prop) l i j a b :
  StronglySorted R l -> i < j -> l !! i = Some a -> l !! j = Some b -> R a b.
Proof.
  intros Hs. revert i j. induction Hs as [|x l _ IH Hx]; intros i j Hij Ha Hb; [done|].
  destruct j as [|j]; [lia|]. destruct i as [|i]; simpl in *.
  - simplify_eq. rewrite Forall_lookup in Hx. by eapply Hx.
  - eapply IH; [|done..]. lia.
Qed.

Lemma length_filter_fmap {A B} (f : A -> B) (P : B -> Prop) `{!forall x, Decision (P x)} l :
  length (filter P (f <$> l)) = length (filter (fun x => P (f x)) l).
Proof.
  induction l as [|x l IH]; [done|]. csimpl. rewrite !filter_cons.
  case_decide; simpl; by rewrite IH.
Qed.

Lemma length_filter_prefix {A} (P : A -> Prop) `{!forall x, Decision (P x)} k l :
  k <= length l -> (forall i x, i < k -> l !! i = Some x -> P x) -> k <= length (filter P l).
Proof.
  revert k; induction l as [|x l IH]; intros k Hk HP; simpl in Hk; [lia|].
  destruct k as [|k]; [lia|]. rewrite filter_cons, decide_True by (by apply (HP 0); [lia|]).
  simpl. apply le_n_S, IH; [lia|]. intros i y Hi Hy. apply (HP (S i)); [lia|done].
Qed.

Lemma peak_in {F} `{!Doubles F} (l : list F) p :
  let q := foldl (fun p x => if f_lt p x then x else p) p l in q = p \/ q ∈ l.
Proof.
  revert p; induction l as [|x l IH]; intros p; simpl; [by left|].
  destruct (f_lt p x).
  - right. destruct (IH x) as [-> |?]; [by left|by right].
  - destruct (IH p) as [-> |?]; [by left|right; by right].
Qed.

(** A summary of a non-empty history never reads out of range; its median and
    99th percentile are latencies of completed operations, the median is not
    above the percentile and not below at least half of the latencies, and the
    peak is a throughput of the history or 0. *)
Theorem summary_percentiles {F} `{!Doubles F, !DoublesLaws F, !StdSort, !StdSortLaws} (s : Metrics (F := F)) :
  completed_ s <> [] ->
  exists sm, summarize s = Some sm /\
    sm_p50_latency_ms sm ∈ elapsed_ms <$> completed_ s /\
    sm_p99_latency_ms sm ∈ elapsed_ms <$> completed_ s /\
    f_lt (sm_p99_latency_ms sm) (sm_p50_latency_ms sm) = false /\
    length (completed_ s) / 2 <= length (filter (fun m => f_lt (sm_p50_latency_ms sm) (elapsed_ms m) = false)
                                   (completed_ s)) /\
    (sm_peak_throughput_gbps sm = f_zero \/
     sm_peak_throughput_gbps sm ∈ throughput_gbps <$> completed_ s).
Proof.
  intros Hne. unfold summarize. set (c := completed_ s) in *. set (n := length c).
  assert (0 < n) as Hn by (unfold n; destruct c; [done|simpl; lia]).
  set (lat := std_sort f_lt (elapsed_ms <$> c)).
  assert (lat ≡ₚ elapsed_ms <$> c) as Hperm by apply std_sort_perm.
  assert (length lat = n) as Hlen by (rewrite Hperm; apply length_fmap).
  pose proof (std_sort_sorted f_lt (elapsed_ms <$> c) f_lt_weak) as Hsort. fold lat in Hsort.
  assert (n / 2 < n) as Hhalf by (apply Nat.div_lt; lia).
  destruct (lookup_lt_is_Some_2 lat (n / 2)) as [p50 E50]; [lia|].
  destruct (lookup_lt_is_Some_2 lat (Nat.min (n - 1) (f_index99 n))) as [p99 E99]; [lia|].
  assert (forall x i, lat !! i = Some x -> x ∈ elapsed_ms <$> c) as Hin.
  { intros x i Hx. rewrite <- Hperm. by eapply list_elem_of_lookup_2. }
  destruct c as [|m0 c0] eqn:Ec; [done|]. rewrite <- Ec in *.
  rewrite E50, E99. cbn [mbind option_bind]. eexists. split; [done|].
  cbn [sm_p50_latency_ms sm_p99_latency_ms sm_peak_throughput_gbps].
  pose proof (f_index99_half n Hn) as Hidx.
  split_and!.
  - by eapply Hin.
  - by eapply Hin.
  - destruct (decide (n / 2 = Nat.min (n - 1) (f_index99 n))) as [Heq|Hneq].
    + assert (p99 = p50) as -> by congruence. destruct f_lt_weak as [Ha _].
      destruct (f_lt p50 p50) eqn:E; [|done]. by rewrite (Ha _ _ E) in E.
    + eapply (StronglySorted_lookup (fun a b => f_lt b a = false) lat (n / 2)); [exact Hsort| |done..]. lia.
  - assert (length (filter (fun x => f_lt p50 x = false) (elapsed_ms <$> c)) =
      length (filter (fun m => f_lt p50 (elapsed_ms m) = false) c)) as <- by apply length_filter_fmap.
    rewrite <- Hperm. apply length_filter_prefix; [lia|].
    intros i x Hi Hx.
    by eapply (StronglySorted_lookup (fun a b => f_lt b a = false) lat i (n / 2)).
  - unfold f_peak. apply peak_in.
Qed.

(** ** An instance: integer milliseconds *)

#[local] Instance int_doubles : Doubles Z := {|
  f_zero := 0%Z; f_add := Z.add; f_div x n := (x / Z.of_nat n)%Z; f_lt := Z.ltb;
  f_ms x := x; f_gbps b t := (8 * b / t)%Z; f_index99 n := n * 99 / 100;
|}.

#[local] Instance int_doubles_laws : DoublesLaws Z.
Proof.
  split; cbn [f_lt f_index99 int_doubles].
  - split; [intros a b; rewrite Z.ltb_lt, Z.ltb_ge; lia|].
    intros a b c. rewrite !Z.ltb_ge. lia.
  - intros n Hn. apply Nat.div_le_lower_bound; [lia|].
    pose proof (Nat.div_mod_eq n 2). pose proof (Nat.mod_upper_bound n 2 ltac:(lia)).
    destruct (decide (n = 1)) as [->|]; [cbn; lia|]. lia.
Qed.

#[local] Existing Instance merge_sort_std.
#[local] Existing Instance merge_sort_laws.

Definition demo_events : list (event (F := Z)) :=
  [EStart 10 1 "allreduce" 4096; EStart 12 2 "barrier" 0; EExecute 13 1; EPhase 1 2 3 4; EEnd 40 1;
   EEnd 99 7; EEnd 45 2; EStart 50 3 "send" 8; EEnd 51 3]%Z.

Lemma metrics_keeps_latest_witness :
  m_seq <$> recent_ops 2 (run_events demo_events new_metrics) = [2; 3]%Z.
Proof.
  assert (2 <= max_history_) as Hle by (apply Nat.leb_le; vm_compute; reflexivity).
  destruct (metrics_keeps_latest demo_events 2 Hle) as (_ & _ & -> & _). vm_compute. reflexivity.
Defined.

Lemma summary_percentiles_witness :
  exists sm, summarize (run_events demo_events new_metrics) = Some sm /\
    (sm_p99_latency_ms sm <? sm_p50_latency_ms sm)%Z = false.
Proof.
  destruct (summary_percentiles (run_events demo_events new_metrics)) as (sm & E & _ & _ & Hlt & _).
  - vm_compute. discriminate.
  - exists sm. split; [exact E|exact Hlt].
Defined.
