(* ===== verification/LogOutput.v ===== *)
(** * Writing log lines ([csrc/common/Logging.hpp], [Metrics::log_summary] of
    [csrc/runtime/Metrics.cpp])

    A message that passes the threshold is written to the error stream in three
    pieces (prefix, text, newline) under one mutex of the process; the threads
    log at the same time.  [DISTRO_ABORT] ends the process after its message.
    The text of a message is what [vfprintf] makes of its format and arguments;
    the formats of the summary are written out, with the two formats of
    [double] as parameters. *)
From Stdlib Require Import Ascii.
From stdpp Require Import gmap.
From S2P Require Import Prelude CString Common Metrics.
#[local] Open Scope nat_scope.

(** ** One message *)

(** A use of one of the macros: level, [__FILE__], [__LINE__] and text;
    [msg_abort] for [DISTRO_ABORT]. *)
Record message := mkMsg { msg_level : LogLevel; msg_file : str; msg_line : nat; msg_text : str; msg_abort : bool }.

Definition MCCL_LOG (level : LogLevel) (file : str) (line : nat) (text : str) : message := mkMsg level file line text false.
Definition DISTRO_ABORT (file : str) (line : nat) (text : str) : message := mkMsg L_FATAL file line text true.

Definition newline : str := [ascii_of_nat 10].

(** What the three calls print; [ms] is the clock in milliseconds. *)
Definition log_prefix (m : message) (ms : nat) : str :=
  lit "[MCCL " ++ level_str (msg_level m) ++ lit " " ++ to_string ms ++ lit " " ++ msg_file m ++ lit ":"
  ++ to_string (msg_line m) ++ lit "] ".
Definition pieces (m : message) (ms : nat) : list str := [log_prefix m ms; msg_text m; newline].

Definition log_line (m : message) (ms : nat) : str := log_prefix m ms ++ msg_text m ++ newline.

(** ** The threads *)

(** The output, who has the mutex and what it has still to print, what each
    thread is going to log, which threads are about to call [std::terminate],
    and whether one has. *)
Record Log := mkLog {
  output : str;
  printing : option (nat * message * list str);
  to_log : gmap nat (list message);
  dying : gset nat;
  ended : bool
}.

Definition log_new (todo : gmap nat (list message)) : Log := mkLog [] None todo ∅ false.

(** The next step of thread [t]: a message below the threshold is passed over
    without the mutex. *)
Definition log_step (threshold : LogLevel) (ms t : nat) (s : Log) : option Log :=
  if ended s then None else
  if bool_decide (t ∈ dying s) then Some (mkLog (output s) (printing s) (to_log s) (dying s) true) else
  let next :=
    match to_log s !! t with
    | Some (m :: l) =>
      let todo := <[t := l]> (to_log s) in
      if negb (log_writes (msg_level m) threshold) then Some (mkLog (output s) (printing s) todo (if msg_abort m then {[t]} ∪ dying s else dying s) false)
      else match printing s with
           | Some _ => None
           | None => Some (mkLog (output s) (Some (t, m, pieces m ms)) todo (dying s) false)
           end
    | _ => None
    end in
  match printing s with
  | Some (t', m, ps) =>
    if t =? t' then
      match ps with
      | [] => Some (mkLog (output s) None (to_log s) (if msg_abort m then {[t]} ∪ dying s else dying s) false)
      | p :: ps => Some (mkLog (output s ++ p) (Some (t, m, ps)) (to_log s) (dying s) false)
      end
    else next
  | None => next
  end.

Fixpoint log_run (threshold : LogLevel) (es : list (nat * nat)) (s : Log) : option Log :=
  match es with [] => Some s | (ms, t) :: es => s ← log_step threshold ms t s; log_run threshold es s end.

(** ** The lines *)

(** A line: who wrote it, the message, the time. *)
Abbreviation line := (nat * message * nat)%type.
Definition text_of (ls : list line) : str := concat ((fun l => log_line l.1.2 l.2) <$> ls).

(** The messages of thread [t]. *)
Definition lines_of (t : nat) (ls : list line) : list message :=
  (fun l => l.1.2) <$> filter (fun l => l.1.1 = t) ls.

Definition passing (threshold : LogLevel) (l : list message) : list message :=
  List.filter (fun m => log_writes (msg_level m) threshold) l.

Lemma passing_cons threshold m l :
  passing threshold (m :: l) =
  if log_writes (msg_level m) threshold then m :: passing threshold l else passing threshold l.
Proof. done. Qed.

(** What the thread with the mutex has not printed yet. *)
Definition rest (s : Log) : str := match printing s with Some (_, _, ps) => concat ps | None => [] end.

Record log_inv (threshold : LogLevel) (todo : gmap nat (list message)) (s : Log) (ls : list line) : Prop := {
  li_text : output s ++ rest s = text_of ls;
  li_lines : forall t l, todo !! t = Some l ->
    exists l', to_log s !! t = Some l' /\ passing threshold l = lines_of t ls ++ passing threshold l'
}.

Lemma text_snoc ls t m ms : text_of (ls ++ [(t, m, ms)]) = text_of ls ++ concat (pieces m ms).
Proof. unfold text_of, pieces, log_line. rewrite fmap_app, concat_app. cbn. by rewrite !app_nil_r. Qed.

Lemma lines_snoc ls t m ms t' :
  lines_of t' (ls ++ [(t, m, ms)]) = lines_of t' ls ++ (if decide (t = t') then [m] else []).
Proof.
  unfold lines_of. rewrite filter_app, fmap_app. f_equal. rewrite filter_cons, filter_nil. cbn. by case_decide.
Qed.

Lemma log_step_inv threshold todo ms t s s' ls :
  log_inv threshold todo s ls -> log_step threshold ms t s = Some s' -> exists ls', log_inv threshold todo s' ls'.
Proof.
  intros [Ht Hl] Hstep. unfold log_step in Hstep. destruct (ended s); [done|]. case_bool_decide.
  { injection Hstep as <-. by exists ls. }
  set (next := match to_log s !! t with Some _ => _ | None => _ end) in Hstep.
  assert (next = Some s' -> exists ls', log_inv threshold todo s' ls') as Hnext.
  { unfold next. destruct (to_log s !! t) as [[|m l]|] eqn:E; [done| |done].
    destruct (log_writes (msg_level m) threshold) eqn:Ew; cbn [negb].
    - destruct (printing s) eqn:Ep; [done|]. intros [= <-]. exists (ls ++ [(t, m, ms)]). split; cbn [rest output printing to_log].
      + unfold rest in Ht. rewrite Ep, app_nil_r in Ht. by rewrite text_snoc, Ht.
      + intros t' l0 Hl0. destruct (Hl t' l0 Hl0) as (l' & El & Hp). rewrite lines_snoc.
        destruct (decide (t = t')) as [<-|Hne].
        * exists l. rewrite lookup_insert_eq. split; [done|]. rewrite E in El. injection El as <-.
          rewrite Hp, passing_cons, Ew. by rewrite <- app_assoc.
        * exists l'. rewrite lookup_insert_ne by done. by rewrite app_nil_r.
    - intros [= <-]. exists ls. split; [done|]. intros t' l0 Hl0. destruct (Hl t' l0 Hl0) as (l' & El & Hp). cbn.
      destruct (decide (t = t')) as [<-|Hne]; [|exists l'; by rewrite lookup_insert_ne].
      exists l. rewrite lookup_insert_eq. split; [done|]. rewrite E in El. injection El as <-.
      by rewrite Hp, passing_cons, Ew. }
  destruct (printing s) as [[[t' m] ps]|] eqn:Ep; [|by apply Hnext].
  destruct (t =? t'); [|by apply Hnext]. exists ls. unfold rest in Ht. rewrite Ep in Ht.
  destruct ps as [|p ps]; injection Hstep as <-; split; try done. cbn. by rewrite <- app_assoc.
Qed.

Lemma log_run_inv threshold todo es s s' ls :
  log_inv threshold todo s ls -> log_run threshold es s = Some s' -> exists ls', log_inv threshold todo s' ls'.
Proof.
  revert s ls. induction es as [|[ms t] es IH]; intros s ls Hi Hrun; cbn in Hrun; [simplify_eq; by exists ls|].
  destruct (log_step threshold ms t s) as [s1|] eqn:E; [|done].
  destruct (log_step_inv _ _ _ _ _ _ _ Hi E) as [ls1 Hi1]. by eapply IH.
Qed.

(** ** The summary of the metrics *)

Section Summary.
Context {F : Type} `{!Doubles F, !StdSort}.

(** ["%.2f"], ["%.3f"], and bytes divided by [1024.0 * 1024.0]. *)
Context (fixed2 fixed3 : F -> str) (megabytes : Z -> F).

Definition summary_texts (s : Summary (F := F)) : list str :=
  [lit "=== MCCL Metrics Summary ===";
   lit "  Total ops:        " ++ to_string (sm_total_ops s);
   lit "  Total sent:       " ++ fixed2 (megabytes (sm_total_bytes_sent s)) ++ lit " MB";
   lit "  Total recv:       " ++ fixed2 (megabytes (sm_total_bytes_recv s)) ++ lit " MB";
   lit "  Errors:           " ++ to_string (Z.to_nat (sm_total_errors s));
   lit "  Avg latency:      " ++ fixed3 (sm_avg_latency_ms s) ++ lit " ms";
   lit "  P50 latency:      " ++ fixed3 (sm_p50_latency_ms s) ++ lit " ms";
   lit "  P99 latency:      " ++ fixed3 (sm_p99_latency_ms s) ++ lit " ms";
   lit "  Peak throughput:  " ++ fixed2 (sm_peak_throughput_gbps s) ++ lit " Gbps";
   lit "  Avg queue wait:   " ++ fixed3 (sm_avg_queue_wait_ms s) ++ lit " ms";
   lit "  Avg execution:    " ++ fixed3 (sm_avg_execution_ms s) ++ lit " ms";
   lit "  Avg sync:         " ++ fixed3 (sm_avg_sync_ms s) ++ lit " ms";
   lit "  Avg network:      " ++ fixed3 (sm_avg_network_ms s) ++ lit " ms";
   lit "  Avg reduce:       " ++ fixed3 (sm_avg_reduce_ms s) ++ lit " ms";
   lit "============================"].

(** [log_summary]; the lines of the file are numbered from [line]. *)
Definition log_summary (file : str) (line : nat -> nat) (s : Metrics (F := F)) : option (list message) :=
  x ← summarize s; Some (imap (fun i t => MCCL_LOG L_INFO file (line i) t) (summary_texts x)).
End Summary.

(** ** Properties *)

(** Lines are not torn.  In every interleaving of the threads the output, up to
    what the thread with the mutex has still to print, is a sequence of whole
    lines; the lines of a thread are, in its order, its messages that pass the
    threshold, as far as it has come. *)
Theorem log_lines_whole threshold todo es s :
  log_run threshold es (log_new todo) = Some s ->
  exists ls, output s ++ rest s = text_of ls /\
    (printing s = None -> output s = text_of ls) /\
    forall t l, todo !! t = Some l ->
      exists l', to_log s !! t = Some l' /\ passing threshold l = lines_of t ls ++ passing threshold l'.
Proof.
  intros Hrun. destruct (log_run_inv threshold todo es (log_new todo) s []) as [ls [Ht Hl]]; [|done|].
  { split; [done|]. intros t l Hl. by exists l. }
  exists ls. split; [done|]. split; [|done]. intros Hp. unfold rest in Ht. by rewrite Hp, app_nil_r in Ht.
Qed.

(** With the default level the summary of the metrics is not written: it is
    logged at INFO, and without a setting (and with every text that is not a
    level) the threshold is WARN; it appears exactly from a threshold of INFO
    down. *)
Theorem summary_silent_by_default {F} `{!Doubles F, !StdSort} (fixed2 fixed3 : F -> str) megabytes file line_ s l threshold :
  log_summary fixed2 fixed3 megabytes file line_ s = Some l ->
  passing (log_level_from_env None) l = [] /\
  passing threshold l = (if level_int threshold <=? level_int L_INFO then l else []).
Proof.
  unfold log_summary. destruct (summarize s) as [x|]; [|done]. intros [= <-].
  assert (forall th ts i, passing th (imap (fun j t => MCCL_LOG L_INFO file (line_ (i + j)) t) ts) =
    if level_int th <=? level_int L_INFO then imap (fun j t => MCCL_LOG L_INFO file (line_ (i + j)) t) ts else []) as Hall.
  { intros th ts. induction ts as [|t ts IH]; intros i; [cbn; by case_match|]. rewrite imap_cons.
    rewrite (imap_ext _ (fun j t => MCCL_LOG L_INFO file (line_ (S i + j)) t)) 
      by (intros j ? _; unfold compose; by replace (i + S j) with (S i + j) by lia).
    rewrite passing_cons, IH. unfold log_writes. cbn [msg_level MCCL_LOG]. by case_match. }
  split; [exact (Hall (log_level_from_env None) (summary_texts fixed2 fixed3 megabytes x) 0)|
          exact (Hall threshold (summary_texts fixed2 fixed3 megabytes x) 0)].
Qed.

(** Two threads; the second waits for the mutex and logs a message below the
    threshold without it. *)
Definition demo_msgs : gmap nat (list message) :=
  <[0 := [MCCL_LOG L_ERROR (lit "a.cpp") 7 (lit "bad")]]> {[1 := [MCCL_LOG L_DEBUG (lit "b.cpp") 1 (lit "x"); MCCL_LOG L_WARN (lit "b.cpp") 2 (lit "hm")]]}.

Lemma log_lines_whole_witness :
  exists s ls, log_run L_WARN [(5, 0); (5, 0); (6, 1); (5, 0); (5, 0); (5, 0); (9, 1); (9, 1)] (log_new demo_msgs) = Some s /\
    output s ++ rest s = text_of ls /\ printing s <> None.
Proof.
  assert ((fun s => bool_decide (printing s = None)) <$>
    log_run L_WARN [(5, 0); (5, 0); (6, 1); (5, 0); (5, 0); (5, 0); (9, 1); (9, 1)] (log_new demo_msgs) = Some false) as Hp.
  { vm_compute. reflexivity. }
  destruct (log_run L_WARN _ (log_new demo_msgs)) as [s|] eqn:E; [|done].
  destruct (log_lines_whole _ _ _ _ E) as (ls & H & _). exists s, ls. split; [reflexivity|]. split; [exact H|].
  cbn in Hp. injection Hp as Hp. by apply bool_decide_eq_false in Hp.
Defined.
