(* ===== verification/Agent.v ===== *)
(** The agent process and the control protocol: src/csrc/agent/Protocol.hpp
    and src/csrc/agent/Agent.cpp.

    The protocol structures are the byte images that the compiler lays out on
    the 64-bit little-endian target; [WIRE_SIZE] bytes of them are read or
    written.  A connection is the segments in which the peer's bytes arrive
    until it closes, and the bytes sent back.  The handler is proved against
    the interface [AgentDmem] of the memory manager; [Dmem] is an instance. *)
From S2P Require Import Prelude CString Addr Catalog Rdma Dmem.
#[local] Open Scope nat_scope.

(** ** Protocol.hpp *)

Inductive AgentCmd := PING | REGISTER | DEREGISTER | SHADER_LOAD | SHADER_RUN | SHADER_SYNC
  | STATS | SHUTDOWN.

Definition cmd_code (c : AgentCmd) : Z :=
  match c with
  | PING => 1 | REGISTER => 16 | DEREGISTER => 17 | SHADER_LOAD => 32 | SHADER_RUN => 33
  | SHADER_SYNC => 34 | STATS => 48 | SHUTDOWN => 65535
  end.

(** The enumerator of a received 16-bit value; the enum may hold any value. *)
Definition cmd_of (z : Z) : option AgentCmd :=
  list_find (fun c => cmd_code c = z)
    [PING; REGISTER; DEREGISTER; SHADER_LOAD; SHADER_RUN; SHADER_SYNC; STATS; SHUTDOWN] ≫= fun x => Some x.2.

Inductive AgentStatus := OK | ERR_NOT_FOUND | ERR_MEMORY | ERR_METAL | ERR_RDMA | ERR_INTERNAL.

Definition status_code (s : AgentStatus) : Z :=
  match s with
  | OK => 0 | ERR_NOT_FOUND => 1 | ERR_MEMORY => 2 | ERR_METAL => 3 | ERR_RDMA => 4
  | ERR_INTERNAL => 65535
  end.

(** [AgentHeader]: 8 bytes, without padding. *)
Definition HDR_WIRE : nat := 8.
Definition header_bytes (cmd status payload_len : Z) : list Z :=
  le_bytes 2 cmd ++ le_bytes 2 status ++ le_bytes 4 payload_len.

(** [RegisterRequest]: 24 bytes with its tail padding, of which 17 are on the
    wire. *)
Definition REG_WIRE : nat := 17.
Record RegisterRequest := mkRegReq { rr_buffer_addr : Z; rr_length : Z; rr_flags : Z }.
Definition register_request_of (b : list Z) : RegisterRequest :=
  mkRegReq (le_val (slice 0 8 b)) (le_val (slice 8 8 b)) (le_val (slice 16 1 b)).
Definition register_wire (r : RegisterRequest) : list Z :=
  le_bytes 8 (rr_buffer_addr r) ++ le_bytes 8 (rr_length r) ++ le_bytes 1 (rr_flags r).

(** [RegisterResponse]: 8 bytes. *)
Definition REGRESP_WIRE : nat := 8.
Definition register_response (region_id rkey : Z) : list Z :=
  le_bytes 4 region_id ++ le_bytes 4 rkey.

(** [ShaderRunRequest]: the image has 88 bytes ([element_count] is aligned to
    8, with 4 bytes of padding before it and 3 at the end); [WIRE_SIZE] is the
    sum of the field sizes, 81.  [scale] is given by its bits. *)
Definition RUN_WIRE : nat := 81.
Record ShaderRunRequest := mkRun {
  sr_kernel_name : list Z;   (* char[64] *)
  sr_region_id : Z;
  sr_element_count : Z;
  sr_scale : Z;
  sr_op : Z;
}.
Definition run_image (r : ShaderRunRequest) : list Z :=
  sr_kernel_name r ++ le_bytes 4 (sr_region_id r) ++ replicate 4 0%Z ++
  le_bytes 8 (sr_element_count r) ++ le_bytes 4 (sr_scale r) ++ le_bytes 1 (sr_op r) ++
  replicate 3 0%Z.

(** [StatsResponse]: the image has 56 bytes; [WIRE_SIZE] is 49. *)
Definition STATS_WIRE : nat := 49.
Record StatsResponse := mkStatsResp {
  st_total_put_bytes : Z; st_total_get_bytes : Z; st_total_put_ops : Z; st_total_get_ops : Z;
  st_region_count : Z; st_free_memory : Z; st_gpu_temp_celsius : Z; st_link_state : Z;
}.
Definition stats_image (s : StatsResponse) : list Z :=
  le_bytes 8 (st_total_put_bytes s) ++ le_bytes 8 (st_total_get_bytes s) ++
  le_bytes 8 (st_total_put_ops s) ++ le_bytes 8 (st_total_get_ops s) ++
  le_bytes 4 (st_region_count s) ++ replicate 4 0%Z ++ le_bytes 8 (st_free_memory s) ++
  le_bytes 4 (st_gpu_temp_celsius s) ++ le_bytes 1 (st_link_state s) ++ replicate 3 0%Z.

(** ** Receiving *)

(** [recv_all]: each [recv] returns what is left of the first segment, up to
    the length asked for; at the end of the stream it returns 0 and the call
    fails, with what it had read lost. *)
Fixpoint recv_all (len : nat) (segs : list (list Z)) : option (list Z) * list (list Z) :=
  if Nat.eqb len 0 then (Some [], segs) else
  match segs with
  | [] => (None, [])
  | seg :: rest =>
      if Nat.ltb len (length seg) then (Some (take len seg), drop len seg :: rest)
      else
        let '(r, segs') := recv_all (len - length seg) rest in
        ((fun d => seg ++ d) <$> r, segs')
  end.

(** ** The interface of the memory manager *)

Class AgentDmem (D : Type) := {
  ad_register : Z -> Z -> Z -> M D Z;      (* base_addr, length, flags *)
  ad_unregister : Z -> M D unit;
  ad_stats : D -> Stats;
  ad_shutdown : M D unit;
}.

(** [unregister_region] is called outside of a [try] block: an exception would
    end the process. *)
Class AgentDmemLaws (D : Type) `{!AgentDmem D} : Prop := {
  ad_unregister_returns id d : (ad_unregister id d).1 = Ok tt;
}.

#[export] Instance dmem_agent {W} `{!Ibv W} : AgentDmem (dmem W) := {|
  ad_register := register_region;
  ad_unregister := unregister_region;
  ad_stats := dm_stats;
  ad_shutdown := dm_shutdown;
|}.

#[export] Instance dmem_agent_laws {W} `{!Ibv W} : AgentDmemLaws (dmem W).
Proof. split. intros id d. simpl. unfold unregister_region. mrun. by case_match. Qed.

(** ** Agent.cpp *)

Section Agent.
Context {D G : Type} `{!AgentDmem D}.
(** The GPU and its [metal_sync]: [true] when it returns, [false] when it
    throws. *)
Context (metal_sync : G -> bool * G).

(** The process: the globals and the GPU.  [g_dmem] is null when the
    initialisation failed. *)
Record Agent := mkAgent { g_running : bool; g_dmem : option D; g_gpu : G }.

Definition set_dmem (d : D) (a : Agent) : Agent := mkAgent (g_running a) (Some d) (g_gpu a).

(** How an iteration of the loop ends: the loop goes on, the connection is
    closed, or the process dies (a null [g_dmem] is dereferenced, or an
    exception leaves the thread). *)
Inductive flow := Next | Closed | Crash.

(** One iteration of [handle_connection]: the agent, the rest of the stream,
    the bytes sent. *)
Definition handle_iter (a : Agent) (inp : list (list Z))
  : Agent * list (list Z) * list Z * flow :=
  match recv_all HDR_WIRE inp with
  | (None, inp) => (a, inp, [], Closed)
  | (Some h, inp) =>
      let cmd := le_val (slice 0 2 h) in
      let reply st plen := header_bytes cmd (status_code st) plen in
      match cmd_of cmd with
      | Some PING => (a, inp, reply OK 0%Z, Next)
      | Some REGISTER =>
          match recv_all REG_WIRE inp with
          | (None, inp) => (a, inp, reply ERR_MEMORY 0%Z, Next)
          | (Some b, inp) =>
              let req := register_request_of b in
              if (rr_buffer_addr req =? 0)%Z || (rr_length req =? 0)%Z
              then (a, inp, reply ERR_MEMORY 0%Z, Next)
              else
                match g_dmem a with
                | None => (a, inp, [], Crash)
                | Some d =>
                    match ad_register (rr_buffer_addr req) (rr_length req) (rr_flags req) d with
                    | (Ok id, d') =>
                        (set_dmem d' a, inp,
                         reply OK (Z.of_nat REGRESP_WIRE) ++ register_response id 0, Next)
                    | (Throw _, d') => (set_dmem d' a, inp, reply ERR_MEMORY 0%Z, Next)
                    end
                end
          end
      | Some DEREGISTER =>
          match recv_all 4 inp with
          | (None, inp) => (a, inp, [], Next)
          | (Some b, inp) =>
              match g_dmem a with
              | None => (a, inp, [], Crash)
              | Some d =>
                  match ad_unregister (le_val b) d with
                  | (Ok _, d') => (set_dmem d' a, inp, reply OK 0%Z, Next)
                  | (Throw _, d') => (set_dmem d' a, inp, [], Crash)
                  end
              end
          end
      | Some SHADER_RUN =>
          match recv_all RUN_WIRE inp with
          | (None, inp) => (a, inp, reply ERR_METAL 0%Z, Next)
          | (Some _, inp) => (a, inp, reply OK 0%Z, Next)
          end
      | Some SHADER_SYNC =>
          let '(ok, g) := metal_sync (g_gpu a) in
          (mkAgent (g_running a) (g_dmem a) g, inp,
           reply (if ok : bool then OK else ERR_METAL) 0%Z, Next)
      | Some STATS =>
          match g_dmem a with
          | None => (a, inp, [], Crash)
          | Some d =>
              let st := ad_stats d in
              let s := mkStatsResp (total_put_bytes st) (total_get_bytes st) (total_put_ops st)
                         (total_get_ops st) 0 0 0 1 in
              (a, inp, reply OK (Z.of_nat STATS_WIRE) ++ take STATS_WIRE (stats_image s), Next)
          end
      | Some SHUTDOWN => (mkAgent false (g_dmem a) (g_gpu a), inp, reply OK 0%Z, Next)
      | Some SHADER_LOAD | None => (a, inp, reply ERR_INTERNAL 0%Z, Next)
      end
  end.

(** [handle_connection]; every iteration that goes on has read a header. *)
Fixpoint handle_loop (fuel : nat) (a : Agent) (inp : list (list Z)) : Agent * list Z * flow :=
  if g_running a then
    match fuel with
    | O => (a, [], Next)
    | S fuel' =>
        let '(a1, inp1, out, fl) := handle_iter a inp in
        match fl with
        | Next => let '(a2, out2, fl2) := handle_loop fuel' a1 inp1 in (a2, out ++ out2, fl2)
        | _ => (a1, out, fl)
        end
    end
  else (a, [], Closed).

Definition stream_fuel (inp : list (list Z)) : nat := S (length (concat inp)).
Definition handle_connection (a : Agent) (inp : list (list Z)) : Agent * list Z * flow :=
  handle_loop (stream_fuel inp) a inp.

(** ** agent_main *)

(** The process: the accept loop is blocked in [accept], has left the loop
    and returned, or a handler has killed it.  A connection is the rest of its
    stream and what was sent on it; each is handled by a detached thread. *)
Inductive main_pc := MAccept | MExited | MCrashed.
Record AgentMain := mkMain {
  am_agent : Agent;
  am_conns : list (list (list Z) * list Z);
  am_pc : main_pc;
}.

(** What happens next: [accept] returns a connection or an error, or the
    handler [i] runs one iteration of its loop. *)
Inductive main_ev := EvAccept (inp : list (list Z)) | EvAcceptError | EvHandler (i : nat).

(** After the loop: [if (g_dmem) g_dmem->shutdown()]. *)
Definition agent_exit (a : Agent) : Agent :=
  match g_dmem a with Some d => set_dmem (ad_shutdown d).2 a | None => a end.

(** The test at the top of the loop. *)
Definition accept_again (m : AgentMain) : AgentMain :=
  if g_running (am_agent m) then m
  else mkMain (agent_exit (am_agent m)) (am_conns m) MExited.

Definition main_step (ev : main_ev) (m : AgentMain) : AgentMain :=
  match am_pc m with
  | MAccept =>
      match ev with
      | EvAccept inp => accept_again (mkMain (am_agent m) (am_conns m ++ [(inp, [])]) MAccept)
      | EvAcceptError => accept_again m
      | EvHandler i =>
          match am_conns m !! i with
          | None => m
          | Some (inp, sent) =>
              if g_running (am_agent m) then
                let '(a, inp', out, fl) := handle_iter (am_agent m) inp in
                match fl with
                | Next => mkMain a (<[i := (inp', sent ++ out)]> (am_conns m)) MAccept
                | Closed => mkMain a (delete i (am_conns m)) MAccept
                | Crash => mkMain a (am_conns m) MCrashed
                end
              else mkMain (am_agent m) (delete i (am_conns m)) MAccept
          end
      end
  | _ => m
  end.

Definition main_run (evs : list main_ev) (m : AgentMain) : AgentMain :=
  foldl (fun m ev => main_step ev m) m evs.
End Agent.

(** The arguments: [argv] without the program name. *)
Definition agent_port (argv : list (list Ascii.ascii)) : Z :=
  match argv with p :: _ => u16 (atoi p) | [] => 9800%Z end.
Definition agent_peers (argv : list (list Ascii.ascii)) : Z :=
  match argv with _ :: n :: _ => atoi n | _ => 3%Z end.

(** The part of [agent_main] before the accept loop, without the Metal
    initialisation, whose failure is ignored: the memory manager is started,
    or [g_dmem] stays null. *)
Definition agent_init {W G} `{!Ibv W} (argv : list (list Ascii.ascii))
    (posix_memalign : Z -> Z) (mem : Z -> Z) (g : G) (w : W) : @Agent (dmem W) G :=
  mkAgent true
    (match (dm_create 0 (agent_peers argv) 256 posix_memalign mem w).1 with
     | Ok d => Some (dm_start d).2
     | Throw _ => None
     end) g.

(** ** Receiving, whatever the segmentation *)

Lemma recv_all_some len segs :
  len <= length (concat segs) ->
  exists segs', recv_all len segs = (Some (take len (concat segs)), segs') /\
    concat segs' = drop len (concat segs).
Proof.
  revert len; induction segs as [|seg segs IH]; intros len Hl.
  - simpl in Hl. replace len with 0 by lia. by exists [].
  - simpl. destruct (Nat.eqb_spec len 0) as [->|Hz]; [eexists; by rewrite take_0, drop_0|].
    destruct (Nat.ltb_spec len (length seg)).
    + eexists. split; [by rewrite take_app_le by lia|]. simpl. by rewrite drop_app_le by lia.
    + simpl in Hl. rewrite length_app in Hl.
      destruct (IH (len - length seg)) as (segs' & -> & Hc); [lia|].
      exists segs'. rewrite take_app_ge, drop_app_ge by lia. done.
Qed.

Lemma recv_all_none len segs : length (concat segs) < len -> recv_all len segs = (None, []).
Proof.
  revert len; induction segs as [|seg segs IH]; intros len Hl; simpl in *.
  - by destruct (Nat.eqb_spec len 0); [lia|].
  - rewrite length_app in Hl. destruct (Nat.eqb_spec len 0); [lia|].
    destruct (Nat.ltb_spec len (length seg)); [lia|]. rewrite IH by lia. done.
Qed.

Lemma recv_all_cases len segs :
  (exists d segs', recv_all len segs = (Some d, segs') /\ length d = len /\
     concat segs = d ++ concat segs') \/
  (recv_all len segs = (None, []) /\ length (concat segs) < len).
Proof.
  destruct (decide (len <= length (concat segs))) as [Hl|Hl].
  - left. destruct (recv_all_some _ _ Hl) as (segs' & -> & Hc). eexists _, _. split; [done|].
    rewrite Hc. rewrite length_take, take_drop. split; [lia|done].
  - right. split; [|lia]. apply recv_all_none. lia.
Qed.

(** A message in front of the stream is read whole. *)
Lemma recv_all_front d rest segs :
  concat segs = d ++ rest ->
  exists segs', recv_all (length d) segs = (Some d, segs') /\ concat segs' = rest.
Proof.
  intros E. destruct (recv_all_some (length d) segs) as (segs' & Er & Hc).
  { rewrite E, length_app. lia. }
  rewrite E, take_app_length in Er. rewrite E, drop_app_length in Hc. eauto.
Qed.

Lemma length_header_bytes c s p : length (header_bytes c s p) = 8.
Proof. unfold header_bytes. by rewrite !length_app, !length_le_bytes. Qed.

(** A field of a structure image, read back. *)
Lemma le_val_field n v pre rest :
  (0 <= v < 2 ^ (8 * Z.of_nat n))%Z ->
  le_val (slice (length pre) n (pre ++ le_bytes n v ++ rest)) = v.
Proof.
  intros Hv. unfold slice. rewrite drop_app_length.
  rewrite <- (length_le_bytes n v) at 1. rewrite take_app_length. by apply le_val_bytes_small.
Qed.

Lemma header_cmd c s p : (0 <= c < 2 ^ 16)%Z -> le_val (slice 0 2 (header_bytes c s p)) = c.
Proof. intros Hc. by apply (le_val_field 2 c []). Qed.

Lemma cmd_code_range c : (0 <= cmd_code c < 2 ^ 16)%Z.
Proof. destruct c; simpl; lia. Qed.

Lemma cmd_of_code c : cmd_of (cmd_code c) = Some c.
Proof. by destruct c. Qed.

Lemma cmd_of_Some z c : cmd_of z = Some c -> z = cmd_code c.
Proof.
  unfold cmd_of. destruct (list_find _ _) as [[k x]|] eqn:E; [|done]. cbn. intros [= <-].
  by apply list_find_Some in E as (_ & <- & _).
Qed.

Lemma cmd_of_None z : cmd_of z = None -> forall c, cmd_code c <> z.
Proof. intros H c <-. by rewrite cmd_of_code in H. Qed.

(** ** The typed protocol

    What the agent promises per request, without bytes. *)

Inductive request :=
  | RPing | RRegister (r : RegisterRequest) | RDeregister (id : Z) | RShaderRun (body : list Z)
  | RShaderSync | RStats | RShutdown
  | ROther (cmd : Z).        (* SHADER_LOAD or a code without meaning *)

Record response := mkResp { rs_cmd : Z; rs_status : AgentStatus; rs_payload : list Z }.

Definition request_cmd (r : request) : Z :=
  match r with
  | RPing => cmd_code PING | RRegister _ => cmd_code REGISTER | RDeregister _ => cmd_code DEREGISTER
  | RShaderRun _ => cmd_code SHADER_RUN | RShaderSync => cmd_code SHADER_SYNC
  | RStats => cmd_code STATS | RShutdown => cmd_code SHUTDOWN | ROther c => c
  end.
Definition request_body (r : request) : list Z :=
  match r with
  | RRegister q => register_wire q | RDeregister id => le_bytes 4 id | RShaderRun b => b | _ => []
  end.
Definition encode_request (r : request) : list Z :=
  header_bytes (request_cmd r) 0 (Z.of_nat (length (request_body r))) ++ request_body r.
Definition encode_response (r : response) : list Z :=
  header_bytes (rs_cmd r) (status_code (rs_status r)) (Z.of_nat (length (rs_payload r)))
    ++ rs_payload r.

Definition wf_request (r : request) : Prop :=
  match r with
  | RRegister q => (0 <= rr_buffer_addr q < 2 ^ 64)%Z /\ (0 <= rr_length q < 2 ^ 64)%Z /\
      (0 <= rr_flags q < 2 ^ 8)%Z
  | RDeregister id => (0 <= id < 2 ^ 32)%Z
  | RShaderRun b => length b = RUN_WIRE
  | ROther c => (0 <= c < 2 ^ 16)%Z /\ (cmd_of c = None \/ cmd_of c = Some SHADER_LOAD)
  | _ => True
  end.

Section Serving.
Context {D G : Type} `{!AgentDmem D}.
Context (metal_sync : G -> bool * G).

Definition answer (r : request) (st : AgentStatus) (payload : list Z) : response :=
  mkResp (request_cmd r) st payload.

(** What one request does to an agent whose memory manager is [d]. *)
Definition serve (r : request) (d : D) (g : G) : D * G * response :=
  match r with
  | RPing | RShaderRun _ | RShutdown => (d, g, answer r OK [])
  | RRegister q =>
      if (rr_buffer_addr q =? 0)%Z || (rr_length q =? 0)%Z then (d, g, answer r ERR_MEMORY [])
      else
        match ad_register (rr_buffer_addr q) (rr_length q) (rr_flags q) d with
        | (Ok id, d') => (d', g, answer r OK (register_response id 0))
        | (Throw _, d') => (d', g, answer r ERR_MEMORY [])
        end
  | RDeregister id => ((ad_unregister id d).2, g, answer r OK [])
  | RShaderSync =>
      let '(ok, g') := metal_sync g in
      (d, g', answer r (if ok : bool then OK else ERR_METAL) [])
  | RStats =>
      let st := ad_stats d in
      (d, g, answer r OK (take STATS_WIRE (stats_image
        (mkStatsResp (total_put_bytes st) (total_get_bytes st) (total_put_ops st)
           (total_get_ops st) 0 0 0 1))))
  | ROther _ => (d, g, answer r ERR_INTERNAL [])
  end.

(** A sequence of requests is served in order, up to the first shutdown. *)
Fixpoint serve_all (rs : list request) (d : D) (g : G) : bool * D * G * list response :=
  match rs with
  | [] => (true, d, g, [])
  | r :: rs' =>
      let '(d1, g1, p) := serve r d g in
      match r with
      | RShutdown => (false, d1, g1, [p])
      | _ => let '(run, d2, g2, ps) := serve_all rs' d1 g1 in (run, d2, g2, p :: ps)
      end
  end.

Context `{!AgentDmemLaws D}.

Lemma register_wire_parse q :
  wf_request (RRegister q) -> register_request_of (register_wire q) = q.
Proof.
  intros (Ha & Hl & Hf). destruct q as [a l f]. unfold register_request_of, register_wire.
  cbn [rr_buffer_addr rr_length rr_flags] in *. f_equal.
  - by apply (le_val_field 8 a [] _).
  - pose proof (le_val_field 8 l (le_bytes 8 a) (le_bytes 1 f)) as H.
    rewrite length_le_bytes in H. by apply H.
  - pose proof (le_val_field 1 f (le_bytes 8 a ++ le_bytes 8 l) []) as H.
    rewrite length_app, !length_le_bytes, app_nil_r, <- app_assoc in H. by apply H.
Qed.

Lemma stats_wire_length s : length (take STATS_WIRE (stats_image s)) = STATS_WIRE.
Proof.
  rewrite length_take. unfold stats_image.
  rewrite !length_app, !length_replicate, !length_le_bytes. done.
Qed.

Ltac wire :=
  cbn [serve answer rs_cmd rs_status rs_payload length g_running g_dmem g_gpu set_dmem request_cmd];
  rewrite ?app_nil_r; reflexivity.

(** One iteration on a well-formed request. *)
Lemma handle_iter_request r d g rest inp :
  wf_request r -> concat inp = encode_request r ++ rest ->
  exists inp', concat inp' = rest /\
    handle_iter metal_sync (mkAgent true (Some d) g) inp =
      let '(d', g', p) := serve r d g in
      (mkAgent (match r with RShutdown => false | _ => true end) (Some d') g', inp',
       encode_response p, Next).
Proof.
  intros Hwf E. unfold encode_request in E. rewrite <- app_assoc in E.
  destruct (recv_all_front _ _ _ E) as (inp1 & E1 & Hc1). rewrite length_header_bytes in E1.
  unfold handle_iter, HDR_WIRE. rewrite E1.
  rewrite header_cmd by (destruct r; simpl in *; intuition lia).
  destruct (recv_all_front _ _ _ Hc1) as (inp2 & E2 & Hc2).
  unfold encode_response. 
  destruct r as [|q|id|b| | | |c]; simpl request_cmd in *; rewrite ?cmd_of_code.
  - exists inp1. split; [done|]. wire.
  - exists inp2. split; [done|]. cbn [request_body] in E2. unfold register_wire in E2 at 1.
    rewrite !length_app, !length_le_bytes in E2. change (8 + (8 + 1)) with REG_WIRE in E2. rewrite E2.
    rewrite register_wire_parse by done. cbn [serve g_dmem].
    destruct (_ || _); [wire|].
    destruct (ad_register _ _ _ d) as [[id|e] d']; wire.
  - exists inp2. split; [done|]. cbn [request_body] in E2. rewrite length_le_bytes in E2. rewrite E2.
    cbn [g_dmem serve]. pose proof (ad_unregister_returns (D:=D) (le_val (le_bytes 4 id)) d) as Hr.
    rewrite le_val_bytes_small in * by (simpl in Hwf; lia).
    destruct (ad_unregister id d) as [[u|e] d']; [|done]. wire.
  - exists inp2. split; [done|]. cbn [request_body] in E2. simpl in Hwf. rewrite Hwf in E2.
    rewrite E2. wire.
  - exists inp1. split; [done|]. cbn [serve g_gpu]. destruct (metal_sync g) as [ok g'].
    destruct ok; wire.
  - exists inp1. split; [done|]. cbn [g_dmem serve answer rs_cmd rs_status rs_payload].
    by rewrite stats_wire_length.
  - exists inp1. split; [done|]. wire.
  - exists inp1. split; [done|]. destruct Hwf as [_ [-> | ->]]; wire.
Qed.

Lemma length_encode_request r : 8 <= length (encode_request r).
Proof. unfold encode_request. rewrite length_app, length_header_bytes. lia. Qed.

Lemma handle_loop_requests rs fuel d g inp :
  Forall wf_request rs -> concat inp = concat (encode_request <$> rs) ->
  length (concat inp) < fuel ->
  handle_loop metal_sync fuel (mkAgent true (Some d) g) inp =
    let '(run, d', g', ps) := serve_all rs d g in
    (mkAgent run (Some d') g', concat (encode_response <$> ps), Closed).
Proof.
  intros Hwf. revert fuel d g inp. induction Hwf as [|r rs Hr _ IH]; intros fuel d g inp E Hf.
  - destruct fuel as [|fuel]; [lia|]. cbn [handle_loop g_running]. unfold handle_iter.
    rewrite recv_all_none by (rewrite E; simpl; unfold HDR_WIRE; lia). done.
  - destruct fuel as [|fuel]; [lia|]. rewrite fmap_cons in E. cbn [concat] in E.
    cbn [handle_loop g_running].
    destruct (handle_iter_request r d g (concat (encode_request <$> rs)) inp Hr E)
      as (inp' & Hc & ->).
    rewrite E, length_app in Hf. pose proof (length_encode_request r).
    assert (length (concat inp') < fuel) as Hf' by (rewrite Hc; lia).
    cbn [serve_all]. destruct (serve r d g) as [[d1 g1] p1] eqn:Es.
    destruct r; try (rewrite (IH fuel d1 g1 inp' Hc Hf');
      destruct (serve_all rs d1 g1) as [[[run d2] g2] ps]; done).
    destruct fuel; [lia|]. done.
Qed.
End Serving.

(** C33: The control protocol: an agent whose memory manager was initialised
    answers every sequence of well-formed requests, however the network
    segments their bytes, with exactly the responses of the typed protocol, in
    order, one per request; registrations and deregistrations act on the
    memory manager in that order; it stops after the first shutdown. *)
Theorem agent_serves_requests {D G} `{!AgentDmem D, !AgentDmemLaws D}
    (metal_sync : G -> bool * G) rs d g inp :
  Forall wf_request rs -> concat inp = concat (encode_request <$> rs) ->
  handle_connection metal_sync (mkAgent true (Some d) g) inp =
    let '(run, d', g', ps) := serve_all metal_sync rs d g in
    (mkAgent run (Some d') g', concat (encode_response <$> ps), Closed).
Proof.
  intros Hwf E. apply handle_loop_requests; [done..|]. unfold stream_fuel. lia.
Qed.

Lemma agent_serves_requests_witness :
  let rs := [RPing; RRegister (mkRegReq 10000 500 3); RDeregister 1; RStats; RShutdown; RPing] in
  let inp := [take 5 (concat (encode_request <$> rs)); drop 5 (concat (encode_request <$> rs))] in
  let d := sim_dmem 0 [] (fun _ => 0%Z) in
  let '(_, out, fl) := handle_connection (fun g : unit => (true, g)) (mkAgent true (Some d) tt) inp in
  fl = Closed /\ length out = 97.
Proof.
  cbv zeta. set (inp := [take 5 _; drop 5 _]).
  set (d := sim_dmem 0 [] (fun _ => 0%Z)).
  rewrite (agent_serves_requests (fun g : unit => (true, g))
    [RPing; RRegister (mkRegReq 10000 500 3); RDeregister 1; RStats; RShutdown; RPing] d tt inp).
  - vm_compute. split; reflexivity.
  - repeat constructor; simpl; lia.
  - vm_compute. reflexivity.
Defined.

(** ** Any client *)

(** The responses the agent can give: a payload comes only with [OK] and has
    the size of its structure. *)
Definition wf_response (p : response) : Prop :=
  (0 <= rs_cmd p < 2 ^ 16)%Z /\ Forall is_byte (rs_payload p) /\
  (rs_payload p = [] \/
   rs_status p = OK /\
     (rs_cmd p = cmd_code REGISTER /\ length (rs_payload p) = REGRESP_WIRE \/
      rs_cmd p = cmd_code STATS /\ length (rs_payload p) = STATS_WIRE)).

Definition status_of (z : Z) : option AgentStatus :=
  list_find (fun c => status_code c = z)
    [OK; ERR_NOT_FOUND; ERR_MEMORY; ERR_METAL; ERR_RDMA; ERR_INTERNAL] ≫= fun x => Some x.2.

(** How a client cuts a stream of responses: a header, then [payload_len]
    bytes. *)
Fixpoint parse_responses (fuel : nat) (b : list Z) : option (list response) :=
  match b with
  | [] => Some []
  | _ =>
    match fuel with
    | O => None
    | S fuel' =>
        let n := Z.to_nat (le_val (slice 4 4 b)) in
        st ← status_of (le_val (slice 2 2 b));
        if Nat.leb (8 + n) (length b) then
          ps ← parse_responses fuel' (drop (8 + n) b);
          Some (mkResp (le_val (slice 0 2 b)) st (slice 8 n b) :: ps)
        else None
    end
  end.

Lemma header_fields c s p pl rest :
  (0 <= c < 2 ^ 16)%Z -> (0 <= s < 2 ^ 16)%Z -> (0 <= p < 2 ^ 32)%Z ->
  let b := (header_bytes c s p ++ pl) ++ rest in
  le_val (slice 0 2 b) = c /\ le_val (slice 2 2 b) = s /\ le_val (slice 4 4 b) = p /\
  slice 8 (length pl) b = pl /\ drop (8 + length pl) b = rest.
Proof.
  intros Hc Hs Hp b. unfold b, header_bytes. split_and!.
  - rewrite <- !app_assoc. by apply (le_val_field 2 c []).
  - rewrite <- !app_assoc. pose proof (le_val_field 2 s (le_bytes 2 c)) as H.
    rewrite length_le_bytes in H. by apply H.
  - rewrite <- !app_assoc, (app_assoc (le_bytes 2 c)).
    pose proof (le_val_field 4 p (le_bytes 2 c ++ le_bytes 2 s)) as H.
    rewrite length_app, !length_le_bytes in H. by apply H.
  - unfold slice. fold (header_bytes c s p). rewrite <- app_assoc.
    rewrite <- (length_header_bytes c s p), drop_app_length. by rewrite take_app_length.
  - fold (header_bytes c s p). rewrite <- (length_header_bytes c s p), <- length_app.
    by rewrite drop_app_length.
Qed.

Lemma wf_payload_length p : wf_response p -> length (rs_payload p) <= STATS_WIRE.
Proof.
  intros (_ & _ & [-> | (_ & [[_ ->]|[_ ->]])]); unfold STATS_WIRE, REGRESP_WIRE; simpl; lia.
Qed.

Lemma parse_encode ps fuel :
  Forall wf_response ps -> length ps <= fuel ->
  parse_responses fuel (concat (encode_response <$> ps)) = Some ps.
Proof.
  intros Hwf. revert fuel. induction Hwf as [|p ps Hp _ IH]; intros fuel Hf.
  { by destruct fuel. }
  destruct fuel as [|fuel]; simpl in Hf; [lia|].
  rewrite fmap_cons. cbn [concat].
  pose proof (wf_payload_length p Hp) as Hlen. destruct Hp as (Hc & _ & _).
  set (rest := concat (encode_response <$> ps)) in *.
  destruct (header_fields (rs_cmd p) (status_code (rs_status p)) (Z.of_nat (length (rs_payload p)))
    (rs_payload p) rest) as (H1 & H2 & H3 & H4 & H5); [done|by destruct (rs_status p)| |].
  { unfold STATS_WIRE in Hlen. lia. }
  cbv zeta in *. fold (encode_response p) in *.
  assert (8 + length (rs_payload p) <= length (encode_response p ++ rest)) as Hle.
  { unfold encode_response. rewrite !length_app, length_header_bytes. lia. }
  destruct (encode_response p ++ rest) as [|x l] eqn:E; [simpl in Hle; lia|].
  cbn [parse_responses]. rewrite H1, H2, H3, Nat2Z.id, H4, H5.
  assert (status_of (status_code (rs_status p)) = Some (rs_status p)) as -> by by destruct (rs_status p).
  cbn [mbind option_bind]. rewrite (proj2 (Nat.leb_le _ _)) by done.
  rewrite IH by lia. by destruct p.
Qed.

Section AnyClient.
Context {D G : Type} `{!AgentDmem D}.
Context (metal_sync : G -> bool * G).

Definition framed (out : list Z) : Prop :=
  exists ps, out = concat (encode_response <$> ps) /\ Forall wf_response ps /\ length ps <= 1.

Lemma framed_nil : framed [].
Proof. exists []. by repeat constructor. Qed.

Lemma framed_one c st pl :
  (0 <= c < 2 ^ 16)%Z -> wf_response (mkResp c st pl) ->
  framed (header_bytes c (status_code st) (Z.of_nat (length pl)) ++ pl).
Proof.
  intros Hc Hwf. exists [mkResp c st pl]. split_and!; [|constructor; [done|constructor]|simpl; lia].
  rewrite fmap_cons. cbn [concat]. by rewrite app_nil_r.
Qed.

Lemma framed_empty c st : (0 <= c < 2 ^ 16)%Z -> framed (header_bytes c (status_code st) 0).
Proof.
  intros Hc. pose proof (framed_one c st [] Hc) as H. rewrite app_nil_r in H. apply H.
  repeat split; simpl; [lia..|by constructor|by left].
Qed.

Lemma stats_wire_bytes s : Forall is_byte (take STATS_WIRE (stats_image s)).
Proof.
  apply Forall_take. unfold stats_image. rewrite !Forall_app.
  assert (forall n, Forall is_byte (replicate n 0%Z)) by (intros n; by apply Forall_replicate).
  split_and!; auto using le_bytes_is_byte.
Qed.

(** The rest of the stream after a successful or failed read. *)
Definition suffix_of (inp inp' : list (list Z)) : Prop := exists d, concat inp = d ++ concat inp'.

Lemma recv_all_suffix len inp r inp' : recv_all len inp = (r, inp') -> suffix_of inp inp'.
Proof.
  intros E. destruct (recv_all_cases len inp) as [(d & i & E' & _ & Hc)|[E' _]];
    rewrite E' in E; simplify_eq.
  - by exists d.
  - exists (concat inp). by rewrite app_nil_r.
Qed.

Ltac framed_tac :=
  first [ apply framed_nil | by apply (framed_empty _ OK) | by apply (framed_empty _ ERR_MEMORY)
        | by apply (framed_empty _ ERR_METAL) | by apply (framed_empty _ ERR_INTERNAL) ].

(** A response is sent and the iteration ends. *)
Ltac answer_ends H := intros [= <- <- <- <-]; apply H; [by framed_tac|done..].

(** Every iteration that goes on has consumed a header and sent nothing or one
    well-formed response. *)
Lemma handle_iter_framed a inp a' inp' out fl :
  Forall is_byte (concat inp) ->
  handle_iter metal_sync a inp = (a', inp', out, fl) ->
  framed out /\ suffix_of inp inp' /\
  (fl = Next -> length (concat inp') + 8 <= length (concat inp)) /\ (fl <> Next -> out = []).
Proof.
  intros Hb. unfold handle_iter, HDR_WIRE.
  destruct (recv_all_cases 8 inp) as [(h & inp1 & -> & Hh & Hc)|[-> _]].
  2: { intros [= <- <- <- <-]. split_and!; [framed_tac| |done|done].
       exists (concat inp). by rewrite app_nil_r. }
  assert (forall i, suffix_of inp1 i -> suffix_of inp i /\ length (concat i) + 8 <= length (concat inp))
    as Hsuf.
  { intros i [d Hd]. rewrite Hc, Hd, !length_app, Hh. split; [|lia].
    exists (h ++ d). rewrite Hc, Hd; by rewrite <- app_assoc. }
  assert (0 <= le_val (slice 0 2 h) < 2 ^ 16)%Z as Hcmd.
  { rewrite Hc, Forall_app in Hb. pose proof (le_val_range (slice 0 2 h)) as Hr.
    rewrite length_slice in Hr by lia. destruct Hb as [Hb _]. apply Hr. unfold slice. by apply Forall_take, Forall_drop. }
  set (cmd := le_val (slice 0 2 h)) in *. cbv zeta.
  assert (suffix_of inp1 inp1) as Hrefl by by exists [].
  assert (forall st i x, framed x -> suffix_of inp1 i -> (st <> Next -> x = []) ->
    framed x /\ suffix_of inp i /\ (st = Next -> length (concat i) + 8 <= length (concat inp)) /\
    (st <> Next -> x = [])) as Hdone.
  { intros st i x Hx Hi Hn. destruct (Hsuf i Hi). by split_and!. }
  destruct (cmd_of cmd) as [[]|] eqn:Ecmd;
    try answer_ends Hdone.
  - destruct (recv_all REG_WIRE inp1) as [[b|] inp2] eqn:E2; apply recv_all_suffix in E2;
      [|answer_ends Hdone].
    destruct (_ || _); [answer_ends Hdone|].
    destruct (g_dmem a) as [d|]; [|answer_ends Hdone].
    destruct (ad_register _ _ _ d) as [[id|e] d'];
      intros [= <- <- <- <-]; apply Hdone; try done; [|by framed_tac].
    assert (cmd = cmd_code REGISTER) as Hreg by by apply cmd_of_Some.
    assert (length (register_response id 0) = REGRESP_WIRE) as Hl
      by (unfold register_response; by rewrite length_app, !length_le_bytes).
    rewrite <- Hl. apply (framed_one _ OK); [done|]. split; [done|]. split.
    + apply Forall_app. split; apply le_bytes_is_byte.
    + right. split; [done|]. by left.
  - destruct (recv_all 4 inp1) as [[b|] inp2] eqn:E2; apply recv_all_suffix in E2;
      [|answer_ends Hdone].
    destruct (g_dmem a) as [d|]; [|answer_ends Hdone].
    destruct (ad_unregister _ d) as [[id|e] d'];
      intros [= <- <- <- <-]; apply Hdone; try done; [by framed_tac|framed_tac].
  - destruct (recv_all RUN_WIRE inp1) as [[b|] inp2] eqn:E2; apply recv_all_suffix in E2;
      intros [= <- <- <- <-]; apply Hdone; try done; by framed_tac.
  - destruct (metal_sync _) as [[] g]; intros [= <- <- <- <-]; apply Hdone; try done; by framed_tac.
  - destruct (g_dmem a) as [d|]; [|answer_ends Hdone].
    assert (cmd = cmd_code STATS) as Hst by by apply cmd_of_Some.
    match goal with |- context [take STATS_WIRE (stats_image ?s)] =>
      pose proof (stats_wire_length s) as Hl; pose proof (stats_wire_bytes s) as Hsb;
      generalize dependent (take STATS_WIRE (stats_image s)); intros pl Hl Hsb end.
    intros [= <- <- <- <-]. apply Hdone; [|done..].
    rewrite <- Hl. apply (framed_one _ OK); [done|]. split; [done|]. split; [done|].
    right. split; [done|]. by right.
Qed.

Lemma handle_loop_framed fuel a inp :
  Forall is_byte (concat inp) -> length (concat inp) < fuel ->
  let '(_, out, fl) := handle_loop metal_sync fuel a inp in
  fl <> Next /\ exists ps, out = concat (encode_response <$> ps) /\ Forall wf_response ps /\
    8 * length ps <= length (concat inp).
Proof.
  revert a inp; induction fuel as [|fuel IH]; intros a inp Hb Hf; [lia|]. cbn [handle_loop].
  destruct (g_running a); [|split; [done|]; exists []; split_and!; [done|constructor|simpl; lia]].
  destruct (handle_iter metal_sync a inp) as [[[a1 inp1] out] fl] eqn:E.
  destruct (handle_iter_framed _ _ _ _ _ _ Hb E) as ((ps & -> & Hps & Hl) & [d Hd] & Hnext & Hout).
  destruct fl; [|rewrite Hout by done; split; [done|]; exists []; split_and!; [done|constructor|simpl; lia]..].
  specialize (Hnext eq_refl). rewrite Hd, Forall_app in Hb. destruct Hb as [_ Hb1].
  specialize (IH a1 inp1 Hb1 ltac:(lia)).
  destruct (handle_loop metal_sync fuel a1 inp1) as [[a2 out2] fl2].
  destruct IH as (Hfl & ps2 & -> & Hps2 & Hl2). split; [done|]. exists (ps ++ ps2).
  rewrite fmap_app, concat_app, Forall_app, length_app. split_and!; [done..|lia].
Qed.

(** C34: Whatever bytes a client sends, in whatever segments, the loop ends (the
    connection is closed or the process dies), and what the agent has sent is
    a sequence of well-formed responses that a client recovers by reading
    headers and [payload_len] bytes: never more than one response per eight
    bytes received. *)
Theorem agent_output_well_formed a inp :
  Forall is_byte (concat inp) ->
  let '(_, out, fl) := handle_connection metal_sync a inp in
  fl <> Next /\ exists ps, Forall wf_response ps /\
    parse_responses (length ps) out = Some ps /\ 8 * length ps <= length (concat inp).
Proof.
  intros Hb. unfold handle_connection.
  pose proof (handle_loop_framed (stream_fuel inp) a inp Hb ltac:(unfold stream_fuel; lia)) as H.
  destruct (handle_loop _ _ a inp) as [[a' out] fl]. destruct H as (Hfl & ps & -> & Hps & Hl).
  split; [done|]. exists ps. split_and!; [done| |done]. by apply parse_encode.
Qed.
End AnyClient.

Lemma agent_output_well_formed_witness :
  let inp := [[1; 0; 0]; [0; 0; 0; 0; 0; 99; 7; 0; 0; 0; 0; 0; 0; 48; 0; 0]]%Z in
  let '(_, out, fl) := handle_connection (fun g : unit => (true, g))
    (mkAgent true (Some (sim_dmem 0 [] (fun _ => 0%Z))) tt) inp in
  fl <> Next /\ exists ps, parse_responses (length ps) out = Some ps /\ ps <> [].
Proof.
  cbv zeta.
  assert (Forall is_byte (concat [[1; 0; 0]; [0; 0; 0; 0; 0; 99; 7; 0; 0; 0; 0; 0; 0; 48; 0; 0]]%Z)) as Hb
    by (unfold is_byte; repeat constructor; lia).
  pose proof (agent_output_well_formed (fun g : unit => (true, g))
    (mkAgent true (Some (sim_dmem 0 [] (fun _ => 0%Z))) tt) _ Hb) as H.
  destruct (handle_connection _ _ _) as [[a out] fl] eqn:E. destruct H as (Hfl & ps & _ & Hp & _).
  split; [exact Hfl|]. exists ps. split; [exact Hp|].
  intros ->. vm_compute in E. injection E as _ <- _. discriminate Hp.
Defined.

(** ** The requests of the head

    The head sends [sizeof(ShaderRunRequest)] bytes, the agent reads
    [WIRE_SIZE]. *)

(** [::send(sock, &hdr, sizeof(hdr)); ::send(sock, &req, sizeof(req))]. *)
Definition head_shader_run (r : ShaderRunRequest) : list Z :=
  header_bytes (cmd_code SHADER_RUN) (status_code OK) (Z.of_nat RUN_WIRE) ++ run_image r.

(** [disconnect_agent]. *)
Definition head_shutdown : list Z := header_bytes (cmd_code SHUTDOWN) (status_code OK) 0.

(** What the head fills in: the name, the count, and zeroes. *)
Definition head_request (name : list Z) (count : Z) : ShaderRunRequest := mkRun name 0 count 0 0.

Section Desync.
Context {D G : Type} `{!AgentDmem D}.
Context (metal_sync : G -> bool * G).

Lemma run_image_split name count :
  length name = 64 ->
  exists body, length body = RUN_WIRE /\
    run_image (head_request name count) = body ++ replicate 7 0%Z.
Proof.
  intros Hn. exists (name ++ le_bytes 4 0 ++ replicate 4 0%Z ++ le_bytes 8 count ++ [0%Z]).
  rewrite !length_app, Hn, !length_le_bytes. split; [done|].
  unfold run_image, head_request.
  cbn [sr_kernel_name sr_region_id sr_element_count sr_scale sr_op].
  by rewrite <- !app_assoc.
Qed.

Lemma handle_iter_run a body rest inp :
  length body = RUN_WIRE ->
  concat inp = header_bytes (cmd_code SHADER_RUN) (status_code OK) (Z.of_nat RUN_WIRE) ++ body ++ rest ->
  exists inp', concat inp' = rest /\
    handle_iter metal_sync a inp =
      (a, inp', encode_response (mkResp (cmd_code SHADER_RUN) OK []), Next).
Proof.
  intros Hb E. destruct (recv_all_front _ _ _ E) as (inp1 & E1 & Hc1). rewrite length_header_bytes in E1.
  destruct (recv_all_front _ _ _ Hc1) as (inp2 & E2 & Hc2). rewrite Hb in E2.
  exists inp2. split; [done|]. unfold handle_iter, HDR_WIRE. rewrite E1, header_cmd by (simpl; lia).
  rewrite cmd_of_code, E2. unfold encode_response. simpl rs_payload. by rewrite app_nil_r.
Qed.

Lemma handle_iter_zero a h rest inp :
  concat inp = h ++ rest -> length h = 8 -> le_val (slice 0 2 h) = 0%Z ->
  exists inp', concat inp' = rest /\
    handle_iter metal_sync a inp = (a, inp', encode_response (mkResp 0 ERR_INTERNAL []), Next).
Proof.
  intros E Hh Hv. destruct (recv_all_front _ _ _ E) as (inp1 & E1 & Hc1). rewrite Hh in E1.
  exists inp1. split; [done|]. unfold handle_iter, HDR_WIRE. rewrite E1, Hv. done.
Qed.

Lemma handle_loop_next fuel a inp a1 inp1 out :
  g_running a = true -> handle_iter metal_sync a inp = (a1, inp1, out, Next) ->
  handle_loop metal_sync (S fuel) a inp =
    let '(a2, out2, fl2) := handle_loop metal_sync fuel a1 inp1 in (a2, out ++ out2, fl2).
Proof. intros Hr E. cbn [handle_loop]. by rewrite Hr, E. Qed.

(** The 7 bytes that the head sends beyond [WIRE_SIZE] are read as the start of
    the next header: after one dispatch the agent acknowledges it, answers the
    next request, whatever it is, with [ERR_INTERNAL] for command 0, and a
    shutdown is not recognised, so the agent goes on running; a second dispatch
    gets two such errors before its kernel name is read as headers. *)
Theorem head_dispatch_desyncs a name count inp :
  g_running a = true -> length name = 64 ->
  (concat inp = head_shader_run (head_request name count) ++ head_shutdown ->
     handle_connection metal_sync a inp =
       (a, concat (encode_response <$>
          [mkResp (cmd_code SHADER_RUN) OK []; mkResp 0 ERR_INTERNAL []]), Closed)) /\
  (forall name2 count2, length name2 = 64 ->
     concat inp = head_shader_run (head_request name count) ++
                  head_shader_run (head_request name2 count2) ->
     exists out, (handle_connection metal_sync a inp).1.2 =
       concat (encode_response <$>
         [mkResp (cmd_code SHADER_RUN) OK []; mkResp 0 ERR_INTERNAL []; mkResp 0 ERR_INTERNAL []])
       ++ out).
Proof.
  intros Hr Hn. destruct (run_image_split name count Hn) as (body & Hb & Ei).
  unfold head_shader_run at 1 2. rewrite Ei. unfold handle_connection, stream_fuel.
  split.
  - intros E. rewrite <- !app_assoc in E. rewrite E.
    destruct (handle_iter_run a body _ inp Hb E) as (inp1 & Hc1 & E1).
    change (replicate 7 0%Z ++ head_shutdown)
      with ([0;0;0;0;0;0;0;255] ++ [255;0;0;0;0;0;0])%Z in Hc1.
    destruct (handle_iter_zero a _ _ inp1 Hc1 eq_refl eq_refl) as (inp2 & Hc2 & E2).
    rewrite !length_app, length_header_bytes, Hb, length_replicate. simpl Nat.add.
    rewrite (handle_loop_next _ _ _ _ _ _ Hr E1), (handle_loop_next _ _ _ _ _ _ Hr E2).
    cbn [handle_loop]. rewrite Hr. unfold handle_iter.
    rewrite recv_all_none by (rewrite Hc2; unfold HDR_WIRE; simpl; lia).
    by rewrite app_nil_r.
  - intros name2 count2 Hn2 E. rewrite <- !app_assoc in E.
    destruct (handle_iter_run a body _ inp Hb E) as (inp1 & Hc1 & E1).
    destruct name2 as [|x name2]; [done|].
    change (replicate 7 0%Z ++ head_shader_run (head_request (x :: name2) count2)) with
      ([0;0;0;0;0;0;0;33] ++ [0;0;0;81;0;0;0;x] ++
        run_image (head_request name2 count2))%Z in Hc1.
    destruct (handle_iter_zero a _ _ inp1 Hc1 eq_refl eq_refl) as (inp2 & Hc2 & E2).
    destruct (handle_iter_zero a _ _ inp2 Hc2 eq_refl eq_refl) as (inp3 & Hc3 & E3).
    rewrite E, !length_app, length_header_bytes, Hb, length_replicate. simpl Nat.add.
    rewrite (handle_loop_next _ _ _ _ _ _ Hr E1), (handle_loop_next _ _ _ _ _ _ Hr E2),
      (handle_loop_next _ _ _ _ _ _ Hr E3).
    destruct (handle_loop _ _ _ _) as [[a2 out] fl]. by exists out.
Qed.
End Desync.

Lemma head_dispatch_desyncs_witness :
  let name := replicate 64 97%Z in
  let a := mkAgent (D := dmem SimNic) true None tt in
  exists fl, handle_connection (fun g : unit => (true, g)) a
    [head_shader_run (head_request name 1000); head_shutdown] =
    (a, concat (encode_response <$>
       [mkResp (cmd_code SHADER_RUN) OK []; mkResp 0 ERR_INTERNAL []]), fl).
Proof.
  cbv zeta. exists Closed.
  apply (proj1 (head_dispatch_desyncs (fun g : unit => (true, g))
    (mkAgent (D := dmem SimNic) true None tt) (replicate 64 97%Z) 1000
    [head_shader_run (head_request (replicate 64 97%Z) 1000); head_shutdown] eq_refl eq_refl)).
  vm_compute. reflexivity.
Defined.

(** ** Leaving the accept loop *)

Section MainLoop.
Context {D G : Type} `{!AgentDmem D}.
Context (metal_sync : G -> bool * G).

Definition is_handler (ev : main_ev) : bool := match ev with EvHandler _ => true | _ => false end.

(** Stopping the process: the accept loop looks at [g_running] only when
    [accept] returns, so after a shutdown request has been served no activity
    of the existing connections ends the process; the next connection (or
    accept error) does, and that connection is never served. *)
Theorem shutdown_waits_for_accept evs (m : @AgentMain D G) :
  am_pc m = MAccept -> g_running (am_agent m) = false ->
  (Forall (fun ev => is_handler ev = true) evs ->
     am_pc (main_run metal_sync evs m) = MAccept /\
     g_running (am_agent (main_run metal_sync evs m)) = false) /\
  (forall inp, am_pc (main_step metal_sync (EvAccept inp) m) = MExited /\
     am_conns (main_step metal_sync (EvAccept inp) m) = am_conns m ++ [(inp, [])] /\
     forall evs', main_run metal_sync evs' (main_step metal_sync (EvAccept inp) m) =
       main_step metal_sync (EvAccept inp) m).
Proof.
  intros Hp Hr. split.
  - intros Hh. revert m Hp Hr. induction Hh as [|ev evs He _ IH]; intros m Hp Hr; [done|].
    unfold main_run in *. simpl. destruct ev as [| |i]; try done. apply IH.
    + unfold main_step. rewrite Hp, Hr. by destruct (am_conns m !! i) as [[]|].
    + unfold main_step. rewrite Hp, Hr. by destruct (am_conns m !! i) as [[]|].
  - intros inp.
    assert (main_step metal_sync (EvAccept inp) m =
      mkMain (agent_exit (am_agent m)) (am_conns m ++ [(inp, [])]) MExited) as ->.
    { unfold main_step. rewrite Hp. unfold accept_again. cbn [am_agent am_conns]. by rewrite Hr. }
    split_and!; [done..|]. intros evs'. by induction evs' as [|e es IH].
Qed.
End MainLoop.

Lemma shutdown_waits_for_accept_witness :
  let m := main_run (fun g : unit => (true, g))
    [EvAccept [encode_request RShutdown; encode_request RPing]; EvHandler 0]
    (mkMain (mkAgent (D := dmem SimNic) true None tt) [] MAccept) in
  am_pc (main_run (fun g : unit => (true, g)) [EvHandler 0; EvHandler 0] m) = MAccept.
Proof.
  cbv zeta. refine (proj1 (proj1 (shutdown_waits_for_accept (fun g : unit => (true, g))
    [EvHandler 0; EvHandler 0] _ _ _) _)).
  - vm_compute. reflexivity.
  - vm_compute. reflexivity.
  - repeat constructor.
Defined.
