(* ===== verification/Rendezvous.v ===== *)
(** The rendezvous through the store of [torch.distributed],
    src/csrc/runtime/Rendezvous.cpp, and the barrier of the process group
    (src/csrc/backend/ProcessGroupMCCL.cpp) that uses it.

    The store belongs to PyTorch: it is the class [Store] with the documented
    behaviour of [set], [get] and [check] ([wait] returns when the key is there
    and throws when it stays away for the time-out) as the class [StoreLaws].
    The ranks run concurrently: a step relation over the store and the program
    counters of all ranks. *)
From Stdlib Require Import Ascii.
From stdpp Require Import relations.
From S2P Require Import Prelude CString.

(** ** The store *)

Class Store (S : Type) := {
  st_set : str -> str -> S -> S;
  st_get : str -> S -> str;
  st_check : str -> S -> bool;
}.

Class StoreLaws (S : Type) `{!Store S} : Prop := {
  st_check_set k k' v s : st_check k (st_set k' v s) = bool_decide (k = k') || st_check k s;
  st_get_set k k' v s : st_get k (st_set k' v s) = if decide (k = k') then v else st_get k s;
}.

(** ** Keys *)

Definition endpoint_key (rank : nat) : str := lit "mccl/endpoint/" ++ to_string rank.
Definition barrier_key (tag : str) (rank : nat) : str :=
  lit "mccl/barrier/" ++ tag ++ lit "/" ++ to_string rank.

(** The tag of [ProcessGroupMCCL::barrier]. *)
Definition pg_barrier_tag (seq : nat) : str := lit "pg_barrier_" ++ to_string seq.

(** ** Publish and collect

    [exchange_endpoints] and [barrier] publish under a key of the own rank and
    then wait for the keys of the other ranks in order. *)
Inductive rv_pc :=
  | P_start
  | P_collect (r : nat) (acc : list str)     (* about to look at rank r *)
  | P_done (acc : list str)
  | P_timeout (r : nat).                     (* TimeoutError *)

Section Rendezvous.
Context {S : Type} `{!Store S}.
Context (key : nat -> str) (value : nat -> str) (world_size : nat).

(** One step of rank [rank]; [None] where it waits. *)
Definition collect_step (rank : nat) (st : S) (pc : rv_pc) : option (S * rv_pc) :=
  match pc with
  | P_start => Some (st_set (key rank) (value rank) st, P_collect 0 [])
  | P_collect r acc =>
      if Nat.eqb r world_size then Some (st, P_done acc)
      else if Nat.eqb r rank then Some (st, P_collect (r + 1) (acc ++ [value rank]))
      else if st_check (key r) st then Some (st, P_collect (r + 1) (acc ++ [st_get (key r) st]))
      else None
  | P_done _ | P_timeout _ => None
  end.

Record rv_state := mkRv { rv_store : S; rv_pcs : list rv_pc }.

Inductive rv_step : rv_state -> rv_state -> Prop :=
  | rv_move i pc st st' pcs pc' :
      pcs !! i = Some pc -> collect_step i st pc = Some (st', pc') ->
      rv_step (mkRv st pcs) (mkRv st' (<[i := pc']> pcs))
  | rv_timeout i st pcs r acc :
      pcs !! i = Some (P_collect r acc) -> collect_step i st (P_collect r acc) = None ->
      rv_step (mkRv st pcs) (mkRv st (<[i := P_timeout r]> pcs)).

Definition rv_start (st : S) : rv_state := mkRv st (replicate world_size P_start).
End Rendezvous.

(** [Rendezvous::exchange_endpoints] of all ranks: rank [r] publishes
    [endpoint r]. *)
Definition exchange_endpoints {S} `{!Store S} (endpoint : nat -> str) (world_size : nat) :
  rv_state (S := S) -> rv_state -> Prop := rv_step endpoint_key endpoint world_size.

(** [Rendezvous::barrier]: the value is the single byte 1. *)
Definition barrier {S} `{!Store S} (tag : str) (world_size : nat) :
  rv_state (S := S) -> rv_state -> Prop :=
  rv_step (barrier_key tag) (fun _ => ["001"%char]) world_size.

(** [ProcessGroupMCCL::barrier] with the sequence number [seq] on every rank;
    a group of one rank returns a completed work at once. *)
Definition pg_barrier {S} `{!Store S} (seq world_size : nat) :
  rv_state (S := S) -> rv_state -> Prop := barrier (pg_barrier_tag seq) world_size.

(** ** Keys are distinct *)

Lemma to_string_no_slash n : "/"%char ∉ to_string n.
Proof.
  intros (d & Hd & Heq)%decimal_chars.
  do 10 (destruct d as [|d]; [discriminate Heq|]). lia.
Qed.

Lemma endpoint_key_inj r r' : endpoint_key r = endpoint_key r' -> r = r'.
Proof. unfold endpoint_key. intros H%app_inv_head. by apply to_string_inj. Qed.

Lemma barrier_key_inj t r t' r' : barrier_key t r = barrier_key t' r' -> t = t' /\ r = r'.
Proof.
  unfold barrier_key. intros H%app_inv_head.
  assert (forall t r, rfind "/"%char (t ++ lit "/" ++ to_string r) = Some (length t)) as Hf
    by (intros t0 r0; apply (rfind_app "/"%char), to_string_no_slash).
  pose proof (Hf t r) as H1. rewrite H, Hf in H1. injection H1 as Hl.
  apply app_inj_1 in H as [-> H]; [|done]. split; [done|].
  apply app_inv_head in H. by apply to_string_inj.
Qed.

Lemma pg_barrier_tag_inj s s' : pg_barrier_tag s = pg_barrier_tag s' -> s = s'.
Proof. unfold pg_barrier_tag. intros H%app_inv_head. by apply to_string_inj. Qed.

Lemma endpoint_barrier_ne r t r' : endpoint_key r <> barrier_key t r'.
Proof. unfold endpoint_key, barrier_key. discriminate. Qed.

(** ** The protocol *)

Section Protocol.
Context {S : Type} `{!Store S, !StoreLaws S}.
Context (key : nat -> str) (value : nat -> str) (n : nat).
Context (key_inj : forall r r', key r = key r' -> r = r').

Definition published (pcs : list rv_pc) (r : nat) : Prop :=
  exists pc, pcs !! r = Some pc /\ pc <> P_start.

(** The keys of this round that are set are those of the ranks that have
    published, with their values; what a rank has collected are the values of
    the ranks before its position, all of which have published. *)
Record rv_inv (s : rv_state (S := S)) : Prop := {
  ri_len : length (rv_pcs s) = n;
  ri_set r : r < n -> st_check (key r) (rv_store s) = true <-> published (rv_pcs s) r;
  ri_val r : r < n -> st_check (key r) (rv_store s) = true -> st_get (key r) (rv_store s) = value r;
  ri_pc i pc : rv_pcs s !! i = Some pc ->
    match pc with
    | P_start => True
    | P_collect r acc => r <= n /\ acc = value <$> seq 0 r /\ forall j, j < r -> published (rv_pcs s) j
    | P_done acc => acc = value <$> seq 0 n /\ forall j, j < n -> published (rv_pcs s) j
    | P_timeout r => True
    end
}.

(** No key of this round is set yet. *)
Definition fresh_store (st : S) : Prop := forall r, r < n -> st_check (key r) st = false.

Lemma rv_start_inv st : fresh_store st -> rv_inv (rv_start n st).
Proof.
  intros Hf. split; simpl.
  - apply length_replicate.
  - intros r Hr. rewrite Hf by done. split; [done|]. intros (pc & Hpc & Hne).
    by apply lookup_replicate in Hpc as [-> _].
  - intros r Hr. by rewrite Hf.
  - intros i pc Hpc. by apply lookup_replicate in Hpc as [-> _].
Qed.

Lemma published_insert pcs i pc r :
  i < length pcs -> pc <> P_start -> published pcs r -> published (<[i := pc]> pcs) r.
Proof.
  intros Hi Hpc (pc0 & H1 & H2). destruct (decide (r = i)) as [->|].
  - exists pc. by rewrite list_lookup_insert_eq.
  - exists pc0. by rewrite list_lookup_insert_ne.
Qed.

Lemma published_insert_inv pcs i pc r :
  published (<[i := pc]> pcs) r -> r = i \/ published pcs r.
Proof.
  intros (pc0 & H1 & H2). destruct (decide (r = i)) as [->|]; [by left|right].
  exists pc0. by rewrite list_lookup_insert_ne in H1.
Qed.

(** A rank that has published moves on without touching the store. *)
Lemma rv_inv_advance st pcs i pc pc' :
  rv_inv (mkRv st pcs) -> pcs !! i = Some pc -> pc <> P_start -> pc' <> P_start ->
  match pc' with
  | P_start => True
  | P_collect r acc => r <= n /\ acc = value <$> seq 0 r /\ forall j, j < r -> published pcs j
  | P_done acc => acc = value <$> seq 0 n /\ forall j, j < n -> published pcs j
  | P_timeout r => True
  end -> rv_inv (mkRv st (<[i := pc']> pcs)).
Proof.
  intros [Hlen Hset Hval Hpcs] Ei Hne Hne' Hpc'. simpl in *.
  pose proof (lookup_lt_Some _ _ _ Ei) as Hi.
  assert (forall r, published (<[i := pc']> pcs) r <-> published pcs r) as Hpub.
  { intros r. split; [|by apply published_insert].
    intros [->|?]%published_insert_inv; [by exists pc|done]. }
  split; simpl.
  - by rewrite length_insert.
  - intros r Hr. by rewrite Hpub, Hset.
  - done.
  - intros j pcj Hj. destruct (decide (j = i)) as [->|].
    + rewrite list_lookup_insert_eq in Hj by done. injection Hj as <-.
      destruct pc'; try done; setoid_rewrite Hpub; done.
    + rewrite list_lookup_insert_ne in Hj by done. specialize (Hpcs j pcj Hj).
      destruct pcj; try done; setoid_rewrite Hpub; done.
Qed.

Lemma rv_inv_publish st pcs i :
  rv_inv (mkRv st pcs) -> pcs !! i = Some P_start ->
  rv_inv (mkRv (st_set (key i) (value i) st) (<[i := P_collect 0 []]> pcs)).
Proof using key_inj StoreLaws0.
  intros [Hlen Hset Hval Hpcs] Ei. simpl in *. pose proof (lookup_lt_Some _ _ _ Ei) as Hi.
  split; simpl.
  - by rewrite length_insert.
  - intros r Hr. rewrite st_check_set, orb_true_iff, bool_decide_eq_true, Hset by done. split.
    + intros [->%key_inj|Hp]; [|by apply published_insert].
      exists (P_collect 0 []). by rewrite list_lookup_insert_eq.
    + intros [->|Hp]%published_insert_inv; auto.
  - intros r Hr Hc. rewrite st_get_set. case_decide as Hk; [by apply key_inj in Hk as ->|].
    apply Hval; [done|]. rewrite st_check_set, bool_decide_false in Hc by done. done.
  - intros j pcj Hj. destruct (decide (j = i)) as [->|].
    + rewrite list_lookup_insert_eq in Hj by done. injection Hj as <-.
      split_and!; [lia|done|]. intros k Hk. lia.
    + rewrite list_lookup_insert_ne in Hj by done. specialize (Hpcs j pcj Hj).
      destruct pcj as [|r acc|acc|]; try done; destruct_and!; split_and!; try done;
        intros k Hk; apply published_insert; auto.
Qed.

Lemma rv_step_inv s s' : rv_inv s -> rv_step key value n s s' -> rv_inv s'.
Proof using key_inj StoreLaws0.
  intros HI Hs. destruct Hs as [i pc st st' pcs pc' Ei Es|i st pcs r acc Ei Es].
  - destruct pc as [|r acc|acc|r]; simpl in Es; simplify_eq.
    + by apply rv_inv_publish.
    + pose proof (ri_pc _ HI i _ Ei) as (Hr & -> & Hpub). simpl in Hpub.
      pose proof (lookup_lt_Some _ _ _ Ei) as Hi. pose proof (ri_len _ HI) as Hlen. simpl in Hlen.
      destruct (Nat.eqb_spec r n) as [->|Hrn]; [|destruct (Nat.eqb_spec r i) as [->|Hri]].
      * simplify_eq. by eapply rv_inv_advance.
      * simplify_eq. eapply rv_inv_advance; [done..|]. rewrite seq_app, fmap_app.
        split_and!; [lia|done|]. intros j Hj. destruct (decide (j = i)) as [->|].
        -- by exists (P_collect i (value <$> seq 0 i)).
        -- apply Hpub. lia.
      * destruct (st_check (key r) st) eqn:Ec; simplify_eq.
        pose proof (ri_val _ HI r ltac:(lia) Ec) as Hv. cbn [rv_store] in Hv. rewrite Hv.
        eapply rv_inv_advance; [done..|]. rewrite seq_app, fmap_app.
        split_and!; [lia|done|]. intros j Hj. destruct (decide (j = r)) as [->|].
        -- apply (ri_set _ HI); [lia|done].
        -- apply Hpub. lia.
  - by eapply rv_inv_advance.
Qed.

Lemma rv_reach_inv st s : fresh_store st -> rtc (rv_step key value n) (rv_start n st) s -> rv_inv s.
Proof using key_inj StoreLaws0.
  intros Hf Hr. pose proof (rv_start_inv st Hf) as HI. revert HI.
  induction Hr as [|s1 s2 s3 Hs _ IH]; intros HI; [done|]. apply IH. by eapply rv_step_inv.
Qed.

(** ** Termination *)

Definition pc_weight (pc : rv_pc) : nat :=
  match pc with P_start => n + 3 | P_collect r _ => n - r + 1 | _ => 0 end.
Definition rv_measure (s : rv_state (S := S)) : nat :=
  foldr (fun pc m => pc_weight pc + m) 0 (rv_pcs s).

Lemma weights_insert pcs i pc pc' :
  pcs !! i = Some pc -> pc_weight pc' < pc_weight pc ->
  foldr (fun pc m => pc_weight pc + m) 0 (<[i := pc']> pcs) <
  foldr (fun pc m => pc_weight pc + m) 0 pcs.
Proof.
  revert i; induction pcs as [|x l IH]; intros [|i] E Hw; simplify_eq/=; [lia|].
  specialize (IH i E Hw). lia.
Qed.

Lemma collect_weight s i pc st' pc' :
  rv_inv s -> rv_pcs s !! i = Some pc -> collect_step key value n i (rv_store s) pc = Some (st', pc') ->
  pc_weight pc' < pc_weight pc.
Proof.
  intros HI Ei Es. destruct pc as [|r acc|acc|r]; simpl in Es; simplify_eq; simpl; [lia|].
  pose proof (ri_pc _ HI i _ Ei) as (Hr & _).
  destruct (Nat.eqb_spec r n); [|destruct (Nat.eqb r i); [|destruct (st_check _ _)]];
    simplify_eq; simpl; lia.
Qed.

Lemma rv_step_measure s s' : rv_inv s -> rv_step key value n s s' -> rv_measure s' < rv_measure s.
Proof.
  intros HI Hs. destruct Hs as [i pc st st' pcs pc' Ei Es|i st pcs r acc Ei Es];
    apply (weights_insert _ _ _ _ Ei); [by eapply collect_weight|simpl; lia].
Qed.

Lemma rv_steps_bounded k s s' :
  rv_inv s -> nsteps (rv_step key value n) k s s' -> k + rv_measure s' <= rv_measure s.
Proof using key_inj StoreLaws0.
  intros HI Hk. revert HI. induction Hk as [|k s1 s2 s3 Hs _ IH]; intros HI; [done|].
  pose proof (rv_step_measure _ _ HI Hs). specialize (IH (rv_step_inv _ _ HI Hs)). lia.
Qed.

(** Where nothing can happen any more every rank has passed or timed out. *)
Definition rv_stuck (s : rv_state (S := S)) : Prop := forall s', ~ rv_step key value n s s'.

Lemma rv_stuck_final s :
  rv_inv s -> rv_stuck s ->
  forall i pc, rv_pcs s !! i = Some pc ->
    pc = P_done (value <$> seq 0 n) \/ exists r, pc = P_timeout r.
Proof.
  intros HI Hst i pc Ei. destruct s as [st pcs]. simpl in *.
  destruct pc as [|r acc|acc|r]; [| | |by right; eexists].
  - exfalso. eapply Hst, rv_move; [exact Ei|]. simpl. reflexivity.
  - exfalso. destruct (collect_step key value n i st (P_collect r acc)) as [[st' pc']|] eqn:Es.
    + eapply Hst, rv_move; eauto.
    + eapply Hst, rv_timeout; eauto.
  - left. by destruct (ri_pc _ HI i _ Ei) as [-> _].
Qed.
End Protocol.

(** C39: The exchange of endpoints, in every interleaving of all ranks, from a store
    without endpoint keys: a rank that returns has the endpoint of every rank
    at its index; no execution takes more than [n * (n + 3)] steps, and where
    it stops every rank has returned that vector or thrown a time-out. *)
Theorem exchange_endpoints_correct {S} `{!Store S, !StoreLaws S} endpoint n k (st : S) s :
  (forall r, r < n -> st_check (endpoint_key r) st = false) ->
  nsteps (exchange_endpoints endpoint n) k (rv_start n st) s ->
  k <= n * (n + 3) /\
  (forall i acc, rv_pcs s !! i = Some (P_done acc) -> acc = endpoint <$> seq 0 n) /\
  ((forall s', ~ exchange_endpoints endpoint n s s') ->
   forall i pc, rv_pcs s !! i = Some pc ->
     pc = P_done (endpoint <$> seq 0 n) \/ exists r, pc = P_timeout r).
Proof.
  intros Hf Hk. unfold exchange_endpoints in *.
  pose proof (rv_start_inv endpoint_key endpoint n st Hf) as H0.
  pose proof (rv_reach_inv endpoint_key endpoint n endpoint_key_inj st s Hf (rtc_nsteps_2 _ _ _ Hk)) as HI.
  split_and!.
  - pose proof (rv_steps_bounded endpoint_key endpoint n endpoint_key_inj _ _ _ H0 Hk) as Hb.
    assert (rv_measure n (rv_start n st) = n * (n + 3)) as Hm; [|lia].
    unfold rv_measure, rv_start. cbn [rv_pcs].
    assert (forall j, foldr (fun pc m => pc_weight n pc + m) 0 (replicate j P_start) = j * (n + 3)) as Hj
      by (induction j as [|j IH]; simpl; lia).
    apply Hj.
  - intros i acc Ei. by destruct (ri_pc _ _ _ _ HI i _ Ei) as [-> _].
  - intros Hst. by apply (rv_stuck_final endpoint_key endpoint n).
Qed.

(** A key of an endpoint or of another barrier of the group. *)
Definition other_key (seq : nat) (k : str) : Prop :=
  (exists r, k = endpoint_key r) \/ (exists seq' r, seq' <> seq /\ k = barrier_key (pg_barrier_tag seq') r).

Lemma other_keys_fresh {S} `{!Store S, !StoreLaws S} seq (st0 : S) kvs r :
  (forall k, st_check k st0 = false) -> Forall (fun kv => other_key seq kv.1) kvs ->
  st_check (barrier_key (pg_barrier_tag seq) r) (foldr (fun kv st => st_set kv.1 kv.2 st) st0 kvs) = false.
Proof.
  intros H0. induction 1 as [|[k v] kvs Hk _ IH]; simpl; [done|].
  rewrite st_check_set, IH, orb_false_r. apply bool_decide_false. intros <-.
  destruct Hk as [[r' Hk]|(seq' & r' & Hne & Hk)]; simpl in Hk.
  - by apply (endpoint_barrier_ne r' (pg_barrier_tag seq) r).
  - apply barrier_key_inj in Hk as [Hk _]. by apply pg_barrier_tag_inj in Hk.
Qed.

(** C40: The barrier of the process group: whatever endpoints and barriers with
    other sequence numbers have left in the store, a rank passes the barrier
    [seq] only after every rank has entered it, in every interleaving; and
    where no rank can move, each has passed or thrown a time-out. *)
Theorem pg_barrier_synchronises {S} `{!Store S, !StoreLaws S} seq n (st0 : S) kvs s :
  (forall k, st_check k st0 = false) -> Forall (fun kv => other_key seq kv.1) kvs ->
  rtc (pg_barrier seq n) (rv_start n (foldr (fun kv st => st_set kv.1 kv.2 st) st0 kvs)) s ->
  (forall i acc, rv_pcs s !! i = Some (P_done acc) -> forall j, j < n -> published (rv_pcs s) j) /\
  ((forall s', ~ pg_barrier seq n s s') ->
   forall i pc, rv_pcs s !! i = Some pc -> (exists acc, pc = P_done acc) \/ exists r, pc = P_timeout r).
Proof.
  intros H0 Hk Hr. unfold pg_barrier, barrier in *.
  assert (forall r r', barrier_key (pg_barrier_tag seq) r = barrier_key (pg_barrier_tag seq) r' -> r = r')
    as Hinj by (intros r r' H; by apply barrier_key_inj in H as [_ H]).
  pose proof (rv_reach_inv _ _ n Hinj _ s (fun r _ => other_keys_fresh seq st0 kvs r H0 Hk) Hr) as HI.
  split.
  - intros i acc Ei. by destruct (ri_pc _ _ _ _ HI i _ Ei) as [_ ?].
  - intros Hst i pc Ei. destruct (rv_stuck_final _ _ _ _ HI Hst i pc Ei) as [->|?]; eauto.
Qed.

(** ** Using a tag twice *)

Lemma collect_alone {S} `{!Store S, !StoreLaws S} key value n i (st : S) pcs :
  (forall r, r < n -> st_check (key r) st = true) -> i < length pcs ->
  forall k r acc, r + k = n -> pcs !! i = Some (P_collect r acc) ->
  exists acc', rtc (rv_step key value n) (mkRv st pcs) (mkRv st (<[i := P_done acc']> pcs)).
Proof.
  intros Hset Hi k. revert pcs Hi. induction k as [|k IH]; intros pcs Hi r acc Hr Ei.
  - exists acc. apply rtc_once. eapply rv_move; [exact Ei|]. simpl.
    by rewrite (proj2 (Nat.eqb_eq _ _)) by lia.
  - set (x := if Nat.eqb r i then value i else st_get (key r) st).
    destruct (IH (<[i := P_collect (r + 1) (acc ++ [x])]> pcs)) with (r := r + 1) (acc := acc ++ [x])
      as [acc' Hrun]; [by rewrite length_insert|lia|by apply list_lookup_insert_eq|].
    exists acc'. rewrite list_insert_insert_eq in Hrun. eapply rtc_l; [|exact Hrun].
    eapply rv_move; [exact Ei|]. simpl. rewrite (proj2 (Nat.eqb_neq r n)) by lia.
    unfold x. destruct (Nat.eqb_spec r i); [by subst|]. by rewrite Hset by lia.
Qed.

(** A tag that has been used before does not synchronise: with the keys of an
    earlier barrier still in the store (nothing removes them) a rank enters
    and passes alone, while every other rank has yet to enter. *)
Theorem barrier_tag_reuse {S} `{!Store S, !StoreLaws S} tag n i (st : S) :
  (forall r, r < n -> st_check (barrier_key tag r) st = true) -> i < n ->
  exists st' acc, rtc (barrier tag n) (rv_start n st)
    (mkRv st' (<[i := P_done acc]> (replicate n P_start))).
Proof.
  intros Hset Hi. unfold barrier. set (value := fun _ : nat => ["001"%char]).
  set (st' := st_set (barrier_key tag i) (value i) st).
  destruct (collect_alone (barrier_key tag) value n i st' (<[i := P_collect 0 []]> (replicate n P_start)))
    with (k := n) (r := 0) (acc := @nil str) as [acc Hrun].
  - intros r Hr. unfold st'. rewrite st_check_set, Hset by done. apply orb_true_r.
  - by rewrite length_insert, length_replicate.
  - lia.
  - apply list_lookup_insert_eq. by rewrite length_replicate.
  - exists st', acc. rewrite list_insert_insert_eq in Hrun. eapply rtc_l; [|exact Hrun].
    eapply rv_move; [by apply lookup_replicate_2|done].
Qed.

(** ** A store

    The latest entry of a key is in front. *)

Definition alist : Type := list (str * str).

#[local] Instance alist_store : Store alist := {|
  st_set k v s := (k, v) :: s;
  st_get k s := default [] (snd <$> (snd <$> list_find (fun kv => kv.1 = k) s));
  st_check k s := existsb (fun kv => bool_decide (k = kv.1)) s;
|}.

#[local] Instance alist_store_laws : StoreLaws alist.
Proof.
  split; intros k k' v s; simpl; [done|].
  destruct (decide (k' = k)) as [->|Hk]; [by rewrite decide_True|].
  rewrite decide_False by congruence. by destruct (list_find _ s) as [[]|].
Qed.

(** Executing a schedule: the ranks that move, in order. *)
Definition rv_move_rank {S} `{!Store S} (key value : nat -> str) (n i : nat)
    (s : rv_state (S := S)) : option (rv_state (S := S)) :=
  pc ← rv_pcs s !! i;
  '(st', pc') ← collect_step key value n i (rv_store s) pc;
  Some (mkRv st' (<[i := pc']> (rv_pcs s))).

Fixpoint rv_exec {S} `{!Store S} (key value : nat -> str) (n : nat) (sched : list nat)
    (s : rv_state (S := S)) : option (rv_state (S := S)) :=
  match sched with
  | [] => Some s
  | i :: sched' => s' ← rv_move_rank key value n i s; rv_exec key value n sched' s'
  end.

Lemma rv_exec_nsteps {S} `{!Store S} key value n sched (s s' : rv_state (S := S)) :
  rv_exec key value n sched s = Some s' -> nsteps (rv_step key value n) (length sched) s s'.
Proof.
  revert s; induction sched as [|i l IH]; intros s; simpl; [intros [= ->]; constructor|].
  destruct (rv_move_rank key value n i s) as [s1|] eqn:E; simpl; [|done]. intros Hx.
  econstructor; [|by apply IH]. unfold rv_move_rank in E. destruct s as [st pcs]. simpl in *.
  destruct (pcs !! i) as [pc|] eqn:Ei; simpl in E; [|done].
  destruct (collect_step _ _ _ _ _ _) as [[st' pc']|] eqn:Ec; simpl in E; [|done].
  injection E as <-. by eapply rv_move.
Qed.

Definition demo_endpoint (r : nat) : str := lit "10.0.0." ++ to_string r ++ lit ":9000".
Definition demo_sched : list nat := [1; 0; 0; 0; 1; 0; 1; 1].

Definition demo_final : rv_state (S := alist) :=
  default (rv_start 2 []) (rv_exec endpoint_key demo_endpoint 2 demo_sched (rv_start 2 [])).

Lemma demo_empty (k : str) : st_check k ([] : alist) = false.
Proof. done. Qed.

Lemma exchange_endpoints_correct_witness :
  nsteps (exchange_endpoints demo_endpoint 2) 8 (rv_start 2 ([] : alist)) demo_final /\
    rv_pcs demo_final !! 1 = Some (P_done (demo_endpoint <$> seq 0 2)) /\ 8 <= 2 * (2 + 3).
Proof.
  assert (nsteps (exchange_endpoints demo_endpoint 2) 8 (rv_start 2 ([] : alist)) demo_final) as Hn.
  { apply (rv_exec_nsteps endpoint_key demo_endpoint 2 demo_sched). vm_compute. reflexivity. }
  split; [exact Hn|]. split; [vm_compute; reflexivity|].
  exact (proj1 (exchange_endpoints_correct demo_endpoint 2 8 ([] : alist) _
    (fun r _ => demo_empty _) Hn)).
Defined.

Definition demo_before : list (str * str) :=
  [(endpoint_key 0, lit "a"); (barrier_key (pg_barrier_tag 6) 0, lit "1")].
Definition demo_store : alist := foldr (fun kv st => st_set kv.1 kv.2 st) [] demo_before.
Definition demo_passed : rv_state (S := alist) :=
  default (rv_start 2 []) (rv_exec (barrier_key (pg_barrier_tag 7)) (fun _ => ["001"%char]) 2 [1; 0; 0; 0; 0]
    (rv_start 2 demo_store)).

Lemma pg_barrier_synchronises_witness :
  rtc (pg_barrier 7 2) (rv_start 2 demo_store) demo_passed /\
    rv_pcs demo_passed !! 0 = Some (P_done [["001"%char]; ["001"%char]]) /\ published (rv_pcs demo_passed) 1.
Proof.
  assert (rtc (pg_barrier 7 2) (rv_start 2 demo_store) demo_passed) as Hr.
  { eapply rtc_nsteps_2, (rv_exec_nsteps _ _ 2 [1; 0; 0; 0; 0]). vm_compute. reflexivity. }
  assert (rv_pcs demo_passed !! 0 = Some (P_done [["001"%char]; ["001"%char]])) as Hd
    by (vm_compute; reflexivity).
  split; [exact Hr|]. split; [exact Hd|].
  refine (proj1 (pg_barrier_synchronises 7 2 ([] : alist) demo_before _ demo_empty _ Hr)
    0 _ Hd 1 _); [|lia].
  constructor; [left; by exists 0|]. constructor; [right; by exists 6, 0|]. constructor.
Defined.

Definition used_store : alist :=
  [(barrier_key (lit "t") 0, lit "1"); (barrier_key (lit "t") 1, lit "1")].

Lemma barrier_tag_reuse_witness :
  exists st' acc, rtc (barrier (lit "t") 2) (rv_start 2 used_store) (mkRv st' [P_done acc; P_start]).
Proof.
  apply (barrier_tag_reuse (lit "t") 2 0 used_store); [|lia].
  intros r Hr. destruct r as [|[|r]]; [vm_compute; reflexivity..|lia].
Defined.
