(* ===== verification/MeshSetup.v ===== *)
(** * The construction of the peer mesh ([csrc/backend/PeerMesh.cpp])

    The constructor of [PeerMesh] run by all ranks at once: each rank opens its
    listening socket, publishes its endpoint in the store and collects those of
    the others, connects to the higher ranks one after the other, and accepts
    the lower ones in a second thread.  The pieces are those of [PeerMesh] and
    the exchange through the store that of [Rendezvous].  The network is a
    function that says which rank, if any, listens at an address; a connection
    is a number; connections wait at a listener in the order in which they were
    made.  Time-outs and failed calls are steps of their own. *)
From stdpp Require Import relations.
From S2P Require Import Prelude CString PeerMesh Rendezvous.
#[local] Open Scope nat_scope.

(** ** One rank before it meets the others *)

(** An entry of [getifaddrs]; [if_text] is what [inet_ntop] returns. *)
Record ifaddr := mkIf { if_inet : bool; if_up : bool; if_loopback : bool; if_text : option str }.

Definition interface_ips (l : option (list ifaddr)) : list str :=
  match l with
  | None => []
  | Some l => omap (fun i => if if_inet i && if_up i && negb (if_loopback i) then if_text i else None) l
  end.

(** The results of the four calls on the listening socket; the last gives the
    port the system chose. *)
Record listen_calls := mkListen { lc_socket : bool; lc_bind : bool; lc_listen : bool; lc_name : option nat }.

Definition open_listener (c : listen_calls) : result nat :=
  if negb (lc_socket c) then Throw (MCCLError "PeerMesh socket")
  else if negb (lc_bind c) then Throw (MCCLError "PeerMesh bind")
  else if negb (lc_listen c) then Throw (MCCLError "PeerMesh listen")
  else match lc_name c with Some port => Ok port | None => Throw (MCCLError "PeerMesh getsockname") end.

(** A host: its system calls, its interfaces, its priority list. *)
Record host := mkHost { h_calls : listen_calls; h_ifs : option (list ifaddr); h_pri : list str }.

Section Mesh.
Context `{StdSort}.

Definition my_ips (h : host) : list str := advertised (h_pri h) (local_ips (h_pri h) (interface_ips (h_ifs h))).

Definition my_endpoint (h : host) : result str :=
  match open_listener (h_calls h) with
  | Throw e => Throw e
  | Ok port =>
    match my_ips h with
    | [] => Throw (MCCLError "PeerMesh: no local IP matches MCCL_IFACE_PRIORITY; check that Thunderbolt interfaces are up and the priority list covers their subnets")
    | ips => Ok (endpoint ips port)
    end
  end.

(** The addresses and the port to try for a peer's endpoint. *)
Definition route (h : host) (ep : str) : result (list str * Z) :=
  match parse_endpoint ep with
  | Throw e => Throw e
  | Ok (cands, port) =>
    match reachable (h_pri h) (subnet24 <$> my_ips h) cands with
    | Throw e => Throw e
    | Ok ips => Ok (ips, port)
    end
  end.

Definition peer_key (r : nat) : str := lit "mccl/peer/" ++ to_string r.

(** ** All ranks *)

(** Where the constructor of a rank is after the exchange: about to look at the
    endpoint of [p], about to try the [k]-th address for [p], waiting for the
    answer on connection [c], joining the acceptor, returned, left by an
    exception, or stopped by [std::terminate], which an exception causes while
    the acceptor is not joined. *)
Inductive mesh_pc :=
  | M_exchange
  | M_next (p : nat)
  | M_dial (p : nat) (ips : list str) (port : Z) (k : nat)
  | M_await (p : nat) (ips : list str) (port : Z) (k : nat) (c : nat)
  | M_join
  | M_ready
  | M_thrown
  | M_terminated.

Record mrank := mkRank {
  mr_ex : rv_pc;                      (* the exchange through the store *)
  mr_pc : mesh_pc;
  mr_accepted : nat;                  (* iterations of the acceptor *)
  mr_backlog : list (nat * nat);      (* connections that wait: number, rank that made it *)
  mr_fds : list (option nat);         (* peer_fds_ *)
}.

Definition with_pc (pc : mesh_pc) (k : mrank) : mrank :=
  mkRank (mr_ex k) pc (mr_accepted k) (mr_backlog k) (mr_fds k).
Definition with_ex (ex : rv_pc) (pc : mesh_pc) (k : mrank) : mrank :=
  mkRank ex pc (mr_accepted k) (mr_backlog k) (mr_fds k).
Definition with_fds (fds : list (option nat)) (k : mrank) : mrank :=
  mkRank (mr_ex k) (mr_pc k) (mr_accepted k) (mr_backlog k) fds.
Definition push_backlog (e : nat * nat) (k : mrank) : mrank :=
  mkRank (mr_ex k) (mr_pc k) (mr_accepted k) (mr_backlog k ++ [e]) (mr_fds k).

Context {S : Type} `{!Store S}.

(** [me_replies c]: the rank that was written back on connection [c]. *)
Record mesh := mkMesh {
  me_store : S;
  me_next : nat;
  me_replies : gmap nat nat;
  me_ranks : list mrank;
}.

Context (hosts : nat -> host) (listener : str -> Z -> option nat) (n : nat).

Definition own_ep (r : nat) : str := match my_endpoint (hosts r) with Ok ep => ep | Throw _ => [] end.

Definition mesh_start (st : S) : mesh :=
  mkMesh st 0 ∅ (replicate n (mkRank P_start M_exchange 0 [] (replicate n None))).

Definition put_rank (r : nat) (k : mrank) (m : mesh) : mesh :=
  mkMesh (me_store m) (me_next m) (me_replies m) (<[r := k]> (me_ranks m)).

(** One step of the constructor of rank [r]; [None] where it waits. *)
Definition mesh_main_step (r : nat) (m : mesh) : option mesh :=
  k ← me_ranks m !! r;
  match mr_pc k with
  | M_exchange =>
    match my_endpoint (hosts r) with
    | Throw _ => Some (put_rank r (with_pc M_thrown k) m)
    | Ok _ =>
      match mr_ex k with
      | P_done _ => Some (put_rank r (with_pc (M_next (r + 1)) k) m)
      | ex =>
        x ← collect_step peer_key own_ep n r (me_store m) ex;
        Some (mkMesh x.1 (me_next m) (me_replies m) (<[r := with_ex x.2 M_exchange k]> (me_ranks m)))
      end
    end
  | M_next p =>
    if n <=? p then Some (put_rank r (with_pc M_join k) m) else
    match mr_ex k with
    | P_done eps =>
      match route (hosts r) (default [] (eps !! p)) with
      | Throw _ => Some (put_rank r (with_pc M_terminated k) m)
      | Ok (ips, port) => Some (put_rank r (with_pc (M_dial p ips port 0) k) m)
      end
    | _ => None
    end
  | M_dial p ips port i =>
    match ips !! i with
    | None => Some (put_rank r (with_pc (M_dial p ips port 0) k) m)
    | Some ip =>
      match listener ip port with
      | None => Some (put_rank r (with_pc (M_dial p ips port (i + 1)) k) m)
      | Some q =>
        let c := me_next m in
        Some (mkMesh (me_store m) (c + 1) (me_replies m)
                (alter (push_backlog (c, r)) q (<[r := with_pc (M_await p ips port i c) k]> (me_ranks m))))
      end
    end
  | M_await p ips port i c =>
    got ← me_replies m !! c;
    Some (put_rank r (if got =? p then with_pc (M_next (p + 1)) (with_fds (<[p := Some c]> (mr_fds k)) k)
                      else with_pc (M_dial p ips port (i + 1)) k) m)
  | M_join =>
    if mr_accepted k =? r then
      Some (put_rank r (with_pc (match mesh_complete r (mr_fds k) with Ok _ => M_ready | Throw _ => M_thrown end) k) m)
    else None
  | M_ready | M_thrown | M_terminated => None
  end.

(** The acceptor thread is running. *)
Definition acceptor_runs (pc : mesh_pc) : bool :=
  match pc with M_next _ | M_dial _ _ _ _ | M_await _ _ _ _ _ | M_join => true | _ => false end.

(** One iteration of the acceptor of rank [q]: the rank that was sent is in the
    connection, the own one is written back. *)
Definition accept_step (q : nat) (m : mesh) : option mesh :=
  k ← me_ranks m !! q;
  if acceptor_runs (mr_pc k) && (mr_accepted k <? q) then
    match mr_backlog k with
    | [] => None
    | (c, r) :: rest =>
      let fds := accept_one q (mr_fds k) (Accepted c (Some (Z.of_nat r)) true) in
      Some (mkMesh (me_store m) (me_next m)
              (if r <? q then <[c := q]> (me_replies m) else me_replies m)
              (<[q := mkRank (mr_ex k) (mr_pc k) (mr_accepted k + 1) rest fds]> (me_ranks m)))
    end
  else None.

Inductive mesh_step (m : mesh) : mesh -> Prop :=
  | ms_main r m' : mesh_main_step r m = Some m' -> mesh_step m m'
  | ms_accept q m' : accept_step q m = Some m' -> mesh_step m m'.

(** What can go wrong: the store does not have a key in time, a call on the
    socket of an attempt fails, no answer comes within the second the socket waits, the deadline of a peer has passed when a
    round begins, [accept] fails. *)
Inductive mesh_glitch (m : mesh) : mesh -> Prop :=
  | mg_store r k p acc :
      me_ranks m !! r = Some k -> mr_pc k = M_exchange -> mr_ex k = P_collect p acc ->
      collect_step peer_key own_ep n r (me_store m) (P_collect p acc) = None ->
      mesh_glitch m (put_rank r (with_ex (P_timeout p) M_thrown k) m)
  | mg_dial r k p ips port i ip :
      me_ranks m !! r = Some k -> mr_pc k = M_dial p ips port i -> ips !! i = Some ip ->
      mesh_glitch m (put_rank r (with_pc (M_dial p ips port (i + 1)) k) m)
  | mg_reply r k p ips port i c :
      me_ranks m !! r = Some k -> mr_pc k = M_await p ips port i c ->
      mesh_glitch m (put_rank r (with_pc (M_dial p ips port (i + 1)) k) m)
  | mg_deadline r k p ips port :
      me_ranks m !! r = Some k -> mr_pc k = M_dial p ips port 0 ->
      mesh_glitch m (put_rank r (with_pc M_terminated k) m)
  | mg_accept q k :
      me_ranks m !! q = Some k -> acceptor_runs (mr_pc k) = true -> mr_accepted k < q ->
      mesh_glitch m (put_rank q (mkRank (mr_ex k) (mr_pc k) (mr_accepted k + 1) (mr_backlog k) (mr_fds k)) m).

(** The destructor: the descriptors it closes. *)
Definition mesh_destroy (fds : list (option nat)) (listen_fd : option nat) : list nat :=
  omap id (fds ++ [listen_fd]).

Definition mesh_any (m m' : mesh) : Prop := mesh_step m m' \/ mesh_glitch m m'.
End Mesh.

(** ** Both ends of a connection *)

(** The entries of a list after two updates. *)
Lemma lookup_insert_two {A} (l : list A) p r x y j z :
  <[p := x]> (<[r := y]> l) !! j = Some z ->
  (j = p /\ z = x) \/ (j = r /\ z = y) \/ (j <> p /\ j <> r /\ l !! j = Some z).
Proof.
  intros [(<- & <- & _)|[Hj Hx]]%list_lookup_insert_Some; [by left|right].
  apply list_lookup_insert_Some in Hx as [(<- & <- & _)|[Hj' Hx]]; [by left|right]. by split_and!.
Qed.

Lemma peer_key_inj r r' : peer_key r = peer_key r' -> r = r'.
Proof. unfold peer_key. intros H%app_inv_head. by apply to_string_inj. Qed.

Section Safety.
Context `{StdSort} {S : Type} `{!Store S, !StoreLaws S}.
Context (hosts : nat -> host) (listener : str -> Z -> option nat) (n : nat).

Abbreviation ep := (own_ep hosts).

(** Whoever answers at an address that a lower rank tries for [p] is [p]. *)
Definition honest : Prop := forall r p ips port ip,
  r < p < n -> route (hosts r) (ep p) = Ok (ips, port) -> ip ∈ ips ->
  listener ip port = None \/ listener ip port = Some p.

(** No socket for a peer from [p] on. *)
Definition unfilled (r p : nat) (k : mrank) : Prop :=
  forall q c, p <= q -> r < q -> mr_fds k !! q <> Some (Some c).

(** A socket for every peer. *)
Definition filled (r : nat) (k : mrank) : Prop :=
  forall q, q < n -> q <> r -> exists c, mr_fds k !! q = Some (Some c).

Definition rank_ok (r : nat) (k : mrank) : Prop :=
  length (mr_fds k) = n /\
  match mr_pc k with
  | M_exchange => unfilled r (r + 1) k
  | M_next p => r < p <= n /\ unfilled r p k
  | M_dial p ips port _ | M_await p ips port _ _ =>
      r < p < n /\ route (hosts r) (ep p) = Ok (ips, port) /\ unfilled r p k
  | M_ready => filled r k
  | _ => True
  end /\
  match mr_pc k with M_exchange | M_thrown | M_terminated => True | _ => mr_ex k = P_done (ep <$> seq 0 n) end.

(** What the lower rank [r] and the higher rank [p] know of their connection:
    where [r] has a socket, [p] has the same one and no other connection of [r]
    waits; where [r] waits for the answer on [c], [c] is the last connection of
    [r] that waits at [p] and was not answered, or the one that [p] holds. *)
Definition pair_ok (reps : gmap nat nat) (r p : nat) (R P : mrank) : Prop :=
  (forall c, mr_fds R !! p = Some (Some c) -> mr_fds P !! r = Some (Some c) /\ r ∉ (mr_backlog P).*2) /\
  (forall ips port i c, mr_pc R = M_await p ips port i c ->
     (exists l1 l2, mr_backlog P = l1 ++ (c, r) :: l2 /\ r ∉ l2.*2 /\ reps !! c <> Some p) \/
     (mr_fds P !! r = Some (Some c) /\ r ∉ (mr_backlog P).*2)).

Definition ids_ok (next : nat) (k : mrank) : Prop :=
  NoDup (mr_backlog k).*1 /\ Forall (fun e => e.1 < next) (mr_backlog k).

Record mesh_inv (m : mesh (S := S)) : Prop := {
  mi_rv : rv_inv peer_key ep n (mkRv (me_store m) (mr_ex <$> me_ranks m));
  mi_rank r k : me_ranks m !! r = Some k -> rank_ok r k;
  mi_ids r k : me_ranks m !! r = Some k -> ids_ok (me_next m) k;
  mi_rep c q : me_replies m !! c = Some q -> c < me_next m;
  mi_pair r p R P : me_ranks m !! r = Some R -> me_ranks m !! p = Some P -> r < p ->
    pair_ok (me_replies m) r p R P;
}.

Lemma mesh_len m : mesh_inv m -> length (me_ranks m) = n.
Proof. intros HI. pose proof (ri_len _ _ _ _ (mi_rv _ HI)) as Hl. simpl in Hl. by rewrite length_fmap in Hl. Qed.

(** The exchange is untouched when the rank's part in it is. *)
Lemma fmap_same_ex (ranks : list mrank) r k k' :
  ranks !! r = Some k -> mr_ex k' = mr_ex k -> mr_ex <$> <[r := k']> ranks = mr_ex <$> ranks.
Proof.
  intros Hk He. rewrite list_fmap_insert, He. apply list_insert_id. by rewrite list_lookup_fmap, Hk.
Qed.

(** A rank moves to a place where it waits for no answer and keeps its sockets. *)
Lemma inv_move m r k k' st :
  mesh_inv m -> me_ranks m !! r = Some k -> mr_fds k' = mr_fds k -> mr_backlog k' = mr_backlog k ->
  (forall p ips port i c, mr_pc k' <> M_await p ips port i c) -> rank_ok r k' ->
  rv_inv peer_key ep n (mkRv st (mr_ex <$> <[r := k']> (me_ranks m))) ->
  mesh_inv (mkMesh st (me_next m) (me_replies m) (<[r := k']> (me_ranks m))).
Proof.
  intros HI Hk Hf Hb Hpc Hok Hrv. split; simpl; [done| | |apply (mi_rep _ HI)|].
  - intros j x [(-> & -> & _)|[_ Hx]]%list_lookup_insert_Some; [done|by apply (mi_rank _ HI)].
  - intros j x [(-> & -> & _)|[_ Hx]]%list_lookup_insert_Some; [|by apply (mi_ids _ HI j)].
    unfold ids_ok. rewrite Hb. by apply (mi_ids _ HI j).
  - intros a p A P HA HP Hlt.
    apply list_lookup_insert_Some in HA as [(-> & -> & _)|[_ HA]];
      apply list_lookup_insert_Some in HP as [(-> & -> & _)|[_ HP]]; try lia.
    + destruct (mi_pair _ HI a p k P Hk HP Hlt) as [H1 H2]. split; [by rewrite Hf|].
      intros ips port i c Hc. by destruct (Hpc p ips port i c).
    + pose proof (mi_pair _ HI a p A k HA Hk Hlt) as Hp. unfold pair_ok in *. by rewrite Hf, Hb.
    + by apply (mi_pair _ HI).
Qed.

Lemma inv_pc m r k pc :
  mesh_inv m -> me_ranks m !! r = Some k ->
  (forall p ips port i c, pc <> M_await p ips port i c) -> rank_ok r (with_pc pc k) ->
  mesh_inv (put_rank r (with_pc pc k) m).
Proof.
  intros HI Hk Hpc Hok. eapply inv_move; try done. rewrite (fmap_same_ex _ r k) by done. apply HI.
Qed.

(** A rank in the exchange. *)
Lemma inv_exchange m r k ex pc st :
  mesh_inv m -> me_ranks m !! r = Some k -> mr_pc k = M_exchange -> pc = M_exchange \/ pc = M_thrown ->
  rv_step peer_key ep n (mkRv (me_store m) (mr_ex <$> me_ranks m)) (mkRv st (<[r := ex]> (mr_ex <$> me_ranks m))) ->
  mesh_inv (mkMesh st (me_next m) (me_replies m) (<[r := with_ex ex pc k]> (me_ranks m))).
Proof using StoreLaws0.
  intros HI Hk Hpck Hpc Hs. pose proof (mi_rank _ HI r k Hk) as (Hl & Hp & _). rewrite Hpck in Hp.
  eapply inv_move; try done; simpl.
  - by destruct Hpc as [-> | ->].
  - split; [done|]. by destruct Hpc as [-> | ->].
  - rewrite list_fmap_insert. eapply rv_step_inv; [apply peer_key_inj|apply HI|done].
Qed.

(** *** Changes that a pair does not notice *)

Lemma pair_frame reps r p R R' P P' :
  mr_fds R' !! p = mr_fds R !! p -> mr_pc R' = mr_pc R ->
  mr_fds P' !! r = mr_fds P !! r -> mr_backlog P' = mr_backlog P ->
  pair_ok reps r p R P -> pair_ok reps r p R' P'.
Proof. unfold pair_ok. by intros -> -> -> ->. Qed.

Lemma pair_push reps r p R P c r' :
  r' <> r -> pair_ok reps r p R P -> pair_ok reps r p R (push_backlog (c, r') P).
Proof.
  intros Hne [H1 H2].
  assert (Hni : forall l : list (nat * nat), r ∉ l.*2 -> r ∉ (l ++ [(c, r')]).*2).
  { intros l Hl. rewrite fmap_app, not_elem_of_app. split; [done|]. simpl. rewrite list_elem_of_singleton. congruence. }
  split.
  - intros d Hd. destruct (H1 d Hd) as [Hp Hb]. split; [done|]. simpl. by apply Hni.
  - intros ips port i d Hpc. destruct (H2 _ _ _ _ Hpc) as [(l1 & l2 & Hl & Hr & Hd)|[Hp Hb]]; [left|right].
    + exists l1, (l2 ++ [(c, r')]). simpl. rewrite Hl, <- app_assoc. split_and!; [done|by apply Hni|done].
    + split; [done|]. by apply Hni.
Qed.

Lemma pair_reply reps r p R P c q :
  q <> p -> pair_ok reps r p R P -> pair_ok (<[c := q]> reps) r p R P.
Proof.
  intros Hne [H1 H2]. split; [done|]. intros ips port i d Hpc.
  destruct (H2 _ _ _ _ Hpc) as [(l1 & l2 & Hl & Hr & Hd)|?]; [left|by right].
  exists l1, l2. split_and!; [done..|]. rewrite lookup_insert. case_decide; congruence.
Qed.

(** *** Dialling *)

Lemma inv_dial m r k p ips port i P :
  mesh_inv m -> me_ranks m !! r = Some k -> mr_pc k = M_dial p ips port i -> me_ranks m !! p = Some P ->
  let c := me_next m in
  mesh_inv (mkMesh (me_store m) (c + 1) (me_replies m)
    (<[p := push_backlog (c, r) P]> (<[r := with_pc (M_await p ips port i c) k]> (me_ranks m)))).
Proof.
  intros HI Hk Hpc HP c. pose proof (mi_rank _ HI r k Hk) as Hok. unfold rank_ok in Hok. rewrite Hpc in Hok.
  destruct Hok as (Hl & ([Hrp Hpn] & Hroute & Hun) & Hex).
  set (k' := with_pc (M_await p ips port i c) k).
  pose proof (lookup_insert_two (me_ranks m) p r (push_backlog (c, r) P) k') as Hlook.
  split; simpl.
  - pose proof (mi_rv _ HI) as Hrv. replace (mr_ex <$> _) with (mr_ex <$> me_ranks m); [done|].
    rewrite !list_fmap_insert. simpl. rewrite (list_insert_id (mr_ex <$> me_ranks m) r (mr_ex k)) by (by rewrite list_lookup_fmap, Hk).
    symmetry. apply list_insert_id. by rewrite list_lookup_fmap, HP.
  - intros j x [[-> ->]|[[-> ->]|(_ & _ & Hx)]]%Hlook; [apply (mi_rank _ HI p P HP)| |by apply (mi_rank _ HI)].
    by split_and!.
  - intros j x Hx. assert (Hold : exists y, me_ranks m !! j = Some y /\ (x = push_backlog (c, r) P /\ y = P \/ mr_backlog x = mr_backlog y)).
    { apply Hlook in Hx as [[-> ->]|[[-> ->]|(_ & _ & Hx)]]; eauto. }
    destruct Hold as (y & Hy & Hxy). destruct (mi_ids _ HI j y Hy) as [Hnd Hlt].
    assert (Hlt' : Forall (fun e => e.1 < c + 1) (mr_backlog y)) by (eapply Forall_impl; [done|]; simpl; lia).
    destruct Hxy as [[-> ->]|Hb]; [|unfold ids_ok; by rewrite Hb]. split; simpl.
    + rewrite fmap_app. apply NoDup_app. split_and!; [done| |apply NoDup_singleton].
      intros d (e & -> & He)%list_elem_of_fmap Hd%list_elem_of_singleton. simpl in Hd.
      rewrite Forall_forall in Hlt. specialize (Hlt e He). simpl in Hlt. lia.
    + apply Forall_app. split; [done|]. apply Forall_singleton. simpl. lia.
  - intros d q Hd%(mi_rep _ HI). lia.
  - intros a b A B HA HB Hab.
    apply Hlook in HA as [[-> ->]|[[-> ->]|(Hap & Har & HA)]];
      apply Hlook in HB as [[-> ->]|[[-> ->]|(Hbp & Hbr & HB)]]; try lia.
    + eapply pair_frame; [..|apply (mi_pair _ HI p b P B HP HB Hab)]; done.
    + split.
      * intros d Hd. by destruct (Hun p d ltac:(lia) ltac:(lia)).
      * intros ? ? ? ? [= _ _ _ <-]. left. exists (mr_backlog P), []. split_and!; [done|apply not_elem_of_nil|].
        intros Hd%(mi_rep _ HI). lia.
    + destruct (mi_pair _ HI r b k B Hk HB Hab) as [H1 _]. split; [done|].
      intros ? ? ? ? [= -> _ _ _]. done.
    + apply pair_push; [done|]. by apply (mi_pair _ HI).
    + eapply pair_frame; [..|apply (mi_pair _ HI a r A k HA Hk Hab)]; done.
    + by apply (mi_pair _ HI).
Qed.

(** *** The answer *)

Lemma inv_answer m r k p ips port i c :
  mesh_inv m -> me_ranks m !! r = Some k -> mr_pc k = M_await p ips port i c ->
  me_replies m !! c = Some p ->
  mesh_inv (put_rank r (with_pc (M_next (p + 1)) (with_fds (<[p := Some c]> (mr_fds k)) k)) m).
Proof.
  intros HI Hk Hpc Hrep. pose proof (mi_rank _ HI r k Hk) as Hok. unfold rank_ok in Hok. rewrite Hpc in Hok.
  destruct Hok as (Hl & ([Hrp Hpn] & Hroute & Hun) & Hex).
  split; simpl.
  - rewrite (fmap_same_ex _ r k) by done. apply (mi_rv _ HI).
  - intros j x [(<- & <- & _)|[_ Hx]]%list_lookup_insert_Some; [|by apply (mi_rank _ HI)].
    split; simpl; [by rewrite length_insert|]. split_and!; [lia..| |done].
    intros q d Hq Hr. simpl. rewrite list_lookup_insert_ne by lia. apply Hun; lia.
  - intros j x [(<- & <- & _)|[_ Hx]]%list_lookup_insert_Some; [by apply (mi_ids _ HI r k)|by apply (mi_ids _ HI j)].
  - apply (mi_rep _ HI).
  - intros a b A B HA HB Hab.
    apply list_lookup_insert_Some in HA as [(<- & <- & _)|[_ HA]];
      apply list_lookup_insert_Some in HB as [(<- & <- & _)|[_ HB]]; try lia.
    + destruct (mi_pair _ HI r b k B Hk HB Hab) as [H1 H2]. split; [|done]. simpl. intros d.
      destruct (decide (b = p)) as [->|Hne]; [|rewrite list_lookup_insert_ne by done; apply H1].
      rewrite list_lookup_insert_eq by lia. intros [= <-].
      destruct (H2 _ _ _ _ Hpc) as [(? & ? & _ & _ & Hd)|?]; [congruence|done].
    + eapply pair_frame; [..|apply (mi_pair _ HI a r A k HA Hk Hab)]; try done.
      simpl. by rewrite list_lookup_insert_ne by lia.
    + by apply (mi_pair _ HI).
Qed.

(** *** Accepting *)

Lemma accept_one_rank q fds c r :
  accept_one q fds (Accepted c (Some (Z.of_nat r)) true) = if r <? q then <[r := Some c]> fds else fds.
Proof.
  unfold accept_one, handshake. rewrite (proj2 (Z.ltb_ge _ _)) by lia. simpl.
  destruct (Nat.ltb_spec r q); [rewrite (proj2 (Z.leb_gt _ _)) by lia|rewrite (proj2 (Z.leb_le _ _)) by lia; done].
  by rewrite Nat2Z.id.
Qed.

(** The pair of a lower rank and the rank that accepts. *)
Lemma pair_accept reps a q A k c r rest :
  a < q -> q <= length (mr_fds k) -> mr_backlog k = (c, r) :: rest -> NoDup (mr_backlog k).*1 ->
  pair_ok reps a q A k ->
  pair_ok (if r <? q then <[c := q]> reps else reps) a q A
    (mkRank (mr_ex k) (mr_pc k) (mr_accepted k + 1) rest (if r <? q then <[r := Some c]> (mr_fds k) else mr_fds k)).
Proof.
  intros Haq Hlen Hb Hnd [H1 H2].
  assert (Hsame : forall d, mr_fds k !! a = Some (Some d) -> a ∉ (mr_backlog k).*2 ->
    (if r <? q then <[r := Some c]> (mr_fds k) else mr_fds k) !! a = Some (Some d) /\ a ∉ rest.*2).
  { intros d Hd Ha. rewrite Hb in Ha. simpl in Ha. rewrite not_elem_of_cons in Ha. destruct Ha as [Hne Ha].
    split; [|done]. destruct (r <? q); [|done]. by rewrite list_lookup_insert_ne by congruence. }
  split; simpl.
  - intros d Hd. destruct (H1 d Hd) as [Hp Ha]. by apply Hsame.
  - intros ips port i d Hpc. destruct (H2 _ _ _ _ Hpc) as [(l1 & l2 & Hl & Hr & Hd)|[Hp Ha]]; [|right; by apply Hsame].
    rewrite Hb in Hl, Hnd. destruct l1 as [|[c1 r1] l1]; simplify_eq/=; [right|left].
    + rewrite (proj2 (Nat.ltb_lt _ _)) by done. split; [|done]. apply list_lookup_insert_eq. lia.
    + exists l1, l2. split_and!; [done..|]. destruct (r1 <? q); [|done].
      rewrite lookup_insert_ne; [done|]. intros ->. inversion Hnd as [|? ? Hni _]; subst. apply Hni.
      rewrite fmap_app. simpl. set_solver.
Qed.

Lemma inv_accept m q k c r rest :
  mesh_inv m -> me_ranks m !! q = Some k -> mr_backlog k = (c, r) :: rest ->
  mesh_inv (mkMesh (me_store m) (me_next m) (if r <? q then <[c := q]> (me_replies m) else me_replies m)
    (<[q := mkRank (mr_ex k) (mr_pc k) (mr_accepted k + 1) rest
              (if r <? q then <[r := Some c]> (mr_fds k) else mr_fds k)]> (me_ranks m))).
Proof.
  intros HI Hk Hb. pose proof (mi_rank _ HI q k Hk) as Hok. destruct (mi_ids _ HI q k Hk) as [Hnd Hlt].
  assert (Hq : q < n) by (rewrite <- (mesh_len m HI); by eapply lookup_lt_Some).
  set (fds' := if r <? q then <[r := Some c]> (mr_fds k) else mr_fds k).
  assert (Hfds : forall b, q < b -> fds' !! b = mr_fds k !! b).
  { intros b Hqb. unfold fds'. destruct (Nat.ltb_spec r q); [|done]. by rewrite list_lookup_insert_ne by lia. }
  split; simpl.
  - rewrite (fmap_same_ex _ q k) by done. apply (mi_rv _ HI).
  - intros j x [(<- & <- & _)|[_ Hx]]%list_lookup_insert_Some; [|by apply (mi_rank _ HI)].
    destruct Hok as (Hl & Hpc & Hex). split; simpl; [unfold fds'; destruct (r <? q); by rewrite ?length_insert|].
    split; [|done]. unfold unfilled, filled in *. simpl.
    destruct (mr_pc k); destruct_and?; split_and?; try done; try (intros b d Hb1 Hb2; rewrite Hfds by done; by auto).
    intros b Hb1 Hb2. destruct (Hpc b Hb1 Hb2) as [d Hd]. unfold fds'. destruct (r <? q); [|by exists d].
    destruct (decide (b = r)) as [->|Hne]; [exists c; apply list_lookup_insert_eq; lia|exists d; by rewrite list_lookup_insert_ne].
  - intros j x [(<- & <- & _)|[_ Hx]]%list_lookup_insert_Some; [|by apply (mi_ids _ HI j)].
    rewrite Hb in Hnd, Hlt. split; simpl; [by inversion Hnd|by inversion Hlt].
  - intros d b. assert (c < me_next m) by (rewrite Hb in Hlt; by inversion Hlt).
    destruct (r <? q); [|apply (mi_rep _ HI)]. rewrite lookup_insert. case_decide; [intros _; congruence|apply (mi_rep _ HI)].
  - assert (Hrep : forall a b A B, q <> b -> pair_ok (me_replies m) a b A B ->
      pair_ok (if r <? q then <[c := q]> (me_replies m) else me_replies m) a b A B)
      by (intros a b A B Hne Hp; destruct (r <? q); [by apply pair_reply|done]).
    intros a b A B HA HB Hab.
    apply list_lookup_insert_Some in HA as [(<- & <- & _)|[_ HA]];
      apply list_lookup_insert_Some in HB as [(<- & <- & _)|[Hbq HB]]; try lia.
    + apply Hrep; [lia|]. eapply pair_frame; [..|apply (mi_pair _ HI q b k B Hk HB Hab)]; try done. simpl. by apply Hfds.
    + apply pair_accept; try done; [destruct Hok as [-> _]; lia|]. by apply (mi_pair _ HI).
    + apply Hrep; [done|]. by apply (mi_pair _ HI).
Qed.

(** *** Every step *)

Lemma inv_start st : fresh_store peer_key n st -> mesh_inv (mesh_start n st).
Proof.
  intros Hf. assert (Hk : forall r k, me_ranks (mesh_start n st) !! r = Some k ->
    k = mkRank P_start M_exchange 0 [] (replicate n None)) by (intros r k [-> _]%lookup_replicate; done).
  assert (Hnone : forall q (c : nat), replicate n (@None nat) !! q <> Some (Some c))
    by (intros q c [? _]%lookup_replicate; done).
  split.
  - simpl. rewrite fmap_replicate. by apply rv_start_inv.
  - intros r k ->%Hk. split; [apply length_replicate|]. split; [|done]. intros q c _ _. apply Hnone.
  - intros r k ->%Hk. split; constructor.
  - intros c q Hc. done.
  - intros r p R P ->%Hk ->%Hk _. split; [|done]. intros c Hc. by apply Hnone in Hc.
Qed.

Ltac rank_pc := split_and!; simpl; split_and?; try done; try lia.

Lemma complete_filled r k : length (mr_fds k) = n ->
  is_ok (mesh_complete r (mr_fds k)) = true <-> filled r k.
Proof.
  intros Hl. unfold mesh_complete. rewrite Hl. destruct (forallb _ _) eqn:E; simpl.
  - split; [intros _|done]. rewrite forallb_forall in E. intros q Hq Hne.
    specialize (E q). rewrite in_seq, (proj2 (Nat.eqb_neq q r)) in E by done. simpl in E.
    destruct (mr_fds k !! q) as [[c|]|]; [by exists c|discriminate E; lia..].
  - split; [done|]. intros Hf. exfalso. apply not_true_iff_false in E. apply E. apply forallb_forall.
    intros q Hq%in_seq. destruct (Nat.eqb_spec q r) as [|Hne]; [done|]. simpl. by destruct (Hf q ltac:(lia) Hne) as [c ->].
Qed.

Lemma exchange_done m r k eps :
  mesh_inv m -> me_ranks m !! r = Some k -> mr_ex k = P_done eps -> eps = ep <$> seq 0 n.
Proof.
  intros HI Hk He. pose proof (ri_pc _ _ _ _ (mi_rv _ HI) r (P_done eps)) as Hp. simpl in Hp.
  rewrite list_lookup_fmap, Hk in Hp. simpl in Hp. rewrite He in Hp. by destruct (Hp eq_refl).
Qed.

(** The steps of a rank in the exchange. *)
Lemma exchange_step_inv m r k x :
  mesh_inv m -> me_ranks m !! r = Some k -> mr_pc k = M_exchange ->
  collect_step peer_key ep n r (me_store m) (mr_ex k) = Some x ->
  mesh_inv (mkMesh x.1 (me_next m) (me_replies m) (<[r := with_ex x.2 M_exchange k]> (me_ranks m))).
Proof using StoreLaws0.
  intros HI Hk Hpc Hs. apply inv_exchange; try done; [by left|]. destruct x as [st' ex'].
  eapply rv_move; [|exact Hs]. by rewrite list_lookup_fmap, Hk.
Qed.

Lemma mesh_main_step_inv m m' r : honest -> mesh_inv m -> mesh_main_step hosts listener n r m = Some m' -> mesh_inv m'.
Proof using StoreLaws0.
  intros Hh HI Hs. unfold mesh_main_step in Hs. destruct (me_ranks m !! r) as [k|] eqn:Hk; [|done]. simpl in Hs.
  pose proof (mi_rank _ HI r k Hk) as Hok. pose proof Hok as (Hl & Hpc & Hex).
  assert (Hr : r < n) by (rewrite <- (mesh_len m HI); by eapply lookup_lt_Some).
  destruct (mr_pc k) as [|p|p ips port i|p ips port i c| | | |] eqn:Epc; try done.
  - destruct (my_endpoint (hosts r)); [|injection Hs as <-; by apply inv_pc].
    destruct (mr_ex k) as [|j acc|eps|j] eqn:He; try done.
    + injection Hs as <-. eapply (exchange_step_inv m r k (_, _)); try done. by rewrite He.
    + apply bind_Some in Hs as (x & Hx & [= <-]). apply (exchange_step_inv m r k x); try done. by rewrite He.
    + injection Hs as <-. apply inv_pc; try done. rank_pc. rewrite He. f_equal. by eapply exchange_done.
  - destruct Hpc as [Hp Hun]. destruct (Nat.leb_spec n p).
    { injection Hs as <-. by apply inv_pc. }
    rewrite Hex in Hs. rewrite list_lookup_fmap, lookup_seq_lt in Hs by done. simpl in Hs.
    destruct (route _ _) as [[ips port]|] eqn:Hroute; injection Hs as <-; apply inv_pc; try done. rank_pc.
  - destruct Hpc as (Hp & Hroute & Hun). destruct (ips !! i) as [ip|] eqn:Hip.
    2: { injection Hs as <-. apply inv_pc; by try rank_pc. }
    destruct (listener ip port) as [q|] eqn:Hq.
    2: { injection Hs as <-. apply inv_pc; by try rank_pc. }
    injection Hs as <-. destruct (Hh r p ips port ip Hp Hroute (list_elem_of_lookup_2 _ _ _ Hip)) as [?|Hlis]; [congruence|].
    assert (q = p) as -> by congruence.
    destruct (lookup_lt_is_Some_2 (me_ranks m) p) as [P HP]; [rewrite (mesh_len m HI); lia|].
    erewrite (alter_insert _ p); [by apply inv_dial|]. by rewrite list_lookup_insert_ne by lia.
  - destruct Hpc as (Hp & Hroute & Hun). apply bind_Some in Hs as (got & Hgot & [= <-]).
    destruct (Nat.eqb_spec got p) as [->|Hne]; [by eapply inv_answer|]. apply inv_pc; by try rank_pc.
  - destruct (_ =? _); [|done]. injection Hs as <-. pose proof (complete_filled r k Hl) as Hc.
    apply inv_pc; [done..| |]; destruct (mesh_complete _ _); try done. split_and!; [done| |done]. by apply Hc.
Qed.

Lemma mesh_any_inv m m' : honest -> mesh_inv m -> mesh_any hosts listener n m m' -> mesh_inv m'.
Proof using StoreLaws0.
  intros Hh HI [[r ? Hs|q ? Hs]|Hg].
  - by eapply mesh_main_step_inv.
  - unfold accept_step in Hs. destruct (me_ranks m !! q) as [k|] eqn:Hk; [|done]. simpl in Hs.
    destruct (_ && _); [|done]. destruct (mr_backlog k) as [|[c r] rest] eqn:Hb; [done|]. injection Hs as <-.
    rewrite accept_one_rank. by apply inv_accept.
  - destruct Hg as [r k p acc Hk Hpc He Hs|r k p ips port i ip Hk Hpc Hip|r k p ips port i c Hk Hpc|r k p ips port Hk Hpc|q k Hk Ha Hlt];
      pose proof (mi_rank _ HI _ k Hk) as Hok; pose proof Hok as (Hl & Hpck & Hex); try rewrite Hpc in Hpck, Hex.
    + apply (inv_exchange m r k (P_timeout p) M_thrown (me_store m)); try done; [by right|].
      eapply rv_timeout; [|exact Hs]. rewrite list_lookup_fmap, Hk. simpl. by rewrite He.
    + apply inv_pc; destruct_and?; by try rank_pc.
    + apply inv_pc; destruct_and?; by try rank_pc.
    + by apply inv_pc.
    + split; simpl; [rewrite (fmap_same_ex _ q k) by done; apply (mi_rv _ HI)| | |apply (mi_rep _ HI)|].
      * intros j x [(<- & <- & _)|[_ Hx]]%list_lookup_insert_Some; [done|by apply (mi_rank _ HI)].
      * intros j x [(<- & <- & _)|[_ Hx]]%list_lookup_insert_Some; [by apply (mi_ids _ HI q k)|by apply (mi_ids _ HI j)].
      * intros a b A B HA HB Hab.
        apply list_lookup_insert_Some in HA as [(<- & <- & _)|[_ HA]];
          apply list_lookup_insert_Some in HB as [(<- & <- & _)|[_ HB]]; try lia.
        -- by apply (mi_pair _ HI q b k B).
        -- by apply (mi_pair _ HI a q A k).
        -- by apply (mi_pair _ HI).
Qed.

Lemma mesh_reach_inv st m :
  honest -> fresh_store peer_key n st -> rtc (mesh_any hosts listener n) (mesh_start n st) m -> mesh_inv m.
Proof using StoreLaws0.
  intros Hh Hf Hr. pose proof (inv_start st Hf) as HI. revert HI.
  induction Hr as [|m1 m2 m3 Hs _ IH]; intros HI; [done|]. apply IH. by eapply mesh_any_inv.
Qed.
End Safety.

(** ** Formation when nothing fails *)

Definition count_some (l : list (option nat)) : nat :=
  length (List.filter (fun o => match o with Some _ => true | None => false end) l).

Lemma count_some_insert l i c : l !! i = Some None -> count_some (<[i := Some c]> l) = count_some l + 1.
Proof.
  unfold count_some. revert i. induction l as [|[x|] l IH]; intros [|i] E; simplify_eq/=; try rewrite IH by done; lia.
Qed.

Lemma count_some_all l : (forall i, i < length l -> exists c, l !! i = Some (Some c)) -> count_some l = length l.
Proof.
  unfold count_some. induction l as [|x l IH]; intros Hl; [done|]. destruct (Hl 0) as [c [= ->]]; [simpl; lia|].
  simpl. rewrite IH; [done|]. intros i Hi. apply (Hl (1 + i)). simpl. lia.
Qed.

Lemma count_some_le l : count_some l <= length l.
Proof. unfold count_some. apply List.filter_length_le. Qed.

Lemma count_some_full l i : count_some l = length l -> i < length l -> exists c, l !! i = Some (Some c).
Proof.
  revert i. induction l as [|[x|] l IH]; intros i Hc Hi; simpl in *; [lia| |].
  - destruct i as [|i]; [by exists x|]. apply IH; [|lia]. unfold count_some in *. simpl in Hc. lia.
  - pose proof (count_some_le l). unfold count_some in *. simpl in Hc. lia.
Qed.

(** Whether the rank at [pc] has connected to [p], and for whose answer on
    which connection it waits. *)
Definition dialled (pc : mesh_pc) (p : nat) : bool :=
  match pc with
  | M_exchange => false
  | M_next q | M_dial q _ _ _ => p <? q
  | M_await q _ _ _ _ => p <=? q
  | _ => true
  end.
Definition awaiting (pc : mesh_pc) : option (nat * nat) :=
  match pc with M_await p _ _ _ c => Some (p, c) | _ => None end.

Section Formation.
Context `{StdSort} {S : Type} `{!Store S, !StoreLaws S}.
Context (hosts : nat -> host) (listener : str -> Z -> option nat) (n : nat).

Abbreviation ep := (own_ep hosts).

(** Every host can listen, and each lower rank has an address for each higher
    one at which that rank listens. *)
Definition connected : Prop :=
  (forall r, r < n -> is_ok (my_endpoint (hosts r)) = true) /\
  forall r p, r < p < n -> exists ips port ip,
    route (hosts r) (ep p) = Ok (ips, port) /\ ip ∈ ips /\ listener ip port = Some p.

Record smooth_rank (r : nat) (k : mrank) : Prop := {
  sr_live : mr_pc k <> M_thrown /\ mr_pc k <> M_terminated /\ forall p, mr_ex k <> P_timeout p;
  sr_acc : mr_accepted k = count_some (take r (mr_fds k));
  sr_nodup : NoDup (mr_backlog k).*2;
  sr_low : Forall (fun e => e.2 < r) (mr_backlog k);
  sr_dial p ips port i : mr_pc k = M_dial p ips port i ->
    exists j ip, i <= j /\ ips !! j = Some ip /\ listener ip port = Some p;
  sr_up p : r < p < n -> dialled (mr_pc k) p = true -> (forall c, awaiting (mr_pc k) <> Some (p, c)) ->
    exists c, mr_fds k !! p = Some (Some c);
}.

(** The connection of [r] to [p]: not made, waiting at [p], or accepted. *)
Definition smooth_pair (reps : gmap nat nat) (r p : nat) (R P : mrank) : Prop :=
  if dialled (mr_pc R) p then
    (mr_fds P !! r = Some None /\
     exists c, awaiting (mr_pc R) = Some (p, c) /\ (c, r) ∈ mr_backlog P /\ reps !! c = None) \/
    ((exists c, mr_fds P !! r = Some (Some c)) /\ r ∉ (mr_backlog P).*2 /\
     forall c, awaiting (mr_pc R) = Some (p, c) -> reps !! c = Some p)
  else mr_fds P !! r = Some None /\ r ∉ (mr_backlog P).*2.

Record smooth (m : mesh (S := S)) : Prop := {
  sm_inv : mesh_inv hosts n m;
  sm_rank r k : me_ranks m !! r = Some k -> smooth_rank r k;
  sm_await r k p c : me_ranks m !! r = Some k -> awaiting (mr_pc k) = Some (p, c) -> c < me_next m;
  sm_inj r r' k k' p p' c : me_ranks m !! r = Some k -> me_ranks m !! r' = Some k' ->
    awaiting (mr_pc k) = Some (p, c) -> awaiting (mr_pc k') = Some (p', c) -> r = r';
  sm_pair r p R P : me_ranks m !! r = Some R -> me_ranks m !! p = Some P -> r < p ->
    smooth_pair (me_replies m) r p R P;
}.

Lemma smooth_frame reps r p R R' P P' :
  dialled (mr_pc R') p = dialled (mr_pc R) p -> awaiting (mr_pc R') = awaiting (mr_pc R) ->
  mr_fds P' !! r = mr_fds P !! r -> mr_backlog P' = mr_backlog P ->
  smooth_pair reps r p R P -> smooth_pair reps r p R' P'.
Proof. unfold smooth_pair. by intros -> -> -> ->. Qed.

(** A rank moves without touching a connection. *)
Lemma smooth_move m r k k' st :
  smooth m -> me_ranks m !! r = Some k -> mr_fds k' = mr_fds k -> mr_backlog k' = mr_backlog k ->
  awaiting (mr_pc k) = None -> awaiting (mr_pc k') = None ->
  (forall p, r < p < n -> dialled (mr_pc k') p = dialled (mr_pc k) p) -> smooth_rank r k' ->
  let m' := mkMesh st (me_next m) (me_replies m) (<[r := k']> (me_ranks m)) in
  mesh_inv hosts n m' -> smooth m'.
Proof.
  intros Hsm Hk Hf Hb Ha Ha' Hd Hok m' HI'. split; simpl; [done| | | |].
  - intros j x [(<- & <- & _)|[_ Hx]]%list_lookup_insert_Some; [done|by apply (sm_rank _ Hsm)].
  - intros j x p c [(<- & <- & _)|[_ Hx]]%list_lookup_insert_Some; [congruence|by apply (sm_await _ Hsm j)].
  - intros a b A B p p' c [(<- & <- & _)|[_ HA]]%list_lookup_insert_Some; [congruence|].
    intros [(<- & <- & _)|[_ HB]]%list_lookup_insert_Some; [congruence|by apply (sm_inj _ Hsm a b A B)].
  - intros a b A B HA HB Hab.
    apply list_lookup_insert_Some in HA as [(<- & <- & _)|[_ HA]];
      apply list_lookup_insert_Some in HB as [(<- & <- & _)|[_ HB]]; try lia.
    + assert (b < n) by (rewrite <- (mesh_len _ _ m (sm_inv _ Hsm)); by eapply lookup_lt_Some).
      eapply smooth_frame; [..|apply (sm_pair _ Hsm r b k B Hk HB Hab)]; try done; [by apply Hd|congruence].
    + eapply smooth_frame; [..|apply (sm_pair _ Hsm a r A k HA Hk Hab)]; congruence.
    + by apply (sm_pair _ Hsm).
Qed.

Lemma smooth_reps reps reps' r p R P :
  (forall d, awaiting (mr_pc R) = Some (p, d) -> reps' !! d = reps !! d) ->
  smooth_pair reps r p R P -> smooth_pair reps' r p R P.
Proof.
  intros Hr. unfold smooth_pair. destruct (dialled _ _); [|done].
  intros [(Hf & c & Ha & Hb & Hc)|(Hf & Hb & Hc)]; [left|right].
  - split; [done|]. exists c. by rewrite Hr.
  - split_and!; [done..|]. intros c Ha. rewrite Hr by done. by apply Hc.
Qed.

(** Another rank's connection arrives. *)
Lemma smooth_push reps a p A P c r :
  a <> r -> smooth_pair reps a p A P -> smooth_pair reps a p A (push_backlog (c, r) P).
Proof.
  intros Hne. unfold smooth_pair. simpl.
  assert (Hmem : a ∉ (mr_backlog P).*2 -> a ∉ (mr_backlog P ++ [(c, r)]).*2)
    by (rewrite fmap_app, not_elem_of_app; simpl; rewrite list_elem_of_singleton; done).
  destruct (dialled _ _); [|intros [? ?]; auto].
  intros [(Hf & d & Hd & Hb & Hr)|(Hf & Hb & Hc)]; [left|right; auto].
  split; [done|]. exists d. split_and!; [done|set_solver|done].
Qed.

(** For the other peers the rank that connects is where it was. *)
Lemma smooth_dialled reps r b p ips port i c k B :
  mr_pc k = M_dial p ips port i -> b <> p -> smooth_pair reps r b k B ->
  smooth_pair reps r b (with_pc (M_await p ips port i c) k) B.
Proof.
  intros Hpc Hne Hp. unfold smooth_pair in *. rewrite Hpc in Hp. simpl in *.
  destruct (Nat.ltb_spec b p), (Nat.leb_spec b p); try lia; [|done].
  destruct Hp as [(_ & d & Hd & _)|(Hf & Hb & _)]; [done|right]. split_and!; [done..|]. congruence.
Qed.

(** A connection is made. *)
Lemma smooth_dial m r k p ips port i P :
  smooth m -> me_ranks m !! r = Some k -> mr_pc k = M_dial p ips port i -> me_ranks m !! p = Some P -> r < p ->
  let c := me_next m in
  smooth (mkMesh (me_store m) (c + 1) (me_replies m)
    (<[p := push_backlog (c, r) P]> (<[r := with_pc (M_await p ips port i c) k]> (me_ranks m)))).
Proof.
  intros Hsm Hk Hpc HP Hrp c. pose proof (sm_rank _ Hsm r k Hk) as HR. pose proof (sm_rank _ Hsm p P HP) as HPok.
  pose proof (sm_pair _ Hsm r p k P Hk HP Hrp) as Hpair. unfold smooth_pair in Hpair. rewrite Hpc in Hpair. simpl in Hpair.
  rewrite Nat.ltb_irrefl in Hpair. destruct Hpair as [Hnone Hni].
  set (k' := with_pc (M_await p ips port i c) k).
  pose proof (lookup_insert_two (me_ranks m) p r (push_backlog (c, r) P) k') as Hlook.
  assert (Haw : forall j x b d, <[p := push_backlog (c, r) P]> (<[r := k']> (me_ranks m)) !! j = Some x ->
    awaiting (mr_pc x) = Some (b, d) -> (j = r /\ b = p /\ d = c) \/
      (exists y, me_ranks m !! j = Some y /\ awaiting (mr_pc y) = Some (b, d) /\ d < c)).
  { intros j x b d [[-> ->]|[[-> ->]|(_ & _ & Hx)]]%Hlook Ha; [right|left|right].
    - exists P. split_and!; [done..|]. by apply (sm_await _ Hsm p P b d).
    - simpl in Ha. by injection Ha as <- <-.
    - exists x. split_and!; [done..|]. by apply (sm_await _ Hsm j x b d). }
  split; simpl.
  - apply inv_dial; try done. apply (sm_inv _ Hsm).
  - intros j x [[-> ->]|[[-> ->]|(_ & _ & Hx)]]%Hlook; [| |by apply (sm_rank _ Hsm)].
    + destruct HPok as [H1 H2 H3 H4 H5 H6]. split; simpl; try done.
      * rewrite fmap_app. apply NoDup_app. split_and!; [done| |apply NoDup_singleton].
        intros d Hd ->%list_elem_of_singleton. by apply Hni.
      * apply Forall_app. split; [done|]. by apply Forall_singleton.
    + destruct HR as [H1 H2 H3 H4 H5 H6]. rewrite Hpc in *. split; simpl; try done; [by split_and!; try apply H1|].
      intros q Hq Hle Hne. apply H6; [done| |done]. simpl. apply Nat.ltb_lt.
      apply Nat.leb_le in Hle. assert (q <> p) by (intros ->; by apply (Hne c)). lia.
  - intros j x b d Hx Ha. destruct (Haw j x b d Hx Ha) as [(_ & _ & ->)|(y & _ & _ & Hd)]; lia.
  - intros a b A B pa pb d HA HB Ha Hb.
    destruct (Haw _ _ _ _ HA Ha) as [(-> & _ & ->)|(y & Hy & Hay & Hd)];
      destruct (Haw _ _ _ _ HB Hb) as [(-> & _ & ?)|(z & Hz & Haz & Hd')]; try lia.
    by eapply (sm_inj _ Hsm).
  - intros a b A B HA HB Hab.
    apply Hlook in HA as [[-> ->]|[[-> ->]|(Hap & Har & HA)]];
      apply Hlook in HB as [[-> ->]|[[-> ->]|(Hbp & Hbr & HB)]]; try lia.
    + eapply smooth_frame; [..|apply (sm_pair _ Hsm p b P B HP HB Hab)]; done.
    + unfold smooth_pair. simpl. rewrite Nat.leb_refl. left. split; [done|]. exists c. split_and!; [done|set_solver|].
      destruct (me_replies m !! c) as [q|] eqn:E; [|done]. apply (mi_rep _ _ _ (sm_inv _ Hsm)) in E. lia.
    + by eapply smooth_dialled, (sm_pair _ Hsm).
    + apply smooth_push; [done|]. by apply (sm_pair _ Hsm).
    + eapply smooth_frame; [..|apply (sm_pair _ Hsm a r A k HA Hk Hab)]; done.
    + by apply (sm_pair _ Hsm).
Qed.

(** The answer is read. *)
Lemma smooth_answer m r k p ips port i c :
  smooth m -> me_ranks m !! r = Some k -> mr_pc k = M_await p ips port i c -> me_replies m !! c = Some p ->
  r < p < n ->
  smooth (put_rank r (with_pc (M_next (p + 1)) (with_fds (<[p := Some c]> (mr_fds k)) k)) m).
Proof.
  intros Hsm Hk Hpc Hrep Hp. pose proof (sm_rank _ Hsm r k Hk) as [H1 H2 H3 H4 H5 H6].
  assert (Hlen : length (mr_fds k) = n) by apply (mi_rank _ _ _ (sm_inv _ Hsm) r k Hk).
  rewrite Hpc in *. split; simpl.
  - eapply inv_answer; try done. apply (sm_inv _ Hsm).
  - intros j x [(<- & <- & _)|[_ Hx]]%list_lookup_insert_Some; [|by apply (sm_rank _ Hsm)].
    split; simpl; try done; [by split_and!; try apply H1| |].
    + by rewrite take_insert_ge by lia.
    + intros q Hq Hlt%Nat.ltb_lt _. destruct (decide (q = p)) as [->|Hne].
      * exists c. apply list_lookup_insert_eq. lia.
      * rewrite list_lookup_insert_ne by done. apply H6; [done|apply Nat.leb_le; lia|]. intros d. simpl. congruence.
  - intros j x b d [(<- & <- & _)|[_ Hx]]%list_lookup_insert_Some; [done|by apply (sm_await _ Hsm j)].
  - intros a b A B pa pb d [(<- & <- & _)|[_ HA]]%list_lookup_insert_Some; [done|].
    intros [(<- & <- & _)|[_ HB]]%list_lookup_insert_Some; [done|by apply (sm_inj _ Hsm a b A B)].
  - intros a b A B HA HB Hab.
    apply list_lookup_insert_Some in HA as [(<- & <- & _)|[_ HA]];
      apply list_lookup_insert_Some in HB as [(<- & <- & _)|[_ HB]]; try lia.
    + pose proof (sm_pair _ Hsm r b k B Hk HB Hab) as Hq. unfold smooth_pair in *. rewrite Hpc in Hq. simpl in *.
      destruct (Nat.leb_spec b p), (Nat.ltb_spec b (p + 1)); try lia; [|done].
      destruct Hq as [(_ & d & [= <- <-] & _ & Hd)|(Hf & Hb & _)]; [congruence|right; by split_and!].
    + eapply smooth_frame; [..|apply (sm_pair _ Hsm a r A k HA Hk Hab)]; try done.
      simpl. by rewrite list_lookup_insert_ne by lia.
    + by apply (sm_pair _ Hsm).
Qed.

(** The connection at the head of a backlog is the one its rank waits for. *)
Lemma backlog_head m q k c r rest :
  smooth m -> me_ranks m !! q = Some k -> mr_backlog k = (c, r) :: rest ->
  r < q /\ r ∉ rest.*2 /\ mr_fds k !! r = Some None /\ me_replies m !! c = None /\
  exists R, me_ranks m !! r = Some R /\ awaiting (mr_pc R) = Some (q, c).
Proof.
  intros Hsm Hk Hb. pose proof (sm_rank _ Hsm q k Hk) as [_ _ H3 H4 _ _]. rewrite Hb in H3, H4.
  inversion H4 as [|? ? Hrq _]; subst. simpl in Hrq. inversion H3 as [|? ? Hni _]; subst. simpl in Hni.
  assert (Hq : q < n) by (rewrite <- (mesh_len _ _ m (sm_inv _ Hsm)); by eapply lookup_lt_Some).
  destruct (lookup_lt_is_Some_2 (me_ranks m) r) as [R HR]; [rewrite (mesh_len _ _ m (sm_inv _ Hsm)); lia|].
  pose proof (sm_pair _ Hsm r q R k HR Hk Hrq) as Hp. unfold smooth_pair in Hp.
  assert (Hin : r ∈ (mr_backlog k).*2) by (rewrite Hb; simpl; left).
  destruct (dialled _ _); [|by destruct Hp].
  destruct Hp as [(Hf & d & Ha & Hd & Hr)|(_ & Hni' & _)]; [|done].
  assert (d = c) as ->.
  { rewrite Hb in Hd. apply elem_of_cons in Hd as [[= ->]|Hd]; [done|]. exfalso. apply Hni.
    apply list_elem_of_fmap. by exists (d, r). }
  split_and!; try done. by exists R.
Qed.

(** A connection is accepted. *)
Lemma smooth_accept m q k c r rest :
  smooth m -> me_ranks m !! q = Some k -> mr_backlog k = (c, r) :: rest ->
  smooth (mkMesh (me_store m) (me_next m) (if r <? q then <[c := q]> (me_replies m) else me_replies m)
    (<[q := mkRank (mr_ex k) (mr_pc k) (mr_accepted k + 1) rest
              (if r <? q then <[r := Some c]> (mr_fds k) else mr_fds k)]> (me_ranks m))).
Proof.
  intros Hsm Hk Hb. pose proof (inv_accept hosts n m q k c r rest (sm_inv _ Hsm) Hk Hb) as HI'.
  destruct (backlog_head m q k c r rest Hsm Hk Hb) as (Hrq & Hni & Hnone & Hrep & R & HR & Haw).
  rewrite (proj2 (Nat.ltb_lt _ _) Hrq) in *. pose proof (sm_rank _ Hsm q k Hk) as [H1 H2 H3 H4 H5 H6].
  assert (Hother : forall a b A d, me_ranks m !! a = Some A -> awaiting (mr_pc A) = Some (b, d) ->
    (a, b) <> (r, q) -> <[c := q]> (me_replies m) !! d = me_replies m !! d).
  { intros a b A d HA Ha Hne. apply lookup_insert_ne. intros <-. apply Hne.
    assert (a = r) as -> by (by eapply (sm_inj _ Hsm)). congruence. }
  split; simpl; [done| | | |].
  - intros j x [(<- & <- & _)|[_ Hx]]%list_lookup_insert_Some; [|by apply (sm_rank _ Hsm)].
    rewrite Hb in H3, H4. split; simpl; try done; [|by inversion H3|by inversion H4|].
    + rewrite take_insert_lt by done. rewrite count_some_insert by (by rewrite lookup_take_lt). by rewrite H2.
    + intros p Hp Hd Ha. rewrite list_lookup_insert_ne by lia. by apply H6.
  - intros j x b d [(<- & <- & _)|[_ Hx]]%list_lookup_insert_Some; [by apply (sm_await _ Hsm q k)|by apply (sm_await _ Hsm j)].
  - intros a b A B pa pb d HA HB Ha Hb'.
    assert (Hold : forall j x, <[q := mkRank (mr_ex k) (mr_pc k) (mr_accepted k + 1) rest (<[r := Some c]> (mr_fds k))]>
      (me_ranks m) !! j = Some x -> exists y, me_ranks m !! j = Some y /\ mr_pc y = mr_pc x)
      by (intros j x [(<- & <- & _)|[_ Hx]]%list_lookup_insert_Some; eauto).
    destruct (Hold a A HA) as (y & Hy & Hey), (Hold b B HB) as (z & Hz & Hez).
    rewrite <- Hey in Ha. rewrite <- Hez in Hb'. by eapply (sm_inj _ Hsm a b y z).
  - intros a b A B HA HB Hab.
    apply list_lookup_insert_Some in HA as [(<- & <- & _)|[_ HA]];
      apply list_lookup_insert_Some in HB as [(<- & <- & _)|[Hbq HB]]; try lia.
    + eapply smooth_reps, smooth_frame; [|done..|apply (sm_pair _ Hsm q b k B Hk HB Hab)].
      intros d Hd. apply (Hother q b k d Hk Hd). intros [= -> ->]. lia.
    + destruct (decide (a = r)) as [->|Har].
      * replace A with R by congruence. unfold smooth_pair. simpl.
        replace (dialled (mr_pc R) q) with true
          by (destruct (mr_pc R); try done; injection Haw as -> _; simpl; by rewrite Nat.leb_refl).
        right. split_and!; [exists c; apply list_lookup_insert_eq|done|].
        -- apply (lookup_lt_Some _ _ _ Hnone).
        -- intros d Hd. assert (d = c) as -> by congruence. apply lookup_insert_eq.
      * assert (Hp : smooth_pair (<[c := q]> (me_replies m)) a q A k).
        { eapply smooth_reps; [|by apply (sm_pair _ Hsm)]. intros d Hd. apply (Hother a q A d HA Hd). congruence. }
        unfold smooth_pair in *. simpl. rewrite Hb in Hp. simpl in Hp. rewrite list_lookup_insert_ne by done.
        destruct (dialled _ _); [|destruct Hp as [? [_ ?]%not_elem_of_cons]; done].
        destruct Hp as [(Hf & d & Hd & Hin & Hr)|(Hf & [_ Hin]%not_elem_of_cons & Hr)]; [left|right; by split_and!].
        split; [done|]. exists d. split_and!; [done| |done]. apply elem_of_cons in Hin as [[= _ ?]|?]; done.
    + eapply smooth_reps; [|by apply (sm_pair _ Hsm)]. intros d Hd. apply (Hother a b A d HA Hd). congruence.
Qed.

Lemma smooth_start st : fresh_store peer_key n st -> smooth (mesh_start n st).
Proof.
  intros Hf. assert (Hk : forall r k, me_ranks (mesh_start n st) !! r = Some k ->
    r < n /\ k = mkRank P_start M_exchange 0 [] (replicate n None)) by (intros r k [-> ?]%lookup_replicate; done).
  split.
  - by apply inv_start.
  - intros r k [Hr ->]%Hk. split; simpl; try done; try constructor.
    symmetry. rewrite take_replicate. unfold count_some. by induction (r `min` n).
  - intros r k p c [_ ->]%Hk. done.
  - intros r r' k k' p p' c [_ ->]%Hk. done.
  - intros r p R P [Hr ->]%Hk [_ ->]%Hk _. split; [|apply not_elem_of_nil]. simpl. by rewrite lookup_replicate_2.
Qed.

(** *** Progress *)

Definition hops (r p : nat) : nat :=
  match route (hosts r) (ep p) with Ok (ips, _) => length ips | Throw _ => 0 end.
Definition ahead (r p : nat) : nat := sum_list_with (fun q => hops r q + 3) (seq p (n - p)).

Definition pc_cost (r : nat) (k : mrank) : nat :=
  match mr_pc k with
  | M_exchange => pc_weight n (mr_ex k) + ahead r (r + 1) + 4
  | M_next p => ahead r p + 3
  | M_dial p _ _ i => ahead r (p + 1) + 5 + (hops r p - i)
  | M_await p _ _ _ _ => ahead r (p + 1) + 4
  | M_join => 1
  | _ => 0
  end.
Definition rank_cost (r : nat) (k : mrank) : nat := pc_cost r k + (r - mr_accepted k).
Definition mesh_cost (m : mesh (S := S)) : nat := sum_list (imap rank_cost (me_ranks m)).

Lemma ahead_next r p : p < n -> ahead r p = hops r p + 3 + ahead r (p + 1).
Proof.
  intros Hp. unfold ahead. replace (n - p) with (1 + (n - (p + 1))) by lia. simpl. by rewrite Nat.add_1_r.
Qed.

Lemma cost_insert {A} (f : nat -> A -> nat) l i x y :
  l !! i = Some x -> sum_list (imap f (<[i := y]> l)) + f i x = sum_list (imap f l) + f i y.
Proof.
  revert f i. induction l as [|z l IH]; intros f [|i] E; simplify_eq/=; [lia|].
  specialize (IH (f ∘ Datatypes.S) i E). unfold compose in *. lia.
Qed.

Lemma put_rank_cost m r k k' :
  me_ranks m !! r = Some k -> rank_cost r k' < rank_cost r k -> mesh_cost (put_rank r k' m) < mesh_cost m.
Proof. intros Hk Hc. unfold mesh_cost. simpl. pose proof (cost_insert rank_cost _ _ _ k' Hk). lia. Qed.

Lemma smooth_rank_pc r k pc :
  smooth_rank r k -> pc <> M_thrown -> pc <> M_terminated ->
  (forall p ips port i, pc = M_dial p ips port i -> exists j ip, i <= j /\ ips !! j = Some ip /\ listener ip port = Some p) ->
  (forall p, r < p < n -> dialled pc p = true -> dialled (mr_pc k) p = true) -> awaiting (mr_pc k) = None ->
  smooth_rank r (with_pc pc k).
Proof.
  intros [H1 H2 H3 H4 H5 H6] Ht1 Ht2 Hd Hup Ha. split; simpl; try done; [by split_and!; try apply H1|].
  intros p Hp Hdp _. apply H6; [done|by apply Hup|]. intros c. by rewrite Ha.
Qed.

(** A rank moves from one place to another and gets closer to the end. *)
Lemma smooth_step_pc m r k pc :
  smooth m -> me_ranks m !! r = Some k -> mesh_inv hosts n (put_rank r (with_pc pc k) m) ->
  pc <> M_thrown -> pc <> M_terminated ->
  (forall p ips port i, pc = M_dial p ips port i -> exists j ip, i <= j /\ ips !! j = Some ip /\ listener ip port = Some p) ->
  (forall p, r < p < n -> dialled pc p = dialled (mr_pc k) p) -> awaiting (mr_pc k) = None -> awaiting pc = None ->
  pc_cost r (with_pc pc k) < pc_cost r k ->
  smooth (put_rank r (with_pc pc k) m) /\ mesh_cost (put_rank r (with_pc pc k) m) < mesh_cost m.
Proof.
  intros Hsm Hk HI' Ht1 Ht2 Hd Hup Ha Ha' Hc. split.
  - eapply smooth_move; try done. apply smooth_rank_pc; try done; [by apply (sm_rank _ Hsm)|].
    intros p Hp. by rewrite Hup.
  - apply (put_rank_cost m r k); [done|]. unfold rank_cost. simpl. lia.
Qed.

Lemma smooth_exchange m r k x :
  smooth m -> me_ranks m !! r = Some k -> mr_pc k = M_exchange ->
  collect_step peer_key ep n r (me_store m) (mr_ex k) = Some x ->
  let m' := mkMesh x.1 (me_next m) (me_replies m) (<[r := with_ex x.2 M_exchange k]> (me_ranks m)) in
  smooth m' /\ mesh_cost m' < mesh_cost m.
Proof using StoreLaws0.
  intros Hsm Hk Hpc Hs m'. split.
  - eapply smooth_move; try done; [by rewrite Hpc|intros p Hp; by rewrite Hpc| |].
    + destruct (sm_rank _ Hsm r k Hk) as [H1 H2 H3 H4 H5 H6]. rewrite Hpc in *. split; simpl; try done.
      split_and!; try done. intros p Hx. destruct (mr_ex k) as [|j acc|acc|j]; simpl in Hs; simplify_eq/=; try done.
      repeat case_match; simplify_eq/=.
    + apply exchange_step_inv; try done. apply (sm_inv _ Hsm).
  - unfold mesh_cost, m'. simpl. pose proof (cost_insert rank_cost _ _ _ (with_ex x.2 M_exchange k) Hk) as Hc.
    assert (pc_weight n x.2 < pc_weight n (mr_ex k)).
    { destruct x as [st' ex']. apply (collect_weight peer_key ep n (mkRv (me_store m) (mr_ex <$> me_ranks m)) r (mr_ex k) st' ex').
      - apply (sm_inv _ Hsm).
      - simpl. by rewrite list_lookup_fmap, Hk.
      - done. }
    unfold rank_cost, pc_cost in *. simpl in *. rewrite Hpc in Hc. lia.
Qed.

Lemma dial_cost m r k p ips port i c P nx :
  me_ranks m !! r = Some k -> mr_pc k = M_dial p ips port i ->
  <[r := with_pc (M_await p ips port i c) k]> (me_ranks m) !! p = Some P ->
  mesh_cost (mkMesh (me_store m) nx (me_replies m)
    (<[p := push_backlog (c, r) P]> (<[r := with_pc (M_await p ips port i c) k]> (me_ranks m)))) < mesh_cost m.
Proof.
  intros Hk Hpc HP. unfold mesh_cost. simpl. pose proof (cost_insert rank_cost _ _ _ (push_backlog (c, r) P) HP) as H1.
  pose proof (cost_insert rank_cost _ _ _ (with_pc (M_await p ips port i c) k) Hk) as H2.
  change (rank_cost p (push_backlog (c, r) P)) with (rank_cost p P) in H1.
  assert (rank_cost r (with_pc (M_await p ips port i c) k) < rank_cost r k)
    by (unfold rank_cost, pc_cost; rewrite Hpc; simpl; lia).
  lia.
Qed.

(** The answer a rank waits for is the one it gets. *)
Lemma smooth_got m r k p c got :
  smooth m -> me_ranks m !! r = Some k -> awaiting (mr_pc k) = Some (p, c) -> r < p < n ->
  me_replies m !! c = Some got -> got = p.
Proof.
  intros Hsm Hk Ha Hp Hg. destruct (lookup_lt_is_Some_2 (me_ranks m) p) as [P HP];
    [rewrite (mesh_len _ _ m (sm_inv _ Hsm)); lia|].
  pose proof (sm_pair _ Hsm r p k P Hk HP (proj1 Hp)) as Hq. unfold smooth_pair in Hq.
  replace (dialled (mr_pc k) p) with true in Hq
    by (destruct (mr_pc k); try done; injection Ha as -> _; simpl; by rewrite Nat.leb_refl).
  destruct Hq as [(_ & d & Hd & _ & Hr)|(_ & _ & Hr)].
  - assert (d = c) as -> by congruence. congruence.
  - specialize (Hr c Ha). congruence.
Qed.

Lemma smooth_filled m r k :
  smooth m -> me_ranks m !! r = Some k -> mr_pc k = M_join -> mr_accepted k = r -> filled n r k.
Proof.
  intros Hsm Hk Hpc Hacc q Hq Hne. destruct (sm_rank _ Hsm r k Hk) as [_ H2 _ _ _ H6].
  assert (Hlen : length (mr_fds k) = n) by apply (mi_rank _ _ _ (sm_inv _ Hsm) r k Hk).
  destruct (decide (q < r)) as [Hlt|Hge].
  - assert (r < n) by (rewrite <- (mesh_len _ _ m (sm_inv _ Hsm)); by eapply lookup_lt_Some).
    destruct (count_some_full (take r (mr_fds k)) q) as [c Hc]; rewrite ?length_take; [lia..|].
    rewrite lookup_take_lt in Hc by done. by exists c.
  - apply H6; [lia|by rewrite Hpc|]. intros c. by rewrite Hpc.
Qed.

Lemma mesh_main_step_smooth m m' r :
  honest hosts listener n -> connected -> smooth m -> mesh_main_step hosts listener n r m = Some m' ->
  smooth m' /\ mesh_cost m' < mesh_cost m.
Proof using StoreLaws0.
  intros Hh [Hep Hcon] Hsm Hs. pose proof (mesh_main_step_inv hosts listener n m m' r Hh (sm_inv _ Hsm) Hs) as HI'.
  unfold mesh_main_step in Hs. destruct (me_ranks m !! r) as [k|] eqn:Hk; [|done]. simpl in Hs.
  assert (Hr : r < n) by (rewrite <- (mesh_len _ _ m (sm_inv _ Hsm)); by eapply lookup_lt_Some).
  pose proof (sm_rank _ Hsm r k Hk) as HR. destruct (mi_rank _ _ _ (sm_inv _ Hsm) r k Hk) as (Hl & Hpc & Hex).
  destruct (mr_pc k) as [|p|p ips port i|p ips port i c| | | |] eqn:Epc; try done.
  - specialize (Hep r Hr). destruct (my_endpoint (hosts r)); [|done].
    destruct (mr_ex k) as [|j acc|eps|j] eqn:He; try done.
    + injection Hs as <-. apply (smooth_exchange m r k (_, _)); try done. by rewrite He.
    + apply bind_Some in Hs as (x & Hx & [= <-]). apply (smooth_exchange m r k x); try done. by rewrite He.
    + injection Hs as <-. apply smooth_step_pc; try done; rewrite ?Epc; try done.
      * intros p Hp. simpl. apply Nat.ltb_ge. lia.
      * unfold pc_cost. rewrite Epc, He. simpl. lia.
  - destruct Hpc as [Hp Hun]. destruct (Nat.leb_spec n p).
    + injection Hs as <-. apply smooth_step_pc; try done; rewrite ?Epc; try done.
      * intros q Hq. simpl. symmetry. apply Nat.ltb_lt. lia.
      * unfold pc_cost. rewrite Epc. simpl. lia.
    + rewrite Hex, list_lookup_fmap, lookup_seq_lt in Hs by done. simpl in Hs.
      destruct (Hcon r p) as (ips & port & ip & Hroute & Hip & Hlis); [lia|]. rewrite Hroute in Hs. injection Hs as <-.
      apply smooth_step_pc; try done; rewrite ?Epc; try done.
      * intros ? ? ? ? [= <- <- <- <-]. apply list_elem_of_lookup in Hip as [j Hj]. exists j, ip. split_and!; [lia|done..].
      * unfold pc_cost. rewrite Epc. simpl. rewrite (ahead_next r p) by done. unfold hops. rewrite Hroute. lia.
  - destruct Hpc as (Hp & Hroute & Hun). destruct (sr_dial _ _ HR p ips port i Epc) as (j & ip' & Hij & Hj & Hlis).
    assert (i < length ips) by (apply lookup_lt_Some in Hj; lia).
    destruct (ips !! i) as [ip|] eqn:Hip; [|apply lookup_ge_None in Hip; lia].
    destruct (listener ip port) as [q|] eqn:Hq; injection Hs as <-.
    + destruct (Hh r p ips port ip Hp Hroute (list_elem_of_lookup_2 _ _ _ Hip)) as [?|?]; [congruence|].
      assert (q = p) as -> by congruence.
      destruct (lookup_lt_is_Some_2 (me_ranks m) p) as [P HP]; [rewrite (mesh_len _ _ m (sm_inv _ Hsm)); lia|].
      assert (HP' : <[r := with_pc (M_await p ips port i (me_next m)) k]> (me_ranks m) !! p = Some P)
        by (by rewrite list_lookup_insert_ne by lia).
      rewrite (alter_insert _ _ _ _ HP'). split; [apply smooth_dial; try done; lia|by apply dial_cost].
    + apply smooth_step_pc; try done; rewrite ?Epc; try done.
      * intros ? ? ? ? [= <- <- <- <-]. exists j, ip'. split_and!; [|done..].
        assert (i <> j) by (intros <-; congruence). lia.
      * unfold pc_cost. rewrite Epc. simpl. unfold hops. rewrite Hroute. lia.
  - destruct Hpc as (Hp & Hroute & Hun). apply bind_Some in Hs as (got & Hgot & [= <-]).
    assert (got = p) as -> by (eapply (smooth_got m r k p c); [done..|by rewrite Epc|done|done]).
    rewrite Nat.eqb_refl in *. split; [by eapply smooth_answer|]. apply (put_rank_cost m r k); [done|].
    unfold rank_cost, pc_cost. rewrite Epc. simpl. lia.
  - destruct (Nat.eqb_spec (mr_accepted k) r) as [Hacc|]; [|done]. injection Hs as <-.
    pose proof (proj2 (complete_filled n r k Hl) (smooth_filled m r k Hsm Hk Epc Hacc)) as Hc.
    destruct (mesh_complete _ _); [|done].
    apply smooth_step_pc; try done; rewrite ?Epc; try done. unfold pc_cost. rewrite Epc. simpl. lia.
Qed.

Lemma mesh_step_smooth m m' :
  honest hosts listener n -> connected -> smooth m -> mesh_step hosts listener n m m' ->
  smooth m' /\ mesh_cost m' < mesh_cost m.
Proof using StoreLaws0.
  intros Hh Hc Hsm [r ? Hs|q ? Hs]; [by eapply mesh_main_step_smooth|].
  unfold accept_step in Hs. destruct (me_ranks m !! q) as [k|] eqn:Hk; [|done]. simpl in Hs.
  destruct (acceptor_runs (mr_pc k)); [|done]. simpl in Hs. destruct (Nat.ltb_spec (mr_accepted k) q); [|done].
  destruct (mr_backlog k) as [|[c r] rest] eqn:Hb; [done|]. injection Hs as <-. rewrite accept_one_rank.
  split; [by apply smooth_accept|]. unfold mesh_cost. simpl.
  match goal with |- context [<[q := ?k']> _] => pose proof (cost_insert rank_cost _ _ _ k' Hk) as Hcost end.
  unfold rank_cost, pc_cost in Hcost. simpl in Hcost. fold rank_cost in Hcost. unfold rank_cost, pc_cost. lia.
Qed.

(** *** Nothing waits forever *)

Section Stuck.
Context (m : mesh (S := S)).
Context (Hh : honest hosts listener n) (Hcon : connected) (Hsm : smooth m).
Context (Hstuck : forall m', ~ mesh_step hosts listener n m m').

Lemma stuck_main r k : me_ranks m !! r = Some k -> mesh_main_step hosts listener n r m = None.
Proof using Hstuck.
  intros Hk. destruct (mesh_main_step hosts listener n r m) as [m'|] eqn:E; [|done]. destruct (Hstuck m'). by eapply ms_main.
Qed.

Lemma stuck_not_exchange r k : me_ranks m !! r = Some k -> mr_pc k <> M_exchange.
Proof using Hcon Hsm Hstuck.
  intros Hk Hpc.
  assert (Hnone : forall j x, me_ranks m !! j = Some x -> mr_pc x = M_exchange ->
    (forall eps, mr_ex x <> P_done eps) /\ collect_step peer_key ep n j (me_store m) (mr_ex x) = None).
  { intros j x Hx Hpcx. pose proof (stuck_main j x Hx) as Hs. unfold mesh_main_step in Hs. rewrite Hx in Hs. simpl in Hs.
    rewrite Hpcx in Hs. assert (Hj : j < n) by (rewrite <- (mesh_len _ _ m (sm_inv _ Hsm)); by eapply lookup_lt_Some).
    pose proof (proj1 Hcon j Hj) as Hok. destruct (my_endpoint (hosts j)); [|done].
    destruct (mr_ex x) eqn:He; try done; split; try done. simpl in *. repeat case_match; done. }
  destruct (Hnone r k Hk Hpc) as [Hnd Hcs]. pose proof (mi_rv _ _ _ (sm_inv _ Hsm)) as Hrv.
  destruct (mr_ex k) as [|p acc|eps|p] eqn:He; [done| |by destruct (Hnd eps)|].
  - pose proof (ri_pc _ _ _ _ Hrv r (P_collect p acc)) as Hp. simpl in Hp. rewrite list_lookup_fmap, Hk in Hp. simpl in Hp.
    rewrite He in Hp. destruct (Hp eq_refl) as (Hpn & _ & _). simpl in Hcs.
    destruct (Nat.eqb_spec p n); [done|]. destruct (Nat.eqb p r); [done|].
    destruct (st_check (peer_key p) (me_store m)) eqn:Hc; [done|].
    destruct (lookup_lt_is_Some_2 (me_ranks m) p) as [P HP]; [rewrite (mesh_len _ _ m (sm_inv _ Hsm)); lia|].
    assert (Hst : mr_ex P = P_start).
    { destruct (mr_ex P) eqn:E; [done|..]; exfalso; apply not_true_iff_false in Hc; apply Hc;
        apply (ri_set _ _ _ _ Hrv p ltac:(lia)); eexists; simpl; rewrite list_lookup_fmap, HP; simpl; rewrite E; done. }
    assert (HpcP : mr_pc P = M_exchange).
    { destruct (mi_rank _ _ _ (sm_inv _ Hsm) p P HP) as (_ & _ & Hex). destruct (sr_live _ _ (sm_rank _ Hsm p P HP)) as (H1 & H2 & _).
      rewrite Hst in Hex. by destruct (mr_pc P). }
    destruct (Hnone p P HP HpcP) as [_ Hs]. by rewrite Hst in Hs.
  - destruct (sr_live _ _ (sm_rank _ Hsm r k Hk)) as (_ & _ & Hto). by destruct (Hto p).
Qed.

Lemma stuck_not_dial r k :
  me_ranks m !! r = Some k -> (forall p, mr_pc k <> M_next p) /\ (forall p ips port i, mr_pc k <> M_dial p ips port i).
Proof using Hsm Hstuck.
  intros Hk. pose proof (stuck_main r k Hk) as Hs. unfold mesh_main_step in Hs. rewrite Hk in Hs. simpl in Hs.
  destruct (mi_rank _ _ _ (sm_inv _ Hsm) r k Hk) as (_ & _ & Hex).
  split; intros; intros Hpc; rewrite Hpc in Hs, Hex; [rewrite Hex in Hs|]; repeat case_match; done.
Qed.

Lemma stuck_not_await r k p ips port i c : me_ranks m !! r = Some k -> mr_pc k <> M_await p ips port i c.
Proof using Hcon Hsm Hstuck.
  intros Hk Hpc. destruct (mi_rank _ _ _ (sm_inv _ Hsm) r k Hk) as (_ & Hp & _). rewrite Hpc in Hp. destruct Hp as (Hp & _).
  destruct (lookup_lt_is_Some_2 (me_ranks m) p) as [P HP]; [rewrite (mesh_len _ _ m (sm_inv _ Hsm)); lia|].
  pose proof (stuck_main r k Hk) as Hs. unfold mesh_main_step in Hs. rewrite Hk in Hs. simpl in Hs. rewrite Hpc in Hs.
  pose proof (sm_pair _ Hsm r p k P Hk HP (proj1 Hp)) as Hq. unfold smooth_pair in Hq. rewrite Hpc in Hq. simpl in Hq.
  rewrite Nat.leb_refl in Hq. destruct Hq as [(Hnone & d & [= <-] & Hin & _)|(_ & _ & Hr)].
  2: { by rewrite (Hr c eq_refl) in Hs. }
  destruct (sm_rank _ Hsm p P HP) as [(Hl1 & Hl2 & _) Hacc _ _ _ _].
  destruct (mi_rank _ _ _ (sm_inv _ Hsm) p P HP) as (Hlen & Hfill & _).
  assert (Hlt : mr_accepted P < p).
  { rewrite Hacc. pose proof (count_some_le (take p (mr_fds P))) as Hle. rewrite length_take in Hle.
    destruct (decide (count_some (take p (mr_fds P)) = p)) as [Heq|]; [|lia].
    destruct (count_some_full (take p (mr_fds P)) r) as [d Hd]; rewrite ?length_take; [lia..|].
    rewrite lookup_take_lt in Hd by lia. congruence. }
  assert (Hacp : acceptor_runs (mr_pc P) = true).
  { pose proof (stuck_not_exchange p P HP). destruct (mr_pc P); try done.
    destruct (Hfill r) as [d Hd]; [lia..|]. congruence. }
  destruct (accept_step p m) as [m'|] eqn:E; [destruct (Hstuck m'); by eapply ms_accept|].
  unfold accept_step in E. rewrite HP in E. simpl in E. rewrite Hacp, (proj2 (Nat.ltb_lt _ _) Hlt) in E. simpl in E.
  destruct (mr_backlog P) as [|[d a] rest]; [by apply not_elem_of_nil in Hin|done].
Qed.

Lemma stuck_ready r k : me_ranks m !! r = Some k -> mr_pc k = M_ready.
Proof using Hcon Hsm Hstuck.
  intros Hk.
  assert (Hpcs : forall j x, me_ranks m !! j = Some x -> mr_pc x = M_join \/ mr_pc x = M_ready).
  { intros j x Hx. pose proof (stuck_not_exchange j x Hx). pose proof (stuck_not_dial j x Hx) as [H1 H2].
    pose proof (fun p ips port i c => stuck_not_await j x p ips port i c Hx) as H3.
    destruct (sr_live _ _ (sm_rank _ Hsm j x Hx)) as (H4 & H5 & _).
    destruct (mr_pc x); naive_solver. }
  destruct (Hpcs r k Hk) as [Hpc|]; [|done]. exfalso.
  pose proof (stuck_main r k Hk) as Hs. unfold mesh_main_step in Hs. rewrite Hk in Hs. simpl in Hs. rewrite Hpc in Hs.
  destruct (Nat.eqb_spec (mr_accepted k) r) as [|Hne]; [done|]. apply Hne.
  assert (Hr : r < n) by (rewrite <- (mesh_len _ _ m (sm_inv _ Hsm)); by eapply lookup_lt_Some).
  assert (Hlen : length (mr_fds k) = n) by apply (mi_rank _ _ _ (sm_inv _ Hsm) r k Hk).
  rewrite (sr_acc _ _ (sm_rank _ Hsm r k Hk)), count_some_all; rewrite ?length_take; [lia|].
  intros a Ha. rewrite lookup_take_lt by lia.
  destruct (lookup_lt_is_Some_2 (me_ranks m) a) as [A HA]; [rewrite (mesh_len _ _ m (sm_inv _ Hsm)); lia|].
  pose proof (sm_pair _ Hsm a r A k HA Hk ltac:(lia)) as Hp. unfold smooth_pair in Hp.
  destruct (Hpcs a A HA) as [E|E]; rewrite E in Hp; simpl in Hp; destruct Hp as [(_ & d & ? & _)|(Hd & _)]; done.
Qed.
End Stuck.
End Formation.

(** ** Properties *)


(** C17: The mesh forms.  When every host can listen and every pair of ranks has an
    address at which the higher one listens, and no call fails and no wait runs
    out, the constructors of all ranks, in every interleaving of their threads,
    end after a bounded number of steps, and where they end every one of them has
    returned with a socket for each peer, the same connection at both ends. *)
Theorem mesh_forms `{StdSort} {S} `{!Store S, !StoreLaws S} hosts listener n (st : S) k m :
  honest hosts listener n -> connected hosts listener n -> fresh_store peer_key n st ->
  nsteps (mesh_step hosts listener n) k (mesh_start n st) m ->
  k + mesh_cost hosts n m <= mesh_cost hosts n (mesh_start n st) /\
  ((forall m', ~ mesh_step hosts listener n m m') ->
   forall r R, me_ranks m !! r = Some R -> mr_pc R = M_ready /\
     forall p P, me_ranks m !! p = Some P -> r < p ->
       exists c, mr_fds R !! p = Some (Some c) /\ mr_fds P !! r = Some (Some c)).
Proof.
  intros Hh Hc Hf Hk. pose proof (smooth_start hosts listener n st Hf) as Hsm.
  assert (Hend : smooth hosts listener n m /\ k + mesh_cost hosts n m <= mesh_cost hosts n (mesh_start n st)).
  { revert Hsm. induction Hk as [m0|k m1 m2 m3 Hs _ IH]; intros Hsm; [done|].
    destruct (mesh_step_smooth hosts listener n m1 m2 Hh Hc Hsm Hs) as [Hsm2 Hlt].
    destruct (IH Hsm2) as [Hsm3 Hle]. split; [done|lia]. }
  destruct Hend as [Hend Hle]. split; [done|]. intros Hstuck r R HR.
  pose proof (stuck_ready hosts listener n m Hc Hend Hstuck r R HR) as Hpc. split; [done|].
  intros p P HP Hlt. destruct (mi_pair _ _ _ (sm_inv _ _ _ _ Hend) r p R P HR HP Hlt) as [H1 _].
  destruct (mi_rank _ _ _ (sm_inv _ _ _ _ Hend) r R HR) as (_ & Hfill & _). rewrite Hpc in Hfill.
  destruct (Hfill p) as [c Hc']; [|lia|exists c; split; [done|by apply H1]].
  rewrite <- (mesh_len _ _ m (sm_inv _ _ _ _ Hend)). by eapply lookup_lt_Some.
Qed.

(** ** Witnesses: two ranks on one link *)

#[local] Existing Instance alist_store.
#[local] Existing Instance alist_store_laws.
#[local] Existing Instance merge_sort_std.

(** Executing a schedule: the threads that move, in order. *)
Inductive thread := Main (r : nat) | Acceptor (q : nat).

Definition thread_step {S} `{!Store S} (hosts : nat -> host) (listener : str -> Z -> option nat) (n : nat)
    (t : thread) (m : mesh (S := S)) : option mesh :=
  match t with Main r => mesh_main_step hosts listener n r m | Acceptor q => accept_step q m end.

Fixpoint mesh_exec {S} `{!Store S} (hosts : nat -> host) (listener : str -> Z -> option nat) (n : nat)
    (ts : list thread) (m : mesh (S := S)) : option mesh :=
  match ts with
  | [] => Some m
  | t :: ts => m' ← thread_step hosts listener n t m; mesh_exec hosts listener n ts m'
  end.

Lemma mesh_exec_nsteps {S} `{!Store S} hosts listener n ts (m m' : mesh (S := S)) :
  mesh_exec hosts listener n ts m = Some m' -> nsteps (mesh_step hosts listener n) (length ts) m m'.
Proof.
  revert m. induction ts as [|t ts IH]; intros m; simpl; [intros [= ->]; constructor|].
  destruct (thread_step _ _ _ t m) as [m1|] eqn:E; [|done]. simpl. intros Hx. econstructor; [|by apply IH].
  destruct t; [by eapply ms_main|by eapply ms_accept].
Qed.

Definition demo_host (r : nat) : host :=
  mkHost (mkListen true true true (Some (100 + r)))
    (Some [mkIf true true true (Some (lit "127.0.0.1")); mkIf true true false (Some (lit "10.0.0." ++ to_string r))]) [].

Definition demo_listener (ip : str) (port : Z) : option nat :=
  if bool_decide (ip = lit "10.0.0.0" /\ port = 100%Z) then Some 0
  else if bool_decide (ip = lit "10.0.0.1" /\ port = 101%Z) then Some 1 else None.

Definition demo_threads : list thread :=
  [Main 0; Main 1; Main 0; Main 0; Main 0; Main 0; Main 0; Main 0; Main 1; Main 1; Main 1; Main 1; Main 1;
   Acceptor 1; Main 1; Main 0; Main 0; Main 0].

Definition demo_mesh : mesh (S := alist) :=
  default (mesh_start 2 []) (mesh_exec demo_host demo_listener 2 demo_threads (mesh_start 2 [])).

Lemma demo_mesh_run : nsteps (mesh_step demo_host demo_listener 2) 18 (mesh_start 2 ([] : alist)) demo_mesh.
Proof. apply (mesh_exec_nsteps demo_host demo_listener 2 demo_threads). vm_compute. reflexivity. Qed.

Lemma demo_route : route (demo_host 0) (own_ep demo_host 1) = Ok ([lit "10.0.0.1"], 101%Z).
Proof. vm_compute. reflexivity. Qed.

Lemma demo_honest : honest demo_host demo_listener 2.
Proof.
  intros r p ips port ip [Hr Hp] Hroute Hip. assert (r = 0 /\ p = 1) as [-> ->] by lia.
  rewrite demo_route in Hroute. injection Hroute as <- <-. apply list_elem_of_singleton in Hip as ->.
  right. vm_compute. reflexivity.
Qed.

Lemma demo_connected : connected demo_host demo_listener 2.
Proof.
  split.
  - intros r Hr. destruct r as [|[|r]]; [vm_compute; reflexivity..|lia].
  - intros r p [Hr Hp]. assert (r = 0 /\ p = 1) as [-> ->] by lia.
    exists [lit "10.0.0.1"], 101%Z, (lit "10.0.0.1"). split; [exact demo_route|]. split; [left|vm_compute; reflexivity].
Qed.


Lemma mesh_forms_witness :
  18 <= mesh_cost demo_host 2 (mesh_start 2 ([] : alist)) /\
  forall r R, me_ranks demo_mesh !! r = Some R -> mr_pc R = M_ready.
Proof.
  destruct (mesh_forms demo_host demo_listener 2 ([] : alist) 18 demo_mesh) as [H1 H2];
    [exact demo_honest|exact demo_connected|intros r _; reflexivity|exact demo_mesh_run|].
  split; [lia|]. intros r R HR. refine (proj1 (H2 _ r R HR)).
  intros m' [t ? Hs|t ? Hs].
  - destruct t as [|[|t]]; vm_compute in Hs; discriminate.
  - destruct t as [|[|t]]; vm_compute in Hs; discriminate.
Defined.
