(* ===== verification/Scheduler.v ===== *)
(** * The job scheduler ([csrc/runtime/Scheduler.cpp])

    Queue, active list and history of jobs, the operations under the mutex
    ([submit], [cancel], [complete], [evict_node]) and the scheduling tick with
    its four phases: sort, fair-share boost, placement, preemption.  Each call
    of the clock is an argument; [std::sort] is a parameter; the fair-share
    comparison is the IEEE double arithmetic of the code, executed with the
    Standard Library's specification floats.  The fields that no code reads
    (the estimated duration, the compute utilisation) are left out. *)
From Stdlib Require Import SpecFloat.
From S2P Require Import Prelude.

(** ** Data *)

Inductive JobPriority := LOW | NORMAL | HIGH | CRITICAL.
Definition prio_int (p : JobPriority) : nat :=
  match p with LOW => 0 | NORMAL => 1 | HIGH => 2 | CRITICAL => 3 end.

Inductive JobStatus := PENDING | RUNNING | COMPLETED | FAILED | RESCHEDULING.
#[export] Instance status_eq_dec : EqDecision JobStatus.
Proof. solve_decision. Defined.

Record JobDescriptor := mkJob {
  job_id : Z;
  job_name : string;
  owner : string;
  requested_nodes : nat;
  memory_per_node : Z;
  priority : JobPriority;
  status : JobStatus;
  assigned_nodes : list nat;
  submitted_at_us : Z;
  started_at_us : Z;
  completed_at_us : Z;
}.

(** [JobDescriptor{}] *)
Definition empty_job : JobDescriptor := mkJob 0 "" "" 0 0 NORMAL PENDING [] 0 0 0.

Definition with_status (st : JobStatus) (j : JobDescriptor) : JobDescriptor :=
  mkJob (job_id j) (job_name j) (owner j) (requested_nodes j) (memory_per_node j) (priority j)
    st (assigned_nodes j) (submitted_at_us j) (started_at_us j) (completed_at_us j).
Definition with_priority (p : JobPriority) (j : JobDescriptor) : JobDescriptor :=
  mkJob (job_id j) (job_name j) (owner j) (requested_nodes j) (memory_per_node j) p
    (status j) (assigned_nodes j) (submitted_at_us j) (started_at_us j) (completed_at_us j).
Definition with_nodes (ns : list nat) (j : JobDescriptor) : JobDescriptor :=
  mkJob (job_id j) (job_name j) (owner j) (requested_nodes j) (memory_per_node j) (priority j)
    (status j) ns (submitted_at_us j) (started_at_us j) (completed_at_us j).
Definition with_started (t : Z) (j : JobDescriptor) : JobDescriptor :=
  mkJob (job_id j) (job_name j) (owner j) (requested_nodes j) (memory_per_node j) (priority j)
    (status j) (assigned_nodes j) (submitted_at_us j) t (completed_at_us j).
Definition with_completed (t : Z) (j : JobDescriptor) : JobDescriptor :=
  mkJob (job_id j) (job_name j) (owner j) (requested_nodes j) (memory_per_node j) (priority j)
    (status j) (assigned_nodes j) (submitted_at_us j) (started_at_us j) t.

Record NodeLoad := mkLoad { memory_used : Z; load_jobs : Z }.

Record Scheduler := mkSched {
  cap : Z;                            (* config_.memory_per_node *)
  preemption_enabled : bool;
  next_job_id : Z;
  queue : list JobDescriptor;
  active : list JobDescriptor;
  history : list JobDescriptor;
  tenant_stats : gmap string Z;       (* total_node_seconds *)
}.

Definition set_lists (q a h : list JobDescriptor) (s : Scheduler) : Scheduler :=
  mkSched (cap s) (preemption_enabled s) (next_job_id s) q a h (tenant_stats s).

Definition sched_new (cap : Z) (preemption : bool) : Scheduler :=
  mkSched cap preemption 1 [] [] [] ∅.

(** ** Job management *)

Definition submit (now : Z) (job : JobDescriptor) (s : Scheduler) : Z * Scheduler :=
  let id := next_job_id s in
  let job := mkJob id (job_name job) (owner job) (requested_nodes job) (memory_per_node job)
               (priority job) PENDING (assigned_nodes job) now (started_at_us job) (completed_at_us job) in
  (id, mkSched (cap s) (preemption_enabled s) (u64 (id + 1)) (queue s ++ [job]) (active s) (history s)
         (tenant_stats s)).

(** [find_if] by id, and the list without the element found. *)
Fixpoint take_job (id : Z) (l : list JobDescriptor) : option (JobDescriptor * list JobDescriptor) :=
  match l with
  | [] => None
  | j :: l => if (job_id j =? id)%Z then Some (j, l)
              else x ← take_job id l; Some (x.1, j :: x.2)
  end.

Definition cancel (now id : Z) (s : Scheduler) : bool * Scheduler :=
  match take_job id (queue s) with
  | Some (_, q) => (true, set_lists q (active s) (history s) s)
  | None =>
    match take_job id (active s) with
    | Some (j, a) => (true, set_lists (queue s) a (history s ++ [with_completed now (with_status FAILED j)]) s)
    | None => (false, s)
    end
  end.

Definition complete (now id : Z) (success : bool) (s : Scheduler) : bool * Scheduler :=
  match take_job id (active s) with
  | None => (false, s)
  | Some (j, a) =>
    let j := with_completed now (with_status (if success then COMPLETED else FAILED) j) in
    let stats :=
      if (0 <? started_at_us j)%Z then
        let elapsed_s := (u64 (completed_at_us j - started_at_us j) / 1000000)%Z in
        let old := default 0%Z (tenant_stats s !! owner j) in
        <[owner j := u64 (old + u64 (elapsed_s * Z.of_nat (length (assigned_nodes j))))]> (tenant_stats s)
      else tenant_stats s in
    (true, mkSched (cap s) (preemption_enabled s) (next_job_id s) (queue s) a (history s ++ [j]) stats)
  end.

(** ** Allocation *)

(** [load.memory_used + job.memory_per_node <= config_.memory_per_node], in
    64 bits, for a node of the table. *)
Definition fits (cap : Z) (loads : list NodeLoad) (job : JobDescriptor) (nid : nat) : bool :=
  match loads !! nid with
  | None => false
  | Some l => (u64 (memory_used l + memory_per_node job) <=? cap)%Z
  end.

Definition can_allocate (cap : Z) (job : JobDescriptor) (online : list nat) (loads : list NodeLoad) : bool :=
  requested_nodes job <=? length (List.filter (fits cap loads job) online).

Definition take_node (job : JobDescriptor) (l : NodeLoad) : NodeLoad :=
  mkLoad (u64 (memory_used l + memory_per_node job)) (load_jobs l + 1).

Fixpoint allocate_loop (cap : Z) (job : JobDescriptor) (online : list nat) (assigned : list nat)
    (loads : list NodeLoad) : list nat * list NodeLoad :=
  match online with
  | [] => (assigned, loads)
  | nid :: online =>
    if requested_nodes job <=? length assigned then (assigned, loads)
    else if fits cap loads job nid
    then allocate_loop cap job online (assigned ++ [nid]) (alter (take_node job) nid loads)
    else allocate_loop cap job online assigned loads
  end.

Definition allocate (cap : Z) (job : JobDescriptor) (online : list nat) (loads : list NodeLoad)
    : JobDescriptor * list NodeLoad :=
  let '(ns, loads') := allocate_loop cap job online [] loads in (with_nodes ns job, loads').

(** ** The tick *)

(** The order of the queue. *)
Definition job_before (a b : JobDescriptor) : bool :=
  if prio_int (priority a) =? prio_int (priority b)
  then (submitted_at_us a <? submitted_at_us b)%Z
  else prio_int (priority b) <? prio_int (priority a).

(** A 64-bit unsigned integer as a double. *)
Definition to_double (z : Z) : spec_float := binary_normalize 53 1024 z 0 false.
Definition double_div : spec_float -> spec_float -> spec_float := SFdiv 53 1024.

Definition total_node_s (st : gmap string Z) : Z := map_fold (fun _ v acc => u64 (acc + v)) 0%Z st.

(** [share < 1.0 / tenant_stats_.size()] *)
Definition below_share (seconds total : Z) (tenants : nat) : bool :=
  SFltb (double_div (to_double seconds) (to_double (Z.max total 1)))
        (double_div (to_double 1) (to_double (Z.max (Z.of_nat tenants) 1))).

Definition boost (st : gmap string Z) (job : JobDescriptor) : JobDescriptor :=
  if (0 <? total_node_s st)%Z then
    match st !! owner job with
    | Some seconds =>
      if below_share seconds (total_node_s st) (size st)
      then match priority job with LOW => with_priority NORMAL job | _ => job end
      else job
    | None => job
    end
  else job.

(** The job becomes RUNNING; [now k] is the clock at the [k]-th start. *)
Definition start_job (now : nat -> Z) (k : nat) (job : JobDescriptor) : JobDescriptor :=
  with_started (now k) (with_status RUNNING job).

(** The pass over the queue: what stays, what starts, the loads. *)
Fixpoint place (cap : Z) (online : list nat) (now : nat -> Z) (k : nat) (q : list JobDescriptor)
    (loads : list NodeLoad) : list JobDescriptor * list JobDescriptor * list NodeLoad :=
  match q with
  | [] => ([], [], loads)
  | job :: q =>
    if can_allocate cap job online loads then
      let '(job, loads) := allocate cap job online loads in
      let '(rest, started, loads) := place cap online now (S k) q loads in
      (rest, start_job now k job :: started, loads)
    else
      let '(rest, started, loads) := place cap online now k q loads in
      (job :: rest, started, loads)
  end.

(** The first active job that may be evicted for [job], and its surroundings. *)
Fixpoint find_victim (job : JobDescriptor) (l : list JobDescriptor)
    : option (list JobDescriptor * JobDescriptor * list JobDescriptor) :=
  match l with
  | [] => None
  | a :: l =>
    if match priority a with LOW => requested_nodes job <=? length (assigned_nodes a) | _ => false end
    then Some ([], a, l)
    else x ← find_victim job l; Some (a :: x.1.1, x.1.2, x.2)
  end.

Definition drop_empty (l : list JobDescriptor) : list JobDescriptor :=
  List.filter (fun j => match assigned_nodes j with [] => false | _ => true end) l.

(** The tick either ends, or evicts a job: the [push_front] on [queue_]
    invalidates the iterator of the loop over [queue_], whose increment is then
    undefined behaviour.  The state is the one just before that increment. *)
Inductive tick_result :=
  | Finished (started : nat) (s : Scheduler) (loads : list NodeLoad)
  | Undefined (started : nat) (s : Scheduler) (loads : list NodeLoad).

(** The body of the preemption loop for the queued [job] (at position [pos])
    that evicts [victim]. *)
Definition preempt_body (online : list nat) (now : nat -> Z) (k pos : nat) (job : JobDescriptor)
    (before : list JobDescriptor) (victim : JobDescriptor) (after : list JobDescriptor)
    (s : Scheduler) (loads : list NodeLoad) : tick_result :=
  let q := with_status RESCHEDULING victim :: queue s in
  let a := before ++ empty_job :: after in
  if can_allocate (cap s) job online loads then
    let '(job, loads) := allocate (cap s) job online loads in
    let job := start_job now k job in
    Undefined (S k) (set_lists (<[S pos := job]> q) (drop_empty (a ++ [job])) (history s) s) loads
  else Undefined k (set_lists q (drop_empty a) (history s) s) loads.

Fixpoint preempt_loop (online : list nat) (now : nat -> Z) (k pos : nat) (todo : list JobDescriptor)
    (s : Scheduler) (loads : list NodeLoad) : tick_result :=
  match todo with
  | [] => Finished k s loads
  | job :: todo =>
    if prio_int (priority job) <? prio_int HIGH then preempt_loop online now k (S pos) todo s loads
    else if can_allocate (cap s) job online loads then preempt_loop online now k (S pos) todo s loads
    else
      match find_victim job (active s) with
      | Some (before, victim, after) => preempt_body online now k pos job before victim after s loads
      | None => preempt_loop online now k (S pos) todo
                  (set_lists (queue s) (drop_empty (active s)) (history s) s) loads
      end
  end.

Definition schedule_tick `{StdSort} (online : list nat) (now : nat -> Z) (loads : list NodeLoad)
    (s : Scheduler) : tick_result :=
  let q := boost (tenant_stats s) <$> std_sort job_before (queue s) in
  let '(rest, started, loads) := place (cap s) online now 0 q loads in
  let s := set_lists rest (active s ++ started) (history s) s in
  if preemption_enabled s
  then preempt_loop online now (length started) 0 rest s loads
  else Finished (length started) s loads.

(** ** Fault recovery *)

(** [nodes.erase(find(nodes, n))] *)
Fixpoint erase_node (n : nat) (l : list nat) : option (list nat) :=
  match l with
  | [] => None
  | x :: l => if x =? n then Some l else cons x <$> erase_node n l
  end.

(** One active job: the job itself, then what is put in front of the queue
    and at the end of the history. *)
Definition evict_one (now : Z) (n : nat) (job : JobDescriptor) (acc : list JobDescriptor * list JobDescriptor * list JobDescriptor)
    : list JobDescriptor * list JobDescriptor * list JobDescriptor :=
  let '(act, q, h) := acc in
  match erase_node n (assigned_nodes job) with
  | None => (act ++ [job], q, h)
  | Some [] =>
    let job := with_completed now (with_status FAILED (with_nodes [] job)) in (act ++ [job], q, h ++ [job])
  | Some ns =>
    let job := with_status RESCHEDULING (with_nodes ns job) in (act ++ [job], job :: q, h)
  end.

Definition still_active (j : JobDescriptor) : bool :=
  match status j with FAILED | RESCHEDULING => false | _ => true end.

Definition evict_node (now : Z) (n : nat) (s : Scheduler) : Scheduler :=
  let '(act, q, h) := foldl (fun acc j => evict_one now n j acc) ([], queue s, history s) (active s) in
  set_lists q (List.filter still_active act) h s.

(** ** Queries *)

Definition pending_jobs (s : Scheduler) : list JobDescriptor := queue s.
Definition active_jobs (s : Scheduler) : list JobDescriptor := active s.
Definition queue_depth (s : Scheduler) : nat := length (queue s).
Definition active_count (s : Scheduler) : nat := length (active s).

(** The last [limit] entries; for a negative limit the first iterator lies
    behind the end and the range is undefined. *)
Definition recent_history (limit : Z) (s : Scheduler) : option (list JobDescriptor) :=
  let count := Z.min limit (s32 (Z.of_nat (length (history s)))) in
  if (count <? 0)%Z then None else Some (drop (length (history s) - Z.to_nat count) (history s)).

Definition tenant_share (name : string) (s : Scheduler) : spec_float :=
  match tenant_stats s !! name with
  | None => to_double 0
  | Some seconds =>
    let total := total_node_s (tenant_stats s) in
    if (total =? 0)%Z then to_double 0 else double_div (to_double seconds) (to_double total)
  end.

(** ** Lemmas: allocation *)

(** No node is above the capacity. *)
Definition within (cap : Z) (loads : list NodeLoad) : Prop :=
  Forall (fun l => (0 <= memory_used l <= cap)%Z) loads.

(** Loads that have only grown. *)
Definition grown (l l' : list NodeLoad) : Prop := Forall2 (fun a b => (memory_used a <= memory_used b)%Z) l l'.

(** The sum of the check of [fits] does not wrap around. *)
Definition small_job (cap : Z) (j : JobDescriptor) : Prop :=
  (0 <= memory_per_node j)%Z /\ (cap + memory_per_node j < 2 ^ 64)%Z.

Lemma grown_refl l : grown l l.
Proof. unfold grown. induction l; constructor; done. Qed.

Lemma grown_trans l1 l2 l3 : grown l1 l2 -> grown l2 l3 -> grown l1 l3.
Proof.
  intros H. revert l3. induction H as [|a b l1 l2 Hab _ IH]; intros l3 H3; inversion H3; subst; constructor.
  - lia.
  - by apply IH.
Qed.

Lemma filter_ext_in {A} (f g : A -> bool) l :
  (forall x, x ∈ l -> f x = g x) -> List.filter f l = List.filter g l.
Proof.
  intros H. induction l as [|x l IH]; [done|]. simpl. rewrite (H x) by left.
  rewrite IH; [done|]. intros y Hy. apply H. by right.
Qed.

Lemma elem_of_lfilter {A} (f : A -> bool) l x : x ∈ List.filter f l <-> x ∈ l /\ f x = true.
Proof. by rewrite !list_elem_of_In, filter_In. Qed.

Lemma fits_other cap job nid n f loads :
  n <> nid -> fits cap (alter f nid loads) job n = fits cap loads job n.
Proof. intros H. unfold fits. by rewrite list_lookup_alter_ne. Qed.

(** The nodes chosen are the first that fit. *)
Lemma allocate_loop_assigned cap job online assigned loads : NoDup online ->
  (allocate_loop cap job online assigned loads).1 =
  assigned ++ take (requested_nodes job - length assigned) (List.filter (fits cap loads job) online).
Proof.
  intros Hnd. revert assigned loads. induction Hnd as [|nid online Hni Hnd IH]; intros assigned loads; simpl.
  { by rewrite take_nil, app_nil_r. }
  destruct (Nat.leb_spec (requested_nodes job) (length assigned)) as [Hle|Hlt].
  { replace (requested_nodes job - length assigned) with 0 by lia. by rewrite app_nil_r. }
  destruct (fits cap loads job nid) eqn:Hf; rewrite IH.
  - rewrite length_app, <- app_assoc. f_equal.
    replace (requested_nodes job - length assigned) with (S (requested_nodes job - (length assigned + 1))) by lia.
    simpl. f_equal. f_equal. apply filter_ext_in. intros x Hx. apply fits_other. set_solver.
  - done.
Qed.

Lemma take_node_within cap loads job nid :
  small_job cap job -> within cap loads -> fits cap loads job nid = true ->
  within cap (alter (take_node job) nid loads) /\ grown loads (alter (take_node job) nid loads).
Proof.
  intros [Hm Hw] Hin Hf. unfold fits in Hf. destruct (loads !! nid) as [l|] eqn:Hl; [|done].
  apply Z.leb_le in Hf. pose proof (Forall_lookup_1 _ _ _ _ Hin Hl) as Hb. simpl in Hb.
  assert (u64 (memory_used l + memory_per_node job) = memory_used l + memory_per_node job)%Z as Hu
    by (apply u64_small; lia).
  split.
  - apply Forall_alter; [done|]. intros x Hx _. assert (x = l) as -> by congruence.
    simpl. rewrite Hu in Hf |- *. lia.
  - apply Forall2_same_length_lookup. split; [by rewrite length_alter|]. intros i x y Hx Hy.
    destruct (decide (i = nid)) as [->|Hne].
    + rewrite list_lookup_alter_eq, Hx in Hy. assert (x = l) as -> by congruence.
      injection Hy as <-. simpl. rewrite Hu. lia.
    + rewrite list_lookup_alter_ne in Hy by done. simplify_eq. lia.
Qed.

Lemma allocate_loop_loads cap job online assigned loads :
  small_job cap job -> within cap loads ->
  within cap (allocate_loop cap job online assigned loads).2 /\
  grown loads (allocate_loop cap job online assigned loads).2.
Proof.
  intros Hj. revert assigned loads. induction online as [|nid online IH]; intros assigned loads Hin; simpl.
  { split; [done|apply grown_refl]. }
  destruct (_ <=? _); [split; [done|apply grown_refl]|].
  destruct (fits cap loads job nid) eqn:Hf; [|by apply IH].
  destruct (take_node_within cap loads job nid Hj Hin Hf) as [H1 H2].
  destruct (IH (assigned ++ [nid]) _ H1) as [H3 H4]. split; [done|]. by eapply grown_trans.
Qed.

(** A job that does not fit does not fit later in the tick. *)
Lemma fits_grown cap l l' job nid :
  small_job cap job -> within cap l' -> within cap l -> grown l l' ->
  fits cap l' job nid = true -> fits cap l job nid = true.
Proof.
  intros [Hm Hw] Hin' Hin Hg. unfold fits.
  destruct (l' !! nid) as [b|] eqn:Hb; [|done]. intros Hf%Z.leb_le.
  destruct (Forall2_lookup_r _ _ _ _ _ Hg Hb) as (a & Ha & Hab). simpl in Hab. rewrite Ha. apply Z.leb_le.
  pose proof (Forall_lookup_1 _ _ _ _ Hin' Hb) as Hb'. simpl in Hb'.
  pose proof (Forall_lookup_1 _ _ _ _ Hin Ha) as Ha'. simpl in Ha'.
  rewrite u64_small in Hf by lia. rewrite u64_small by lia. lia.
Qed.

Lemma filter_length_mono {A} (f g : A -> bool) l :
  (forall x, f x = true -> g x = true) -> length (List.filter f l) <= length (List.filter g l).
Proof.
  intros H. induction l as [|x l IH]; simpl; [done|].
  destruct (f x) eqn:E; [rewrite (H x E); simpl; lia|]. destruct (g x); simpl; lia.
Qed.

Lemma can_allocate_grown cap job online l l' :
  small_job cap job -> within cap l' -> within cap l -> grown l l' ->
  can_allocate cap job online l = false -> can_allocate cap job online l' = false.
Proof.
  intros Hj H1 H2 Hg. unfold can_allocate. rewrite !Nat.leb_gt. intros Hlt.
  eapply Nat.le_lt_trans; [|exact Hlt]. apply filter_length_mono. intros nid. by apply fits_grown.
Qed.

(** ** Lemmas: placement *)

(** What a started job looks like. *)
Definition placed (online : list nat) (j : JobDescriptor) : Prop :=
  status j = RUNNING /\ length (assigned_nodes j) = requested_nodes j /\
  NoDup (assigned_nodes j) /\ assigned_nodes j ⊆ online.

Lemma allocate_placed cap job online loads now k : NoDup online ->
  can_allocate cap job online loads = true ->
  placed online (start_job now k (allocate cap job online loads).1) /\
  job_id (start_job now k (allocate cap job online loads).1) = job_id job.
Proof.
  intros Hnd Hc%Nat.leb_le. unfold allocate.
  pose proof (allocate_loop_assigned cap job online [] loads Hnd) as Ha. rewrite Nat.sub_0_r in Ha.
  destruct (allocate_loop cap job online [] loads) as [ns l]. simpl in *. subst ns.
  split; [|done]. split_and!; simpl; [done| | |].
  - rewrite length_take. lia.
  - eapply sublist_NoDup; [|apply sublist_take]. by apply NoDup_ListNoDup, List.NoDup_filter, NoDup_ListNoDup.
  - intros x Hx. eapply elem_of_sublist in Hx; [|apply sublist_take].
    apply elem_of_lfilter in Hx. tauto.
Qed.

Definition ids (l : list JobDescriptor) : list Z := job_id <$> l.

Lemma place_spec cap online now k q loads : NoDup online ->
  Forall (small_job cap) q -> within cap loads ->
  let '(rest, started, loads') := place cap online now k q loads in
  within cap loads' /\ grown loads loads' /\
  Forall (fun j => can_allocate cap j online loads' = false) rest /\
  Forall (placed online) started /\
  rest `sublist_of` q /\ ids (rest ++ started) ≡ₚ ids q.
Proof.
  intros Hnd Hq. revert k loads. induction Hq as [|job q Hj _ IH]; intros k loads Hin; simpl.
  { split_and!; try done. apply grown_refl. }
  destruct (can_allocate cap job online loads) eqn:Hc.
  - destruct (allocate_placed cap job online loads now k Hnd Hc) as [Hp Hid].
    destruct (allocate_loop_loads cap job online [] loads Hj Hin) as [Hw Hg].
    unfold allocate in *. destruct (allocate_loop cap job online [] loads) as [ns l1]. simpl in *.
    specialize (IH (S k) l1 Hw). destruct (place cap online now (S k) q l1) as [[rest started] l2].
    destruct IH as (H1 & H2 & H3 & H4 & H5 & H6). split_and!; try done.
    + by eapply grown_trans.
    + by constructor.
    + by constructor.
    + unfold ids in *. rewrite fmap_app, fmap_cons. simpl. rewrite <- Permutation_middle.
      by rewrite <- fmap_app, H6.
  - specialize (IH k loads Hin). destruct (place cap online now k q loads) as [[rest started] l2].
    destruct IH as (H1 & H2 & H3 & H4 & H5 & H6). split_and!; try done.
    + constructor; [|done]. by eapply can_allocate_grown.
    + by constructor.
    + unfold ids in *. simpl. by rewrite H6.
Qed.

(** ** Lemmas: preemption *)

Lemma find_victim_spec job l b v a :
  find_victim job l = Some (b, v, a) ->
  l = b ++ v :: a /\ priority v = LOW /\ requested_nodes job <= length (assigned_nodes v).
Proof.
  revert b; induction l as [|x l IH]; intros b; simpl; [done|].
  destruct (match priority x with LOW => _ | _ => false end) eqn:E.
  - intros [= <- <- <-]. destruct (priority x); try done. apply Nat.leb_le in E. done.
  - destruct (find_victim job l) as [[[b' v'] a']|]; simpl; [|done]. intros [= <- <- <-].
    destruct (IH b' eq_refl) as (-> & ? & ?). done.
Qed.

Lemma drop_empty_id l : Forall (fun j => assigned_nodes j <> []) l -> drop_empty l = l.
Proof.
  induction 1 as [|j l Hj _ IH]; [done|]. unfold drop_empty in *. simpl. rewrite IH.
  by destruct (assigned_nodes j).
Qed.

Lemma drop_empty_app l k : drop_empty (l ++ k) = drop_empty l ++ drop_empty k.
Proof. apply List.filter_app. Qed.

Lemma set_lists_twice q a h q' a' h' s : set_lists q a h (set_lists q' a' h' s) = set_lists q a h s.
Proof. done. Qed.

(** The preemption pass over jobs none of which fits: it starts nothing. *)
Lemma preempt_loop_spec online now k pos todo s loads :
  Forall (fun j => can_allocate (cap s) j online loads = false) todo ->
  Forall (fun j => assigned_nodes j <> []) (active s) ->
  preempt_loop online now k pos todo s loads = Finished k s loads \/
  exists job before victim after,
    job ∈ todo /\ prio_int HIGH <= prio_int (priority job) /\
    active s = before ++ victim :: after /\ priority victim = LOW /\
    requested_nodes job <= length (assigned_nodes victim) /\
    preempt_loop online now k pos todo s loads =
      Undefined k (set_lists (with_status RESCHEDULING victim :: queue s) (before ++ after) (history s) s) loads.
Proof.
  intros Htodo Hact. revert pos. induction Htodo as [|job todo Hjob _ IH]; intros pos; [by left|].
  cbn [preempt_loop].
  assert (Hskip : forall pos', preempt_loop online now k pos' todo s loads = Finished k s loads \/
    exists j before victim after, j ∈ job :: todo /\ prio_int HIGH <= prio_int (priority j) /\
      active s = before ++ victim :: after /\ priority victim = LOW /\
      requested_nodes j <= length (assigned_nodes victim) /\
      preempt_loop online now k pos' todo s loads =
      Undefined k (set_lists (with_status RESCHEDULING victim :: queue s) (before ++ after) (history s) s) loads).
  { intros pos'. destruct (IH pos') as [?|(j & b & v & a & Hj & H)]; [by left|].
    right. exists j, b, v, a. split; [by right|done]. }
  destruct (Nat.ltb_spec (prio_int (priority job)) (prio_int HIGH)) as [|Hp]; [apply Hskip|].
  rewrite Hjob. destruct (find_victim job (active s)) as [[[b v] a]|] eqn:Hv.
  - right. destruct (find_victim_spec _ _ _ _ _ Hv) as (Heq & Hlow & Hlen).
    exists job, b, v, a. split_and!; try done; [left|]. unfold preempt_body. rewrite Hjob.
    rewrite Heq in Hact. apply Forall_app in Hact as [Hb Ha]. inversion Ha; subst.
    rewrite drop_empty_app. change (drop_empty (empty_job :: a)) with (drop_empty a).
    by rewrite !drop_empty_id.
  - rewrite drop_empty_id by done. destruct s. apply Hskip.
Qed.

Lemma boost_id st j : job_id (boost st j) = job_id j.
Proof. unfold boost. by repeat case_match. Qed.
Lemma boost_small st c j : small_job c (boost st j) <-> small_job c j.
Proof. unfold boost. by repeat case_match. Qed.
Lemma boost_requested st j : requested_nodes (boost st j) = requested_nodes j.
Proof. unfold boost. by repeat case_match. Qed.
Lemma boost_status st j : status (boost st j) = status j.
Proof. unfold boost. by repeat case_match. Qed.

(** The boost is decided by the share that [tenant_share] reports. *)
Lemma boost_follows_share s job seconds :
  tenant_stats s !! owner job = Some seconds -> (0 < total_node_s (tenant_stats s))%Z ->
  priority job = LOW ->
  priority (boost (tenant_stats s) job) =
    (if SFltb (tenant_share (owner job) s)
          (double_div (to_double 1) (to_double (Z.max (Z.of_nat (size (tenant_stats s))) 1)))
     then NORMAL else LOW).
Proof.
  intros Hs Ht Hl. unfold boost, tenant_share, below_share. rewrite Hs, Hl.
  rewrite (proj2 (Z.ltb_lt _ _) Ht), (proj2 (Z.eqb_neq _ _)), Z.max_l by lia. by case_match.
Qed.

Lemma job_before_strict_weak : strict_weak job_before.
Proof.
  unfold job_before. split.
  - intros a b. rewrite (Nat.eqb_sym (prio_int (priority b))).
    destruct (Nat.eqb_spec (prio_int (priority a)) (prio_int (priority b)));
      rewrite ?Z.ltb_lt, ?Z.ltb_ge, ?Nat.ltb_lt, ?Nat.ltb_ge; lia.
  - intros a b c.
    destruct (Nat.eqb_spec (prio_int (priority b)) (prio_int (priority a))),
      (Nat.eqb_spec (prio_int (priority c)) (prio_int (priority b))),
      (Nat.eqb_spec (prio_int (priority c)) (prio_int (priority a)));
      rewrite ?Z.ltb_ge, ?Nat.ltb_ge; lia.
Qed.

(** ** Invariant *)

(** Job ids are unique over the three lists, the lists hold jobs in the states
    their names say, and an active job has a node. *)
Record sched_inv (s : Scheduler) : Prop := {
  si_ids : NoDup (ids (queue s ++ active s ++ history s));
  si_next : Forall (fun i => 0 < i < next_job_id s)%Z (ids (queue s ++ active s ++ history s));
  si_queue : Forall (fun j => status j = PENDING \/ status j = RESCHEDULING) (queue s);
  si_active : Forall (fun j => status j = RUNNING /\ assigned_nodes j <> []) (active s);
  si_history : Forall (fun j => status j = COMPLETED \/ status j = FAILED) (history s);
  si_requested : Forall (fun j => 0 < requested_nodes j) (queue s ++ active s);
}.

(** The invariant follows for lists with the same ids in the right states. *)
Lemma sched_inv_lists q a h s :
  sched_inv s ->
  (exists lost, ids (q ++ a ++ h) ++ lost ≡ₚ ids (queue s ++ active s ++ history s)) ->
  Forall (fun j => status j = PENDING \/ status j = RESCHEDULING) q ->
  Forall (fun j => status j = RUNNING /\ assigned_nodes j <> []) a ->
  Forall (fun j => status j = COMPLETED \/ status j = FAILED) h ->
  Forall (fun j => 0 < requested_nodes j) (q ++ a) ->
  sched_inv (set_lists q a h s).
Proof.
  intros HI (lost & Hp) Hq Ha Hh Hr. split; simpl; try done.
  - pose proof (si_ids s HI) as H. rewrite <- Hp in H. by apply NoDup_app in H as [H _].
  - pose proof (si_next s HI) as H. rewrite <- Hp in H. by apply Forall_app in H as [H _].
Qed.

Lemma take_job_spec id l j l' :
  take_job id l = Some (j, l') -> job_id j = id /\ l ≡ₚ j :: l'.
Proof.
  revert l'; induction l as [|x l IH]; intros l'; simpl; [done|].
  destruct (Z.eqb_spec (job_id x) id) as [<-|_]; [by intros [= <- <-]|].
  destruct (take_job id l) as [[y k]|]; simpl; [|done]. intros [= <- <-].
  destruct (IH k eq_refl) as [? ->]. split; [done|]. apply Permutation_swap.
Qed.

Lemma take_job_none id l : take_job id l = None <-> id ∉ ids l.
Proof.
  unfold ids. induction l as [|x l IH]; simpl; [split; [intros _; apply not_elem_of_nil|done]|].
  rewrite not_elem_of_cons, <- IH. destruct (Z.eqb_spec (job_id x) id) as [<-|Hne]; [naive_solver|].
  destruct (take_job id l); naive_solver.
Qed.

(** A property of jobs that placement does not touch. *)
Lemma place_forall (P : JobDescriptor -> Prop) cap online now k q loads :
  (forall ns now k j, P j -> P (start_job now k (with_nodes ns j))) -> Forall P q ->
  let '(rest, started, _) := place cap online now k q loads in Forall P (rest ++ started).
Proof.
  intros HP Hq. revert k loads. induction Hq as [|job q Hj _ IH]; intros k loads; simpl; [done|].
  destruct (can_allocate cap job online loads).
  - unfold allocate. destruct (allocate_loop cap job online [] loads) as [ns l].
    specialize (IH (S k) l). destruct (place cap online now (S k) q l) as [[rest started] l'].
    rewrite Forall_app in *. destruct IH. split; [done|]. constructor; auto.
  - specialize (IH k loads). destruct (place cap online now k q loads) as [[rest started] l'].
    by constructor.
Qed.

Lemma sublist_Forall {A} (P : A -> Prop) l k : l `sublist_of` k -> Forall P k -> Forall P l.
Proof. intros Hs. rewrite !Forall_forall. intros H x Hx. by eapply H, elem_of_sublist. Qed.

(** The outcome of a tick: the placement, then possibly one eviction. *)
Lemma tick_outcome `{StdSortLaws} online now loads s :
  NoDup online -> within (cap s) loads -> Forall (small_job (cap s)) (queue s) ->
  Forall (fun j => 0 < requested_nodes j) (queue s) ->
  Forall (fun j => assigned_nodes j <> []) (active s) ->
  exists rest started loads',
    within (cap s) loads' /\ grown loads loads' /\
    Forall (fun j => can_allocate (cap s) j online loads' = false) rest /\
    Forall (placed online) started /\
    rest `sublist_of` (boost (tenant_stats s) <$> std_sort job_before (queue s)) /\
    ids (rest ++ started) ≡ₚ ids (queue s) /\
    Forall (fun j => 0 < requested_nodes j) (rest ++ started) /\
    (schedule_tick online now loads s =
       Finished (length started) (set_lists rest (active s ++ started) (history s) s) loads' \/
     exists job before victim after,
       job ∈ rest /\ prio_int HIGH <= prio_int (priority job) /\
       active s ++ started = before ++ victim :: after /\ priority victim = LOW /\
       requested_nodes job <= length (assigned_nodes victim) /\
       schedule_tick online now loads s =
       Undefined (length started)
         (set_lists (with_status RESCHEDULING victim :: rest) (before ++ after) (history s) s) loads').
Proof.
  intros Hnd Hw Hsm Hreq Hact. unfold schedule_tick.
  set (q := boost (tenant_stats s) <$> std_sort job_before (queue s)).
  assert (Hall : forall P, (forall j, P (boost (tenant_stats s) j) <-> P j) ->
    Forall P (queue s) -> Forall P q).
  { intros P HP HF. unfold q. apply Forall_fmap. rewrite <- (std_sort_perm job_before (queue s)) in HF.
    eapply Forall_impl; [exact HF|]. intros j ?. by apply HP. }
  assert (Hids : ids q ≡ₚ ids (queue s)).
  { unfold ids, q. rewrite <- list_fmap_compose, (std_sort_perm job_before (queue s)).
    erewrite list_fmap_ext; [reflexivity|]. intros i j _. apply boost_id. }
  pose proof (place_spec (cap s) online now 0 q loads Hnd
    (Hall _ (boost_small _ _) Hsm) Hw) as Hps.
  pose proof (place_forall (fun j => 0 < requested_nodes j) (cap s) online now 0 q loads
    (fun _ _ _ _ H => H)) as Hpf.
  destruct (place (cap s) online now 0 q loads) as [[rest started] loads'].
  destruct Hps as (H1 & H2 & H3 & H4 & H5 & H6).
  assert (Hpos : Forall (fun j => 0 < requested_nodes j) (rest ++ started)).
  { apply Hpf, Hall; [|done]. intros j. by rewrite boost_requested. }
  exists rest, started, loads'. split_and!; try done; [by rewrite H6|].
  cbn [preemption_enabled set_lists]. destruct (preemption_enabled s); [|by left].
  destruct (preempt_loop_spec online now (length started) 0 rest
    (set_lists rest (active s ++ started) (history s) s) loads' H3) as [->|HU]; [|by left|by right].
  cbn [active set_lists]. apply Forall_app. split; [done|].
  apply Forall_app in Hpos as [_ Hpos]. rewrite !Forall_forall in *. intros j Hj Hnil.
  destruct (H4 j Hj) as (_ & Hlen & _). specialize (Hpos j Hj). rewrite Hnil in Hlen. simpl in Hlen. lia.
Qed.

(** ** Lemmas: eviction *)

Lemma erase_node_none n l : erase_node n l = None <-> n ∉ l.
Proof.
  induction l as [|x l IH]; simpl; [split; [intros _; apply not_elem_of_nil|done]|].
  rewrite not_elem_of_cons, <- IH. destruct (Nat.eqb_spec x n) as [<-|Hne]; [naive_solver|].
  destruct (erase_node n l); naive_solver.
Qed.

Lemma evict_fold now n l act q h :
  Forall (fun j => status j = RUNNING /\ assigned_nodes j <> []) l ->
  exists act' kept qs hs,
    foldl (fun acc j => evict_one now n j acc) (act, q, h) l = (act', qs ++ q, h ++ hs) /\
    List.filter still_active act' = List.filter still_active act ++ kept /\
    Forall (fun j => status j = RUNNING /\ assigned_nodes j <> []) kept /\
    Forall (fun j => n ∉ assigned_nodes j) kept /\
    Forall (fun j => status j = RESCHEDULING) qs /\
    Forall (fun j => status j = FAILED) hs /\
    ids (qs ++ kept ++ hs) ≡ₚ ids l /\
    (Forall (fun j => 0 < requested_nodes j) l -> Forall (fun j => 0 < requested_nodes j) (qs ++ kept)).
Proof.
  intros Hl. revert act q h. induction Hl as [|j l [Hst Hne] _ IH]; intros act q h.
  { exists act, [], [], []. simpl. rewrite !app_nil_r. split_and!; done. }
  cbn [foldl]. unfold evict_one at 2. destruct (erase_node n (assigned_nodes j)) as [[|x ns]|] eqn:He.
  - set (j' := with_completed now (with_status FAILED (with_nodes [] j))).
    destruct (IH (act ++ [j']) q (h ++ [j'])) as (act' & kept & qs & hs & -> & H1 & H2 & H3 & H4 & H5 & H6 & H7).
    exists act', kept, qs, (j' :: hs). split_and!; try done.
    + by rewrite <- app_assoc.
    + rewrite H1, List.filter_app. simpl. by rewrite app_nil_r.
    + by constructor.
    + unfold ids in *. rewrite (fmap_cons job_id j l), <- H6, !fmap_app, fmap_cons.
      rewrite (app_assoc (job_id <$> qs)), <- Permutation_middle, <- app_assoc. done.
    + intros Hr. inversion Hr. auto.
  - set (j' := with_status RESCHEDULING (with_nodes (x :: ns) j)).
    destruct (IH (act ++ [j']) (j' :: q) h) as (act' & kept & qs & hs & -> & H1 & H2 & H3 & H4 & H5 & H6 & H7).
    exists act', kept, (qs ++ [j']), hs. split_and!; try done.
    + by rewrite <- app_assoc.
    + rewrite H1, List.filter_app. simpl. by rewrite app_nil_r.
    + apply Forall_app. split; [done|]. by repeat constructor.
    + unfold ids in *. rewrite (fmap_cons job_id j l), <- H6, !fmap_app, fmap_cons. simpl.
      rewrite <- app_assoc. simpl. by rewrite <- Permutation_middle.
    + intros Hr. inversion Hr as [|? ? Hj Hr']; subst. specialize (H7 Hr').
      rewrite !Forall_app in *. destruct H7. split_and!; try done. by repeat constructor.
  - destruct (IH (act ++ [j]) q h) as (act' & kept & qs & hs & -> & H1 & H2 & H3 & H4 & H5 & H6 & H7).
    exists act', (j :: kept), qs, hs. split_and!; try done.
    + rewrite H1, List.filter_app, <- app_assoc. simpl. unfold still_active at 2. by rewrite Hst.
    + by constructor.
    + constructor; [|done]. by apply erase_node_none.
    + unfold ids in *. rewrite (fmap_cons job_id j l), <- H6, !fmap_app, fmap_cons. cbn [app].
      by rewrite <- Permutation_middle.
    + intros Hr. inversion Hr as [|? ? Hj Hr']; subst. specialize (H7 Hr').
      rewrite !Forall_app in *. destruct H7. split; [done|]. by constructor.
Qed.

(** An eviction starts nothing. *)
Lemma evict_kept now n l act q h j :
  j ∈ (foldl (fun acc j => evict_one now n j acc) (act, q, h) l).1.1 -> still_active j = true ->
  j ∈ act \/ j ∈ l.
Proof.
  revert act q h. induction l as [|x l IH]; intros act q h; simpl; [by left|]. intros Hj Ha.
  destruct (erase_node n (assigned_nodes x)) as [[|y ns]|];
    destruct (IH _ _ _ Hj Ha) as [[H| ->%list_elem_of_singleton]%elem_of_app|H]; try done; set_solver.
Qed.

Lemma evict_active_subset now n s j : j ∈ active (evict_node now n s) -> j ∈ active s.
Proof.
  unfold evict_node. destruct (foldl _ _ _) as [[act q] h] eqn:E. simpl. rewrite elem_of_lfilter. intros [Hj Ha].
  pose proof (evict_kept now n (active s) [] (queue s) (history s) j) as H. rewrite E in H. set_solver.
Qed.

(** ** Operations as one type *)

Inductive sched_op :=
  | OSubmit (now : Z) (job : JobDescriptor)
  | OCancel (now id : Z)
  | OComplete (now id : Z) (success : bool)
  | OTick (online : list nat) (now : nat -> Z) (loads : list NodeLoad)
  | OEvict (now : Z) (n : nat).

(** [None]: undefined behaviour. *)
Definition sched_run `{StdSort} (op : sched_op) (s : Scheduler) : option Scheduler :=
  match op with
  | OSubmit now job => Some (submit now job s).2
  | OCancel now id => Some (cancel now id s).2
  | OComplete now id ok => Some (complete now id ok s).2
  | OTick online now loads =>
    match schedule_tick online now loads s with Finished _ s' _ => Some s' | Undefined _ _ _ => None end
  | OEvict now n => Some (evict_node now n s)
  end.

(** What the callers guarantee. *)
Definition op_ok (op : sched_op) (s : Scheduler) : Prop :=
  match op with
  | OSubmit _ job => 0 < requested_nodes job /\ (next_job_id s + 1 < 2 ^ 64)%Z
  | OTick online _ loads =>
    NoDup online /\ within (cap s) loads /\ Forall (small_job (cap s)) (queue s)
  | _ => True
  end.

Definition all_ids (s : Scheduler) : list Z := ids (queue s ++ active s ++ history s).

(** What an operation does to the jobs the scheduler knows. *)
Definition id_effect (op : sched_op) (s s' : Scheduler) : Prop :=
  match op with
  | OSubmit _ _ => all_ids s' ≡ₚ next_job_id s :: all_ids s
  | OCancel _ id => all_ids s ≡ₚ (if decide (id ∈ ids (queue s)) then [id] else []) ++ all_ids s'
  | _ => all_ids s' ≡ₚ all_ids s
  end.

Lemma submit_inv now job s :
  sched_inv s -> 0 < requested_nodes job -> (next_job_id s + 1 < 2 ^ 64)%Z -> (0 < next_job_id s)%Z ->
  sched_inv (submit now job s).2 /\ all_ids (submit now job s).2 ≡ₚ next_job_id s :: all_ids s.
Proof.
  intros HI Hr Hn Hpos.
  assert (Hp : all_ids (submit now job s).2 ≡ₚ next_job_id s :: all_ids s).
  { unfold all_ids, ids. simpl. rewrite !fmap_app. simpl. rewrite <- app_assoc. simpl.
    by rewrite <- Permutation_middle. }
  split; [|done]. destruct HI as [H1 H2 H3 H4 H5 H6]. split; try done.
  - fold (all_ids (submit now job s).2). rewrite Hp. constructor; [|done]. intros Hin.
    rewrite Forall_forall in H2. specialize (H2 _ Hin). lia.
  - fold (all_ids (submit now job s).2). rewrite Hp. simpl. rewrite u64_small by lia.
    constructor; [lia|]. eapply Forall_impl; [exact H2|]. intros i ?. simpl in *. lia.
  - simpl. apply Forall_app. split; [done|]. repeat constructor.
  - simpl. apply Forall_app in H6 as [? ?]. rewrite !Forall_app. split_and!; try done. by constructor.
Qed.

Lemma cancel_inv now id s :
  sched_inv s -> sched_inv (cancel now id s).2 /\ id_effect (OCancel now id) s (cancel now id s).2.
Proof.
  intros HI. unfold cancel, id_effect. destruct (take_job id (queue s)) as [[j q]|] eqn:Hq.
  - destruct (take_job_spec _ _ _ _ Hq) as [Hid Hp]. simpl.
    assert (Hin : id ∈ ids (queue s)).
    { destruct (decide (id ∈ ids (queue s))) as [|Hn]; [done|]. apply take_job_none in Hn. congruence. }
    rewrite decide_True by done.
    assert (Hall : all_ids s ≡ₚ id :: ids (q ++ active s ++ history s)).
    { unfold all_ids, ids. rewrite !fmap_app, Hp. simpl. by rewrite Hid. }
    split; [|exact Hall].
    pose proof HI as [H1 H2 H3 H4 H5 H6]. apply sched_inv_lists; try done.
    + exists [id]. fold (all_ids s). rewrite Hall. symmetry. apply Permutation_cons_append.
    + rewrite Hp in H3. by inversion H3.
    + rewrite Forall_app in *. destruct H6 as [H6 H7]. split; [|done]. rewrite Hp in H6. by inversion H6.
  - apply take_job_none in Hq. rewrite decide_False by done.
    destruct (take_job id (active s)) as [[j a]|] eqn:Ha; [|by split].
    destruct (take_job_spec _ _ _ _ Ha) as [Hid Hp]. simpl.
    assert (Hall : all_ids s ≡ₚ ids (queue s ++ a ++ history s ++ [with_completed now (with_status FAILED j)])).
    { unfold all_ids, ids. rewrite !fmap_app, Hp. simpl. apply Permutation_app_head.
      rewrite app_assoc. apply Permutation_cons_append. }
    split; [|exact Hall].
    pose proof HI as [H1 H2 H3 H4 H5 H6]. apply sched_inv_lists; try done.
    + exists []. rewrite app_nil_r. by rewrite <- Hall.
    + rewrite Hp in H4. by inversion H4.
    + apply Forall_app. split; [done|]. constructor; [by right|done].
    + rewrite Forall_app in *. destruct H6 as [H6 H7]. split; [done|]. rewrite Hp in H7. by inversion H7.
Qed.

Lemma complete_inv now id ok s :
  sched_inv s -> sched_inv (complete now id ok s).2 /\ all_ids (complete now id ok s).2 ≡ₚ all_ids s.
Proof.
  intros HI. unfold complete. destruct (take_job id (active s)) as [[j a]|] eqn:Ha; [|by split].
  destruct (take_job_spec _ _ _ _ Ha) as [Hid Hp]. simpl.
  set (j' := with_completed now (with_status (if ok then COMPLETED else FAILED) j)).
  assert (Hall : ids (queue s ++ a ++ history s ++ [j']) ≡ₚ all_ids s).
  { unfold all_ids, ids. rewrite !fmap_app, Hp. simpl. apply Permutation_app_head.
    rewrite app_assoc. symmetry. apply Permutation_cons_append. }
  split; [|exact Hall]. pose proof HI as [H1 H2 H3 H4 H5 H6].
  assert (HS : sched_inv (set_lists (queue s) a (history s ++ [j']) s)).
  { apply sched_inv_lists; try done.
    - exists []. by rewrite app_nil_r.
    - rewrite Hp in H4. by inversion H4.
    - apply Forall_app. split; [done|]. constructor; [destruct ok; auto|done].
    - rewrite Forall_app in *. destruct H6 as [H6 H7]. split; [done|]. rewrite Hp in H7. by inversion H7. }
  by destruct HS.
Qed.

Lemma evict_inv now n s :
  sched_inv s ->
  sched_inv (evict_node now n s) /\ all_ids (evict_node now n s) ≡ₚ all_ids s /\
  Forall (fun j => n ∉ assigned_nodes j) (active (evict_node now n s)).
Proof.
  intros HI. pose proof HI as [H1 H2 H3 H4 H5 H6]. unfold evict_node.
  destruct (evict_fold now n (active s) [] (queue s) (history s) H4)
    as (act & kept & qs & hs & -> & E1 & E2 & E3 & E4 & E5 & E6 & E7). rewrite E1. cbn [List.filter app].
  assert (Hall : ids ((qs ++ queue s) ++ kept ++ history s ++ hs) ≡ₚ all_ids s).
  { unfold all_ids, ids in *. rewrite !fmap_app in *. rewrite <- E6.
    rewrite (Permutation_app_comm (job_id <$> qs)), <- !app_assoc. apply Permutation_app_head.
    apply Permutation_app_head, Permutation_app_head, Permutation_app_comm. }
  rewrite Forall_app in H6. destruct H6 as [H6 H7]. specialize (E7 H7). rewrite Forall_app in E7.
  destruct E7 as [E7 E8]. split_and!; [|exact Hall|done].
  apply sched_inv_lists; try done.
  - exists []. by rewrite app_nil_r.
  - apply Forall_app. split; [|done]. eapply Forall_impl; [exact E4|]. simpl. auto.
  - apply Forall_app. split; [done|]. eapply Forall_impl; [exact E5|]. simpl. auto.
  - rewrite !Forall_app. done.
Qed.

Lemma tick_inv `{StdSortLaws} online now loads s k s' loads' :
  sched_inv s -> op_ok (OTick online now loads) s ->
  schedule_tick online now loads s = Finished k s' loads' ->
  sched_inv s' /\ all_ids s' ≡ₚ all_ids s.
Proof.
  intros HI (Hnd & Hw & Hsm) Ht. pose proof HI as [H1 H2 H3 H4 H5 H6].
  apply Forall_app in H6 as [H6 H7].
  assert (Hne : Forall (fun j => assigned_nodes j <> []) (active s))
    by (eapply Forall_impl; [exact H4|]; simpl; tauto).
  destruct (tick_outcome online now loads s Hnd Hw Hsm H6 Hne)
    as (rest & started & l' & T1 & T2 & T3 & T4 & T5 & T6 & T7 & [T|(j & b & v & a & T)]);
    [|destruct T as (_ & _ & _ & _ & _ & T); congruence].
  rewrite T in Ht. injection Ht as <- <- <-.
  assert (Hall : ids (rest ++ (active s ++ started) ++ history s) ≡ₚ all_ids s).
  { unfold all_ids, ids in *. rewrite !fmap_app in *. rewrite <- T6, <- !app_assoc.
    apply Permutation_app_head. rewrite !app_assoc. apply Permutation_app_tail, Permutation_app_comm. }
  split; [|exact Hall]. apply sched_inv_lists; try done.
  - exists []. by rewrite app_nil_r.
  - eapply sublist_Forall; [exact T5|]. apply Forall_fmap.
    rewrite (std_sort_perm job_before (queue s)). eapply Forall_impl; [exact H3|].
    intros x Hx. simpl. by rewrite boost_status.
  - apply Forall_app. split; [done|]. rewrite Forall_forall in *. intros x Hx.
    destruct (T4 x Hx) as (Hs & Hlen & _). split; [done|]. intros Hnil. rewrite Hnil in Hlen.
    assert (0 < requested_nodes x) by (apply T7, elem_of_app; by right). simpl in Hlen. lia.
  - apply Forall_app in T7 as [T7 T8]. rewrite !Forall_app. done.
Qed.



(** Preemption never starts the job it evicts for.  When a queued HIGH or
    CRITICAL job finds a LOW victim, the victim is stopped and put back in the
    queue, but the loads are not reduced, so the second test fails like the
    first: the number of started jobs and the loads are those of the placement,
    the high job is still queued, and the tick goes on with an iterator that the
    [push_front] has invalidated.  A tick ends normally only if it evicts
    nothing. *)
Theorem preemption_never_starts `{StdSortLaws} online now loads s :
  NoDup online -> within (cap s) loads -> Forall (small_job (cap s)) (queue s) -> sched_inv s ->
  exists rest started loads',
    schedule_tick online now loads s =
      Finished (length started) (set_lists rest (active s ++ started) (history s) s) loads' \/
    exists job before victim after,
      schedule_tick online now loads s =
        Undefined (length started)
          (set_lists (with_status RESCHEDULING victim :: rest) (before ++ after) (history s) s) loads' /\
      job ∈ rest /\ prio_int HIGH <= prio_int (priority job) /\
      can_allocate (cap s) job online loads' = false /\
      active s ++ started = before ++ victim :: after /\ priority victim = LOW.
Proof.
  intros Hnd Hw Hsm [H1 H2 H3 H4 H5 H6]. apply Forall_app in H6 as [H6 _].
  destruct (tick_outcome online now loads s Hnd Hw Hsm H6)
    as (rest & started & l' & T1 & T2 & T3 & T4 & T5 & T6 & T7 & T).
  { eapply Forall_impl; [exact H4|]. simpl. tauto. }
  exists rest, started, l'. destruct T as [T|(j & b & v & a & Tj & Tp & Ta & Tl & _ & T)]; [by left|].
  right. exists j, b, v, a. split_and!; try done. rewrite Forall_forall in T3. by apply T3.
Qed.

(** ** Witnesses *)

#[local] Existing Instance merge_sort_std.
#[local] Existing Instance merge_sort_laws.

Definition demo_job (id : Z) (p : JobPriority) (nodes : nat) (mem : Z) (st : JobStatus) (ns : list nat) :=
  mkJob id "job" "alice" nodes mem p st ns id 0 0.

(** A LOW job runs on node 0; a HIGH job for two nodes and a small one wait. *)
Definition demo_sched : Scheduler :=
  mkSched 100 true 4
    [demo_job 2 NORMAL 1 30 PENDING []; demo_job 3 HIGH 2 60 PENDING []]
    [demo_job 1 LOW 2 50 RUNNING [0; 1]] [] ∅.

Definition demo_loads : list NodeLoad := [mkLoad 50 1; mkLoad 50 1].

Lemma demo_sched_inv : sched_inv demo_sched.
Proof.
  split; unfold all_ids, ids; simpl.
  - apply (bool_decide_unpack _). vm_compute. exact I.
  - repeat constructor.
  - repeat constructor.
  - repeat constructor; discriminate.
  - constructor.
  - repeat constructor.
Qed.

Lemma demo_tick_ok : op_ok (OTick [0; 1] (fun _ => 9%Z) demo_loads) demo_sched.
Proof.
  split_and!; [apply (bool_decide_unpack _); vm_compute; exact I| |];
    repeat constructor; unfold memory_used, memory_per_node; simpl; lia.
Qed.



Lemma preemption_never_starts_witness :
  exists k s l victim,
    schedule_tick [0; 1] (fun _ => 9%Z) demo_loads demo_sched = Undefined k s l /\ k = 1 /\
    priority victim = LOW /\ head (queue s) = Some (with_status RESCHEDULING victim).
Proof.
  destruct demo_tick_ok as (H1 & H2 & H3).
  destruct (preemption_never_starts [0; 1] (fun _ => 9%Z) demo_loads demo_sched H1 H2 H3 demo_sched_inv)
    as (rest & started & loads' & [T|(j & b & v & a & T & Tj & Tp & _ & _ & Tv)]);
    [vm_compute in T; discriminate|].
  eexists _, _, _, v. split; [exact T|]. split; [|split; [exact Tv|reflexivity]].
  vm_compute in T. injection T as E _ _ _ _. symmetry. exact E.
Defined.
