(* ===== verification/ClusterManager.v ===== *)
(** * The cluster manager ([csrc/runtime/ClusterManager.cpp])

    Membership of the head node: joins, leaves, heartbeats, the failure path,
    leader election, the replicated region catalog, and one pass of each of the
    monitor and scheduler loops.  Every operation takes [state_mu_] once; the
    mutex is not recursive, so a second lock by the same thread is a deadlock.
    An index outside of the eight node slots is undefined behaviour.  The
    heartbeat sender is socket code around [handle_heartbeat]; the clock is an
    argument. *)
From S2P Require Import Prelude Addr Catalog Scheduler.
#[local] Open Scope nat_scope.

Definition MAX_CLUSTER_NODES : nat := 8.

Inductive NodeStatus := UNKNOWN | ONLINE | DEGRADED | OFFLINE.
#[export] Instance node_status_eq_dec : EqDecision NodeStatus.
Proof. solve_decision. Defined.

Record NodeInfo := mkNode {
  node_id : nat;
  hostname : string;
  ip_address : string;
  control_port : Z;
  total_memory : Z;
  free_memory : Z;
  node_status : NodeStatus;
  last_heartbeat_us : Z;
  heartbeat_seq : Z;
}.

Definition default_node : NodeInfo := mkNode 0 "" "" 9800 0 0 UNKNOWN 0 0.

Definition set_node_status (st : NodeStatus) (n : NodeInfo) : NodeInfo :=
  mkNode (node_id n) (hostname n) (ip_address n) (control_port n) (total_memory n) (free_memory n) st
    (last_heartbeat_us n) (heartbeat_seq n).
Definition set_heartbeat (now : Z) (n : NodeInfo) : NodeInfo :=
  mkNode (node_id n) (hostname n) (ip_address n) (control_port n) (total_memory n) (free_memory n)
    (node_status n) now (heartbeat_seq n).
Definition set_report (seq free : Z) (n : NodeInfo) : NodeInfo :=
  mkNode (node_id n) (hostname n) (ip_address n) (control_port n) (total_memory n) free
    (node_status n) (last_heartbeat_us n) seq.

Record Cluster := mkCluster {
  self : nat;                 (* node_id_ *)
  total_nodes : nat;
  heartbeat_timeout_ms : Z;
  nodes : list NodeInfo;      (* state_.nodes *)
  version : Z;
  leader : nat;
  online_count : Z;
  catalog : MemoryCatalog;
  scheduler : Scheduler;
}.

Definition set_state (ns : list NodeInfo) (v : Z) (l : nat) (c : Z) (s : Cluster) : Cluster :=
  mkCluster (self s) (total_nodes s) (heartbeat_timeout_ms s) ns v l c (catalog s) (scheduler s).
Definition set_catalog (c : MemoryCatalog) (s : Cluster) : Cluster :=
  mkCluster (self s) (total_nodes s) (heartbeat_timeout_ms s) (nodes s) (version s) (leader s)
    (online_count s) c (scheduler s).
Definition set_scheduler (x : Scheduler) (s : Cluster) : Cluster :=
  mkCluster (self s) (total_nodes s) (heartbeat_timeout_ms s) (nodes s) (version s) (leader s)
    (online_count s) (catalog s) x.

(** How an operation ends. *)
Inductive outcome := Done (s : Cluster) | Deadlock (s : Cluster) | UndefinedIndex.

(** The constructor. *)
Definition cluster_new (id total : nat) (timeout cap port : Z) : outcome :=
  if MAX_CLUSTER_NODES <=? id then UndefinedIndex else
  let me := mkNode id "localhost" "" port 0 0 ONLINE 0 0 in
  Done (mkCluster id total timeout (<[id := me]> (replicate MAX_CLUSTER_NODES default_node)) 0 id 1
          (mkCatalog ∅ 0) (sched_new cap true)).

(** ** Leader election *)

Definition is_online (n : NodeInfo) : bool := bool_decide (node_status n = ONLINE).

Fixpoint first_online (i : nat) (ns : list NodeInfo) : option nat :=
  match ns with
  | [] => None
  | n :: ns => if is_online n then Some i else first_online (S i) ns
  end.

Definition elect_leader (s : Cluster) : Cluster :=
  set_state (nodes s) (version s) (default (self s) (first_online 0 (nodes s))) (online_count s) s.

Definition is_leader (s : Cluster) : bool := leader s =? self s.

Definition online_nodes (s : Cluster) : list nat :=
  List.filter (fun i => match nodes s !! i with Some n => is_online n | None => false end)
    (seq 0 MAX_CLUSTER_NODES).

(** ** Membership *)

Definition handle_join (now : Z) (info : NodeInfo) (s : Cluster) : outcome :=
  if MAX_CLUSTER_NODES <=? node_id info then UndefinedIndex else
  let entry := set_heartbeat now (set_node_status ONLINE info) in
  Done (elect_leader (set_state (<[node_id info := entry]> (nodes s)) (u64 (version s + 1)) (leader s)
                        (online_count s + 1) s)).

(** [handle_node_failure], called without the lock. *)
Definition handle_node_failure (now : Z) (failed : nat) (s : Cluster) : outcome :=
  if MAX_CLUSTER_NODES <=? failed then UndefinedIndex else
  let s := set_state (alter (set_node_status OFFLINE) failed (nodes s)) (u64 (version s + 1)) (leader s)
             (online_count s - 1) s in
  let s := set_catalog (cat_remove_node (Z.of_nat failed) (catalog s)) s in
  let s := set_scheduler (evict_node now failed (scheduler s)) s in
  Done (if is_leader s then elect_leader s else s).

(** [handle_leave] calls [handle_node_failure] with the lock held. *)
Definition handle_leave (id : nat) (s : Cluster) : outcome :=
  match nodes s !! id with
  | None => UndefinedIndex
  | Some n =>
    match node_status n with
    | OFFLINE => Done s
    | _ =>
      let s := set_state (alter (set_node_status OFFLINE) id (nodes s)) (u64 (version s + 1)) (leader s)
                 (online_count s - 1) s in
      let s := set_catalog (cat_remove_node (Z.of_nat id) (catalog s)) s in
      let s := elect_leader s in
      if id =? leader s then Deadlock s else Done s
    end
  end.

Definition handle_heartbeat (now : Z) (info : NodeInfo) (s : Cluster) : outcome :=
  match nodes s !! node_id info with
  | None => UndefinedIndex
  | Some entry =>
    let entry := match node_status entry with UNKNOWN => set_node_status ONLINE info | _ => entry end in
    let entry := set_report (heartbeat_seq info) (free_memory info) (set_heartbeat now entry) in
    if is_online entry
    then Done (set_state (<[node_id info := entry]> (nodes s)) (version s) (leader s) (online_count s) s)
    else Done (set_state (<[node_id info := set_node_status ONLINE entry]> (nodes s)) (u64 (version s + 1))
                 (leader s) (online_count s + 1) s)
  end.

(** ** Region catalog: the node argument is not used *)

Definition publish_region (id region : Z) (addr len rkey : Z) (s : Cluster) : Cluster :=
  set_catalog (cat_upsert region (mkEntry addr len rkey (Z.lor READABLE WRITABLE) 1) (catalog s)) s.
Definition unpublish_region (id region : Z) (s : Cluster) : Cluster :=
  set_catalog (cat_remove region (catalog s)) s.
Definition lookup_region (id region : Z) (s : Cluster) : option RegionDirectoryEntry :=
  cat_lookup id region (catalog s).

(** ** The monitor: one pass, with the clock read before the lock is taken *)

Definition timed_out (now : Z) (s : Cluster) (n : NodeInfo) : bool :=
  (u64 (u64 (heartbeat_timeout_ms s) * 1000) <? u64 (now - last_heartbeat_us n))%Z.

Definition watched (n : NodeInfo) : bool :=
  match node_status n with ONLINE | DEGRADED => true | _ => false end.

Fixpoint monitor_loop (now : Z) (idxs : list nat) (s : Cluster) : outcome :=
  match idxs with
  | [] => Done s
  | i :: idxs =>
    if i =? self s then monitor_loop now idxs s else
    match nodes s !! i with
    | None => UndefinedIndex
    | Some n =>
      if watched n && timed_out now s n
      then match handle_node_failure now (node_id n) s with
           | Done s => monitor_loop now idxs s
           | o => o
           end
      else monitor_loop now idxs s
    end
  end.

Definition monitor_pass (now : Z) (s : Cluster) : outcome := monitor_loop now (seq 0 (total_nodes s)) s.

(** ** The scheduler loop: one pass *)

Definition node_loads (s : Cluster) : list NodeLoad :=
  (fun n => mkLoad (if is_online n then u64 (total_memory n - free_memory n) else 0) 0) <$> nodes s.

Definition scheduler_pass `{StdSort} (now : nat -> Z) (s : Cluster) : option Cluster :=
  match schedule_tick (online_nodes s) now (node_loads s) (scheduler s) with
  | Finished _ x _ => Some (set_scheduler x s)
  | Undefined _ _ _ => None
  end.

(** ** Lemmas *)

Lemma is_online_iff n : is_online n = true <-> node_status n = ONLINE.
Proof. unfold is_online. apply bool_decide_eq_true. Qed.

Lemma first_online_spec i ns :
  match first_online i ns with
  | Some k => exists n, i <= k /\ ns !! (k - i) = Some n /\ is_online n = true /\
      forall j m, j < k - i -> ns !! j = Some m -> is_online m = false
  | None => Forall (fun n => is_online n = false) ns
  end.
Proof.
  revert i; induction ns as [|n ns IH]; intros i; simpl; [done|].
  destruct (is_online n) eqn:E.
  - exists n. rewrite Nat.sub_diag. split_and!; try done. intros j m Hj. lia.
  - specialize (IH (S i)). destruct (first_online (S i) ns) as [k|].
    + destruct IH as (m & Hk & Hm & Hon & Hlow). exists m.
      replace (k - i) with (S (k - S i)) by lia. split_and!; try done; [lia|].
      intros [|j] x Hj Hx; simpl in Hx; [congruence|]. apply (Hlow j x); [lia|done].
    + by constructor.
Qed.

(** The leader is the lowest online node, or this node when none is online. *)
Definition leader_ok (s : Cluster) : Prop :=
  (exists n, nodes s !! leader s = Some n /\ node_status n = ONLINE /\
     forall j m, j < leader s -> nodes s !! j = Some m -> node_status m <> ONLINE) \/
  (leader s = self s /\ Forall (fun n => node_status n <> ONLINE) (nodes s)).

Lemma elect_leader_ok s : leader_ok (elect_leader s).
Proof.
  unfold leader_ok, elect_leader; simpl. pose proof (first_online_spec 0 (nodes s)) as H.
  destruct (first_online 0 (nodes s)) as [k|]; simpl.
  - left. destruct H as (n & _ & Hn & Hon & Hlow). rewrite Nat.sub_0_r in *. exists n.
    split_and!; [done|by apply is_online_iff|]. intros j m Hj Hm Hst%is_online_iff.
    rewrite (Hlow j m Hj Hm) in Hst. done.
  - right. split; [done|]. eapply Forall_impl; [exact H|]. intros n Hn Hst%is_online_iff. simpl in Hn. congruence.
Qed.

(** The number of online nodes. *)
Definition count_online (ns : list NodeInfo) : Z := Z.of_nat (length (List.filter is_online ns)).

Lemma count_insert ns i n m :
  ns !! i = Some n ->
  count_online (<[i := m]> ns) =
  (count_online ns + (if is_online m then 1 else 0) - (if is_online n then 1 else 0))%Z.
Proof.
  unfold count_online. revert i; induction ns as [|x ns IH]; intros [|i]; simpl; try done.
  - intros [= ->]. destruct (is_online m), (is_online n); simpl; lia.
  - intros H. specialize (IH i H). destruct (is_online x); simpl; lia.
Qed.

Lemma node_exists s i : length (nodes s) = MAX_CLUSTER_NODES -> i < MAX_CLUSTER_NODES ->
  exists n, nodes s !! i = Some n.
Proof. intros Hl Hi. apply lookup_lt_is_Some. lia. Qed.

Lemma handle_leave_cases id n s : nodes s !! id = Some n -> node_status n <> OFFLINE ->
  exists s1, handle_leave id s = (if id =? leader s1 then Deadlock s1 else Done s1) /\
    self s1 = self s /\ nodes s1 = alter (set_node_status OFFLINE) id (nodes s) /\ leader_ok s1.
Proof.
  intros Hn Hst. unfold handle_leave. rewrite Hn.
  destruct (node_status n); try done; eexists; (split; [done|]); split_and!; try done; apply elect_leader_ok.
Qed.

(** ** Operations as one type *)

Inductive cluster_op :=
  | CJoin (now : Z) (info : NodeInfo)
  | CLeave (id : nat)
  | CHeartbeat (now : Z) (info : NodeInfo)
  | CFailure (now : Z) (id : nat).

Definition cluster_run (op : cluster_op) (s : Cluster) : outcome :=
  match op with
  | CJoin now info => handle_join now info s
  | CLeave id => handle_leave id s
  | CHeartbeat now info => handle_heartbeat now info s
  | CFailure now id => handle_node_failure now id s
  end.

Definition op_node (op : cluster_op) : nat :=
  match op with
  | CJoin _ info | CHeartbeat _ info => node_id info
  | CLeave id | CFailure _ id => id
  end.

(** By how much an operation moves the counter away from the number of online
    nodes, given the status the node had. *)
Definition drift (op : cluster_op) (st : NodeStatus) : Z :=
  match op, st with
  | CJoin _ _, ONLINE => 1
  | CLeave _, (UNKNOWN | DEGRADED) => -1
  | CHeartbeat _ _, UNKNOWN => -1
  | CFailure _ _, (UNKNOWN | DEGRADED | OFFLINE) => -1
  | _, _ => 0
  end%Z.

(** ** Properties *)

(** The counter of online nodes counts only while every node joins once
    and is never reported twice.  Each operation on a node slot changes the
    difference between [online_count] and the number of nodes that are ONLINE by
    exactly the drift of the table above: a second join of an online node adds
    one, the first heartbeat of an unknown node, a leave of a node that is not
    online and every failure of a node that is not online (such as a second
    timeout) take one away, and nothing ever corrects it. *)
Theorem online_count_drifts op s s' n :
  nodes s !! op_node op = Some n -> length (nodes s) = MAX_CLUSTER_NODES ->
  cluster_run op s = Done s' ->
  (online_count s' - count_online (nodes s') =
   online_count s - count_online (nodes s) + drift op (node_status n))%Z.
Proof.
  intros Hn Hlen. pose proof (lookup_lt_Some _ _ _ Hn) as Hlt. rewrite Hlen in Hlt.
  destruct op as [now info|id|now info|now id]; simpl in *.
  - unfold handle_join. rewrite (proj2 (Nat.leb_gt _ _)) by done. intros [= <-]. simpl.
    rewrite (count_insert _ _ _ _ Hn). unfold is_online; simpl. destruct (node_status n); simpl; lia.
  - unfold handle_leave. rewrite Hn. destruct (node_status n) eqn:Hst; [| | |by intros [= <-]; lia].
    all: destruct (_ =? _); [done|]; intros [= <-]; simpl;
      rewrite (alter_insert _ _ _ _ Hn), (count_insert _ _ _ _ Hn);
      unfold is_online; rewrite Hst; simpl; lia.
  - unfold handle_heartbeat. rewrite Hn. destruct (node_status n) eqn:Hst; unfold is_online; simpl; rewrite ?Hst; simpl;
      intros [= <-]; simpl; rewrite (count_insert _ _ _ _ Hn); unfold is_online; simpl; rewrite ?Hst; simpl; lia.
  - unfold handle_node_failure. rewrite (proj2 (Nat.leb_gt _ _)) by done. intros [= <-].
    assert (forall x : Cluster, online_count (if is_leader x then elect_leader x else x) = online_count x /\
      nodes (if is_leader x then elect_leader x else x) = nodes x) as Hx by (intros x; by destruct (is_leader x)).
    rewrite (proj1 (Hx _)), (proj2 (Hx _)). simpl.
    rewrite (alter_insert _ _ _ _ Hn), (count_insert _ _ _ _ Hn).
    unfold is_online; simpl. destruct (node_status n) eqn:Hst; simpl; lia.
Qed.

(** A join, and a leave that returns, make the lowest online node the
    leader.  A leave returns unless it is the last online node taking itself
    out: then [handle_leave] calls [handle_node_failure] with [state_mu_] held
    and the thread waits for itself forever. *)
Theorem membership_elects_lowest now info id n s :
  length (nodes s) = MAX_CLUSTER_NODES -> node_id info < MAX_CLUSTER_NODES ->
  nodes s !! id = Some n -> node_status n <> OFFLINE ->
  (exists s', handle_join now info s = Done s' /\ leader_ok s') /\
  (exists s', handle_leave id s = Done s' /\ leader_ok s' /\ leader s' <> id \/
              handle_leave id s = Deadlock s') /\
  ((exists s', handle_leave id s = Deadlock s') <->
   id = self s /\ forall j m, j <> id -> nodes s !! j = Some m -> node_status m <> ONLINE).
Proof.
  intros Hlen Hinfo Hn Hst. split.
  { unfold handle_join. rewrite (proj2 (Nat.leb_gt _ _)) by done. eexists. split; [done|]. apply elect_leader_ok. }
  destruct (handle_leave_cases id n s Hn Hst) as (s1 & Hrun & Hself & Hnodes & Hok).
  rewrite Hrun. split.
  { exists s1. destruct (Nat.eqb_spec id (leader s1)); [by right|left; by split_and!]. }
  assert (Hoff : nodes s1 !! id = Some (set_node_status OFFLINE n)).
  { rewrite Hnodes, (alter_insert _ _ _ _ Hn). apply list_lookup_insert_eq. by eapply lookup_lt_Some. }
  assert (Hoth : forall j, j <> id -> nodes s1 !! j = nodes s !! j)
    by (intros j Hj; rewrite Hnodes; by apply list_lookup_alter_ne).
  destruct (Nat.eqb_spec id (leader s1)) as [Heq|Hne]; (split; [intros (s' & Hs')|intros [Hid Hall]]).
  - destruct Hok as [(m & Hm & Hon & _)|[Hl Hnone]].
    + rewrite <- Heq, Hoff in Hm. injection Hm as <-. done.
    + split; [congruence|]. intros j m Hj Hm. rewrite <- Hoth in Hm by done.
      by apply (Forall_lookup_1 _ _ _ _ Hnone Hm).
  - by exists s1.
  - done.
  - destruct Hok as [(m & Hm & Hon & _)|[Hl _]]; [|congruence].
    rewrite Hoth in Hm by congruence. by destruct (Hall (leader s1) m).
Qed.

(** The failure of the leader does not replace it.  The failure path
    re-elects only when this node is the leader, so when another node leads and
    fails, it stays the leader, offline, until some later join or leave. *)
Theorem failed_leader_stays now n s :
  length (nodes s) = MAX_CLUSTER_NODES -> nodes s !! leader s = Some n -> leader s <> self s ->
  exists s', handle_node_failure now (leader s) s = Done s' /\ leader s' = leader s /\
    nodes s' !! leader s' = Some (set_node_status OFFLINE n).
Proof.
  intros Hlen Hn Hne. pose proof (lookup_lt_Some _ _ _ Hn) as Hlt. rewrite Hlen in Hlt.
  unfold handle_node_failure. rewrite (proj2 (Nat.leb_gt _ _)) by done.
  unfold is_leader at 1. cbn [leader self set_scheduler set_catalog set_state].
  rewrite (proj2 (Nat.eqb_neq _ _)) by done. eexists. split; [done|]. split; [done|]. simpl.
  by rewrite list_lookup_alter_eq, Hn.
Qed.

(** The monitor reads the clock before it takes the lock.  A heartbeat
    that is recorded in between is newer than the reading, the 64-bit difference
    wraps around, and the node is treated as failed in the moment it was heard;
    otherwise the test is the elapsed time against the timeout. *)
Theorem monitor_fails_fresh_node now s n :
  (0 <= now < 2 ^ 64)%Z -> (0 <= last_heartbeat_us n < 2 ^ 64)%Z ->
  (0 <= heartbeat_timeout_ms s < 2 ^ 31)%Z ->
  self s = 0 -> total_nodes s = 2 -> nodes s !! 1 = Some n -> watched n = true ->
  monitor_pass now s =
    if (last_heartbeat_us n <=? now)%Z
    then if (heartbeat_timeout_ms s * 1000 <? now - last_heartbeat_us n)%Z
         then handle_node_failure now (node_id n) s else Done s
    else if (heartbeat_timeout_ms s * 1000 <? 2 ^ 64 - (last_heartbeat_us n - now))%Z
         then handle_node_failure now (node_id n) s else Done s.
Proof.
  intros Hnow Hlast Hto Hself Htot Hn Hw. unfold monitor_pass. rewrite Htot. cbn [seq monitor_loop].
  rewrite Hself. cbn [Nat.eqb]. rewrite Hn, Hw. cbn [andb]. unfold timed_out.
  rewrite (u64_small (heartbeat_timeout_ms s)), (u64_small (_ * 1000)) by lia.
  assert (u64 (now - last_heartbeat_us n) = if (last_heartbeat_us n <=? now)%Z
    then now - last_heartbeat_us n else 2 ^ 64 - (last_heartbeat_us n - now))%Z as ->.
  { destruct (Z.leb_spec (last_heartbeat_us n) now); [apply u64_small; lia|].
    unfold u64, uwrap. symmetry. apply (Z.mod_unique_pos _ _ (-1)); lia. }
  destruct (Z.leb_spec (last_heartbeat_us n) now); case_match; try done;
    by destruct (handle_node_failure now (node_id n) s).
Qed.

(** Regions are published under node 0 whatever node they are published
    for: a region of another node is not found under that node, and it replaces
    the region of node 0 (or of any other node) with the same id. *)
Theorem published_regions_are_node_zero id region addr len rkey s :
  wf_key id region -> id <> 0%Z ->
  let s' := publish_region id region addr len rkey s in
  lookup_region id region s' = lookup_region id region s /\
  lookup_region 0 region s' = Some (mkEntry addr len rkey (Z.lor READABLE WRITABLE) 1).
Proof.
  intros Hwf Hne. unfold lookup_region, publish_region, cat_lookup. simpl. split.
  - rewrite lookup_insert_ne; [done|]. apply catalog_key_ne; [|done|by left].
    destruct Hwf as [_ ?]. split; [|done]. unfold in_width. lia.
  - apply lookup_insert_eq.
Qed.

(** ** Witnesses: a head with two agents, the head not the leader *)

Definition demo_node (i : nat) (st : NodeStatus) (hb : Z) : NodeInfo := mkNode i "mac" "10.0.0.1" 9800 64 32 st hb 0.

Definition demo_cluster : Cluster :=
  mkCluster 1 3 2000
    [demo_node 0 ONLINE 5; demo_node 1 ONLINE 5; demo_node 2 UNKNOWN 0; default_node;
     default_node; default_node; default_node; default_node]
    0 0 2 (mkCatalog ∅ 0) (sched_new 100 true).

(** Joining twice counts twice. *)
Lemma online_count_drifts_witness :
  exists s', handle_join 9 (demo_node 0 ONLINE 0) demo_cluster = Done s' /\
    (online_count s' - count_online (nodes s') = 1)%Z.
Proof.
  eexists. split; [reflexivity|].
  rewrite (online_count_drifts (CJoin 9 (demo_node 0 ONLINE 0)) demo_cluster _ (demo_node 0 ONLINE 5));
    reflexivity.
Defined.

Definition demo_alone : Cluster :=
  set_state (<[0 := demo_node 0 OFFLINE 5]> (nodes demo_cluster)) 1 1 1 demo_cluster.

Lemma membership_elects_lowest_witness : exists s', handle_leave 1 demo_alone = Deadlock s'.
Proof.
  destruct (membership_elects_lowest 9 (demo_node 2 ONLINE 0) 1 (demo_node 1 ONLINE 5) demo_alone)
    as (_ & _ & H); [reflexivity|unfold MAX_CLUSTER_NODES; simpl; lia|reflexivity|discriminate|].
  apply H. split; [reflexivity|]. intros j m Hj Hm.
  do 8 (destruct j as [|j]; [simpl in Hm; injection Hm as <-; (discriminate || lia)|]).
  discriminate.
Defined.

Lemma failed_leader_stays_witness :
  exists s', handle_node_failure 9 0 demo_cluster = Done s' /\ leader s' = 0 /\
    nodes s' !! leader s' = Some (demo_node 0 OFFLINE 5).
Proof. apply (failed_leader_stays 9 (demo_node 0 ONLINE 5) demo_cluster); [reflexivity|reflexivity|discriminate]. Defined.

Definition demo_pair : Cluster :=
  mkCluster 0 2 2000 [demo_node 0 ONLINE 0; demo_node 1 ONLINE 1000] 0 0 2 (mkCatalog ∅ 0) (sched_new 100 true).

(** The agent was heard at 1000, one microsecond after the clock was read. *)
Lemma monitor_fails_fresh_node_witness :
  monitor_pass 999 demo_pair = handle_node_failure 999 1 demo_pair.
Proof.
  rewrite (monitor_fails_fresh_node 999 demo_pair (demo_node 1 ONLINE 1000)); try reflexivity; simpl; lia.
Defined.

Lemma published_regions_are_node_zero_witness :
  lookup_region 3 7 (publish_region 3 7 4096 64 11 demo_pair) = None.
Proof.
  destruct (published_regions_are_node_zero 3 7 4096 64 11 demo_pair) as [H _];
    [split; unfold in_width; lia|lia|].
  rewrite H. reflexivity.
Defined.
