(* ===== verification/Heartbeat.v ===== *)
(** * The cluster manager's threads ([csrc/runtime/ClusterManager.cpp])

    The life cycle, the queries, the job calls that go to the scheduler, and the
    heartbeat sender, composed with the agents that answer it and with the
    monitor that judges the answers.  A pass of a loop is a function here;
    [ClusterThreads] has the same loops in steps, with what other threads do
    during a pass.  The sockets are an argument: an address and a port are
    refused, or give what arrives back for the bytes sent. *)
From S2P Require Import Prelude Addr Catalog Dmem Agent Scheduler ClusterManager.
#[local] Open Scope nat_scope.

(** ** Life cycle *)

(** [running_], whether the three loop threads are joinable, and the flag of
    the scheduler. *)
Record Life := mkLife { is_head : bool; running : bool; loops : bool; sched_running : bool }.

Definition life_new (head : bool) : Life := mkLife head false false false.

Definition start (l : Life) : Life :=
  if running l then l else mkLife (is_head l) true (is_head l || loops l) true.
Definition shutdown (l : Life) : Life :=
  if running l then mkLife (is_head l) false false false else l.

(** ** Queries *)

Definition node_info (id : nat) (s : Cluster) : option NodeInfo :=
  if id <? MAX_CLUSTER_NODES then
    n ← nodes s !! id; match node_status n with UNKNOWN => None | _ => Some n end
  else None.

Definition get_state (s : Cluster) : list NodeInfo * Z * nat * Z :=
  (nodes s, version s, leader s, online_count s).

Definition is_node_alive (id : nat) (s : Cluster) : bool :=
  if MAX_CLUSTER_NODES <=? id then false
  else match nodes s !! id with Some n => is_online n | None => false end.

Definition leader_id (s : Cluster) : nat := leader s.

(** ** Jobs *)

Definition submit_job (now : Z) (name owner : string) (count : nat) (memory : Z) (p : JobPriority)
    (s : Cluster) : Z * Cluster :=
  let '(id, x) := submit now (mkJob 0 name owner count memory p PENDING [] 0 0 0) (scheduler s) in
  (id, set_scheduler x s).
Definition cancel_job (now id : Z) (s : Cluster) : bool * Cluster :=
  let '(ok, x) := cancel now id (scheduler s) in (ok, set_scheduler x s).
Definition complete_job (now id : Z) (success : bool) (s : Cluster) : bool * Cluster :=
  let '(ok, x) := complete now id success (scheduler s) in (ok, set_scheduler x s).
Definition cluster_pending (s : Cluster) : list JobDescriptor := pending_jobs (scheduler s).
Definition cluster_active (s : Cluster) : list JobDescriptor := active_jobs (scheduler s).

(** ** The heartbeat sender *)

(** [socket] and [connect] to an address and port: refused, or a connection,
    given by the segments that arrive within the timeout for the bytes sent. *)
Abbreviation sockets := (string -> Z -> option (list Z -> list (list Z))).

Definition ping_header : list Z := header_bytes (cmd_code PING) (status_code OK) 0.

(** One [recv] of a header: what has arrived must be at least a header long.
    What it says is not looked at. *)
Definition pong (reply : list (list Z)) : bool :=
  match reply with [] => false | seg :: _ => HDR_WIRE <=? length (take HDR_WIRE seg) end.

Definition ping (dial : sockets) (info : NodeInfo) : bool :=
  match dial (ip_address info) (control_port info) with
  | None => false
  | Some conn => pong (conn ping_header)
  end.

(** The copy that is reported: [now] is the sender's own reading of the clock,
    [handle_heartbeat] reads it again. *)
Definition updated (now : Z) (info : NodeInfo) : NodeInfo :=
  set_report (u64 (heartbeat_seq info + 1)) (free_memory info) (set_heartbeat now info).

Fixpoint sender_loop (dial : sockets) (now : nat -> Z * Z) (idxs : list nat) (s : Cluster) : outcome :=
  match idxs with
  | [] => Done s
  | nid :: idxs =>
    if nid =? self s then sender_loop dial now idxs s else
    match node_info nid s with
    | None => sender_loop dial now idxs s
    | Some info =>
      if ping dial info then
        match handle_heartbeat (now nid).2 (updated (now nid).1 info) s with
        | Done s => sender_loop dial now idxs s
        | o => o
        end
      else sender_loop dial now idxs s
    end
  end.

Definition sender_pass (dial : sockets) (now : nat -> Z * Z) (s : Cluster) : outcome :=
  sender_loop dial now (online_nodes s) s.

(** ** Lemmas *)

(** An entry that the monitor watches carries the number of its slot. *)
Definition slots_ok (ns : list NodeInfo) : Prop :=
  forall i n, ns !! i = Some n -> watched n = true -> node_id n = i.

Lemma online_watched n : is_online n = true -> watched n = true.
Proof. rewrite is_online_iff. unfold watched. by intros ->. Qed.

(** Apply [f] to the entries of the slots in [idxs]. *)
Definition touch (f : nat -> NodeInfo -> NodeInfo) (idxs : list nat) (ns : list NodeInfo) : list NodeInfo :=
  imap (fun i n => if bool_decide (i ∈ idxs) then f i n else n) ns.

Lemma touch_lookup f idxs ns i :
  touch f idxs ns !! i = (fun n => if bool_decide (i ∈ idxs) then f i n else n) <$> (ns !! i).
Proof. unfold touch. by rewrite list_lookup_imap. Qed.

Lemma touch_length f idxs ns : length (touch f idxs ns) = length ns.
Proof. apply length_imap. Qed.

Lemma touch_nil f ns : touch f [] ns = ns.
Proof. apply list_eq. intros i. rewrite touch_lookup. by destruct (ns !! i). Qed.

(** An entry that [f] leaves alone. *)
Lemma touch_skip f nid idxs ns :
  (forall n, ns !! nid = Some n -> f nid n = n) -> touch f (nid :: idxs) ns = touch f idxs ns.
Proof.
  intros Hf. apply list_eq. intros i. rewrite !touch_lookup. destruct (ns !! i) as [n|] eqn:E; [|done]. simpl.
  f_equal. destruct (decide (i = nid)) as [->|Hne].
  - rewrite (bool_decide_eq_true_2 (nid ∈ nid :: idxs)) by left. rewrite Hf by done. by case_bool_decide.
  - erewrite bool_decide_ext; [reflexivity|]. set_solver.
Qed.

(** An entry that is touched once. *)
Lemma touch_insert f nid idxs ns n :
  nid ∉ idxs -> ns !! nid = Some n -> touch f idxs (<[nid := f nid n]> ns) = touch f (nid :: idxs) ns.
Proof.
  intros Hni Hn. apply list_eq. intros i. rewrite !touch_lookup. destruct (decide (i = nid)) as [->|Hne].
  - rewrite list_lookup_insert_eq by (by eapply lookup_lt_Some). rewrite Hn. simpl.
    rewrite bool_decide_eq_false_2 by done. rewrite bool_decide_eq_true_2 by left. done.
  - rewrite list_lookup_insert_ne by done. destruct (ns !! i); [|done]. simpl. f_equal.
    erewrite bool_decide_ext; [reflexivity|]. set_solver.
Qed.

Lemma slots_ok_insert ns i n m :
  slots_ok ns -> ns !! i = Some n -> (watched m = true -> node_id m = i) -> slots_ok (<[i := m]> ns).
Proof.
  intros Hok Hn Hm j x Hj Hw. destruct (decide (j = i)) as [->|Hne].
  - rewrite list_lookup_insert_eq in Hj by (by eapply lookup_lt_Some). injection Hj as <-. auto.
  - rewrite list_lookup_insert_ne in Hj by done. eauto.
Qed.

(** ** The sender's pass *)

(** What a pass makes of an entry. *)
Definition pinged (dial : sockets) (now : nat -> Z * Z) (me i : nat) (n : NodeInfo) : NodeInfo :=
  if negb (i =? me) && ping dial n
  then set_report (u64 (heartbeat_seq n + 1)) (free_memory n) (set_heartbeat (now i).2 n) else n.

Lemma heartbeat_online now t n s :
  nodes s !! node_id n = Some n -> is_online n = true ->
  handle_heartbeat t (updated now n) s =
    Done (set_state (<[node_id n := set_report (u64 (heartbeat_seq n + 1)) (free_memory n) (set_heartbeat t n)]> (nodes s))
            (version s) (leader s) (online_count s) s).
Proof.
  intros Hn Hon. pose proof (proj1 (is_online_iff n) Hon) as Hst. unfold handle_heartbeat. simpl node_id.
  rewrite Hn, Hst. unfold is_online. simpl. by rewrite Hst.
Qed.

(** A node that was offline is back, under the number its entry had. *)
Lemma heartbeat_revives t info n s :
  nodes s !! node_id info = Some n -> node_status n = OFFLINE ->
  handle_heartbeat t info s =
    Done (set_state (<[node_id info := set_node_status ONLINE
                         (set_report (heartbeat_seq info) (free_memory info) (set_heartbeat t n))]> (nodes s))
            (u64 (version s + 1)) (leader s) (online_count s + 1) s).
Proof. intros Hn Hst. unfold handle_heartbeat. rewrite Hn, Hst. unfold is_online. simpl. by rewrite Hst. Qed.

Lemma node_info_online s i n :
  length (nodes s) = MAX_CLUSTER_NODES -> nodes s !! i = Some n -> is_online n = true -> node_info i s = Some n.
Proof.
  intros Hl Hn Hon%is_online_iff. unfold node_info. pose proof (lookup_lt_Some _ _ _ Hn) as Hlt.
  rewrite (proj2 (Nat.ltb_lt _ _)) by lia. rewrite Hn. simpl. by rewrite Hon.
Qed.

Lemma sender_loop_spec dial now idxs s :
  NoDup idxs -> length (nodes s) = MAX_CLUSTER_NODES -> slots_ok (nodes s) ->
  (forall i, i ∈ idxs -> exists n, nodes s !! i = Some n /\ is_online n = true) ->
  sender_loop dial now idxs s =
    Done (set_state (touch (pinged dial now (self s)) idxs (nodes s)) (version s) (leader s) (online_count s) s).
Proof.
  intros Hnd. revert s. induction Hnd as [|nid idxs Hni Hnd IH]; intros s Hl Hok Hon; simpl.
  { rewrite touch_nil. by destruct s. }
  destruct (Hon nid ltac:(left)) as (n & Hn & Hnon).
  assert (Hrest : forall i, i ∈ idxs -> exists n, nodes s !! i = Some n /\ is_online n = true)
    by (intros i Hi; apply Hon; by right).
  assert (Hskip : pinged dial now (self s) nid n = n -> sender_loop dial now idxs s =
    Done (set_state (touch (pinged dial now (self s)) (nid :: idxs) (nodes s)) (version s) (leader s) (online_count s) s)).
  { intros Hp. rewrite touch_skip by (intros m; rewrite Hn; by intros [= <-]). by apply IH. }
  destruct (Nat.eqb_spec nid (self s)) as [Hself|Hself].
  { apply Hskip. unfold pinged. by rewrite (proj2 (Nat.eqb_eq _ _)) by done. }
  rewrite (node_info_online s nid n) by done. destruct (ping dial n) eqn:Hp.
  2: { apply Hskip. unfold pinged. rewrite Hp. by rewrite andb_false_r. }
  pose proof (Hok nid n Hn (online_watched _ Hnon)) as Hid.
  rewrite heartbeat_online by (by rewrite ?Hid). rewrite Hid, IH.
  - simpl. unfold set_state; simpl. f_equal. f_equal. erewrite <- touch_insert; [|done|exact Hn].
    unfold pinged at 3. by rewrite (proj2 (Nat.eqb_neq _ _)), Hp by done.
  - simpl. by rewrite length_insert.
  - simpl. by eapply slots_ok_insert.
  - intros i Hi. simpl. rewrite list_lookup_insert_ne by (intros ->; done). by apply Hrest.
Qed.

Lemma online_nodes_spec s i : length (nodes s) = MAX_CLUSTER_NODES ->
  i ∈ online_nodes s <-> exists n, nodes s !! i = Some n /\ is_online n = true.
Proof.
  intros Hl. unfold online_nodes. rewrite list_elem_of_In, filter_In, in_seq. split.
  - intros [_ H]. destruct (nodes s !! i); [eauto|done].
  - intros (n & Hn & Hon). rewrite Hn. split; [|done]. apply lookup_lt_Some in Hn. lia.
Qed.

Lemma sender_pass_spec dial now s :
  length (nodes s) = MAX_CLUSTER_NODES -> slots_ok (nodes s) ->
  sender_pass dial now s =
    Done (set_state (touch (pinged dial now (self s)) (online_nodes s) (nodes s))
            (version s) (leader s) (online_count s) s).
Proof.
  intros Hl Hok. apply sender_loop_spec; try done.
  - apply NoDup_ListNoDup, List.NoDup_filter, seq_NoDup.
  - intros i. by apply online_nodes_spec.
Qed.

(** ** The monitor's pass *)

(** What the monitor makes of an entry. *)
Definition judged (now : Z) (c : Cluster) (i : nat) (n : NodeInfo) : NodeInfo :=
  if negb (i =? self c) && watched n && timed_out now c n then set_node_status OFFLINE n else n.

Lemma failure_effect now i n s :
  length (nodes s) = MAX_CLUSTER_NODES -> nodes s !! i = Some n ->
  exists s', handle_node_failure now i s = Done s' /\ nodes s' = <[i := set_node_status OFFLINE n]> (nodes s) /\
    self s' = self s /\ heartbeat_timeout_ms s' = heartbeat_timeout_ms s /\
    scheduler s' = evict_node now i (scheduler s).
Proof.
  intros Hl Hn. pose proof (lookup_lt_Some _ _ _ Hn) as Hlt. unfold handle_node_failure.
  rewrite (proj2 (Nat.leb_gt _ _)) by lia. eexists. split; [done|].
  rewrite <- (alter_insert _ _ _ _ Hn). by destruct (is_leader _).
Qed.

Lemma monitor_loop_spec now idxs s :
  NoDup idxs -> length (nodes s) = MAX_CLUSTER_NODES -> slots_ok (nodes s) ->
  Forall (fun i => i < MAX_CLUSTER_NODES) idxs ->
  exists s', monitor_loop now idxs s = Done s' /\ nodes s' = touch (judged now s) idxs (nodes s) /\
    self s' = self s.
Proof.
  intros Hnd. revert s. induction Hnd as [|nid idxs Hni Hnd IH]; intros s Hl Hok Hlt; cbn [monitor_loop].
  { exists s. by rewrite touch_nil. }
  inversion Hlt as [|? ? Hnid Hrest]; subst. destruct (node_exists s nid Hl Hnid) as [n Hn].
  assert (Hskip : judged now s nid n = n -> exists s', monitor_loop now idxs s = Done s' /\
    nodes s' = touch (judged now s) (nid :: idxs) (nodes s) /\ self s' = self s).
  { intros Hj. rewrite touch_skip by (intros m; rewrite Hn; by intros [= <-]). by apply IH. }
  destruct (nid =? self s) eqn:Hself.
  { apply Hskip. unfold judged. by rewrite Hself. }
  rewrite Hn. destruct (watched n && timed_out now s n) eqn:Hw.
  2: { apply Hskip. unfold judged. rewrite Hself. simpl. by rewrite Hw. }
  pose proof (Hok nid n Hn (proj1 (andb_prop _ _ Hw))) as Hid.
  destruct (failure_effect now nid n s Hl Hn) as (s1 & Hrun & Hns & Hs & Hto & _). rewrite Hid, Hrun.
  destruct (IH s1) as (s2 & Hrun2 & Hns2 & Hs2); [by rewrite Hns, length_insert| |done|].
  { rewrite Hns. eapply slots_ok_insert; [done..|]. by intros ?. }
  exists s2. split; [done|]. split; [|congruence]. rewrite Hns2, Hns, <- (touch_insert _ _ _ _ _ Hni Hn).
  assert (judged now s nid n = set_node_status OFFLINE n) as ->
    by (unfold judged; rewrite Hself; simpl; by rewrite Hw).
  unfold judged, timed_out. by rewrite Hs, Hto.
Qed.

Lemma monitor_pass_spec now s :
  length (nodes s) = MAX_CLUSTER_NODES -> slots_ok (nodes s) -> total_nodes s <= MAX_CLUSTER_NODES ->
  exists s', monitor_pass now s = Done s' /\ self s' = self s /\
    forall i n, nodes s !! i = Some n ->
      nodes s' !! i = Some (if i <? total_nodes s then judged now s i n else n).
Proof.
  intros Hl Hok Htot. destruct (monitor_loop_spec now (seq 0 (total_nodes s)) s) as (s' & Hrun & Hns & Hs);
    try done; [apply NoDup_ListNoDup, seq_NoDup| |].
  { apply Forall_forall. intros i Hi%list_elem_of_In%in_seq. lia. }
  exists s'. split_and!; [done..|]. intros i n Hn. rewrite Hns, touch_lookup, Hn. simpl. do 2 f_equal.
  case_bool_decide as Hi; rewrite list_elem_of_In, in_seq in Hi; destruct (Nat.ltb_spec i (total_nodes s)); try done; lia.
Qed.

Lemma timed_out_elapsed now s n :
  (0 <= heartbeat_timeout_ms s < 2 ^ 31)%Z -> (0 <= last_heartbeat_us n <= now)%Z -> (now < 2 ^ 64)%Z ->
  timed_out now s n = (heartbeat_timeout_ms s * 1000 <? now - last_heartbeat_us n)%Z.
Proof. intros Hto Hl Hn. unfold timed_out. rewrite (u64_small (heartbeat_timeout_ms s)), !u64_small by lia. done. Qed.

(** The jobs of the nodes that a pass fails. *)
Lemma monitor_loop_jobs now idxs s s' :
  NoDup idxs -> length (nodes s) = MAX_CLUSTER_NODES -> slots_ok (nodes s) -> sched_inv (scheduler s) ->
  monitor_loop now idxs s = Done s' ->
  sched_inv (scheduler s') /\ all_ids (scheduler s') ≡ₚ all_ids (scheduler s) /\
  (forall j, j ∈ cluster_active s' -> j ∈ cluster_active s) /\
  forall i n, i ∈ idxs -> nodes s !! i = Some n -> judged now s i n <> n ->
    Forall (fun j => i ∉ assigned_nodes j) (cluster_active s').
Proof.
  intros Hnd. revert s. induction Hnd as [|nid idxs Hni Hnd IH]; intros s Hl Hok HI; cbn [monitor_loop].
  { intros [= <-]. split_and!; try done. intros i n Hi. by apply not_elem_of_nil in Hi. }
  assert (Hskip : forall n, nodes s !! nid = Some n -> judged now s nid n = n -> monitor_loop now idxs s = Done s' ->
    sched_inv (scheduler s') /\ all_ids (scheduler s') ≡ₚ all_ids (scheduler s) /\
    (forall j, j ∈ cluster_active s' -> j ∈ cluster_active s) /\
    forall i n, i ∈ nid :: idxs -> nodes s !! i = Some n -> judged now s i n <> n ->
      Forall (fun j => i ∉ assigned_nodes j) (cluster_active s')).
  { intros n Hn Hj Hrun. destruct (IH s Hl Hok HI Hrun) as (H1 & H2 & H3 & H4). split_and!; [done..|].
    intros i m [->|Hi]%elem_of_cons Hm Hjm; [congruence|by eapply H4]. }
  destruct (nid =? self s) eqn:Hself.
  { destruct (nodes s !! nid) as [n|] eqn:Hn.
    - apply (Hskip n); [done|]. unfold judged. by rewrite Hself.
    - intros Hrun. destruct (IH s Hl Hok HI Hrun) as (H1 & H2 & H3 & H4). split_and!; [done..|].
      intros i m [->|Hi]%elem_of_cons Hm; [congruence|by eapply H4]. }
  destruct (nodes s !! nid) as [n|] eqn:Hn; [|done]. destruct (watched n && timed_out now s n) eqn:Hw.
  2: { apply (Hskip n); [done|]. unfold judged. rewrite Hself. simpl. by rewrite Hw. }
  pose proof (Hok nid n Hn (proj1 (andb_prop _ _ Hw))) as Hid.
  destruct (failure_effect now nid n s Hl Hn) as (s1 & Hrun1 & Hns & Hs & Hto & Hsch). rewrite Hid, Hrun1. intros Hrun.
  destruct (evict_inv now nid _ HI) as (HI1 & Hids & Hoff). rewrite <- Hsch in HI1, Hids, Hoff.
  destruct (IH s1) as (H1 & H2 & H3 & H4); [by rewrite Hns, length_insert| |done..|].
  { rewrite Hns. eapply slots_ok_insert; [done..|]. by intros ?. }
  split_and!; [done|by rewrite H2| |].
  - intros j Hj%H3. unfold cluster_active, active_jobs in *. rewrite Hsch in Hj. by eapply evict_active_subset.
  - intros i m [->|Hi]%elem_of_cons Hm Hj.
    + apply Forall_forall. intros j Hj1%H3. rewrite Forall_forall in Hoff. by apply Hoff.
    + apply (H4 i m Hi).
      * rewrite Hns, list_lookup_insert_ne by (intros ->; done). done.
      * unfold judged, timed_out in *. by rewrite Hs, Hto.
Qed.

(** ** The agents that answer *)

Lemma pong_long seg rest : HDR_WIRE <= length seg -> pong (seg :: rest) = true.
Proof. intros H. unfold pong. apply Nat.leb_le. rewrite length_take. lia. Qed.

Section Cluster.
Context {D G : Type} `{!AgentDmem D} (metal_sync : G -> bool * G).

(** Agents listening at addresses; the eight bytes of a reply arrive together. *)
Definition agents_at (agents : string -> Z -> option (@Agent D G)) : sockets := fun ip port =>
  a ← agents ip port; Some (fun sent => [(handle_connection metal_sync a [sent]).1.2]).

Definition agent_up (agents : string -> Z -> option (@Agent D G)) (n : NodeInfo) : bool :=
  match agents (ip_address n) (control_port n) with Some a => g_running a | None => false end.

Lemma ping_agents agents n : ping (agents_at agents) n = agent_up agents n.
Proof.
  unfold ping, agents_at, agent_up. destruct (agents _ _) as [a|]; [|done]. cbn [mbind option_bind].
  unfold handle_connection, stream_fuel. destruct (g_running a) eqn:Hr.
  - assert (concat [ping_header] = ping_header ++ []) as E by done.
    destruct (recv_all_front _ _ _ E) as (inp' & E1 & _). unfold ping_header in E1 at 1.
    rewrite length_header_bytes in E1. erewrite handle_loop_next; [|done|].
    2: { unfold handle_iter, HDR_WIRE. rewrite E1. unfold ping_header.
         rewrite header_cmd, cmd_of_code by apply cmd_code_range. reflexivity. }
    destruct (handle_loop _ _ _ inp') as [[a2 out2] fl2]. cbn [fst snd].
    apply pong_long. rewrite length_app, length_header_bytes. unfold HDR_WIRE. lia.
  - cbn [handle_loop]. rewrite Hr. done.
Qed.
End Cluster.

(** ** Reachable states *)

(** States reached from the constructor by the membership operations and the
    passes of the sender and the monitor, where no node that was never seen
    leaves or fails. *)
Definition names_known (op : cluster_op) (s : Cluster) : Prop :=
  match op with
  | CLeave id | CFailure _ id => forall n, nodes s !! id = Some n -> node_status n <> UNKNOWN
  | _ => True
  end.

Inductive cluster_reach : Cluster -> Prop :=
  | creach_new id total timeout cap port s :
      cluster_new id total timeout cap port = Done s -> cluster_reach s
  | creach_op op s s' :
      cluster_reach s -> names_known op s -> cluster_run op s = Done s' -> cluster_reach s'
  | creach_sender dial now s s' : cluster_reach s -> sender_pass dial now s = Done s' -> cluster_reach s'
  | creach_monitor now s s' :
      cluster_reach s -> total_nodes s <= MAX_CLUSTER_NODES -> monitor_pass now s = Done s' -> cluster_reach s'.

(** Eight slots, and every entry that was ever filled carries its number. *)
Definition slots_named (ns : list NodeInfo) : Prop :=
  length ns = MAX_CLUSTER_NODES /\ forall i n, ns !! i = Some n -> node_status n <> UNKNOWN -> node_id n = i.

Lemma named_ok ns : slots_named ns -> slots_ok ns.
Proof. intros [_ H] i n Hn Hw. apply H; [done|]. intros Hst. unfold watched in Hw. by rewrite Hst in Hw. Qed.

Lemma named_insert ns i m :
  slots_named ns -> (node_status m <> UNKNOWN -> node_id m = i) -> slots_named (<[i := m]> ns).
Proof.
  intros [Hl H] Hm. split; [by rewrite length_insert|]. intros j n Hj.
  apply list_lookup_insert_Some in Hj as [(-> & -> & _)|[_ Hj]]; [done|by apply H].
Qed.

Lemma named_offline ns i n :
  slots_named ns -> ns !! i = Some n -> node_status n <> UNKNOWN ->
  slots_named (alter (set_node_status OFFLINE) i ns).
Proof. intros Hok Hn Hst. rewrite (alter_insert _ _ _ _ Hn). apply named_insert; [done|]. intros _. simpl. by apply (proj2 Hok). Qed.

(** What a touch does to an entry may not fill it or rename it. *)
Lemma named_touch f idxs ns :
  slots_named ns -> (forall i n, node_id (f i n) = node_id n) ->
  (forall i n, node_status n = UNKNOWN -> node_status (f i n) = UNKNOWN) -> slots_named (touch f idxs ns).
Proof.
  intros [Hl H] Hid Hst. split; [by rewrite touch_length|]. intros i m. rewrite touch_lookup.
  destruct (ns !! i) as [n|] eqn:Hn; [|done]. intros [= <-] Hm. specialize (H i n Hn).
  case_bool_decide; rewrite ?Hid; apply H; [|done]. intros Hu. apply Hm. by apply Hst.
Qed.

Lemma cluster_run_named op s s' :
  slots_named (nodes s) -> names_known op s -> cluster_run op s = Done s' -> slots_named (nodes s').
Proof.
  intros Hok Hk. destruct op as [now info|id|now info|now id]; simpl in *.
  - unfold handle_join. case_match; [done|]. intros [= <-]. simpl. by apply named_insert.
  - unfold handle_leave. destruct (nodes s !! id) as [n|] eqn:Hn; [|done]. specialize (Hk n eq_refl).
    destruct (node_status n) eqn:Hst; [done| | |by intros [= <-]].
    all: case_match; [done|]; intros [= <-]; simpl; (eapply named_offline; [done|exact Hn|congruence]).
  - unfold handle_heartbeat. destruct (nodes s !! node_id info) as [n|] eqn:Hn; [|done].
    pose proof (proj2 Hok _ _ Hn) as Hid.
    case_match; intros [= <-]; simpl; (apply named_insert; [done|]); intros _; simpl;
      destruct (node_status n) eqn:Hst; simpl; try done; by apply Hid.
  - unfold handle_node_failure. destruct (Nat.leb_spec MAX_CLUSTER_NODES id) as [|Hlt]; [done|]. intros [= <-].
    destruct (node_exists s id (proj1 Hok) Hlt) as [n Hn].
    assert (slots_named (alter (set_node_status OFFLINE) id (nodes s))) by (eapply named_offline; eauto).
    by destruct (is_leader _).
Qed.

Lemma monitor_pass_named now s s' :
  slots_named (nodes s) -> total_nodes s <= MAX_CLUSTER_NODES -> monitor_pass now s = Done s' ->
  slots_named (nodes s').
Proof.
  intros Hok Htot Hrun. destruct (monitor_loop_spec now (seq 0 (total_nodes s)) s) as (x & Hx & Hns & _).
  - apply NoDup_ListNoDup, seq_NoDup.
  - apply Hok.
  - by apply named_ok.
  - apply Forall_forall. intros i Hi%list_elem_of_In%in_seq. lia.
  - unfold monitor_pass in Hrun. rewrite Hx in Hrun. injection Hrun as <-. rewrite Hns.
    apply named_touch; [done| |]; intros i n; unfold judged; case_match; try done.
    intros Hu. unfold watched in *. rewrite Hu, andb_false_r in *. done.
Qed.

(** ** Properties *)

(** C30: A round of the heartbeat protocol: the head pings the online nodes, then
    judges them at time [t].  Both passes end.  An online node is declared
    OFFLINE exactly when the time since it was last heard, which is the time of
    this round's answer when its agent is up and the recorded one when not,
    is above the timeout; otherwise it stays ONLINE.  An agent that is up and
    answered less than the timeout ago is never failed, and one that is gone is
    failed by the first round after its timeout. *)
Theorem heartbeat_round_detects {D G} `{!AgentDmem D} (metal_sync : G -> bool * G)
    (agents : string -> Z -> option (@Agent D G)) now t s :
  length (nodes s) = MAX_CLUSTER_NODES -> slots_ok (nodes s) -> total_nodes s <= MAX_CLUSTER_NODES ->
  (0 <= heartbeat_timeout_ms s < 2 ^ 31)%Z -> (t < 2 ^ 64)%Z ->
  (forall i n, nodes s !! i = Some n -> 0 <= last_heartbeat_us n <= t)%Z ->
  (forall i, 0 <= (now i).2 <= t)%Z ->
  exists s1 s2, sender_pass (agents_at metal_sync agents) now s = Done s1 /\ monitor_pass t s1 = Done s2 /\
    forall i n, nodes s !! i = Some n -> node_status n = ONLINE -> i < total_nodes s -> i <> self s ->
      let heard := if agent_up agents n then (now i).2 else last_heartbeat_us n in
      exists n', nodes s2 !! i = Some n' /\ node_id n' = i /\ last_heartbeat_us n' = heard /\
        node_status n' = (if (heartbeat_timeout_ms s * 1000 <? t - heard)%Z then OFFLINE else ONLINE).
Proof.
  intros Hl Hok Htot Hto Ht Hlast Hnow. rewrite (sender_pass_spec _ _ _ Hl Hok). eexists.
  set (s1 := set_state _ _ _ _ s).
  assert (Hpin : forall i n, node_id (pinged (agents_at metal_sync agents) now (self s) i n) = node_id n /\
    watched (pinged (agents_at metal_sync agents) now (self s) i n) = watched n)
    by (intros i n; unfold pinged; by case_match).
  assert (Hok1 : slots_ok (nodes s1)).
  { intros i m. simpl. rewrite touch_lookup. destruct (nodes s !! i) as [n|] eqn:Hn; [|done].
    intros [= <-]. destruct (Hpin i n) as [Hid Hw]. case_bool_decide; rewrite ?Hid, ?Hw; by apply Hok. }
  destruct (monitor_pass_spec t s1) as (s2 & Hrun & Hself2 & Hns2); [by simpl; rewrite touch_length|done..|].
  exists s2. split_and!; [done..|]. intros i n Hn Hst Hi Hne heard.
  assert (Hon : i ∈ online_nodes s) by (apply online_nodes_spec; [done|]; exists n; split; [done|by apply is_online_iff]).
  pose proof (Hns2 i _ ltac:(by simpl; rewrite touch_lookup, Hn)) as Hs2. simpl in Hs2.
  rewrite bool_decide_eq_true_2 in Hs2 by done. rewrite (proj2 (Nat.ltb_lt _ _) Hi) in Hs2.
  eexists. split; [exact Hs2|]. subst heard.
  assert (Hid : node_id n = i) by (apply Hok; [done|]; by apply online_watched, is_online_iff).
  unfold pinged. rewrite ping_agents. rewrite (proj2 (Nat.eqb_neq _ _)) by done. simpl.
  unfold judged. simpl. rewrite (proj2 (Nat.eqb_neq _ _)) by done. simpl.
  destruct (agent_up agents n); unfold watched; simpl; rewrite Hst; simpl;
    rewrite timed_out_elapsed; simpl; try done; try (by apply Hnow); try (by eapply Hlast);
    case_match; simpl; by split_and!.
Qed.

(** What the monitor does to the jobs: a pass that fails nodes takes every job
    that runs on one of them out of the active list, starts none, and loses
    none: each evicted job is in the queue or in the history, and the invariant
    of the scheduler holds for the next tick. *)
Theorem monitor_evicts_jobs t s s' :
  length (nodes s) = MAX_CLUSTER_NODES -> slots_ok (nodes s) -> sched_inv (scheduler s) ->
  monitor_pass t s = Done s' ->
  sched_inv (scheduler s') /\ all_ids (scheduler s') ≡ₚ all_ids (scheduler s) /\
  (forall j, j ∈ cluster_active s' -> j ∈ cluster_active s) /\
  forall i n, i < total_nodes s -> i <> self s -> nodes s !! i = Some n -> watched n = true ->
    timed_out t s n = true -> Forall (fun j => i ∉ assigned_nodes j) (cluster_active s').
Proof.
  intros Hl Hok HI Hrun.
  destruct (monitor_loop_jobs t (seq 0 (total_nodes s)) s s') as (H1 & H2 & H3 & H4); try done.
  { apply NoDup_ListNoDup, seq_NoDup. }
  split_and!; [done..|]. intros i n Hi Hne Hn Hw Hto. apply (H4 i n); [|done|].
  - apply list_elem_of_In, in_seq. lia.
  - unfold judged. rewrite (proj2 (Nat.eqb_neq _ _)), Hw, Hto by done. simpl. intros E.
    apply (f_equal watched) in E. by rewrite Hw in E.
Qed.

(** The node table of the manager is well formed in every reachable state: it
    has its eight slots, and every entry that was ever filled carries the number
    of its slot, so that the sender and the monitor act on the node they looked
    at.  The one way out of it is an unknown node that leaves or fails. *)
Theorem reachable_slots s : cluster_reach s -> slots_named (nodes s).
Proof.
  induction 1 as [id total timeout cap port s Hnew|op s s' _ IH Hk Hrun|dial now s s' _ IH Hrun|now s s' _ IH Htot Hrun].
  - unfold cluster_new in Hnew. case_match; [done|]. injection Hnew as <-. apply named_insert; [|done].
    split; [done|]. intros i n Hn. apply (lookup_replicate 8 default_node n i) in Hn as [-> _]. done.
  - by eapply cluster_run_named.
  - rewrite (sender_pass_spec _ _ _ (proj1 IH) (named_ok _ IH)) in Hrun. injection Hrun as <-. simpl.
    apply named_touch; [done| |]; intros i n; unfold pinged; by case_match.
  - by eapply monitor_pass_named.
Qed.

(** A node that leaves before it was ever seen and is heard later comes online
    under the number of its empty entry: the entry is not filled, since its
    status is no longer UNKNOWN.  When it falls silent, the monitor fails the
    node of that number in its place and the entry itself stays ONLINE. *)
Theorem unknown_leave_misdirects i n hb info t s s1 :
  nodes s !! i = Some n -> node_status n = UNKNOWN -> node_id n <> i -> length (nodes s) = MAX_CLUSTER_NODES ->
  node_id n < MAX_CLUSTER_NODES -> i <> self s ->
  handle_leave i s = Done s1 -> node_id info = i -> timed_out t s (set_heartbeat hb n) = true ->
  exists s2 s3, handle_heartbeat hb info s1 = Done s2 /\ monitor_loop t [i] s2 = Done s3 /\
    (exists x, nodes s3 !! i = Some x /\ node_status x = ONLINE /\ node_id x = node_id n) /\
    (exists x, nodes s3 !! node_id n = Some x /\ node_status x = OFFLINE).
Proof.
  intros Hn Hst Hne Hl Hlt Hself Hleave Hinfo Hto.
  unfold handle_leave in Hleave. rewrite Hn, Hst in Hleave. case_match; [done|]. injection Hleave as <-.
  pose proof (lookup_lt_Some _ _ _ Hn) as Hi.
  rewrite (heartbeat_revives hb info (set_node_status OFFLINE n))
    by (simpl; try done; rewrite Hinfo, list_lookup_alter_eq; by rewrite Hn).
  rewrite Hinfo. set (x := set_node_status ONLINE _). set (s2 := set_state (<[i := x]> _) _ _ _ _).
  exists s2.
  assert (Hx : nodes s2 !! i = Some x) by (simpl; apply list_lookup_insert_eq; by rewrite length_alter).
  destruct (node_exists s2 (node_id n)) as [m Hm]; [simpl; by rewrite length_insert, length_alter|done|].
  destruct (failure_effect t (node_id n) m s2) as (s3 & Hrun & Hns & _); [simpl; by rewrite length_insert, length_alter|done|].
  exists s3. split; [done|]. split.
  - cbn [monitor_loop]. rewrite (proj2 (Nat.eqb_neq i (self s2)) Hself), Hx.
    change (timed_out t s2 x) with (timed_out t s (set_heartbeat hb n)). rewrite Hto. simpl. by rewrite Hrun.
  - rewrite Hns. split.
    + exists x. by rewrite list_lookup_insert_ne.
    + exists (set_node_status OFFLINE m). split; [|done]. apply list_lookup_insert_eq. by eapply lookup_lt_Some.
Qed.

(** ** Witnesses: a head and two agents, of which the second has gone *)

#[local] Instance demo_dmem : AgentDmem unit := {|
  ad_register := fun _ _ _ d => (Ok 1%Z, d);
  ad_unregister := fun _ d => (Ok tt, d);
  ad_stats := fun _ => zero_stats;
  ad_shutdown := fun d => (Ok tt, d);
|}.

Definition demo_agents (ip : string) (port : Z) : option (@Agent unit unit) :=
  if bool_decide (ip = "10.0.0.1") then Some (mkAgent true (Some tt) tt) else None.

Definition demo_head : Cluster :=
  mkCluster 0 3 2000
    [demo_node 0 ONLINE 0; demo_node 1 ONLINE 1000; mkNode 2 "gone" "10.0.0.2" 9800 64 32 ONLINE 1000 0;
     default_node; default_node; default_node; default_node; default_node]
    0 0 3 (mkCatalog ∅ 0) (sched_new 100 true).

Lemma demo_head_slots : slots_ok (nodes demo_head).
Proof.
  intros i n Hn Hw. do 8 (destruct i as [|i]; [simpl in Hn; injection Hn as <-; (reflexivity || discriminate)|]).
  discriminate.
Qed.

(** Two seconds and one microsecond later the agent that answers is kept and
    the other is offline. *)
Lemma heartbeat_round_detects_witness :
  exists s1 s2, sender_pass (agents_at (fun g : unit => (true, g)) demo_agents) (fun _ => (1500, 1600)%Z) demo_head = Done s1 /\
    monitor_pass 2001001 s1 = Done s2 /\
    (exists n, nodes s2 !! 1 = Some n /\ node_status n = ONLINE) /\
    (exists n, nodes s2 !! 2 = Some n /\ node_status n = OFFLINE).
Proof.
  destruct (heartbeat_round_detects (fun g : unit => (true, g)) demo_agents (fun _ => (1500, 1600)%Z) 2001001 demo_head)
    as (s1 & s2 & H1 & H2 & H).
  - reflexivity.
  - exact demo_head_slots.
  - unfold MAX_CLUSTER_NODES; simpl; lia.
  - simpl; lia.
  - lia.
  - intros i n Hn. do 8 (destruct i as [|i]; [simpl in Hn; injection Hn as <-; simpl; lia|]). discriminate.
  - intros i; simpl; lia.
  - exists s1, s2. split; [exact H1|]. split; [exact H2|]. split.
    + destruct (H 1 (demo_node 1 ONLINE 1000)) as (n & Hn & _ & _ & Hst); [reflexivity|reflexivity|simpl; lia|discriminate|].
      exists n. split; [exact Hn|exact Hst].
    + destruct (H 2 (mkNode 2 "gone" "10.0.0.2" 9800 64 32 ONLINE 1000 0)) as (n & Hn & _ & _ & Hst);
        [reflexivity|reflexivity|simpl; lia|discriminate|].
      exists n. split; [exact Hn|exact Hst].
Defined.

(** A fresh manager that an agent joins. *)
Lemma reachable_slots_witness :
  exists s s', cluster_new 0 3 2000 100 9800 = Done s /\ handle_join 5 (demo_node 1 UNKNOWN 0) s = Done s' /\
    slots_named (nodes s').
Proof.
  eexists. eexists. split; [reflexivity|]. split; [reflexivity|]. apply reachable_slots.
  eapply (creach_op (CJoin 5 (demo_node 1 UNKNOWN 0))); [eapply (creach_new 0 3 2000 100 9800); reflexivity|exact I|reflexivity].
Defined.

Definition demo_left : Cluster := match handle_leave 3 demo_head with Done s => s | _ => demo_head end.

(** Node 3 leaves, is heard at 1000 and falls silent: the head fails itself. *)
Lemma unknown_leave_misdirects_witness :
  exists s1 s2 s3, handle_leave 3 demo_head = Done s1 /\ handle_heartbeat 1000 (demo_node 3 ONLINE 0) s1 = Done s2 /\
    monitor_loop 5000000 [3] s2 = Done s3 /\ (exists x, nodes s3 !! 0 = Some x /\ node_status x = OFFLINE).
Proof.
  exists demo_left.
  destruct (unknown_leave_misdirects 3 default_node 1000 (demo_node 3 ONLINE 0) 5000000 demo_head demo_left)
    as (s2 & s3 & H1 & H2 & _ & H3);
    [reflexivity|reflexivity|discriminate|reflexivity|unfold MAX_CLUSTER_NODES; simpl; lia|discriminate|vm_compute; reflexivity|reflexivity|reflexivity|].
  exists s2, s3. split; [vm_compute; reflexivity|]. split; [exact H1|]. split; [exact H2|exact H3].
Defined.

(** Node 1 runs a job with node 0 and falls silent: nothing is active any more. *)
Lemma monitor_evicts_jobs_witness :
  exists s', monitor_pass 5000000 (set_scheduler demo_sched demo_head) = Done s' /\
    sched_inv (scheduler s') /\ Forall (fun j => 1 ∉ assigned_nodes j) (cluster_active s').
Proof.
  destruct (monitor_pass_spec 5000000 (set_scheduler demo_sched demo_head)) as (s' & Hrun & _);
    [reflexivity|exact demo_head_slots|unfold MAX_CLUSTER_NODES; simpl; lia|].
  destruct (monitor_evicts_jobs 5000000 (set_scheduler demo_sched demo_head) s') as (H1 & _ & _ & H2);
    [reflexivity|exact demo_head_slots|exact demo_sched_inv|exact Hrun|].
  exists s'. split; [exact Hrun|]. split; [exact H1|].
  apply (H2 1 (demo_node 1 ONLINE 1000)); [simpl; lia|discriminate|reflexivity|reflexivity|vm_compute; reflexivity].
Defined.
