(* ===== verification/ClusterThreads.v ===== *)
(** * The threads of the cluster manager ([csrc/runtime/ClusterManager.cpp])

    The heartbeat sender, the heartbeat monitor, the scheduler loop, the thread
    that starts the manager and shuts it down, and other threads that report
    joins, leaves, heartbeats and failures, in their steps: a step ends where
    [state_mu_] is given back or taken, or where a flag or the clock is read.
    The sender and the scheduler loop read entries of the node table through the
    pointer that [node_info] returned, after the mutex has been given back, and
    the failure path elects the leader without it; such an access is one step.

    [ClusterManager] and [Heartbeat] have the same loops as passes without
    interference; here a pass is the sequence of its steps ([..._undisturbed]). *)
From S2P Require Import Prelude Catalog Scheduler ClusterManager Heartbeat.
#[local] Open Scope nat_scope.
#[local] Arguments Nat.leb : simpl never.
#[local] Arguments Nat.ltb : simpl never.
#[local] Arguments is_leader : simpl never.
#[local] Arguments online_nodes : simpl never.
#[local] Arguments elect_leader : simpl never.

(** ** State *)

(** [heartbeat_sender_loop]: at the test of [running_], in [online_nodes], before
    [node_info] of the next node, with the pointer before and after the ping, in
    [handle_heartbeat], asleep, returned. *)
Inductive sender_pc :=
  | S_test | S_nodes | S_visit (l : list nat) | S_ping (nid : nat) (l : list nat) | S_copy (nid : nat) (l : list nat)
  | S_report (info : NodeInfo) (l : list nat) | S_sleep | S_return.

(** [heartbeat_monitor_loop]: [M_scan] holds the mutex; from [M_mark] to
    [M_elect] it is in [handle_node_failure]. *)
Inductive monitor_pc :=
  | M_test | M_sleep | M_lock (now : Z) | M_scan (now : Z) (l : list nat)
  | M_mark (now : Z) (failed : nat) (l : list nat) | M_catalog (now : Z) (failed : nat) (l : list nat)
  | M_evict (now : Z) (failed : nat) (l : list nat) | M_leader (now : Z) (l : list nat) | M_elect (now : Z) (l : list nat)
  | M_relock (now : Z) (l : list nat) | M_return.

(** [scheduler_loop]: [L_info] builds the loads node by node. *)
Inductive sched_pc :=
  | L_test | L_sleep | L_nodes | L_info (online l : list nat) (loads : list NodeLoad)
  | L_tick (online : list nat) (loads : list NodeLoad) | L_return.

(** [shutdown]: the three joins and the shutdown of the scheduler. *)
Inductive main_pc := P_idle | P_join_sender | P_join_monitor | P_join_scheduler | P_scheduler.

(** A thread is [None] while it is not joinable.  [locked_out]: a thread of the
    outside has [state_mu_] and waits for it. *)
Record Manager := mkManager {
  cl : Cluster;
  head : bool;                       (* is_head_ *)
  running_ : bool;
  sender : option sender_pc;
  monitor : option monitor_pc;
  looper : option sched_pc;          (* scheduler_thread_ *)
  main : main_pc;
  sched_on : bool;                   (* the running flag of the scheduler *)
  locked_out : bool
}.

Definition manager_new (head : bool) (c : Cluster) : Manager := mkManager c head false None None None P_idle false false.

Definition with_cl (c : Cluster) (s : Manager) : Manager :=
  mkManager c (head s) (running_ s) (sender s) (monitor s) (looper s) (main s) (sched_on s) (locked_out s).
Definition with_sender (p : option sender_pc) (s : Manager) : Manager :=
  mkManager (cl s) (head s) (running_ s) p (monitor s) (looper s) (main s) (sched_on s) (locked_out s).
Definition with_monitor (p : option monitor_pc) (s : Manager) : Manager :=
  mkManager (cl s) (head s) (running_ s) (sender s) p (looper s) (main s) (sched_on s) (locked_out s).
Definition with_looper (p : option sched_pc) (s : Manager) : Manager :=
  mkManager (cl s) (head s) (running_ s) (sender s) (monitor s) p (main s) (sched_on s) (locked_out s).
Definition with_main (p : main_pc) (s : Manager) : Manager :=
  mkManager (cl s) (head s) (running_ s) (sender s) (monitor s) (looper s) p (sched_on s) (locked_out s).

(** [state_mu_] is free. *)
Definition mu_free (s : Manager) : bool :=
  negb (locked_out s) && match monitor s with Some (M_scan _ _) => false | _ => true end.

Definition when_free {A} (s : Manager) (x : option A) : option A := if mu_free s then x else None.

(** ** Steps *)

Section Steps.
Context `{StdSort} (dial : sockets).

(** [now]: the readings of the clock by the sender and in [handle_heartbeat]. *)
Definition sender_step (now : Z * Z) (p : sender_pc) (s : Manager) : option Manager :=
  let to p := with_sender (Some p) s in
  match p with
  | S_test => Some (to (if running_ s then S_nodes else S_return))
  | S_nodes => when_free s (Some (to (S_visit (online_nodes (cl s)))))
  | S_visit [] => Some (to S_sleep)
  | S_visit (nid :: l) =>
    if nid =? self (cl s) then Some (to (S_visit l)) else
    when_free s (Some (to (match node_info nid (cl s) with None => S_visit l | Some _ => S_ping nid l end)))
  | S_ping nid l =>
    info ← nodes (cl s) !! nid; Some (to (if ping dial info then S_copy nid l else S_visit l))
  | S_copy nid l => info ← nodes (cl s) !! nid; Some (to (S_report (updated now.1 info) l))
  | S_report info l =>
    when_free s (match handle_heartbeat now.2 info (cl s) with
                 | Done c => Some (with_cl c (to (S_visit l)))
                 | _ => None
                 end)
  | S_sleep => Some (to S_test)
  | S_return => None
  end.

(** [handle_node_failure] in its four parts. *)
Definition mark_offline (failed : nat) (c : Cluster) : Cluster :=
  set_state (alter (set_node_status OFFLINE) failed (nodes c)) (u64 (version c + 1)) (leader c) (online_count c - 1) c.
Definition clear_catalog (failed : nat) (c : Cluster) : Cluster :=
  set_catalog (cat_remove_node (Z.of_nat failed) (catalog c)) c.
Definition evict_jobs (now : Z) (failed : nat) (c : Cluster) : Cluster :=
  set_scheduler (evict_node now failed (scheduler c)) c.

(** [now]: the clock, as the monitor reads it and as [evict_node] does. *)
Definition monitor_step (now : Z) (p : monitor_pc) (s : Manager) : option Manager :=
  let to p := with_monitor (Some p) s in
  match p with
  | M_test => Some (to (if running_ s then M_sleep else M_return))
  | M_sleep => Some (to (M_lock now))
  | M_lock t => when_free s (Some (to (M_scan t (seq 0 (total_nodes (cl s))))))
  | M_scan t [] => Some (to M_test)
  | M_scan t (i :: l) =>
    if i =? self (cl s) then Some (to (M_scan t l)) else
    n ← nodes (cl s) !! i;
    Some (to (if watched n && timed_out t (cl s) n then M_mark t (node_id n) l else M_scan t l))
  | M_mark t failed l =>
    if MAX_CLUSTER_NODES <=? failed then None else
    when_free s (Some (with_cl (mark_offline failed (cl s)) (to (M_catalog t failed l))))
  | M_catalog t failed l => Some (with_cl (clear_catalog failed (cl s)) (to (M_evict t failed l)))
  | M_evict t failed l => Some (with_cl (evict_jobs now failed (cl s)) (to (M_leader t l)))
  | M_leader t l => when_free s (Some (to (if is_leader (cl s) then M_elect t l else M_relock t l)))
  | M_elect t l => Some (with_cl (elect_leader (cl s)) (to (M_relock t l)))
  | M_relock t l => when_free s (Some (to (M_scan t l)))
  | M_return => None
  end.

Definition no_loads : list NodeLoad := replicate MAX_CLUSTER_NODES (mkLoad 0 0).

(** [loads[nid].memory_used = info->total_memory - info->free_memory]. *)
Definition load_of (n : NodeInfo) (nid : nat) (loads : list NodeLoad) : list NodeLoad :=
  alter (fun x => mkLoad (u64 (total_memory n - free_memory n)) (load_jobs x)) nid loads.

Definition looper_step (now : nat -> Z) (p : sched_pc) (s : Manager) : option Manager :=
  let to p := with_looper (Some p) s in
  match p with
  | L_test => Some (to (if running_ s then L_sleep else L_return))
  | L_sleep => Some (to L_nodes)
  | L_nodes => when_free s (Some (to (L_info (online_nodes (cl s)) (online_nodes (cl s)) no_loads)))
  | L_info online [] loads => Some (to (L_tick online loads))
  | L_info online (nid :: l) loads =>
    when_free s (Some (to (L_info online l
      (match node_info nid (cl s) with Some n => load_of n nid loads | None => loads end))))
  | L_tick online loads =>
    match schedule_tick online now loads (scheduler (cl s)) with
    | Finished _ x _ => Some (with_cl (set_scheduler x (cl s)) (to L_test))
    | Undefined _ _ _ => None
    end
  | L_return => None
  end.

(** [start]. *)
Definition start_step (s : Manager) : option Manager :=
  match main s with
  | P_idle =>
    if running_ s then Some s else
    let t {A} (p : A) (old : option A) := if head s then Some p else old in
    Some (mkManager (cl s) (head s) true (t S_test (sender s)) (t M_test (monitor s)) (t L_test (looper s))
            P_idle true (locked_out s))
  | _ => None
  end.

(** [shutdown]: clears the flag; then joins one thread after the other, each of
    them if it is joinable. *)
Definition shutdown_step (s : Manager) : option Manager :=
  match main s with
  | P_idle =>
    if running_ s
    then Some (mkManager (cl s) (head s) false (sender s) (monitor s) (looper s) P_join_sender (sched_on s) (locked_out s))
    else Some s
  | _ => None
  end.
Definition join_step (s : Manager) : option Manager :=
  match main s with
  | P_idle => None
  | P_join_sender =>
    match sender s with None | Some S_return => Some (with_main P_join_monitor (with_sender None s)) | _ => None end
  | P_join_monitor =>
    match monitor s with None | Some M_return => Some (with_main P_join_scheduler (with_monitor None s)) | _ => None end
  | P_join_scheduler =>
    match looper s with None | Some L_return => Some (with_main P_scheduler (with_looper None s)) | _ => None end
  | P_scheduler =>
    Some (mkManager (cl s) (head s) (running_ s) (sender s) (monitor s) (looper s) P_idle false (locked_out s))
  end.

(** A call from the outside; a failure that is reported there is taken as one
    step. *)
Definition op_step (op : cluster_op) (s : Manager) : option Manager :=
  if op_node op <? MAX_CLUSTER_NODES then
    when_free s
      match cluster_run op (cl s) with
      | Done c => Some (with_cl c s)
      | Deadlock c =>
        Some (mkManager c (head s) (running_ s) (sender s) (monitor s) (looper s) (main s) (sched_on s) true)
      | UndefinedIndex => None
      end
  else None.

Inductive step_of :=
  | T_sender (now : Z * Z) | T_monitor (now : Z) | T_looper (now : nat -> Z)
  | T_start | T_shutdown | T_join | T_op (op : cluster_op).

Definition manager_step (e : step_of) (s : Manager) : option Manager :=
  match e with
  | T_sender now => p ← sender s; sender_step now p s
  | T_monitor now => p ← monitor s; monitor_step now p s
  | T_looper now => p ← looper s; looper_step now p s
  | T_start => start_step s
  | T_shutdown => shutdown_step s
  | T_join => join_step s
  | T_op op => op_step op s
  end.

Fixpoint manager_run (es : list step_of) (s : Manager) : option Manager :=
  match es with [] => Some s | e :: es => s ← manager_step e s; manager_run es s end.
End Steps.

(** ** Undisturbed passes *)

Section Undisturbed.
Context `{StdSort} (dial : sockets).

Lemma manager_run_app es es' s :
  manager_run dial (es ++ es') s = s ← manager_run dial es s; manager_run dial es' s.
Proof. revert s. induction es as [|e es IH]; intros s; [done|]. cbn. destruct (manager_step dial e s); [apply IH|done]. Qed.

(** [reaches k e s s']: some number of steps of one thread, with one reading of
    the clock. *)
Definition reaches (e : step_of) (s s' : Manager) : Prop := exists k, manager_run dial (replicate k e) s = Some s'.

Lemma reaches_refl e s : reaches e s s.
Proof. by exists 0. Qed.
Lemma reaches_step e s s1 s' : manager_step dial e s = Some s1 -> reaches e s1 s' -> reaches e s s'.
Proof. intros Hs [k Hk]. exists (S k). cbn. by rewrite Hs. Qed.

Lemma when_free_ok {A} s (x : option A) : mu_free s = true -> when_free s x = x.
Proof. unfold when_free. by intros ->. Qed.

Ltac take_mu H := rewrite when_free_ok by (unfold mu_free in *; cbn in *; rewrite ?H; done).

(** The parts of [handle_node_failure] put together. *)
Lemma failure_parts now failed c :
  failed < MAX_CLUSTER_NODES ->
  handle_node_failure now failed c =
  let c := evict_jobs now failed (clear_catalog failed (mark_offline failed c)) in
  Done (if is_leader c then elect_leader c else c).
Proof. intros Hf. unfold handle_node_failure. by rewrite (proj2 (Nat.leb_gt _ _)). Qed.

Lemma reaches_trans e s1 s2 s3 : reaches e s1 s2 -> reaches e s2 s3 -> reaches e s1 s3.
Proof.
  intros [k H1] [k' H2]. exists (k + k'). rewrite replicate_add, manager_run_app, H1. done.
Qed.

(** The monitor at [p] with the cluster [c], the rest as in [s]. *)
Definition monitor_at (c : Cluster) (p : monitor_pc) (s : Manager) : Manager := with_cl c (with_monitor (Some p) s).

Lemma monitor_at_same s p : monitor s = Some p -> s = monitor_at (cl s) p s.
Proof. destruct s. unfold monitor_at. cbn. by intros ->. Qed.

Lemma monitor_moves now s c p c' p' s' :
  monitor_step now p (monitor_at c p s) = Some (monitor_at c' p' s) ->
  reaches (T_monitor now) (monitor_at c' p' s) s' -> reaches (T_monitor now) (monitor_at c p s) s'.
Proof. intros Hs. by apply reaches_step. Qed.

Lemma free_at c p s : locked_out s = false -> (forall t l, p <> M_scan t l) -> mu_free (monitor_at c p s) = true.
Proof. unfold mu_free. cbn. intros -> Hp. destruct p as [| | |t l| | | | | | |]; try done. by destruct (Hp t l). Qed.

Lemma failure_undisturbed now failed l s c c1 :
  locked_out s = false -> handle_node_failure now failed c = Done c1 ->
  reaches (T_monitor now) (monitor_at c (M_mark now failed l) s) (monitor_at c1 (M_scan now l) s).
Proof.
  intros Hlo Hf. destruct (Nat.leb_spec MAX_CLUSTER_NODES failed) as [Hle|Hlt].
  { unfold handle_node_failure in Hf. by rewrite (proj2 (Nat.leb_le _ _) Hle) in Hf. }
  rewrite failure_parts in Hf by done. cbv zeta in Hf. injection Hf as Hf.
  apply (monitor_moves _ _ _ _ (mark_offline failed c) (M_catalog now failed l)).
  { unfold monitor_step. rewrite (proj2 (Nat.leb_gt _ _) Hlt), when_free_ok; [done|by apply free_at]. }
  apply (monitor_moves _ _ _ _ (clear_catalog failed (mark_offline failed c)) (M_evict now failed l)); [done|].
  set (c2 := evict_jobs _ _ _) in Hf. apply (monitor_moves _ _ _ _ c2 (M_leader now l)); [done|].
  assert (reaches (T_monitor now) (monitor_at c1 (M_relock now l) s) (monitor_at c1 (M_scan now l) s)) as Hre.
  { apply (monitor_moves _ _ _ _ c1 (M_scan now l)); [|apply reaches_refl].
    unfold monitor_step. rewrite when_free_ok; [done|by apply free_at]. }
  destruct (is_leader c2) eqn:El.
  - apply (monitor_moves _ _ _ _ c2 (M_elect now l)).
    { unfold monitor_step. rewrite when_free_ok by (by apply free_at). cbn. by rewrite El. }
    rewrite <- Hf in Hre |- *. by apply (monitor_moves _ _ _ _ (elect_leader c2) (M_relock now l)).
  - apply (monitor_moves _ _ _ _ c2 (M_relock now l)); [|by rewrite Hf].
    unfold monitor_step. rewrite when_free_ok by (by apply free_at). cbn. by rewrite El.
Qed.

Lemma scan_loop_undisturbed now l s c c' :
  locked_out s = false -> monitor_loop now l c = Done c' ->
  reaches (T_monitor now) (monitor_at c (M_scan now l) s) (monitor_at c' M_test s).
Proof.
  intros Hlo. revert c. induction l as [|i l IH]; intros c Hrun; cbn in Hrun.
  { injection Hrun as <-. apply (monitor_moves _ _ _ _ c M_test); [done|apply reaches_refl]. }
  destruct (i =? self c) eqn:Ei.
  { apply (monitor_moves _ _ _ _ c (M_scan now l)); [cbn; by rewrite Ei|by apply IH]. }
  destruct (nodes c !! i) as [n|] eqn:En; [|done].
  destruct (watched n && timed_out now c n) eqn:Ew.
  - destruct (handle_node_failure now (node_id n) c) as [c1| |] eqn:Ef; try done.
    apply (monitor_moves _ _ _ _ c (M_mark now (node_id n) l)); [cbn; rewrite Ei, En; cbn; by rewrite Ew|].
    eapply reaches_trans; [by apply failure_undisturbed|by apply IH].
  - apply (monitor_moves _ _ _ _ c (M_scan now l)); [cbn; rewrite Ei, En; cbn; by rewrite Ew|by apply IH].
Qed.

Lemma scan_undisturbed now l s c :
  locked_out s = false -> monitor s = Some (M_scan now l) -> monitor_loop now l (cl s) = Done c ->
  reaches (T_monitor now) s (with_cl c (with_monitor (Some M_test) s)).
Proof. intros Hlo Hm Hrun. rewrite (monitor_at_same s _ Hm) at 1. by apply scan_loop_undisturbed. Qed.

Lemma monitor_undisturbed now s c :
  locked_out s = false -> monitor s = Some M_sleep -> monitor_pass now (cl s) = Done c ->
  reaches (T_monitor now) s (with_cl c (with_monitor (Some M_test) s)).
Proof.
  intros Hlo Hm Hrun. eapply reaches_step; [cbn; rewrite Hm; done|].
  eapply reaches_step; [cbn; by take_mu Hlo|].
  by apply (scan_undisturbed now (seq 0 (total_nodes (cl s)))
    (with_monitor (Some (M_scan now (seq 0 (total_nodes (cl s))))) s)).
Qed.

Lemma node_info_lookup nid c info : node_info nid c = Some info -> nodes c !! nid = Some info.
Proof.
  unfold node_info. destruct (nid <? _); [|done]. destruct (nodes c !! nid) as [m|]; [|done]. cbn.
  by destruct (node_status m); intros; simplify_eq.
Qed.

Lemma visits_undisturbed now l s c :
  mu_free s = true -> sender s = Some (S_visit l) -> sender_loop dial (fun _ => now) l (cl s) = Done c ->
  reaches (T_sender now) s (with_cl c (with_sender (Some S_sleep) s)).
Proof.
  revert s. induction l as [|nid l IH]; intros s Hmu Hs Hrun; cbn in Hrun.
  - eapply reaches_step; [cbn; rewrite Hs; done|]. injection Hrun as <-. apply reaches_refl.
  - destruct (nid =? self (cl s)) eqn:Ei.
    { eapply reaches_step; [cbn; rewrite Hs; cbn; by rewrite Ei|].
      by apply (IH (with_sender (Some (S_visit l)) s)). }
    destruct (node_info nid (cl s)) as [info|] eqn:En.
    2:{ eapply reaches_step; [cbn; rewrite Hs; cbn; rewrite Ei, En; by take_mu Hmu|].
        by apply (IH (with_sender (Some (S_visit l)) s)). }
    pose proof (node_info_lookup _ _ _ En) as Hlk.
    eapply reaches_step; [cbn; rewrite Hs; cbn; rewrite Ei, En; by take_mu Hmu|].
    eapply reaches_step; [cbn; by rewrite Hlk|].
    destruct (ping dial info) eqn:Ep; [|by apply (IH (with_sender (Some (S_visit l)) s))].
    destruct (handle_heartbeat _ _ _) as [c1| |] eqn:Eh; try done.
    eapply reaches_step; [cbn; by rewrite Hlk|].
    eapply reaches_step; [cbn; take_mu Hmu; by rewrite Eh|].
    by apply (IH (with_cl c1 (with_sender (Some (S_visit l)) s))).
Qed.

Lemma sender_undisturbed now s c :
  mu_free s = true -> sender s = Some S_nodes -> sender_pass dial (fun _ => now) (cl s) = Done c ->
  reaches (T_sender now) s (with_cl c (with_sender (Some S_sleep) s)).
Proof.
  intros Hmu Hs Hrun. eapply reaches_step; [cbn; rewrite Hs; cbn; by take_mu Hmu|].
  by apply (visits_undisturbed now (online_nodes (cl s)) (with_sender (Some (S_visit (online_nodes (cl s)))) s)).
Qed.

(** The loads the loop builds are those of the node table. *)
Lemma infos_undisturbed now online l loads s :
  mu_free s = true -> looper s = Some (L_info online l loads) ->
  reaches (T_looper now) s
    (with_looper (Some (L_tick online (foldl (fun loads nid =>
       match node_info nid (cl s) with Some n => load_of n nid loads | None => loads end) loads l))) s).
Proof.
  revert loads s. induction l as [|nid l IH]; intros loads s Hmu Hl.
  - eapply reaches_step; [cbn; rewrite Hl; done|]. apply reaches_refl.
  - eapply reaches_step; [cbn; rewrite Hl; cbn; by take_mu Hmu|].
    apply (IH _ (with_looper (Some (L_info online l _)) s)); done.
Qed.

Lemma lookup_loads c l loads i :
  (forall nid, nid ∈ l -> nid < MAX_CLUSTER_NODES) ->
  foldl (fun loads nid => match node_info nid c with Some n => load_of n nid loads | None => loads end) loads l !! i =
  (fun x => match node_info i c with
            | Some n => if bool_decide (i ∈ l) then mkLoad (u64 (total_memory n - free_memory n)) (load_jobs x) else x
            | None => x
            end) <$> loads !! i.
Proof.
  revert loads. induction l as [|nid l IH]; intros loads Hl; cbn.
  - destruct (loads !! i); [|done]. cbn. by case_match.
  - rewrite IH by set_solver. destruct (decide (i = nid)) as [->|Hne].
    + rewrite (bool_decide_eq_true_2 (nid ∈ nid :: l)) by left.
      destruct (node_info nid c) as [n|]; [|done]. unfold load_of. rewrite list_lookup_alter_eq.
      destruct (loads !! nid); [|done]. cbn. by case_bool_decide.
    + erewrite (bool_decide_ext (i ∈ nid :: l) (i ∈ l)) by set_solver.
      assert ((match node_info nid c with Some n => load_of n nid loads | None => loads end) !! i = loads !! i) as ->; [|done].
      destruct (node_info nid c); [|done]. by apply list_lookup_alter_ne.
Qed.

Lemma loads_table c :
  length (nodes c) = MAX_CLUSTER_NODES ->
  foldl (fun loads nid => match node_info nid c with Some n => load_of n nid loads | None => loads end) no_loads
    (online_nodes c) = node_loads c.
Proof.
  intros Hlen. apply list_eq. intros i. rewrite lookup_loads.
  2:{ intros nid (n & Hn & _)%(online_nodes_spec _ _ Hlen). apply lookup_lt_Some in Hn. lia. }
  unfold node_loads, no_loads. rewrite list_lookup_fmap. destruct (decide (i < MAX_CLUSTER_NODES)) as [Hi|Hi].
  - destruct (node_exists c i Hlen Hi) as [n Hn]. rewrite lookup_replicate_2 by done. rewrite Hn. cbn. f_equal.
    destruct (is_online n) eqn:Eo.
    + rewrite (node_info_online c i n Hlen Hn Eo). rewrite bool_decide_eq_true_2; [done|]. apply online_nodes_spec; [done|]. by exists n.
    + rewrite bool_decide_eq_false_2; [by destruct (node_info i c)|]. intros (m & Hm & Hon)%(online_nodes_spec _ _ Hlen). congruence.
  - rewrite !lookup_ge_None_2 by (rewrite ?length_replicate; lia). done.
Qed.

Lemma looper_undisturbed now s c :
  mu_free s = true -> length (nodes (cl s)) = MAX_CLUSTER_NODES -> looper s = Some L_nodes ->
  scheduler_pass now (cl s) = Some c -> reaches (T_looper now) s (with_cl c (with_looper (Some L_test) s)).
Proof.
  intros Hmu Hlen Hl Hrun. eapply reaches_step; [cbn; rewrite Hl; cbn; by take_mu Hmu|].
  set (s1 := with_looper _ s). destruct (infos_undisturbed now (online_nodes (cl s)) (online_nodes (cl s)) no_loads s1) as [k Hk]; [done..|].
  cbn in Hk. rewrite loads_table in Hk by done. exists (k + 1). rewrite replicate_add, manager_run_app, Hk. cbn.
  unfold scheduler_pass in Hrun. destruct (schedule_tick _ _ _ _); [|done]. by injection Hrun as <-.
Qed.
End Undisturbed.

(** ** Well-formed states *)

Definition small (n : NodeInfo) : Prop := node_id n < MAX_CLUSTER_NODES.

Record wf_cluster (c : Cluster) : Prop := {
  wc_length : length (nodes c) = MAX_CLUSTER_NODES;
  wc_ids : Forall small (nodes c);
  wc_total : total_nodes c <= MAX_CLUSTER_NODES
}.

(** Some of the eight slots. *)
Definition below (l : list nat) : Prop := Forall (fun i => i < MAX_CLUSTER_NODES) l /\ length l <= MAX_CLUSTER_NODES.

Lemma below_cons i l : below (i :: l) -> i < MAX_CLUSTER_NODES /\ below l.
Proof. intros [[Hi Hl]%Forall_cons Hlen]. cbn in Hlen. split; [done|]. split; [done|lia]. Qed.

Definition wf_sender (p : sender_pc) : Prop :=
  match p with
  | S_visit l => below l
  | S_ping nid l | S_copy nid l => nid < MAX_CLUSTER_NODES /\ below l
  | S_report info l => small info /\ below l
  | _ => True
  end.
Definition wf_monitor (p : monitor_pc) : Prop :=
  match p with
  | M_scan _ l | M_leader _ l | M_elect _ l | M_relock _ l => below l
  | M_mark _ failed l | M_catalog _ failed l | M_evict _ failed l => failed < MAX_CLUSTER_NODES /\ below l
  | _ => True
  end.

Definition wf_looper (p : sched_pc) : Prop := match p with L_info _ l _ => below l | _ => True end.

Definition opt {A} (P : A -> Prop) (o : option A) : Prop := match o with Some x => P x | None => True end.

Record wf (s : Manager) : Prop := {
  wf_cl : wf_cluster (cl s);
  wf_snd : opt wf_sender (sender s);
  wf_mon : opt wf_monitor (monitor s);
  wf_loop : opt wf_looper (looper s)
}.

(** Clusters that differ in the statuses, reports and the rest. *)
Lemma wf_cluster_nodes c c' :
  wf_cluster c -> length (nodes c') = length (nodes c) -> Forall small (nodes c') -> total_nodes c' = total_nodes c ->
  wf_cluster c'.
Proof. intros [H1 H2 H3] El Hs Et. split; [by rewrite El|done|by rewrite Et]. Qed.

Lemma small_alter f i ns : (forall n, node_id (f n) = node_id n) -> Forall small ns -> Forall small (alter f i ns).
Proof. intros Hf Hs. apply Forall_alter; [done|]. intros n _. unfold small. by rewrite Hf. Qed.

Lemma if_nodes (b : bool) (c c' : Cluster) : nodes c = nodes c' -> nodes (if b then c else c') = nodes c'.
Proof. by destruct b. Qed.
Lemma if_total (b : bool) (c c' : Cluster) : total_nodes c = total_nodes c' -> total_nodes (if b then c else c') = total_nodes c'.
Proof. by destruct b. Qed.

Lemma heartbeat_wf now info c c' : wf_cluster c -> small info -> handle_heartbeat now info c = Done c' -> wf_cluster c'.
Proof.
  intros Hwf Hi. unfold handle_heartbeat. destruct (nodes c !! node_id info) as [n|] eqn:En; [|done].
  pose proof (Forall_lookup_1 _ _ _ _ (wc_ids _ Hwf) En) as Hn.
  set (e := match node_status n with UNKNOWN => _ | _ => n end).
  assert (small e) as He by (unfold e; by destruct (node_status n)).
  destruct (is_online _); intros [= <-]; (eapply wf_cluster_nodes; [exact Hwf|apply length_insert| |done]);
    cbn; (apply Forall_insert; [apply Hwf|exact He]).
Qed.

Lemma op_wf op c c' : wf_cluster c -> op_node op < MAX_CLUSTER_NODES ->
  (cluster_run op c = Done c' \/ cluster_run op c = Deadlock c') -> wf_cluster c'.
Proof.
  intros Hwf Hop Hrun. destruct op as [now info|id|now info|now id]; cbn in *.
  - destruct Hrun as [Hrun|Hrun]; unfold handle_join in Hrun; rewrite (proj2 (Nat.leb_gt _ _)) in Hrun by done; [|done].
    injection Hrun as <-. eapply wf_cluster_nodes; [exact Hwf|apply length_insert| |done]. cbn.
    apply Forall_insert; [apply Hwf|exact Hop].
  - unfold handle_leave in Hrun. destruct (nodes c !! id) as [n|]; [|by destruct Hrun].
    assert (wf_cluster (elect_leader (clear_catalog id (mark_offline id c)))) as Hwf'.
    { eapply wf_cluster_nodes; [exact Hwf|apply length_alter| |done]. by apply small_alter, Hwf. }
    unfold clear_catalog, mark_offline in Hwf'. destruct (node_status n); cbn zeta in Hrun; try (case_match; destruct Hrun; by simplify_eq).
    destruct Hrun; by simplify_eq.
  - destruct Hrun as [Hrun|Hrun]; [by eapply heartbeat_wf|].
    unfold handle_heartbeat in Hrun. by repeat case_match.
  - destruct Hrun as [Hrun|Hrun]; rewrite failure_parts in Hrun by done; [|done]. injection Hrun as <-.
    eapply wf_cluster_nodes; [exact Hwf| | |].
    + rewrite if_nodes by done. apply length_alter.
    + rewrite if_nodes by done. by apply small_alter, Hwf.
    + by rewrite if_total.
Qed.

Lemma online_length c : length (online_nodes c) <= MAX_CLUSTER_NODES.
Proof. unfold online_nodes. etransitivity; [apply filter_length_le|]. by rewrite length_seq. Qed.

Lemma below_online c : below (online_nodes c).
Proof.
  split; [|apply online_length]. apply Forall_forall. intros i Hi. unfold online_nodes in Hi.
  apply list_elem_of_In, filter_In in Hi as [Hi%in_seq _]. lia.
Qed.

Section Invariant.
Context `{StdSort} (dial : sockets).

Lemma sender_wf now p s s' : wf s -> sender s = Some p -> sender_step dial now p s = Some s' -> wf s'.
Proof.
  intros [Hc Hs Hm Hlp] Hp Hstep. rewrite Hp in Hs. cbn in Hs.
  assert (forall p', wf_sender p' -> wf (with_sender (Some p') s)) as Hto by (by split).
  destruct p as [| |[|nid l]|nid l|nid l|info l| |]; cbn in Hstep; unfold when_free in Hstep.
  - injection Hstep as <-. apply Hto. by destruct (running_ s).
  - destruct (mu_free s); [|done]. injection Hstep as <-. apply Hto, below_online.
  - injection Hstep as <-. by apply Hto.
  - apply below_cons in Hs as [Hn Hl]. destruct (nid =? _); [injection Hstep as <-; by apply Hto|].
    destruct (mu_free s); [|done]. injection Hstep as <-. apply Hto. by destruct (node_info nid (cl s)).
  - destruct (nodes (cl s) !! nid) as [n|]; [|done]. injection Hstep as <-. apply Hto.
    destruct (ping dial n); [done|apply Hs].
  - destruct (nodes (cl s) !! nid) as [n|] eqn:En; [|done]. injection Hstep as <-. apply Hto. split; [|apply Hs].
    exact (Forall_lookup_1 _ _ _ _ (wc_ids _ Hc) En).
  - destruct (mu_free s); [|done]. destruct (handle_heartbeat _ _ _) as [c| |] eqn:Eh; [|done..].
    injection Hstep as <-. split; [|apply Hs|done|done]. eapply heartbeat_wf; [exact Hc|apply Hs|exact Eh].
  - injection Hstep as <-. by apply Hto.
  - done.
Qed.

Lemma monitor_wf now p s s' : wf s -> monitor s = Some p -> monitor_step now p s = Some s' -> wf s'.
Proof.
  intros [Hc Hs Hm Hlp] Hp Hstep. rewrite Hp in Hm. cbn in Hm.
  assert (forall c p', wf_cluster c -> wf_monitor p' -> wf (with_cl c (with_monitor (Some p') s))) as Hto by (by split).
  assert (forall p', wf_monitor p' -> wf (with_monitor (Some p') s)) as Hto' by (by split).
  destruct p as [| |t|t [|i l]|t f l|t f l|t f l|t l|t l|t l|]; cbn in Hstep; unfold when_free in Hstep.
  - injection Hstep as <-. apply Hto'. by destruct (running_ s).
  - injection Hstep as <-. by apply Hto'.
  - destruct (mu_free s); [|done]. injection Hstep as <-. apply Hto'. pose proof (wc_total _ Hc).
    split; [|by rewrite length_seq]. apply Forall_forall. intros i Hi%elem_of_seq. lia.
  - injection Hstep as <-. by apply Hto'.
  - apply below_cons in Hm as [Hi Hl]. destruct (i =? _); [injection Hstep as <-; by apply Hto'|].
    destruct (nodes (cl s) !! i) as [n|] eqn:En; [|done]. injection Hstep as <-. apply Hto'.
    destruct (_ && _); [|done]. split; [|done]. exact (Forall_lookup_1 _ _ _ _ (wc_ids _ Hc) En).
  - destruct (_ <=? _); [done|]. destruct (mu_free s); [|done]. injection Hstep as <-. apply Hto; [|done].
    eapply wf_cluster_nodes; [exact Hc|apply length_alter|by apply small_alter, Hc|done].
  - injection Hstep as <-. apply Hto; [|done]. by destruct Hc.
  - injection Hstep as <-. apply Hto; [|apply Hm]. by destruct Hc.
  - destruct (mu_free s); [|done]. injection Hstep as <-. apply Hto'. by destruct (is_leader (cl s)).
  - injection Hstep as <-. apply Hto; [|done]. by destruct Hc.
  - destruct (mu_free s); [|done]. injection Hstep as <-. by apply Hto'.
  - done.
Qed.

Lemma looper_wf now p s s' : wf s -> looper s = Some p -> looper_step now p s = Some s' -> wf s'.
Proof.
  intros [Hc Hs Hm Hlp] Hp Hstep. rewrite Hp in Hlp. cbn in Hlp.
  assert (forall c p', wf_cluster c -> wf_looper p' -> wf (with_cl c (with_looper (Some p') s))) as Hto by (by split).
  assert (forall p', wf_looper p' -> wf (with_looper (Some p') s)) as Hto' by (by split).
  destruct p as [| | |online [|nid l] loads|online loads|]; cbn [looper_step] in Hstep; unfold when_free in Hstep.
  - injection Hstep as <-. apply Hto'. by destruct (running_ s).
  - injection Hstep as <-. by apply Hto'.
  - destruct (mu_free s); [|done]. injection Hstep as <-. apply Hto', below_online.
  - injection Hstep as <-. by apply Hto'.
  - destruct (mu_free s); [|done]. injection Hstep as <-. apply Hto'. by apply below_cons in Hlp as [_ Hlp].
  - destruct (schedule_tick _ _ _ _); [|done]. injection Hstep as <-. apply Hto; [|done]. by destruct Hc.
  - done.
Qed.

Lemma manager_step_wf e s s' : wf s -> manager_step dial e s = Some s' -> wf s'.
Proof.
  intros Hwf Hstep. destruct e as [now|now|now| | | |op]; cbn in Hstep.
  - destruct (sender s) as [p|] eqn:E; [|done]. by eapply sender_wf.
  - destruct (monitor s) as [p|] eqn:E; [|done]. by eapply monitor_wf.
  - destruct (looper s) as [p|] eqn:E; [|done]. by eapply looper_wf.
  - unfold start_step in Hstep. destruct Hwf as [Hc Hs Hm Hl], (main s); try done. destruct (running_ s); injection Hstep as <-; [done|].
    split; cbn; [done|by destruct (head s)..].
  - unfold shutdown_step in Hstep. destruct Hwf, (main s); try done. destruct (running_ s); by injection Hstep as <-.
  - unfold join_step in Hstep. destruct Hwf. repeat case_match; simplify_eq; by split.
  - unfold op_step, when_free in Hstep. destruct (Nat.ltb_spec (op_node op) MAX_CLUSTER_NODES); [|done].
    destruct (mu_free s); [|done]. destruct Hwf as [Hc Hs Hm Hl].
    destruct (cluster_run op (cl s)) as [c|c|] eqn:E; [| |done]; injection Hstep as <-; (split; [|done..]);
      (eapply op_wf; [exact Hc|done|]); [by left|by right].
Qed.

Lemma manager_run_wf es s s' : wf s -> manager_run dial es s = Some s' -> wf s'.
Proof.
  revert s. induction es as [|e es IH]; intros s Hwf Hrun; cbn in Hrun; [by simplify_eq|].
  destruct (manager_step dial e s) as [s1|] eqn:E; [|done]. eapply IH; [by eapply manager_step_wf|done].
Qed.

(** ** What is left to do after [shutdown] *)

Definition sender_left (p : sender_pc) : nat :=
  match p with
  | S_return => 0 | S_test => 1 | S_sleep => 2 | S_visit l => 3 + 4 * length l
  | S_report _ l => 4 + 4 * length l | S_copy _ l => 5 + 4 * length l | S_ping _ l => 6 + 4 * length l
  | S_nodes => 4 + 4 * MAX_CLUSTER_NODES
  end.
Definition monitor_left (total : nat) (p : monitor_pc) : nat :=
  match p with
  | M_return => 0 | M_test => 1 | M_scan _ l => 2 + 8 * length l | M_relock _ l => 3 + 8 * length l
  | M_elect _ l => 4 + 8 * length l | M_leader _ l => 5 + 8 * length l | M_evict _ _ l => 6 + 8 * length l
  | M_catalog _ _ l => 7 + 8 * length l | M_mark _ _ l => 8 + 8 * length l
  | M_lock _ => 3 + 8 * total | M_sleep => 4 + 8 * total
  end.
Definition looper_left (p : sched_pc) : nat :=
  match p with
  | L_return => 0 | L_test => 1 | L_tick _ _ => 2 | L_info _ l _ => 3 + length l
  | L_nodes => 4 + MAX_CLUSTER_NODES | L_sleep => 5 + MAX_CLUSTER_NODES
  end.
Definition main_left (p : main_pc) : nat :=
  match p with P_join_sender => 4 | P_join_monitor => 3 | P_join_scheduler => 2 | P_scheduler => 1 | P_idle => 0 end.

(** The steps of the threads of the manager that are left once [running_] is
    false. *)
Definition left_ (s : Manager) : nat :=
  from_option sender_left 0 (sender s) + from_option (monitor_left (total_nodes (cl s))) 0 (monitor s)
  + from_option looper_left 0 (looper s) + main_left (main s).

(** A call from the outside is not a step of the manager. *)
Definition of_manager (e : step_of) : bool := match e with T_op _ => false | _ => true end.

Lemma op_total op c c' :
  cluster_run op c = Done c' \/ cluster_run op c = Deadlock c' -> total_nodes c' = total_nodes c.
Proof.
  destruct op as [now info|id|now info|now id]; cbn.
  - unfold handle_join. case_match; [by intros []|]. intros []; by simplify_eq.
  - unfold handle_leave. destruct (nodes c !! id) as [n|]; [|by intros []].
    destruct (node_status n); cbn zeta; try case_match; intros []; by simplify_eq.
  - unfold handle_heartbeat. destruct (nodes c !! _) as [n|]; [|by intros []]. case_match; intros []; by simplify_eq.
  - unfold handle_node_failure. case_match; [by intros []|]. intros []; simplify_eq. by rewrite if_total.
Qed.

(** Every step of a thread takes something off what it has left. *)
Lemma sender_decreases now p s s' :
  sender_step dial now p s = Some s' ->
  exists c p', s' = with_cl c (with_sender (Some p') s) /\ total_nodes c = total_nodes (cl s) /\ (running_ s = false -> sender_left p' < sender_left p).
Proof.
  intros Hstep. pose proof (online_length (cl s) : _ <= 8).
  assert (forall p', (running_ s = false -> sender_left p' < sender_left p) -> Some (with_sender (Some p') s) = Some s' ->
    exists c p', s' = with_cl c (with_sender (Some p') s) /\ total_nodes c = total_nodes (cl s) /\ (running_ s = false -> sender_left p' < sender_left p)) as Hto.
  { intros p' Hlt [= <-]. by exists (cl s), p'. }
  destruct p as [| |[|nid l]|nid l|nid l|info l| |]; cbn [sender_step] in Hstep; unfold when_free in Hstep.
  - eapply Hto; [|exact Hstep]. intros ->. cbn. lia.
  - destruct (mu_free s); [|done]. eapply Hto; [|exact Hstep]. intros _. cbn. lia.
  - eapply Hto; [|exact Hstep]. intros _. cbn. lia.
  - destruct (nid =? self (cl s)); [eapply Hto; [|exact Hstep]; intros _; cbn; lia|]. destruct (mu_free s); [|done].
    eapply Hto; [|exact Hstep]. intros _; destruct (node_info nid (cl s)); cbn; lia.
  - destruct (nodes (cl s) !! nid) as [n|]; [|done]. eapply Hto; [|exact Hstep]. destruct (ping dial n); intros _; cbn; lia.
  - destruct (nodes (cl s) !! nid) as [n|]; [|done]. eapply Hto; [|exact Hstep]. intros _. cbn. lia.
  - destruct (mu_free s); [|done]. destruct (handle_heartbeat _ _ _) as [c| |] eqn:Eh; [|done..]. injection Hstep as <-.
    exists c, (S_visit l). split; [done|]. split; [|intros _; cbn; lia]. apply (op_total (CHeartbeat now.2 info)). by left.
  - eapply Hto; [|exact Hstep]. intros _. cbn. lia.
  - done.
Qed.

Lemma monitor_decreases now p s s' :
  monitor_step now p s = Some s' ->
  exists c p', s' = with_cl c (with_monitor (Some p') s) /\ total_nodes c = total_nodes (cl s) /\
    (running_ s = false -> monitor_left (total_nodes (cl s)) p' < monitor_left (total_nodes (cl s)) p).
Proof.
  intros Hstep.
  assert (forall c p', total_nodes c = total_nodes (cl s) ->
    (running_ s = false -> monitor_left (total_nodes (cl s)) p' < monitor_left (total_nodes (cl s)) p) -> Some (with_cl c (with_monitor (Some p') s)) = Some s' ->
    exists c p', s' = with_cl c (with_monitor (Some p') s) /\ total_nodes c = total_nodes (cl s) /\
      (running_ s = false -> monitor_left (total_nodes (cl s)) p' < monitor_left (total_nodes (cl s)) p)) as Hto.
  { intros c p' Ht Hlt [= <-]. by exists c, p'. }
  destruct p as [| |t|t [|i l]|t f l|t f l|t f l|t l|t l|t l|]; cbn [monitor_step] in Hstep; unfold when_free in Hstep.
  - eapply (Hto (cl s)); [done| |exact Hstep]. intros ->. cbn. lia.
  - apply (Hto (cl s) (M_lock now)); [done|intros _; cbn; lia|exact Hstep].
  - destruct (mu_free s); [|done]. eapply (Hto (cl s)); [done| |exact Hstep]. intros _. cbn. rewrite length_seq. lia.
  - apply (Hto (cl s) M_test); [done|intros _; cbn; lia|exact Hstep].
  - destruct (i =? self (cl s)); [apply (Hto (cl s) (M_scan t l)); [done|intros _; cbn; lia|exact Hstep]|].
    destruct (nodes (cl s) !! i) as [n|]; [|done]. eapply (Hto (cl s)); [done| |exact Hstep]. destruct (_ && _); intros _; cbn; lia.
  - destruct (_ <=? _), (mu_free s); try done. eapply (Hto (mark_offline f (cl s))); [done| |exact Hstep]. intros _. cbn. lia.
  - eapply (Hto (clear_catalog f (cl s))); [done| |exact Hstep]. intros _. cbn. lia.
  - eapply (Hto (evict_jobs now f (cl s))); [done| |exact Hstep]. intros _. cbn. lia.
  - destruct (mu_free s); [|done]. eapply (Hto (cl s)); [done| |exact Hstep]. destruct (is_leader (cl s)); intros _; cbn; lia.
  - eapply (Hto (elect_leader (cl s))); [done| |exact Hstep]. intros _. cbn. lia.
  - destruct (mu_free s); [|done]. eapply (Hto (cl s)); [done| |exact Hstep]. intros _. cbn. lia.
  - done.
Qed.

Lemma looper_decreases now p s s' :
  looper_step now p s = Some s' ->
  exists c p', s' = with_cl c (with_looper (Some p') s) /\ total_nodes c = total_nodes (cl s) /\ (running_ s = false -> looper_left p' < looper_left p).
Proof.
  intros Hstep. pose proof (online_length (cl s) : _ <= 8).
  assert (forall p', (running_ s = false -> looper_left p' < looper_left p) -> Some (with_looper (Some p') s) = Some s' ->
    exists c p', s' = with_cl c (with_looper (Some p') s) /\ total_nodes c = total_nodes (cl s) /\ (running_ s = false -> looper_left p' < looper_left p)) as Hto.
  { intros p' Hlt [= <-]. by exists (cl s), p'. }
  destruct p as [| | |online [|nid l] loads|online loads|]; cbn [looper_step] in Hstep; unfold when_free in Hstep.
  - eapply Hto; [|exact Hstep]. intros ->. cbn. lia.
  - eapply Hto; [|exact Hstep]. intros _. cbn. lia.
  - destruct (mu_free s); [|done]. eapply Hto; [|exact Hstep]. intros _. cbn. unfold MAX_CLUSTER_NODES. lia.
  - eapply Hto; [|exact Hstep]. intros _. cbn. lia.
  - destruct (mu_free s); [|done]. eapply Hto; [|exact Hstep]. intros _. cbn. lia.
  - destruct (schedule_tick _ _ _ _) as [k x y|]; [|done]. injection Hstep as <-.
    exists (set_scheduler x (cl s)), L_test. split; [done|]. split; [done|intros _; cbn; lia].
  - done.
Qed.

Lemma step_left e s s' :
  running_ s = false -> main s <> P_idle -> manager_step dial e s = Some s' ->
  running_ s' = false /\ (if of_manager e then left_ s' < left_ s else left_ s' = left_ s).
Proof.
  intros Hr Hm Hstep. unfold left_. destruct e as [now|now|now| | | |op]; cbn [manager_step of_manager] in *.
  - destruct (sender s) as [p|] eqn:E; [|done]. apply sender_decreases in Hstep as (c & p' & -> & Ht & Hlt).
    split; [done|]. specialize (Hlt Hr). cbn. rewrite Ht. lia.
  - destruct (monitor s) as [p|] eqn:E; [|done]. apply monitor_decreases in Hstep as (c & p' & -> & Ht & Hlt).
    split; [done|]. specialize (Hlt Hr). cbn. rewrite Ht. lia.
  - destruct (looper s) as [p|] eqn:E; [|done]. apply looper_decreases in Hstep as (c & p' & -> & Ht & Hlt).
    split; [done|]. specialize (Hlt Hr). cbn. rewrite Ht. lia.
  - unfold start_step in Hstep. by destruct (main s).
  - unfold shutdown_step in Hstep. by destruct (main s).
  - unfold join_step in Hstep. destruct (main s) eqn:E; try done; repeat case_match; simplify_eq/=; (split; [done|]);
      cbn; rewrite ?E; cbn; lia.
  - unfold op_step, when_free in Hstep. destruct (_ <? _), (mu_free s); try done.
    destruct (cluster_run op (cl s)) as [c|c|] eqn:Eo; [| |done]; injection Hstep as <-; (split; [done|]); cbn;
      rewrite (op_total op (cl s) c); auto.
Qed.

Lemma left_bound s : wf s -> left_ s <= 127.
Proof.
  intros [[_ _ Ht] Hs Hm Hl]. unfold left_.
  assert (from_option sender_left 0 (sender s) <= 38).
  { destruct (sender s) as [p|]; cbn in *; [|lia]. destruct p; cbn in *; unfold below, MAX_CLUSTER_NODES in *; lia. }
  assert (from_option (monitor_left (total_nodes (cl s))) 0 (monitor s) <= 72).
  { destruct (monitor s) as [p|]; cbn in *; [|lia]. destruct p; cbn in *; unfold below, MAX_CLUSTER_NODES in *; lia. }
  assert (from_option looper_left 0 (looper s) <= 13).
  { destruct (looper s) as [p|]; cbn in *; [|lia]. destruct p; cbn in *; unfold below, MAX_CLUSTER_NODES in *; lia. }
  destruct (main s); cbn; lia.
Qed.

(** Which threads have been joined, and what [running_] says. *)
Definition joined (s : Manager) : Prop :=
  match main s with
  | P_idle => running_ s = false -> sender s = None /\ monitor s = None /\ looper s = None /\ sched_on s = false
  | P_join_sender => running_ s = false
  | P_join_monitor => running_ s = false /\ sender s = None
  | P_join_scheduler => running_ s = false /\ sender s = None /\ monitor s = None
  | P_scheduler => running_ s = false /\ sender s = None /\ monitor s = None /\ looper s = None
  end.

Lemma thread_joined s s' :
  running_ s' = running_ s -> main s' = main s -> sched_on s' = sched_on s ->
  (sender s = None -> sender s' = None) -> (monitor s = None -> monitor s' = None) -> (looper s = None -> looper s' = None) ->
  joined s -> joined s'.
Proof. unfold joined. intros -> -> ->. destruct (main s); naive_solver. Qed.


Lemma step_joined e s s' : joined s -> manager_step dial e s = Some s' -> joined s'.
Proof.
  intros Hj Hstep. destruct e as [now|now|now| | | |op]; cbn [manager_step] in Hstep.
  - destruct (sender s) as [p|] eqn:E; [|done]. apply sender_decreases in Hstep as (c & p' & -> & _).
    by apply (thread_joined s); cbn; rewrite ?E.
  - destruct (monitor s) as [p|] eqn:E; [|done]. apply monitor_decreases in Hstep as (c & p' & -> & _).
    by apply (thread_joined s); cbn; rewrite ?E.
  - destruct (looper s) as [p|] eqn:E; [|done]. apply looper_decreases in Hstep as (c & p' & -> & _).
    by apply (thread_joined s); cbn; rewrite ?E.
  - unfold start_step in Hstep. destruct (main s) eqn:E; try done. destruct (running_ s); injection Hstep as <-; [done|].
    unfold joined. cbn. discriminate.
  - unfold shutdown_step in Hstep. destruct (main s) eqn:E; try done. destruct (running_ s); by injection Hstep as <-.
  - unfold join_step in Hstep. unfold joined in *. destruct (main s); try done.
    + by destruct (sender s) as [[]|]; simplify_eq/=.
    + destruct Hj as (? & ?). by destruct (monitor s) as [[]|]; simplify_eq/=.
    + destruct Hj as (? & ? & ?). by destruct (looper s) as [[]|]; simplify_eq/=.
    + simplify_eq/=. naive_solver.
  - unfold op_step, when_free in Hstep. destruct (_ <? _), (mu_free s); try done.
    destruct (cluster_run op (cl s)) as [c|c|]; [| |done]; injection Hstep as <-; by apply (thread_joined s).
Qed.

(** ** Progress of a shutdown *)

Definition can_step (s : Manager) : Prop := exists e s1, of_manager e = true /\ manager_step dial e s = Some s1.

Lemma sender_can_step p s :
  wf s -> mu_free s = true -> sender s = Some p -> p <> S_return -> can_step s.
Proof.
  intros [[Hlen Hids Htot] Hs _ _] Hmu Hp Hne. exists (T_sender (0, 0)%Z). cbn [manager_step]. rewrite Hp in *. cbn [mbind option_bind].
  destruct p as [| |[|nid l]|nid l|nid l|info l| |]; cbn [sender_step opt wf_sender] in *; rewrite ?when_free_ok by done;
    try done; try (eexists; split; reflexivity).
  - destruct (nid =? _); (eexists; split; reflexivity).
  - destruct Hs as [Hn _]. rewrite <- Hlen in Hn. apply lookup_lt_is_Some in Hn as [n ->]. (eexists; split; reflexivity).
  - destruct Hs as [Hn _]. rewrite <- Hlen in Hn. apply lookup_lt_is_Some in Hn as [n ->]. (eexists; split; reflexivity).
  - destruct Hs as [Hn _]. unfold small in Hn. rewrite <- Hlen in Hn. apply lookup_lt_is_Some in Hn as [n Hn].
    unfold handle_heartbeat. rewrite Hn. cbv zeta. destruct (is_online _); (eexists; split; reflexivity).
Qed.

Lemma monitor_can_step p s :
  wf s -> locked_out s = false -> monitor s = Some p -> p <> M_return -> can_step s.
Proof.
  intros [[Hlen Hids Htot] _ Hm _] Hlo Hp Hne. exists (T_monitor 0%Z). cbn [manager_step]. rewrite Hp in *. cbn [mbind option_bind].
  assert (match p with M_scan _ _ => False | _ => True end -> mu_free s = true) as Hmu.
  { unfold mu_free. rewrite Hlo, Hp. by destruct p. }
  destruct p as [| |t|t [|i l]|t f l|t f l|t f l|t l|t l|t l|]; cbn [monitor_step opt wf_monitor] in *;
    rewrite ?when_free_ok by (by apply Hmu); try done; try (eexists; split; reflexivity).
  - apply below_cons in Hm as [Hi _]. destruct (i =? _); [(eexists; split; reflexivity)|]. rewrite <- Hlen in Hi.
    apply lookup_lt_is_Some in Hi as [n ->]. (eexists; split; reflexivity).
  - destruct Hm as [Hf _]. rewrite (proj2 (Nat.leb_gt _ _)) by done. (eexists; split; reflexivity).
Qed.

Lemma sender_returned p : p = S_return \/ p <> S_return.
Proof. destruct p; by (left + right). Qed.
Lemma monitor_returned p : p = M_return \/ p <> M_return.
Proof. destruct p; by (left + right). Qed.

(** Nothing stands in the way of a thread but the mutex, and who has the mutex
    can go on; only a tick of the scheduler may be undefined. *)
Lemma shutdown_progress now s :
  wf s -> joined s -> main s <> P_idle -> locked_out s = false ->
  can_step s \/
  exists online loads, looper s = Some (L_tick online loads) /\
    exists k x y, schedule_tick online now loads (scheduler (cl s)) = Undefined k x y.
Proof.
  intros Hwf Hj Hm Hlo. unfold joined in Hj.
  assert (forall s1, manager_step dial T_join s = Some s1 -> can_step s) as Hjoin by (intros s1 E; by exists T_join, s1).
  destruct (main s) eqn:Em; [done|..].
  - left. destruct (sender s) as [p|] eqn:Es; [|eapply Hjoin; cbn; unfold join_step; by rewrite Em, Es].
    destruct (sender_returned p) as [->|Hne]; [eapply Hjoin; cbn; unfold join_step; by rewrite Em, Es|].
    destruct (mu_free s) eqn:Emu; [by eapply sender_can_step|].
    unfold mu_free in Emu. rewrite Hlo in Emu. destruct (monitor s) as [q|] eqn:Eq; [|done].
    eapply monitor_can_step; [done..|]. by destruct q.
  - left. destruct (monitor s) as [p|] eqn:Es; [|eapply Hjoin; cbn; unfold join_step; by rewrite Em, Es].
    destruct (monitor_returned p) as [->|Hne]; [eapply Hjoin; cbn; unfold join_step; by rewrite Em, Es|].
    by eapply monitor_can_step.
  - destruct Hj as (_ & _ & Hmon). destruct (looper s) as [p|] eqn:Es; [|left; eapply Hjoin; cbn; unfold join_step; by rewrite Em, Es].
    assert (mu_free s = true) as Hmu by (unfold mu_free; by rewrite Hlo, Hmon).
    assert (forall s1, looper_step now p s = Some s1 -> can_step s) as Hto.
    { intros s1 E. exists (T_looper now), s1. split; [done|]. cbn [manager_step]. by rewrite Es. }
    destruct p as [| | |online [|nid l] loads|online loads|]; cbn [looper_step] in Hto; rewrite ?when_free_ok in Hto by done;
      try (left; by eapply Hto).
    + destruct (schedule_tick online now loads (scheduler (cl s))) as [k x y|k x y] eqn:Et; [left; by eapply Hto|].
      right. exists online, loads. split; [done|]. by exists k, x, y.
    + left. eapply Hjoin. cbn. unfold join_step. by rewrite Em, Es.
  - left. eapply Hjoin. cbn. unfold join_step. by rewrite Em.
Qed.

(** The executions of one call of [shutdown]. *)
Fixpoint shutdown_run (es : list step_of) (s : Manager) : option Manager :=
  match es with
  | [] => Some s
  | e :: es => match main s with P_idle => None | _ => s ← manager_step dial e s; shutdown_run es s end
  end.

Lemma shutdown_run_left es s s' :
  wf s -> joined s -> running_ s = false -> shutdown_run es s = Some s' ->
  wf s' /\ joined s' /\ running_ s' = false /\ length (List.filter of_manager es) + left_ s' <= left_ s.
Proof.
  revert s. induction es as [|e es IH]; intros s Hwf Hj Hr Hrun; cbn in Hrun; [simplify_eq; by split_and!|].
  assert (main s <> P_idle) as Hm by (by destruct (main s)).
  assert ((s1 ← manager_step dial e s; shutdown_run es s1) = Some s') as Hrun' by (by destruct (main s)). clear Hrun.
  destruct (manager_step dial e s) as [s1|] eqn:E; [|done]. cbn in Hrun'.
  destruct (step_left e s s1 Hr Hm E) as [Hr1 Hl].
  destruct (IH s1) as (Hwf' & Hj' & Hr' & Hle); [by eapply manager_step_wf|by eapply step_joined|done|done|].
  split_and!; try done. cbn. destruct (of_manager e); cbn; lia.
Qed.

Lemma manager_run_joined es s s' : joined s -> manager_run dial es s = Some s' -> joined s'.
Proof.
  revert s. induction es as [|e es IH]; intros s Hj Hrun; cbn in Hrun; [by simplify_eq|].
  destruct (manager_step dial e s) as [s1|] eqn:E; [|done]. eapply IH; [by eapply step_joined|done].
Qed.
End Invariant.

(** ** Properties *)


(** C32: [shutdown] completes.  Whatever the manager has done before and whatever is
    called from the outside meanwhile, after [running_] is cleared at most 127
    more steps of its threads are possible; until it returns some step is
    possible (unless a thread outside has locked itself out, or a tick of the
    scheduler is undefined behaviour); and when it returns no thread is left. *)
Theorem shutdown_completes `{StdSort} dial head c es0 s0 s es s' :
  wf_cluster c -> manager_run dial es0 (manager_new head c) = Some s0 -> running_ s0 = true ->
  shutdown_step s0 = Some s -> shutdown_run dial es s = Some s' ->
  length (List.filter of_manager es) <= 127 /\
  (main s' = P_idle -> sender s' = None /\ monitor s' = None /\ looper s' = None /\ sched_on s' = false) /\
  (main s' <> P_idle -> locked_out s' = false -> forall now, can_step dial s' \/
     exists online loads, looper s' = Some (L_tick online loads) /\
       exists k x y, schedule_tick online now loads (scheduler (cl s')) = Undefined k x y).
Proof.
  intros Hc Hrun0 Hr0 Hsd Hrun.
  assert (wf s0 /\ joined s0) as [Hwf0 Hj0].
  { split; [eapply manager_run_wf|eapply manager_run_joined]; [|exact Hrun0| |exact Hrun0]; [by split|]. by cbn. }
  assert (wf s /\ joined s) as [Hwf Hj].
  { split; [by eapply (manager_step_wf dial T_shutdown)|by eapply (step_joined dial T_shutdown)]. }
  assert (running_ s = false) as Hr.
  { unfold shutdown_step in Hsd. rewrite Hr0 in Hsd. destruct (main s0); [by injection Hsd as <-|done..]. }
  destruct (shutdown_run_left dial es s s' Hwf Hj Hr Hrun) as (Hwf' & Hj' & Hr' & Hle).
  split_and!.
  - pose proof (left_bound s Hwf). lia.
  - intros Hm. unfold joined in Hj'. rewrite Hm in Hj'. by apply Hj'.
  - intros Hm Hlo now. by apply shutdown_progress.
Qed.

(** A node that takes itself out as the last one online stops [shutdown]: its
    thread keeps [state_mu_] and waits for it ([Deadlock] in [ClusterManager]), the
    monitor waits for the mutex and [shutdown] for the monitor, whatever happens
    afterwards. *)
Theorem self_leave_hangs_shutdown `{StdSort} dial t s es s' :
  locked_out s = true -> monitor s = Some (M_lock t) -> main s = P_join_sender \/ main s = P_join_monitor ->
  manager_run dial es s = Some s' ->
  (main s' = P_join_sender \/ main s' = P_join_monitor) /\ monitor s' = Some (M_lock t).
Proof.
  revert s. induction es as [|e es IH]; intros s Hlo Hm Hp Hrun; cbn in Hrun; [by simplify_eq|].
  destruct (manager_step dial e s) as [s1|] eqn:E; [|done]. cbn in Hrun.
  assert (mu_free s = false) as Hmu by (unfold mu_free; by rewrite Hlo).
  enough (locked_out s1 = true /\ monitor s1 = Some (M_lock t) /\ (main s1 = P_join_sender \/ main s1 = P_join_monitor))
    as (? & ? & ?) by (by eapply IH).
  destruct e as [now|now|now| | | |op]; cbn [manager_step] in E.
  - destruct (sender s) as [p|]; [|done]. by apply sender_decreases in E as (c & p' & -> & _).
  - rewrite Hm in E. cbn in E. unfold when_free in E. by rewrite Hmu in E.
  - destruct (looper s) as [p|]; [|done]. by apply looper_decreases in E as (c & p' & -> & _).
  - unfold start_step in E. by destruct Hp as [Hp|Hp]; rewrite Hp in E.
  - unfold shutdown_step in E. by destruct Hp as [Hp|Hp]; rewrite Hp in E.
  - unfold join_step in E. destruct Hp as [Hp|Hp]; rewrite Hp in E; [|by rewrite Hm in E].
    destruct (sender s) as [[]|]; simplify_eq/=; auto.
  - unfold op_step, when_free in E. rewrite Hmu in E. by destruct (_ <? _).
Qed.

(** ** Executions *)

#[local] Existing Instance merge_sort_std.

Definition no_agents : sockets := fun _ _ => None.

(** A head with one other node, heard at time 0, and a job for two nodes. *)
Definition demo_two : Cluster :=
  mkCluster 0 2 2000 (demo_node 0 ONLINE 0 :: demo_node 1 ONLINE 0 :: replicate 6 default_node) 0 0 2
    (mkCatalog ∅ 0) (submit 0 (mkJob 0 "train" "me" 2 10 NORMAL PENDING [] 0 0 0) (sched_new 100 true)).2.

(** The scheduler loop has its list of online nodes when the monitor finds the
    other node silent, and ticks after the monitor has evicted its jobs. *)
Definition stale_steps : list step_of :=
  T_start :: replicate 6 (T_looper (fun _ => 3000000%Z)) ++ replicate 12 (T_monitor 3000000) ++ [T_looper (fun _ => 3000000%Z)].

(** A job on a node that has failed: the tick takes the list of nodes that was
    online when the loop asked, so that a job is started on the node that was
    marked offline in between, and the next pass of the monitor does not look at
    it any more. *)
Theorem stale_tick_starts_on_failed_node :
  exists s j, manager_run no_agents (stale_steps ++ replicate 6 (T_monitor 6000000)) (manager_new true demo_two) = Some s /\
    active (scheduler (cl s)) = [j] /\ status j = RUNNING /\ 1 ∈ assigned_nodes j /\
    (node_status <$> nodes (cl s) !! 1) = Some OFFLINE /\ monitor s = Some M_test.
Proof. eexists _, _. split; [vm_compute; reflexivity|]. split; [reflexivity|]. cbn. split_and!; [done|set_solver|done|done]. Qed.

(** A node that leaves while a ping of it is under way comes back: the answer
    arrives after the leave, and a heartbeat puts every node ONLINE. *)
Definition all_answer : sockets := fun _ _ => Some (fun _ => [replicate 8 0%Z]).
Theorem late_pong_undoes_leave :
  exists s, manager_run all_answer
      (T_start :: replicate 5 (T_sender (5, 6)%Z) ++ T_op (CLeave 1) :: replicate 2 (T_sender (5, 6)%Z)) (manager_new true demo_two) = Some s /\
    (node_status <$> nodes (cl s) !! 1) = Some ONLINE /\ online_nodes (cl s) = [0; 1].
Proof. eexists. split; [vm_compute; reflexivity|]. split; reflexivity. Qed.

Lemma demo_two_wf : wf_cluster demo_two.
Proof. split; [reflexivity| |cbn; unfold MAX_CLUSTER_NODES; lia]. repeat constructor; unfold small, MAX_CLUSTER_NODES; cbn; lia. Qed.

(** A shutdown right after the start. *)
Definition demo_shutdown : list step_of :=
  [T_sender (0, 0)%Z; T_monitor 0; T_looper (fun _ => 0%Z)] ++ replicate 4 T_join.

Lemma shutdown_completes_witness :
  exists s0 s s', manager_run no_agents [T_start] (manager_new true demo_two) = Some s0 /\ shutdown_step s0 = Some s /\
    shutdown_run no_agents demo_shutdown s = Some s' /\ main s' = P_idle /\ sender s' = None /\ monitor s' = None.
Proof.
  assert (running_ <$> manager_run no_agents [T_start] (manager_new true demo_two) = Some true) as Hr by (vm_compute; reflexivity).
  assert ((s0 ← manager_run no_agents [T_start] (manager_new true demo_two); s ← shutdown_step s0;
    main <$> shutdown_run no_agents demo_shutdown s) = Some P_idle) as Hm by (vm_compute; reflexivity).
  apply bind_Some in Hm as (s0 & E0 & Hm). apply bind_Some in Hm as (s & E1 & Hm). apply fmap_Some in Hm as (s' & E2 & Hm).
  rewrite E0 in Hr. injection Hr as Hr. symmetry in Hm.
  destruct (shutdown_completes no_agents true demo_two [T_start] s0 s demo_shutdown s' demo_two_wf E0 Hr E1 E2) as (_ & Hj & _).
  destruct (Hj Hm) as (H1 & H2 & _). exists s0, s, s'. by split_and!.
Defined.

(** Node 0 leaves, being the last one online, while the monitor is on its way to
    the mutex. *)
Definition demo_stuck : Manager :=
  mkManager demo_two true false (Some S_return) (Some (M_lock 7)) (Some L_return) P_join_sender true true.

Lemma self_leave_hangs_shutdown_witness :
  exists s', manager_run no_agents [T_join] demo_stuck = Some s' /\ main s' = P_join_monitor /\ monitor s' = Some (M_lock 7).
Proof.
  destruct (manager_run no_agents [T_join] demo_stuck) as [s'|] eqn:E; [|done].
  destruct (self_leave_hangs_shutdown no_agents 7 demo_stuck [T_join] s') as [_ Hm]; [reflexivity|reflexivity|by left|exact E|].
  exists s'. split; [reflexivity|]. split; [|exact Hm]. cbn in E. injection E as <-. reflexivity.
Defined.

