(* ===== verification/ClusterConfig.v ===== *)
(** The configurations of the scheduler and of the cluster manager with their
    defaults (src/csrc/runtime/Scheduler.hpp, ClusterManager.hpp), and what the
    defaults mean for the jobs. *)

From stdpp Require Import list gmap.
From S2P Require Import Prelude Rdma Dmem Catalog Scheduler ClusterManager Heartbeat.
#[local] Open Scope nat_scope.

(** ** Configurations *)

Record SchedulerConfig := mkSchedCfg {
  sc_tick_interval_ms : Z; sc_total_nodes : Z; sc_memory_per_node : Z; sc_preemption_enabled : bool
}.
Definition default_scheduler_config : SchedulerConfig := mkSchedCfg 1000 3 0 true.

Record ClusterConfig := mkClusterCfg {
  cc_node_id : nat; cc_total_nodes : nat; cc_control_port : Z; cc_heartbeat_interval_ms : Z;
  cc_heartbeat_timeout_ms : Z; cc_scheduler_tick_ms : Z; cc_memory_per_node : Z; cc_is_head : bool
}.
Definition default_cluster_config : ClusterConfig := mkClusterCfg 0 3 9800 500 2000 1000 0 true.

(** The constructors. *)
Definition scheduler_of (c : SchedulerConfig) : Scheduler := sched_new (sc_memory_per_node c) (sc_preemption_enabled c).

(** [sched_cfg]: the defaults with three fields set. *)
Definition scheduler_config_of (c : ClusterConfig) : SchedulerConfig :=
  mkSchedCfg (cc_scheduler_tick_ms c) (u16 (Z.of_nat (cc_total_nodes c))) (cc_memory_per_node c)
    (sc_preemption_enabled default_scheduler_config).

Definition cluster_of (c : ClusterConfig) : outcome :=
  cluster_new (cc_node_id c) (cc_total_nodes c) (cc_heartbeat_timeout_ms c) (cc_memory_per_node c) (cc_control_port c).

(** The scheduler of the cluster is the one of that configuration. *)
Lemma cluster_scheduler c s : cluster_of c = Done s -> scheduler s = scheduler_of (scheduler_config_of c).
Proof. unfold cluster_of, cluster_new. case_match; [done|]. by intros [= <-]. Qed.

(** ** Jobs on a scheduler without memory *)

(** A job that asks for memory on some node, and loads for which the sum does
    not wrap around. *)
Definition demanding (j : JobDescriptor) : Prop :=
  0 < requested_nodes j /\ (0 < memory_per_node j < 2 ^ 63)%Z.
Definition plain (l : NodeLoad) : Prop := (0 <= memory_used l < 2 ^ 63)%Z.

Definition op_demanding (op : sched_op) : Prop :=
  match op with
  | OSubmit _ job => demanding job
  | OTick _ _ loads => Forall plain loads
  | _ => True
  end.

Fixpoint sched_runs `{StdSort} (ops : list sched_op) (s : Scheduler) : option Scheduler :=
  match ops with [] => Some s | op :: ops => s ← sched_run op s; sched_runs ops s end.

Lemma nothing_fits job online loads :
  demanding job -> Forall plain loads -> can_allocate 0 job online loads = false.
Proof.
  intros [Hn Hm] Hl. unfold can_allocate. apply Nat.leb_gt.
  assert (List.filter (fits 0 loads job) online = []) as ->; [|done].
  induction online as [|nid online IH]; [done|]. cbn. rewrite IH.
  assert (fits 0 loads job nid = false) as ->; [|done].
  unfold fits. destruct (loads !! nid) as [l|] eqn:E; [|done]. apply (Forall_lookup_1 _ _ _ _ Hl) in E.
  unfold plain in E. rewrite u64_small by lia. apply Z.leb_gt. lia.
Qed.

Lemma place_nothing online now k q loads :
  Forall demanding q -> Forall plain loads -> place 0 online now k q loads = (q, [], loads).
Proof.
  intros Hq Hl. induction Hq as [|job q Hj _ IH]; [done|]. cbn. by rewrite nothing_fits, IH.
Qed.

(** Nothing runs, and everything that waits asks for memory. *)
Record starved (s : Scheduler) : Prop := {
  sv_cap : cap s = 0%Z;
  sv_active : active s = [];
  sv_queue : Forall demanding (queue s)
}.

Lemma boost_demanding st j : demanding (boost st j) <-> demanding j.
Proof. unfold boost, demanding. by repeat case_match. Qed.

Lemma preempt_starved online now k pos todo s loads :
  starved s -> Forall demanding todo -> Forall plain loads ->
  preempt_loop online now k pos todo s loads = Finished k s loads.
Proof.
  intros Hs Ht Hl. revert pos. induction Ht as [|job todo Hj _ IH]; intros pos; [done|]. cbn [preempt_loop].
  case_match; [apply IH|]. rewrite (sv_cap s Hs), nothing_fits by done. rewrite (sv_active s Hs). cbn.
  assert (set_lists (queue s) [] (history s) s = s) as ->; [|apply IH].
  pose proof (sv_active s Hs). destruct s; simpl in *. by subst.
Qed.

Lemma tick_starved `{StdSortLaws} online now loads s :
  starved s -> Forall plain loads ->
  exists s', schedule_tick online now loads s = Finished 0 s' loads /\ starved s' /\ ids (queue s') ≡ₚ ids (queue s).
Proof.
  intros Hs Hl. unfold schedule_tick. set (q := boost (tenant_stats s) <$> std_sort job_before (queue s)).
  assert (Forall demanding q) as Hq.
  { unfold q. apply Forall_fmap. eapply Forall_impl; [|intros j; apply boost_demanding].
    rewrite std_sort_perm. apply Hs. }
  rewrite (sv_cap s Hs), place_nothing by done. cbn zeta.
  set (s1 := set_lists q (active s ++ []) (history s) s).
  assert (starved s1) as Hs1.
  { split; cbn; [apply Hs|by rewrite (sv_active s Hs)|done]. }
  assert (ids (queue s1) ≡ₚ ids (queue s)) as Hids.
  { unfold ids. cbn. unfold q. rewrite <- list_fmap_compose.
    rewrite (list_fmap_ext (job_id ∘ boost (tenant_stats s)) job_id _ (fun i j _ => boost_id _ j)).
    apply fmap_Permutation, std_sort_perm. }
  exists s1. destruct (preemption_enabled s1); [|done]. by rewrite preempt_starved.
Qed.

Lemma take_job_demanding id l j l' : take_job id l = Some (j, l') -> Forall demanding l -> Forall demanding l'.
Proof.
  revert j l'. induction l as [|x l IH]; intros j l' H Hl; [done|]. cbn in H.
  apply Forall_cons in Hl as [Hx Hl]. case_match; [by simplify_eq|].
  destruct (take_job id l) as [[j1 l1]|] eqn:E; [|done]. cbn in H. simplify_eq. constructor; [done|]. by eapply IH.
Qed.

Lemma step_starved `{StdSortLaws} op s :
  starved s -> op_demanding op -> exists s', sched_run op s = Some s' /\ starved s'.
Proof.
  intros Hs Hop. pose proof (sv_active s Hs) as Ha. destruct op as [now job|now id|now id ok|online now loads|now n]; cbn in *.
  - eexists. split; [done|]. split; cbn; [apply Hs|done|]. apply Forall_app_2; [apply Hs|by repeat constructor; apply Hop].
  - eexists. split; [done|]. unfold cancel. destruct (take_job id (queue s)) as [[j q]|] eqn:E.
    + split; cbn; [apply Hs|done|]. eapply take_job_demanding; [exact E|apply Hs].
    + by rewrite Ha.
  - eexists. split; [done|]. unfold complete. by rewrite Ha.
  - destruct (tick_starved online now loads s Hs Hop) as (s' & -> & Hs' & _). by exists s'.
  - eexists. split; [done|]. unfold evict_node. rewrite Ha. cbn. split; cbn; [apply Hs|done|apply Hs].
Qed.

(** ** Properties *)

(** With the default configuration no job that needs memory ever starts.  The
    default of [memory_per_node] is 0, documented as "auto-detect", and the
    cluster manager hands its own default of 0 on; nothing detects anything.
    Whatever sequence of submissions of such jobs, cancellations,
    completions, ticks and node failures follows, the scheduler never runs a
    job: its list of active jobs stays empty and its ticks start none. *)
Theorem default_config_starts_nothing `{StdSortLaws} s ops :
  cluster_of default_cluster_config = Done s -> Forall op_demanding ops ->
  scheduler s = scheduler_of default_scheduler_config /\
  exists s', sched_runs ops (scheduler s) = Some s' /\ active_jobs s' = [] /\
    forall online now loads, Forall plain loads ->
      exists s'', schedule_tick online now loads s' = Finished 0 s'' loads /\ ids (queue s'') ≡ₚ ids (queue s').
Proof.
  intros Hs Hops. rewrite (cluster_scheduler _ _ Hs). split; [done|].
  assert (forall s0, starved s0 -> exists s', sched_runs ops s0 = Some s' /\ starved s') as Hrun.
  { clear Hs. induction Hops as [|op ops Hop _ IH]; intros s0 Hs0; [by exists s0|].
    destruct (step_starved op s0 Hs0 Hop) as (s1 & E & Hs1). cbn. rewrite E. by apply IH. }
  destruct (Hrun (scheduler_of (scheduler_config_of default_cluster_config))) as (s' & E & Hs'); [by split|].
  exists s'. split; [done|]. split; [apply Hs'|]. intros online now loads Hl.
  destruct (tick_starved online now loads s' Hs' Hl) as (s'' & H1 & _ & H2). by exists s''.
Qed.

#[local] Existing Instance merge_sort_std.
#[local] Existing Instance merge_sort_laws.

Lemma default_config_starts_nothing_witness :
  exists s s', cluster_of default_cluster_config = Done s /\
    sched_runs [OSubmit 5 (demo_job 0 HIGH 1 30 PENDING []); OTick [0] (fun _ => 9%Z) [mkLoad 0 0]] (scheduler s) = Some s' /\
    active_jobs s' = [] /\ queue_depth s' = 1.
Proof.
  eexists. destruct (default_config_starts_nothing _
    [OSubmit 5 (demo_job 0 HIGH 1 30 PENDING []); OTick [0] (fun _ => 9%Z) [mkLoad 0 0]] eq_refl)
    as [_ (s' & E & Ha & _)].
  - repeat constructor; cbn; lia.
  - exists s'. split; [reflexivity|]. split; [exact E|]. split; [exact Ha|].
    vm_compute in E. injection E as <-. reflexivity.
Defined.
