(* ===== verification/Runtime.v ===== *)
(** The head-side runtime: src/csrc/runtime/ShaderDispatch.hpp (the 1-D
    partition of a grid) and src/csrc/runtime/DistributedMetalRuntime.cpp (the
    object that connects to the agents, dispatches shaders and synchronises).

    Commands go to agents as the bytes of [Agent]; what was sent is a log of
    (socket, bytes), what will arrive on a socket is a list of the chunks that
    successive [recv] calls return, and a [recv] beyond its end blocks: a
    computation of type [M S bool] returns [false] when it is blocked for good.
    The runtime calls the coherence protocol of [Coherence], which holds the
    memory manager both point to. *)
From S2P Require Import Prelude CString Addr Catalog Rdma Dmem Coherence Agent.
#[local] Open Scope Z_scope.

(** ** ShaderDispatch.hpp *)

Record ShaderBinding := mkBinding {
  sb_index : Z; sb_buffer : GlobalAddress; sb_size : Z; sb_is_input : bool; sb_is_output : bool }.

Record NodeWork := mkWork {
  nw_node_id : Z; nw_grid_offset : Z; nw_grid_size : Z; nw_threadgroup_count : Z;
  nw_bindings : list ShaderBinding }.

Record ShaderDispatch := mkDispatch {
  sd_kernel_name : list Z; sd_metallib_path : list Z;
  sd_global_element_count : Z; sd_threadgroup_size : Z; sd_elements_per_thread : Z;
  sd_node_work : list NodeWork }.

Record PipelineStage := mkStage {
  ps_node_id : Z; ps_kernel_name : list Z; ps_inputs : list ShaderBinding;
  ps_outputs : list ShaderBinding; ps_forward_buffer : GlobalAddress;
  ps_forward_buffer_size : Z; ps_use_slot_a : bool }.

(** The body of the partition loop for node [i] of [n]. *)
Definition node_part (total tg_size per_thread per_node : Z) (n i : nat) (id : Z) : NodeWork :=
  let offset := u64 (Z.of_nat i * per_node) in
  let size := if Nat.eqb i (n - 1) then u64 (total - offset) else per_node in
  let threads := u64 (size + per_thread - 1) / per_thread in
  mkWork id offset size (u32 (u64 (threads + tg_size - 1) / tg_size)) [].

(** [ShaderDispatch::data_parallel]; [None] is a division by zero. *)
Definition data_parallel (kernel path : list Z) (total tg_size per_thread : Z) (ids : list Z)
  : option ShaderDispatch :=
  match ids with
  | [] => None
  | _ =>
      if (tg_size =? 0) || (per_thread =? 0) then None else
      let n := length ids in
      Some (mkDispatch kernel path total tg_size per_thread
        (imap (node_part total tg_size per_thread (total / Z.of_nat n) n) ids))
  end.

(** ** DistributedMetalRuntime *)

(** What the runtime uses of the memory manager beside the protocol. *)
Class RtDmem (D : Type) := {
  rt_get : Z -> GlobalAddress -> Z -> Z -> M D Z;      (* node, source, destination, length *)
  rt_poll : Z -> M D bool;
}.

#[export] Instance dmem_rt {W} `{!Ibv W} (polls : nat) : RtDmem (dmem W) := {|
  rt_get := dm_get polls;
  rt_poll := poll_completion polls;
|}.

Record LibraryEntry := mkLib { le_path : list Ascii.ascii; le_data : list Z; le_handle : Z }.

Record Runtime (D : Type) := mkRt {
  rt_node_id : Z;
  rt_is_head : bool;
  rt_coh : coherence D;
  rt_socks : gmap Z Z;                   (* agent_socks_ *)
  rt_node_ids : list Z;
  rt_libs : list LibraryEntry;
  rt_sent : list (Z * list Z);
  rt_inbox : gmap Z (list (list Z));
}.
Arguments mkRt {D}. Arguments rt_node_id {D}. Arguments rt_is_head {D}. Arguments rt_coh {D}.
Arguments rt_socks {D}. Arguments rt_node_ids {D}. Arguments rt_libs {D}.
Arguments rt_sent {D}. Arguments rt_inbox {D}.

(** [strncpy] of a [std::string] into a zeroed [char[64]]. *)
Definition c_str (s : list Z) : list Z :=
  (fix go s := match s with [] => [] | x :: s' => if x =? 0 then [] else x :: go s' end) s.
Definition name_field (s : list Z) : list Z :=
  let p := take 63 (c_str s) in p ++ replicate (64 - length p) 0.

Section Runtime.
Context {D : Type} `{!DmemIf D, !RtDmem D}.
Implicit Types s : Runtime D.

Definition set_coh c s : Runtime D :=
  mkRt (rt_node_id s) (rt_is_head s) c (rt_socks s) (rt_node_ids s) (rt_libs s) (rt_sent s) (rt_inbox s).
Definition set_socks k s : Runtime D :=
  mkRt (rt_node_id s) (rt_is_head s) (rt_coh s) k (rt_node_ids s) (rt_libs s) (rt_sent s) (rt_inbox s).
Definition set_node_ids l s : Runtime D :=
  mkRt (rt_node_id s) (rt_is_head s) (rt_coh s) (rt_socks s) l (rt_libs s) (rt_sent s) (rt_inbox s).
Definition set_libs l s : Runtime D :=
  mkRt (rt_node_id s) (rt_is_head s) (rt_coh s) (rt_socks s) (rt_node_ids s) l (rt_sent s) (rt_inbox s).
Definition set_sent l s : Runtime D :=
  mkRt (rt_node_id s) (rt_is_head s) (rt_coh s) (rt_socks s) (rt_node_ids s) (rt_libs s) l (rt_inbox s).
Definition set_inbox i s : Runtime D :=
  mkRt (rt_node_id s) (rt_is_head s) (rt_coh s) (rt_socks s) (rt_node_ids s) (rt_libs s) (rt_sent s) i.

Definition on_coh {A} (m : M (coherence D) A) : M (Runtime D) A := fun s =>
  let '(r, c) := m (rt_coh s) in (r, set_coh c s).

(** [::send(sock, ...)]. *)
Definition rt_send (sock : Z) (b : list Z) : M (Runtime D) unit :=
  modS (fun s => set_sent (rt_sent s ++ [(sock, b)]) s).

(** [::recv(sock, &resp, sizeof(resp), 0)]: true when it returns. *)
Definition rt_recv (sock : Z) : M (Runtime D) bool :=
  s ← getS;
  match rt_inbox s !! sock with
  | Some (_ :: l) => modS (set_inbox (<[sock := l]> (rt_inbox s))) ;; mret true
  | _ => mret false
  end.

(** A loop whose body may block. *)
Fixpoint forB {A} (l : list A) (f : A -> M (Runtime D) bool) : M (Runtime D) bool :=
  match l with
  | [] => mret true
  | x :: l' => b ← f x; if b : bool then forB l' f else mret false
  end.

(** *** Construction *)

(** ["host:port"]: without a colon both substrings are the whole string. *)
Definition parse_agent (hp : list Ascii.ascii) : list Ascii.ascii * option Z :=
  match rfind colon_char hp with
  | Some k => (take k hp, u16 <$> stoi (drop (k + 1) hp))
  | None => (hp, u16 <$> stoi hp)
  end.

(** [connect] is what [connect_to_agent] returns for a host and port.  A failing
    [stoi] leaves the constructor. *)
Fixpoint connect_agents (connect : list Ascii.ascii -> Z -> Z) (i : nat)
    (hosts : list (list Ascii.ascii)) : M (Runtime D) unit :=
  match hosts with
  | [] => mret tt
  | hp :: hosts' =>
      match parse_agent hp with
      | (_, None) => throw (MCCLError "std::invalid_argument")
      | (host, Some port) =>
          let sock := connect host port in
          let nid := u16 (Z.of_nat i + 1) in
          (if 0 <=? sock then
             modS (fun s => set_socks (<[nid := sock]> (rt_socks s)) s) ;;
             modS (fun s => set_node_ids (rt_node_ids s ++ [nid]) s)
           else mret tt) ;;
          connect_agents connect (S i) hosts'
      end
  end.

(** The constructor with non-null [dmem] and [coherence]. *)
Definition rt_create (node_id : Z) (is_head : bool) (hosts : list (list Ascii.ascii))
    (connect : list Ascii.ascii -> Z -> Z) (c : coherence D) (inbox : gmap Z (list (list Z)))
    : result unit * Runtime D :=
  (if is_head then connect_agents connect 0 hosts else mret tt)
    (mkRt node_id is_head c ∅ [] [] [] inbox).

(** *** Libraries *)

Definition push_library_to_agent (node_id lib_handle : Z) : M (Runtime D) bool :=
  s ← getS;
  if (lib_handle <? 0) || (Z.of_nat (length (rt_libs s)) <=? lib_handle) then mret false
  else match rt_socks s !! node_id with
       | None => mret false
       | Some _ => mret true      (* the header is built and not sent *)
       end.

(** [file]: the contents, when the file can be opened. *)
Definition load_library (path : list Ascii.ascii) (file : option (list Z)) : M (Runtime D) Z :=
  match file with
  | None => throw (MCCLError "DMR: cannot open metallib: ")
  | Some data =>
      s ← getS;
      let handle := Z.of_nat (length (rt_libs s)) in
      modS (set_libs (rt_libs s ++ [mkLib path data handle])) ;;
      forM (rt_node_ids s) (fun nid => _ ← push_library_to_agent nid handle; mret tt) ;;
      mret handle
  end.

(** *** Data-parallel dispatch *)

Definition run_msg (kernel : list Z) (count : Z) : list Z :=
  head_shader_run (head_request (name_field kernel) count).

Definition acquire_inputs (nw : NodeWork) : M (Runtime D) unit :=
  forM (nw_bindings nw) (fun b =>
    if sb_is_input b && negb (ga_node_id (sb_buffer b) =? nw_node_id nw)
    then on_coh (read_page (sb_buffer b) false) else mret tt).

Definition release_outputs (nw : NodeWork) : M (Runtime D) unit :=
  forM (nw_bindings nw) (fun b =>
    if sb_is_output b && negb (ga_node_id (sb_buffer b) =? nw_node_id nw)
    then on_coh (write_page_done (sb_buffer b)) else mret tt).

Definition dispatch_work (kernel : list Z) (nw : NodeWork) : M (Runtime D) unit :=
  s ← getS;
  match rt_socks s !! nw_node_id nw with
  | None => mret tt
  | Some sock => rt_send sock (run_msg kernel (nw_grid_size nw))
  end.

Definition await_work (nw : NodeWork) : M (Runtime D) bool :=
  s ← getS;
  match rt_socks s !! nw_node_id nw with None => mret true | Some sock => rt_recv sock end.

(** [env1] and [env2] are what the other threads do during the two barriers. *)
Definition dispatch_data_parallel (env1 env2 : list (M (coherence D) unit)) (d : ShaderDispatch)
    : M (Runtime D) bool :=
  forM (sd_node_work d) acquire_inputs ;;
  b1 ← on_coh (barrier_all env1);
  if negb b1 then mret false else
  forM (sd_node_work d) (dispatch_work (sd_kernel_name d)) ;;
  b2 ← forB (sd_node_work d) await_work;
  if negb b2 then mret false else
  forM (sd_node_work d) release_outputs ;;
  on_coh (barrier_all env2).

(** The asynchronous variant returns no future, and dispatches nothing. *)
Definition dispatch_data_parallel_async (d : ShaderDispatch) : M (Runtime D) (list unit) := mret [].

(** *** Synchronisation and transfers *)

(** [order] is the iteration order of [agent_socks_]. *)
Definition sync_all (env : list (M (coherence D) unit)) (order : list Z) : M (Runtime D) bool :=
  b ← forB order (fun nid =>
    s ← getS;
    match rt_socks s !! nid with
    | None => mret true
    | Some sock => rt_send sock (header_bytes (cmd_code SHADER_SYNC) 0 0) ;; rt_recv sock
    end);
  if negb b then mret false else on_coh (barrier_all env).

(** [transfer_tensor] up to the thread it starts: the destination is a null
    pointer. *)
Definition transfer_tensor (src : GlobalAddress) (dst_node : Z) (dst : GlobalAddress) (length : Z)
    : M (Runtime D) Z :=
  on_coh (on_dmem (rt_get (ga_node_id src) src 0 length)).

(** The body of that thread: true fulfils the promise, false sets the
    exception. *)
Definition transfer_wait (wr_id : Z) : M (Runtime D) bool := on_coh (on_dmem (rt_poll wr_id)).

(** *** Pipeline dispatch *)

(** The stages that the three phases dispatch, in order, for [n] stages and
    [m] micro-batches. *)
Definition warm_up (n : nat) (m : Z) : list nat :=
  concat ((fun mb => seq 0 (Nat.min (S mb) n)) <$> seq 0 (Z.to_nat (Z.min m (Z.of_nat n)))).
Definition steady (n : nat) (m : Z) : list nat :=
  concat (replicate (Z.to_nat (m - Z.of_nat n)) (seq 0 n)).
Definition cool_down (n : nat) : list nat :=
  concat ((fun k => seq (S k) (n - S k)) <$> seq 0 (n - 1)).

Definition send_stage (stage : PipelineStage) (count : Z) : M (Runtime D) unit :=
  s ← getS;
  match rt_socks s !! ps_node_id stage with
  | None => mret tt
  | Some sock => rt_send sock (run_msg (ps_kernel_name stage) count)
  end.

Definition forward_stage (stages : list PipelineStage) (i : nat) (stage : PipelineStage)
    : M (Runtime D) unit :=
  match stages !! S i with
  | None => mret tt
  | Some next =>
      _ ← transfer_tensor (ps_forward_buffer stage) (ps_node_id next) (ps_forward_buffer next)
            (ps_forward_buffer_size stage);
      mret tt
  end.

Definition on_stage (stages : list PipelineStage) (i : nat) (f : PipelineStage -> M (Runtime D) unit)
    : M (Runtime D) unit :=
  match stages !! i with None => mret tt | Some st => f st end.

Definition dispatch_pipeline (env : list (M (coherence D) unit)) (order : list Z)
    (stages : list PipelineStage) (m : Z) : M (Runtime D) bool :=
  let n := length stages in
  forM (warm_up n m) (fun i => on_stage stages i (fun st =>
    send_stage st (ps_forward_buffer_size st / 4) ;; forward_stage stages i st)) ;;
  forM (steady n m) (fun i => on_stage stages i (fun st =>
    (if Nat.ltb 0 i then on_coh (on_dmem if_drain) else mret tt) ;;
    send_stage st (ps_forward_buffer_size st / 4) ;; forward_stage stages i st)) ;;
  forM (cool_down n) (fun i => on_stage stages i (fun st => send_stage st 0)) ;;
  b ← forB (concat (replicate (Z.to_nat (m * Z.of_nat n)) stages)) (fun st =>
    s ← getS;
    match rt_socks s !! ps_node_id st with None => mret true | Some sock => rt_recv sock end);
  if negb b then mret false else sync_all env order.

(** *** Destruction *)

Definition disconnect_agent (node_id : Z) : M (Runtime D) unit :=
  s ← getS;
  match rt_socks s !! node_id with
  | None => mret tt
  | Some sock =>
      rt_send sock head_shutdown ;;
      modS (fun s => set_socks (delete node_id (rt_socks s)) s)
  end.

(** The destructor iterates over [agent_socks_] while [disconnect_agent] erases
    the element the iterator refers to; advancing it is undefined behaviour
    ([None]).  [order] is the iteration order. *)
Definition rt_destroy (order : list Z) (s : Runtime D) : option (Runtime D) :=
  match order with
  | [] => Some s
  | nid :: _ =>
      let s' := (disconnect_agent nid s).2 in
      if decide (is_Some (rt_socks s !! nid)) then None else Some s'
  end.
End Runtime.

(** ** The partition *)

(** The parts lie one behind the other from [off] to [stop]. *)
Fixpoint contiguous (off stop : Z) (ws : list NodeWork) : Prop :=
  match ws with
  | [] => off = stop
  | w :: ws' => nw_grid_offset w = off /\ 0 <= nw_grid_size w /\
      contiguous (off + nw_grid_size w) stop ws'
  end.

Section Partition.
Context (total tg pt : Z) (n : nat).
Context (Ht : 0 <= total < 2 ^ 64) (Htg : 0 < tg < 2 ^ 32) (Hpt : 0 < pt < 2 ^ 32) (Hn : (0 < n)%nat).

Abbreviation q := (total / Z.of_nat n).

Lemma part_bounds i : (i < n)%nat -> 0 <= q /\ 0 <= Z.of_nat i * q /\ Z.of_nat i * q + q <= total.
Proof using Ht Hn.
  intros Hi. pose proof (Z.mul_div_le total (Z.of_nat n) ltac:(lia)).
  pose proof (Z.div_pos total (Z.of_nat n) ltac:(lia) ltac:(lia)). nia.
Qed.

Lemma node_part_eq i id :
  (i < n)%nat ->
  nw_grid_offset (node_part total tg pt q n i id) = Z.of_nat i * q /\
  nw_grid_size (node_part total tg pt q n i id) =
    (if Nat.eqb i (n - 1) then total - Z.of_nat i * q else q) /\
  nw_node_id (node_part total tg pt q n i id) = id.
Proof using Ht Hn.
  intros Hi. pose proof (part_bounds i Hi). unfold node_part.
  cbn [nw_grid_offset nw_grid_size nw_node_id]. rewrite !u64_small by lia.
  by case_bool.
Qed.

Lemma parts_contiguous ids k :
  (k + length ids = n)%nat ->
  contiguous (if Nat.eqb k n then total else Z.of_nat k * q) total
    (imap (fun i => node_part total tg pt q n (k + i)) ids).
Proof using Ht Hn.
  revert k; induction ids as [|id ids IH]; intros k Hk; cbn [length] in Hk.
  - rewrite Nat.add_0_r in Hk. subst. by rewrite Nat.eqb_refl.
  - destruct (Nat.eqb_spec k n); [lia|]. pose proof (part_bounds k ltac:(lia)).
    rewrite imap_cons. cbn [contiguous]. rewrite Nat.add_0_r.
    destruct (node_part_eq k id ltac:(lia)) as (-> & -> & _).
    split; [done|]. split; [case_bool; lia|].
    specialize (IH (S k) ltac:(lia)).
    rewrite (imap_ext _ (fun i => node_part total tg pt q n (S k + i)))
      by (intros i ? _; unfold compose; by rewrite Nat.add_succ_r).
    replace (Z.of_nat k * q + (if Nat.eqb k (n - 1) then total - Z.of_nat k * q else q))
      with (if Nat.eqb (S k) n then total else Z.of_nat (S k) * q); [done|].
    destruct (Nat.eqb_spec k (n - 1)), (Nat.eqb_spec (S k) n); lia.
Qed.

(** Rounding up twice covers the part unless a sum or the 32-bit count wraps. *)
Lemma threadgroups_cover i id :
  let w := node_part total tg pt q n i id in
  0 <= nw_grid_size w -> nw_grid_size w + pt - 1 + tg < 2 ^ 64 ->
  nw_grid_size w <= 2 ^ 31 * (tg * pt) ->
  nw_grid_size w <= nw_threadgroup_count w * (tg * pt).
Proof using Htg Hpt.
  clear Hn Ht. intros w Hs Hw Hc. unfold w, node_part in *. cbn [nw_grid_size nw_threadgroup_count] in *.
  set (sz := if Nat.eqb i (n - 1) then _ else _) in *. clearbody sz. clear w.
  rewrite (u64_small (sz + pt - 1)) by lia.
  set (th := (sz + pt - 1) / pt).
  assert (sz <= th * pt < sz + pt) as Hth.
  { pose proof (Z.mul_div_le (sz + pt - 1) pt ltac:(lia)).
    pose proof (Z.mul_succ_div_gt (sz + pt - 1) pt ltac:(lia)). unfold th. lia. }
  assert (0 <= th <= sz + pt - 1) by nia.
  rewrite (u64_small (th + tg - 1)) by lia.
  set (g := (th + tg - 1) / tg).
  assert (th <= g * tg < th + tg) as Hg.
  { pose proof (Z.mul_div_le (th + tg - 1) tg ltac:(lia)).
    pose proof (Z.mul_succ_div_gt (th + tg - 1) tg ltac:(lia)). unfold g. lia. }
  assert (0 <= g < 2 ^ 32) as Hg2.
  { split; [apply Z.div_pos; lia|].
    assert (th < 2 ^ 31 * tg + 1) as Hth2 by (apply (Z.mul_lt_mono_pos_r pt); lia).
    assert (g * tg < (2 ^ 31 + 1) * tg) as Hg3 by lia.
    apply (Z.mul_lt_mono_pos_r tg) in Hg3; lia. }
  rewrite u32_small by lia. nia.
Qed.
End Partition.

(** The data-parallel partition: for a non-empty node list and non-zero sizes
    it is defined, gives the nodes one part each in their order, the parts tile
    the grid from 0 to the total, all but the last have the size [total / n]
    (the last takes the whole remainder), and the threadgroups of a part cover
    it as long as the count is within 2^31. *)
Theorem data_parallel_partition kernel path total tg pt ids :
  0 <= total < 2 ^ 64 -> 0 < tg < 2 ^ 32 -> 0 < pt < 2 ^ 32 -> ids <> [] ->
  exists d, data_parallel kernel path total tg pt ids = Some d /\
    (nw_node_id <$> sd_node_work d) = ids /\
    contiguous 0 total (sd_node_work d) /\
    forall i w, sd_node_work d !! i = Some w ->
      nw_grid_size w = (if Nat.eqb i (length ids - 1)
                        then total / Z.of_nat (length ids) + total mod Z.of_nat (length ids)
                        else total / Z.of_nat (length ids)) /\
      (nw_grid_size w + pt - 1 + tg < 2 ^ 64 -> nw_grid_size w <= 2 ^ 31 * (tg * pt) ->
       nw_grid_size w <= nw_threadgroup_count w * (tg * pt)).
Proof.
  intros Ht Htg Hpt Hids. unfold data_parallel.
  assert (0 < length ids)%nat as Hn by (destruct ids; [done|simpl; lia]).
  destruct ids as [|id0 ids0] eqn:Eids; [done|]. rewrite <- Eids in *.
  rewrite (proj2 (Z.eqb_neq tg 0)), (proj2 (Z.eqb_neq pt 0)) by lia. cbn [orb].
  eexists. split; [done|]. cbn [sd_node_work]. split_and!.
  - apply list_eq. intros i. rewrite list_lookup_fmap, list_lookup_imap.
    destruct (ids !! i) eqn:E; [|done]. done.
  - pose proof (parts_contiguous total tg pt (length ids) Ht Hn ids 0 eq_refl) as Hc.
    destruct (Nat.eqb_spec 0 (length ids)); [lia|exact Hc].
  - intros i w Hw. rewrite list_lookup_imap in Hw.
    destruct (ids !! i) as [id|] eqn:E; [|done]. injection Hw as <-.
    pose proof (lookup_lt_Some _ _ _ E) as Hi.
    destruct (node_part_eq total tg pt (length ids) Ht Hn i id Hi) as (Ho & Hs & _).
    pose proof (part_bounds total (length ids) Ht Hn i Hi). split.
    + rewrite Hs. case_bool; [|done]. pose proof (Z.div_mod total (Z.of_nat (length ids))). nia.
    + apply threadgroups_cover; [done|done|]. rewrite Hs. case_bool; lia.
Qed.

Lemma data_parallel_partition_witness :
  exists d, data_parallel [97] [98] 1000 256 8 [1; 2; 3] = Some d /\
    contiguous 0 1000 (sd_node_work d) /\ nw_grid_size <$> sd_node_work d = [333; 333; 334].
Proof.
  destruct (data_parallel_partition [97] [98] 1000 256 8 [1; 2; 3])
    as (d & E & _ & Hc & _); [lia..|discriminate|].
  exists d. split; [exact E|]. split; [exact Hc|]. vm_compute in E. injection E as <-. reflexivity.
Defined.

(** ** The pipeline schedule *)

#[local] Open Scope nat_scope.

Definition times (s : nat) (l : list nat) : nat := length (filter (fun x => x = s) l).

Lemma times_app s l l' : times s (l ++ l') = times s l + times s l'.
Proof. unfold times. by rewrite filter_app, length_app. Qed.

Lemma times_seq s a k : times s (seq a k) = if decide (a <= s < a + k) then 1 else 0.
Proof.
  revert a; induction k as [|k IH]; intros a; [by case_decide; [lia|]|].
  change (seq a (S k)) with ([a] ++ seq (S a) k). rewrite times_app, IH.
  unfold times. simpl. rewrite filter_cons, filter_nil.
  destruct (decide (a = s)); simpl; repeat case_decide; lia.
Qed.

Lemma times_warm_up s n m :
  s < n -> (Z.of_nat n <= m)%Z -> times s (warm_up n m) = n - s.
Proof.
  intros Hs Hm. unfold warm_up. rewrite Z.min_r, Nat2Z.id by lia.
  assert (forall k, k <= n ->
    times s (concat ((fun mb => seq 0 (Nat.min (S mb) n)) <$> seq 0 k)) = k - s) as H.
  { induction k as [|k IH]; intros Hk; [done|].
    rewrite seq_S, fmap_app, concat_app, times_app, IH by lia.
    rewrite list_fmap_singleton. cbn [concat]. rewrite app_nil_r, times_seq. case_decide; lia. }
  by apply H.
Qed.

Lemma times_steady s n m : s < n -> times s (steady n m) = Z.to_nat (m - Z.of_nat n).
Proof.
  intros Hs. unfold steady. induction (Z.to_nat (m - Z.of_nat n)) as [|k IH]; [done|].
  simpl. rewrite times_app, IH, times_seq. case_decide; lia.
Qed.

Lemma times_cool_down s n : s < n -> times s (cool_down n) = s.
Proof.
  intros Hs. unfold cool_down.
  assert (forall k, k <= n - 1 ->
    times s (concat ((fun k => seq (S k) (n - S k)) <$> seq 0 k)) = Nat.min k s) as H.
  { induction k as [|k IH]; intros Hk; [done|].
    rewrite seq_S, fmap_app, concat_app, times_app, IH by lia.
    rewrite list_fmap_singleton. cbn [concat]. rewrite app_nil_r, times_seq. case_decide; lia. }
  rewrite H by lia. lia.
Qed.

(** A schedule in which each of [n] stages appears [k] times has [k * n]
    entries. *)
Lemma length_times n k l :
  Forall (fun x => x < n) l -> (forall s, s < n -> times s l = k) -> length l = k * n.
Proof.
  revert l; induction n as [|n IH]; intros l Hl Ht.
  - destruct l as [|x l]; [simpl; lia|]. apply Forall_cons in Hl as [Hx _]. lia.
  - assert (length l = length (filter (fun x => x = n) l) + length (filter (fun x => x <> n) l)) as ->.
    { clear. induction l as [|x l IH]; [done|]. rewrite !filter_cons.
      repeat case_decide; simpl; try lia; done. }
    fold (times n l). rewrite (Ht n) by lia.
    rewrite (IH (filter (fun x => x <> n) l)); [lia| |].
    + apply Forall_forall. intros x [Hx Hin]%list_elem_of_filter.
      rewrite Forall_forall in Hl. specialize (Hl x Hin). lia.
    + intros s Hs. rewrite <- (Ht s) by lia. unfold times. rewrite list_filter_filter.
      f_equal. apply list_filter_iff. intros x. lia.
Qed.

Lemma Forall_concat_seq (f g : nat -> nat) n l :
  (forall x, x ∈ l -> f x + g x <= n) ->
  Forall (fun x => x < n) (concat ((fun k => seq (f k) (g k)) <$> l)).
Proof.
  intros H. induction l as [|x l IH]; csimpl; [constructor|]. apply Forall_app. split.
  - apply Forall_forall. intros y Hy%elem_of_seq. specialize (H x ltac:(left)). lia.
  - apply IH. intros y Hy. apply H. by right.
Qed.

Lemma schedule_stages n m : Forall (fun x => x < n) (warm_up n m ++ steady n m ++ cool_down n).
Proof.
  rewrite !Forall_app. split_and!.
  - unfold warm_up. apply (Forall_concat_seq (fun _ => 0) (fun mb => Nat.min (S mb) n)). lia.
  - unfold steady. induction (Z.to_nat _); simpl; [constructor|]. apply Forall_app. split; [|done].
    apply Forall_forall. intros y Hy%elem_of_seq. lia.
  - unfold cool_down. apply (Forall_concat_seq S (fun k => n - S k)).
    intros x Hx%elem_of_seq. lia.
Qed.

(** The pipeline schedule for at least as many micro-batches as stages: every
    stage is dispatched once per micro-batch, [m] times; but for stage [s] the
    last [s] of these dispatches are the cool-down ones, which carry an element
    count of 0; and the loop that reads the responses performs [n] times as
    many reads as commands were sent. *)
Theorem pipeline_dispatch_counts (stages : list PipelineStage) m s :
  s < length stages -> (Z.of_nat (length stages) <= m)%Z ->
  let n := length stages in
  times s (warm_up n m ++ steady n m ++ cool_down n) = Z.to_nat m /\
  times s (warm_up n m ++ steady n m) = Z.to_nat m - s /\
  length (warm_up n m ++ steady n m ++ cool_down n) = Z.to_nat m * n /\
  length (concat (replicate (Z.to_nat (m * Z.of_nat n)) stages)) = Z.to_nat m * n * n.
Proof.
  intros Hs Hm n. fold n in Hs, Hm.
  assert (forall t, t < n -> times t (warm_up n m ++ steady n m ++ cool_down n) = Z.to_nat m) as Hall.
  { intros t Ht. rewrite !times_app, times_warm_up, times_steady, times_cool_down by lia. lia. }
  split_and!.
  - by apply Hall.
  - rewrite times_app, times_warm_up, times_steady by lia. lia.
  - apply length_times; [apply schedule_stages|done].
  - fold n. rewrite Z2Nat.inj_mul, Nat2Z.id by lia.
    induction (Z.to_nat m * n) as [|k IH]; [done|]. simpl. rewrite length_app, IH. fold n. lia.
Qed.

Definition demo_stage (nid : Z) : PipelineStage := mkStage nid [107]%Z [] [] (mkGA nid 1 0) 4096 true.

Lemma pipeline_dispatch_counts_witness :
  times 2 (warm_up 3 5 ++ steady 3 5 ++ cool_down 3) = 5 /\
  times 2 (warm_up 3 5 ++ steady 3 5) = 3 /\
  length (concat (replicate 15 [demo_stage 1; demo_stage 2; demo_stage 3])) = 45.
Proof.
  destruct (pipeline_dispatch_counts [demo_stage 1; demo_stage 2; demo_stage 3] 5 2)
    as (H1 & H2 & _ & H4); [simpl; lia..|].
  split; [exact H1|]. split; [exact H2|exact H4].
Defined.

(** ** Barriers and agents *)

Section Blocked.
Context {D : Type} `{HI : !DmemIf D, HS : !DmemSends D, HR : !RtDmem D} (Hrel : reliable D).
Implicit Types s : Runtime D.

(** The head of [n] nodes with the log [l]. *)
Definition head_rt (n : Z) (l : list (Z * list Z)) s : Prop :=
  barrier_inv n (rt_coh s) /\ co_is_head (rt_coh s) = true /\ rt_sent s = l.

Lemma head_rt_on_coh {A} n l (m : M (coherence D) A) :
  preserves (fun c => barrier_inv n c /\ co_is_head c = true) m ->
  preserves (head_rt n l) (on_coh m).
Proof.
  intros Hm s (H1 & H2 & H3). unfold on_coh. specialize (Hm (rt_coh s) (conj H1 H2)).
  destruct (m (rt_coh s)) as [r c]. simpl in Hm. destruct Hm. by split_and!.
Qed.

Lemma only_read_page p w : only_dmem (read_page (D := D) p w).
Proof.
  intros c. unfold read_page. unfold mbind, M_bind, getS.
  repeat case_match; first [apply only_send | apply (only_ret (A := unit))].
Qed.

Lemma head_rt_acquire n l nw : preserves (head_rt n l) (acquire_inputs nw).
Proof.
  unfold acquire_inputs. apply preserves_forM. intros b. case_match; [|apply preserves_ret].
  apply head_rt_on_coh, only_preserves; [|apply only_read_page].
  intros d c [[? ? ? ?] Hh]. split; [by split|done].
Qed.

Lemma head_barrier_blocks n l env s :
  (2 <= n < 2 ^ 32)%Z -> head_rt n l s -> Forall env_op env ->
  exists s', on_coh (barrier_all env) s = (Ok false, s') /\ rt_sent s' = l.
Proof using Hrel HS.
  intros Hn (Hb & Hh & Hl) Henv. unfold on_coh, barrier_all.
  unfold mbind at 1, M_bind at 1, getS at 1. rewrite Hh.
  destruct (head_spin_false Hrel n env _ Hn Hb Henv) as (c & Hrun & _).
  rewrite (bind_ok _ _ _ _ _ Hrun). simpl. eauto.
Qed.
End Blocked.

(** On the head of a cluster of two or more nodes a data-parallel dispatch does
    not get to its agents: the barrier in front of the sends does not return
    (whatever messages arrive and whatever other threads call meanwhile), so
    the dispatch blocks or, when an input page has no reachable owner, throws,
    and no byte has been sent to any agent. *)
Theorem dispatch_never_reaches_agents {D} `{!DmemIf D, !DmemSends D, !RtDmem D}
    n env1 env2 d (s : Runtime D) :
  reliable D -> (2 <= n < 2 ^ 32)%Z -> barrier_inv n (rt_coh s) -> co_is_head (rt_coh s) = true ->
  Forall env_op env1 ->
  exists r s', dispatch_data_parallel env1 env2 d s = (r, s') /\ r <> Ok true /\ rt_sent s' = rt_sent s.
Proof.
  intros Hrel Hn Hb Hh Henv. unfold dispatch_data_parallel.
  assert (preserves (head_rt n (rt_sent s)) (forM (sd_node_work d) acquire_inputs)) as Hp
    by (apply preserves_forM; intros nw; apply head_rt_acquire).
  specialize (Hp s (conj Hb (conj Hh eq_refl))).
  destruct (forM (sd_node_work d) acquire_inputs s) as [[u|e] s1] eqn:E1; simpl in Hp.
  - destruct (head_barrier_blocks Hrel n _ env1 s1 Hn Hp Henv) as (s2 & E2 & Hl).
    exists (Ok false), s2. rewrite (bind_ok _ _ _ _ _ E1), (bind_ok _ _ _ _ _ E2). done.
  - exists (Throw e), s1. rewrite (bind_throw _ _ _ _ _ E1). split_and!; [done..|]. apply Hp.
Qed.

#[export] Instance log_rt : RtDmem dlog := {|
  rt_get _ _ _ _ := record CDrain 0%Z;
  rt_poll _ := record CDrain true;
|}.

Definition demo_rt (c : coherence dlog) : Runtime dlog :=
  mkRt 0 true c {[1%Z := 11%Z; 2%Z := 12%Z]} [1; 2]%Z [] []
    {[11%Z := [header_bytes 33 0 0]; 12%Z := [header_bytes 33 0 0]]}.

Definition demo_dispatch : ShaderDispatch :=
  default (mkDispatch [] [] 0 0 0 []) (data_parallel [107]%Z [] 1000 256 8 [1; 2]%Z).

Lemma dispatch_never_reaches_agents_witness :
  exists r s', dispatch_data_parallel [handle_message (mkMsg BARRIER_ENTER zero_addr 0 0) 1;
      handle_message (mkMsg BARRIER_ENTER zero_addr 0 0) 2] [] demo_dispatch (demo_rt demo_head) =
    (r, s') /\ r <> Ok true /\ rt_sent s' = [].
Proof.
  apply (dispatch_never_reaches_agents 3 _ _ demo_dispatch (demo_rt demo_head));
    [apply log_reliable|lia|apply demo_head_barrier_inv|reflexivity|repeat constructor].
Defined.

(** ** What a dispatch sends *)

Section Sends.
Context {D : Type} `{HI : !DmemIf D, HR : !RtDmem D}.
Implicit Types s : Runtime D.

(** What the coherence calls and the receives leave alone. *)
Definition net s : gmap Z Z * list (Z * list Z) := (rt_socks s, rt_sent s).

Lemma keeps_on_coh {A} (m : M (coherence D) A) : keeps net (on_coh m).
Proof. intros s. unfold on_coh. by destruct (m (rt_coh s)). Qed.
Lemma keeps_recv sock : keeps net (rt_recv sock).
Proof. unfold rt_recv. intros s. mrun. by destruct (rt_inbox s !! sock) as [[|]|]. Qed.
Lemma keeps_forB {A} (l : list A) (f : A -> M (Runtime D) bool) :
  (forall x, keeps net (f x)) -> keeps net (forB l f).
Proof.
  intros Hf. induction l as [|x l IH]; [apply keeps_ret|]. simpl. apply keeps_bind; [done|].
  intros []; [done|apply keeps_ret].
Qed.
#[local] Hint Resolve keeps_on_coh keeps_recv : frame.

Lemma keeps_acquire nw : keeps net (acquire_inputs nw).
Proof. unfold acquire_inputs. keeps_tac. Qed.
Lemma keeps_release nw : keeps net (release_outputs nw).
Proof. unfold release_outputs. keeps_tac. Qed.
Lemma keeps_await nw : keeps net (await_work nw).
Proof. unfold await_work. keeps_tac. Qed.

(** The command of one node, when it is connected. *)
Definition command (socks : gmap Z Z) (kernel : list Z) (nw : NodeWork) : option (Z * list Z) :=
  sock ← socks !! nw_node_id nw; Some (sock, run_msg kernel (nw_grid_size nw)).

Lemma dispatch_work_run kernel w s :
  dispatch_work kernel w s =
    (Ok tt, set_sent (rt_sent s ++ option_list (command (rt_socks s) kernel w)) s).
Proof.
  unfold dispatch_work, command, rt_send. mrun.
  destruct (rt_socks s !! nw_node_id w) as [sock|]; [done|].
  simpl. rewrite app_nil_r. by destruct s.
Qed.

Lemma dispatch_works_run kernel ws s :
  forM ws (dispatch_work kernel) s = (Ok tt, set_sent (rt_sent s ++ omap (command (rt_socks s) kernel) ws) s).
Proof.
  revert s; induction ws as [|w ws IH]; intros s; cbn [forM].
  - simpl. rewrite app_nil_r. by destruct s.
  - rewrite (bind_ok _ _ _ _ _ (dispatch_work_run kernel w s)), IH.
    cbn [rt_sent rt_socks set_sent]. rewrite <- app_assoc.
    destruct (command (rt_socks s) kernel w) as [x|] eqn:E; csimpl; by rewrite E.
Qed.

Lemma net_bind {A B} (m : M (Runtime D) A) (k : A -> M (Runtime D) B) s b s' :
  keeps net m -> (m ≫= k) s = (Ok b, s') -> exists a s1, net s1 = net s /\ k a s1 = (Ok b, s').
Proof.
  intros Hk Hr. apply bind_ok_inv in Hr as (a & s1 & E & Hr). exists a, s1. split; [|done].
  pose proof (Hk s) as H. by rewrite E in H.
Qed.
End Sends.

(** A data-parallel dispatch that returns has sent exactly one SHADER_RUN to
    every node of the partition that is connected, in the order of the
    partition, with the kernel name and the size of the node's part; nodes that
    are not connected are skipped and the other agents see nothing. *)
Theorem dispatch_sends {D} `{!DmemIf D, !RtDmem D} env1 env2 d (s s' : Runtime D) :
  dispatch_data_parallel env1 env2 d s = (Ok true, s') ->
  rt_sent s' = rt_sent s ++ omap (command (rt_socks s) (sd_kernel_name d)) (sd_node_work d).
Proof.
  intros H. unfold dispatch_data_parallel in H.
  apply net_bind in H as (u1 & s1 & N1 & H); [|apply keeps_forM, keeps_acquire].
  apply net_bind in H as (b1 & s2 & N2 & H); [|apply keeps_on_coh].
  destruct b1; cbn [negb] in H; [|by mrun; simplify_eq].
  rewrite (bind_ok _ _ _ _ _ (dispatch_works_run _ _ s2)) in H.
  apply net_bind in H as (b3 & s3 & N3 & H); [|apply keeps_forB, keeps_await].
  destruct b3; cbn [negb] in H; [|by mrun; simplify_eq].
  apply net_bind in H as (u4 & s4 & N4 & H); [|apply keeps_forM, keeps_release].
  pose proof (keeps_on_coh (barrier_all env2) s4) as N5. rewrite H in N5.
  unfold net in *. cbn [rt_socks rt_sent set_sent snd] in *. simplify_eq.
  congruence.
Qed.

Definition single_head : coherence dlog := (co_start (fun i => 4096 * (i + 1))%Z (coh_create 0 true 1 [])).2.

Lemma dispatch_sends_witness :
  exists s', dispatch_data_parallel [] [] demo_dispatch (demo_rt single_head) = (Ok true, s') /\
    rt_sent s' = [(11, run_msg [107] 500); (12, run_msg [107] 500)]%Z.
Proof.
  exists (dispatch_data_parallel [] [] demo_dispatch (demo_rt single_head)).2.
  assert (dispatch_data_parallel [] [] demo_dispatch (demo_rt single_head) =
    (Ok true, (dispatch_data_parallel [] [] demo_dispatch (demo_rt single_head)).2)) as E
    by (vm_compute; reflexivity).
  split; [exact E|]. rewrite (dispatch_sends _ _ _ _ _ E). vm_compute. reflexivity.
Defined.

(** ** Pipelines over the memory manager *)

Lemma warm_up_cons n m : 0 < n -> (1 <= m)%Z -> exists l, warm_up n m = 0 :: l.
Proof.
  intros Hn Hm. unfold warm_up.
  destruct (Z.to_nat (Z.min m (Z.of_nat n))) as [|k] eqn:E; [lia|].
  destruct n as [|n]; [lia|]. eexists. reflexivity.
Qed.

(** A pipeline of two or more stages over the memory manager of this
    repository stops at its first hand-over: unless the forward buffer of the
    first stage is local to the head, fetching it throws (no connection is ever
    opened), after exactly one command, that of the first stage, was sent;
    [dispatch_pipeline] leaves with the exception. *)
Theorem pipeline_first_transfer_throws {W} `{!Ibv W} polls env order st0 st1 rest m
    (s : Runtime (dmem W)) :
  let _ := dmem_if (W := W) polls in
  dm_reach (co_dmem (rt_coh s)) -> (1 <= m)%Z ->
  ar_is_local (resolve (ps_forward_buffer st0) (co_dmem (rt_coh s))) = false ->
  exists e, dispatch_pipeline (RtDmem0 := dmem_rt polls) env order (st0 :: st1 :: rest) m s =
    (Throw e, set_sent (rt_sent s ++
       match rt_socks s !! ps_node_id st0 with
       | Some sock => [(sock, run_msg (ps_kernel_name st0) (ps_forward_buffer_size st0 / 4))]
       | None => []
       end) s).
Proof.
  intros Hif Hreach Hm Hl. unfold dispatch_pipeline. cbv zeta.
  set (sent' := rt_sent s ++ _). set (s1 := set_sent sent' s).
  assert (send_stage st0 (ps_forward_buffer_size st0 / 4) s = (Ok tt, s1)) as Hsend.
  { unfold send_stage, rt_send, s1, sent'. mrun. destruct (rt_socks s !! ps_node_id st0); [done|].
    rewrite app_nil_r. by destruct s. }
  assert (exists e, forward_stage (RtDmem0 := dmem_rt polls) (st0 :: st1 :: rest) 0 st0 s1 = (Throw e, s1))
    as [e Hf].
  { cbn [forward_stage lookup list_lookup].
    destruct (reach_get_throws _ polls (ga_node_id (ps_forward_buffer st0)) (ps_forward_buffer st0) 0
      (ps_forward_buffer_size st0) Hreach Hl) as [e He].
    exists e. apply bind_throw. unfold transfer_tensor, on_coh, on_dmem.
    cbn [rt_get dmem_rt rt_coh s1 set_sent]. rewrite He. unfold set_coh, set_co_dmem. by destruct s as [? ? [] ?]. }
  exists e. destruct (warm_up_cons (length (st0 :: st1 :: rest)) m) as [l ->]; [simpl; lia|done|].
  apply bind_throw. cbn [forM]. apply bind_throw. unfold on_stage. cbn [lookup list_lookup].
  by rewrite (bind_ok _ _ _ _ _ Hsend).
Qed.

Definition demo_dmem_rt : Runtime (dmem SimNic) :=
  mkRt 0 true (coh_create 0 true 3
      (match (dm_create 0 3 64 (fun _ => 4096) (fun _ => 0) (mkSim true 10 [] [] [] [] [] []))%Z.1 with
       | Ok d => d | Throw _ => sim_dmem 0 [] (fun _ => 0%Z) end))
    {[1%Z := 11%Z]} [1]%Z [] [] ∅.

Lemma pipeline_first_transfer_throws_witness :
  let _ := dmem_if (W := SimNic) 5 in
  exists e s', dispatch_pipeline (RtDmem0 := dmem_rt 5) [] [] [demo_stage 1; demo_stage 2] 4 demo_dmem_rt
    = (Throw e, s') /\ length (rt_sent s') = 1.
Proof.
  cbv zeta.
  destruct (pipeline_first_transfer_throws 5 [] [] (demo_stage 1) (demo_stage 2) [] 4 demo_dmem_rt)
    as [e E].
  - eapply (reach_create 0 3 64 (fun _ => 4096) (fun _ => 0) (mkSim true 10 [] [] [] [] [] []))%Z.
    vm_compute. reflexivity.
  - lia.
  - vm_compute. reflexivity.
  - eexists e, _. split; [exact E|]. vm_compute. reflexivity.
Defined.

(** ** Construction and libraries *)

Section Creation.
Context {D : Type} `{!DmemIf D, !RtDmem D}.
Context (connect : list Ascii.ascii -> Z -> Z).
Implicit Types s : Runtime D.

(** ["host:port"] as the configuration documents it. *)
Definition host_port (hp : list Ascii.ascii * nat) : list Ascii.ascii :=
  hp.1 ++ colon_char :: to_string hp.2.

Lemma parse_agent_host_port h p : (Z.of_nat p < 2 ^ 16)%Z -> parse_agent (host_port (h, p)) = (h, Some (Z.of_nat p)).
Proof.
  intros Hp. unfold parse_agent, host_port. cbn [fst snd].
  rewrite rfind_app by apply to_string_no_colon. rewrite take_app_length.
  rewrite Nat.add_1_r. change (S (length h)) with (1 + length h).
  assert (drop (1 + length h) (h ++ colon_char :: to_string p) = to_string p) as ->.
  { rewrite Nat.add_comm, <- drop_drop, drop_app_length. done. }
  rewrite stoi_to_string by lia. cbn. by rewrite u16_small by lia.
Qed.

(** The agents that answered, with their numbers. *)
Definition answered (i : nat) (hosts : list (list Ascii.ascii * nat)) : list (Z * Z) :=
  concat (imap (fun k hp =>
    let sock := connect hp.1 (Z.of_nat hp.2) in
    if (0 <=? sock)%Z then [(Z.of_nat (i + k) + 1, sock)%Z] else []) hosts).

Lemma answered_cons i h p hosts :
  answered i ((h, p) :: hosts) =
    (if (0 <=? connect h (Z.of_nat p))%Z then [(Z.of_nat i + 1, connect h (Z.of_nat p))%Z] else []) ++
    answered (S i) hosts.
Proof.
  unfold answered. rewrite imap_cons. cbn [concat fst snd]. rewrite Nat.add_0_r. f_equal.
  f_equal. apply imap_ext. intros k x _. unfold compose. by rewrite Nat.add_succ_r.
Qed.

Definition insert_all (l : list (Z * Z)) (m : gmap Z Z) : gmap Z Z :=
  foldl (fun m x => <[x.1 := x.2]> m) m l.

Lemma connect_agents_run i hosts s :
  Forall (fun hp => (Z.of_nat hp.2 < 2 ^ 16)%Z) hosts -> (Z.of_nat (i + length hosts) < 2 ^ 16)%Z ->
  connect_agents connect i (host_port <$> hosts) s =
    (Ok tt, set_node_ids (rt_node_ids s ++ (answered i hosts).*1)
              (set_socks (insert_all (answered i hosts) (rt_socks s)) s)).
Proof.
  intros Hp. revert i s. induction Hp as [|[h p] hosts Hp _ IH]; intros i s Hi.
  { simpl. rewrite app_nil_r. by destruct s. }
  cbn [length snd] in *. rewrite fmap_cons. cbn [connect_agents].
  rewrite parse_agent_host_port by done. cbv zeta.
  rewrite answered_cons. rewrite (u16_small (Z.of_nat i + 1)) by lia.
  destruct (0 <=? connect h (Z.of_nat p))%Z.
  - unfold mbind at 1 2, M_bind at 1 2, modS at 1 2. rewrite IH by lia.
    unfold set_node_ids, set_socks, insert_all. cbn [rt_node_ids rt_socks rt_node_id rt_is_head rt_coh rt_libs rt_sent rt_inbox].
    rewrite <- app_assoc. done.
  - unfold mbind at 1, M_bind at 1, mret, M_ret. by rewrite IH by lia.
Qed.

Lemma answered_keys i hosts x : x ∈ (answered i hosts).*1 -> (Z.of_nat i < x)%Z.
Proof.
  revert i; induction hosts as [|[h p] hosts IH]; intros i; [by intros ?%elem_of_nil|].
  rewrite answered_cons, fmap_app, elem_of_app. intros [Hx|Hx%IH]; [|lia].
  destruct (0 <=? _)%Z; [|by apply elem_of_nil in Hx].
  apply list_elem_of_singleton in Hx as ->. simpl. lia.
Qed.

Lemma answered_nodup i hosts : NoDup (answered i hosts).*1.
Proof.
  revert i; induction hosts as [|[h p] hosts IH]; intros i; [constructor|].
  rewrite answered_cons, fmap_app. destruct (0 <=? _)%Z; [|apply IH].
  csimpl. constructor; [|done]. intros Hx%answered_keys. lia.
Qed.

Lemma lookup_insert_all l m k v :
  NoDup l.*1 -> insert_all l m !! k = Some v <-> (k, v) ∈ l \/ k ∉ l.*1 /\ m !! k = Some v.
Proof.
  unfold insert_all. revert m; induction l as [|[a b] l IH]; intros m Hnd; csimpl in *.
  - split; [intros H; right; split; [apply not_elem_of_nil|done]|].
    intros [?%elem_of_nil|[_ ?]]; done.
  - apply NoDup_cons in Hnd as [Ha Hnd]. rewrite IH by done. rewrite elem_of_cons, not_elem_of_cons.
    destruct (decide (k = a)) as [->|Hk].
    + rewrite lookup_insert_eq. split.
      * intros [Hin|[_ [= ->]]]; [|by left; left].
        destruct Ha. apply list_elem_of_fmap. by exists (a, v).
      * intros [[[= ->]|Hin]|[[? _] _]]; [by right|by left|done].
    + rewrite lookup_insert_ne by done. split.
      * intros [Hin|[H1 H2]]; [by left; right|by right].
      * intros [[[= ]|Hin]|[[_ H1] H2]]; [done|by left|by right].
Qed.
End Creation.

(** The constructor on the head: for addresses of the documented form
    "host:port" it returns, agent [i] of the list (from 0) has number [i + 1]
    exactly if its connection was opened, the list of nodes has those numbers
    in order, and nothing was sent; an address without a colon is taken as
    host and port at once, so that the port is the number in front of its
    first dot. *)
Theorem runtime_connects {D} `{!DmemIf D, !RtDmem D} connect nid hosts (c : coherence D) inbox :
  Forall (fun hp => (Z.of_nat hp.2 < 2 ^ 16)%Z) hosts -> (Z.of_nat (length hosts) < 2 ^ 16)%Z ->
  (exists s, rt_create nid true (host_port <$> hosts) connect c inbox = (Ok tt, s) /\
     (forall k sock, rt_socks s !! k = Some sock <-> (k, sock) ∈ answered connect 0 hosts) /\
     rt_node_ids s = (answered connect 0 hosts).*1 /\ rt_sent s = []) /\
  (forall hp, colon_char ∉ hp -> parse_agent hp = (hp, u16 <$> stoi hp)).
Proof.
  intros Hp Hl. split.
  - eexists. split; [by apply connect_agents_run|]. split_and!; [|done..].
    intros k sock. cbn [rt_socks set_node_ids set_socks].
    rewrite lookup_insert_all by apply answered_nodup. split; [|by left].
    intros [?|[_ ?%lookup_empty_Some]]; done.
  - intros hp Hn. unfold parse_agent. by rewrite rfind_none.
Qed.

Lemma runtime_connects_witness :
  exists s, rt_create 0 true (host_port <$> [(lit "10.0.0.5", 9800); (lit "10.0.0.6", 9801)])
      (fun h p => if (p =? 9800)%Z then 7%Z else (-1)%Z) single_head ∅ = (Ok tt, s) /\
    rt_node_ids s = [1%Z] /\ parse_agent (lit "10.0.0.5") = (lit "10.0.0.5", Some 10%Z).
Proof.
  destruct (runtime_connects (fun h p => if (p =? 9800)%Z then 7%Z else (-1)%Z) 0
    [(lit "10.0.0.5", 9800); (lit "10.0.0.6", 9801)] single_head ∅) as [(s & E & _ & Hi & _) Hc].
  - repeat constructor.
  - simpl; lia.
  - exists s. split; [exact E|]. split; [exact Hi|].
    rewrite Hc; [vm_compute; reflexivity|].
    intros Hin. apply list_elem_of_In in Hin. vm_compute in Hin. intuition discriminate.
Defined.

(** Loading a library returns the index under which it is found again and
    keeps the earlier ones; no byte reaches an agent. *)
Theorem load_library_local {D} `{!DmemIf D, !RtDmem D} path data (s : Runtime D) :
  exists s', load_library path (Some data) s = (Ok (Z.of_nat (length (rt_libs s))), s') /\
    rt_libs s' = rt_libs s ++ [mkLib path data (Z.of_nat (length (rt_libs s)))] /\
    rt_sent s' = rt_sent s.
Proof.
  unfold load_library. unfold mbind at 1 2, M_bind at 1 2, getS, modS. cbv zeta.
  set (s1 := set_libs _ s).
  assert (forall l, forM l (fun nid => _ ← push_library_to_agent nid (Z.of_nat (length (rt_libs s))); mret tt) s1
    = (Ok tt, s1)) as Hpush.
  { induction l as [|x l IH]; [done|]. cbn [forM]. rewrite (bind_ok _ _ s1 tt s1); [done|].
    unfold push_library_to_agent. mrun. destruct (_ || _); [done|]. by destruct (rt_socks s1 !! x). }
  exists s1. rewrite (bind_ok _ _ _ _ _ (Hpush _)). done.
Qed.
