(* ===== verification/AgentSockets.v ===== *)
(** The sockets between the head and its agents: [create_server_socket] and
    [send_all] of src/csrc/agent/Agent.cpp, [connect_to_agent] of
    src/csrc/runtime/DistributedMetalRuntime.cpp.

    The answers of the system calls are arguments; what a function does to the
    descriptor it opened is the list of its calls on it, in order. *)

From stdpp Require Import list gmap.
From S2P Require Import Prelude CString Rdma Dmem Coherence Agent PeerMesh Runtime.
#[local] Open Scope Z_scope.

(** ** Sending a response *)

Section Send.
Context {Sock : Type} (sys_send : Sock -> list Z -> Z * Sock).

(** [send_all]: [None] is fuel that ran out; the length of the buffer is enough. *)
Fixpoint send_all (fuel : nat) (s : Sock) (data : list Z) : option (bool * Sock) :=
  if (length data =? 0)%nat then Some (true, s) else
  match fuel with
  | 0%nat => None
  | S fuel =>
    let '(n, s') := sys_send s data in
    if n <=? 0 then Some (false, s') else send_all fuel s' (drop (Z.to_nat n) data)
  end.

(** It is the loop of the peer mesh. *)
Lemma send_all_write_all fuel s data : send_all fuel s data = write_all sys_send fuel s data.
Proof.
  revert s data. induction fuel as [|fuel IH]; intros s [|x data]; try done. cbn [send_all write_all length Nat.eqb].
  destruct (sys_send s (x :: data)) as [n s']. by rewrite IH.
Qed.
End Send.

(** A response reaches the stream whole or the agent learns that it did not:
    [send_all] returns for every buffer, [true] exactly when all of its bytes
    were handed to the socket, and otherwise after a proper prefix. *)
Theorem agent_sends_whole_responses {Sock} (sys_send : Sock -> list Z -> Z * Sock)
    (sys_recv : Sock -> nat -> Z * list Z * Sock) (sent arriving : Sock -> list Z) s data :
  SocketLaws sys_send sys_recv sent arriving ->
  exists b s' k, send_all sys_send (length data) s data = Some (b, s') /\
    sent s' = sent s ++ take k data /\ (if b then k = length data else (k < length data)%nat).
Proof.
  intros H. destruct (write_all_spec sys_send sys_recv sent arriving (length data) s data) as (b & s' & k & H1 & H2);
    [done|]. exists b, s', k. by rewrite send_all_write_all.
Qed.

(** ** Descriptors *)

Inductive fd_call := FClose | FReuse | FNodelay | FBind | FListen | FNonblock | FConnect | FRestore.

#[export] Instance fd_call_eq_dec : EqDecision fd_call.
Proof. solve_decision. Defined.

(** *** The listening socket *)

Record server_answers := mkServer { sa_socket : Z; sa_bind : Z; sa_listen : Z }.

Definition create_server_socket (a : server_answers) : result Z * list fd_call :=
  if sa_socket a <? 0 then (Throw (MCCLError "Agent: socket() failed"), []) else
  if negb (sa_bind a =? 0) then (Throw (MCCLError "Agent: bind() failed"), [FReuse; FNodelay; FBind]) else
  if negb (sa_listen a =? 0) then (Throw (MCCLError "Agent: listen() failed"), [FReuse; FNodelay; FBind; FListen])
  else (Ok (sa_socket a), [FReuse; FNodelay; FBind; FListen]).

(** *** The head's connection to an agent *)

Definition EINPROGRESS : Z := 36.

Record connect_answers := mkConnect {
  ca_socket : Z;                        (* socket(2) *)
  ca_pton : Z;                          (* inet_pton(3) of the host *)
  ca_connect : Z; ca_errno : Z;         (* connect(2) and errno *)
  ca_select : Z                         (* select(2) for writing, five seconds *)
}.

Definition connect_to_agent (a : connect_answers) : Z * list fd_call :=
  if ca_socket a <? 0 then (-1, []) else
  if ca_pton a <=? 0 then (-1, [FClose]) else
  if (ca_connect a <? 0) && negb (ca_errno a =? EINPROGRESS) then (-1, [FNonblock; FConnect; FClose]) else
  if ca_select a <=? 0 then (-1, [FNonblock; FConnect; FClose]) else
  (ca_socket a, [FNonblock; FConnect; FRestore; FNodelay]).

(** ** Properties *)

(** The socket of every failed attempt is closed, once; the socket of a
    successful one is open, in blocking mode again, and was reported writable. *)
Theorem connect_to_agent_closes a ret calls :
  connect_to_agent a = (ret, calls) -> 0 <= ca_socket a ->
  (ret = -1 /\ (exists l, calls = l ++ [FClose] /\ FClose ∉ l)) \/
  (ret = ca_socket a /\ FClose ∉ calls /\ 0 < ca_select a /\ 0 < ca_pton a /\
   exists l, calls = l ++ [FRestore; FNodelay]).
Proof.
  unfold connect_to_agent. intros H Hs. rewrite (proj2 (Z.ltb_ge _ _)) in H by done.
  destruct (Z.leb_spec (ca_pton a) 0); [simplify_eq|].
  { left. split; [done|]. exists []. split; [done|set_solver]. }
  destruct ((ca_connect a <? 0) && negb (ca_errno a =? EINPROGRESS)); [simplify_eq|].
  { left. split; [done|]. exists [FNonblock; FConnect]. split; [done|set_solver]. }
  destruct (Z.leb_spec (ca_select a) 0); simplify_eq.
  - left. split; [done|]. exists [FNonblock; FConnect]. split; [done|set_solver].
  - right. split_and!; [done|set_solver|done|done|]. by exists [FNonblock; FConnect].
Qed.

(** The agent's listening socket: returned exactly when all three calls
    succeeded; a failing [bind] or [listen] leaves the descriptor open. *)
Theorem server_socket_left_open a :
  let '(r, calls) := create_server_socket a in
  (r = Ok (sa_socket a) <-> 0 <= sa_socket a /\ sa_bind a = 0 /\ sa_listen a = 0) /\ FClose ∉ calls.
Proof.
  unfold create_server_socket. destruct (Z.ltb_spec (sa_socket a) 0); [split; [split; [done|lia]|set_solver]|].
  destruct (Z.eqb_spec (sa_bind a) 0); cbn [negb]; [|split; [split; [done|tauto]|set_solver]].
  destruct (Z.eqb_spec (sa_listen a) 0); cbn [negb]; (split; [|set_solver]); split; tauto || done.
Qed.

(** *** A refused connection *)

(** How a non-blocking attempt on a valid address ends.  The socket becomes
    writable when the attempt has ended, successfully or not; which of the two
    it was is in [SO_ERROR], which the code does not read. *)
Inductive attempt_end := Established | Failed | NoAnswer.

Definition attempt (fd : Z) (e : attempt_end) : connect_answers :=
  mkConnect fd 1 (-1) EINPROGRESS (match e with NoAnswer => 0 | _ => 1 end).

Definition connect_outcome (fd : list Ascii.ascii -> Z -> Z) (e : list Ascii.ascii -> Z -> attempt_end)
    (host : list Ascii.ascii) (port : Z) : Z :=
  (connect_to_agent (attempt (fd host port) (e host port))).1.

Lemma answered_all_numbers connect i hosts :
  (forall hp, hp ∈ hosts -> 0 <= connect hp.1 (Z.of_nat hp.2)) ->
  (answered connect i hosts).*1 = (fun k => Z.of_nat k + 1) <$> seq i (length hosts).
Proof.
  revert i. induction hosts as [|[h p] hosts IH]; intros i Hc; [done|].
  rewrite answered_cons, fmap_app, (IH (S i)) by (intros hp Hp; apply Hc; by right).
  rewrite (proj2 (Z.leb_le _ _)); [done|]. apply (Hc (h, p)). left.
Qed.

(** Agents that refuse are counted as connected.  When every attempt to reach an
    agent ends before the time is up, all of them refused, the constructor on
    the head still enters every agent as connected, exactly as when all of them
    had accepted. *)
Theorem refused_agents_registered {D} `{!DmemIf D, !RtDmem D} fd nid hosts (c : coherence D) inbox :
  (forall h p, 0 <= fd h p) ->
  Forall (fun hp => Z.of_nat hp.2 < 2 ^ 16) hosts -> Z.of_nat (length hosts) < 2 ^ 16 ->
  exists s, rt_create nid true (host_port <$> hosts) (connect_outcome fd (fun _ _ => Failed)) c inbox = (Ok tt, s) /\
    rt_create nid true (host_port <$> hosts) (connect_outcome fd (fun _ _ => Established)) c inbox = (Ok tt, s) /\
    rt_node_ids s = (fun k => Z.of_nat k + 1) <$> seq 0 (length hosts).
Proof.
  intros Hfd Hp Hl.
  assert (forall e h p, e <> NoAnswer -> connect_outcome fd (fun _ _ => e) h p = fd h p) as Hco.
  { intros e h p He. unfold connect_outcome, connect_to_agent. cbn [attempt ca_socket ca_pton ca_connect ca_errno ca_select].
    rewrite (proj2 (Z.ltb_ge _ _)) by done. by destruct e. }
  unfold rt_create. eexists. split; [by apply connect_agents_run|]. split.
  - by rewrite connect_agents_run.
  - cbn. apply answered_all_numbers. intros hp _. by rewrite Hco.
Qed.

Lemma refused_agents_registered_witness :
  exists s, rt_create 0 true (host_port <$> [(lit "10.0.0.5", 9800%nat); (lit "10.0.0.6", 9801%nat)])
      (connect_outcome (fun _ p => Z.abs (p - 9790)) (fun _ _ => Failed)) single_head ∅ = (Ok tt, s) /\ rt_node_ids s = [1; 2].
Proof.
  destruct (refused_agents_registered (fun _ p => Z.abs (p - 9790)) 0
    [(lit "10.0.0.5", 9800%nat); (lit "10.0.0.6", 9801%nat)] single_head ∅) as (s & H & _ & Hi).
  - intros _ p. apply Z.abs_nonneg.
  - by repeat constructor.
  - by vm_compute.
  - exists s. split; [|exact Hi]. exact H.
Defined.
