(* ===== verification/Session.v ===== *)
(** * A process group in use: the calling thread and the engine thread

    [ProcessGroupMCCL] hands the bodies of its collectives to the progress
    thread ([async_submit_], [Progress]), except for [allreduce], whose body
    runs in the calling thread; both threads use the streams of one
    [PeerMesh].  This file runs, on every rank, a program of calls against such
    a group: a step relation over the ranks, each with the calling thread, the
    FIFO of submitted bodies, the engine thread, the work objects and the
    tensors, and over the streams of [Network].

    [serial] is the specification: the bodies one after the other.  The
    theorem [session_refines_serial] says that a program that waits for the
    works it has submitted before it calls [allreduce] behaves like it, in
    every interleaving; [overlap_mixes_streams] is an execution in which a
    program does not wait. *)
From S2P Require Import Prelude Network Allreduce Collectives.

Section Session.
Context {E Mem : Type}.

(** The body of a collective: it reads its tensors when it starts, talks to
    the mesh, and its writes to its tensors take effect when it ends. *)
Abbreviation body := (proc (E := E) (A := Mem -> Mem)).
Abbreviation job := (Mem -> body).

(** The calls of a program.  [CSync]: the body runs in the calling thread and
    the call returns a completed work ([allreduce], and what a group of one
    does); [CAsync]: the body is submitted ([async_submit_]); [CWait i]:
    [wait] on the work of call [i]. *)
Inductive call := CSync (j : job) | CAsync (j : job) | CWait (i : nat).

Record pgrank := mkPg {
  pr_prog : list call;                        (* what the calling thread still has to do *)
  pr_caller : option body;                    (* the body it is in *)
  pr_queue : list (nat * job);                (* submitted bodies with their works *)
  pr_engine : option (nat * body);            (* the body the engine is in *)
  pr_works : list (option (result unit));     (* the works, by call *)
  pr_failed : option error;                   (* the exception that left the program *)
  pr_mem : Mem;
}.

Definition pg_start (prog : list call) (m : Mem) : pgrank := mkPg prog None [] None [] None m.

(** The calling thread, where it does not use the mesh. *)
Definition caller_local (s : pgrank) : option pgrank :=
  match pr_failed s, pr_caller s, pr_prog s with
  | Some _, _, _ => None
  | None, Some (Ret f), _ =>
    Some (mkPg (pr_prog s) None (pr_queue s) (pr_engine s) (pr_works s ++ [Some (Ok tt)]) None (f (pr_mem s)))
  | None, Some (Raise e), _ =>
    Some (mkPg (pr_prog s) None (pr_queue s) (pr_engine s) (pr_works s) (Some e) (pr_mem s))
  | None, Some (Fork _ _), _ => None
  | None, None, [] => None
  | None, None, CSync j :: prog =>
    Some (mkPg prog (Some (j (pr_mem s))) (pr_queue s) (pr_engine s) (pr_works s) None (pr_mem s))
  | None, None, CAsync j :: prog =>
    Some (mkPg prog None (pr_queue s ++ [(length (pr_works s), j)]) (pr_engine s) (pr_works s ++ [None]) None
            (pr_mem s))
  | None, None, CWait i :: prog =>
    match pr_works s !! i with
    | Some (Some (Ok _)) => Some (mkPg prog None (pr_queue s) (pr_engine s) (pr_works s) None (pr_mem s))
    | Some (Some (Throw e)) => Some (mkPg prog None (pr_queue s) (pr_engine s) (pr_works s) (Some e) (pr_mem s))
    | _ => None
    end
  end.

(** The engine thread, where it does not use the mesh. *)
Definition engine_local (s : pgrank) : option pgrank :=
  match pr_engine s, pr_queue s with
  | Some (i, Ret f), _ =>
    Some (mkPg (pr_prog s) (pr_caller s) (pr_queue s) None (<[i := Some (Ok tt)]> (pr_works s)) (pr_failed s)
            (f (pr_mem s)))
  | Some (i, Raise e), _ =>
    Some (mkPg (pr_prog s) (pr_caller s) (pr_queue s) None (<[i := Some (Throw e)]> (pr_works s)) (pr_failed s)
            (pr_mem s))
  | Some (_, Fork _ _), _ => None
  | None, (i, j) :: q =>
    Some (mkPg (pr_prog s) (pr_caller s) q (Some (i, j (pr_mem s))) (pr_works s) (pr_failed s) (pr_mem s))
  | None, [] => None
  end.

(** A body at the mesh: one call of one of its threads, or the join of all. *)
Definition body_act (r t : nat) (p : body) (ch : chans E) : option (body * chans E) :=
  match p with
  | Fork ths k =>
    match ths !! t with
    | Some (mkTh (a :: acts) got) =>
      '(g, ch') ← do_act r a ch;
      Some (Fork (<[t := mkTh acts (got ++ g)]> ths) k, ch')
    | _ => None
    end
  | _ => None
  end.

Definition body_join (p : body) : option body :=
  match p with
  | Fork ths k => if decide (Forall (fun th => th_acts th = []) ths) then Some (k (th_got <$> ths)) else None
  | _ => None
  end.

Definition set_caller (p : body) (s : pgrank) : pgrank :=
  mkPg (pr_prog s) (Some p) (pr_queue s) (pr_engine s) (pr_works s) (pr_failed s) (pr_mem s).
Definition set_engine (i : nat) (p : body) (s : pgrank) : pgrank :=
  mkPg (pr_prog s) (pr_caller s) (pr_queue s) (Some (i, p)) (pr_works s) (pr_failed s) (pr_mem s).

(** What moves on a rank. *)
Inductive move :=
  | MCaller | MEngine                        (* a thread outside of the mesh *)
  | MCallerAct (t : nat) | MCallerJoin       (* the body in the calling thread *)
  | MEngineAct (t : nat) | MEngineJoin.      (* the body in the engine thread *)

Definition rank_step (r : nat) (mv : move) (s : pgrank) (ch : chans E) : option (pgrank * chans E) :=
  match mv with
  | MCaller => s' ← caller_local s; Some (s', ch)
  | MEngine => s' ← engine_local s; Some (s', ch)
  | MCallerAct t => p ← pr_caller s; '(p', ch') ← body_act r t p ch; Some (set_caller p' s, ch')
  | MCallerJoin => p ← pr_caller s; p' ← body_join p; Some (set_caller p' s, ch)
  | MEngineAct t => '(i, p) ← pr_engine s; '(p', ch') ← body_act r t p ch; Some (set_engine i p' s, ch')
  | MEngineJoin => '(i, p) ← pr_engine s; p' ← body_join p; Some (set_engine i p' s, ch)
  end.

Abbreviation pgnet := (list pgrank * chans E)%type.

Definition pg_move (r : nat) (mv : move) (g : pgnet) : option pgnet :=
  s ← g.1 !! r; '(s', ch') ← rank_step r mv s g.2; Some (<[r := s']> g.1, ch').

Definition pg_step (g g' : pgnet) : Prop := exists r mv, pg_move r mv g = Some g'.

Fixpoint pg_exec (sched : list (nat * move)) (g : pgnet) : option pgnet :=
  match sched with
  | [] => Some g
  | (r, mv) :: sched => g' ← pg_move r mv g; pg_exec sched g'
  end.

(** ** The specification *)

(** The bodies of a program, in the order of the calls. *)
Definition jobs_of (prog : list call) : list job :=
  omap (fun c => match c with CSync j | CAsync j => Some j | CWait _ => None end) prog.

(** One body after the other. *)
Fixpoint serial (js : list job) (m : Mem) : proc (E := E) (A := Mem) :=
  match js with
  | [] => Ret m
  | j :: js => pbind (j m) (fun f => serial js (f m))
  end.

(** Every execution is finite, with a common bound; from each of its states
    [P] can still be reached, and where it stops [P] holds. *)
Definition pg_inevitable (g : pgnet) (P : pgnet -> Prop) : Prop :=
  exists bound, forall m g1, nsteps pg_step m g g1 ->
    m <= bound /\ (exists g2, rtc pg_step g1 g2 /\ P g2) /\ ((forall g2, ~ pg_step g1 g2) -> P g1).

(** All programs have run to their end, all works are completed without an
    exception, and rank [r] has the tensors [outs r]. *)
Definition session_done (n : nat) (outs : nat -> Mem) (g : pgnet) : Prop :=
  length g.1 = n /\
  forall r s, g.1 !! r = Some s ->
    pr_prog s = [] /\ pr_caller s = None /\ pr_queue s = [] /\ pr_engine s = None /\ pr_failed s = None /\
    Forall (fun w => w = Some (Ok tt)) (pr_works s) /\ pr_mem s = outs r.

(** Programs that wait for their works before an [allreduce]: [k] works have
    been issued, all below [w] are known to be completed. *)
Fixpoint patient (k w : nat) (prog : list call) : Prop :=
  match prog with
  | [] => True
  | CSync _ :: prog => w = k /\ patient (k + 1) (k + 1) prog
  | CAsync _ :: prog => patient (k + 1) w prog
  | CWait i :: prog => i < k /\ patient k (Nat.max w (i + 1)) prog
  end.
End Session.

Arguments CSync {E Mem}. Arguments CAsync {E Mem}. Arguments CWait {E Mem}.

(** ** The correspondence *)

Section Refinement.
Context {E Mem : Type}.
Implicit Types (s : pgrank (E := E) (Mem := Mem)) (p : proc (E := E) (A := Mem -> Mem)).

(** The body that is at work, in whichever thread. *)
Definition active s : option (proc (E := E) (A := Mem -> Mem)) :=
  match pr_caller s with Some p => Some p | None => snd <$> pr_engine s end.

Definition pending s := (snd <$> pr_queue s) ++ jobs_of (pr_prog s).

(** What the serial program of the rank still has to do. *)
Definition residual s : proc (E := E) (A := Mem) :=
  match active s with
  | Some p => pbind p (fun f => serial (pending s) (f (pr_mem s)))
  | None => serial (pending s) (pr_mem s)
  end.

(** Works not yet completed: the one the engine is in, and those queued. *)
Definition open_works s : nat := match pr_engine s with Some _ => 1 | None => 0 end + length (pr_queue s).

(** The works are completed in the order of the calls, [c] so far; a body runs
    in the calling thread only while the engine has nothing to do. *)
Record session_inv s : Prop := {
  si_ok : pr_failed s = None;
  si_works : exists c, pr_works s = replicate c (Some (Ok tt)) ++ replicate (open_works s) None /\
    (forall i p, pr_engine s = Some (i, p) -> i = c) /\
    (pr_queue s).*1 = seq (c + match pr_engine s with Some _ => 1 | None => 0 end) (length (pr_queue s)) /\
    match pr_caller s with
    | Some _ => open_works s = 0 /\ patient (c + 1) (c + 1) (pr_prog s)
    | None => exists w, w <= c /\ patient (length (pr_works s)) w (pr_prog s)
    end;
}.

Lemma start_inv prog (m : Mem) : patient 0 0 prog -> session_inv (pg_start (E := E) prog m).
Proof.
  intros Hp. split; [done|]. exists 0. split_and!; [done|done|done|]. by exists 0.
Qed.

(** A step outside of the mesh leaves the serial program as it is. *)
Lemma caller_local_inv s s' :
  session_inv s -> (forall e, residual s <> Raise e) -> caller_local s = Some s' ->
  session_inv s' /\ residual s' = residual s.
Proof.
  intros [Hf (c & Hw & He & Hq & Hc)] Hr Hs. unfold caller_local in Hs. rewrite Hf in Hs.
  assert (length (pr_works s) = c + open_works s) as Hlen
    by (by rewrite Hw, length_app, !length_replicate).
  destruct (pr_caller s) as [p|] eqn:Hca.
  - destruct Hc as [Ho Hp]. unfold open_works in Ho.
    destruct (pr_engine s) eqn:Hen; [lia|]. destruct (pr_queue s) eqn:Hqu; [|simpl in Ho; lia].
    destruct p as [f|e|ths k]; [|exfalso|done].
    + injection Hs as <-. split.
      * split; [done|]. exists (c + 1). unfold open_works in *. cbn.
        rewrite ?Hw, ?Hen, ?Hqu. cbn. split_and!; [|done|done|].
        -- rewrite !app_nil_r. by rewrite replicate_add.
        -- exists (c + 1). split; [done|]. rewrite !length_app, !length_replicate. cbn.
           by replace (c + 0 + 1) with (c + 1) by lia.
      * unfold residual, active, pending. cbn. rewrite ?Hca, ?Hen, ?Hqu. done.
    + apply (Hr e). unfold residual, active. by rewrite Hca.
  - destruct Hc as (w & Hwc & Hp). destruct (pr_prog s) as [|[j|j|i] prog] eqn:Hpr; [done| | |].
    + injection Hs as <-. destruct Hp as [-> Hp]. assert (open_works s = 0) as Ho by lia.
      unfold open_works in Ho. destruct (pr_engine s) eqn:Hen; [lia|].
      destruct (pr_queue s) eqn:Hqu; [|simpl in Ho; lia]. split.
      * split; [done|]. exists c. unfold open_works in *. cbn. rewrite Hen, Hqu in *. cbn in *.
        split_and!; [done|done|done|done|]. by replace (c + 1) with (length (pr_works s) + 1) by lia.
      * unfold residual, active, pending. cbn. by rewrite ?Hca, ?Hen, ?Hqu, ?Hpr.
    + injection Hs as <-. split.
      * split; [done|]. exists c. unfold open_works in *. cbn. rewrite length_app. cbn. split_and!.
        -- rewrite Hw, <- app_assoc. f_equal. change [None] with (replicate 1 (@None (result unit))).
           rewrite <- replicate_add. f_equal. lia.
        -- exact He.
        -- rewrite fmap_app, Hq, seq_app. cbn. rewrite Hlen. do 2 f_equal. lia.
        -- exists w. split; [done|]. rewrite length_app. cbn. by rewrite Hlen in *.
      * unfold residual, active, pending. cbn. rewrite ?Hca, ?Hpr. rewrite fmap_app. cbn.
        by rewrite <- app_assoc.
    + destruct Hp as [Hi Hp]. destruct (pr_works s !! i) as [[[[]|e]|]|] eqn:Hwi; try done.
      * injection Hs as <-. split.
        -- split; [done|]. exists c. unfold open_works in *. cbn. split_and!; [done..|].
           exists (Nat.max w (i + 1)). split; [|done].
           destruct (decide (i < c)) as [|Hge]; [lia|]. exfalso. rewrite Hw in Hwi.
           rewrite lookup_app_r in Hwi by (rewrite length_replicate; lia).
           apply lookup_replicate in Hwi as [[=] _].
        -- unfold residual, active, pending. cbn. by rewrite ?Hca, ?Hpr.
      * exfalso. rewrite Hw in Hwi. apply lookup_app_Some in Hwi as [Hwi|[_ Hwi]];
          apply lookup_replicate in Hwi as [[=] _].
Qed.

Lemma engine_local_inv s s' :
  session_inv s -> (forall e, residual s <> Raise e) -> engine_local s = Some s' ->
  session_inv s' /\ residual s' = residual s.
Proof.
  intros [Hf (c & Hw & He & Hq & Hc)] Hr Hs. unfold engine_local in Hs.
  destruct (pr_engine s) as [[i p]|] eqn:Hen.
  - assert (pr_caller s = None) as Hca.
    { destruct (pr_caller s); [|done]. destruct Hc as [Ho _]. unfold open_works in Ho. rewrite Hen in Ho. lia. }
    rewrite Hca in Hc. pose proof (He _ _ eq_refl) as ->.
    destruct p as [f|e|ths k]; [|exfalso|done].
    + injection Hs as <-. unfold open_works in Hw. rewrite Hen in Hw. cbn in Hw. split.
      * split; [done|]. exists (c + 1). unfold open_works. cbn. rewrite Hw, Hca. split_and!; [|done| |].
        -- rewrite insert_app_r_alt by (rewrite length_replicate; done).
           rewrite length_replicate, Nat.sub_diag. cbn. by rewrite replicate_add, <- app_assoc.
        -- by rewrite Nat.add_0_r.
        -- destruct Hc as (w & Hwc & Hp). exists w. split; [lia|]. rewrite length_insert. by rewrite Hw in Hp.
      * unfold residual, active, pending. cbn. by rewrite ?Hca, ?Hen.
    + apply (Hr e). unfold residual, active. by rewrite ?Hca, ?Hen.
  - destruct (pr_queue s) as [|[i j] q] eqn:Hqu; [done|]. injection Hs as <-.
    assert (pr_caller s = None) as Hca.
    { destruct (pr_caller s); [|done]. destruct Hc as [Ho _]. unfold open_works in Ho.
      rewrite Hen, Hqu in Ho. cbn in Ho. lia. }
    rewrite Hca in Hc. cbn in Hq. rewrite Nat.add_0_r in Hq. injection Hq as -> Hq. split.
    + split; [done|]. exists c. unfold open_works in *. rewrite Hen, Hqu in Hw. cbn in *.
      rewrite Hca. split_and!; [done|by intros ? ? [= <- _]| |done]. by rewrite Nat.add_1_r.
    + unfold residual, active, pending. cbn. rewrite ?Hca, ?Hen, ?Hqu. done.
Qed.

(** ** Steps at the mesh *)

Lemma body_act_step r t p ch p' ch' {B} (g : (Mem -> Mem) -> proc (E := E) (A := B)) procs :
  body_act r t p ch = Some (p', ch') -> procs !! r = Some (pbind p g) ->
  step (procs, ch) (<[r := pbind p' g]> procs, ch').
Proof.
  unfold body_act. intros Hb Hp. destruct p as [|? |ths k]; [done..|].
  destruct (ths !! t) as [[[|a acts] got]|] eqn:Ht; [done| |done].
  destruct (do_act r a ch) as [[x ch1]|] eqn:Hd; [|done]. cbn in Hb. injection Hb as <- <-.
  exists (AThread r t). cbn. by eapply step_act.
Qed.

Lemma body_join_step r p ch p' {B} (g : (Mem -> Mem) -> proc (E := E) (A := B)) procs :
  body_join p = Some p' -> procs !! r = Some (pbind p g) -> step (procs, ch) (<[r := pbind p' g]> procs, ch).
Proof.
  unfold body_join. intros Hb Hp. destruct p as [|? |ths k]; [done..|]. case_decide; [|done].
  injection Hb as <-. exists (AJoin r).
  by apply (step_join r procs ch ths (fun got => pbind (k got) g)).
Qed.

(** What a body that waits at a fork can do, its rank can do. *)
Lemma fork_step_body r a ths k {B} (g : (Mem -> Mem) -> proc (E := E) (A := B)) (procs : list proc) ch st :
  net_step a (procs, ch) st -> (match a with AThread q _ | AJoin q => q end) = r ->
  procs !! r = Some (pbind (Fork ths k) g) ->
  (exists t p' ch', body_act r t (Fork ths k) ch = Some (p', ch')) \/ (exists p', body_join (Fork ths k) = Some p').
Proof.
  intros Hs Ha Hp. inversion Hs as [q t ? ? ths' k' x acts got gg ch' Hr Ht Hd|q ? ? ths' k' Hr Hall]; subst;
    rewrite Hp in Hr; injection Hr as <- <-.
  - left. exists t. unfold body_act. rewrite Ht, Hd. cbn. by do 2 eexists.
  - right. unfold body_join. rewrite decide_True by done. by eexists.
Qed.

Definition at_mesh (mv : move) : bool := match mv with MCaller | MEngine => false | _ => true end.

Lemma engine_excludes_caller s i p : session_inv s -> pr_engine s = Some (i, p) -> pr_caller s = None.
Proof.
  intros [_ (c & _ & _ & _ & Hc)] Hen. destruct (pr_caller s); [|done].
  destruct Hc as [Ho _]. unfold open_works in Ho. rewrite Hen in Ho. lia.
Qed.

Lemma set_caller_inv s p p' : session_inv s -> pr_caller s = Some p -> session_inv (set_caller p' s).
Proof. intros [Hf (c & H)] Hc. rewrite Hc in H. split; [done|]. by exists c. Qed.

Lemma set_engine_inv s i p p' : session_inv s -> pr_engine s = Some (i, p) -> session_inv (set_engine i p' s).
Proof.
  intros [Hf (c & Hw & He & Hq & Hc)] Hen. split; [done|]. exists c. unfold open_works in *. cbn in *.
  rewrite Hen in *. split_and!; [done| |done|done]. intros ? ? [= <- _]. by eapply He.
Qed.

Lemma mesh_step_inv r mv s ch s' ch' procs :
  session_inv s -> at_mesh mv = true -> rank_step r mv s ch = Some (s', ch') ->
  procs !! r = Some (residual s) ->
  session_inv s' /\ step (procs, ch) (<[r := residual s']> procs, ch').
Proof.
  intros Hi Hm Hs Hp. destruct mv as [| |t| |t|]; try done; cbn in Hs.
  - destruct (pr_caller s) as [p|] eqn:Hc; [|done]. cbn in Hs.
    destruct (body_act r t p ch) as [[p' c']|] eqn:Hb; [|done]. cbn in Hs. injection Hs as <- <-.
    split; [by eapply set_caller_inv|]. unfold residual, active in Hp. rewrite Hc in Hp.
    by apply (body_act_step _ _ _ _ _ _ _ _ Hb Hp).
  - destruct (pr_caller s) as [p|] eqn:Hc; [|done]. cbn in Hs.
    destruct (body_join p) as [p'|] eqn:Hb; [|done]. cbn in Hs. injection Hs as <- <-.
    split; [by eapply set_caller_inv|]. unfold residual, active in Hp. rewrite Hc in Hp.
    by apply (body_join_step _ _ _ _ _ _ Hb Hp).
  - destruct (pr_engine s) as [[i p]|] eqn:He; [|done]. cbn in Hs.
    pose proof (engine_excludes_caller s i p Hi He) as Hc.
    destruct (body_act r t p ch) as [[p' c']|] eqn:Hb; [|done]. cbn in Hs. injection Hs as <- <-.
    split; [by eapply set_engine_inv|]. unfold residual, active in Hp |- *. cbn. rewrite Hc, He in Hp. rewrite Hc.
    by apply (body_act_step _ _ _ _ _ _ _ _ Hb Hp).
  - destruct (pr_engine s) as [[i p]|] eqn:He; [|done]. cbn in Hs.
    pose proof (engine_excludes_caller s i p Hi He) as Hc.
    destruct (body_join p) as [p'|] eqn:Hb; [|done]. cbn in Hs. injection Hs as <- <-.
    split; [by eapply set_engine_inv|]. unfold residual, active in Hp |- *. cbn. rewrite Hc, He in Hp. rewrite Hc.
    by apply (body_join_step _ _ _ _ _ _ Hb Hp).
Qed.

(** Steps outside of the mesh that are left. *)
Definition rank_measure s : nat :=
  3 * length (pr_prog s) + 2 * length (pr_queue s) +
  (match pr_engine s with Some _ => 1 | None => 0 end) + (match pr_caller s with Some _ => 1 | None => 0 end).

Lemma rank_step_measure r mv s ch s' ch' :
  rank_step r mv s ch = Some (s', ch') ->
  rank_measure s' + (if at_mesh mv then 0 else 1) <= rank_measure s.
Proof.
  unfold rank_measure. intros Hs. destruct mv; cbn in Hs |- *.
  - destruct (caller_local s) as [x|] eqn:Hx; [|done]. cbn in Hs. injection Hs as <- <-.
    unfold caller_local in Hx. destruct (pr_failed s); [done|].
    destruct (pr_caller s) as [[]|]; try done; [by injection Hx as <-; cbn; lia..|].
    destruct (pr_prog s) as [|[] prog]; [done|by injection Hx as <-; cbn; lia| |].
    + injection Hx as <-. cbn. rewrite length_app. cbn. lia.
    + destruct (pr_works s !! i) as [[[]|]|]; try done; injection Hx as <-; cbn; lia.
  - destruct (engine_local s) as [x|] eqn:Hx; [|done]. cbn in Hs. injection Hs as <- <-.
    unfold engine_local in Hx. destruct (pr_engine s) as [[i []]|]; try done; [injection Hx as <-; cbn; lia..|].
    destruct (pr_queue s) as [|[]]; [done|]. injection Hx as <-. cbn. lia.
  - destruct (pr_caller s) as [p|]; [|done]. cbn in Hs. destruct (body_act r t p ch) as [[]|]; [|done].
    injection Hs as <- <-. cbn. lia.
  - destruct (pr_caller s) as [p|]; [|done]. cbn in Hs. destruct (body_join p); [|done].
    injection Hs as <- <-. cbn. lia.
  - destruct (pr_engine s) as [[i p]|]; [|done]. cbn in Hs. destruct (body_act r t p ch) as [[]|]; [|done].
    injection Hs as <- <-. cbn. lia.
  - destruct (pr_engine s) as [[i p]|]; [|done]. cbn in Hs. destruct (body_join p); [|done].
    injection Hs as <- <-. cbn. lia.
Qed.

(** A rank that cannot move by itself has ended or is at a fork. *)
Lemma rank_progress s :
  session_inv s -> (forall e, residual s <> Raise e) ->
  (exists s', caller_local s = Some s' \/ engine_local s = Some s') \/
  (exists ths k, active s = Some (Fork ths k)) \/
  (pr_prog s = [] /\ pr_caller s = None /\ pr_queue s = [] /\ pr_engine s = None /\
   Forall (fun w => w = Some (Ok tt)) (pr_works s)).
Proof.
  intros Hi Hr. pose proof Hi as [Hf (c & Hw & He & Hq & Hc)].
  unfold active, caller_local, engine_local. rewrite Hf.
  destruct (pr_caller s) as [[f|e|ths k]|] eqn:Hca; [left; eauto|left; eauto|right; left; eauto|].
  destruct (pr_engine s) as [[i [f|e|ths k]]|] eqn:Hen; [left; eauto|left; eauto|right; left; cbn; eauto|].
  destruct (pr_queue s) as [|[i j] q] eqn:Hqu; [|left; eauto].
  assert (open_works s = 0) as Ho by (unfold open_works; by rewrite Hen, Hqu).
  rewrite Ho, app_nil_r in Hw.
  destruct (pr_prog s) as [|[j|j|i] prog] eqn:Hpr; [|left; eauto..|].
  - right. right. split_and!; [done..|]. rewrite Hw. apply Forall_replicate. done.
  - left. destruct Hc as (w & _ & Hlt & _). rewrite Hw, length_replicate in Hlt.
    assert (pr_works s !! i = Some (Some (Ok tt))) as -> by (rewrite Hw; by apply lookup_replicate_2). eauto.
Qed.
End Refinement.

(** ** The theorem *)

Section Correspondence.
Context {E Mem : Type} (n : nat).
Implicit Types (g : list (pgrank (E := E) (Mem := Mem)) * chans E).

Definition abstract_net g : net (E := E) (A := Mem) := (residual <$> g.1, g.2).
Definition net_measure g : nat := sum_list (rank_measure <$> g.1).

Lemma sum_list_insert (l : list nat) i x y :
  l !! i = Some x -> sum_list (<[i := y]> l) + x = sum_list l + y.
Proof.
  intros H. rewrite (insert_take_drop l i y) by (by eapply lookup_lt_Some).
  rewrite <- (take_drop_middle l i x H) at 3. rewrite !sum_list_with_app. cbn. lia.
Qed.

(** A body that has thrown stays so. *)
Lemma raise_stays (s s' : net (E := E) (A := Mem)) r e :
  rtc step s s' -> s.1 !! r = Some (Raise e) -> s'.1 !! r = Some (Raise e).
Proof.
  induction 1 as [|s s1 s2 [a Ha] _ IH]; [done|]. intros Hr. apply IH.
  inversion Ha; subst; cbn in *; rewrite list_lookup_insert_ne; congruence.
Qed.

Context (N0 : net (E := E) (A := Mem)) (outs : nat -> Mem) (bound : nat).
Context (Hinev : forall m s, nsteps step m N0 s ->
  m <= bound /\ (exists s2, rtc step s s2 /\ returned n outs s2) /\ (final s -> returned n outs s)).

(** The states of the refinement: reachable for the serial programs, and every
    rank in order. *)
Definition in_step (j : nat) g : Prop :=
  nsteps step j N0 (abstract_net g) /\ Forall session_inv g.1.

Lemma in_step_no_raise j g r s e : in_step j g -> g.1 !! r = Some s -> residual s <> Raise e.
Proof using Hinev.
  intros [Hj _] Hs He. destruct (Hinev j _ Hj) as (_ & (s2 & R & Hret) & _).
  apply (raise_stays _ _ r e) in R; [|cbn; by rewrite list_lookup_fmap, Hs, <- He].
  rewrite Hret in R. unfold procs_of in R. apply list_lookup_fmap_Some in R as (? & [=] & _).
Qed.

Lemma in_step_move j g g' :
  in_step j g -> pg_step g g' ->
  exists j', in_step (j + j') g' /\ 1 + net_measure g' <= j' + net_measure g.
Proof using Hinev.
  intros Hin (r & mv & Hm). destruct g as [ranks ch]. pose proof Hin as [Hj Hall]. cbn in *.
  unfold pg_move in Hm. cbn in Hm. destruct (ranks !! r) as [s|] eqn:Hs; [|done]. cbn in Hm.
  destruct (rank_step r mv s ch) as [[s' ch']|] eqn:Hr; [|done]. cbn in Hm. injection Hm as <-.
  pose proof (Forall_lookup_1 _ _ _ _ Hall Hs) as Hi.
  assert (forall e, residual s <> Raise e) as Hno by (intros e; by eapply in_step_no_raise).
  assert (1 + net_measure (<[r := s']> ranks, ch') <= (if at_mesh mv then 1 else 0) + net_measure (ranks, ch)) as Hmeas.
  { pose proof (rank_step_measure _ _ _ _ _ _ Hr) as Hd. unfold net_measure. cbn [fst].
    rewrite list_fmap_insert. pose proof (sum_list_insert (rank_measure <$> ranks) r _ (rank_measure s')
      ltac:(by rewrite list_lookup_fmap, Hs)) as Hsum. destruct (at_mesh mv); lia. }
  assert (forall s'', residual s'' = residual s -> residual <$> <[r := s'']> ranks = residual <$> ranks) as Hsame.
  { intros s'' Hre. rewrite list_fmap_insert, Hre. apply list_insert_id. by rewrite list_lookup_fmap, Hs. }
  destruct (at_mesh mv) eqn:Hat.
  - exists 1. split; [|done].
    destruct (mesh_step_inv r mv s ch s' ch' (residual <$> ranks) Hi Hat Hr) as [Hi' Hst];
      [by rewrite list_lookup_fmap, Hs|].
    split; [|by apply Forall_insert]. rewrite Nat.add_1_r. eapply nsteps_r; [exact Hj|].
    unfold abstract_net. cbn. by rewrite list_fmap_insert.
  - exists 0. split; [|done]. rewrite Nat.add_0_r.
    destruct mv; try done; cbn in Hr.
    + destruct (caller_local s) as [x|] eqn:Hx; [|done]. cbn in Hr. injection Hr as <- <-.
      destruct (caller_local_inv s x Hi Hno Hx) as [Hi' Hre].
      split; [|by apply Forall_insert]. unfold abstract_net in *. cbn in *. by rewrite Hsame.
    + destruct (engine_local s) as [x|] eqn:Hx; [|done]. cbn in Hr. injection Hr as <- <-.
      destruct (engine_local_inv s x Hi Hno Hx) as [Hi' Hre].
      split; [|by apply Forall_insert]. unfold abstract_net in *. cbn in *. by rewrite Hsame.
Qed.

Lemma in_step_moves k j g g' :
  nsteps pg_step k g g' -> in_step j g ->
  exists j', in_step (j + j') g' /\ k + net_measure g' <= j' + net_measure g.
Proof using Hinev.
  intros Hk. revert j. induction Hk as [g|k g g1 g' H _ IH]; intros j Hin.
  { exists 0. by rewrite Nat.add_0_r. }
  destruct (in_step_move j g g1 Hin H) as (j1 & Hin1 & Hm1).
  destruct (IH _ Hin1) as (j2 & Hin2 & Hm2). exists (j1 + j2). rewrite Nat.add_assoc. split; [done|lia].
Qed.

(** Nothing is left to do on a rank. *)
Definition settled (s : pgrank (E := E) (Mem := Mem)) : Prop :=
  pr_prog s = [] /\ pr_caller s = None /\ pr_queue s = [] /\ pr_engine s = None /\
  Forall (fun w => w = Some (Ok tt)) (pr_works s).

Lemma settled_residual s : settled s -> residual s = Ret (pr_mem s).
Proof. intros (H1 & H2 & H3 & H4 & _). unfold residual, active, pending. by rewrite H1, H2, H3, H4. Qed.

(** A rank moves by itself, is in a body, or is settled. *)
Lemma rank_alternatives j g r s :
  in_step j g -> g.1 !! r = Some s ->
  (exists g', pg_step g g') \/ (exists ths k, active s = Some (Fork ths k)) \/ settled s.
Proof using Hinev.
  intros Hin Hs. pose proof Hin as [_ Hall]. destruct g as [ranks ch]. cbn in *.
  destruct (rank_progress s) as [(s' & Hl)|H]; [by eapply Forall_lookup_1| |left|by right].
  - intros e. by eapply in_step_no_raise.
  - exists (<[r := s']> ranks, ch). exists r. destruct Hl as [Hl|Hl]; [exists MCaller|exists MEngine];
      unfold pg_move; cbn; rewrite Hs; cbn; rewrite Hl; done.
Qed.

(** Unless something moves, ranks that are in no body are all settled. *)
Lemma ranks_settled j g :
  in_step j g -> (forall r s ths k, g.1 !! r = Some s -> active s <> Some (Fork ths k)) ->
  (exists g', pg_step g g') \/ forall r s, g.1 !! r = Some s -> settled s.
Proof using Hinev.
  intros Hin Hno.
  assert (forall m, m <= length g.1 -> (exists g', pg_step g g') \/ forall r s, r < m -> g.1 !! r = Some s -> settled s) as Hm.
  { induction m as [|m IH]; intros Hmn; [right; intros; lia|]. destruct (IH ltac:(lia)) as [|IHm]; [by left|].
    destruct (lookup_lt_is_Some_2 g.1 m) as [s Hs]; [lia|].
    destruct (rank_alternatives j g m s Hin Hs) as [|[(ths & k & Hact)|Hd]]; [by left|by destruct (Hno m s ths k)|].
    right. intros r s' Hr Hs'. destruct (decide (r = m)) as [->|]; [by simplify_eq|]. apply (IHm r); [lia|done]. }
  destruct (Hm (length g.1)) as [|Hd]; [done|by left|]. right. intros r s Hs. apply (Hd r); [|done]. by eapply lookup_lt_Some.
Qed.

(** A body whose serial program can move moves, on the calling thread or on the
    engine. *)
Lemma body_moves ranks ch r s ths k :
  ranks !! r = Some s -> active s = Some (Fork ths k) ->
  (exists t p' ch', body_act r t (Fork ths k) ch = Some (p', ch')) \/ (exists p', body_join (Fork ths k) = Some p') ->
  exists g', pg_step (ranks, ch) g'.
Proof.
  intros Hs Hact Hcan. unfold active in Hact. destruct (pr_caller s) as [pc|] eqn:Hc.
  - injection Hact as ->. destruct Hcan as [(t & p' & ch' & Hb)|(p' & Hb)].
    + eexists. exists r, (MCallerAct t). unfold pg_move. cbn [fst snd]. rewrite Hs. cbn. rewrite Hc. cbn -[body_act]. by rewrite Hb.
    + eexists. exists r, MCallerJoin. unfold pg_move. cbn [fst snd]. rewrite Hs. cbn. rewrite Hc. cbn -[body_join]. by rewrite Hb.
  - destruct (pr_engine s) as [[i pe]|] eqn:Hen; [|done]. cbn in Hact. injection Hact as ->.
    destruct Hcan as [(t & p' & ch' & Hb)|(p' & Hb)].
    + eexists. exists r, (MEngineAct t). unfold pg_move. cbn [fst snd]. rewrite Hs. cbn. rewrite Hen. cbn -[body_act]. by rewrite Hb.
    + eexists. exists r, MEngineJoin. unfold pg_move. cbn [fst snd]. rewrite Hs. cbn. rewrite Hen. cbn -[body_join]. by rewrite Hb.
Qed.

(** Either the session is over, or something can move. *)
Lemma in_step_progress j g :
  in_step j g -> length g.1 = n -> session_done n outs g \/ exists g', pg_step g g'.
Proof using Hinev.
  intros Hin Hlen. destruct g as [ranks ch]. pose proof Hin as [Hj Hall]. cbn in *.
  destruct (Hinev j _ Hj) as (_ & (s2 & R & Hret) & _).
  apply rtc_inv in R as [Heq|(s1 & [a Ha] & _)]; [subst s2|].
  - (* all serial programs have returned *)
    unfold returned, abstract_net in Hret. cbn in Hret.
    assert (forall r s, ranks !! r = Some s -> residual s = Ret (outs r)) as Hres.
    { intros r s Hs. pose proof (lookup_lt_Some _ _ _ Hs). apply (f_equal (fun l => l !! r)) in Hret.
      rewrite list_lookup_fmap, Hs, lookup_procs_of in Hret by lia. by injection Hret. }
    destruct (ranks_settled j (ranks, ch) Hin) as [|Hd]; [|by right|].
    { intros r s ths k Hs Hact. specialize (Hres r s Hs). unfold residual in Hres. by rewrite Hact in Hres. }
    left. split; [done|]. cbn. intros r s Hs. pose proof (Hd r s Hs) as Hset. pose proof Hset as (H1 & H2 & H3 & H4 & H5).
    split_and!; [done..| |done|].
    + by apply (Forall_lookup_1 _ _ _ _ Hall) in Hs as [].
    + specialize (Hres r s Hs). rewrite settled_residual in Hres by done. by injection Hres.
  - (* a serial program can move *)
    right. change (abstract_net (ranks, ch)) with (residual <$> ranks, ch) in Ha.
    set (r := match a with AThread q _ | AJoin q => q end).
    assert (exists ths k, (residual <$> ranks) !! r = Some (Fork ths k)) as (ths & k & Hr).
    { inversion Ha; subst; by do 2 eexists. }
    rewrite list_lookup_fmap in Hr. destruct (ranks !! r) as [s|] eqn:Hs; [|done]. cbn in Hr. injection Hr as Hr.
    destruct (rank_alternatives j (ranks, ch) r s Hin Hs) as [|[(ths' & k' & Hact)|Hd]]; [done| |].
    + eapply body_moves; [exact Hs|exact Hact|]. eapply fork_step_body; [exact Ha|done|].
      rewrite list_lookup_fmap, Hs. cbn. unfold residual. by rewrite Hact.
    + by rewrite settled_residual in Hr.
Qed.
End Correspondence.

(** Bounded executions that can always go on until [P] holds reach [P]. *)
Lemma pg_inevitable_intro {E Mem} (g0 : list (pgrank (E := E) (Mem := Mem)) * chans E) bound P :
  (forall m g, nsteps pg_step m g0 g -> m <= bound /\ (P g \/ exists g', pg_step g g')) ->
  (forall g, P g -> forall g', ~ pg_step g g') ->
  pg_inevitable g0 P.
Proof.
  intros H HP. exists bound. intros m g Hm. destruct (H m g Hm) as [Hb Hg]. split_and!; [done| |].
  - clear Hg. remember (bound - m) as d eqn:Hd. revert m g Hm Hb Hd. induction d as [|d IH]; intros m g Hm Hb Hd.
    + destruct (H m g Hm) as [_ [HPg|[g' Hs]]]; [by exists g|].
      destruct (H (S m) g') as [? _]; [by eapply nsteps_r|lia].
    + destruct (H m g Hm) as [_ [HPg|[g' Hs]]]; [by exists g|].
      assert (nsteps pg_step (S m) g0 g') as Hm' by (by eapply nsteps_r).
      destruct (H _ _ Hm') as [Hb' _]. destruct (IH (S m) g' Hm' Hb' ltac:(lia)) as (g2 & R & HP2).
      exists g2. split; [|done]. by eapply rtc_l.
  - intros Hfin. destruct Hg as [|[g' Hs]]; [done|]. by apply Hfin in Hs.
Qed.

Lemma session_done_final {E Mem} (n : nat) (outs : nat -> Mem) (g g' : list (pgrank (E := E) (Mem := Mem)) * chans E) :
  session_done n outs g -> ~ pg_step g g'.
Proof.
  intros [_ Hd] (r & mv & Hm). unfold pg_move in Hm. destruct (g.1 !! r) as [s|] eqn:Hs; [|done].
  destruct (Hd r s Hs) as (H1 & H2 & H3 & H4 & H5 & _). cbn in Hm. unfold rank_step in Hm.
  destruct mv; cbn in Hm; unfold caller_local, engine_local in Hm;
    rewrite ?H1, ?H2, ?H3, ?H4, ?H5 in Hm; done.
Qed.

Lemma nsteps_ranks {E Mem} (k : nat) (g g' : list (pgrank (E := E) (Mem := Mem)) * chans E) :
  nsteps pg_step k g g' -> length g'.1 = length g.1.
Proof.
  induction 1 as [|k g g1 g2 (r & mv & Hm) _ IH]; [done|]. rewrite IH. unfold pg_move in Hm.
  destruct (g.1 !! r) as [s|]; [|done]. cbn in Hm. destruct (rank_step r mv s g.2) as [[]|]; [|done].
  injection Hm as <-. apply length_insert.
Qed.

(** A session refines the serial programs.  Rank [r] runs the program [prog r]
    on the tensors [m r]; every program waits for the works it has submitted
    before a call whose body runs in the calling thread.  If the bodies run one
    after the other on all ranks inevitably return with the tensors [outs],
    then every execution of the session, whatever the interleaving of the
    calling threads, the engine threads and the threads that the bodies fork,
    is finite and ends with all programs finished, all works completed without
    an exception, and the same tensors. *)
Theorem session_refines_serial {E Mem} (n : nat) (prog : nat -> list (call (E := E) (Mem := Mem))) (m outs : nat -> Mem) :
  (forall r, r < n -> patient 0 0 (prog r)) ->
  inevitable (procs_of n (fun r => serial (jobs_of (prog r)) (m r)), ∅) (returned n outs) ->
  pg_inevitable ((fun r => pg_start (prog r) (m r)) <$> seq 0 n, ∅) (session_done n outs).
Proof.
  intros Hp [bound Hb]. set (g0 := ((fun r => pg_start (prog r) (m r)) <$> seq 0 n, ∅)).
  assert (in_step (procs_of n (fun r => serial (jobs_of (prog r)) (m r)), ∅) 0 g0) as H0.
  { split.
    - assert (abstract_net g0 = (procs_of n (fun r => serial (jobs_of (prog r)) (m r)), ∅)) as ->; [|constructor].
      unfold abstract_net, g0, procs_of. cbn. f_equal. rewrite <- list_fmap_compose. by apply list_fmap_ext.
    - apply Forall_fmap, Forall_forall. intros r Hr. apply start_inv, Hp. apply elem_of_seq in Hr. lia. }
  apply (pg_inevitable_intro _ (bound + net_measure g0)).
  - intros k g Hk. destruct (in_step_moves n _ outs bound Hb k 0 g0 g Hk H0) as (j & Hin & Hm). split.
    + destruct Hin as [Hj _]. destruct (Hb _ _ Hj) as [Hle _]. cbn in Hle. lia.
    + eapply (in_step_progress n _ outs bound Hb); [exact Hin|]. rewrite (nsteps_ranks _ _ _ Hk).
      unfold g0. cbn. by rewrite length_fmap, length_seq.
  - intros g Hd g'. by eapply session_done_final.
Qed.
