(* ===== verification/ProcessGroup.v ===== *)
(** * The process group ([csrc/backend/ProcessGroupMCCL.cpp] and its header,
    [csrc/backend/Registration.cpp])

    The object itself: construction and what it owns, the entry of every
    method in the calling thread (the checks made there, the shortcuts of a
    group of one, the submission of the body), and the composition of the
    bodies of [Collectives] into whole sessions ([Session]).  A call names its
    tensors by their place in the memory of the rank, so that the bodies read
    them when they run.

    [copy_] and the conversion to and from bfloat16 are operations of PyTorch:
    parameters, with what the code relies on as hypotheses. *)
From S2P Require Import Prelude CString Network Allreduce Collectives PointToPoint Rendezvous ListCollectives Session.

(** ** Construction *)

Record Options := mkOptions { timeout : Z }.                (* milliseconds *)
Definition default_options : Options := mkOptions (30 * 60 * 1000).

(** [linked]: [rendezvous_], [mesh_] and [engine_] are there; they are created
    together. *)
Record ProcessGroup := mkGroup {
  getRank : nat; getSize : nat; opts_ : Options; linked : bool; seq_ : Z;
}.

(** The constructor.  [metal] is the outcome of [metal_kernels_init], [store]
    whether there is one (checked by [Rendezvous]), [mesh] the outcome of the
    constructor of [PeerMesh] ([MeshSetup]). *)
Definition pg_new (rank size : Z) (opts : Options) (metal : result unit) (store : bool) (mesh : result unit)
    : result ProcessGroup :=
  if negb ((0 <=? rank) && (rank <? size))%Z then Throw (MCCLError "rank/size invalid") else
  match metal with
  | Throw e => Throw e
  | Ok _ =>
    let g := mkGroup (Z.to_nat rank) (Z.to_nat size) opts in
    if (size >? 1)%Z then
      if negb store then Throw (MCCLError "Store must not be null") else
      match mesh with
      | Throw e => Throw e
      | Ok _ => Ok (g true 0%Z)
      end
    else Ok (g false 0%Z)
  end.

(** A float as a multiple of a power of two. *)
Record float := mkFloat { mant : Z; expo : Z }.

(** Rounding to 24 bits, to nearest and to even. *)
Definition f32_round (m e : Z) : float :=
  let k := Z.max 0 (Z.log2 (Z.abs m) - 23) in
  let q := Z.shiftr (Z.abs m) k in
  let rest := (Z.abs m - Z.shiftl q k)%Z in
  let half := Z.shiftl 1 (k - 1) in
  let up := (0 <? k)%Z && ((half <? rest)%Z || ((half =? rest)%Z && Z.odd q)) in
  mkFloat (Z.sgn m * (q + (if up then 1 else 0))) (e + k).

(** [duration_cast<milliseconds>(duration<float>)]: the product with 1000 in
    single precision, then truncation. *)
Definition to_milliseconds (t : float) : Z :=
  let p := f32_round (mant t * 1000) (expo t) in
  if (0 <=? expo p)%Z then Z.shiftl (mant p) (expo p) else Z.quot (mant p) (2 ^ (- expo p)).

Definition create (rank size : Z) (t : float) (metal : result unit) (store : bool) (mesh : result unit) :=
  pg_new rank size (mkOptions (to_milliseconds t)) metal store mesh.

(** The factory that [register_mccl_backend] hands to Python, its timeout
    optional. *)
Definition _create_process_group_mccl (rank size : Z) (t : option Z) (metal : result unit) (store : bool)
    (mesh : result unit) :=
  pg_new rank size (mkOptions (default (30 * 60 * 1000)%Z t)) metal store mesh.

Definition next_seq_ (g : ProcessGroup) : Z * ProcessGroup :=
  (seq_ g, mkGroup (getRank g) (getSize g) (opts_ g) (linked g) (u64 (seq_ g + 1))).

(** [barrier]: [None] when the work is completed at once, otherwise the tag of
    the barrier that is submitted. *)
Definition barrier_call (g : ProcessGroup) : option str * ProcessGroup :=
  if (getSize g =? 1) || negb (linked g) then (None, g)
  else let '(s, g) := next_seq_ g in (Some (pg_barrier_tag (Z.to_nat s)), g).

Fixpoint barrier_calls (k : nat) (g : ProcessGroup) : list (option str) :=
  match k with
  | 0 => []
  | S k => let '(t, g) := barrier_call g in t :: barrier_calls k g
  end.

(** [key(op, seq, r)], which nothing calls. *)
Definition key (op : str) (seq r : nat) : str :=
  lit "mccl/" ++ op ++ lit "/" ++ to_string seq ++ lit "/" ++ to_string r.

(** ** The calls *)

Section Calls.
Context {E : Type} (redop : E -> E -> E) (scale : E -> E).
Context (copy_ : tensor (E := E) -> tensor (E := E) -> result (tensor (E := E))).
(** What the environment and the allocator give to a call. *)
Context (env_alg : option algo) (tree_below : option nat) (esize : nat) (scratch : nat -> list E).
Context (zero : E) (beyond : nat -> list E) (behind heap : list E).

Abbreviation tens := (tensor (E := E)).
Abbreviation memory := (list (tensor (E := E))).
Abbreviation pgcall := (call (E := E) (Mem := list (tensor (E := E)))).

(** What a method does in the calling thread: it goes on with a body, it
    throws, or it reads behind the end of a vector. *)
Inductive entry := Goes (c : pgcall) | Throws (e : error) | Undefined.

(** An undefined tensor. *)
Definition null_tensor : tens := mkTensor false false [].
Definition fetch1 (m : memory) (i : nat) : tens := default null_tensor (m !! i).
Definition fetch (m : memory) (ids : list nat) : list tens := fetch1 m <$> ids.
Definition store (ids : list nat) (ts : list tens) (m : memory) : memory :=
  foldl (fun m it => <[it.1 := it.2]> m) m (zip ids ts).

(** [make_completed] of the tensors as they are. *)
Definition completed : entry := Goes (CSync (fun _ => Ret (fun m => m))).
(** [out.copy_(in)], then [make_completed]. *)
Definition copied (out inp : nat) : entry :=
  Goes (CSync (fun m => match copy_ (fetch1 m out) (fetch1 m inp) with
                        | Ok t => Ret (store [out] [t])
                        | Throw e => Raise e
                        end)).
(** [async_submit_]. *)
Definition submitted_body (ids : list nat) (body : memory -> proc (E := E) (A := list tens)) : entry :=
  Goes (CAsync (fun m => pbind (body m) (fun ts => Ret (store ids ts)))).

(** The methods, with the places of their tensors; the split sizes are those
    of every rank. *)
Inductive request :=
  | RAllreduce (avg : bool) (ids : list nat)
  | RBroadcast (root : nat) (ids : list nat)
  | RAllgatherBase (out inp : nat)
  | RAllgather (outs : list (list nat)) (ins : list nat)
  | RReduceScatterBase (avg : bool) (out inp : nat)
  | RReduceScatter (avg : bool) (outs : list nat) (ins : list (list nat))
  | RAlltoallBase (out inp : nat) (out_splits in_splits : nat -> list nat)
  | RAlltoall (outs ins : list nat).

Definition allreduce (g : ProcessGroup) (avg : bool) (ids : list nat) : entry :=
  if getSize g =? 1 then completed else
  match ids with
  | [] => Throws (MCCLError "allreduce: empty tensor list")
  | _ => Goes (CSync (fun m =>
           pbind (pg_allreduce redop scale env_alg tree_below esize scratch avg (getRank g) (getSize g) (fetch m ids))
             (fun ts => Ret (store ids ts))))
  end.

Definition broadcast (g : ProcessGroup) (root : nat) (ids : list nat) : entry :=
  if getSize g =? 1 then completed else
  match ids with
  | [] => Throws (MCCLError "broadcast: empty tensor list")
  | _ => submitted_body ids (fun m => pg_broadcast (getRank g) (getSize g) root [] (fetch m ids))
  end.

Definition _allgather_base (g : ProcessGroup) (out inp : nat) : entry :=
  if getSize g =? 1 then copied out inp else
  submitted_body [out] (fun m =>
    pbind (pg_allgather_base (getRank g) (getSize g) zero (fetch1 m out) (fetch1 m inp)) (fun t => Ret [t])).

Definition allgather (g : ProcessGroup) (outs : list (list nat)) (ins : list nat) : entry :=
  if getSize g =? 1 then
    match outs, ins with
    | (out :: _) :: _, inp :: _ => copied out inp
    | (_ :: _) :: _, [] => Undefined
    | _, _ => Throws (MCCLError "allgather output empty")
    end
  else submitted_body (mjoin outs) (fun m =>
    pbind (pg_allgather (getRank g) (getSize g) (fetch m <$> outs) (fetch m ins)) (fun ts => Ret (mjoin ts))).

Definition _reduce_scatter_base (g : ProcessGroup) (avg : bool) (out inp : nat) : entry :=
  if getSize g =? 1 then copied out inp else
  submitted_body [out] (fun m =>
    pbind (pg_reduce_scatter_base redop scale avg (getRank g) (getSize g) (fetch1 m out) (fetch1 m inp))
      (fun t => Ret [t])).

Definition reduce_scatter (g : ProcessGroup) (avg : bool) (outs : list nat) (ins : list (list nat)) : entry :=
  if getSize g =? 1 then
    match outs, ins with
    | out :: _, (inp :: _) :: _ => copied out inp
    | [], (_ :: _) :: _ => Undefined
    | _, _ => Throws (MCCLError "reduce_scatter input empty")
    end
  else submitted_body outs (fun m =>
    pg_reduce_scatter redop scale avg (getRank g) (getSize g) beyond (fetch m outs) (fetch m <$> ins)).

Definition alltoall_base (g : ProcessGroup) (out inp : nat) (out_splits in_splits : list nat) : entry :=
  if getSize g =? 1 then copied out inp else
  submitted_body [out] (fun m =>
    pbind (pg_alltoall_base (getRank g) (getSize g) zero behind heap (fetch1 m out) (fetch1 m inp) out_splits in_splits)
      (fun t => Ret [t.1])).

Definition alltoall (g : ProcessGroup) (outs ins : list nat) : entry :=
  if negb ((length ins =? getSize g) && (length outs =? getSize g))
  then Throws (MCCLError "alltoall: list size != world") else
  if getSize g =? 1 then
    match outs, ins with out :: _, inp :: _ => copied out inp | _, _ => Undefined end
  else submitted_body outs (fun m => pg_alltoall (getRank g) (getSize g) (fetch m outs) (fetch m ins)).

Definition dispatch (g : ProcessGroup) (q : request) : entry :=
  match q with
  | RAllreduce avg ids => allreduce g avg ids
  | RBroadcast root ids => broadcast g root ids
  | RAllgatherBase out inp => _allgather_base g out inp
  | RAllgather outs ins => allgather g outs ins
  | RReduceScatterBase avg out inp => _reduce_scatter_base g avg out inp
  | RReduceScatter avg outs ins => reduce_scatter g avg outs ins
  | RAlltoallBase out inp osp isp => alltoall_base g out inp (osp (getRank g)) (isp (getRank g))
  | RAlltoall outs ins => alltoall g outs ins
  end.
End Calls.

(** [send] and [recv]: the rank is checked in the calling thread. *)
Definition send (g : ProcessGroup) (dst : Z) (tag : Z) (ids : list nat) : entry (E := Z) :=
  if negb ((0 <=? dst) && (dst <? Z.of_nat (getSize g)) && negb (dst =? Z.of_nat (getRank g)))%Z
  then Throws (MCCLError "send: bad dst_rank")
  else submitted_body ids (fun m => send_loop (Z.to_nat dst) tag [] (fetch m ids)).

Definition recv (g : ProcessGroup) (src : Z) (tag : Z) (ids : list nat) : entry (E := Z) :=
  if negb ((0 <=? src) && (src <? Z.of_nat (getSize g)) && negb (src =? Z.of_nat (getRank g)))%Z
  then Throws (MCCLError "recv: bad src_rank")
  else submitted_body ids (fun m => recv_loop (Z.to_nat src) tag [] (fetch m ids)).

(** ** Properties: construction *)

Definition group_ok (g : ProcessGroup) : Prop :=
  getRank g < getSize g /\ (linked g = true <-> 1 < getSize g) /\ (0 <= seq_ g < 2 ^ 64)%Z.

Lemma pg_new_ok rank size opts metal store mesh g :
  pg_new rank size opts metal store mesh = Ok g ->
  group_ok g /\ Z.of_nat (getRank g) = rank /\ Z.of_nat (getSize g) = size /\ opts_ g = opts /\ seq_ g = 0%Z.
Proof.
  unfold pg_new, group_ok. destruct (Z.leb_spec 0 rank), (Z.ltb_spec rank size); simpl; try done.
  destruct metal; [|done]. destruct (Z.gtb_spec size 1).
  - destruct store; [|done]. destruct mesh; [|done]. intros [= <-]. simpl. repeat split; try done; lia.
  - intros [= <-]. simpl. repeat split; try done; lia.
Qed.

(** The group is constructed exactly when the rank fits the size, the kernels
    are there, and, for more than one rank, there is a store and the mesh was
    formed; it then has the engine and the mesh exactly when it has more than
    one rank. *)
Theorem pg_new_iff rank size opts metal store mesh :
  ((exists g, pg_new rank size opts metal store mesh = Ok g) <->
   (0 <= rank < size)%Z /\ is_ok metal = true /\ ((1 < size)%Z -> store = true /\ is_ok mesh = true)) /\
  forall g, pg_new rank size opts metal store mesh = Ok g -> group_ok g.
Proof.
  split; [|intros g H; by apply pg_new_ok in H as [? _]].
  unfold pg_new. destruct (Z.leb_spec 0 rank), (Z.ltb_spec rank size); simpl;
    try (split; [by intros []|intros [? _]; lia]).
  destruct metal as [[]|e]; simpl; [|split; [by intros []|by intros (_ & ? & _)]].
  destruct (Z.gtb_spec size 1).
  - destruct store, mesh as [[]|e]; simpl; split; try (by intros []); try (intros (_ & _ & Hs);
      destruct Hs as [? ?]; [lia|done]); intros _; by eexists || (split_and!; done || lia).
  - split; [intros _; split_and!; try done; lia|intros _; by eexists].
Qed.

Lemma f32_round_small m e : (Z.abs m < 2 ^ 24)%Z -> f32_round m e = mkFloat m e.
Proof.
  intros Hm. unfold f32_round.
  assert (Z.log2 (Z.abs m) <= 23)%Z as Hl.
  { destruct (decide (m = 0%Z)) as [->|Hne]; [done|]. apply Z.lt_succ_r, Z.log2_lt_pow2; lia. }
  rewrite Z.max_l by lia. rewrite Z.shiftr_0_r. cbn [Z.ltb Z.compare andb]. f_equal; [|lia].
  rewrite Z.add_0_r. rewrite Z.mul_comm. by apply Z.abs_sgn.
Qed.

(** A timeout of whole seconds, up to four and a half hours, is kept exactly by
    [create]. *)
Lemma create_timeout rank size s metal store mesh g :
  (0 <= s)%Z -> (s * 1000 < 2 ^ 24)%Z ->
  create rank size (mkFloat s 0) metal store mesh = Ok g -> timeout (opts_ g) = (s * 1000)%Z.
Proof.
  intros H0 Hs Hg. apply pg_new_ok in Hg as (_ & _ & _ & -> & _). cbn [timeout]. unfold to_milliseconds. cbn [mant expo].
  rewrite f32_round_small by lia. cbn [mant expo Z.leb Z.compare]. apply Z.shiftl_0_r.
Qed.

(** ** Properties: barriers *)

Lemma barrier_calls_from k g :
  getSize g <> 1 -> linked g = true -> (0 <= seq_ g)%Z -> (seq_ g + Z.of_nat k < 2 ^ 64)%Z ->
  barrier_calls k g = (fun i => Some (pg_barrier_tag (Z.to_nat (seq_ g) + i))) <$> seq 0 k.
Proof.
  revert g. induction k as [|k IH]; intros g Hs Hl H0 Hk; [done|]. cbn [barrier_calls]. unfold barrier_call.
  rewrite (proj2 (Nat.eqb_neq _ _) Hs), Hl. cbn [negb orb next_seq_].
  assert (u64 (seq_ g + 1) = (seq_ g + 1)%Z) as Hu by (unfold u64, uwrap; apply Z.mod_small; lia).
  rewrite IH; cbn [getSize linked seq_]; rewrite ?Hu; [|done|done|lia|lia].
  cbn [seq fmap list_fmap]. rewrite Nat.add_0_r. f_equal. rewrite <- fmap_S_seq, <- list_fmap_compose.
  apply list_fmap_ext. intros i j _. simpl. do 2 f_equal. lia.
Qed.

(** The barriers of a group of several ranks: the [i]-th call has the tag of
    number [i], whatever the rank and whatever other calls are made, so that
    ranks that make their calls in the same order meet at the same tags, and no
    tag is used twice. *)
Theorem barrier_tags rank size opts metal store mesh g k :
  pg_new rank size opts metal store mesh = Ok g -> (1 < size)%Z -> (Z.of_nat k <= 2 ^ 63)%Z ->
  barrier_calls k g = (fun i => Some (pg_barrier_tag i)) <$> seq 0 k /\ NoDup (barrier_calls k g).
Proof.
  intros Hg Hs Hk. apply pg_new_ok in Hg as ((_ & Hl & _) & _ & Hsz & _ & H0).
  assert (barrier_calls k g = (fun i => Some (pg_barrier_tag i)) <$> seq 0 k) as ->.
  { rewrite barrier_calls_from; [by rewrite H0|lia|apply Hl; lia|lia|lia]. }
  split; [done|]. apply NoDup_fmap_2_strong; [|apply NoDup_seq].
  intros i j _ _ [= Hij]. by apply to_string_inj in Hij.
Qed.

(** ** Properties: a group of one *)

(** A body that stays off the mesh. *)
Definition off_mesh {E A} (p : proc (E := E) (A := A)) : bool :=
  match p with Fork _ _ => false | _ => true end.

(** A call that goes on in the calling thread, off the mesh. *)
Definition stays_local {E} (e : entry (E := E)) : Prop :=
  match e with
  | Goes (CSync j) => forall m, off_mesh (j m) = true
  | Goes _ => False
  | Throws _ | Undefined => True
  end.

Lemma copied_local {E} copy_ o i : stays_local (copied (E := E) copy_ o i).
Proof. intros m. by destruct (copy_ (fetch1 m o) (fetch1 m i)). Qed.

(** In a group of one, which has neither engine nor mesh, no method uses them:
    every call that goes on runs in the calling thread and ends at once, with
    the tensors as they are or with the input copied to the output; and no rank
    is a valid peer. *)
Theorem group_of_one_stays_local {E} redop scale copy_ env below esize scratch zero beyond behind heap
    (g : ProcessGroup) (q : request) :
  getSize g = 1 ->
  stays_local (dispatch (E := E) redop scale copy_ env below esize scratch zero beyond behind heap g q) /\
  (forall dst tag ids, getRank g < getSize g -> send g dst tag ids = Throws (MCCLError "send: bad dst_rank")) /\
  (forall src tag ids, getRank g < getSize g -> recv g src tag ids = Throws (MCCLError "recv: bad src_rank")) /\
  barrier_call g = (None, g).
Proof.
  intros Hs. split_and!.
  - destruct q as [avg ids|root ids|o i|outs ins|avg o i|avg outs ins|o i osp isp|outs ins]; cbn [dispatch];
      unfold allreduce, broadcast, _allgather_base, allgather, _reduce_scatter_base,
      reduce_scatter, alltoall_base, alltoall; rewrite Hs; cbn [Nat.eqb]; try done; try apply copied_local.
    + destruct outs as [|[|o os] outs]; [done|done|]. destruct ins; [done|apply copied_local].
    + destruct outs as [|o outs], ins as [|[|i is'] ins]; done || apply copied_local.
    + destruct (negb _); [done|]. destruct outs, ins; done || apply copied_local.
  - intros dst tag ids Hr. unfold send. rewrite Hs in *. replace (getRank g) with 0 by lia.
    destruct (Z.leb_spec 0 dst), (Z.ltb_spec dst (Z.of_nat 1)), (Z.eqb_spec dst (Z.of_nat 0)); simpl; done || lia.
  - intros src tag ids Hr. unfold recv. rewrite Hs in *. replace (getRank g) with 0 by lia.
    destruct (Z.leb_spec 0 src), (Z.ltb_spec src (Z.of_nat 1)), (Z.eqb_spec src (Z.of_nat 0)); simpl; done || lia.
  - unfold barrier_call. by rewrite Hs.
Qed.
