(* ===== verification/GroupSession.v ===== *)
(** * Sessions of a process group

    What the collectives of a group mean for the tensors of all ranks, and the
    theorem that a program of them, run by the calling thread and the engine
    thread of every rank ([Session]), computes just that. *)
From S2P Require Import Prelude CString Network Allreduce Collectives PointToPoint Rendezvous.
From S2P Require Import ListCollectives Session ProcessGroup.

(** A line of a program: a collective, or [wait] on the work of a call. *)
Inductive pstep := PReq (q : request) | PWait (i : nat).

(** Programs that wait for the works they have submitted before [allreduce]. *)
Fixpoint patient_steps (k w : nat) (ps : list pstep) : Prop :=
  match ps with
  | [] => True
  | PReq (RAllreduce _ _) :: ps => w = k /\ patient_steps (k + 1) (k + 1) ps
  | PReq _ :: ps => patient_steps (k + 1) w ps
  | PWait i :: ps => i < k /\ patient_steps k (Nat.max w (i + 1)) ps
  end.

Definition requests_of (ps : list pstep) : list request :=
  omap (fun s => match s with PReq q => Some q | PWait _ => None end) ps.

Section GroupSession.
Context {E : Type} `{!Inhabited E} (redop : E -> E -> E) (scale : E -> E).
Context (Hassoc : forall a b c, redop a (redop b c) = redop (redop a b) c).
Context (Hcomm : forall a b, redop a b = redop b a).
Context (copy_ : tensor (E := E) -> tensor (E := E) -> result (tensor (E := E))).
Context (env_alg : option algo) (tree_below : option nat) (esize : nat) (scratch : nat -> list E).
Context (Hscratch : forall m, length (scratch m) = m).
(** The memory around the buffers of every rank. *)
Context (zero : E) (beyond : nat -> nat -> list E) (behind heap : nat -> list E).
Context (n : nat) (Hn : 1 < n) (g : nat -> ProcessGroup).
Context (Hg : forall r, r < n -> getRank (g r) = r /\ getSize (g r) = n).

Abbreviation tens := (tensor (E := E)).
Abbreviation memory := (list (tensor (E := E))).
(** The tensors of all ranks. *)
Abbreviation memories := (nat -> list (tensor (E := E))).

Definition dispatch_of (r : nat) (q : request) : entry :=
  dispatch redop scale copy_ env_alg tree_below esize scratch zero (beyond r) (behind r) (heap r) (g r) q.

(** What the calling thread of rank [r] does for a line. *)
Definition issue (r : nat) (s : pstep) : option (call (E := E) (Mem := memory)) :=
  match s with
  | PWait i => Some (CWait i)
  | PReq q =>
    match dispatch_of r q with
    | Goes c => Some c
    | Throws e => Some (CSync (fun _ => Raise e))
    | Undefined => None
    end
  end.

(** ** What the collectives mean *)

(** Tensor [i] of every rank. *)
Definition at_place (ms : memories) (i : nat) (r : nat) : tens := fetch1 (ms r) i.

Definition gather_items (ms : memories) (outs : list (list nat)) (ins : list nat) : list gather_item :=
  (fun oi => mkGather (fun r => fetch (ms r) oi.1) (at_place ms oi.2)) <$> zip outs ins.
Definition scatter_items (ms : memories) (outs : list nat) (ins : list (list nat)) : list scatter_item :=
  (fun oi => mkScatter (at_place ms oi.1) (fun r => fetch (ms r) oi.2)) <$> zip outs ins.

Definition split_of (ms : memories) (out inp : nat) (osp isp : nat -> list nat) : split_call :=
  mkSplit (at_place ms out) (at_place ms inp) osp isp behind heap.
Definition effective (ms : memories) (i : nat) (given : nat -> list nat) (r : nat) : list nat :=
  match given r with [] => replicate n (numel_of (at_place ms i r) / n) | l => l end.

(** The shapes the caller has to provide. *)
Definition well_formed (q : request) : Prop :=
  match q with
  | RAllreduce _ ids | RBroadcast _ ids => ids <> []
  | RAllgather outs ins => length outs = length ins
  | RReduceScatter _ outs ins => length outs = length ins
  | RAlltoall outs ins => length outs = n /\ length ins = n
  | _ => True
  end.

(** The tensors the ranks have to provide. *)
Definition accepts (q : request) (ms : memories) : Prop :=
  match q with
  | RAllreduce _ ids => Forall (fun i => same_sizes n (at_place ms i)) ids
  | RBroadcast root ids => root < n /\ Forall (fun i => forall r, r < n -> on_device (at_place ms i r) /\
      numel_of (at_place ms i r) = numel_of (at_place ms i root)) ids
  | RAllgatherBase out inp => exists chunk, forall r, r < n ->
      on_device (at_place ms inp r) /\ on_device (at_place ms out r) /\
      numel_of (at_place ms inp r) = chunk /\ numel_of (at_place ms out r) = chunk * n
  | RAllgather outs ins => Forall (gather_fits n) (gather_items ms outs ins)
  | RReduceScatterBase _ out inp => exists chunk, forall r, r < n ->
      on_device (at_place ms inp r) /\ on_device (at_place ms out r) /\
      numel_of (at_place ms inp r) = chunk * n /\ numel_of (at_place ms out r) = chunk
  | RReduceScatter _ outs ins => Forall (scatter_fits n) (scatter_items ms outs ins)
  | RAlltoallBase out inp osp isp =>
      let c := split_of ms out inp osp isp in
      split_accepted n c (effective ms inp isp) (effective ms out osp) /\
      forall r, r < n -> sum_list (effective ms inp isp r) <= numel_of (at_place ms inp r) /\
        sum_list (effective ms out osp r) = numel_of (at_place ms out r)
  | RAlltoall outs ins =>
      (forall r, r < n -> Forall on_device (fetch (ms r) ins) /\ Forall on_device (fetch (ms r) outs)) /\
      (forall r p, r < n -> p < n ->
         numel_of <$> fetch (ms r) outs !! p = numel_of <$> fetch (ms p) ins !! r)
  end.

(** The tensors of rank [r] after the collective. *)
Definition meaning (q : request) (ms : memories) (r : nat) : memory :=
  match q with
  | RAllreduce avg ids =>
      store ids ((fun i => reduced redop scale avg n (at_place ms i) r) <$> ids) (ms r)
  | RBroadcast root ids =>
      store ids ((fun i => with_elems (at_place ms i r) (elems (at_place ms i root))) <$> ids) (ms r)
  | RAllgatherBase out inp =>
      store [out] [with_elems (at_place ms out r) (mjoin ((fun p => elems (at_place ms inp p)) <$> seq 0 n))] (ms r)
  | RAllgather outs ins =>
      store (mjoin outs) (mjoin ((fun it => gathered it r) <$> gather_items ms outs ins)) (ms r)
  | RReduceScatterBase avg out inp =>
      let chunk := numel_of (at_place ms out r) in
      store [out] [with_elems (at_place ms out r) (tab chunk (fun i => averaged scale avg
        (range_red redop (fun p i => elems (at_place ms inp p) !!! i) 0 n (r * chunk + i))))] (ms r)
  | RReduceScatter avg outs ins =>
      store outs ((fun it => scattered redop scale avg n share_elem it r) <$> scatter_items ms outs ins) (ms r)
  | RAlltoallBase out inp osp isp =>
      store [out] [with_elems (at_place ms out r) (mjoin ((fun p =>
        slice (offset (effective ms inp isp p) r) (default 0 (effective ms inp isp p !! r))
          (elems (at_place ms inp p))) <$> seq 0 n))] (ms r)
  | RAlltoall outs ins =>
      store outs (imap (fun p o => with_elems o (default [] (elems <$> fetch (ms p) ins !! r)))
        (fetch (ms r) outs)) (ms r)
  end.

(** One collective after the other. *)
Fixpoint accepts_all (qs : list request) (ms : memories) : Prop :=
  match qs with
  | [] => True
  | q :: qs => accepts q ms /\ accepts_all qs (meaning q ms)
  end.
Definition meaning_all (qs : list request) (ms : memories) : memories := foldl (fun ms q => meaning q ms) ms qs.

(** ** Every collective does what it means *)

Definition is_allreduce (q : request) : bool := match q with RAllreduce _ _ => true | _ => false end.

(** The body [j r] of rank [r] for the collective [q]. *)
Record implements (q : request) (j : nat -> memory -> proc (E := E) (A := memory -> memory)) : Prop := {
  im_issue r : r < n -> issue r (PReq q) = Some (if is_allreduce q then CSync (j r) else CAsync (j r));
  im_wf r m : wf_proc (j r m);
  im_runs ms : accepts q ms -> exists upd, runs n (fun r => j r (ms r)) (fun r => Ret (upd r)) /\
    forall r, r < n -> upd r (ms r) = meaning q ms r
}.

Lemma dispatch_sizes r : r < n -> getRank (g r) = r /\ getSize (g r) = n /\ (n =? 1) = false.
Proof using Hg Hn. intros Hr. destruct (Hg r Hr). split_and!; [done|done|]. apply Nat.eqb_neq. lia. Qed.

(** The call that [dispatch] makes, for a group of more than one. *)
Ltac dispatched r Hr :=
  unfold issue, dispatch_of; cbn [dispatch is_allreduce];
  let H1 := fresh in let H2 := fresh in let H3 := fresh in
  destruct (dispatch_sizes r Hr) as (H1 & H2 & H3).

Lemma allreduce_implements avg ids : ids <> [] ->
  implements (RAllreduce avg ids) (fun r m =>
    pbind (pg_allreduce redop scale env_alg tree_below esize scratch avg r n (fetch m ids))
      (fun ts => Ret (store ids ts))).
Proof using Hassoc Hcomm Hg Hn Hscratch.
  intros Hids. split.
  - intros r Hr. dispatched r Hr. unfold allreduce. rewrite H, H0, H1. by destruct ids.
  - intros r m. apply wf_pbind; [apply wf_pg_allreduce|constructor].
  - intros ms Ha. eexists. split.
    + apply (runs_pbind n _ (fun r => (fun i => reduced redop scale avg n (at_place ms i) r) <$> ids)
        (fun r ts => Ret (store ids ts))).
      eapply runs_ext; [| |apply (pg_allreduce_runs redop scale env_alg tree_below esize scratch avg n
        (at_place ms <$> ids)); [done|done|done|by destruct ids|done|by apply Forall_fmap]].
      * intros r Hr. cbn beta. f_equal. unfold fetch. rewrite <- list_fmap_compose. done.
      * intros r Hr. cbn beta. f_equal. rewrite <- list_fmap_compose. done.
    + intros r Hr. done.
Qed.

Lemma broadcast_implements root ids : ids <> [] ->
  implements (RBroadcast root ids) (fun r m =>
    pbind (pg_broadcast r n root [] (fetch m ids)) (fun ts => Ret (store ids ts))).
Proof using Hg Hn.
  intros Hids. split.
  - intros r Hr. dispatched r Hr. unfold broadcast. rewrite H, H0, H1. by destruct ids.
  - intros r m. apply wf_pbind; [apply wf_pg_broadcast|constructor].
  - intros ms [Hroot Ha]. eexists. split.
    + apply (runs_pbind n _ (fun r => (fun i => with_elems (at_place ms i r) (elems (at_place ms i root))) <$> ids)
        (fun r ts => Ret (store ids ts))).
      eapply runs_ext; [| |apply (pg_broadcast_runs n root Hroot (fun _ => []) (at_place ms <$> ids)), Forall_fmap, Ha].
      * intros r Hr. cbn beta. f_equal. unfold fetch. rewrite <- list_fmap_compose. done.
      * intros r Hr. cbn beta. cbn [app]. f_equal. rewrite <- list_fmap_compose. done.
    + intros r Hr. done.
Qed.

(** The bodies that return one tensor. *)
Lemma one_tensor (X : nat -> memory -> proc (E := E) (A := tens)) (out : nat) val ms :
  runs n (fun r => X r (ms r)) (fun r => Ret (val r)) ->
  runs n (fun r => pbind (pbind (X r (ms r)) (fun t => Ret [t])) (fun ts => Ret (store [out] ts)))
    (fun r => Ret (store [out] [val r])).
Proof.
  intros H. apply (runs_pbind n _ (fun r => [val r]) (fun r ts => Ret (store [out] ts))).
  by apply (runs_pbind n _ val (fun r t => Ret [t])).
Qed.

Lemma allgather_base_implements out inp :
  implements (RAllgatherBase out inp) (fun r m =>
    pbind (pbind (pg_allgather_base r n zero (fetch1 m out) (fetch1 m inp)) (fun t => Ret [t]))
      (fun ts => Ret (store [out] ts))).
Proof using Hg Hn.
  split.
  - intros r Hr. dispatched r Hr. unfold _allgather_base. by rewrite H, H0, H1.
  - intros r m. apply wf_pbind; [apply wf_pbind; [apply wf_pg_allgather_base|]|]; constructor.
  - intros ms [chunk Ha]. eexists. split.
    + exact (one_tensor (fun r m => pg_allgather_base r n zero (fetch1 m out) (fetch1 m inp)) out _ ms
        (pg_allgather_base_runs n chunk zero (at_place ms out) (at_place ms inp) Ha)).
    + done.
Qed.

Lemma reduce_scatter_base_implements avg out inp :
  implements (RReduceScatterBase avg out inp) (fun r m =>
    pbind (pbind (pg_reduce_scatter_base redop scale avg r n (fetch1 m out) (fetch1 m inp)) (fun t => Ret [t]))
      (fun ts => Ret (store [out] ts))).
Proof using Hassoc Hcomm Hg Hn.
  split.
  - intros r Hr. dispatched r Hr. unfold _reduce_scatter_base. by rewrite H, H0, H1.
  - intros r m. apply wf_pbind; [apply wf_pbind; [apply wf_pg_reduce_scatter_base|]|]; constructor.
  - intros ms [chunk Ha]. eexists. split.
    + exact (one_tensor (fun r m => pg_reduce_scatter_base redop scale avg r n (fetch1 m out) (fetch1 m inp)) out _ ms
        (pg_reduce_scatter_base_runs redop scale avg n chunk (at_place ms out) (at_place ms inp) Ha)).
    + intros r Hr. cbn beta. cbn [meaning]. destruct (Ha r Hr) as (_ & _ & _ & Hc). rewrite Hc. do 3 f_equal.
      apply tab_ext. intros i Hi. f_equal. apply fly_val_all; done || lia.
Qed.

Lemma alltoall_implements outs ins : length outs = n -> length ins = n ->
  implements (RAlltoall outs ins) (fun r m =>
    pbind (pg_alltoall r n (fetch m outs) (fetch m ins)) (fun ts => Ret (store outs ts))).
Proof using Hg Hn.
  intros Ho Hi. split.
  - intros r Hr. dispatched r Hr. unfold alltoall. rewrite H, H0, Ho, Hi, Nat.eqb_refl, H1. done.
  - intros r m. apply wf_pbind; [apply wf_pg_alltoall|constructor].
  - intros ms [Hd Hs]. eexists. split.
    + pose proof (pg_alltoall_runs n (fun r => fetch (ms r) outs) (fun r => fetch (ms r) ins)) as Hrun.
      specialize (Hrun ltac:(intros r Hr; unfold fetch; rewrite !length_fmap; split_and!; [done|done|by apply Hd..]) Hs).
      exact (runs_pbind n _ _ (fun r ts => Ret (store outs ts)) Hrun).
    + done.
Qed.

Lemma fmap_zip_l {A B C} (f : A -> C) (l : list A) (k : list B) :
  length l = length k -> (fun ab => f ab.1) <$> zip l k = f <$> l.
Proof.
  intros H. rewrite <- (fst_zip l k) at 2 by lia. by rewrite <- list_fmap_compose.
Qed.
Lemma fmap_zip_r {A B C} (f : B -> C) (l : list A) (k : list B) :
  length l = length k -> (fun ab => f ab.2) <$> zip l k = f <$> k.
Proof.
  intros H. rewrite <- (snd_zip l k) at 2 by lia. by rewrite <- list_fmap_compose.
Qed.

Lemma allgather_implements outs ins : length outs = length ins ->
  implements (RAllgather outs ins) (fun r m =>
    pbind (pbind (pg_allgather r n (fetch m <$> outs) (fetch m ins)) (fun ts => Ret (mjoin ts)))
      (fun ts => Ret (store (mjoin outs) ts))).
Proof using Hg Hn.
  intros Hlen. split.
  - intros r Hr. dispatched r Hr. unfold allgather. by rewrite H, H0, H1.
  - intros r m. apply wf_pbind; [apply wf_pbind; [apply wf_pg_allgather|]|]; constructor.
  - intros ms Ha. eexists. split.
    + apply (runs_pbind n _ (fun r => mjoin ((fun it => gathered it r) <$> gather_items ms outs ins))
        (fun r ts => Ret (store (mjoin outs) ts))).
      apply (runs_pbind n _ (fun r => (fun it => gathered it r) <$> gather_items ms outs ins)
        (fun r ts => Ret (mjoin ts))).
      eapply runs_ext; [|reflexivity|by apply pg_allgather_runs].
      intros r Hr. cbn beta. unfold gather_items. rewrite <- !list_fmap_compose. f_equal.
      * symmetry. by apply (fmap_zip_l (fetch (ms r))).
      * symmetry. by apply (fmap_zip_r (fetch1 (ms r))).
    + done.
Qed.

Lemma reduce_scatter_implements avg outs ins : length outs = length ins ->
  implements (RReduceScatter avg outs ins) (fun r m =>
    pbind (pg_reduce_scatter redop scale avg r n (beyond r) (fetch m outs) (fetch m <$> ins))
      (fun ts => Ret (store outs ts))).
Proof using Hg Hn.
  intros Hlen. split.
  - intros r Hr. dispatched r Hr. unfold reduce_scatter. by rewrite H, H0, H1.
  - intros r m. apply wf_pbind; [apply wf_pg_reduce_scatter|constructor].
  - intros ms Ha. eexists. split.
    + apply (runs_pbind n _ (fun r => (fun it => scattered redop scale avg n share_elem it r) <$>
        scatter_items ms outs ins) (fun r ts => Ret (store outs ts))).
      eapply runs_ext; [|reflexivity|apply (pg_reduce_scatter_fits_runs redop scale avg n beyond); [lia|exact Ha]].
      intros r Hr. cbn beta. unfold scatter_items. rewrite <- !list_fmap_compose. f_equal.
      * symmetry. by apply (fmap_zip_l (fetch1 (ms r))).
      * symmetry. by apply (fmap_zip_r (fetch (ms r))).
    + done.
Qed.

Lemma alltoall_base_implements out inp osp isp :
  implements (RAlltoallBase out inp osp isp) (fun r m =>
    pbind (pbind (pg_alltoall_base r n zero (behind r) (heap r) (fetch1 m out) (fetch1 m inp) (osp r) (isp r))
      (fun t => Ret [t.1])) (fun ts => Ret (store [out] ts))).
Proof using Hg Hn.
  split.
  - intros r Hr. dispatched r Hr. unfold alltoall_base. by rewrite H, H0, H1.
  - intros r m. apply wf_pbind; [apply wf_pbind; [apply wf_pg_alltoall_base|]|]; constructor.
  - intros ms [Hacc Hs]. eexists. split.
    + pose proof (runs_pbind n _ _ (fun r t => Ret [t.1]) (alltoall_base_fits_runs n zero _ _ _ Hacc Hs)) as H1.
      exact (runs_pbind n _ _ (fun r ts => Ret (store [out] ts)) H1).
    + done.
Qed.

(** Every collective, on tensors it accepts, does what it means. *)
Lemma request_implements q : well_formed q -> exists j, implements q j.
Proof using Hassoc Hcomm Hg Hn Hscratch.
  destruct q; intros Hw; eexists.
  - by apply allreduce_implements.
  - by apply broadcast_implements.
  - by apply allgather_base_implements.
  - by apply allgather_implements.
  - by apply reduce_scatter_base_implements.
  - by apply reduce_scatter_implements.
  - by apply alltoall_base_implements.
  - destruct Hw. by apply alltoall_implements.
Qed.

(** ** Programs *)

Abbreviation bodies := (nat -> list (tensor (E := E)) -> proc (E := E) (A := list (tensor (E := E)) -> list (tensor (E := E)))).

Lemma serial_meaning qs (js : list bodies) ms :
  Forall2 implements qs js -> accepts_all qs ms ->
  runs n (fun r => serial ((fun j => j r) <$> js) (ms r)) (fun r => Ret (meaning_all qs ms r)).
Proof.
  intros H. revert ms. induction H as [|q j qs js Hj _ IH]; intros ms Ha; [by apply runs_refl|].
  destruct Ha as [Hq Ha]. destruct (im_runs _ _ Hj ms Hq) as (upd & Hrun & Hupd).
  pose proof (runs_pbind n _ upd (fun r f => serial ((fun j : bodies => j r) <$> js) (f (ms r))) Hrun) as H1.
  eapply runs_trans; [exact H1|].
  eapply runs_ext; [|reflexivity|exact (IH _ Ha)]. intros r Hr. cbn beta. by rewrite Hupd.
Qed.

Lemma wf_serial (js : list bodies) r m :
  (forall j r m, j ∈ js -> wf_proc (j r m)) -> wf_proc (serial ((fun j => j r) <$> js) m).
Proof.
  revert m. induction js as [|j js IH]; intros m H; [constructor|]. cbn. apply wf_pbind; [apply H; left|].
  intros f. apply IH. intros. apply H. by right.
Qed.

(** The calls of a program, on all ranks. *)
Lemma program_calls ps k w :
  patient_steps k w ps -> Forall well_formed (requests_of ps) ->
  exists (js : list bodies) (calls : nat -> list (call (E := E) (Mem := memory))),
    Forall2 implements (requests_of ps) js /\
    forall r, r < n -> mapM (issue r) ps = Some (calls r) /\ jobs_of (calls r) = (fun j => j r) <$> js /\
      patient k w (calls r).
Proof using Hassoc Hcomm Hg Hn Hscratch.
  revert k w. induction ps as [|[q|i] ps IH]; intros k w Hp Hw.
  - exists [], (fun _ => []). split; [constructor|]. done.
  - apply Forall_cons in Hw as [Hq Hw]. destruct (request_implements q Hq) as [j Hj].
    assert (exists k' w', patient_steps k' w' ps /\ forall c r, patient k' w' c ->
      patient k w ((if is_allreduce q then CSync (j r) else CAsync (j r)) :: c)) as (k' & w' & Hp' & Hpat).
    { destruct q; cbn in Hp; [destruct Hp as [-> Hp]; exists (k + 1), (k + 1)|exists (k + 1), w..];
        split; try done; intros c r Hc; cbn; done. }
    destruct (IH k' w' Hp' Hw) as (js & calls & Hjs & Hcalls).
    exists (j :: js), (fun r => (if is_allreduce q then CSync (j r) else CAsync (j r)) :: calls r).
    split; [by constructor|]. intros r Hr. destruct (Hcalls r Hr) as (H1 & H2 & H3). split_and!.
    + cbn [mapM]. rewrite (im_issue _ _ Hj r Hr). cbn. by rewrite H1.
    + destruct (is_allreduce q); cbn; by f_equal.
    + by apply Hpat.
  - destruct Hp as [Hi Hp]. destruct (IH k _ Hp Hw) as (js & calls & Hjs & Hcalls).
    exists js, (fun r => CWait i :: calls r). split; [done|]. intros r Hr.
    destruct (Hcalls r Hr) as (H1 & H2 & H3). split_and!; [cbn; by rewrite H1|done|done].
Qed.
End GroupSession.


(** ** A session *)

Definition demo_group (r : nat) : ProcessGroup := mkGroup r 2 default_options true 0.

(** Two tensors per rank. *)
Definition demo_memory (r : nat) : list (tensor (E := Z)) :=
  if r =? 0 then [mkTensor true true [5]%Z; mkTensor true true [1]%Z]
  else [mkTensor true true [0]%Z; mkTensor true true [2]%Z].

(** Broadcast the first tensor of rank 0, add up the second. *)
Definition demo_patient : list pstep := [PReq (RBroadcast 0 [0]); PWait 0; PReq (RAllreduce false [1])].

Definition demo_issue (r : nat) : pstep -> option call :=
  issue Z.add Z.opp (fun _ t => Ok t) None None 4 (fun m => replicate m 0%Z) 0%Z (fun _ _ => []) (fun _ => [])
    (fun _ => []) demo_group r.


(** ** A program that does not wait *)

(** The same two collectives, without the [wait] between them. *)
Definition demo_hasty : list pstep := [PReq (RBroadcast 0 [0]); PReq (RAllreduce false [1]); PWait 0].

Definition demo_start : list pgrank * chans Z :=
  ((fun r => pg_start (default [] (mapM (demo_issue r) demo_hasty)) (demo_memory r)) <$> seq 0 2, ∅).

(** The engine thread of rank 1 starts late: its calling thread is at the
    stream before it. *)
Definition demo_schedule : list (nat * move) :=
  [(0, MCaller); (0, MEngine); (0, MEngineAct 0); (0, MEngineJoin); (0, MEngine);   (* rank 0 has sent the 5 *)
   (1, MCaller); (0, MCaller); (1, MCaller); (1, MCallerAct 0); (1, MCallerJoin);   (* rank 1 has sent its 2 *)
   (1, MCallerAct 0); (1, MCallerJoin); (1, MCaller);                               (* and takes the 5 for the sum *)
   (0, MCallerAct 0); (0, MCallerJoin); (0, MCallerAct 0); (0, MCallerJoin); (0, MCaller); (0, MCaller);
   (1, MEngine); (1, MEngineAct 0); (1, MEngineJoin); (1, MEngine); (1, MCaller)].

Lemma pg_exec_rtc {E Mem} (sched : list (nat * move)) (g g' : list (pgrank (E := E) (Mem := Mem)) * chans E) :
  pg_exec sched g = Some g' -> rtc pg_step g g'.
Proof.
  revert g. induction sched as [|[r mv] sched IH]; intros g H; [by injection H as ->|]. cbn in H.
  destruct (pg_move r mv g) as [g1|] eqn:Hm; [|done]. eapply rtc_l; [by exists r, mv|by apply IH].
Qed.

(** [allreduce] runs in the calling thread while the body of an earlier
    collective may still be queued or running in the engine thread, on the same
    streams.  A program that submits a broadcast and calls [allreduce] before it
    waits has an execution in which both calls succeed on both ranks, all works
    are completed without an exception, and the messages are exchanged: rank 1
    ends with the broadcast value in the tensor of the allreduce and with the
    sum in the tensor of the broadcast. *)
Theorem overlap_mixes_streams :
  (forall r, r < 2 -> is_Some (mapM (demo_issue r) demo_hasty)) /\
  (exists g, rtc pg_step demo_start g /\
    session_done 2 (fun r => if r =? 0 then [mkTensor true true [5]; mkTensor true true [3]]%Z
                             else [mkTensor true true [3]; mkTensor true true [5]]%Z) g) /\
  (forall r, r < 2 -> meaning_all Z.add Z.opp 2 (requests_of demo_hasty) demo_memory r =
     [mkTensor true true [5]; mkTensor true true [3]]%Z).
Proof.
  split_and!.
  - intros r Hr. two_ranks r; by eexists.
  - set (g := default demo_start (pg_exec demo_schedule demo_start)). exists g. split.
    + apply (pg_exec_rtc demo_schedule). unfold g. vm_compute. reflexivity.
    + split; [vm_compute; reflexivity|]. intros r s Hs.
      assert (r < 2) as Hr by (apply lookup_lt_Some in Hs; vm_compute in Hs; lia).
      two_ranks r; vm_compute in Hs; injection Hs as <-; cbn; split_and!; try done; repeat constructor.
  - intros r Hr. two_ranks r; reflexivity.
Qed.
