(* ===== verification/Kernels.v ===== *)
(** * The Metal kernels and their dispatch ([csrc/metal/MetalKernels.mm],
    [csrc/metal/shaders.metal], [csrc/metal/CommitTrace.hpp])

    The element-wise kernels as the shader threads execute them (eight elements
    per thread, a vector path and a tail, indices of 32 bits), the choice of the
    pipeline for an operation and a scalar type, and the command buffers: a
    kernel is encoded into the active batch or into a command buffer of its own,
    and runs some time after its commit, in the order of the commits on the one
    queue of the library.  The arithmetic of the elements is a parameter; device,
    compiler and command queue belong to Metal. *)
From Stdlib Require Import ZArith Lia.
From S2P Require Import Prelude Common.

(** ** The threads of a kernel *)

Section Threads.
Context {E : Type} `{!Inhabited E}.

Definition kElementsPerThread : Z := 8.

(** [uint base = gid * kElementsPerThread]. *)
Definition thread_base (gid : Z) : Z := u32 (gid * kElementsPerThread).

(** [dst[i] = f(dst[i], src[i])]. *)
Definition update (f : E -> E -> E) (src : list E) (dst : list E) (i : nat) : list E :=
  <[i := f (dst !!! i) (src !!! i)]> dst.

(** [for (uint i = base; i < min(base + kElementsPerThread, count); ++i)]. *)
Definition tail_indices (base count : Z) : list nat :=
  let last := Z.min (u32 (base + kElementsPerThread)) count in
  seq (Z.to_nat base) (Z.to_nat (last - base)).

(** [binary_vec_op] (and, with an [f] that ignores [src], the scale kernels; with
    a fused [f] the accumulate-and-scale kernels).  The vector path loads eight
    elements of both buffers and stores the eight results: at [vec_index = 2 *
    gid] in vectors of four when [aligned], at [base] element by element
    otherwise. *)
Definition kernel_thread (f : E -> E -> E) (aligned : bool) (count : Z) (src : list E) (dst : list E) (gid : Z)
    : list E :=
  let base := thread_base gid in
  if (u32 (base + kElementsPerThread) <=? count)%Z then
    let at_ := Z.to_nat (if aligned then 4 * u32 (gid * 2) else base) in
    list_inserts at_ (zip_with f (slice at_ 8 dst) (slice at_ 8 src)) dst
  else foldl (update f src) dst (tail_indices base count).

(** [compute_dispatch]: the number of threads and the width of a threadgroup. *)
Definition compute_dispatch (simd max_tg : Z) (element_count : Z) : Z * Z :=
  let tg := (max_tg / simd * simd)%Z in
  ((element_count + 7) / 8, if (tg =? 0)%Z then simd else tg)%Z.

(** The grid: all threads, in the order [gids]. *)
Definition run_grid (f : E -> E -> E) (aligned : bool) (count : Z) (src dst : list E) (gids : list nat) : list E :=
  foldl (fun dst gid => kernel_thread f aligned count src dst (Z.of_nat gid)) dst gids.

(** The reference: the first [count] elements combined, the rest as it was. *)
Definition elementwise (f : E -> E -> E) (count : nat) (src dst : list E) : list E :=
  zip_with f (take count dst) (take count src) ++ drop count dst.

(** *** What a thread does *)

(** The elements of thread [gid]. *)
Definition of_thread (count gid i : nat) : Prop := 8 * gid <= i < 8 * gid + 8 /\ i < count.
#[export] Instance of_thread_dec count gid i : Decision (of_thread count gid i).
Proof. unfold of_thread. apply _. Defined.

Lemma lookup_updates f (src dst : list E) i0 k i :
  i0 + k <= length dst -> i0 + k <= length src ->
  foldl (update f src) dst (seq i0 k) !! i =
  if decide (i0 <= i < i0 + k) then Some (f (dst !!! i) (src !!! i)) else dst !! i.
Proof.
  intros Hd Hs. induction k as [|k IH]; [rewrite decide_False by lia; done|].
  rewrite seq_S, foldl_app. cbn. unfold update at 1.
  assert (length (foldl (update f src) dst (seq i0 k)) = length dst) as Hlen.
  { clear. induction (seq i0 k) as [|j l IHl] using rev_ind; [done|]. rewrite foldl_app. cbn.
    unfold update. by rewrite length_insert. }
  destruct (decide (i = i0 + k)) as [->|Hne].
  - rewrite list_lookup_insert_eq by lia. rewrite decide_True by lia.
    rewrite (list_lookup_total_alt (foldl _ _ _)), IH, decide_False by lia.
    by rewrite <- list_lookup_total_alt.
  - rewrite list_lookup_insert_ne by done. rewrite IH by lia. repeat case_decide; done || lia.
Qed.

Lemma lookup_vector f (src dst : list E) i0 i :
  i0 + 8 <= length dst -> i0 + 8 <= length src ->
  list_inserts i0 (zip_with f (slice i0 8 dst) (slice i0 8 src)) dst !! i =
  if decide (i0 <= i < i0 + 8) then Some (f (dst !!! i) (src !!! i)) else dst !! i.
Proof.
  intros Hd Hs. assert (length (zip_with f (slice i0 8 dst) (slice i0 8 src)) = 8) as Hlen.
  { rewrite length_zip_with, !length_slice by lia. done. }
  destruct (decide (i < i0)) as [Hlt|Hge].
  - rewrite list_lookup_inserts_lt by done. by rewrite decide_False by lia.
  - destruct (decide (i0 + 8 <= i)) as [Hge'|Hlt].
    + rewrite list_lookup_inserts_ge by lia. by rewrite decide_False by lia.
    + rewrite decide_True by lia. rewrite list_lookup_inserts by lia.
      rewrite lookup_zip_with, !lookup_slice by lia. replace (i0 + (i - i0)) with i by lia.
      rewrite (list_lookup_lookup_total_lt dst), (list_lookup_lookup_total_lt src) by lia. done.
Qed.

Lemma lookup_thread f aligned count src dst gid i :
  (Z.of_nat count <= 2 ^ 32 - 8)%Z -> count <= length dst -> count <= length src -> 8 * gid < count ->
  kernel_thread f aligned (Z.of_nat count) src dst (Z.of_nat gid) !! i =
  if decide (of_thread count gid i) then Some (f (dst !!! i) (src !!! i)) else dst !! i.
Proof.
  intros Hc Hd Hs Hg. unfold kernel_thread, thread_base, kElementsPerThread, tail_indices, kElementsPerThread.
  assert (u32 (Z.of_nat gid * 8) = (Z.of_nat gid * 8)%Z) as -> by (unfold u32, uwrap; apply Z.mod_small; lia).
  assert (u32 (Z.of_nat gid * 8 + 8) = (Z.of_nat gid * 8 + 8)%Z) as -> by (unfold u32, uwrap; apply Z.mod_small; lia).
  assert (u32 (Z.of_nat gid * 2) = (Z.of_nat gid * 2)%Z) as -> by (unfold u32, uwrap; apply Z.mod_small; lia).
  unfold of_thread. destruct (Z.leb_spec (Z.of_nat gid * 8 + 8) (Z.of_nat count)).
  - assert (Z.to_nat (if aligned then 4 * (Z.of_nat gid * 2) else Z.of_nat gid * 8) = 8 * gid) as ->
      by (destruct aligned; lia).
    rewrite lookup_vector by lia. repeat case_decide; done || lia.
  - rewrite Z.min_r by lia.
    replace (Z.to_nat (Z.of_nat gid * 8)) with (8 * gid) by lia.
    rewrite lookup_updates by lia. repeat case_decide; done || lia.
Qed.

Lemma length_thread f aligned count src dst gid :
  length (kernel_thread f aligned count src dst gid) = length dst.
Proof.
  unfold kernel_thread. case_match; [apply length_inserts|]. revert dst.
  induction (tail_indices _ _) as [|j l IH]; intros dst; [done|]. cbn. rewrite IH. apply length_insert.
Qed.

Lemma lookup_grid f aligned count src dst gids i :
  (Z.of_nat count <= 2 ^ 32 - 8)%Z -> count <= length dst -> count <= length src ->
  NoDup gids -> Forall (fun gid => 8 * gid < count) gids ->
  run_grid f aligned (Z.of_nat count) src dst gids !! i =
  if decide (Exists (fun gid => of_thread count gid i) gids) then Some (f (dst !!! i) (src !!! i)) else dst !! i.
Proof.
  intros Hc Hd Hs Hnd. revert dst Hd. induction Hnd as [|gid gids Hni _ IH]; intros dst Hd Hall.
  { rewrite decide_False; [done|]. intros H. inversion H. }
  apply Forall_cons in Hall as [Hg Hall]. unfold run_grid. cbn [foldl].
  fold (run_grid f aligned (Z.of_nat count) src (kernel_thread f aligned (Z.of_nat count) src dst (Z.of_nat gid)) gids).
  rewrite IH; [|by rewrite length_thread|done].
  destruct (decide (of_thread count gid i)) as [Hin|Hout].
  - rewrite decide_False.
    + rewrite lookup_thread, !decide_True by (done || by left). done.
    + intros (g & Hg' & Hi)%Exists_exists. assert (g = gid) as -> by (unfold of_thread in *; lia). done.
  - assert (kernel_thread f aligned (Z.of_nat count) src dst (Z.of_nat gid) !! i = dst !! i) as Hsame.
    { rewrite lookup_thread by done. by rewrite decide_False. }
    rewrite list_lookup_total_alt, Hsame, <- list_lookup_total_alt.
    destruct (decide (Exists (fun g => of_thread count g i) gids)) as [He|He].
    + by rewrite decide_True by (by right).
    + rewrite decide_False; [done|]. by intros [?|?]%Exists_cons.
Qed.
End Threads.

(** C14: The kernels compute the element-wise operation: for up to [2^32 - 8]
    elements, buffers that hold them, and the grid of [compute_dispatch], the
    threads, in whatever order they run and whether or not the buffers are
    aligned, leave in [dst] the combination of the first [count] elements and
    the rest as it was. *)
Theorem kernel_elementwise {E} `{!Inhabited E} (f : E -> E -> E) aligned count (src dst : list E) simd max_tg gids :
  (Z.of_nat count <= 2 ^ 32 - 8)%Z -> count <= length dst -> count <= length src ->
  gids ≡ₚ seq 0 (Z.to_nat (compute_dispatch simd max_tg (Z.of_nat count)).1) ->
  run_grid f aligned (Z.of_nat count) src dst gids = elementwise f count src dst.
Proof.
  intros Hc Hd Hs Hp. cbn in Hp.
  assert (forall g, g ∈ gids <-> 8 * g < count) as Hin.
  { intros g. rewrite Hp, elem_of_seq.
    pose proof (Z.div_mod (Z.of_nat count + 7) 8). pose proof (Z.mod_pos_bound (Z.of_nat count + 7) 8).
    split; intros ?; lia. }
  apply list_eq. intros i. rewrite lookup_grid; [|done..| |].
  - unfold elementwise. destruct (decide (i < count)) as [Hi|Hi].
    + rewrite decide_True.
      * rewrite lookup_app_l by (rewrite length_zip_with, !length_take; lia).
        rewrite lookup_zip_with, !lookup_take_lt by lia.
        rewrite (list_lookup_lookup_total_lt dst), (list_lookup_lookup_total_lt src) by lia. done.
      * apply Exists_exists. exists (i / 8). rewrite Hin. unfold of_thread.
        pose proof (Nat.div_mod i 8). pose proof (Nat.mod_upper_bound i 8). lia.
    + rewrite decide_False.
      * rewrite lookup_app_r, lookup_drop, length_zip_with, !length_take by (rewrite length_zip_with, !length_take; lia).
        f_equal. lia.
      * intros (g & _ & Hg)%Exists_exists. unfold of_thread in Hg. lia.
  - rewrite Hp. apply NoDup_seq.
  - apply Forall_forall. intros g Hg. by apply Hin.
Qed.

(** Nine elements, two threads, the second before the first. *)
Lemma kernel_elementwise_witness :
  run_grid Z.add true 9 [10; 20; 30; 40; 50; 60; 70; 80; 90; 0]%Z [1; 2; 3; 4; 5; 6; 7; 8; 9; 5]%Z [1; 0] =
    [11; 22; 33; 44; 55; 66; 77; 88; 99; 5]%Z.
Proof.
  apply (kernel_elementwise Z.add true 9 [10; 20; 30; 40; 50; 60; 70; 80; 90; 0]%Z [1; 2; 3; 4; 5; 6; 7; 8; 9; 5]%Z 32 1024).
  - lia.
  - cbn. lia.
  - cbn. lia.
  - apply Permutation_swap.
Defined.

(** The last thread of a grid of more than [2^32 - 8] elements, which
    [safe_numel] admits: [base + 8] wraps to zero, the test for a full vector
    passes, and the thread writes all eight elements up to number [2^32 - 1],
    beyond the [count] it was given. *)
Theorem kernel_writes_beyond_count {E} `{!Inhabited E} (f : E -> E -> E) aligned count (src dst : list E) simd max_tg :
  (2 ^ 32 - 8 < count < 2 ^ 32)%Z ->
  (2 ^ 32 <= Z.of_nat (length dst))%Z -> (2 ^ 32 <= Z.of_nat (length src))%Z ->
  let gid := ((compute_dispatch simd max_tg count).1 - 1)%Z in
  let i := Z.to_nat (2 ^ 32 - 1) in
  (count <= Z.of_nat i)%Z /\
  kernel_thread f aligned count src dst gid !! i = Some (f (dst !!! i) (src !!! i)).
Proof.
  intros Hc Hd Hs gid i. assert (gid = 2 ^ 29 - 1)%Z as Hg.
  { unfold gid. cbn. enough ((count + 7) / 8 = 2 ^ 29)%Z by lia.
    symmetry. apply (Z.div_unique_pos _ 8 _ (count + 7 - 8 * 2 ^ 29)); lia. }
  split; [unfold i; lia|]. unfold kernel_thread, thread_base, kElementsPerThread. rewrite Hg.
  replace (u32 ((2 ^ 29 - 1) * 8)) with (2 ^ 32 - 8)%Z by done.
  replace (u32 (2 ^ 32 - 8 + 8)) with 0%Z by done. rewrite (proj2 (Z.leb_le _ _)) by lia.
  replace (if aligned then (4 * u32 ((2 ^ 29 - 1) * 2))%Z else (2 ^ 32 - 8)%Z) with (2 ^ 32 - 8)%Z by (by destruct aligned).
  rewrite lookup_vector by lia. rewrite decide_True by (unfold i; lia). done.
Qed.

(** ** Pipelines *)

(** The operations of [c10d::ReduceOp]. *)
Inductive RedOpType := SUM | AVG | PRODUCT | MIN | MAX | BAND | BOR | BXOR | PREMUL_SUM | UNUSED.
#[export] Instance RedOpType_eq_dec : EqDecision RedOpType.
Proof. solve_decision. Defined.

(** What the kernels are compiled for. *)
Inductive lane := F32 | F16 | BF16.
Inductive kop := KAdd | KMin | KMax | KMul | KScale | KAddScale.
Record pipeline := mkPipeline { p_op : kop; p_lane : lane }.

(** The bfloat16 functions exist only where the compiler has the type
    ([make_pipeline_if_present]); the others are required. *)
Definition cached (has_bf16 : bool) (op : kop) (l : lane) : option pipeline :=
  match l with
  | BF16 => if has_bf16 then Some (mkPipeline op l) else None
  | _ => Some (mkPipeline op l)
  end.

Definition by_dtype (has_bf16 : bool) (op : kop) (dtype : ScalarType) : option pipeline :=
  match dtype with
  | kFloat => cached has_bf16 op F32
  | kHalf => cached has_bf16 op F16
  | kBFloat16 => cached has_bf16 op BF16
  | _ => None
  end.

Definition select_accumulate_pipeline (has_bf16 : bool) (dtype : ScalarType) := by_dtype has_bf16 KAdd dtype.
Definition select_scale_pipeline (has_bf16 : bool) (dtype : ScalarType) := by_dtype has_bf16 KScale dtype.
Definition select_accum_scale_pipeline (has_bf16 : bool) (dtype : ScalarType) := by_dtype has_bf16 KAddScale dtype.

(** [dtype == kFloat ? f32 : dtype == kHalf ? f16 : bf16]. *)
Definition or_bf16 (has_bf16 : bool) (op : kop) (dtype : ScalarType) : option pipeline :=
  cached has_bf16 op (match dtype with kFloat => F32 | kHalf => F16 | _ => BF16 end).

Definition select_op_pipeline (has_bf16 : bool) (dtype : ScalarType) (op : RedOpType) : option pipeline :=
  match op with
  | SUM | AVG => select_accumulate_pipeline has_bf16 dtype
  | MIN => or_bf16 has_bf16 KMin dtype
  | MAX => or_bf16 has_bf16 KMax dtype
  | PRODUCT => or_bf16 has_bf16 KMul dtype
  | _ => None
  end.

Definition kernel_of (op : RedOpType) : option kop :=
  match op with
  | SUM | AVG => Some KAdd | MIN => Some KMin | MAX => Some KMax | PRODUCT => Some KMul | _ => None
  end.

Definition lane_of (dtype : ScalarType) : option lane :=
  match dtype with kFloat => Some F32 | kHalf => Some F16 | kBFloat16 => Some BF16 | _ => None end.

(** The choice of the pipeline: for the three floating point types it is the
    kernel of the operation for that type (where there is one); an unsupported
    operation has none; but for a type that no kernel knows, where a sum has
    none either, minimum, maximum and product take the bfloat16 kernel and so
    read the bits of integers as bfloat16. *)
Theorem pipeline_selection has_bf16 dtype op k :
  kernel_of op = Some k ->
  (forall l, lane_of dtype = Some l -> select_op_pipeline has_bf16 dtype op = cached has_bf16 k l) /\
  (lane_of dtype = None ->
     select_op_pipeline has_bf16 dtype op =
     match k with KAdd => None | _ => cached has_bf16 k BF16 end).
Proof. by destruct op, dtype; intros [= <-]; split; intros; simplify_eq/=. Qed.

(** ** Alignment *)

Record MPSBufferView := mkView {
  mtl_buffer : nat; byte_offset : Z; v_nbytes : Z; cpu_accessible : bool; cpu_ptr : option Z;
}.

Definition is_vector_aligned (view : MPSBufferView) (dtype : ScalarType) : bool :=
  let alignment := match dtype with kFloat => 16 | kHalf | kBFloat16 => 8 | _ => 1 end%Z in
  (byte_offset view mod alignment =? 0)%Z.

Definition binary_vector_aligned (dst src : MPSBufferView) (dtype : ScalarType) : bool :=
  is_vector_aligned dst dtype && is_vector_aligned src dtype.

Definition safe_numel (numel : Z) : result Z :=
  if (numel <=? 2 ^ 32 - 1)%Z then Ok numel
  else Throw (MCCLError "Tensor too large for Metal kernels (").

(** ** Command buffers *)

Section Queue.
Context {E : Type} `{!Inhabited E}.

(** One encoded kernel: the buffers it works on and what it computes. *)
Record launch := mkLaunch { l_fun : E -> E -> E; l_count : nat; l_src : nat; l_dst : nat }.

(** The kernel cache and the queue of the library, with the buffers of the
    device: [d_queue] are the command buffers that are committed and have not
    run, [d_batch] is [batch_cmd]. *)
Record device := mkDevice {
  initialized : bool; has_bf16 : bool;
  d_mem : gmap nat (list E);
  d_queue : list (list launch);
  d_batch : option (list launch);
}.

Definition with_mem (m : gmap nat (list E)) (d : device) : device :=
  mkDevice (initialized d) (has_bf16 d) m (d_queue d) (d_batch d).

(** An operation of the host: it changes the device and returns or throws. *)
Abbreviation hostop := (device -> device * option error).

Definition hseq (a b : hostop) : hostop := fun d =>
  match a d with (d, None) => b d | (d, Some e) => (d, Some e) end.
Fixpoint hall (ops : list hostop) : hostop :=
  match ops with [] => fun d => (d, None) | o :: ops => hseq o (hall ops) end.
Definition require (c : device -> bool) (e : error) : hostop := fun d => (d, if c d then None else Some e).

Definition needs_init : hostop := require initialized (MCCLError "metal_kernels_init() not called").

(** *** The device *)

Definition run_launch (m : gmap nat (list E)) (l : launch) : gmap nat (list E) :=
  match m !! l_dst l, m !! l_src l with
  | Some dst, Some src => <[l_dst l := elementwise (l_fun l) (l_count l) src dst]> m
  | _, _ => m
  end.
Definition run_command (m : gmap nat (list E)) (c : list launch) : gmap nat (list E) := foldl run_launch m c.

(** The oldest command buffer runs. *)
Definition gpu_step (d : device) : device :=
  match d_queue d with
  | [] => d
  | c :: q => mkDevice (initialized d) (has_bf16 d) (run_command (d_mem d) c) q (d_batch d)
  end.

(** [mccl_queue_drain]: commits an empty command buffer and waits for it, that
    is, for all that were committed before. *)
Definition mccl_queue_drain : hostop := fun d =>
  (mkDevice (initialized d) (has_bf16 d) (foldl run_command (d_mem d) (d_queue d)) [] (d_batch d), None).

(** *** The host *)

Definition metal_begin_batch : hostop :=
  hseq needs_init (hseq (require (fun d => match d_batch d with None => true | _ => false end)
    (MCCLError "Metal batch already active"))
    (fun d => (mkDevice (initialized d) (has_bf16 d) (d_mem d) (d_queue d) (Some []), None))).

Definition metal_end_batch : hostop := fun d =>
  match d_batch d with
  | None => (d, None)
  | Some c => (mkDevice (initialized d) (has_bf16 d) (d_mem d) (d_queue d ++ [c]) None, None)
  end.

(** [acquire_command_buffer], the encoding, [finish_command_buffer]: into the
    batch when there is one, otherwise into a command buffer of its own that is
    committed. *)
Definition encode (l : launch) : hostop := fun d =>
  match d_batch d with
  | Some c => (mkDevice (initialized d) (has_bf16 d) (d_mem d) (d_queue d) (Some (c ++ [l])), None)
  | None => (mkDevice (initialized d) (has_bf16 d) (d_mem d) (d_queue d ++ [[l]]) None, None)
  end.

(** The host writes a buffer in shared storage. *)
Definition cpu_write (b : nat) (data : list E) : hostop := fun d => (with_mem (<[b := data]> (d_mem d)) d, None).

(** The kernels' arithmetic. *)
Context (arith : kop -> E -> E -> E) (scale_by : E -> E).

Definition with_pipeline (p : device -> option pipeline) (msg : string) (k : pipeline -> hostop) : hostop := fun d =>
  match p d with None => (d, Some (MCCLError msg)) | Some p => k p d end.

(** The arguments are what the functions have left of their tensors once
    [check_same_shape_dtype], [safe_numel] and [extract_mps_buffer] have accepted
    them: scalar type, number of elements and buffers. *)
Definition dispatch_binary_op (p : pipeline) (count dst src : nat) : hostop :=
  encode (mkLaunch (arith (p_op p)) count src dst).

Definition metal_accumulate_chunk (dtype : ScalarType) (count dst src : nat) : hostop :=
  hseq needs_init (with_pipeline (fun d => select_accumulate_pipeline (has_bf16 d) dtype)
    "No Metal accumulate pipeline for dtype " (fun p => encode (mkLaunch (arith (p_op p)) count src dst))).

Definition metal_elementwise_min (dtype : ScalarType) (count dst src : nat) : hostop :=
  hseq needs_init (with_pipeline (fun d => or_bf16 (has_bf16 d) KMin dtype)
    "No Metal min pipeline for dtype " (fun p => dispatch_binary_op p count dst src)).
Definition metal_elementwise_max (dtype : ScalarType) (count dst src : nat) : hostop :=
  hseq needs_init (with_pipeline (fun d => or_bf16 (has_bf16 d) KMax dtype)
    "No Metal max pipeline for dtype " (fun p => dispatch_binary_op p count dst src)).
Definition metal_elementwise_product (dtype : ScalarType) (count dst src : nat) : hostop :=
  hseq needs_init (with_pipeline (fun d => or_bf16 (has_bf16 d) KMul dtype)
    "No Metal product pipeline for dtype " (fun p => dispatch_binary_op p count dst src)).

Definition metal_reduce_op (dtype : ScalarType) (op : RedOpType) (count dst src : nat) : hostop :=
  match op with
  | SUM | AVG => metal_accumulate_chunk dtype count dst src
  | MIN => metal_elementwise_min dtype count dst src
  | MAX => metal_elementwise_max dtype count dst src
  | PRODUCT => metal_elementwise_product dtype count dst src
  | _ => fun d => (d, Some (MCCLError "Unsupported ReduceOp: "))
  end.

Definition metal_scale_inplace (dtype : ScalarType) (count buf : nat) : hostop :=
  hseq needs_init (with_pipeline (fun d => select_scale_pipeline (has_bf16 d) dtype)
    "No Metal scale pipeline for dtype " (fun _ => encode (mkLaunch (fun x _ => scale_by x) count buf buf))).

(** Sum and scaling in one kernel. *)
Definition metal_accumulate_and_scale (dtype : ScalarType) (count dst src : nat) : hostop :=
  hseq needs_init (with_pipeline (fun d => select_accum_scale_pipeline (has_bf16 d) dtype)
    "No Metal fused pipeline for dtype " (fun _ => encode (mkLaunch (fun x y => scale_by (arith KAdd x y)) count src dst))).

(** The variants on views, which the allreduce algorithms use: they wait for
    their kernel. *)
Definition metal_reduce_op_view (dtype : ScalarType) (op : RedOpType) (count dst src : nat) : hostop :=
  hseq needs_init (with_pipeline (fun d => select_op_pipeline (has_bf16 d) dtype op)
    "No Metal pipeline for dtype " (fun p =>
    hseq (encode (mkLaunch (arith (p_op p)) count src dst)) mccl_queue_drain)).

Definition metal_scale_inplace_view (dtype : ScalarType) (count buf : nat) : hostop :=
  hseq needs_init (with_pipeline (fun d => select_scale_pipeline (has_bf16 d) dtype)
    "No Metal scale pipeline for dtype " (fun _ =>
    hseq (encode (mkLaunch (fun x _ => scale_by x) count buf buf)) mccl_queue_drain)).

Definition metal_sync : hostop :=
  hseq (fun d => match d_batch d with Some _ => metal_end_batch d | None => (d, None) end) mccl_queue_drain.

(** The last part of the bodies of [_reduce_scatter_base] and [reduce_scatter]:
    the peers' shares, each through its own temporary, into [out] in one batch.
    [peers] are the temporaries with what was received. *)
Definition reduce_batch (dtype : ScalarType) (op : RedOpType) (count out : nat) (peers : list (nat * list E)) : hostop :=
  hseq metal_begin_batch
    (hseq (hall ((fun pb => hseq (cpu_write pb.1 pb.2) (metal_reduce_op dtype op count out pb.1)) <$> peers))
    (hseq (if bool_decide (op = AVG) then metal_scale_inplace dtype count out else fun d => (d, None))
          metal_end_batch)).
End Queue.

Arguments device E : clear implicits.
Arguments launch E : clear implicits.

(** ** Properties: batches *)

Section Batch.
Context {E : Type} `{!Inhabited E} (arith : kop -> E -> E -> E) (scale_by : E -> E).
Implicit Types d : device E.

Lemma elementwise_full (f : E -> E -> E) n (src dst : list E) :
  length src = n -> length dst = n -> elementwise f n src dst = zip_with f dst src.
Proof.
  intros Hs Hd. unfold elementwise. by rewrite drop_ge, app_nil_r, !take_ge by lia.
Qed.

(** The device may run command buffers at any time; a drain comes to the same. *)
Lemma drain_gpu_step d : mccl_queue_drain (gpu_step d) = mccl_queue_drain d.
Proof. unfold mccl_queue_drain, gpu_step. by destruct (d_queue d) eqn:Hq; cbn; rewrite ?Hq. Qed.

Lemma reduce_op_encodes dtype op count dst src d p :
  initialized d = true -> select_op_pipeline (has_bf16 d) dtype op = Some p ->
  metal_reduce_op arith dtype op count dst src d = encode (mkLaunch (arith (p_op p)) count src dst) d.
Proof.
  intros Hi Hp. destruct op; cbn in Hp |- *; try done;
    unfold hseq, needs_init, require, with_pipeline; by rewrite Hi, Hp.
Qed.

Lemma begin_batch_spec d :
  metal_begin_batch d =
  if negb (initialized d) then (d, Some (MCCLError "metal_kernels_init() not called")) else
  match d_batch d with
  | Some _ => (d, Some (MCCLError "Metal batch already active"))
  | None => (mkDevice (initialized d) (has_bf16 d) (d_mem d) (d_queue d) (Some []), None)
  end.
Proof.
  unfold metal_begin_batch, hseq, needs_init, require. by destruct (initialized d), (d_batch d).
Qed.

Lemma hseq_ok (a b : device E -> device E * option error) d d' : a d = (d', None) -> hseq a b d = b d'.
Proof. intros H. unfold hseq. by rewrite H. Qed.

(** The temporaries with the received shares in them. *)
Definition with_shares (peers : list (nat * list E)) (m : gmap nat (list E)) : gmap nat (list E) :=
  foldl (fun m pb => <[pb.1 := pb.2]> m) m peers.

Lemma reduce_loop dtype op count out peers d p c :
  initialized d = true -> select_op_pipeline (has_bf16 d) dtype op = Some p -> d_batch d = Some c ->
  hall ((fun pb => hseq (cpu_write pb.1 pb.2) (metal_reduce_op arith dtype op count out pb.1)) <$> peers) d =
  (mkDevice (initialized d) (has_bf16 d) (with_shares peers (d_mem d)) (d_queue d)
     (Some (c ++ ((fun pb => mkLaunch (arith (p_op p)) count pb.1 out) <$> peers))), None).
Proof.
  revert d c. induction peers as [|[b data] peers IH]; intros d c Hi Hp Hb.
  { cbn. rewrite app_nil_r, <- Hb. by destruct d. }
  cbn [hall fmap list_fmap]. unfold hseq at 1. unfold hseq at 1. cbn [cpu_write fst snd].
  rewrite (reduce_op_encodes dtype op count out b _ p) by done. unfold encode. cbn [d_batch with_mem]. rewrite Hb.
  rewrite (IH _ (c ++ [mkLaunch (arith (p_op p)) count b out])) by done. cbn. by rewrite <- app_assoc.
Qed.

Lemma with_shares_cons b data peers m : with_shares ((b, data) :: peers) m = with_shares peers (<[b := data]> m).
Proof. done. Qed.

Lemma with_shares_ne peers m b : b ∉ peers.*1 -> with_shares peers m !! b = m !! b.
Proof.
  revert m. induction peers as [|[b' data] peers IH]; intros m Hb; [done|].
  rewrite with_shares_cons, IH by set_solver. apply lookup_insert_ne. set_solver.
Qed.

Lemma with_shares_in peers m b data : NoDup peers.*1 -> (b, data) ∈ peers -> with_shares peers m !! b = Some data.
Proof.
  revert m. induction peers as [|[b' data'] peers IH]; intros m Hnd Hb; [by apply elem_of_nil in Hb|].
  apply NoDup_cons in Hnd as [Hni Hnd]. apply elem_of_cons in Hb as [[= <- <-]|Hb]; [|by apply IH].
  rewrite with_shares_cons, with_shares_ne by done. apply lookup_insert_eq.
Qed.

Lemma run_reductions (f : E -> E -> E) count out peers (m : gmap nat (list E)) x :
  m !! out = Some x -> length x = count -> out ∉ peers.*1 ->
  Forall (fun pb => m !! pb.1 = Some pb.2 /\ length pb.2 = count) peers ->
  exists m', run_command m ((fun pb => mkLaunch f count pb.1 out) <$> peers) = m' /\
    m' !! out = Some (foldl (fun acc pb => zip_with f acc pb.2) x peers) /\
    length (foldl (fun acc pb => zip_with f acc pb.2) x peers) = count.
Proof.
  revert m x. induction peers as [|[b data] peers IH]; intros m x Hx Hlen Hni Hall; [by eexists|].
  apply Forall_cons in Hall as [[Hb Hl] Hall]. cbn in Hb, Hl, Hni.
  cbn [fmap list_fmap run_command foldl]. unfold run_launch at 2. cbn [l_dst l_src l_fun l_count fst snd]. rewrite Hx, Hb.
  rewrite elementwise_full by done. apply IH.
  - apply lookup_insert_eq.
  - rewrite length_zip_with. cbn. lia.
  - set_solver.
  - eapply Forall_impl; [apply Forall_and; split; [exact Hall|]|].
    + apply Forall_forall. intros pb Hpb. exact (list_elem_of_fmap_2 fst peers pb Hpb).
    + intros pb [[H1 H2] H3]. split; [|done]. rewrite lookup_insert_ne; [done|]. set_solver.
Qed.
End Batch.

(** C13: The batched reduction of a reduce-scatter.  On an initialised device with no
    batch open, with a temporary of its own for every peer, the body encodes all
    reductions (and the scaling of AVG) into one command buffer, commits it and
    returns; once the queue is drained, as the callback of the work does,
    however much of it the device has run by itself, the output holds the
    sequential reduction of the shares, and no batch is left open. *)
Theorem reduce_batch_correct {E} `{!Inhabited E} (arith : kop -> E -> E -> E) (scale_by : E -> E)
    dtype op l k count out (peers : list (nat * list E)) (d : device E) x :
  initialized d = true -> d_batch d = None -> d_queue d = [] ->
  kernel_of op = Some k -> lane_of dtype = Some l -> cached (has_bf16 d) k l = Some (mkPipeline k l) ->
  d_mem d !! out = Some x -> length x = count ->
  NoDup peers.*1 -> out ∉ peers.*1 -> Forall (fun pb => length pb.2 = count) peers ->
  exists d1, reduce_batch arith scale_by dtype op count out peers d = (d1, None) /\
    d_batch d1 = None /\
    forall n, let d2 := (mccl_queue_drain (Nat.iter n gpu_step d1)).1 in
      d_queue d2 = [] /\ d_batch d2 = None /\
      d_mem d2 !! out = Some (
        let r := foldl (fun acc pb => zip_with (arith k) acc pb.2) x peers in
        if bool_decide (op = AVG) then scale_by <$> r else r).
Proof.
  intros Hi Hb Hq Hk Hl Hc Hx Hlen Hnd Hni Hall.
  set (d0 := mkDevice (initialized d) (has_bf16 d) (d_mem d) (d_queue d) (Some [])).
  assert (select_op_pipeline (has_bf16 d0) dtype op = Some (mkPipeline k l)) as Hp.
  { destruct (pipeline_selection (has_bf16 d) dtype op k Hk) as [H _]. exact (eq_trans (H l Hl) Hc). }
  set (cs := (fun pb : nat * list E => mkLaunch (arith k) count pb.1 out) <$> peers).
  set (sc := if bool_decide (op = AVG) then [mkLaunch (fun x _ => scale_by x) count out out] else []).
  assert (select_scale_pipeline (has_bf16 d) dtype <> None) as Hs.
  { unfold select_scale_pipeline, by_dtype. unfold cached in *. by destruct dtype, l, (has_bf16 d); simplify_eq/=. }
  exists (mkDevice (initialized d) (has_bf16 d) (with_shares peers (d_mem d)) [cs ++ sc] None).
  split_and!; [|done|].
  - unfold reduce_batch. rewrite (hseq_ok _ _ d d0) by (rewrite begin_batch_spec, Hb; unfold d0; by rewrite Hi).
    rewrite (hseq_ok _ _ _ _ (reduce_loop arith dtype op count out peers d0 _ [] Hi Hp eq_refl)).
    unfold sc. cbn [app p_op]. fold cs. case_bool_decide as Ha.
    + unfold metal_scale_inplace, hseq, needs_init, require, with_pipeline. cbn. rewrite Hi.
      destruct (select_scale_pipeline (has_bf16 d) dtype); [|done]. cbn. by rewrite Hq.
    + cbn. by rewrite app_nil_r, Hq.
  - intros n.
    assert (forall n (e : device E), mccl_queue_drain (Nat.iter n gpu_step e) = mccl_queue_drain e) as Hn.
    { clear. induction n as [|n IH]; intros e; [done|]. rewrite Nat.iter_succ. by rewrite drain_gpu_step, IH. }
    rewrite Hn. cbn [fst]. unfold mccl_queue_drain. cbn [fst d_queue d_batch d_mem foldl]. split_and!; [done|done|].
    destruct (run_reductions (arith k) count out peers (with_shares peers (d_mem d)) x) as (m' & Hm & Hout & Hlen').
    + by rewrite with_shares_ne.
    + done.
    + done.
    + apply Forall_forall. intros [b data] Hpb. split; [by apply with_shares_in|].
      rewrite Forall_forall in Hall. by apply (Hall (b, data)).
    + unfold run_command. rewrite foldl_app. fold (run_command (with_shares peers (d_mem d)) cs).
      unfold cs. rewrite Hm. unfold sc. case_bool_decide; cbn [foldl]; [|done].
      unfold run_launch. cbn [l_dst l_src l_fun l_count]. rewrite Hout, elementwise_full by done.
      rewrite lookup_insert_eq. f_equal. rewrite zip_with_diag. done.
Qed.

(** A device with two floats for the output. *)
Definition demo_device : device Z := mkDevice true true {[ 0 := [1; 2]%Z ]} [] None.
Definition demo_arith (k : kop) : Z -> Z -> Z :=
  match k with KMin => Z.min | KMax => Z.max | KMul => Z.mul | _ => Z.add end.

Lemma reduce_batch_correct_witness :
  exists d1, reduce_batch demo_arith (fun x => x / 3)%Z kFloat AVG 2 0 [(1, [10; 20]%Z); (2, [100; 200]%Z)] demo_device = (d1, None) /\
    forall n, d_mem (mccl_queue_drain (Nat.iter n gpu_step d1)).1 !! 0 = Some [37; 74]%Z.
Proof.
  destruct (reduce_batch_correct demo_arith (fun x => x / 3)%Z kFloat AVG F32 KAdd 2 0 [(1, [10; 20]%Z); (2, [100; 200]%Z)]
    demo_device [1; 2]%Z) as (d1 & H1 & _ & H2); try reflexivity.
  - apply (bool_decide_unpack _). vm_compute. done.
  - apply (bool_decide_unpack _). vm_compute. done.
  - by repeat constructor.
  - exists d1. split; [exact H1|]. intros n. apply (H2 n).
Defined.

(** *** An abandoned batch *)

(** A view reduction of the allreduce algorithms. *)
Record view_call := mkViewCall { v_dtype : ScalarType; v_op : RedOpType; v_count : nat; v_dst : nat; v_src : nat }.

Definition run_view {E} (arith : kop -> E -> E -> E) (c : view_call) : device E -> device E * option error :=
  metal_reduce_op_view arith (v_dtype c) (v_op c) (v_count c) (v_dst c) (v_src c).

(** A batch is open and nothing else is queued. *)
Definition batch_left_open {E} (d : device E) : Prop :=
  initialized d = true /\ d_queue d = [] /\ d_batch d <> None.

Lemma view_into_open_batch {E} `{!Inhabited E} (arith : kop -> E -> E -> E) (c : view_call) (d : device E) :
  batch_left_open d -> select_op_pipeline (has_bf16 d) (v_dtype c) (v_op c) <> None ->
  exists d', run_view arith c d = (d', None) /\ batch_left_open d' /\ d_mem d' = d_mem d /\ has_bf16 d' = has_bf16 d.
Proof.
  intros (Hi & Hq & Hb) Hp. destruct (select_op_pipeline _ _ _) as [p|] eqn:Hsel; [|done].
  destruct (d_batch d) as [b|] eqn:Hb'; [|done].
  eexists. unfold run_view, metal_reduce_op_view, hseq at 1, needs_init, require. rewrite Hi. cbn [snd fst].
  unfold with_pipeline. rewrite Hsel. unfold hseq, encode. rewrite Hb'. cbn. rewrite Hq.
  split; [done|]. by split_and!.
Qed.

Lemma views_into_open_batch {E} `{!Inhabited E} (arith : kop -> E -> E -> E) (calls : list view_call) (d : device E) :
  batch_left_open d -> Forall (fun c => select_op_pipeline (has_bf16 d) (v_dtype c) (v_op c) <> None) calls ->
  exists d', hall (run_view arith <$> calls) d = (d', None) /\ batch_left_open d' /\ d_mem d' = d_mem d.
Proof.
  revert d. induction calls as [|c calls IH]; intros d Hd Hall; [by exists d|].
  apply Forall_cons in Hall as [Hc Hall].
  destruct (view_into_open_batch arith c d Hd Hc) as (d1 & Hrun & Hd1 & Hm & Hf).
  destruct (IH d1 Hd1) as (d2 & Hrest & Hd2 & Hm2); [by rewrite Hf|].
  exists d2. cbn [hall fmap list_fmap]. rewrite (hseq_ok _ _ _ _ Hrun). split_and!; [done|done|congruence].
Qed.

(** An operation without a kernel abandons the batch.  On a device with no batch
    open the batched reduction of a reduce-scatter whose operation has no kernel
    (BAND, BOR, ...) throws after it has opened the batch, and nothing on the
    exception path ends it.  From then on every reduction the allreduce
    algorithms issue reports success and leaves all of memory as it is, since
    its kernel goes to the batch nobody commits, and after any number of them
    the next batched reduction is refused. *)
Theorem unsupported_op_abandons_batch {E} `{!Inhabited E} (arith : kop -> E -> E -> E) (scale_by : E -> E)
    dtype op count out b data (peers : list (nat * list E)) (d : device E) (calls : list view_call) :
  initialized d = true -> d_batch d = None -> d_queue d = [] -> kernel_of op = None ->
  Forall (fun c => select_op_pipeline (has_bf16 d) (v_dtype c) (v_op c) <> None) calls ->
  exists d1, reduce_batch arith scale_by dtype op count out ((b, data) :: peers) d =
      (d1, Some (MCCLError "Unsupported ReduceOp: ")) /\ batch_left_open d1 /\
    exists d2, hall (run_view arith <$> calls) d1 = (d2, None) /\ d_mem d2 = d_mem d1 /\
      forall dtype' op' count' out' peers',
        reduce_batch arith scale_by dtype' op' count' out' peers' d2 = (d2, Some (MCCLError "Metal batch already active")).
Proof.
  intros Hi Hb Hq Hk Hcalls.
  eexists. split; [|split].
  - unfold reduce_batch. rewrite (hseq_ok _ _ d _) by (rewrite begin_batch_spec, Hb, Hi; reflexivity).
    cbn [hall fmap list_fmap]. unfold hseq. cbn. by destruct op.
  - unfold batch_left_open. cbn. by rewrite Hq.
  - match goal with |- exists d2, hall _ ?d1 = _ /\ _ =>
      destruct (views_into_open_batch arith calls d1) as (d2 & Hrun & (Hi2 & _ & Hb2) & Hm) end.
    + unfold batch_left_open. cbn. by rewrite Hq.
    + exact Hcalls.
    + exists d2. split_and!; [exact Hrun|exact Hm|]. intros. unfold reduce_batch, hseq at 1.
      rewrite begin_batch_spec, Hi2. cbn. by destruct (d_batch d2).
Qed.

(** A reduce-scatter with BAND, then two reductions of an allreduce. *)
Lemma unsupported_op_abandons_batch_witness :
  exists d1, reduce_batch demo_arith (fun x => x) kFloat BAND 2 0 [(1, [10; 20]%Z)] demo_device =
      (d1, Some (MCCLError "Unsupported ReduceOp: ")) /\
    exists d2, hall (run_view demo_arith <$> [mkViewCall kFloat SUM 2 0 1; mkViewCall kHalf MAX 2 0 1]) d1 = (d2, None) /\
      d_mem d2 !! 0 = Some [1; 2]%Z.
Proof.
  destruct (unsupported_op_abandons_batch demo_arith (fun x => x) kFloat BAND 2 0 1 [10; 20]%Z [] demo_device
    [mkViewCall kFloat SUM 2 0 1; mkViewCall kHalf MAX 2 0 1]) as (d1 & H1 & _ & d2 & H2 & H3 & _); try reflexivity.
  - by repeat constructor.
  - exists d1. split; [exact H1|]. exists d2. split; [exact H2|]. rewrite H3.
    assert (d1 = (reduce_batch demo_arith (fun x => x) kFloat BAND 2 0 [(1, [10; 20]%Z)] demo_device).1) as ->
      by (by rewrite H1). vm_compute. reflexivity.
Defined.
