(* ===== verification/Staging.v ===== *)
(** * Staging of tensors ([csrc/metal/MPSInterop.mm])

    What lies between a tensor and the sockets: the staging pool, one host
    allocation that grows and is used again by every call, the blits between it
    and buffers in private storage (cut into pieces when they are longer than a
    Metal buffer may be), [stage_for_send_nosync], [unstage_from_recv] and
    [ensure_shared_storage].

    Memory is a map from blocks (buffers of tensors and host allocations) to
    their bytes, a pointer is a block and an offset.  A computation has no result
    where the code reads or writes through a null or dangling pointer or outside
    of a block. *)
From stdpp Require Import gmap list.
From S2P Require Import Prelude Common MemoryPool.
#[local] Open Scope nat_scope.

(** ** State *)

Record st := mkSt {
  blocks : gmap nat (list Z);
  pool_ptr : option nat;                (* StagingPool::ptr *)
  pool_capacity : nat;                  (* capacity *)
  pool_wrapped : bool                   (* mtl_wrapper != nil *)
}.

(** Throwing and undefined behaviour. *)
Definition SM (A : Type) : Type := st -> option (result A * st).
Definition sret {A} (a : A) : SM A := fun s => Some (Ok a, s).
Definition sthrow {A} (e : error) : SM A := fun s => Some (Throw e, s).
Definition sbind {A B} (m : SM A) (k : A -> SM B) : SM B := fun s =>
  match m s with
  | None => None
  | Some (Throw e, s) => Some (Throw e, s)
  | Some (Ok a, s) => k a s
  end.
Definition check (b : bool) (msg : string) : SM unit := if b then sret tt else sthrow (MCCLError msg).

Declare Scope staging_scope.
Notation "x <-- m ;; k" := (sbind m (fun x => k)) (at level 100, m at next level, right associativity) : staging_scope.
Notation "m ;;; k" := (sbind m (fun _ => k)) (at level 100, right associativity) : staging_scope.
#[local] Open Scope staging_scope.

(** A tensor as [extract_mps_buffer] describes it; in shared storage the host
    reads and writes the buffer itself. *)
Record buffer_view := mkBufView { bv_buffer : nat; bv_offset : nat; bv_nbytes : nat; bv_shared : bool }.

(** [StagingBuffer]: a pointer and a length. *)
Record StagingBuffer := mkStaged { sg_data : option (nat * nat); sg_nbytes : nat }.

(** [(nbytes + PAGE - 1) & ~(PAGE - 1)]. *)
Definition PAGE : Z := (2 ^ 14)%Z.
Definition page_up (n : nat) : nat := Z.to_nat (align_up (Z.of_nat n) PAGE).

(** ** Memory *)

Definition read_block (b off n : nat) (s : st) : option (list Z) :=
  x ← blocks s !! b; if off + n <=? length x then Some (slice off n x) else None.

Definition set_blocks (m : gmap nat (list Z)) (s : st) : st := mkSt m (pool_ptr s) (pool_capacity s) (pool_wrapped s).

Definition write_block (b off : nat) (d : list Z) (s : st) : option st :=
  x ← blocks s !! b;
  if off + length d <=? length x then Some (set_blocks (<[b := list_inserts off d x]> (blocks s)) s) else None.

(** [memcpy] and a blit that has completed. *)
Definition copy (b1 o1 b2 o2 n : nat) : SM unit := fun s =>
  d ← read_block b1 o1 n s; s ← write_block b2 o2 d s; Some (Ok tt, s).

(** ** The staging pool *)

Section Staging.
(** [maxBufferLength], whether [posix_memalign] succeeds, and what a new
    allocation contains. *)
Context (max_buf : nat) (alloc_ok : nat -> bool) (junk : nat -> list Z).

(** [newBufferWithBytesNoCopy] wants whole pages and at most [maxBufferLength]. *)
Definition wrappable (off len : nat) : bool :=
  (Z.of_nat off mod PAGE =? 0)%Z && (Z.of_nat len mod PAGE =? 0)%Z && (len <=? max_buf).

Definition set_pool (p : option nat) (c : nat) (w : bool) (s : st) : st := mkSt (blocks s) p c w.

(** [posix_memalign]: a block that was not there, or nothing. *)
Definition posix_memalign (n : nat) (s : st) : option nat * st :=
  if alloc_ok n then
    let b := fresh (dom (blocks s)) in (Some b, set_blocks (<[b := junk n]> (blocks s)) s)
  else (None, s).

Definition free (p : option nat) (s : st) : st :=
  match p with Some b => set_blocks (delete b (blocks s)) s | None => s end.

Definition ensure (nbytes : nat) : SM (option nat) := fun s =>
  if pool_capacity s <? nbytes then
    let s := set_pool None (page_up nbytes) false (free (pool_ptr s) s) in
    let '(p, s) := posix_memalign (pool_capacity s) s in
    let s := set_pool p (pool_capacity s) false s in
    (check (match p with Some _ => true | None => false end) "Staging buffer allocation failed" ;;;
     if pool_capacity s <=? max_buf
     then check (wrappable 0 (pool_capacity s)) "Staging MTLBuffer creation failed" ;;;
          (fun s => Some (Ok (pool_ptr s), set_pool (pool_ptr s) (pool_capacity s) true s))
     else sret p) s
  else Some (Ok (pool_ptr s), s).

(** ** Blits *)

(** The loop of both chunked blits: [piece] copies [chunk] bytes at [offset]. *)
Fixpoint chunked (fuel : nat) (msg : string) (piece : nat -> nat -> SM unit) (nbytes offset : nat) : SM unit :=
  if nbytes <=? offset then sret tt else
  match fuel with
  | 0 => fun _ => None
  | S fuel =>
    let chunk := Nat.min max_buf (nbytes - offset) in
    check (wrappable offset (page_up chunk)) msg ;;;
    piece offset chunk ;;;
    chunked fuel msg piece nbytes (offset + chunk)
  end.

(** Into [dst], or into the pool when it is large enough, whatever [dst] is. *)
Definition chunked_blit_to_staging (src_buf src_off : nat) (dst : option nat) (nbytes : nat) : SM unit := fun s =>
  let in_pieces : SM unit :=
    match dst with
    | Some d => chunked nbytes "chunked_blit_to_staging: MTLBuffer wrap failed at offset "
                  (fun o c => copy src_buf (src_off + o) d o c) nbytes 0
    | None => fun _ => None
    end in
  match pool_ptr s with
  | Some p => if pool_wrapped s && (nbytes <=? pool_capacity s) then copy src_buf src_off p 0 nbytes s
              else in_pieces s
  | None => in_pieces s
  end.

Definition chunked_blit_from_staging (src : nat * nat) (nbytes dst_buf dst_off : nat) : SM unit := fun s =>
  if bool_decide (Some src = (fun p => (p, 0)) <$> pool_ptr s) && pool_wrapped s && (nbytes <=? pool_capacity s)
  then copy src.1 0 dst_buf dst_off nbytes s
  else chunked nbytes "chunked_blit_from_staging: MTLBuffer wrap failed at offset "
         (fun o c => copy src.1 (src.2 + o) dst_buf (dst_off + o) c) nbytes 0 s.

(** ** Staging *)

Definition stage_for_send_nosync (t : buffer_view) : SM StagingBuffer :=
  if bv_shared t then sret (mkStaged (Some (bv_buffer t, bv_offset t)) (bv_nbytes t)) else
  staging <-- ensure (bv_nbytes t) ;;
  chunked_blit_to_staging (bv_buffer t) (bv_offset t) staging (bv_nbytes t) ;;;
  sret (mkStaged ((fun b => (b, 0)) <$> staging) (bv_nbytes t)).

Definition unstage_from_recv (t : buffer_view) (src : nat * nat) (nbytes : nat) : SM unit :=
  check (nbytes =? bv_nbytes t) "unstage size mismatch" ;;;
  if bv_shared t then copy src.1 src.2 (bv_buffer t) (bv_offset t) nbytes else
  fun s =>
    if bool_decide (Some src = (fun p => (p, 0)) <$> pool_ptr s)
    then chunked_blit_from_staging src nbytes (bv_buffer t) (bv_offset t) s
    else (staging <-- ensure nbytes ;;
          match staging with
          | Some b => copy src.1 src.2 b 0 nbytes ;;;
                      chunked_blit_from_staging (b, 0) nbytes (bv_buffer t) (bv_offset t)
          | None => fun _ => None
          end) s.

(** The block of the new tensor, or the tensor's own. *)
Definition ensure_shared_storage (t : buffer_view) : SM (nat * nat) :=
  if bv_shared t then sret (bv_buffer t, bv_offset t) else fun s =>
  let '(p, s) := posix_memalign (page_up (bv_nbytes t)) s in
  match p with
  | None => Some (Throw (MCCLError "ensure_shared_storage: posix_memalign failed for "), s)
  | Some b => (chunked_blit_to_staging (bv_buffer t) (bv_offset t) (Some b) (bv_nbytes t) ;;; sret (b, 0)) s
  end.
End Staging.

(** ** Copies *)

Lemma inserts_app {A} i (d1 d2 l : list A) :
  list_inserts (i + length d1) d2 (list_inserts i d1 l) = list_inserts i (d1 ++ d2) l.
Proof.
  revert i. induction d1 as [|y d1 IH]; intros i; cbn [list_inserts app length]; [by rewrite Nat.add_0_r|].
  rewrite <- IH, <- list_insert_inserts_lt by lia. f_equal. f_equal. lia.
Qed.

Lemma slice_split {A} off n k (l : list A) : slice off n l ++ slice (off + n) k l = slice off (n + k) l.
Proof. unfold slice. rewrite <- drop_drop. apply take_take_drop. Qed.

Lemma page_up_spec n :
  (Z.of_nat n + PAGE - 1 < 2 ^ 64)%Z ->
  n <= page_up n /\ (PAGE | Z.of_nat (page_up n))%Z /\ (Z.of_nat (page_up n) < Z.of_nat n + PAGE)%Z.
Proof.
  intros Hn. unfold page_up, PAGE in *.
  destruct (align_up_spec 14 (Z.of_nat n)) as (Hd & Hb & _); [lia..|].
  rewrite Z2Nat.id by lia. split_and!; [lia|done|lia].
Qed.

Section Copies.
Implicit Types s : st.

Lemma read_block_ok b off n s x :
  blocks s !! b = Some x -> off + n <= length x -> read_block b off n s = Some (slice off n x).
Proof. intros Hb Hn. unfold read_block. rewrite Hb. cbn. by rewrite (proj2 (Nat.leb_le _ _)). Qed.

Lemma copy_ok b1 o1 b2 o2 n s x y :
  blocks s !! b1 = Some x -> blocks s !! b2 = Some y -> o1 + n <= length x -> o2 + n <= length y ->
  copy b1 o1 b2 o2 n s =
    Some (Ok tt, set_blocks (<[b2 := list_inserts o2 (slice o1 n x) y]> (blocks s)) s).
Proof.
  intros H1 H2 Hx Hy. unfold copy. rewrite (read_block_ok _ _ _ _ x) by done. cbn.
  unfold write_block. rewrite H2. cbn. by rewrite length_slice, (proj2 (Nat.leb_le _ _)).
Qed.
End Copies.

Section Blits.
Context (max_buf : nat) (Hmax : 0 < max_buf) (Hpages : (PAGE | Z.of_nat max_buf)%Z).
Implicit Types s : st.

Lemma wrappable_chunk off c :
  (PAGE | Z.of_nat off)%Z -> c <= max_buf -> (Z.of_nat c + PAGE - 1 < 2 ^ 64)%Z ->
  wrappable max_buf off (page_up c) = true.
Proof.
  intros Ho Hc Hs. destruct (page_up_spec c Hs) as (_ & Hd & Hlt). unfold wrappable.
  rewrite (proj2 (Z.eqb_eq _ _)) by (by apply Z.mod_divide).
  rewrite (proj2 (Z.eqb_eq _ _)) by (by apply Z.mod_divide). apply Nat.leb_le.
  destruct Hd as [a Ha], Hpages as [m Hm]. unfold PAGE in *. nia.
Qed.

(** The loop over the pieces does what one copy does. *)
Lemma chunked_is_copy fuel msg b1 o1 b2 o2 n off s x y :
  b1 <> b2 -> n <= off + fuel -> off <= n -> (off < n -> (PAGE | Z.of_nat off)%Z) ->
  (Z.of_nat n + PAGE - 1 < 2 ^ 64)%Z ->
  blocks s !! b1 = Some x -> blocks s !! b2 = Some y -> o1 + n <= length x -> o2 + n <= length y ->
  chunked max_buf fuel msg (fun o c => copy b1 (o1 + o) b2 (o2 + o) c) n off s =
    Some (Ok tt, set_blocks (<[b2 := list_inserts (o2 + off) (slice (o1 + off) (n - off) x) y]> (blocks s)) s).
Proof.
  intros Hne. revert off s y. induction fuel as [|fuel IH]; intros off s y Hf Ho Hd Hs H1 H2 Hx Hy.
  { cbn [chunked]. rewrite (proj2 (Nat.leb_le _ _)) by lia. replace (n - off) with 0 by lia. cbn.
    rewrite insert_id by done. by destruct s. }
  cbn [chunked]. destruct (Nat.leb_spec n off) as [Hle|Hlt].
  { replace (n - off) with 0 by lia. cbn. rewrite insert_id by done. by destruct s. }
  set (c := Nat.min max_buf (n - off)). unfold sbind at 1, check.
  rewrite wrappable_chunk by (unfold c; auto with lia). cbn [sret]. unfold sbind at 1.
  rewrite (copy_ok _ _ _ _ _ _ x y) by (done || unfold c; lia).
  assert (length (slice (o1 + off) c x) = c) as Hlc by (apply length_slice; unfold c; lia).
  rewrite (IH _ _ (list_inserts (o2 + off) (slice (o1 + off) c x) y)).
  - cbn [blocks set_blocks pool_ptr pool_capacity pool_wrapped]. rewrite insert_insert_eq.
    enough (list_inserts (o2 + (off + c)) (slice (o1 + (off + c)) (n - (off + c)) x)
      (list_inserts (o2 + off) (slice (o1 + off) c x) y) =
      list_inserts (o2 + off) (slice (o1 + off) (n - off) x) y) as -> by done.
    rewrite !Nat.add_assoc. pose proof (inserts_app (o2 + off) (slice (o1 + off) c x)
      (slice (o1 + off + c) (n - (off + c)) x) y) as Happ. rewrite Hlc, slice_split in Happ. rewrite Happ.
    do 2 f_equal. unfold c. lia.
  - unfold c. lia.
  - unfold c. lia.
  - intros H. replace c with max_buf by (unfold c in *; lia). rewrite Nat2Z.inj_add. apply Z.divide_add_r; auto.
  - done.
  - cbn. by rewrite lookup_insert_ne.
  - apply lookup_insert_eq.
  - done.
  - by rewrite length_inserts.
Qed.
End Blits.

(** ** The pool *)

(** The pool between two calls: nothing yet, or an allocation of whole pages
    of the recorded capacity. *)
Definition pool_ok (s : st) : Prop :=
  match pool_ptr s with
  | None => pool_capacity s = 0 /\ pool_wrapped s = false
  | Some p => exists x, blocks s !! p = Some x /\ length x = pool_capacity s
  end.

(** The block of a tensor is not the pool. *)
Definition apart (b : nat) (s : st) : Prop := pool_ptr s <> Some b.

(** [s'] has the blocks of [s], the pools aside. *)
Definition frame (s s' : st) : Prop :=
  forall b, apart b s -> is_Some (blocks s !! b) -> apart b s' /\ blocks s' !! b = blocks s !! b.

Lemma frame_trans s1 s2 s3 : frame s1 s2 -> frame s2 s3 -> frame s1 s3.
Proof.
  intros H12 H23 b Ha Hb. destruct (H12 b Ha Hb) as [Ha2 E2].
  destruct (H23 b Ha2) as [Ha3 E3]; [by rewrite E2|]. split; [done|congruence].
Qed.

Section Pool.
Context (max_buf : nat) (Hmax : 0 < max_buf) (Hpages : (PAGE | Z.of_nat max_buf)%Z).
Context (alloc_ok : nat -> bool) (Halloc : forall n, alloc_ok n = true).
Context (junk : nat -> list Z) (Hjunk : forall n, length (junk n) = n).
Implicit Types s : st.

Lemma ensure_spec n s :
  pool_ok s -> 0 < n -> (Z.of_nat n + PAGE - 1 < 2 ^ 64)%Z ->
  exists p s', ensure max_buf alloc_ok junk n s = Some (Ok (Some p), s') /\
    pool_ok s' /\ pool_ptr s' = Some p /\ n <= pool_capacity s' /\ frame s s' /\
    (n <= pool_capacity s -> s' = s).
Proof.
  intros Hok Hn Hs. unfold ensure. destruct (Nat.ltb_spec (pool_capacity s) n) as [Hlt|Hge].
  2:{ unfold pool_ok in Hok. destruct (pool_ptr s) as [p|] eqn:Hp; [|lia]. exists p, s.
      unfold pool_ok. rewrite Hp. by split_and!. }
  destruct (page_up_spec n Hs) as (Hle & Hd & _).
  cbv zeta. unfold posix_memalign. rewrite Halloc. cbn [set_pool pool_ptr pool_capacity pool_wrapped blocks set_blocks].
  set (s0 := free (pool_ptr s) s). set (p := fresh (dom (blocks s0))).
  assert (p ∉ dom (blocks s0)) as Hfresh by apply is_fresh.
  set (s1 := mkSt (<[p := junk (page_up n)]> (blocks s0)) (Some p) (page_up n)).
  assert (forall w, pool_ok (s1 w) /\ frame s (s1 w)) as Hspec.
  { intros w. split; [eexists; split; [apply lookup_insert_eq|apply Hjunk]|].
    intros b Ha [x Hb].
    assert (blocks s0 !! b = Some x) as Hb0.
    { unfold s0, free. destruct (pool_ptr s) as [q|] eqn:Hq; [|done]. cbn.
      rewrite lookup_delete_ne; [done|]. intros ->. by apply Ha. }
    assert (b <> p) as Hbp by (intros ->; apply Hfresh, elem_of_dom; eauto).
    split; [unfold apart; cbn; congruence|]. cbn. by rewrite lookup_insert_ne, Hb0. }
  assert (exists w, sbind (check true "Staging buffer allocation failed") (fun _ =>
    if page_up n <=? max_buf
    then sbind (check (wrappable max_buf 0 (page_up n)) "Staging MTLBuffer creation failed") (fun _ s =>
           Some (Ok (pool_ptr s), set_pool (pool_ptr s) (pool_capacity s) true s))
    else sret (Some p)) (s1 false) = Some (Ok (Some p), s1 w)) as [w Hw].
  { unfold sbind at 1, check at 1. cbn [sret]. destruct (Nat.leb_spec (page_up n) max_buf) as [Hm|]; [|by exists false].
    exists true. unfold sbind, check.
    assert (wrappable max_buf 0 (page_up n) = true) as ->; [|done].
    unfold wrappable. rewrite (proj2 (Z.eqb_eq (Z.of_nat (page_up n) mod PAGE) 0)) by (by apply Z.mod_divide).
    by rewrite (proj2 (Nat.leb_le _ _)). }
  exists p, (s1 w). split; [exact Hw|]. destruct (Hspec w). split_and!; [done|done|cbn; lia|done|lia].
Qed.

(** A blit into the pool, whichever path it takes. *)
Lemma blit_to_pool b o n s p x y :
  pool_ptr s = Some p -> b <> p -> n <= pool_capacity s -> (Z.of_nat n + PAGE - 1 < 2 ^ 64)%Z ->
  blocks s !! b = Some x -> blocks s !! p = Some y -> length y = pool_capacity s -> o + n <= length x ->
  chunked_blit_to_staging max_buf b o (Some p) n s =
    Some (Ok tt, set_blocks (<[p := list_inserts 0 (slice o n x) y]> (blocks s)) s).
Proof.
  intros Hp Hne Hn Hs Hb Hy Hl Ho. unfold chunked_blit_to_staging. rewrite Hp. destruct (_ && _).
  - apply copy_ok; [done|done|done|lia].
  - rewrite (chunked_is_copy max_buf Hmax Hpages _ _ b o p 0 n 0 s x y); try done; try lia.
    all: rewrite ?Nat.add_0_r, ?Nat.sub_0_r; auto using Z.divide_0_r.
Qed.

(** A blit from the pool. *)
Lemma blit_from_pool b o n s p x y :
  pool_ptr s = Some p -> b <> p -> n <= pool_capacity s -> (Z.of_nat n + PAGE - 1 < 2 ^ 64)%Z ->
  blocks s !! b = Some x -> blocks s !! p = Some y -> length y = pool_capacity s -> o + n <= length x ->
  chunked_blit_from_staging max_buf (p, 0) n b o s =
    Some (Ok tt, set_blocks (<[b := list_inserts o (slice 0 n y) x]> (blocks s)) s).
Proof.
  intros Hp Hne Hn Hs Hb Hy Hl Ho. unfold chunked_blit_from_staging. destruct (_ && _).
  - cbn [fst]. apply copy_ok; [done|done|lia|done].
  - cbn [fst snd]. rewrite (chunked_is_copy max_buf Hmax Hpages _ _ p 0 b o n 0 s y x); try done; try lia.
    all: rewrite ?Nat.add_0_r, ?Nat.sub_0_r; auto using Z.divide_0_r.
Qed.

Lemma frame_refl s : frame s s.
Proof. done. Qed.

Lemma frame_pool s p y : pool_ptr s = Some p -> frame s (set_blocks (<[p := y]> (blocks s)) s).
Proof.
  intros Hp b Ha Hb. split; [done|]. cbn. apply lookup_insert_ne. unfold apart in Ha. congruence.
Qed.

Lemma pool_ok_write s p y y' :
  pool_ptr s = Some p -> blocks s !! p = Some y -> length y' = length y -> pool_ok s ->
  pool_ok (set_blocks (<[p := y']> (blocks s)) s).
Proof.
  intros Hp Hy Hl Hok. unfold pool_ok in *. cbn. rewrite Hp in *. destruct Hok as (y0 & Hy0 & Hl0). simplify_eq.
  exists y'. split; [apply lookup_insert_eq|congruence].
Qed.

Lemma pool_block s p : pool_ok s -> pool_ptr s = Some p -> exists y, blocks s !! p = Some y /\ length y = pool_capacity s.
Proof. unfold pool_ok. intros H Hp. by rewrite Hp in H. Qed.

(** Sizes for which rounding up to pages does not wrap around. *)
Definition sized (n : nat) : Prop := 0 < n /\ (Z.of_nat n + PAGE - 1 < 2 ^ 64)%Z.

(** The bytes of a tensor in memory. *)
Definition holds (t : buffer_view) (x : list Z) s : Prop :=
  apart (bv_buffer t) s /\ blocks s !! bv_buffer t = Some x /\ bv_offset t + bv_nbytes t <= length x.

Definition bytes_of (t : buffer_view) (x : list Z) : list Z := slice (bv_offset t) (bv_nbytes t) x.

Lemma stage_private t x s :
  pool_ok s -> bv_shared t = false -> sized (bv_nbytes t) -> holds t x s ->
  exists p y s', stage_for_send_nosync max_buf alloc_ok junk t s = Some (Ok (mkStaged (Some (p, 0)) (bv_nbytes t)), s') /\
    pool_ok s' /\ pool_ptr s' = Some p /\ bv_nbytes t <= pool_capacity s' /\ frame s s' /\
    blocks s' !! p = Some y /\ slice 0 (bv_nbytes t) y = bytes_of t x /\
    (bv_nbytes t <= pool_capacity s -> pool_ptr s = Some p /\ pool_capacity s' = pool_capacity s).
Proof.
  intros Hok Hsh [Hn Hs] (Ha & Hb & Ho).
  destruct (ensure_spec (bv_nbytes t) s Hok Hn Hs) as (p & s1 & He & Hok1 & Hp & Hc & Hf & Hsame).
  destruct (pool_block s1 p Hok1 Hp) as (y & Hy & Hl).
  destruct (Hf (bv_buffer t) Ha) as [Ha1 Hb1]; [by rewrite Hb|].
  assert (bv_buffer t <> p) as Hne by (unfold apart in Ha1; congruence). rewrite Hb in Hb1.
  exists p, (list_inserts 0 (bytes_of t x) y). eexists.
  unfold stage_for_send_nosync. rewrite Hsh. unfold sbind at 1. rewrite He. unfold sbind.
  rewrite (blit_to_pool (bv_buffer t) (bv_offset t) (bv_nbytes t) s1 p x y) by done.
  assert (length (bytes_of t x) = bv_nbytes t) as Hlb by (by apply length_slice).
  split; [done|]. split_and!.
  - eapply pool_ok_write; [done|done|apply length_inserts|done].
  - done.
  - done.
  - eapply frame_trans; [exact Hf|by apply frame_pool].
  - apply lookup_insert_eq.
  - rewrite <- Hlb at 1. apply slice_inserts_same. lia.
  - intros Hle. by rewrite <- (Hsame Hle).
Qed.

Lemma inserts_slice_id n (z : list Z) : n <= length z -> list_inserts 0 (slice 0 n z) z = z.
Proof.
  intros Hn. unfold slice. rewrite drop_0. apply list_eq. intros i. destruct (decide (i < n)).
  - rewrite list_lookup_inserts; rewrite ?length_take; try lia. rewrite Nat.sub_0_r. apply lookup_take_lt. lia.
  - apply list_lookup_inserts_ge. rewrite length_take. lia.
Qed.

Lemma unstage_private u q so x z s :
  pool_ok s -> bv_shared u = false -> sized (bv_nbytes u) -> holds u x s ->
  blocks s !! q = Some z -> so + bv_nbytes u <= length z ->
  exists p y s',
    unstage_from_recv max_buf alloc_ok junk u (q, so) (bv_nbytes u) s =
      Some (Ok tt, set_blocks (<[bv_buffer u := list_inserts (bv_offset u) (slice so (bv_nbytes u) z) x]> (blocks s')) s') /\
    pool_ok s' /\ pool_ptr s' = Some p /\ frame s s' /\ blocks s' !! p = Some y /\
    (pool_ptr s = Some q -> p = q /\ y = list_inserts 0 (slice so (bv_nbytes u) z) z).
Proof.
  intros Hok Hsh [Hn Hs] (Ha & Hb & Ho) Hq Hz. set (n := bv_nbytes u) in *.
  unfold unstage_from_recv, sbind at 1, check. rewrite Nat.eqb_refl, Hsh. cbn [sret].
  case_bool_decide as Hd.
  - destruct (pool_ptr s) as [p|] eqn:Hp; [|done]. injection Hd as <- ->.
    destruct (pool_block s q Hok Hp) as (y & Hy & Hl). simplify_eq.
    exists q, z, s. assert (bv_buffer u <> q) by (unfold apart in Ha; congruence).
    rewrite (blit_from_pool _ _ _ s q x z) by (done || lia). split; [done|]. split_and!; try done.
    intros _. split; [done|]. by rewrite inserts_slice_id by lia.
  - destruct (ensure_spec n s Hok Hn Hs) as (p & s1 & He & Hok1 & Hp & Hc & Hf & Hsame).
    destruct (pool_block s1 p Hok1 Hp) as (y & Hy & Hl).
    destruct (Hf (bv_buffer u) Ha) as [Ha1 Hb1]; [by rewrite Hb|]. rewrite Hb in Hb1.
    assert (bv_buffer u <> p) as Hne by (unfold apart in Ha1; congruence).
    assert (blocks s1 !! q = Some z /\ (pool_ptr s = Some q -> s1 = s /\ p = q /\ y = z)) as [Hq1 Hpq].
    { destruct (decide (pool_ptr s = Some q)) as [Hpq|Hpq].
      - destruct (pool_block s q Hok Hpq) as (z0 & Hz0 & Hlz). simplify_eq. rewrite (Hsame ltac:(lia)) in *.
        split; [done|]. intros _. by simplify_eq.
      - destruct (Hf q Hpq) as [_ E]; [by rewrite Hq|]. split; [congruence|done]. }
    unfold sbind at 1. rewrite He. unfold sbind. cbn [fst snd].
    rewrite (copy_ok q so p 0 n s1 z y) by (done || lia).
    set (s2 := set_blocks _ s1).
    assert (length (slice so n z) = n) as Hls by (by apply length_slice).
    rewrite (blit_from_pool (bv_buffer u) (bv_offset u) n s2 p x (list_inserts 0 (slice so n z) y)).
    + exists p, (list_inserts 0 (slice so n z) y), s2.
      assert (slice 0 n (list_inserts 0 (slice so n z) y) = slice so n z) as ->.
      { rewrite <- Hls at 1. apply slice_inserts_same. lia. }
      split; [done|]. split_and!.
      * eapply pool_ok_write; [done|done|apply length_inserts|done].
      * done.
      * eapply frame_trans; [exact Hf|by apply frame_pool].
      * apply lookup_insert_eq.
      * intros H. destruct (Hpq H) as (_ & -> & ->). done.
    + done.
    + done.
    + done.
    + done.
    + cbn. by rewrite lookup_insert_ne.
    + apply lookup_insert_eq.
    + by rewrite length_inserts.
    + done.
Qed.

Lemma frame_holds s s' t x : frame s s' -> holds t x s -> holds t x s'.
Proof.
  intros Hf (Ha & Hb & Ho). destruct (Hf _ Ha) as [Ha' Hb']; [by rewrite Hb|]. split_and!; [done|congruence|done].
Qed.

(** Staging a tensor in either storage. *)
Lemma stage_any t x s :
  pool_ok s -> sized (bv_nbytes t) -> holds t x s ->
  exists q so z s', stage_for_send_nosync max_buf alloc_ok junk t s =
      Some (Ok (mkStaged (Some (q, so)) (bv_nbytes t)), s') /\
    pool_ok s' /\ frame s s' /\ blocks s' !! q = Some z /\ so + bv_nbytes t <= length z /\
    slice so (bv_nbytes t) z = bytes_of t x.
Proof.
  intros Hok Hs Ht. destruct (bv_shared t) eqn:Hsh.
  - exists (bv_buffer t), (bv_offset t), x, s. unfold stage_for_send_nosync. rewrite Hsh.
    destruct Ht as (? & ? & ?). by split_and!.
  - destruct (stage_private t x s Hok Hsh Hs Ht) as (p & y & s' & H1 & H2 & H3 & H4 & H5 & H6 & H7 & _).
    exists p, 0, y, s'. destruct (pool_block s' p H2 H3) as (y0 & Hy0 & Hl). simplify_eq. by split_and!; try lia.
Qed.

(** Unstaging into a tensor in either storage. *)
Lemma unstage_any u y q so z s :
  pool_ok s -> sized (bv_nbytes u) -> holds u y s -> blocks s !! q = Some z -> so + bv_nbytes u <= length z ->
  exists s', unstage_from_recv max_buf alloc_ok junk u (q, so) (bv_nbytes u) s = Some (Ok tt, s') /\ pool_ok s' /\
    holds u (list_inserts (bv_offset u) (slice so (bv_nbytes u) z) y) s' /\
    forall b, b <> bv_buffer u -> apart b s -> is_Some (blocks s !! b) -> apart b s' /\ blocks s' !! b = blocks s !! b.
Proof.
  intros Hok Hs Hu Hq Hz. pose proof Hu as (Ha & Hb & Ho). destruct (bv_shared u) eqn:Hsh.
  - eexists. split_and!.
    + unfold unstage_from_recv, sbind, check. rewrite Nat.eqb_refl, Hsh. cbn [sret fst snd]. by apply (copy_ok _ _ _ _ _ _ z y).
    + unfold pool_ok in *. cbn. destruct (pool_ptr s) as [p|] eqn:Hp; [|done]. destruct Hok as (w & Hw & Hl).
      exists w. rewrite lookup_insert_ne by (unfold apart in Ha; congruence). done.
    + split_and!; [done|apply lookup_insert_eq|by rewrite length_inserts].
    + intros b Hne Hab Hsome. split; [done|]. by apply lookup_insert_ne.
  - destruct (unstage_private u q so y z s Hok Hsh Hs Hu Hq Hz) as (p & w & s' & E & Hok' & Hp & Hf & Hw & _).
    destruct (Hf _ Ha) as [Ha' _]; [by rewrite Hb|]. eexists. split; [exact E|]. split_and!.
    + unfold pool_ok in *. cbn. rewrite Hp in *. destruct Hok' as (w0 & Hw0 & Hl). exists w0.
      rewrite lookup_insert_ne by (unfold apart in Ha'; congruence). done.
    + split_and!; [done|apply lookup_insert_eq|by rewrite length_inserts].
    + intros b Hne Hab Hsome. destruct (Hf b Hab Hsome) as [H1 H2]. split; [done|]. cbn.
      by rewrite lookup_insert_ne.
Qed.
End Pool.

(** ** Properties *)

(** A Metal device as the code expects it: buffers of whole pages, of at most
    [maxBufferLength] bytes, and an allocator that does not fail. *)
Record metal_ok (max_buf : nat) (alloc_ok : nat -> bool) (junk : nat -> list Z) : Prop := {
  mo_max : 0 < max_buf;
  mo_pages : (PAGE | Z.of_nat max_buf)%Z;
  mo_alloc : forall n, alloc_ok n = true;
  mo_junk : forall n, length (junk n) = n
}.

(** C16: What is staged can be unstaged.  For tensors [t] and [u] of one size in
    different buffers, each in shared or private storage, and whatever the pool
    holds: staging [t] and unstaging the result into [u] both return, also
    when the bytes exceed [maxBufferLength] and go in pieces; afterwards [u] has
    the bytes of [t], every byte of its buffer outside of [u] and every other
    buffer is as before, and the pool can be used again. *)
Theorem stage_unstage_roundtrip max_buf alloc_ok junk t u x y s :
  metal_ok max_buf alloc_ok junk -> pool_ok s ->
  sized (bv_nbytes t) -> bv_nbytes u = bv_nbytes t -> bv_buffer t <> bv_buffer u -> holds t x s -> holds u y s ->
  exists src s1 s2,
    stage_for_send_nosync max_buf alloc_ok junk t s = Some (Ok (mkStaged (Some src) (bv_nbytes t)), s1) /\
    unstage_from_recv max_buf alloc_ok junk u src (bv_nbytes t) s1 = Some (Ok tt, s2) /\ pool_ok s2 /\
    (let y' := list_inserts (bv_offset u) (bytes_of t x) y in holds u y' s2 /\ bytes_of u y' = bytes_of t x) /\
    forall b, b <> bv_buffer u -> apart b s -> is_Some (blocks s !! b) -> blocks s2 !! b = blocks s !! b.
Proof.
  intros [H1 H2 H3 H4] Hok Hs Hsz Hne Ht Hu.
  destruct (stage_any max_buf H1 H2 alloc_ok H3 junk H4 t x s Hok Hs Ht)
    as (q & so & z & s1 & E1 & Hok1 & Hf & Hq & Hl & Hbytes).
  destruct (unstage_any max_buf H1 H2 alloc_ok H3 junk H4 u y q so z s1) as (s2 & E2 & Hok2 & Hu2 & Hrest);
    [done|by rewrite Hsz|by eapply frame_holds|done|by rewrite Hsz|].
  rewrite Hsz, Hbytes in Hu2. rewrite Hsz in E2. exists (q, so), s1, s2. split_and!; try done.
  - cbv zeta. split; [done|]. destruct Hu as (_ & _ & Ho).
    assert (length (bytes_of t x) = bv_nbytes t) as Hlb by (apply length_slice, Ht).
    change (bytes_of u ?l) with (slice (bv_offset u) (bv_nbytes u) l). rewrite Hsz, <- Hlb.
    apply slice_inserts_same. lia.
  - intros b Hb Hab Hsome. destruct (Hf b Hab Hsome) as [Hab1 E]. rewrite <- E.
    apply Hrest; [done|done|by rewrite E].
Qed.

(** A private tensor of three bytes is copied into a shared one. *)
Definition demo_private : buffer_view := mkBufView 0 1 3 false.
Definition demo_shared : buffer_view := mkBufView 1 0 3 true.
Definition demo_state : st := mkSt {[ 0 := [9; 1; 2; 3; 9]%Z; 1 := [0; 0; 0; 7]%Z ]} None 0 false.

Lemma demo_metal_ok : metal_ok (Z.to_nat PAGE) (fun _ => true) (fun n => replicate n 0%Z).
Proof.
  split; [|rewrite Z2Nat.id by done; reflexivity|done|intros; apply length_replicate]. by apply (Z2Nat.inj_lt 0 PAGE).
Qed.

Lemma stage_unstage_roundtrip_witness :
  exists src s1 s2,
    stage_for_send_nosync (Z.to_nat PAGE) (fun _ => true) (fun n => replicate n 0%Z) demo_private demo_state =
      Some (Ok (mkStaged (Some src) 3), s1) /\
    unstage_from_recv (Z.to_nat PAGE) (fun _ => true) (fun n => replicate n 0%Z) demo_shared src 3 s1 = Some (Ok tt, s2) /\
    blocks s2 !! 1 = Some [1; 2; 3; 7]%Z.
Proof.
  destruct (stage_unstage_roundtrip (Z.to_nat PAGE) (fun _ => true) (fun n => replicate n 0%Z) demo_private demo_shared
    [9; 1; 2; 3; 9]%Z [0; 0; 0; 7]%Z demo_state) as (src & s1 & s2 & H1 & H2 & _ & [(_ & H3 & _) _] & _).
  - exact demo_metal_ok.
  - done.
  - split; [cbn; lia|by vm_compute].
  - done.
  - done.
  - split_and!; [done|done|cbn; lia].
  - split_and!; [done|done|cbn; lia].
  - exists src, s1, s2. split_and!; [exact H1|exact H2|exact H3].
Defined.

(** Two staged tensors share the pool.  The second of two private tensors staged
    one after the other, when it is not longer than the pool, is staged at the
    very pointer of the first, and the bytes behind the pointer of the first
    are now those of the second: [alltoall] and [reduce_scatter] stage all
    their inputs before they send the first. *)
Theorem staged_tensors_alias max_buf alloc_ok junk t u x y s :
  metal_ok max_buf alloc_ok junk -> pool_ok s -> bv_shared t = false -> bv_shared u = false ->
  sized (bv_nbytes t) -> 0 < bv_nbytes u <= bv_nbytes t -> holds t x s -> holds u y s ->
  exists src s1 s2,
    stage_for_send_nosync max_buf alloc_ok junk t s = Some (Ok (mkStaged (Some (src, 0)) (bv_nbytes t)), s1) /\
    stage_for_send_nosync max_buf alloc_ok junk u s1 = Some (Ok (mkStaged (Some (src, 0)) (bv_nbytes u)), s2) /\
    read_block src 0 (bv_nbytes u) s1 = Some (take (bv_nbytes u) (bytes_of t x)) /\
    read_block src 0 (bv_nbytes u) s2 = Some (bytes_of u y).
Proof.
  intros [H1 H2 H3 H4] Hok Ht Hu Hs [Hu0 Hle] Hx Hy.
  destruct (stage_private max_buf H1 H2 alloc_ok H3 junk H4 t x s Hok Ht Hs Hx)
    as (p & z & s1 & E1 & Hok1 & Hp1 & Hc1 & Hf1 & Hz1 & Hb1 & _).
  assert (sized (bv_nbytes u)) as Hsu by (destruct Hs; split; lia).
  destruct (stage_private max_buf H1 H2 alloc_ok H3 junk H4 u y s1 Hok1 Hu Hsu (frame_holds s s1 u y Hf1 Hy))
    as (p2 & z2 & s2 & E2 & Hok2 & Hp2 & Hc2 & Hf2 & Hz2 & Hb2 & Hsame).
  destruct (Hsame ltac:(lia)) as [Hpp _]. assert (p2 = p) as -> by congruence.
  destruct (pool_block s1 p Hok1 Hp1) as (z0 & Hz0 & Hl1). destruct (pool_block s2 p Hok2 Hp2) as (z3 & Hz3 & Hl2).
  simplify_eq. exists p, s1, s2. split_and!; [done|done| |].
  - rewrite (read_block_ok _ _ _ _ z) by (done || lia). f_equal. rewrite <- Hb1. unfold slice. rewrite !drop_0.
    rewrite take_take. f_equal. lia.
  - rewrite (read_block_ok _ _ _ _ z2) by (done || lia). by rewrite Hb2.
Qed.

(** The own share overwrites the share of rank 0.  [_reduce_scatter_base] on
    private tensors stages the input and then unstages its own share, at
    [rank * chunk] of the pool, into the output; on every rank but 0 that share is
    copied to the start of the pool on the way.  The output is right, the
    shares of the ranks from 1 on are still in place, but what is sent to rank 0
    as its share is a second copy of the own share. *)
Theorem own_share_overwrites_first max_buf alloc_ok junk t u x y s rank world chunk :
  metal_ok max_buf alloc_ok junk -> pool_ok s -> bv_shared t = false -> bv_shared u = false ->
  bv_buffer t <> bv_buffer u -> 0 < rank < world -> 0 < chunk ->
  bv_nbytes t = world * chunk -> bv_nbytes u = chunk -> sized (bv_nbytes t) -> holds t x s -> holds u y s ->
  exists p s1 s2,
    stage_for_send_nosync max_buf alloc_ok junk t s = Some (Ok (mkStaged (Some (p, 0)) (bv_nbytes t)), s1) /\
    unstage_from_recv max_buf alloc_ok junk u (p, rank * chunk) chunk s1 = Some (Ok tt, s2) /\
    holds u (list_inserts (bv_offset u) (slice (rank * chunk) chunk (bytes_of t x)) y) s2 /\
    read_block p 0 chunk s2 = Some (slice (rank * chunk) chunk (bytes_of t x)) /\
    forall k, 0 < k < world -> read_block p (k * chunk) chunk s2 = Some (slice (k * chunk) chunk (bytes_of t x)).
Proof.
  intros [H1 H2 H3 H4] Hok Ht Hu Hne Hr Hchunk Htn Hun Hs Hx Hy.
  destruct (stage_private max_buf H1 H2 alloc_ok H3 junk H4 t x s Hok Ht Hs Hx)
    as (p & z & s1 & E1 & Hok1 & Hp1 & Hc1 & Hf1 & Hz1 & Hb1 & _).
  destruct (pool_block s1 p Hok1 Hp1) as (z0 & Hz0 & Hl1). assert (z0 = z) as -> by congruence. clear Hz0.
  assert (forall k, k < world -> k * chunk + chunk <= world * chunk) as Hk by nia.
  assert (sized (bv_nbytes u)) as Hsu by (destruct Hs; split; nia).
  destruct (unstage_private max_buf H1 H2 alloc_ok H3 junk H4 u p (rank * chunk) y z s1 Hok1 Hu Hsu
    (frame_holds s s1 u y Hf1 Hy) Hz1) as (p2 & z2 & s2 & E2 & Hok2 & Hp2 & Hf2 & Hz2 & Hpool).
  { rewrite Hun. pose proof (Hk rank). lia. }
  destruct (Hpool Hp1) as [-> ->]. rewrite Hun in E2, Hz2.
  assert (forall k, k < world -> slice (k * chunk) chunk z = slice (k * chunk) chunk (bytes_of t x)) as Hshare.
  { intros k Hkw. rewrite <- Hb1. rewrite slice_slice by (rewrite Htn; by apply Hk). done. }
  destruct (frame_holds s s1 u y Hf1 Hy) as (Hau & Hbu & Hou).
  destruct (Hf2 _ Hau) as [Hau2 _]; [by rewrite Hbu|].
  assert (length (slice (rank * chunk) chunk z) = chunk) as Hls.
  { apply length_slice. pose proof (Hk rank). lia. }
  exists p, s1. eexists. split_and!; [exact E1|exact E2| | |].
  - rewrite <- Hshare by lia. split_and!; [done|apply lookup_insert_eq|by rewrite length_inserts].
  - erewrite read_block_ok; [|cbn; rewrite lookup_insert_ne by (unfold apart in Hau2; congruence); exact Hz2|].
    + f_equal. rewrite <- Hshare by lia. rewrite <- Hls at 1. apply slice_inserts_same.
      rewrite Hls. pose proof (Hk rank). lia.
    + rewrite length_inserts. pose proof (Hk rank). lia.
  - intros k Hkr. pose proof (Hk k). erewrite read_block_ok;
      [|cbn; rewrite lookup_insert_ne by (unfold apart in Hau2; congruence); exact Hz2|].
    + f_equal. rewrite slice_inserts_disjoint; [apply Hshare; lia|right; rewrite Hls; nia|lia].
    + rewrite length_inserts. lia.
Qed.

(** A failed allocation leaves a pool that hands out null.  The capacity is set
    before the allocation, so that after [ensure] has thrown, staging any
    private tensor that is not longer takes the null pointer for the pool and
    the blit writes through it. *)
Theorem failed_ensure_hands_out_null max_buf alloc_ok junk n s t :
  pool_capacity s < n -> sized n -> alloc_ok (page_up n) = false ->
  bv_shared t = false -> bv_nbytes t <= n ->
  exists s', ensure max_buf alloc_ok junk n s = Some (Throw (MCCLError "Staging buffer allocation failed"), s') /\
    ensure max_buf alloc_ok junk (bv_nbytes t) s' = Some (Ok None, s') /\
    stage_for_send_nosync max_buf alloc_ok junk t s' = None.
Proof.
  intros Hlt [_ Hs] Ha Ht Hle. destruct (page_up_spec n Hs) as (Hp & _ & _).
  eexists. split.
  { unfold ensure. rewrite (proj2 (Nat.ltb_lt _ _)) by done. cbv zeta. unfold posix_memalign.
    cbn [set_pool pool_capacity pool_ptr blocks]. rewrite Ha. reflexivity. }
  assert (forall s', pool_capacity s' = page_up n -> pool_ptr s' = None ->
    ensure max_buf alloc_ok junk (bv_nbytes t) s' = Some (Ok None, s')) as He.
  { intros s' Hc Hn. unfold ensure. by rewrite (proj2 (Nat.ltb_ge _ _)), Hn by lia. }
  split; [by apply He|]. unfold stage_for_send_nosync, sbind at 1. rewrite Ht, He by done. done.
Qed.

(** [ensure_shared_storage] returns uninitialised memory.  Once the pool has
    been used, the blit into the new block of a private tensor goes to the pool
    instead: the tensor that is returned holds what the allocation contained,
    and the pool, where another tensor may be staged, is overwritten. *)
Theorem ensure_shared_uninitialised max_buf alloc_ok junk t x s p y :
  metal_ok max_buf alloc_ok junk -> pool_ptr s = Some p -> blocks s !! p = Some y -> length y = pool_capacity s ->
  pool_wrapped s = true -> bv_nbytes t <= pool_capacity s -> bv_shared t = false -> holds t x s ->
  exists b s', ensure_shared_storage max_buf alloc_ok junk t s = Some (Ok (b, 0), s') /\
    blocks s !! b = None /\ blocks s' !! b = Some (junk (page_up (bv_nbytes t))) /\
    read_block p 0 (bv_nbytes t) s' = Some (bytes_of t x).
Proof.
  intros [H1 H2 H3 H4] Hp Hy Hl Hw Hn Ht (Ha & Hb & Ho). unfold ensure_shared_storage, posix_memalign. rewrite Ht, H3.
  set (b := fresh (dom (blocks s))). assert (blocks s !! b = None) as Hfresh.
  { apply not_elem_of_dom. apply is_fresh. }
  assert (b <> p) by congruence. assert (bv_buffer t <> b) by congruence. assert (bv_buffer t <> p) by (unfold apart in Ha; congruence).
  set (s1 := set_blocks (<[b := junk (page_up (bv_nbytes t))]> (blocks s)) s).
  exists b. eexists. split_and!.
  - unfold sbind, chunked_blit_to_staging. change (pool_ptr s1) with (pool_ptr s). change (pool_wrapped s1) with (pool_wrapped s).
    change (pool_capacity s1) with (pool_capacity s). rewrite Hp, Hw, (proj2 (Nat.leb_le _ _)) by done. cbn [andb].
    rewrite (copy_ok (bv_buffer t) (bv_offset t) p 0 (bv_nbytes t) s1 x y); [done|..].
    + unfold s1. cbn. by rewrite lookup_insert_ne.
    + unfold s1. cbn. by rewrite lookup_insert_ne.
    + done.
    + lia.
  - done.
  - cbn. rewrite lookup_insert_ne by done. apply lookup_insert_eq.
  - erewrite read_block_ok; [|apply lookup_insert_eq|rewrite length_inserts; lia]. f_equal.
    assert (length (bytes_of t x) = bv_nbytes t) as Hlb by (by apply length_slice).
    unfold bytes_of in Hlb |- *. rewrite <- Hlb at 1. apply slice_inserts_same. lia.
Qed.
