(* ===== verification/Dispatch.v ===== *)
(** * The operators of c10d on MPS tensors ([csrc/backend/MPSFallback.cpp])

    PyTorch selects the kernel of an operator by the highest-priority dispatch
    key of its arguments.  The library registers, for eleven operators of c10d
    under the key MPS, a boxed function that dispatches the operator again with
    CPU as the only key, where c10d has a shim that calls the process group.

    The dispatcher belongs to PyTorch: which key of a set comes first and which
    kernels are registered elsewhere are parameters. *)
From stdpp Require Import gmap strings.
From S2P Require Import Prelude.
#[local] Open Scope string_scope.

(** The keys that are named, and the others. *)
Inductive DispatchKey := KeyCPU | KeyMPS | KeyOther (n : nat).
#[export] Instance DispatchKey_eq_dec : EqDecision DispatchKey.
Proof. solve_decision. Defined.
#[export] Instance DispatchKey_countable : Countable DispatchKey.
Proof.
  refine (inj_countable (fun k => match k with KeyCPU => inl true | KeyMPS => inl false | KeyOther n => inr n end)
    (fun x => Some (match x with inl true => KeyCPU | inl false => KeyMPS | inr n => KeyOther n end)) _).
  by intros [].
Defined.
Abbreviation keys := (gset DispatchKey).

(** A kernel: one that ends the dispatch, or one that dispatches again with a
    set of keys computed from its own. *)
Inductive kernel := Ends (name : string) | Again (f : keys -> keys).

(** [mps_native_redispatch_boxed]: the keys it is given are not used. *)
Definition mps_native_redispatch_boxed : kernel := Again (fun _ => {[KeyCPU]}).

(** [TORCH_LIBRARY_IMPL(c10d, MPS, m)]. *)
Definition mps_operators : list string :=
  ["allreduce_"; "broadcast_"; "_allgather_base_"; "allgather_"; "_reduce_scatter_base_"; "reduce_scatter_";
   "alltoall_base_"; "alltoall_"; "send"; "recv_"; "barrier"].

Section Dispatch.
(** The key of a set that decides, and the kernels of everyone else. *)
Context (highest : keys -> option DispatchKey) (others : string -> DispatchKey -> option kernel).

(** The table after the library is loaded with [f] as its boxed function. *)
Definition table (f : kernel) (op : string) (k : DispatchKey) : option kernel :=
  if decide (k = KeyMPS /\ op ∈ mps_operators) then Some f else others op k.

(** A call of an operator: the kernel that ends it and the number of times it
    was dispatched again; no result while it goes on. *)
Fixpoint dispatch (fuel : nat) (f : kernel) (op : string) (ks : keys) : option (string * nat) :=
  match fuel with
  | 0 => None
  | S fuel =>
    k ← highest ks; x ← table f op k;
    match x with
    | Ends name => Some (name, 0)
    | Again g => r ← dispatch fuel f op (g ks); Some (r.1, S r.2)
    end
  end.

(** CPU alone decides for CPU, and c10d has its shims there. *)
Class DispatchLaws : Prop := {
  highest_cpu : highest {[KeyCPU]} = Some KeyCPU;
  shim op : op ∈ mps_operators -> others op KeyCPU = Some (Ends op)
}.
End Dispatch.

(** An operator of the table on MPS tensors reaches the shim of c10d after one
    redispatch, whatever other keys its arguments carry.  Had the function
    passed the keys on that it was given, no number of redispatches would have
    been enough. *)
Theorem mps_dispatch_reaches_shim highest others `{!DispatchLaws highest others} op ks fuel :
  op ∈ mps_operators -> highest ks = Some KeyMPS ->
  dispatch highest others (2 + fuel) mps_native_redispatch_boxed op ks = Some (op, 1) /\
  dispatch highest others fuel (Again id) op ks = None.
Proof.
  intros Hop Hks. split.
  - cbn. rewrite Hks. cbn. unfold table. rewrite decide_True by done. cbn.
    rewrite (highest_cpu highest others). cbn. rewrite decide_False by (by intros [? _]).
    by rewrite (shim highest others).
  - induction fuel as [|fuel IH]; [done|]. cbn. rewrite Hks. cbn. unfold table. rewrite decide_True by done. cbn.
    by rewrite IH.
Qed.

(** A dispatcher: MPS before CPU, and the shims. *)
Definition demo_highest (ks : keys) : option DispatchKey :=
  if decide (KeyMPS ∈ ks) then Some KeyMPS else if decide (KeyCPU ∈ ks) then Some KeyCPU else None.
#[local] Instance demo_laws : DispatchLaws demo_highest (fun op _ => Some (Ends op)).
Proof. by split. Qed.

Lemma mps_dispatch_reaches_shim_witness :
  dispatch demo_highest (fun op _ => Some (Ends op)) 2 mps_native_redispatch_boxed "allreduce_" {[KeyMPS; KeyCPU]} =
    Some ("allreduce_", 1).
Proof.
  apply (mps_dispatch_reaches_shim demo_highest (fun op _ => Some (Ends op)) "allreduce_" {[KeyMPS; KeyCPU]} 0);
    [by left|reflexivity].
Defined.
