(* ===== verification/KernelInit.v ===== *)
(** * Loading the kernels ([metal_kernels_init] of [csrc/metal/MetalKernels.mm])

    Where the shader library comes from (a precompiled one, in an order of three
    places, or one compiled from a source file, in an order of five), the
    options of the compiler, and the pipelines that are made from it.  Files,
    libraries and the compiler are parameters.  A call that throws leaves the
    cache as far as it came. *)
From stdpp Require Import gmap strings.
From S2P Require Import Prelude CString Common Kernels.
#[local] Open Scope nat_scope.

(** ** Names *)

Definition lane_suffix (l : lane) : string := match l with F32 => "f32" | F16 => "f16" | BF16 => "bf16" end.
Definition op_name (op : kop) : string :=
  match op with
  | KAdd => "accumulate_chunk_" | KScale => "scale_inplace_" | KAddScale => "accumulate_scale_"
  | KMin => "elementwise_min_" | KMax => "elementwise_max_" | KMul => "elementwise_product_"
  end.
Definition function_name (p : pipeline) : string := op_name (p_op p) +:+ lane_suffix (p_lane p).

#[export] Instance lane_eq_dec : EqDecision lane.
Proof. solve_decision. Defined.
#[export] Instance kop_eq_dec : EqDecision kop.
Proof. solve_decision. Defined.

(** The eighteen entries in the order in which they are made. *)
Definition all_pipelines : list pipeline :=
  op ← [KAdd; KScale; KAddScale; KMin; KMax; KMul]; l ← [F32; F16; BF16]; [mkPipeline op l].

(** [make_pipeline] or [make_pipeline_if_present]. *)
Definition required (p : pipeline) : bool := match p_lane p with BF16 => false | _ => true end.

(** ** The compiler's options *)

(** [env] is [DISTRO_FAST_MATH]. *)
Definition metal_fast_math_enabled (env : option str) : bool :=
  match env with
  | None => true
  | Some s => negb (bool_decide (s = lit "0") || bool_decide (s = lit "false") || bool_decide (s = lit "FALSE"))
  end.

Inductive LanguageVersion := V3_1 | V3_0 | V2_4.
Definition language_version (macos : nat) : LanguageVersion :=
  if 15 <=? macos then V3_1 else if 14 <=? macos then V3_0 else V2_4.

Definition has_suffix (x s : str) : bool := bool_decide (drop (length s - length x) s = x).

Section Init.
Context {Lib : Type}.

(** What a call meets: the variables of the environment, the directory of the
    shared library, the path in the main bundle, the version of the system,
    files, the two ways to make a library, and which functions of a library
    exist and give a pipeline. *)
Record surroundings := mkSur {
  shader_path : option str;                  (* DISTRO_SHADER_PATH *)
  fast_math : option str;                    (* DISTRO_FAST_MATH *)
  so_dir : option str;
  bundle_path : option str;
  macos : nat;
  file_exists : str -> bool;
  load_library : str -> option Lib;          (* newLibraryWithURL *)
  read_file : str -> option str;
  compile : str -> bool -> LanguageVersion -> option Lib;
  has_function : Lib -> string -> bool;
  makes_pipeline : Lib -> string -> bool
}.

(** ** The search *)

Definition path_in (dir : str) (name : string) : str := dir ++ lit "/" ++ lit name.

Definition metallib_search (e : surroundings) : list str :=
  (match shader_path e with Some p => if has_suffix (lit ".metallib") p then [p] else [] | None => [] end) ++
  (match so_dir e with Some d => [path_in d "mccl_shaders.metallib"] | None => [] end) ++
  option_list (bundle_path e).

(** The loop over the paths: an existing file that does not load replaces the
    library by none, and the search goes on. *)
Fixpoint try_metallibs (e : surroundings) (paths : list str) (lib : option Lib) : option Lib :=
  match paths with
  | [] => lib
  | p :: paths =>
    if file_exists e p then
      match load_library e p with Some l => Some l | None => try_metallibs e paths None end
    else try_metallibs e paths lib
  end.

Definition source_search (e : surroundings) : list str :=
  (match shader_path e with Some p => if has_suffix (lit ".metal") p then [p] else [] | None => [] end) ++
  [lit "csrc/metal/shaders.metal"; lit "../csrc/metal/shaders.metal"; lit "../../csrc/metal/shaders.metal"] ++
  (match so_dir e with Some d => [path_in d "shaders.metal"] | None => [] end).

Definition find_source (e : surroundings) : option str :=
  match List.filter (file_exists e) (source_search e) with [] => None | p :: _ => Some p end.

(** ** The cache *)

Record KernelCache := mkCache {
  kc_library : option Lib;
  kc_pipelines : gmap string unit;           (* the entries that are not nil *)
  kc_initialized : bool
}.
Definition cache_new : KernelCache := mkCache None ∅ false.

Definition set_library (l : option Lib) (c : KernelCache) : KernelCache := mkCache l (kc_pipelines c) (kc_initialized c).
Definition set_entry (n : string) (x : option unit) (c : KernelCache) : KernelCache :=
  mkCache (kc_library c) (partial_alter (fun _ => x) n (kc_pipelines c)) (kc_initialized c).

Definition compile_library (e : surroundings) : M KernelCache unit :=
  match find_source e with
  | None => throw (MCCLError "Cannot find shaders.metal or mccl_shaders.metallib. Set DISTRO_SHADER_PATH env var.")
  | Some p =>
    match read_file e p with
    | None => throw (MCCLError "Failed to read shaders.metal: ")
    | Some src =>
      let lib := compile e src (metal_fast_math_enabled (fast_math e)) (language_version (macos e)) in
      _ ← modS (set_library lib);
      DISTRO_CHECK (match lib with Some _ => true | None => false end) "Metal shader compilation failed: "
    end
  end.

Definition make_entry (e : surroundings) (lib : Lib) (p : pipeline) : M KernelCache unit :=
  let n := function_name p in
  if has_function e lib n then
    _ ← DISTRO_CHECK (makes_pipeline e lib n) "Pipeline creation failed for "; modS (set_entry n (Some tt))
  else if required p then throw (MCCLError "Metal function not found: ")
  else modS (set_entry n None).

Definition metal_kernels_init (e : surroundings) : M KernelCache unit :=
  c ← getS;
  if kc_initialized c then mret tt else
  _ ← modS (fun c => set_library (try_metallibs e (metallib_search e) (kc_library c)) c);
  c ← getS;
  _ ← (match kc_library c with Some _ => mret tt | None => compile_library e end);
  c ← getS;
  match kc_library c with
  | None => mret tt
  | Some lib =>
    _ ← forM all_pipelines (make_entry e lib);
    modS (fun c => mkCache (kc_library c) (kc_pipelines c) true)
  end.
End Init.
Arguments surroundings : clear implicits.
Arguments KernelCache : clear implicits.

(** ** What a call does *)

Section Spec.
Context {Lib : Type}.
Implicit Types (e : surroundings Lib) (c : KernelCache Lib).

(** The library of a call that found [old] in the cache. *)
Definition compiled e : option Lib :=
  p ← find_source e; src ← read_file e p; compile e src (metal_fast_math_enabled (fast_math e)) (language_version (macos e)).
Definition chosen e (old : option Lib) : option Lib :=
  match try_metallibs e (metallib_search e) old with Some l => Some l | None => compiled e end.

(** A pipeline is made, or not needed. *)
Definition usable e (l : Lib) (p : pipeline) : bool :=
  if has_function e l (function_name p) then makes_pipeline e l (function_name p) else negb (required p).

Definition entry e (l : Lib) (p : pipeline) : option unit := if has_function e l (function_name p) then Some tt else None.

Lemma names_distinct : NoDup (function_name <$> all_pipelines).
Proof. apply (bool_decide_unpack _). vm_compute. exact I. Qed.

Lemma make_entry_ok e l p c :
  usable e l p = true -> make_entry e l p c = (Ok tt, set_entry (function_name p) (entry e l p) c).
Proof.
  unfold usable, make_entry, entry. intros Hu. destruct (has_function e l _).
  - unfold mbind, M_bind, DISTRO_CHECK. rewrite Hu. done.
  - by destruct (required p).
Qed.

Lemma make_entry_throws e l p c :
  usable e l p = false -> exists msg, make_entry e l p c = (Throw (MCCLError msg), c).
Proof.
  unfold usable, make_entry. intros Hu. destruct (has_function e l _).
  - unfold mbind, M_bind, DISTRO_CHECK. rewrite Hu. by eexists.
  - destruct (required p); [by eexists|done].
Qed.

(** The entries of a list of pipelines with different names. *)
Lemma make_entries e l ps c :
  NoDup (function_name <$> ps) ->
  exists r c', forM ps (make_entry e l) c = (r, c') /\ kc_library c' = kc_library c /\ kc_initialized c' = kc_initialized c /\
    (if forallb (usable e l) ps then r = Ok tt else exists msg, r = Throw (MCCLError msg)) /\
    (r = Ok tt -> (forall p, p ∈ ps -> kc_pipelines c' !! function_name p = entry e l p) /\
       forall n, n ∉ function_name <$> ps -> kc_pipelines c' !! n = kc_pipelines c !! n).
Proof.
  revert c. induction ps as [|p ps IH]; intros c Hnd.
  { exists (Ok tt), c. cbn. split_and!; try done. intros _. split; [|done]. intros p Hp. by apply not_elem_of_nil in Hp. }
  rewrite fmap_cons, NoDup_cons in Hnd. destruct Hnd as [Hni Hnd]. cbn [forM forallb]. unfold mbind, M_bind.
  destruct (usable e l p) eqn:Hu; cbn [andb].
  - rewrite make_entry_ok by done. destruct (IH (set_entry (function_name p) (entry e l p) c) Hnd) as (r & c' & -> & Hl & Hi & Hr & Hp).
    exists r, c'. split_and!; try done. intros Hok. destruct (Hp Hok) as [Hps Hother]. split.
    + intros q [->|Hq]%elem_of_cons; [|by apply Hps]. rewrite Hother by done. cbn. apply lookup_partial_alter_eq.
    + intros n Hn. apply not_elem_of_cons in Hn as [Hn1 Hn2]. rewrite Hother by done. cbn. by apply lookup_partial_alter_ne.
  - destruct (make_entry_throws e l p c Hu) as [msg ->]. exists (Throw (MCCLError msg)), c. split_and!; try done. by exists msg.
Qed.

Lemma compile_library_spec e c :
  kc_library c = None ->
  match compiled e with
  | Some l => compile_library e c = (Ok tt, set_library (Some l) c)
  | None => exists msg, compile_library e c = (Throw (MCCLError msg), c)
  end.
Proof.
  intros Hc. unfold compiled, compile_library. destruct (find_source e) as [p|]; cbn; [|by eexists].
  destruct (read_file e p) as [src|]; cbn; [|by eexists]. unfold mbind, M_bind, DISTRO_CHECK, modS. cbn.
  destruct (compile e src _ _) as [l|]; [done|]. eexists. unfold throw. do 2 f_equal. destruct c; cbn in *. by subst.
Qed.
End Spec.

(** [metal_kernels_init] on a cache that is not initialised.  The library is the
    first precompiled one that loads, else the one the cache already had, else
    the compiled one.  If there is one and it has all the functions of the
    float and half kernels, and every function it has gives a pipeline, the
    cache is initialised with exactly those pipelines; otherwise the call
    throws, and the cache stays uninitialised with that library.  An initialised
    cache is left alone. *)
Lemma metal_kernels_init_cases {Lib} (e : surroundings Lib) (c : KernelCache Lib) :
  if kc_initialized c then metal_kernels_init e c = (Ok tt, c) else
  exists r c', metal_kernels_init e c = (r, c') /\ kc_library c' = chosen e (kc_library c) /\
    if match chosen e (kc_library c) with Some l => forallb (usable e l) all_pipelines | None => false end
    then r = Ok tt /\ kc_initialized c' = true /\
      (forall l p, kc_library c' = Some l -> p ∈ all_pipelines -> kc_pipelines c' !! function_name p = entry e l p)
    else (exists msg, r = Throw (MCCLError msg)) /\ kc_initialized c' = false.
Proof.
  destruct (kc_initialized c) eqn:Hi.
  { unfold metal_kernels_init, mbind, M_bind, getS. by rewrite Hi. }
  assert (forall l c2, kc_library c2 = Some l -> kc_initialized c2 = false ->
    exists r c', (forM all_pipelines (make_entry e l) ≫= fun _ => modS (fun c => mkCache (kc_library c) (kc_pipelines c) true)) c2 = (r, c') /\
      kc_library c' = Some l /\
      if forallb (usable e l) all_pipelines
      then r = Ok tt /\ kc_initialized c' = true /\
        (forall l0 p, kc_library c' = Some l0 -> p ∈ all_pipelines -> kc_pipelines c' !! function_name p = entry e l0 p)
      else (exists msg, r = Throw (MCCLError msg)) /\ kc_initialized c' = false) as Hmake.
  { intros l c2 Hl2 Hi2. destruct (make_entries e l all_pipelines c2 names_distinct) as (r & c' & E & Hl & Hi' & Hr & Hp).
    destruct (forallb _ _).
    - subst r. destruct (Hp eq_refl) as [Hps _]. eexists _, _. split; [unfold mbind, M_bind; by rewrite E|]. cbn.
      rewrite Hl. split_and!; try done. intros l0 p [= <-]%(eq_trans (eq_sym Hl2)) Hin. by apply Hps.
    - destruct Hr as [msg ->]. exists (Throw (MCCLError msg)), c'. split; [unfold mbind, M_bind; by rewrite E|].
      split_and!; [congruence|by exists msg|congruence]. }
  unfold metal_kernels_init, chosen. unfold mbind at 1, M_bind at 1, getS at 1. cbv beta iota. rewrite Hi.
  unfold mbind at 1, M_bind at 1, modS at 1. cbv beta iota. unfold mbind at 1, M_bind at 1, getS at 1. cbv beta iota.
  destruct (try_metallibs e (metallib_search e) (kc_library c)) as [l|] eqn:Et; cbn [kc_library set_library].
  - apply (Hmake l (set_library (Some l) c)); done.
  - pose proof (compile_library_spec e (set_library None c) eq_refl) as Hcomp. destruct (compiled e) as [l|] eqn:Ec.
    + unfold mbind at 1, M_bind at 1. rewrite Hcomp. apply (Hmake l (set_library (Some l) (set_library None c))); done.
    + destruct Hcomp as [msg Hcomp]. unfold mbind at 1, M_bind at 1. rewrite Hcomp.
      eexists _, _. split; [done|]. split_and!; [done|by exists msg|done].
Qed.

(** ** Properties *)

(** The calls one after the other, each in its own surroundings, with what they
    returned. *)
Fixpoint init_calls {Lib} (es : list (surroundings Lib)) (c : KernelCache Lib) : list (result unit) * KernelCache Lib :=
  match es with
  | [] => ([], c)
  | e :: es => let '(r, c) := metal_kernels_init e c in let '(rs, c) := init_calls es c in (r :: rs, c)
  end.

(** The pipelines that must be there. *)
Definition complete {Lib} (c : KernelCache Lib) : Prop :=
  (exists l, kc_library c = Some l) /\
  forall p, p ∈ all_pipelines -> required p = true -> kc_pipelines c !! function_name p = Some tt.

Lemma init_complete {Lib} (e : surroundings Lib) c r c' :
  metal_kernels_init e c = (r, c') -> (kc_initialized c = true -> complete c) ->
  (kc_initialized c' = true -> complete c') /\ (r = Ok tt <-> kc_initialized c' = true) /\
  (kc_initialized c = true -> c' = c).
Proof.
  intros E Hc. pose proof (metal_kernels_init_cases e c) as H. destruct (kc_initialized c) eqn:Hi.
  { rewrite E in H. simplify_eq. by rewrite Hi. }
  destruct H as (r0 & c0 & E0 & Hl & H). rewrite E in E0. simplify_eq. destruct (chosen e (kc_library c)) as [l|].
  2:{ destruct H as [[msg ->] Hf]. rewrite Hf. by split_and!. }
  destruct (forallb (usable e l) all_pipelines) eqn:Hall.
  - destruct H as (-> & Hi' & Hp). rewrite Hi'. split_and!; [|done|done]. intros _. split; [by exists l|]. intros p Hin Hreq.
    rewrite (Hp l p Hl Hin). rewrite forallb_forall in Hall. specialize (Hall p (proj1 (list_elem_of_In _ _) Hin)).
    unfold usable, entry in *. destruct (has_function e l _); [done|]. by rewrite Hreq in Hall.
  - destruct H as [[msg ->] Hf]. rewrite Hf. by split_and!.
Qed.

Lemma init_calls_spec {Lib} (es : list (surroundings Lib)) c0 rs c :
  init_calls es c0 = (rs, c) -> (kc_initialized c0 = true -> complete c0) ->
  length rs = length es /\ (kc_initialized c = true <-> kc_initialized c0 = true \/ Ok tt ∈ rs) /\
  (kc_initialized c = true -> complete c) /\
  (kc_initialized c0 = true -> Forall (fun r => r = Ok tt) rs) /\
  (forall i j, rs !! i = Some (Ok tt) -> i <= j < length es -> rs !! j = Some (Ok tt)).
Proof.
  revert c0 rs. induction es as [|e es IH]; intros c0 rs Hrun Hc; cbn in Hrun.
  { simplify_eq. split_and!; try done. set_solver. }
  destruct (metal_kernels_init e c0) as [r c1] eqn:E. destruct (init_calls es c1) as [rs' c'] eqn:E'. simplify_eq.
  destruct (init_complete e c0 r c1 E Hc) as (Hc1 & Hr & Hsame).
  destruct (IH c1 rs' E' Hc1) as (Hlen & Hiff & Hcomp & Hall & Hlater). split_and!.
  - cbn. by rewrite Hlen.
  - rewrite Hiff, <- Hr, elem_of_cons. split; [naive_solver|]. intros [Hi|[->|Hin]]; [|by left|by right].
    left. apply Hr. by rewrite (Hsame Hi).
  - done.
  - intros Hi. rewrite (Hsame Hi) in *. constructor; [by apply Hr|by apply Hall].
  - intros [|i] [|j] Hi Hj; cbn in *; [done| |lia|by apply (Hlater i); [|lia]].
    injection Hi as ->. destruct (lookup_lt_is_Some_2 rs' j) as [x Hx]; [lia|].
    change (rs' !! j = Some (Ok tt)). rewrite Hx.
    f_equal. by apply (Forall_lookup_1 _ _ _ _ (Hall (proj1 Hr eq_refl)) Hx).
Qed.

(** C15: The kernel cache over any sequence of calls, whatever files, libraries and
    variables each of them finds: it is initialised exactly when some call has
    returned; then it has a library and all float and half kernels, and every
    later call returns and changes nothing. *)
Theorem kernel_cache_complete {Lib} (es : list (surroundings Lib)) rs c :
  init_calls es cache_new = (rs, c) ->
  (kc_initialized c = true <-> Ok tt ∈ rs) /\ (kc_initialized c = true -> complete c) /\
  (forall i j, rs !! i = Some (Ok tt) -> i <= j < length es -> rs !! j = Some (Ok tt)) /\
  (kc_initialized c = true -> forall e, metal_kernels_init e c = (Ok tt, c)).
Proof.
  intros Hrun.
  destruct (init_calls_spec es cache_new rs c Hrun) as (_ & Hiff & Hcomp & _ & Hlater); [done|]. split_and!; [|done|done|].
  - rewrite Hiff. split; [|by right]. by intros [|].
  - intros Hi e. pose proof (metal_kernels_init_cases e c) as Hcase. by rewrite Hi in Hcase.
Qed.

(** A library that lacks a kernel is not given up.  The cache keeps it although
    the call throws, and a later call that finds no precompiled library takes it
    again instead of compiling the source: it throws as well, whatever source
    there is. *)
Theorem bad_library_sticks {Lib} (e : surroundings Lib) c l p :
  kc_initialized c = false -> kc_library c = Some l -> Forall (fun f => file_exists e f = false) (metallib_search e) ->
  p ∈ all_pipelines -> usable e l p = false ->
  exists msg c', metal_kernels_init e c = (Throw (MCCLError msg), c') /\ kc_library c' = Some l /\ kc_initialized c' = false.
Proof.
  intros Hi Hl Hno Hp Hu. pose proof (metal_kernels_init_cases e c) as H. rewrite Hi in H.
  assert (chosen e (kc_library c) = Some l) as Hch.
  { unfold chosen. rewrite Hl. assert (try_metallibs e (metallib_search e) (Some l) = Some l) as ->; [|done].
    induction Hno as [|f fs Hf _ IH]; [done|]. cbn. by rewrite Hf. }
  rewrite Hch in H. destruct H as (r & c' & E & Hl' & H). destruct (forallb (usable e l) all_pipelines) eqn:Hall.
  - rewrite forallb_forall in Hall. specialize (Hall p (proj1 (list_elem_of_In _ _) Hp)). congruence.
  - destruct H as [[msg ->] Hf]. by exists msg, c'.
Qed.

(** ** Calls *)

(** Libraries as the lists of their functions: a metallib without the kernels,
    a source with them. *)
Definition demo_sur (metallib : bool) : surroundings (list string) :=
  mkSur None None (Some (lit "/lib")) None 15 (fun f => bool_decide (f = path_in (lit "/lib") "shaders.metal") || metallib)
    (fun _ => Some []) (fun f => Some f) (fun _ _ _ => Some (function_name <$> all_pipelines))
    (fun l n => bool_decide (n ∈ l)) (fun _ _ => true).

(** Compiled at the first call; the second does nothing. *)
Lemma kernel_cache_complete_witness :
  exists rs c, init_calls [demo_sur false; demo_sur true] cache_new = (rs, c) /\ rs = [Ok tt; Ok tt] /\ complete c.
Proof.
  destruct (init_calls [demo_sur false; demo_sur true] cache_new) as [rs c] eqn:E.
  destruct (kernel_cache_complete [demo_sur false; demo_sur true] rs c E) as (Hiff & Hc & _).
  assert (rs = [Ok tt; Ok tt]) as Hrs by (change rs with (rs, c).1; rewrite <- E; vm_compute; reflexivity).
  exists rs, c. split; [reflexivity|]. split; [exact Hrs|]. apply Hc, Hiff. rewrite Hrs. left.
Defined.

(** The bad metallib, then no metallib but the good source. *)
Lemma bad_library_sticks_witness :
  exists msg c', metal_kernels_init (demo_sur false) (metal_kernels_init (demo_sur true) cache_new).2 = (Throw (MCCLError msg), c') /\
    kc_library c' = Some [].
Proof.
  destruct (bad_library_sticks (demo_sur false) (metal_kernels_init (demo_sur true) cache_new).2 [] (mkPipeline KAdd F32))
    as (msg & c' & E & Hl & _); [reflexivity|reflexivity|repeat constructor|left|reflexivity|].
  exists msg, c'. split; [exact E|exact Hl].
Defined.
